(* ===== verification/_CoqProject ===== *)
-Q . S2P
Prelude.v
StdSort.v
StdMap.v
Utils.v
Config.v
Router.v
Buffer.v
Http.v
HttpParser.v
HttpParserSpec.v
HttpParserProps.v
HttpGrammar.v
HttpAccept.v
CircuitBreaker.v
LoadBalancer.v
BackendConnection.v
HealthChecker.v
BackendPool.v
Proxy.v
Connection.v
Timer.v
EventLoop.v
Stats.v
ThreadPool.v
MockBackend.v
RecvRequest.v
Stdio.v
AsyncLogger.v
Logger.v
Double.v
Float64.v
Filters.v
RateLimit.v
Gateway.v
Workers.v
Accounting.v
Provenance.v
Leases.v
Isolation.v
Listener.v
TcpServer.v
Reactor.v
JsonConfig.v
Main.v
Admission.v
Startup.v
Server.v
System.v
Guarantees.v
Stream.v
Shutdown.v
