(* ===== verification/Prelude.v ===== *)
(** * Verification of the API gateway

    The program is a C++17 HTTP gateway (sources under src/src and
    src/include/gateway).  One thread runs an epoll event loop that owns the
    client connections; a worker pool runs the request pipeline; backends are
    reached over pooled TCP connections.  A request takes this path:

    - [net/connection.cpp] reads bytes into a [net/buffer.cpp] buffer and feeds
      them to the incremental parser of [http/parser.cpp] until a message is
      complete, then hands the raw bytes to a worker;
    - [core/gateway.cpp] parses them again in one shot, answers the internal
      endpoints, runs the request filters ([filter/]), matches the route
      ([core/router.cpp]), selects a backend ([proxy/load_balancer.cpp]), asks its
      circuit breaker ([proxy/circuit_breaker.cpp]) and forwards
      ([proxy/proxy.cpp], [proxy/backend_pool.cpp], [proxy/backend.cpp]);
    - the result is recorded ([monitor/stats.cpp]), reported to the breaker,
      given its headers and sent back over the connection, which is kept for the
      next request or closed;
    - [net/event_loop.cpp] dispatches events, runs tasks deferred by workers and
      drives the timers of [timer/timer.cpp] (idle expiry, health checks).

    ** Files

    - [Prelude]: bytes, machine integers, substring search as the C library does
      it, the tactics [breflect], [split_if], [zlen_facts] and the hint bases.
    - [StdSort], [StdMap]: what is used of std::sort (an interface: any sorted
      permutation) and std::map (a sorted association list).
    - [Utils], [Config], [Router], [Buffer], [Http]: utils.cpp, config.h/.cpp,
      router.cpp, buffer.cpp, request.cpp and response.cpp.
    - [HttpParser]: every function of http/parser.cpp.  [HttpParserSpec] is its
      abstract machine, which consumes one unit at a time, with the refinement
      proof; [HttpParserProps], [HttpGrammar] and [HttpAccept] hold what follows
      from it for streams, for the one-shot parser and for well-formed messages.
    - [CircuitBreaker], [LoadBalancer], [BackendConnection], [BackendPool],
      [Proxy]: the files of proxy/ with these names ([BackendConnection] is
      backend.cpp).
    - [Connection]: net/connection.cpp, the five-state machine of a client.
    - [Timer], [EventLoop], [Stats]: timer.cpp, event_loop.cpp (construction,
      descriptor tables, deferred tasks, run and stop), stats.cpp.
    - [HealthChecker]: health_checker.cpp, the TCP probe and the round of checks.
    - [ThreadPool]: thread_pool.cpp as a machine of workers, submitters and
      destructor with their condition variables.
    - [Stdio], [AsyncLogger], [Logger]: what is used of <cstdio>, the background
      logger and its front end.
    - [Double], [Float64]: double arithmetic as the code uses it, and the rounding
      lemmas it needs.
    - [Filters]: the filter interface with its contract, the request-id and logging
      filters; [RateLimit]: the token bucket of rate_limit_filter.cpp in doubles.
    - [TcpServer]: socket.cpp and tcp_server.cpp.
    - [JsonConfig]: the JSON lexer and the configuration parser of
      config_loader.cpp.
    - [Gateway]: process_request and what it calls in gateway.cpp; [Workers]:
      process_request as a thread among others, one call at a time; [Accounting]:
      what holds over all interleavings of such threads; [Provenance]: what such a
      thread may answer, [Leases]: who has a backend connection, [Isolation]: the calls
      on a breaker, again over all interleavings; [Listener]: the backend inventory, the
      connection table and its limit.
    - [Main]: main.cpp; [Admission]: the filter chain of main in [Workers], with the
      cleanup of the rate limiter by the loop; [Startup]: Gateway::run with its periodic tasks; [Server]:
      the flow of requests between the loop, the pool and the workers; [System]:
      loop, [ThreadPool] and [Workers] in one machine that refines all three;
      [Guarantees]: what the interleaved pipelines promise, for that machine;
      [Stream]: what the byte stream of a client says its requests are.
    - [Reactor]: the connections as objects shared by the lambdas of Gateway::run,
      with descriptors that are given out again; [Shutdown]: the destruction of the
      members of Gateway.
    - [MockBackend]: the echo servers of src/backend; [RecvRequest]:
      recv_all_request of utils.cpp.

    ** How the code is modelled

    Each file has one Module per component: a record with the members of the
    class, the enums as inductive types, and one definition per method with the
    branches of the source.  Integers are [Z] with the wrap-around of their width
    written out where it can matter ([u64], [i32], [i64]); where C++ leaves a signed overflow
    undefined, a value that goes on being used is the two's complement one (the timeout of
    a breaker, a Content-Length), and an overflow in the arithmetic of the start is [None]
    or [Undefined].  Bytes are [ascii].  What a
    system call, the clock or a random generator answers is an argument: a single
    value, a record of answers, or a script that a loop reads one entry at a time.
    A function returns [None] when it has not returned (the script or the fuel is
    used up) or when the C++ would leave an array, dereference null or throw.
    Effects on the outside are lists of events.  Critical sections under one mutex
    are single operations, so an interleaving of threads is a sequence of
    operations and the invariants quantify over all sequences.

    ** What is shown

    - Parser: when every read of a stream returns, the result is that of one read of the
      whole; a read that stops inside a chunk delimiter never returns; no byte is lost
      or duplicated; every well-formed plain or chunked message is completed exactly,
      with what follows kept; the one-shot parser agrees on completed messages.  Four turns of the dispatch loop are enough fuel, except
      for the inputs on which the loop never returns, which are characterised.
    - Connection: a request is delivered exactly once, pipelined requests follow,
      the states move along the documented diagram, the descriptor is closed once.
    - Pipeline: every request is answered exactly once, a request reaches a
      backend only when parser, filters, router and breaker admit it, five
      failures isolate a backend, and what happens to the response's bytes.
    - Proxying: pool counts and bounds under every interleaving, reuse order,
      responses with a Content-Length received whole however they are cut, balance of
      acquire and release.
    - Balancing, routing, breaker: fairness and balance, longest-prefix match for
      any std::sort, the phases and admissions of the breaker under any sequence of calls,
      thresholds and probe counts.
    - Buffer, timer, event loop, statistics, connection table: two buffers under all their
      operations refine two byte queues; exact firing; order and progress of deferred tasks; exact
      counts; the connection limit.
    - Rate limiting: in every window a client gets at most its burst plus its rate,
      with the rounding of the doubles; clients do not influence each other.
    - Thread pool, health checker, logger: tasks run once and in order, no wake-up
      is lost, destruction drains the queue; the status follows the last probes; the
      log file is complete and in order, and what rolling does.
    - The whole: a request goes from the socket through loop, pool and worker back to
      its connection; responses keep the order of the requests under every
      interleaving of locks and notifications and are computed from those requests,
      nothing deadlocks and no request is forgotten, the periodic tasks keep their
      schedules, and gateway and echo server understand each other.  The requests a
      client gets served are the messages of its byte stream, as a parser that is given
      the stream at once finds them, whatever the cuts and the interleaving.
    - What a response is made of: whatever runs at the same time, a response is one of the
      answers a specification without shared state allows for its own request; it comes
      over a connection to the backend selected for that request, which nobody else is
      using; five failures isolate a backend and a client is held to its rate under every
      interleaving; the number of workers bounds the load.
    - Concurrency of the pipeline: in every interleaving the counts of balancer, pool
      and statistics agree with what the threads are doing, every breaker stays in its
      diagram, every thread answers within a bounded number of calls, and a thread that
      is not disturbed is [process_request]; where two threads do collide is shown.
    - Objects: handlers run on the connection that owns the descriptor and close only
      what is theirs; connections are never destroyed; an event can outlive its
      connection; the requests still queued at the end are run by workers for which the
      filters, breakers, balancer, proxy and router are gone.
    - Configuration: a round trip through any text of an independent grammar of
      configurations, and which texts lose settings or never load.

    Where the code does not do what its comments or its README say, a theorem
    states what it does.

    ** Bounds and fuel

    Loops over system calls consume their script, so they need no fuel.  The parser's
    dispatch loop takes a fuel of four turns, which [feed_terminates_or_hangs] proves
    enough or never enough; the loop of [try_parse_message] takes [rounds_for] turns.
    [tick] takes one turn more than the heap has entries, which [tick_fires_due]
    proves enough.  Interleavings are lists of labels of any length.

    ** Not modelled

    What the kernel does behind a system call, the local time and the text printf
    formats are arguments.  A call on an object that protects itself with a lock or
    atomics is one step; the unlocked reads that race with writers
    ([get_circuit_breaker], [get_or_create]) are modelled as if they were atomic, as the
    behaviour of a data race is not defined, and the former is shown to be reachable.
    Reordering of relaxed atomics is not modelled.  The set-up of the listening socket of
    the echo servers, signal and mkdir are single system calls whose results the code
    ignores. *)

(** ** Prelude: shared vocabulary of the development *)

From stdpp Require Export prelude gmap strings list fin_maps sorting.
From Stdlib Require Export Ascii ZArith Lia.

(** ** Bytes and literals *)

(** A C++ [std::string], [string_view] or [char*] range is a list of bytes. *)
Abbreviation bytes := (list ascii).

(** A string literal of the source as bytes. *)
Definition lit (s : string) : bytes := String.list_ascii_of_string s.

Declare Scope gw_scope.
Delimit Scope gw_scope with gw.
Notation "'CR'" := ("013"%char) : gw_scope.
Notation "'LF'" := ("010"%char) : gw_scope.
Notation "'SP'" := ("032"%char) : gw_scope.
Notation "'TAB'" := ("009"%char) : gw_scope.
Notation "'CRLF'" := (["013"%char; "010"%char]) : gw_scope.
Notation "'CRLFCRLF'" :=
  (["013"%char; "010"%char; "013"%char; "010"%char]) : gw_scope.
Open Scope gw_scope.

Definition code (c : ascii) : Z := Z.of_N (N_of_ascii c).

(** ** Machine integers *)

Definition two64 : Z := 18446744073709551616.
Definition INT_MAX : Z := 2147483647.
Definition LONG_MAX : Z := 9223372036854775807.
Definition LONG_MIN : Z := -9223372036854775808.

(** Conversion to [size_t] / [uint64_t]: reduction modulo 2^64. *)
Definition u64 (z : Z) : Z := z mod two64.

(** Conversion of a [long] to [int] (two's complement truncation). *)
Definition i32 (z : Z) : Z := (z + 2147483648) mod 4294967296 - 2147483648.

(** A [long] result in two's complement. *)
Definition i64 (z : Z) : Z := (z + 9223372036854775808) mod two64 - 9223372036854775808.

Lemma i64_small z : (LONG_MIN <= z <= LONG_MAX)%Z -> i64 z = z.
Proof. unfold i64, two64, LONG_MIN, LONG_MAX. intros H. rewrite Z.mod_small; lia. Qed.

Lemma i64_linear a b k : i64 (i64 a * k + b) = i64 (a * k + b).
Proof.
  unfold i64. f_equal. set (h := 9223372036854775808%Z).
  replace (((a + h) mod two64 - h) * k + b + h)%Z with (((a + h) mod two64) * k + (b + h - h * k))%Z by lia.
  rewrite <- Z.add_mod_idemp_l, Z.mul_mod_idemp_l, Z.add_mod_idemp_l by done. f_equal. lia.
Qed.

Lemma u64_small z : (0 <= z < two64)%Z -> u64 z = z.
Proof. intros H. unfold u64. by apply Z.mod_small. Qed.

Lemma u64_range z : (0 <= u64 z < two64)%Z.
Proof. unfold u64. apply Z.mod_pos_bound. unfold two64; lia. Qed.

Lemma u64_idemp_add_l a b : u64 (u64 a + b) = u64 (a + b).
Proof. unfold u64. apply Zplus_mod_idemp_l. Qed.

Lemma u64_idemp_add_r a b : u64 (a + u64 b) = u64 (a + b).
Proof. unfold u64. apply Zplus_mod_idemp_r. Qed.

Lemma i32_small z : (-2147483648 <= z <= INT_MAX)%Z -> i32 z = z.
Proof. unfold i32, INT_MAX. intros H. rewrite Z.mod_small; lia. Qed.

Lemma i32_range z : (-2147483648 <= i32 z <= INT_MAX)%Z.
Proof.
  unfold i32, INT_MAX.
  pose proof (Z.mod_pos_bound (z + 2147483648) 4294967296). lia.
Qed.

(** Length of a byte range as a [size_t]. *)
Definition zlen {A} (l : list A) : Z := Z.of_nat (length l).

Lemma zlen_app {A} (a b : list A) : zlen (a ++ b) = (zlen a + zlen b)%Z.
Proof. unfold zlen. rewrite length_app. lia. Qed.

Lemma zlen_nil {A} : zlen (@nil A) = 0%Z.
Proof. done. Qed.

Lemma zlen_cons {A} (x : A) l : zlen (x :: l) = (1 + zlen l)%Z.
Proof. unfold zlen. simpl. lia. Qed.

Lemma zlen_0 {A} (l : list A) : zlen l = 0%Z -> l = [].
Proof. destruct l; [done|]. rewrite zlen_cons. unfold zlen. lia. Qed.

Lemma zlen_pos {A} (l : list A) : l <> [] -> (0 < zlen l)%Z.
Proof. destruct l; [done|]. rewrite zlen_cons. unfold zlen. lia. Qed.

Lemma zlen_nonneg {A} (a : list A) : (0 <= zlen a)%Z.
Proof. unfold zlen. lia. Qed.

(** Add [0 <= zlen l] for every length in sight. *)
Ltac zlen_facts :=
  repeat match goal with
  | |- context [zlen ?l] =>
      lazymatch goal with _ : (0 <= zlen l)%Z |- _ => fail | _ => pose proof (zlen_nonneg l) end
  | _ : context [zlen ?l] |- _ =>
      lazymatch goal with _ : (0 <= zlen l)%Z |- _ => fail | _ => pose proof (zlen_nonneg l) end
  end.

(** ** Searching: [memchr], [memmem], [std::string::find] *)

Fixpoint find_char (c : ascii) (s : bytes) : option nat :=
  match s with
  | [] => None
  | a :: s' => if Ascii.eqb a c then Some 0 else S <$> find_char c s'
  end.

Fixpoint prefixb (p s : bytes) : bool :=
  match p, s with
  | [], _ => true
  | a :: p', b :: s' => Ascii.eqb a b && prefixb p' s'
  | _ :: _, [] => false
  end.

Fixpoint find_sub (needle hay : bytes) : option nat :=
  if prefixb needle hay then Some 0
  else match hay with
       | [] => None
       | _ :: hay' => S <$> find_sub needle hay'
       end.

(** [s.find(needle, pos)]: the match is searched from [pos] on. *)
Definition find_sub_from (needle hay : bytes) (pos : nat) : option nat :=
  if pos <=? length hay then (fun i => pos + i) <$> find_sub needle (drop pos hay)
  else None.

Definition find_char_from (c : ascii) (hay : bytes) (pos : nat) : option nat :=
  if pos <? length hay then (fun i => pos + i) <$> find_char c (drop pos hay)
  else None.

(** [s.substr(pos, n)] and the ranges [assign(data + pos, n)]. *)
Definition slice (pos n : nat) (s : bytes) : bytes := take n (drop pos s).

(** ** Tactics *)

(** Turn boolean tests of the code into propositions. *)
Ltac breflect :=
  repeat match goal with
  | H : (_ && _) = true |- _ => apply andb_true_iff in H as [? ?]
  | H : (_ || _) = false |- _ => apply orb_false_iff in H as [? ?]
  | H : negb _ = true |- _ => apply negb_true_iff in H
  | H : negb _ = false |- _ => apply negb_false_iff in H
  | H : Ascii.eqb _ _ = true |- _ => apply Ascii.eqb_eq in H
  | H : Ascii.eqb _ _ = false |- _ => apply Ascii.eqb_neq in H
  | H : Z.ltb _ _ = true |- _ => apply Z.ltb_lt in H
  | H : Z.ltb _ _ = false |- _ => apply Z.ltb_ge in H
  | H : Z.leb _ _ = true |- _ => apply Z.leb_le in H
  | H : Z.leb _ _ = false |- _ => apply Z.leb_gt in H
  | H : Z.eqb _ _ = true |- _ => apply Z.eqb_eq in H
  | H : Z.eqb _ _ = false |- _ => apply Z.eqb_neq in H
  | H : Nat.ltb _ _ = true |- _ => apply Nat.ltb_lt in H
  | H : Nat.ltb _ _ = false |- _ => apply Nat.ltb_ge in H
  | H : Nat.leb _ _ = true |- _ => apply Nat.leb_le in H
  | H : Nat.leb _ _ = false |- _ => apply Nat.leb_gt in H
  | H : Nat.eqb _ _ = true |- _ => apply Nat.eqb_eq in H
  | H : Nat.eqb _ _ = false |- _ => apply Nat.eqb_neq in H
  | H : bool_decide _ = true |- _ => apply bool_decide_eq_true in H
  | H : bool_decide _ = false |- _ => apply bool_decide_eq_false in H
  end.

(** Case split on the scrutinee of an [if] or [match] and reflect the test. *)
Ltac split_if :=
  match goal with
  | |- context [if ?b then _ else _] => destruct b eqn:?; breflect
  | H : context [if ?b then _ else _] |- _ => destruct b eqn:?; breflect
  end.

(** ** Lemmas on the searches *)

Lemma find_char_Some c s i :
  find_char c s = Some i ->
  s = take i s ++ c :: drop (S i) s /\ c ∉ take i s /\ i < length s.
Proof.
  revert i; induction s as [|a s IH]; intros i; simpl; [done|].
  destruct (Ascii.eqb a c) eqn:E; breflect.
  - intros [= <-]. simpl. split; [by subst|]. split; [set_solver|lia].
  - destruct (find_char c s) as [j|]; simpl; [|done]. intros [= <-].
    destruct (IH j eq_refl) as (Hs & Hn & Hl). simpl.
    split; [by rewrite <- Hs|]. split; [set_solver|lia].
Qed.

Lemma find_char_None c s : find_char c s = None <-> c ∉ s.
Proof.
  induction s as [|a s IH]; simpl; [set_solver|].
  destruct (Ascii.eqb a c) eqn:E; breflect.
  - split; [done|]. subst. set_solver.
  - destruct (find_char c s); simpl; [split; [done|]|]; set_solver.
Qed.

Lemma find_char_app c s t : c ∉ s -> find_char c (s ++ c :: t) = Some (length s).
Proof.
  induction s as [|a s IH]; intros H; simpl.
  - by rewrite Ascii.eqb_refl.
  - destruct (Ascii.eqb a c) eqn:E; breflect; [set_solver|].
    rewrite IH; [done|set_solver].
Qed.

Lemma find_char_app_l c s t i :
  find_char c s = Some i -> find_char c (s ++ t) = Some i.
Proof.
  revert i; induction s as [|a s IH]; intros i; simpl; [done|].
  destruct (Ascii.eqb a c); [done|].
  destruct (find_char c s) as [j|]; simpl; [|done]. intros [= <-].
  by rewrite (IH j).
Qed.

Lemma prefixb_spec p s : prefixb p s = true <-> exists t, s = p ++ t.
Proof.
  revert s; induction p as [|a p IH]; intros s; simpl.
  - split; [by exists s|done].
  - destruct s as [|b s]; [split; [done|by intros [t Ht]]|].
    rewrite andb_true_iff, IH, Ascii.eqb_eq. split.
    + intros [-> [t ->]]. by exists t.
    + intros [t [= -> ->]]. split; [done|by exists t].
Qed.

Lemma prefixb_app_l p s t : prefixb p s = true -> prefixb p (s ++ t) = true.
Proof.
  rewrite !prefixb_spec. intros [u ->]. exists (u ++ t). by rewrite app_assoc.
Qed.

Lemma find_sub_unfold needle a hay :
  find_sub needle (a :: hay) =
  if prefixb needle (a :: hay) then Some 0 else S <$> find_sub needle hay.
Proof. done. Qed.

Lemma find_sub_Some needle hay i :
  find_sub needle hay = Some i ->
  (exists b, hay = take i hay ++ needle ++ b) /\ i <= length hay.
Proof.
  revert i; induction hay as [|a hay IH]; intros i.
  - simpl. destruct (prefixb needle []) eqn:E; [|done].
    intros [= <-]. apply prefixb_spec in E as [t E]. split; [by exists t|done].
  - rewrite find_sub_unfold. destruct (prefixb needle (a :: hay)) eqn:E.
    + intros [= <-]. apply prefixb_spec in E as [t E]. split; [by exists t|lia].
    + destruct (find_sub needle hay) as [j|]; simpl; [|done]. intros [= <-].
      destruct (IH j eq_refl) as [[b Hb] Hl].
      split; [|simpl; lia]. exists b. simpl. by f_equal.
Qed.

(** [find_sub] is the least occurrence. *)
Lemma find_sub_least needle pre post :
  exists i, find_sub needle (pre ++ needle ++ post) = Some i /\ i <= length pre.
Proof.
  induction pre as [|a pre IH].
  - exists 0. simpl. split; [|lia].
    assert (prefixb needle (needle ++ post) = true) as E
      by (apply prefixb_spec; by exists post).
    destruct (needle ++ post) as [|b l]; simpl in *; by rewrite E.
  - destruct IH as (i & Hi & Hl). rewrite <- app_comm_cons, find_sub_unfold.
    destruct (prefixb _ _); [exists 0; simpl; split; [done|lia]|].
    exists (S i). rewrite Hi. simpl. split; [done|lia].
Qed.

Lemma find_sub_app_l needle hay t i :
  find_sub needle hay = Some i -> find_sub needle (hay ++ t) = Some i.
Proof.
  revert i; induction hay as [|a hay IH]; intros i.
  - simpl. destruct (prefixb needle []) eqn:E; [|done]. intros [= <-].
    apply prefixb_spec in E as [u E]. symmetry in E. apply app_nil in E as [-> _].
    by destruct t.
  - rewrite <- app_comm_cons, !find_sub_unfold.
    destruct (prefixb needle (a :: hay)) eqn:E.
    + intros [= <-]. by rewrite app_comm_cons, (prefixb_app_l _ _ t E).
    + destruct (find_sub needle hay) as [j|] eqn:F; [|done]. simpl. intros [= <-].
      apply find_sub_Some in F as F'. destruct F' as [[b Hb] _].
      rewrite (IH j eq_refl). simpl.
      assert (prefixb needle (a :: hay ++ t) = false) as ->; [|done].
      apply not_true_iff_false. rewrite prefixb_spec. intros [u Hu].
      apply not_true_iff_false in E. apply E, prefixb_spec.
      exists (take (length (a :: hay) - length needle) u).
      assert (length needle <= length (a :: hay)).
      { rewrite Hb. simpl. rewrite !length_app. lia. }
      rewrite app_comm_cons in Hu.
      apply (f_equal (take (length (a :: hay)))) in Hu.
      rewrite take_app_length, take_app in Hu.
      rewrite take_ge in Hu by lia. done.
Qed.

Lemma slice_length pos n s : length (slice pos n s) = n `min` (length s - pos).
Proof. unfold slice. rewrite length_take, length_drop. done. Qed.

(** A match is where the needle stands and stands nowhere before. *)
Lemma find_sub_Some_iff needle hay i :
  find_sub needle hay = Some i <->
  i <= length hay /\ prefixb needle (drop i hay) = true /\
  forall j, j < i -> prefixb needle (drop j hay) = false.
Proof.
  revert i; induction hay as [|a hay IH]; intros i.
  - simpl. destruct (prefixb needle []) eqn:E; split; try done.
    + intros [= <-]. split; [lia|]. split; [done|lia].
    + intros (Hi & _). f_equal. lia.
    + intros (Hi & Hp & _). assert (i = 0) as -> by lia. simpl in Hp. congruence.
  - rewrite find_sub_unfold. destruct (prefixb needle (a :: hay)) eqn:E.
    + split; [intros [= <-]; split; [lia|]; split; [done|lia]|].
      intros (_ & _ & H). destruct i; [done|]. specialize (H 0 ltac:(lia)). simpl in H. congruence.
    + transitivity (exists j, i = S j /\ find_sub needle hay = Some j).
      { destruct (find_sub needle hay) as [j|]; simpl; split; [intros [= <-]; eauto| |done|].
        - by intros (? & -> & [= ->]).
        - by intros (? & -> & ?). }
      split.
      * intros (j & -> & Hj). apply IH in Hj as (Hl & Hp & Hj). simpl. split; [lia|].
        split; [done|]. intros [|k] Hk; [done|]. apply Hj. lia.
      * intros (Hl & Hp & Hj). destruct i as [|i]; [simpl in Hp; congruence|].
        exists i. split; [done|]. apply IH. simpl in Hl, Hp. split; [lia|]. split; [done|].
        intros k Hk. apply (Hj (S k)). lia.
Qed.

Lemma find_sub_None_iff needle hay :
  find_sub needle hay = None <-> forall a b, hay <> a ++ needle ++ b.
Proof.
  split.
  - intros E a b ->. destruct (find_sub_least needle a b) as (i & Hi & _). congruence.
  - intros H. destruct (find_sub needle hay) as [i|] eqn:E; [|done].
    apply find_sub_Some in E as [[b Hb] _]. by destruct (H _ _ Hb).
Qed.

(** The search passes a stretch without the first byte of the needle. *)
Lemma find_sub_skip c needle l rest :
  c ∉ l -> find_sub (c :: needle) (l ++ rest) =
  (fun i => length l + i)%nat <$> find_sub (c :: needle) rest.
Proof.
  induction l as [|a l IH]; intros Hc; simpl app.
  - simpl length. by destruct (find_sub (c :: needle) rest).
  - rewrite find_sub_unfold. assert (a <> c /\ c ∉ l) as [Ha Hl] by set_solver.
    simpl prefixb. rewrite (proj2 (Ascii.eqb_neq c a)) by done. simpl andb. cbv iota.
    rewrite IH by done. by destruct (find_sub (c :: needle) rest).
Qed.

(** ** Automation *)

Create HintDb gw discriminated.
#[export] Hint Resolve zlen_nonneg zlen_pos u64_range i32_range find_sub_app_l find_char_app_l
  prefixb_app_l : gw.
#[export] Hint Rewrite @zlen_app @zlen_cons @zlen_nil : zlen.
#[export] Hint Rewrite u64_idemp_add_l u64_idemp_add_r : u64.

(** Lengths of concrete concatenations. *)
Ltac zlen_solve := autorewrite with zlen in *; zlen_facts; lia.

(** ** Filters *)

Lemma filter_nil_inv' {A} (P : A -> Prop) `{forall x, Decision (P x)} (l : list A) :
  (forall x, x ∈ l -> ~ P x) -> filter P l = [].
Proof.
  induction l as [|a l IH]; intros Hl; [done|]. rewrite filter_cons_False; [|apply Hl; set_solver].
  apply IH. intros x Hx. apply Hl. set_solver.
Qed.

Lemma list_filter_all {A} (P : A -> Prop) `{forall x, Decision (P x)} (l : list A) :
  (forall x, x ∈ l -> P x) -> filter P l = l.
Proof.
  induction l as [|a l IH]; intros Hl; [done|]. rewrite filter_cons_True; [|apply Hl; set_solver].
  f_equal. apply IH. intros x Hx. apply Hl. set_solver.
Qed.

Lemma fmap_fixed {A} (f : A -> A) (l : list A) : (forall x, x ∈ l -> f x = x) -> f <$> l = l.
Proof.
  induction l as [|a l IH]; intros Hl; [done|]. rewrite fmap_cons, (Hl a) by set_solver.
  f_equal. apply IH. intros x Hx. apply Hl. set_solver.
Qed.

(** ** Sums over a list of threads *)

Lemma sum_insert {A} (f : A -> nat) l i a b :
  l !! i = Some a -> sum_list_with f (<[i := b]> l) + f a = sum_list_with f l + f b.
Proof.
  revert i; induction l as [|c l IH]; intros [|i]; simpl; [done|done|..].
  - intros [= ->]. lia.
  - intros Hi. specialize (IH i Hi). lia.
Qed.

Lemma sum_zero {A} (f : A -> nat) l : sum_list_with f l = 0 <-> forall a, a ∈ l -> f a = 0.
Proof.
  induction l as [|c l IH]; simpl; [split; [set_solver|done]|]. split.
  - intros H a [->|Ha]%elem_of_cons; [lia|]. apply IH; [lia|done].
  - intros H. rewrite (H c) by set_solver. apply IH. intros a Ha. apply H. set_solver.
Qed.
