(* ===== verification/StdSort.v ===== *)
(** * StdSort: what the gateway relies on from [std::sort]

    [std::sort] is not stable: which of several equivalent elements comes first
    is unspecified.  The code that sorts is therefore stated against the class
    below (a permutation, sorted for a strict weak ordering), and insertion sort
    is one instance, used to evaluate the definitions. *)

From S2P Require Import Prelude.

(** The contract of the comparison function of [std::sort]. *)
Record strict_weak_order {A} (lt : A -> A -> bool) : Prop := {
  swo_irrefl : forall a, lt a a = false;
  swo_trans : forall a b c, lt a b = true -> lt b c = true -> lt a c = true;
  swo_incomp : forall a b c, lt b a = false -> lt c b = false -> lt c a = false
}.

Class StdSort := {
  std_sort : forall {A}, (A -> A -> bool) -> list A -> list A;
  std_sort_perm : forall A (lt : A -> A -> bool) l, std_sort lt l ≡ₚ l;
  std_sort_sorted : forall A (lt : A -> A -> bool) l,
    strict_weak_order lt -> StronglySorted (fun a b => lt b a = false) (std_sort lt l)
}.

Section insertion.
Context {A : Type} (lt : A -> A -> bool).

Fixpoint sort_insert (x : A) (l : list A) : list A :=
  match l with
  | [] => [x]
  | y :: l' => if lt x y then x :: l else y :: sort_insert x l'
  end.

Definition insertion_sort (l : list A) : list A := foldr sort_insert [] l.

Lemma sort_insert_perm x l : sort_insert x l ≡ₚ x :: l.
Proof.
  induction l as [|y l IH]; simpl; [done|]. destruct (lt x y); [done|].
  rewrite IH. apply Permutation_swap.
Qed.

Lemma insertion_sort_perm l : insertion_sort l ≡ₚ l.
Proof. induction l as [|x l IH]; simpl; [done|]. by rewrite sort_insert_perm, IH. Qed.

Hypothesis Hlt : strict_weak_order lt.

Lemma lt_asym a b : lt a b = true -> lt b a = false.
Proof.
  intros H. destruct (lt b a) eqn:E; [|done].
  pose proof (swo_trans _ Hlt _ _ _ H E). by rewrite (swo_irrefl _ Hlt) in *.
Qed.

Lemma sort_insert_sorted x l :
  StronglySorted (fun a b => lt b a = false) l ->
  StronglySorted (fun a b => lt b a = false) (sort_insert x l).
Proof.
  induction 1 as [|y l Hl IH Hy]; simpl; [repeat constructor|].
  destruct (lt x y) eqn:E.
  - constructor; [by constructor|]. constructor; [by apply lt_asym|].
    rewrite Forall_forall in Hy |- *. intros z Hz.
    eapply (swo_incomp _ Hlt); [by apply lt_asym|by apply Hy].
  - constructor; [done|]. rewrite sort_insert_perm. by constructor.
Qed.

Lemma insertion_sort_sorted l :
  StronglySorted (fun a b => lt b a = false) (insertion_sort l).
Proof. induction l; simpl; [constructor|by apply sort_insert_sorted]. Qed.
End insertion.

#[export] Instance insertion_StdSort : StdSort := {|
  std_sort A lt l := insertion_sort lt l;
  std_sort_perm A lt l := insertion_sort_perm lt l;
  std_sort_sorted A lt l H := insertion_sort_sorted lt H l
|}.
