(* ===== verification/StdMap.v ===== *)
(** * StdMap: [std::map<std::string, std::string>] and [std::unordered_map]

    An association list sorted by key, in the order [std::less<std::string>]
    iterates it (lexicographic on unsigned bytes).  An unordered map with string
    keys is a [gmap]; what a loop over it visits first is an interface. *)

From S2P Require Import Prelude.

Module StdMap.

(** [std::string::compare] as the "less" test. *)
Fixpoint bytes_ltb (a b : bytes) : bool :=
  match a, b with
  | [], [] => false
  | [], _ :: _ => true
  | _ :: _, [] => false
  | x :: a', y :: b' =>
      if Ascii.eqb x y then bytes_ltb a' b' else (N_of_ascii x <? N_of_ascii y)%N
  end.

Definition t := list (bytes * bytes).

(** [m.find(k)] *)
Fixpoint find (k : bytes) (m : t) : option bytes :=
  match m with
  | [] => None
  | (k', v) :: m' => if decide (k = k') then Some v else find k m'
  end.

(** [m[k] = v] and [m[k].assign(v)] *)
Fixpoint set (k v : bytes) (m : t) : t :=
  match m with
  | [] => [(k, v)]
  | (k', v') :: m' =>
      if decide (k = k') then (k, v) :: m'
      else if bytes_ltb k k' then (k, v) :: m
      else (k', v') :: set k v m'
  end.

Lemma bytes_ltb_irrefl a : bytes_ltb a a = false.
Proof. induction a as [|x a IH]; simpl; [done|]. by rewrite Ascii.eqb_refl. Qed.

Lemma bytes_ltb_trans a b c :
  bytes_ltb a b = true -> bytes_ltb b c = true -> bytes_ltb a c = true.
Proof.
  revert b c; induction a as [|x a IH]; intros [|y b] [|z c]; simpl; try done.
  destruct (Ascii.eqb_spec x y) as [->|Hxy].
  - destruct (Ascii.eqb_spec y z) as [->|Hyz]; [apply IH|done].
  - destruct (Ascii.eqb_spec y z) as [->|Hyz].
    + intros H1 _. destruct (Ascii.eqb_spec x z); [done|done].
    + rewrite !N.ltb_lt. intros H1 H2. destruct (Ascii.eqb_spec x z) as [->|]; [lia|].
      apply N.ltb_lt. lia.
Qed.

Lemma bytes_ltb_total a b : bytes_ltb a b = false -> bytes_ltb b a = false -> a = b.
Proof.
  revert b; induction a as [|x a IH]; intros [|y b]; simpl; try done.
  destruct (Ascii.eqb_spec x y) as [->|Hxy].
  - rewrite Ascii.eqb_refl. intros H1 H2. f_equal. by apply IH.
  - destruct (Ascii.eqb_spec y x) as [->|_]; [done|].
    rewrite !N.ltb_ge. intros H1 H2. destruct Hxy.
    rewrite <- (ascii_N_embedding x), <- (ascii_N_embedding y). f_equal. lia.
Qed.

Lemma bytes_ltb_asym a b : bytes_ltb a b = true -> bytes_ltb b a = false.
Proof.
  intros H. destruct (bytes_ltb b a) eqn:E; [|done].
  pose proof (bytes_ltb_trans _ _ _ H E) as F. by rewrite bytes_ltb_irrefl in F.
Qed.

Lemma find_set_eq k v m : find k (set k v m) = Some v.
Proof.
  induction m as [|[k' v'] m IH]; simpl; [by rewrite decide_True|].
  destruct (decide (k = k')) as [->|]; simpl; [by rewrite decide_True|].
  destruct (bytes_ltb k k'); simpl; [by rewrite decide_True|by rewrite decide_False].
Qed.

Lemma find_set_ne k k1 v m : k <> k1 -> find k1 (set k v m) = find k1 m.
Proof.
  intros Hk. induction m as [|[k' v'] m IH]; simpl; [by rewrite decide_False|].
  destruct (decide (k = k')) as [->|]; simpl.
  - rewrite !decide_False by done. done.
  - destruct (bytes_ltb k k'); simpl; [by rewrite (decide_False (P := k1 = k))|].
    by rewrite IH.
Qed.

Lemma find_set k k1 v m :
  find k1 (set k v m) = if decide (k = k1) then Some v else find k1 m.
Proof. case_decide as E; [subst; apply find_set_eq|by apply find_set_ne]. Qed.

(** Iteration order: keys strictly increasing. *)
Definition sorted (m : t) : Prop :=
  StronglySorted (fun a b => bytes_ltb a.1 b.1 = true) m.

Lemma set_keys k v m p : p ∈ set k v m -> p = (k, v) \/ p ∈ m.
Proof.
  induction m as [|[k' v'] m IH]; simpl; [set_solver|].
  repeat (case_decide || destruct (bytes_ltb _ _)); set_solver.
Qed.

Lemma set_sorted k v m : sorted m -> sorted (set k v m).
Proof.
  induction 1 as [|[k' v'] m Hm IH Hk]; simpl; [repeat constructor|].
  rewrite Forall_forall in Hk. simpl in Hk.
  destruct (decide (k = k')) as [->|Hne].
  { constructor; [done|]. by apply Forall_forall. }
  destruct (bytes_ltb k k') eqn:E.
  - constructor; [constructor; [done|by apply Forall_forall]|].
    constructor; [done|]. apply Forall_forall. intros p Hp.
    eapply bytes_ltb_trans; [done|by apply Hk].
  - constructor; [done|]. apply Forall_forall. intros p Hp. simpl.
    apply set_keys in Hp as [->|Hp]; [|by apply Hk].
    simpl. destruct (bytes_ltb k' k) eqn:F; [done|].
    by destruct Hne; apply bytes_ltb_total.
Qed.

End StdMap.

(** The iteration order of [std::unordered_map] is unspecified. *)
Class HashOrder := {
  iterate : forall {V}, gmap bytes V -> list (bytes * V);
  iterate_perm : forall V (m : gmap bytes V), iterate m ≡ₚ map_to_list m
}.

#[global] Instance map_order : HashOrder := {| iterate V m := map_to_list m; iterate_perm V m := reflexivity _ |}.
