(* ===== verification/Utils.v ===== *)
(** * Utils: number parsing and printing

    [strtol] in base 10 as the C library documents it, [parse_int_safe] of
    src/utils/utils.cpp on top of it, and the decimal printing of
    [std::to_string] and of the "%d" conversions, with their round trip. *)

From S2P Require Import Prelude.

Module Utils.
Open Scope Z_scope.

(** ** <cctype> *)

Definition isspace (c : ascii) : bool :=
  (code c =? 32) || ((9 <=? code c) && (code c <=? 13)).
Definition isdigit (c : ascii) : bool := (48 <=? code c) && (code c <=? 57).
Definition isalpha (c : ascii) : bool :=
  ((65 <=? code c) && (code c <=? 90)) || ((97 <=? code c) && (code c <=? 122)).

(** ** strtol *)

Fixpoint skip_spaces (s : bytes) : nat :=
  match s with
  | c :: s' => if isspace c then S (skip_spaces s') else 0%nat
  | [] => 0%nat
  end.

(** Value and number of the leading digits. *)
Fixpoint digits (s : bytes) (acc : Z) : Z * nat :=
  match s with
  | c :: s' =>
      if isdigit c then
        let '(v, n) := digits s' (acc * 10 + (code c - 48)) in (v, S n)
      else (acc, 0%nat)
  | [] => (acc, 0%nat)
  end.

Record strtol_result := StrtolResult { val : Z; last : nat; erange : bool }.

(** [strtol(begin, &last, 10)] on the storage from [begin] on; [last] is an
    offset, and the storage ends with a NUL that stops the scan. *)
Definition strtol (s : bytes) : strtol_result :=
  let ws := skip_spaces s in
  let s1 := drop ws s in
  let '(neg, sg) :=
    match s1 with
    | "-"%char :: _ => (true, 1%nat)
    | "+"%char :: _ => (false, 1%nat)
    | _ => (false, 0%nat)
    end in
  let '(v, n) := digits (drop sg s1) 0 in
  match n with
  | O => StrtolResult 0 0 false
  | _ =>
      let v := if neg : bool then - v else v in
      let last := (ws + sg + n)%nat in
      if LONG_MAX <? v then StrtolResult LONG_MAX last true
      else if v <? LONG_MIN then StrtolResult LONG_MIN last true
      else StrtolResult v last false
  end.

(** [parse_int_safe(begin, end)] with [s] the storage from [begin] on and
    [n = end - begin]. *)
Definition parse_int_safe (s : bytes) (n : nat) : option Z :=
  if (n =? 0)%nat then None
  else
    let r := strtol s in
    if negb (last r =? n)%nat then None
    else if (val r <? 0) || (INT_MAX <? val r) then None
    else Some (val r).

(** ** Decimal printing *)

Definition digit_char (d : Z) : ascii := ascii_of_N (Z.to_N (48 + d)).

Fixpoint dec_go (fuel : nat) (n : Z) : bytes :=
  match fuel with
  | O => []
  | S fuel' =>
      if n <? 10 then [digit_char n]
      else dec_go fuel' (n / 10) ++ [digit_char (n mod 10)]
  end.

(** Each step divides by ten, so one step per binary digit is enough. *)
Definition dec_nonneg (n : Z) : bytes := dec_go (S (Z.to_nat (Z.log2 n))) n.

(** [std::to_string(int)] and "%d". *)
Definition to_string (n : Z) : bytes :=
  if n <? 0 then "-"%char :: dec_nonneg (- n) else dec_nonneg n.

(** ** Round trip *)

Lemma code_digit_char d : 0 <= d < 10 -> code (digit_char d) = 48 + d.
Proof.
  intros H. unfold code, digit_char. rewrite N_ascii_embedding by lia. lia.
Qed.

Lemma isdigit_digit_char d : 0 <= d < 10 -> isdigit (digit_char d) = true.
Proof. intros H. unfold isdigit. rewrite code_digit_char by done. lia. Qed.

Lemma dec_go_isdigit fuel n : 0 <= n -> Forall (fun c => isdigit c = true) (dec_go fuel n).
Proof.
  revert n; induction fuel as [|f IH]; intros n Hn; simpl; [constructor|]. split_if.
  - constructor; [apply isdigit_digit_char; lia|constructor].
  - apply Forall_app. split; [apply IH; apply Z.div_pos; lia|].
    constructor; [|constructor]. apply isdigit_digit_char.
    apply Z.mod_pos_bound. lia.
Qed.

Lemma digits_app_nondigit s acc rest :
  Forall (fun c => isdigit c = true) s ->
  match rest with c :: _ => isdigit c = false | [] => True end ->
  digits (s ++ rest) acc =
  (fold_left (fun a c => a * 10 + (code c - 48)) s acc, length s).
Proof.
  intros Hs Hr. revert acc. induction Hs as [|c s Hc Hs IH]; intros acc; simpl.
  - destruct rest as [|c rest]; [done|]. simpl. by rewrite Hr.
  - by rewrite Hc, IH.
Qed.

Lemma dec_go_value fuel n :
  0 <= n -> n < 2 ^ Z.of_nat fuel -> (0 < fuel)%nat ->
  fold_left (fun a c => a * 10 + (code c - 48)) (dec_go fuel n) 0 = n.
Proof.
  revert n; induction fuel as [|f IH]; intros n Hn Hf Hp; simpl; [lia|].
  split_if.
  - simpl. rewrite code_digit_char by lia. lia.
  - assert (0 <= n mod 10 < 10) as Hm by (apply Z.mod_pos_bound; lia).
    assert (n = 10 * (n / 10) + n mod 10) as Hd by (apply Z.div_mod; lia).
    rewrite fold_left_app. simpl. rewrite code_digit_char by done.
    destruct f as [|f]; [simpl in Hf; lia|].
    rewrite IH; [lia|lia| |lia].
    rewrite Nat2Z.inj_succ, Z.pow_succ_r in Hf by lia. lia.
Qed.

Lemma dec_nonneg_value n :
  0 <= n -> fold_left (fun a c => a * 10 + (code c - 48)) (dec_nonneg n) 0 = n.
Proof.
  intros Hn. apply dec_go_value; [done| |lia].
  rewrite Nat2Z.inj_succ. destruct (Z.eq_dec n 0) as [->|]; [done|].
  rewrite Z2Nat.id by apply Z.log2_nonneg. apply Z.log2_spec. lia.
Qed.

Lemma dec_nonneg_isdigit n :
  0 <= n -> Forall (fun c => isdigit c = true) (dec_nonneg n).
Proof. apply dec_go_isdigit. Qed.

Lemma dec_nonneg_nonempty n : dec_nonneg n <> [].
Proof.
  unfold dec_nonneg. simpl. split_if; [done|]. intros H.
  by apply app_nil in H as [_ H].
Qed.

Lemma to_string_nonneg n : 0 <= n -> to_string n = dec_nonneg n.
Proof. intros H. unfold to_string. destruct (Z.ltb_spec n 0); [lia|done]. Qed.

Lemma isdigit_not_space c : isdigit c = true -> isspace c = false.
Proof.
  unfold isdigit, isspace. intros H. breflect.
  apply orb_false_iff. split; [apply Z.eqb_neq; lia|apply andb_false_iff].
  right. apply Z.leb_gt. lia.
Qed.

Lemma isdigit_not_sign c : isdigit c = true -> c <> "-"%char /\ c <> "+"%char.
Proof. intros H. split; intros ->; vm_compute in H; done. Qed.

(** The scan of a decimal number stops right after it. *)
Lemma strtol_dec n rest :
  0 <= n <= LONG_MAX ->
  match rest with c :: _ => isdigit c = false | [] => True end ->
  strtol (dec_nonneg n ++ rest) = StrtolResult n (length (dec_nonneg n)) false.
Proof.
  intros Hn Hr.
  pose proof (dec_nonneg_isdigit n ltac:(lia)) as Hd.
  pose proof (dec_nonneg_nonempty n) as Hne.
  pose proof (dec_nonneg_value n ltac:(lia)) as Hv.
  unfold strtol. destruct (dec_nonneg n) as [|c s] eqn:E; [done|].
  apply Forall_cons in Hd as Hd'. destruct Hd' as [Hc _].
  cbn [skip_spaces app]. rewrite (isdigit_not_space c Hc). cbn [drop].
  assert (match c :: s ++ rest with
          | "-"%char :: _ => (true, 1%nat)
          | "+"%char :: _ => (false, 1%nat)
          | _ => (false, 0%nat)
          end = (false, 0%nat)) as ->.
  { destruct (isdigit_not_sign c Hc) as [H1 H2].
    destruct c as [[] [] [] [] [] [] [] []]; done. }
  cbn [drop]. rewrite app_comm_cons, (digits_app_nondigit (c :: s) 0 rest Hd Hr).
  rewrite Hv. cbn [length]. unfold LONG_MAX, LONG_MIN in *.
  destruct (Z.ltb_spec 9223372036854775807 n); [lia|].
  destruct (Z.ltb_spec n (-9223372036854775808)); [lia|]. done.
Qed.

Lemma parse_int_safe_dec n rest :
  0 <= n <= INT_MAX ->
  match rest with c :: _ => isdigit c = false | [] => True end ->
  parse_int_safe (dec_nonneg n ++ rest) (length (dec_nonneg n)) = Some n.
Proof.
  intros Hn Hr. unfold parse_int_safe.
  assert (length (dec_nonneg n) <> 0%nat) as Hl.
  { pose proof (dec_nonneg_nonempty n). by destruct (dec_nonneg n). }
  destruct (Nat.eqb_spec (length (dec_nonneg n)) 0); [done|].
  rewrite strtol_dec by (unfold INT_MAX, LONG_MAX in *; done || lia). simpl.
  rewrite Nat.eqb_refl. simpl.
  destruct (Z.ltb_spec n 0); [lia|]. destruct (Z.ltb_spec INT_MAX n); [lia|]. done.
Qed.

Lemma parse_int_safe_range s n v : parse_int_safe s n = Some v -> 0 <= v <= INT_MAX.
Proof.
  unfold parse_int_safe. repeat split_if; try done. intros [= <-]. lia.
Qed.

(** [parse_int_safe] reads back every printed non-negative [int] and accepts
    nothing else of its size: the printed decimal followed by a non-digit parses
    to the number, every accepted result lies in [0, INT_MAX] and has used the
    whole range, and a range running on into further digits is rejected. *)
Theorem parse_int_safe_roundtrip n rest :
  0 <= n <= INT_MAX ->
  match rest with c :: _ => isdigit c = false | [] => True end ->
  parse_int_safe (to_string n ++ rest) (length (to_string n)) = Some n /\
  forall s k v, parse_int_safe s k = Some v ->
    0 <= v <= INT_MAX /\ last (strtol s) = k /\ val (strtol s) = v.
Proof.
  intros Hn Hr. rewrite to_string_nonneg by lia. split; [by apply parse_int_safe_dec|].
  intros s k v Hv. split; [by eapply parse_int_safe_range|].
  revert Hv. unfold parse_int_safe. repeat split_if; try done. by intros [= <-].
Qed.

(** Applied to a status code followed by a space. *)
Lemma parse_int_safe_roundtrip_witness :
  parse_int_safe (lit "200 OK") 3 = Some 200.
Proof.
  destruct (parse_int_safe_roundtrip 200 (lit " OK")) as [H _];
    [unfold INT_MAX; lia|reflexivity|exact H].
Defined.

(** ** Keys "host:port" *)

(** [make_key] of the pool, the balancer and the checker, and the key computed
    in [Gateway::get_circuit_breaker]: "%d" and [std::to_string] print alike. *)
Definition make_key (host : bytes) (port : Z) : bytes := host ++ lit ":" ++ to_string port.

Lemma isdigit_not_colon s : Forall (fun c => isdigit c = true) s -> ":"%char ∉ s.
Proof.
  intros H Hin. rewrite Forall_forall in H. specialize (H _ Hin). vm_compute in H. done.
Qed.

Lemma to_string_no_colon n : ":"%char ∉ to_string n.
Proof.
  unfold to_string. split_if.
  - rewrite not_elem_of_cons. split; [done|]. apply isdigit_not_colon, dec_nonneg_isdigit. lia.
  - apply isdigit_not_colon, dec_nonneg_isdigit. lia.
Qed.

Lemma dec_nonneg_inj m n : 0 <= m -> 0 <= n -> dec_nonneg m = dec_nonneg n -> m = n.
Proof. intros Hm Hn E. rewrite <- (dec_nonneg_value m), E by done. by apply dec_nonneg_value. Qed.

Lemma to_string_inj m n : to_string m = to_string n -> m = n.
Proof.
  assert (forall k s, 0 <= k -> dec_nonneg k <> "-"%char :: s) as Hminus.
  { intros k s Hk E. pose proof (dec_nonneg_isdigit k Hk) as H. rewrite E in H.
    apply Forall_cons in H as [H _]. vm_compute in H. done. }
  unfold to_string. repeat split_if; intros E.
  - injection E as E. apply dec_nonneg_inj in E; lia.
  - by destruct (Hminus n (dec_nonneg (- m))).
  - by destruct (Hminus m (dec_nonneg (- n))).
  - apply dec_nonneg_inj in E; lia.
Qed.

(** Splitting at the last occurrence of a byte is unique. *)
Lemma last_sep_inj (c : ascii) a1 a2 b1 b2 :
  c ∉ b1 -> c ∉ b2 -> a1 ++ c :: b1 = a2 ++ c :: b2 -> a1 = a2 /\ b1 = b2.
Proof.
  intros H1 H2. revert a2. induction a1 as [|x a1 IH]; intros [|y a2]; simpl.
  - intros [= ->]. done.
  - intros [= -> ->]. destruct H1. set_solver.
  - intros [= <- <-]. destruct H2. set_solver.
  - intros [= <- E]. destruct (IH a2 E) as [-> ->]. done.
Qed.

Lemma make_key_inj h1 p1 h2 p2 : make_key h1 p1 = make_key h2 p2 -> h1 = h2 /\ p1 = p2.
Proof.
  unfold make_key. simpl. intros E.
  apply last_sep_inj in E as [-> E]; [|apply to_string_no_colon..].
  split; [done|]. by apply to_string_inj.
Qed.

End Utils.
