(* ===== verification/Config.v ===== *)
(** * Config: the configuration records of include/gateway/core/config.h *)

From S2P Require Import Prelude.

Module Config.

Record Backend := mkBackend { host : bytes; port : Z }.

#[global] Instance Backend_eq_dec : EqDecision Backend.
Proof. solve_decision. Defined.

Record Route := mkRoute { prefix : bytes; backends : list Backend }.

#[global] Instance Route_eq_dec : EqDecision Route.
Proof. solve_decision. Defined.

Record GatewayConfig := mkConfig {
  listen_port : Z;
  keep_alive_timeout_sec : Z;
  thread_count : Z;
  backend_timeout_ms : Z;
  max_request_size : Z;
  max_epoll_events : Z;
  idle_cleanup_interval_sec : Z;
  pool_max_idle_per_host : Z;
  pool_idle_timeout_sec : Z;
  max_connections : Z;
  max_queue_size : Z;
  max_deferred_per_round : Z;
  routes : list Route
}.

(** The member initialisers of [struct GatewayConfig]. *)
Definition GatewayConfig_init : GatewayConfig :=
  mkConfig 8080 10 4 3000 65536 512 5 10 60 10000 2048 256 [].

Definition with_routes (rs : list Route) (c : GatewayConfig) : GatewayConfig :=
  mkConfig (listen_port c) (keep_alive_timeout_sec c) (thread_count c)
    (backend_timeout_ms c) (max_request_size c) (max_epoll_events c)
    (idle_cleanup_interval_sec c) (pool_max_idle_per_host c)
    (pool_idle_timeout_sec c) (max_connections c) (max_queue_size c)
    (max_deferred_per_round c) rs.

Definition load_default_config : GatewayConfig :=
  mkConfig 8080 10 4 3000 65536 512 5 10 60 10000 2048 256
    ([mkRoute (lit "/api/user") [mkBackend (lit "127.0.0.1") 9001]] ++
     [mkRoute (lit "/api/order") [mkBackend (lit "127.0.0.1") 9002]]).

End Config.
