(* ===== verification/Router.v ===== *)
(** * Router: path matching of src/core/router.cpp *)

From S2P Require Import Prelude StdSort Config.

Module Router.
Import Config.

Fixpoint count_slashes (s : bytes) : nat :=
  match s with
  | [] => 0
  | c :: s' => (if Ascii.eqb c "/" then 1 else 0) + count_slashes s'
  end.

(** The comparison lambda of [sort_routes]. *)
Definition route_before (a b : Route) : bool :=
  let a_slashes := count_slashes (prefix a) in
  let b_slashes := count_slashes (prefix b) in
  if negb (a_slashes =? b_slashes) then b_slashes <? a_slashes
  else length (prefix b) <? length (prefix a).

Definition sort_routes `{StdSort} (rs : list Route) : list Route :=
  std_sort route_before rs.

(** The constructor [Router(routes)]; its logging is left out. *)
Definition create `{StdSort} (rs : list Route) : list Route := sort_routes rs.

(** The two nested conditions of the loop body of [match]. *)
Definition route_matches (path : bytes) (r : Route) : bool :=
  if (length (prefix r) <=? length path)
     && bool_decide (take (length (prefix r)) path = prefix r)
  then (length (prefix r) =? length path)
       || bool_decide (path !! length (prefix r) = Some "/"%char)
  else false.

Fixpoint match_ (routes_ : list Route) (path : bytes) : option (list Backend) :=
  match routes_ with
  | [] => None
  | route :: rest =>
      if route_matches path route then Some (backends route) else match_ rest path
  end.

(** ** Facts about matching *)

(** A route matches the paths that are its prefix or continue it after a slash. *)
Lemma route_matches_spec path r :
  route_matches path r = true <->
  path = prefix r \/ exists rest, path = prefix r ++ "/"%char :: rest.
Proof.
  unfold route_matches. split.
  - split_if; [|done]. intros Hm. apply orb_true_iff in Hm as [Hm|Hm]; breflect.
    + left. rewrite <- (firstn_all path). congruence.
    + right. exists (drop (S (length (prefix r))) path).
      rewrite <- (take_drop_middle path _ _ Hm) at 1. congruence.
  - intros [->|[rest ->]].
    + rewrite Nat.leb_refl, firstn_all, bool_decide_eq_true_2 by done.
      by rewrite Nat.eqb_refl.
    + rewrite take_app_length, bool_decide_eq_true_2 by done.
      rewrite (list_lookup_middle (prefix r) rest "/"%char) by done.
      rewrite (bool_decide_eq_true_2 (Some _ = _)) by done. rewrite orb_true_r.
      rewrite length_app. destruct (Nat.leb_spec (length (prefix r))
        (length (prefix r) + length ("/"%char :: rest))); [done|lia].
Qed.

Lemma count_slashes_app a b : count_slashes (a ++ b) = count_slashes a + count_slashes b.
Proof. induction a; simpl; [done|]. rewrite IHa. lia. Qed.

(** Of two routes that match the same path, the longer prefix has more slashes:
    the slash that ends the shorter match lies inside the longer one. *)
Lemma longer_match_more_slashes path r r' :
  route_matches path r = true -> route_matches path r' = true ->
  length (prefix r) < length (prefix r') ->
  count_slashes (prefix r) < count_slashes (prefix r').
Proof.
  rewrite !route_matches_spec. intros Hr Hr' Hl.
  assert (exists u, path = prefix r' ++ u) as [u Hu].
  { destruct Hr' as [->|[t ->]]; [by exists []; rewrite app_nil_r|by eexists]. }
  destruct Hr as [->|[t Ht]].
  - apply (f_equal length) in Hu. rewrite length_app in Hu. lia.
  - assert (exists v, prefix r' = prefix r ++ "/"%char :: v) as [v ->].
    { exists (take (length (prefix r') - S (length (prefix r))) t).
      apply (f_equal (take (length (prefix r')))) in Ht.
      rewrite Hu, take_app_length, take_app, take_ge in Ht by lia.
      destruct (length (prefix r') - length (prefix r)) as [|n] eqn:E; [lia|].
      simpl in Ht. by replace (length (prefix r') - S (length (prefix r))) with n by lia. }
    rewrite count_slashes_app. simpl. lia.
Qed.

Lemma route_before_swo : strict_weak_order route_before.
Proof.
  split; unfold route_before.
  - intros a. rewrite Nat.eqb_refl. simpl. apply Nat.ltb_irrefl.
  - intros a b c. repeat split_if; intros; breflect; try (apply Nat.ltb_lt; lia); lia.
  - intros a b c. repeat split_if; intros; breflect; try (apply Nat.ltb_ge; lia); lia.
Qed.

Lemma match_first routes_ path bs :
  match_ routes_ path = Some bs ->
  exists before r after, routes_ = before ++ r :: after /\
    Forall (fun r => route_matches path r = false) before /\
    route_matches path r = true /\ backends r = bs.
Proof.
  induction routes_ as [|r rest IH]; simpl; [done|]. split_if.
  - intros [= <-]. exists [], r, rest. repeat split; [constructor|done].
  - intros H. destruct (IH H) as (bf & r' & af & -> & Hb & Hm & Hbs).
    exists (r :: bf), r', af. repeat split; try done. by constructor.
Qed.

Lemma match_None routes_ path :
  match_ routes_ path = None <-> Forall (fun r => route_matches path r = false) routes_.
Proof.
  induction routes_ as [|r rest IH]; simpl; [by split|]. rewrite Forall_cons.
  split_if; [split; [done|intros [? _]; congruence]|]. rewrite IH. tauto.
Qed.

(** Among routes sorted by [route_before], the first match has the longest
    matching prefix. *)
Lemma sorted_match_longest routes_ path r after before :
  StronglySorted (fun a b => route_before b a = false) routes_ ->
  routes_ = before ++ r :: after ->
  Forall (fun r => route_matches path r = false) before ->
  route_matches path r = true ->
  forall r', r' ∈ routes_ -> route_matches path r' = true ->
  length (prefix r') <= length (prefix r).
Proof.
  intros Hs -> Hb Hm r' Hin Hm'.
  apply elem_of_app in Hin as [Hin|Hin].
  { rewrite Forall_forall in Hb. rewrite (Hb _ Hin) in Hm'. done. }
  apply elem_of_cons in Hin as [->|Hin]; [lia|].
  apply StronglySorted_app in Hs as (_ & _ & Hs).
  apply StronglySorted_inv in Hs as [_ Hs]. rewrite Forall_forall in Hs.
  specialize (Hs _ Hin). unfold route_before in Hs.
  destruct (Nat.le_gt_cases (length (prefix r')) (length (prefix r))) as [|Hlt]; [done|].
  pose proof (longer_match_more_slashes _ _ _ Hm Hm' Hlt) as Hc.
  split_if; lia.
Qed.

Section against_any_sort.
Context `{StdSort}.

Lemma create_sorted rs :
  StronglySorted (fun a b => route_before b a = false) (create rs).
Proof. apply std_sort_sorted, route_before_swo. Qed.

Lemma elem_of_create rs r : r ∈ create rs <-> r ∈ rs.
Proof. unfold create, sort_routes. by rewrite std_sort_perm. Qed.

Lemma create_match_Some rs path bs :
  match_ (create rs) path = Some bs ->
  exists r, r ∈ rs /\ backends r = bs /\ route_matches path r = true /\
    forall r', r' ∈ rs -> route_matches path r' = true ->
      length (prefix r') <= length (prefix r).
Proof.
  intros Hm. apply match_first in Hm as (bf & r & af & E & Hb & Hm & Hbs).
  exists r. repeat split; try done.
  - apply elem_of_create. rewrite E. set_solver.
  - intros r' Hin Hr'.
    eapply (sorted_match_longest (create rs)); eauto using create_sorted.
    by apply elem_of_create.
Qed.

Lemma create_match_None rs path :
  match_ (create rs) path = None <-> forall r, r ∈ rs -> route_matches path r = false.
Proof.
  rewrite match_None, Forall_forall.
  split; intros Hx r Hr; by apply Hx, elem_of_create.
Qed.

(** C25. Whatever order [std::sort] gives to equivalent routes, a match returns
    the backends of a configured route that matches the path at a segment
    boundary, and no configured route with a longer prefix matches: the
    documented longest-prefix rule, although the code sorts by the number of
    slashes first. *)
Theorem match_longest_prefix rs path bs :
  match_ (create rs) path = Some bs ->
  exists r, r ∈ rs /\ backends r = bs /\
    (path = prefix r \/ exists rest, path = prefix r ++ "/"%char :: rest) /\
    forall r', r' ∈ rs ->
      (path = prefix r' \/ exists rest, path = prefix r' ++ "/"%char :: rest) ->
      length (prefix r') <= length (prefix r).
Proof.
  intros Hm. destruct (create_match_Some _ _ _ Hm) as (r & Hr & Hb & Hm' & Hl).
  exists r. setoid_rewrite <- route_matches_spec. eauto.
Qed.

(** A path is unrouted (the 404 case) exactly when no configured prefix
    equals it or is followed by a slash in it. *)
Theorem match_none_iff rs path :
  match_ (create rs) path = None <->
  forall r, r ∈ rs -> path <> prefix r /\ forall rest, path <> prefix r ++ "/"%char :: rest.
Proof.
  rewrite create_match_None. split; intros Hx r Hr; specialize (Hx r Hr).
  - apply not_true_iff_false in Hx. rewrite route_matches_spec in Hx. naive_solver.
  - apply not_true_iff_false. rewrite route_matches_spec. naive_solver.
Qed.
End against_any_sort.

Lemma matching_prefix path r :
  route_matches path r = true -> exists u, path = prefix r ++ u.
Proof.
  rewrite route_matches_spec.
  intros [->|[t ->]]; [by exists []; rewrite app_nil_r|by eexists].
Qed.

(** Two matching routes with prefixes of one length are the same route. *)
Lemma same_longest_same_route rs path r1 r2 :
  NoDup (prefix <$> rs) -> r1 ∈ rs -> r2 ∈ rs ->
  route_matches path r1 = true -> route_matches path r2 = true ->
  length (prefix r1) = length (prefix r2) -> r1 = r2.
Proof.
  intros Hnd H1 H2 M1 M2 Hl.
  apply matching_prefix in M1 as [u1 Hu1]. apply matching_prefix in M2 as [u2 Hu2].
  rewrite Hu1 in Hu2. apply app_inj_1 in Hu2 as [Hp _]; [|done].
  apply list_elem_of_lookup in H1 as [i Hi]. apply list_elem_of_lookup in H2 as [j Hj].
  assert (i = j) as ->; [|congruence].
  eapply NoDup_lookup; [done| |]; rewrite list_lookup_fmap.
  - by rewrite Hi.
  - rewrite Hj. simpl. by rewrite Hp.
Qed.

(** When no two configured routes share a prefix, the routing decision does
    not depend on the sorting algorithm: any two implementations of the
    [std::sort] contract give the same answer for every path. *)
Theorem match_sort_independent (s1 s2 : StdSort) rs path :
  NoDup (prefix <$> rs) ->
  match_ (@create s1 rs) path = match_ (@create s2 rs) path.
Proof.
  intros Hnd.
  destruct (match_ (@create s1 rs) path) as [b1|] eqn:E1,
           (match_ (@create s2 rs) path) as [b2|] eqn:E2; try done.
  - apply create_match_Some in E1 as (r1 & H1 & <- & M1 & L1).
    apply create_match_Some in E2 as (r2 & H2 & <- & M2 & L2).
    by rewrite (same_longest_same_route rs path r1 r2)
      by eauto using Nat.le_antisymm.
  - apply create_match_Some in E1 as (r1 & H1 & _ & M1 & _).
    rewrite create_match_None in E2. by rewrite (E2 r1 H1) in M1.
  - apply create_match_Some in E2 as (r2 & H2 & _ & M2 & _).
    rewrite create_match_None in E1. by rewrite (E1 r2 H2) in M2.
Qed.

Definition sample_routes : list Route :=
  [mkRoute (lit "/api") [mkBackend (lit "10.0.0.1") 80];
   mkRoute (lit "/api/user") [mkBackend (lit "10.0.0.2") 80]].

(** C25 applied: the two-route example of router.h. *)
Lemma match_longest_prefix_witness :
  match_ (create sample_routes) (lit "/api/user/profile") =
    Some [mkBackend (lit "10.0.0.2") 80] /\
  exists r, r ∈ sample_routes /\ backends r = [mkBackend (lit "10.0.0.2") 80].
Proof.
  split; [reflexivity|].
  destruct (match_longest_prefix sample_routes (lit "/api/user/profile")
              [mkBackend (lit "10.0.0.2") 80]) as (r & Hr & Hb & _);
    [reflexivity|by exists r].
Defined.

(** Applied to two orders of the same contract. *)
Lemma match_sort_independent_witness :
  NoDup (prefix <$> sample_routes) /\
  match_ (create sample_routes) (lit "/api/order") =
  match_ (@create insertion_StdSort sample_routes) (lit "/api/order").
Proof.
  assert (NoDup (prefix <$> sample_routes)) as H.
  { apply (bool_decide_unpack _). vm_compute. done. }
  split; [exact H|]. by apply (match_sort_independent _ _ sample_routes).
Defined.

End Router.
