(* ===== verification/Buffer.v ===== *)
(** * Buffer: the vector with two indices of src/net/buffer.cpp

    The vector is the list of its bytes and the indices are [size_t] values
    (integers reduced modulo 2^64 where the code computes with them).  An access
    outside the vector is undefined behaviour in C++: [load] and [store] return
    [None] there, so an operation that returns [Some] touched only the vector.
    The contract is a byte queue: [rep b c] says that buffer [b] holds the
    queue contents [c], and every operation is proved against it; [run] executes
    operations on two buffers, which may take each other's bytes and swap. *)

From S2P Require Import Prelude.

Module Buffer.
Open Scope Z_scope.

Record t := mk { buf : bytes; read_idx : Z; write_idx : Z }.

Definition kInitialSize : Z := 4096.
Definition kPrependableSize : Z := 128.

(** [std::vector<char>(n)]: [n] zero bytes. *)
Definition zeros (n : Z) : bytes := replicate (Z.to_nat n) "000"%char.
#[global] Arguments zeros : simpl never.

Definition create : t :=
  mk (zeros (kInitialSize + kPrependableSize)) kPrependableSize kPrependableSize.

(** ** Memory accesses *)

Definition load (off n : Z) (m : bytes) : option bytes :=
  if (0 <=? off) && (0 <=? n) && (off + n <=? zlen m)
  then Some (take (Z.to_nat n) (drop (Z.to_nat off) m)) else None.

Definition store (off : Z) (data m : bytes) : option bytes :=
  if (0 <=? off) && (off + zlen data <=? zlen m)
  then Some (take (Z.to_nat off) m ++ data ++ drop (Z.to_nat (off + zlen data)) m)
  else None.

(** ** Accessors *)

Definition readable_size (b : t) : Z := u64 (write_idx b - read_idx b).
Definition writable_size (b : t) : Z := u64 (zlen (buf b) - write_idx b).
Definition prependable_size (b : t) : Z := read_idx b.
Definition empty (b : t) : bool := readable_size b =? 0.

(** The bytes from [readable_data()] on; [read_as_string] copies them. *)
Definition read_as_string (b : t) : option bytes :=
  load (read_idx b) (readable_size b) (buf b).

Definition peek (offset : Z) (b : t) : option ascii :=
  load (u64 (read_idx b + offset)) 1 (buf b) ≫= head.

Definition has_writeen (n : Z) (b : t) : t :=
  mk (buf b) (read_idx b) (u64 (write_idx b + n)).

Definition clear (b : t) : t := mk (buf b) kPrependableSize kPrependableSize.

(** ** Consuming *)

Definition consume (n : Z) (b : t) : t :=
  let n := if readable_size b <? n then readable_size b else n in
  let r := u64 (read_idx b + n) in
  if r =? write_idx b then mk (buf b) kPrependableSize kPrependableSize
  else mk (buf b) r (write_idx b).

Definition consume_all (b : t) : t := mk (buf b) kPrependableSize kPrependableSize.

(** ** Searching: the result is the offset from [readable_data()], [None] inside
    for [nullptr]. *)

Definition fast_search (haystack needle : bytes) : option nat :=
  if (zlen needle =? 0) then Some 0%nat
  else if zlen haystack <? zlen needle then None
  else find_sub needle haystack.

Definition find (needle : bytes) (b : t) : option (option nat) :=
  if (zlen needle =? 0) || (readable_size b <? zlen needle) then Some None
  else d ← read_as_string b; Some (fast_search d needle).

Definition find_byte (c : ascii) (b : t) : option (option nat) :=
  d ← read_as_string b; Some (find_char c d).

Definition find_crlf (b : t) : option (option nat) := find CRLF b.
Definition find_double_crlf (b : t) : option (option nat) := find CRLFCRLF b.

(** ** Space management *)

Definition shrink (b : t) : option t :=
  if read_idx b =? kPrependableSize then Some b
  else
    let resize := readable_size b in
    m ← (if 0 <? resize
         then d ← load (read_idx b) resize (buf b); store kPrependableSize d (buf b)
         else Some (buf b));
    Some (mk m kPrependableSize (u64 (kPrependableSize + resize))).

Definition ensure_writable (n : Z) (b : t) : option t :=
  if n <=? writable_size b then Some b
  else
    let needed := u64 (n - writable_size b) in
    if u64 (n + kPrependableSize) <=? u64 (prependable_size b + writable_size b)
    then shrink b
    else Some (mk (buf b ++ zeros needed) (read_idx b) (write_idx b)).

(** ** Appending *)

Definition append (data : bytes) (b : t) : option t :=
  if zlen data =? 0 then Some b
  else
    b ← ensure_writable (zlen data) b;
    m ← store (write_idx b) data (buf b);
    Some (mk m (read_idx b) (u64 (write_idx b + zlen data))).

(** [append(const Buffer& other)] for a distinct buffer. *)
Definition append_buffer (other b : t) : option t :=
  d ← read_as_string other; append d b.

Definition prepend (data : bytes) (b : t) : option t :=
  let n := zlen data in
  b ← (if prependable_size b <? n then
         let needed := u64 (n + readable_size b) in
         let new_read := u64 (kPrependableSize + n) in
         d ← load (read_idx b) (readable_size b) (buf b);
         new_buf ← store new_read d (zeros (u64 (needed + kPrependableSize)));
         let b := mk new_buf new_read (write_idx b) in
         Some (mk (buf b) (read_idx b) (u64 (read_idx b + readable_size b)))
       else Some b);
  let r := u64 (read_idx b - n) in
  m ← store r data (buf b);
  Some (mk m r (write_idx b)).

Definition swap (b other : t) : t * t := (other, b).

(** ** Descriptor I/O: the outcome of the system call is an argument *)

Inductive io := IoErr (errno : Z) | IoOk (data : bytes).

Definition stack_buf_size : Z := 65536.

(** [iovcnt]: the stack buffer takes part only when the tail is smaller. *)
Definition readv_capacity (b : t) : Z :=
  if stack_buf_size <=? writable_size b then writable_size b
  else writable_size b + stack_buf_size.

(** [readv] fills the tail first and the stack buffer with the rest. *)
Definition read_from_fd (r : io) (b : t) : option (Z * t) :=
  match r with
  | IoErr _ => Some (-1, b)
  | IoOk data =>
      let ret := zlen data in
      let writable := writable_size b in
      m ← store (write_idx b) (take (Z.to_nat writable) data) (buf b);
      if ret =? 0 then Some (0, b)
      else if ret <=? writable
      then Some (ret, mk m (read_idx b) (u64 (write_idx b + ret)))
      else
        b' ← append (drop (Z.to_nat writable) data) (mk m (read_idx b) (zlen m));
        Some (ret, b')
  end.

(** [write] returns how many bytes it took, or a negative value. *)
Definition write_to_fd (ret : Z) (b : t) : Z * t :=
  if readable_size b =? 0 then (0, b)
  else (ret, if 0 <? ret then consume ret b else b).

(** ** The queue a buffer represents *)

Definition max_size : Z := 9223372036854775808.

Definition rep (b : t) (c : bytes) : Prop :=
  exists pre post,
    b = mk (pre ++ c ++ post) (zlen pre) (zlen pre + zlen c) /\
    kPrependableSize <= zlen (buf b) < max_size.

(** Length arithmetic: unfold the size constants, add that lengths are
    non-negative, distribute over appends. *)
Ltac zl :=
  unfold max_size, kPrependableSize, kInitialSize, stack_buf_size, two64 in *;
  repeat rewrite zlen_app in *; rewrite ?zlen_nil, ?zlen_cons in *;
  zlen_facts; try lia.

Lemma zlen_zeros n : 0 <= n -> zlen (zeros n) = n.
Proof. intros H. unfold zlen, zeros. rewrite length_replicate. lia. Qed.

Lemma zeros_split i j k :
  0 <= i -> 0 <= j -> 0 <= k ->
  exists x y z, zeros (i + j + k) = (x ++ y) ++ z ++ [] /\
                zlen x = i /\ zlen y = j /\ zlen z = k.
Proof.
  intros. exists (zeros i), (zeros j), (zeros k). rewrite !zlen_zeros by done.
  repeat split. unfold zeros. rewrite app_nil_r, <- !replicate_add. f_equal. lia.
Qed.

Lemma zlen_to_nat {A} (l : list A) : Z.to_nat (zlen l) = length l.
Proof. unfold zlen. lia. Qed.

Lemma load_middle a x y : load (zlen a) (zlen x) (a ++ x ++ y) = Some x.
Proof.
  unfold load. split_if.
  - rewrite !zlen_to_nat, drop_app_length, take_app_length. done.
  - exfalso. repeat (apply andb_false_iff in Heqb as [Heqb|Heqb]); breflect; zl.
Qed.

Lemma store_middle a x y d :
  zlen x = zlen d -> store (zlen a) d (a ++ x ++ y) = Some (a ++ d ++ y).
Proof.
  intros E. unfold store. split_if.
  - rewrite zlen_to_nat, take_app_length. repeat f_equal.
    rewrite <- E, <- zlen_app, app_assoc, zlen_to_nat, drop_app_length. done.
  - exfalso. repeat (apply andb_false_iff in Heqb as [Heqb|Heqb]); breflect; zl.
Qed.

(** Split a list at a position inside it. *)
Lemma split_at (l : bytes) n : 0 <= n <= zlen l -> exists a b, l = a ++ b /\ zlen a = n.
Proof.
  intros H. exists (take (Z.to_nat n) l), (drop (Z.to_nat n) l).
  split; [by rewrite take_drop|]. unfold zlen in *. rewrite length_take. lia.
Qed.

Lemma rep_sizes b c :
  rep b c ->
  readable_size b = zlen c /\ writable_size b = zlen (buf b) - write_idx b /\
  0 <= read_idx b /\ write_idx b = read_idx b + zlen c /\ write_idx b <= zlen (buf b).
Proof.
  intros (pre & post & -> & Hs). simpl in *.
  unfold readable_size, writable_size. simpl. zl.
  rewrite !u64_small by zl. repeat split; zl.
Qed.

Lemma rep_read b c : rep b c -> read_as_string b = Some c.
Proof.
  intros Hr. destruct (rep_sizes _ _ Hr) as (E & _).
  unfold read_as_string. rewrite E. destruct Hr as (pre & post & -> & Hs).
  apply load_middle.
Qed.

Lemma create_rep : rep create [].
Proof.
  exists (zeros kPrependableSize), (zeros kInitialSize). split; [|by vm_compute].
  unfold create. rewrite zlen_zeros by zl. simpl. by f_equal.
Qed.

Lemma rep_reset b c : rep b c -> rep (mk (buf b) kPrependableSize kPrependableSize) [].
Proof.
  intros (pre & post & -> & Hs). simpl in *.
  destruct (split_at (pre ++ c ++ post) kPrependableSize) as (x & y & E & Hx); [zl|].
  exists x, y. simpl. rewrite E in *. split; [|done]. f_equal; zl.
Qed.

Lemma shrink_rep b c n :
  rep b c -> 0 <= n ->
  n + kPrependableSize <= prependable_size b + writable_size b ->
  exists b', shrink b = Some b' /\ rep b' c /\ zlen (buf b') = zlen (buf b) /\
             n <= writable_size b'.
Proof.
  intros Hr Hn Hsp. destruct (rep_sizes _ _ Hr) as (E1 & E2 & _ & E4 & _).
  unfold shrink, prependable_size in *. rewrite E1.
  destruct (Z.eqb_spec (read_idx b) kPrependableSize) as [E|E].
  { exists b. repeat split; try done. lia. }
  destruct Hr as (pre & post & -> & Hs). simpl in *. rewrite E2 in Hsp.
  destruct (split_at (pre ++ c ++ post) kPrependableSize) as (x & y & Exy & Hx); [zl|].
  assert (zlen x + zlen y = zlen (pre ++ c ++ post)) as HL by (rewrite Exy; zl).
  destruct (split_at y (zlen c)) as (u & v & -> & Hu); [zl|].
  assert ((if 0 <? zlen c
           then d ← load (zlen pre) (zlen c) (pre ++ c ++ post);
                store kPrependableSize d (pre ++ c ++ post)
           else Some (pre ++ c ++ post)) = Some (x ++ c ++ v)) as ->.
  { rewrite load_middle. simpl. destruct (Z.ltb_spec 0 (zlen c)).
    - rewrite Exy, <- Hx. by apply store_middle.
    - rewrite Exy. assert (zlen c = 0) as H0 by zl. assert (zlen u = 0) as H1 by zl.
      unfold zlen in H0, H1. destruct c, u; try done; simpl in *; lia. }
  simpl. rewrite u64_small by zl.
  assert (rep (mk (x ++ c ++ v) kPrependableSize (kPrependableSize + zlen c)) c) as Hr'.
  { exists x, v. rewrite <- Hx. split; [done|]. simpl. zl. }
  eexists. split; [done|]. split; [done|]. simpl. split; [zl|].
  destruct (rep_sizes _ _ Hr') as (_ & -> & _). simpl. zl.
Qed.

Lemma ensure_writable_rep b c n :
  rep b c -> 0 <= n -> zlen (buf b) + n < max_size ->
  exists b', ensure_writable n b = Some b' /\ rep b' c /\ n <= writable_size b' /\
             zlen (buf b') <= zlen (buf b) + n.
Proof.
  intros Hr Hn Hb. destruct (rep_sizes _ _ Hr) as (E1 & E2 & E3 & E4 & E5).
  pose proof Hr as (_ & _ & _ & Hs). unfold ensure_writable.
  destruct (Z.leb_spec n (writable_size b)); [by exists b; repeat split; try done; zl|].
  unfold prependable_size in *.
  rewrite (u64_small (n + _)), (u64_small (read_idx b + _)) by zl.
  destruct (Z.leb_spec (n + kPrependableSize) (read_idx b + writable_size b)) as [Hf|Hf].
  - destruct (shrink_rep b c n Hr Hn Hf) as (b' & -> & Hr' & Hz & Hw).
    exists b'. repeat split; try done; zl.
  - rewrite u64_small by zl.
    destruct Hr as (pre & post & -> & _). simpl in *.
    assert (rep (mk ((pre ++ c ++ post) ++
                     zeros (n - writable_size (mk (pre ++ c ++ post) (zlen pre) (zlen pre + zlen c))))
                    (zlen pre) (zlen pre + zlen c)) c) as Hr'.
    { exists pre, (post ++ zeros (n - writable_size
          (mk (pre ++ c ++ post) (zlen pre) (zlen pre + zlen c)))).
      split; [by rewrite <- !app_assoc|]. simpl. rewrite !zlen_app, zlen_zeros; zl. }
    eexists. split; [done|]. split; [done|].
    destruct (rep_sizes _ _ Hr') as (_ & -> & _). simpl.
    rewrite !zlen_app, zlen_zeros; zl.
Qed.

Lemma store_at_end b c data :
  rep b c -> zlen data <= writable_size b ->
  exists m, store (write_idx b) data (buf b) = Some m /\ zlen m = zlen (buf b) /\
            rep (mk m (read_idx b) (write_idx b + zlen data)) (c ++ data).
Proof.
  intros Hr Hw. destruct (rep_sizes _ _ Hr) as (_ & E2 & _). rewrite E2 in Hw.
  destruct Hr as (pre & post & -> & Hs). simpl in *.
  destruct (split_at post (zlen data)) as (x & y & -> & Hx); [zl|].
  exists (pre ++ (c ++ data) ++ y).
  assert (pre ++ c ++ x ++ y = (pre ++ c) ++ x ++ y) as E by by rewrite !app_assoc.
  rewrite E, <- zlen_app, store_middle by done.
  split; [by rewrite !app_assoc|]. split; [zl|].
  exists pre, y. split; [f_equal; zl|]. simpl. zl.
Qed.

Lemma append_rep b c data :
  rep b c -> zlen (buf b) + zlen data < max_size ->
  exists b', append data b = Some b' /\ rep b' (c ++ data) /\
             zlen (buf b') <= zlen (buf b) + zlen data.
Proof.
  intros Hr Hb. unfold append.
  destruct (Z.eqb_spec (zlen data) 0) as [E|E].
  - exists b. assert (data = []) as -> by (by apply zlen_0).
    rewrite app_nil_r. repeat split; [done|lia].
  - destruct (ensure_writable_rep b c (zlen data) Hr (zlen_nonneg _) Hb)
      as (b1 & -> & Hr1 & Hw1 & Hz1). simpl.
    destruct (store_at_end b1 c data Hr1 Hw1) as (m & -> & Hm & Hr2). simpl.
    destruct (rep_sizes _ _ Hr1) as (_ & _ & H3 & H4 & H5).
    rewrite u64_small by zl. eexists. repeat split; [done|]. simpl. lia.
Qed.

Lemma consume_rep b c n :
  rep b c -> 0 <= n -> rep (consume n b) (drop (Z.to_nat n) c).
Proof.
  intros Hr Hn. destruct (rep_sizes _ _ Hr) as (E1 & E2 & E3 & E4 & E5).
  pose proof Hr as (_ & _ & _ & Hs). unfold consume. rewrite E1.
  assert (drop (Z.to_nat n) c =
          drop (Z.to_nat (if zlen c <? n then zlen c else n)) c) as ->.
  { split_if; [|done]. rewrite zlen_to_nat, drop_all, drop_ge; [done|unfold zlen in *; lia]. }
  assert (0 <= (if zlen c <? n then zlen c else n) <= zlen c) as Hk
    by (pose proof (zlen_nonneg c); split_if; lia).
  revert Hk. generalize (if zlen c <? n then zlen c else n). intros k Hk.
  rewrite u64_small by zl.
  destruct (Z.eqb_spec (read_idx b + k) (write_idx b)) as [E|E].
  - rewrite drop_ge by (unfold zlen in *; lia). by apply rep_reset with c.
  - destruct Hr as (pre & post & -> & _). simpl in *.
    destruct (split_at c k) as (x & y & -> & Hx); [zl|].
    rewrite <- Hx, zlen_to_nat, drop_app_length.
    exists (pre ++ x), post. simpl. rewrite <- !app_assoc. split; [f_equal; zl|zl].
Qed.

Lemma read_from_fd_rep b c data :
  rep b c -> zlen (buf b) + zlen data < max_size ->
  exists b', read_from_fd (IoOk data) b = Some (zlen data, b') /\ rep b' (c ++ data) /\
             zlen (buf b') <= zlen (buf b) + zlen data.
Proof.
  intros Hr Hb. destruct (rep_sizes _ _ Hr) as (_ & E2 & E3 & E4 & E5).
  pose proof Hr as (_ & _ & _ & Hs).
  simpl. set (w := writable_size b) in *.
  assert (zlen (take (Z.to_nat w) data) = Z.min w (zlen data)) as Ht.
  { unfold zlen. rewrite length_take. unfold zlen in *. lia. }
  destruct (store_at_end b c (take (Z.to_nat w) data)) as (m & Hst & Hm & Hr1); [done|lia|].
  rewrite Hst. simpl.
  destruct (Z.eqb_spec (zlen data) 0) as [E|E].
  { assert (data = []) as -> by (by apply zlen_0).
    exists b. rewrite app_nil_r. repeat split; [done|lia]. }
  destruct (Z.leb_spec (zlen data) w) as [Hl|Hl].
  - rewrite Ht, Z.min_r in Hr1 by lia. rewrite take_ge in Hr1 by (unfold zlen in *; lia).
    rewrite u64_small by zl. eexists. repeat split; [done|]. simpl. zl.
  - rewrite Ht, Z.min_l in Hr1 by lia.
    replace (write_idx b + w) with (zlen m) in Hr1 by lia.
    destruct (append_rep _ _ (drop (Z.to_nat w) data) Hr1) as (b' & -> & Hr' & Hz').
    { simpl. unfold zlen in *. rewrite length_drop. lia. }
    rewrite <- app_assoc, take_drop in Hr'. simpl in *.
    exists b'. repeat split; [done|]. unfold zlen in Hz' |- *. rewrite length_drop in Hz'.
    unfold zlen in *. lia.
Qed.

(** When the space in front suffices, [prepend] puts the data before the readable bytes. *)
Lemma prepend_rep b c data :
  rep b c -> zlen data <= prependable_size b ->
  exists b', prepend data b = Some b' /\ rep b' (data ++ c) /\ zlen (buf b') = zlen (buf b).
Proof.
  intros Hr Hl. unfold prepend. destruct (Z.ltb_spec (prependable_size b) (zlen data)); [lia|].
  simpl. destruct (rep_sizes _ _ Hr) as (_ & _ & E3 & E4 & E5).
  pose proof Hr as (_ & _ & _ & Hs). unfold prependable_size in *.
  rewrite u64_small by zl. destruct Hr as (pre & post & -> & _). simpl in *.
  destruct (split_at pre (zlen pre - zlen data)) as (x & y & -> & Hx); [zl|].
  rewrite <- Hx, <- app_assoc, store_middle by zl. simpl.
  eexists. split; [done|]. split; [|simpl; zl].
  exists x, post. simpl. rewrite <- app_assoc. split; [f_equal; zl|zl].
Qed.

(** ** Sequences of operations *)

(** The members that change a buffer.  [Fill] is a caller that writes through
    [writable_data()]: it asks for the space, copies and calls [has_writeen]. *)
Inductive op :=
| Append (data : bytes)
| AppendBuffer
| Prepend (data : bytes)
| Swap
| Fill (data : bytes)
| EnsureWritable (n : Z)
| Shrink
| Consume (n : Z)
| ConsumeAll
| Clear
| ReadFd (r : io)
| WriteFd (ret : Z).

Definition fill (data : bytes) (b : t) : option t :=
  b ← ensure_writable (zlen data) b;
  m ← store (write_idx b) data (buf b);
  Some (has_writeen (zlen data) (mk m (read_idx b) (write_idx b))).

(** An operation on a buffer, with the other buffer it may take. *)
Definition exec_on (o : op) (s : t * t) : option (t * t) :=
  let '(b, other) := s in
  let keep x := Some (x, other) in
  match o with
  | Append d => append d b ≫= keep
  | AppendBuffer => append_buffer other b ≫= keep
  | Prepend d => prepend d b ≫= keep
  | Swap => Some (swap b other)
  | Fill d => fill d b ≫= keep
  | EnsureWritable n => ensure_writable n b ≫= keep
  | Shrink => shrink b ≫= keep
  | Consume n => keep (consume n b)
  | ConsumeAll => keep (consume_all b)
  | Clear => keep (clear b)
  | ReadFd r => '(_, x) ← read_from_fd r b; keep x
  | WriteFd ret => keep (snd (write_to_fd ret b))
  end.

Inductive side := First | Second.

Definition flip {A} (d : side) (s : A * A) : A * A := match d with First => s | Second => (s.2, s.1) end.

Definition exec (o : side * op) (s : t * t) : option (t * t) := flip o.1 <$> exec_on o.2 (flip o.1 s).

Fixpoint run (os : list (side * op)) (s : t * t) : option (t * t) :=
  match os with
  | [] => Some s
  | o :: os' => s' ← exec o s; run os' s'
  end.

(** The same operations on two queues of bytes. *)
Definition queue_on (o : op) (s : bytes * bytes) : bytes * bytes :=
  let '(q, other) := s in
  match o with
  | Append d | Fill d | ReadFd (IoOk d) => (q ++ d, other)
  | AppendBuffer => (q ++ other, other)
  | Prepend d => (d ++ q, other)
  | Swap => (other, q)
  | EnsureWritable _ | Shrink | ReadFd (IoErr _) => (q, other)
  | Consume n | WriteFd n => (drop (Z.to_nat n) q, other)
  | ConsumeAll | Clear => ([], other)
  end.

Definition queue_run (os : list (side * op)) (s : bytes * bytes) : bytes * bytes :=
  fold_left (fun s o => flip o.1 (queue_on o.2 (flip o.1 s))) os s.

(** How much an operation may make the vector grow. *)
Definition incoming (o : op) (other : t) : Z :=
  match o with
  | Append d | Fill d | ReadFd (IoOk d) => zlen d
  | AppendBuffer => readable_size other
  | EnsureWritable n => n
  | _ => 0
  end.

(** What a caller must see to: counts are [size_t], the vector does not outgrow
    [max_size()], a prepended text fits in front, and [shrink] has the room it
    moves the bytes to. *)
Definition admits (o : op) (s : t * t) : bool :=
  (zlen (buf s.1) + incoming o s.2 <? max_size) &&
  match o with
  | Prepend d => zlen d <=? prependable_size s.1
  | Shrink => kPrependableSize + readable_size s.1 <=? zlen (buf s.1)
  | Consume n | EnsureWritable n => 0 <=? n
  | _ => true
  end.

Fixpoint admissible (os : list (side * op)) (s : t * t) : bool :=
  match os with
  | [] => true
  | o :: os' =>
      admits o.2 (flip o.1 s) &&
      match exec o s with Some s' => admissible os' s' | None => true end
  end.

Lemma write_to_fd_rep ret b c :
  rep b c -> rep (snd (write_to_fd ret b)) (drop (Z.to_nat ret) c).
Proof.
  intros Hr. unfold write_to_fd. destruct (rep_sizes _ _ Hr) as (-> & _).
  destruct (Z.eqb_spec (zlen c) 0) as [E|E].
  { assert (c = []) as -> by (by apply zlen_0).
    rewrite drop_nil. done. }
  simpl. destruct (Z.ltb_spec 0 ret).
  - apply consume_rep; [done|lia].
  - replace (Z.to_nat ret) with 0%nat by lia. done.
Qed.

Lemma fill_rep b c data :
  rep b c -> zlen (buf b) + zlen data < max_size -> exists b', fill data b = Some b' /\ rep b' (c ++ data).
Proof.
  intros Hr Hb. unfold fill.
  destruct (ensure_writable_rep b c (zlen data) Hr (zlen_nonneg _) Hb) as (b1 & -> & Hr1 & Hw1 & Hz1). simpl.
  destruct (store_at_end b1 c data Hr1 Hw1) as (m & -> & Hm & Hr2). simpl.
  destruct (rep_sizes _ _ Hr1) as (_ & _ & H3 & H4 & H5). unfold has_writeen. simpl.
  rewrite u64_small by zl. eexists. split; [done|done].
Qed.

(** Two buffers hold two queues. *)
Definition reps (s : t * t) (q : bytes * bytes) : Prop := rep s.1 q.1 /\ rep s.2 q.2.

Lemma reps_flip d s q : reps s q -> reps (flip d s) (flip d q).
Proof. destruct d; [done|]. by intros [H1 H2]. Qed.

Lemma exec_on_rep o s q :
  reps s q -> admits o s = true -> exists s', exec_on o s = Some s' /\ reps s' (queue_on o q).
Proof.
  destruct s as [b z], q as [c e]. intros [Hr Hz] [Hb%Z.ltb_lt Ho]%andb_true_iff. cbn [fst snd] in *.
  assert (Hput : forall r d, (exists b', r = Some b' /\ rep b' d) ->
            exists s', (r ≫= fun x => Some (x, z)) = Some s' /\ reps s' (d, e)).
  { intros r d (b' & -> & H). by exists (b', z). }
  destruct o as [d| |d| |d|n| |n| | |[er|d]|ret]; cbn [exec_on queue_on incoming] in *.
  - apply Hput. destruct (append_rep b c d Hr Hb) as (b' & H1 & H2 & _). by exists b'.
  - apply Hput. unfold append_buffer. rewrite (rep_read _ _ Hz). cbn [mbind option_bind].
    destruct (rep_sizes _ _ Hz) as (E & _). rewrite E in Hb. destruct (append_rep b c e Hr Hb) as (b' & H1 & H2 & _). by exists b'.
  - apply Hput. apply Z.leb_le in Ho. destruct (prepend_rep b c d Hr Ho) as (b' & H1 & H2 & _). by exists b'.
  - by exists (z, b).
  - apply Hput. by apply fill_rep.
  - apply Hput. apply Z.leb_le in Ho. destruct (ensure_writable_rep b c n Hr Ho Hb) as (b' & H1 & H2 & _). by exists b'.
  - apply Hput. apply Z.leb_le in Ho. destruct (rep_sizes _ _ Hr) as (E1 & E2 & E3 & E4 & E5). rewrite E1 in Ho.
    destruct (shrink_rep b c 0 Hr) as (b' & H1 & H2 & _); [lia| |by exists b']. unfold prependable_size. lia.
  - apply Z.leb_le in Ho. eexists. split; [done|]. split; [by apply consume_rep|done].
  - eexists. split; [done|]. split; [by apply rep_reset with c|done].
  - eexists. split; [done|]. split; [by apply rep_reset with c|done].
  - by exists (b, z).
  - destruct (read_from_fd_rep b c d Hr Hb) as (b' & E & Hr' & _). rewrite E. cbn [mbind option_bind]. by exists (b', z).
  - eexists. split; [done|]. split; [by apply write_to_fd_rep|done].
Qed.

Lemma run_rep os s q :
  reps s q -> admissible os s = true -> exists s', run os s = Some s' /\ reps s' (queue_run os q).
Proof.
  revert s q; induction os as [|[d o] os IH]; intros s q Hr Ha; simpl in *; [by eexists|].
  apply andb_true_iff in Ha as [Ho Hos].
  destruct (exec_on_rep o (flip d s) (flip d q) (reps_flip d _ _ Hr) Ho) as (s1 & E & Hr1).
  unfold exec in *. cbn [fst snd] in *. rewrite E in *. cbn [fmap option_fmap option_map mbind option_bind] in *.
  apply (IH (flip d s1)); [by apply reps_flip|done].
Qed.

(** C26. Two buffers under any sequence of the members that change them: appends (of bytes, of
    the other buffer, or written in place), prepends that fit in front, reads from and writes to
    a descriptor, consumes, clears, requests for space, compactions that have room and swaps.
    No access leaves the vectors, and what is then readable in each buffer is exactly
    what the same operations leave in two plain byte queues: no byte is lost, duplicated or
    reordered by compaction, growth or the stack-buffer overflow path of [readv]. *)
Theorem buffer_refines_queue os :
  admissible os (create, create) = true ->
  exists b1 b2 q1 q2, run os (create, create) = Some (b1, b2) /\ queue_run os ([], []) = (q1, q2) /\
    read_as_string b1 = Some q1 /\ readable_size b1 = zlen q1 /\ read_as_string b2 = Some q2 /\ readable_size b2 = zlen q2.
Proof.
  intros Ha. destruct (run_rep os (create, create) ([], []) (conj create_rep create_rep) Ha) as ([b1 b2] & Hrun & Hr1 & Hr2).
  exists b1, b2. destruct (queue_run os ([], [])) as [q1 q2]. exists q1, q2. cbn [fst snd] in *.
  split_and!; [done|done|by apply rep_read| |by apply rep_read|].
  - by destruct (rep_sizes _ _ Hr1) as (-> & _).
  - by destruct (rep_sizes _ _ Hr2) as (-> & _).
Qed.

Definition mixed : list (side * op) :=
  [(First, Append (lit "/ HTTP")); (First, Prepend (lit "GET ")); (First, WriteFd 2); (Second, ReadFd (IoOk (lit "body")));
   (First, AppendBuffer); (Second, Fill (zeros 5000)); (First, Shrink); (First, Swap); (Second, Consume 2)].

(** C26 applied: all kinds of operations; the second buffer ends with the text and the first
    with the filled space. *)
Lemma buffer_refines_queue_witness :
  exists b1 b2, run mixed (create, create) = Some (b1, b2) /\ readable_size b1 = 5004 /\
    read_as_string b2 = Some (lit "/ HTTPbody").
Proof.
  destruct (buffer_refines_queue mixed) as (b1 & b2 & q1 & q2 & H1 & Hq & _ & H2 & H3 & _); [vm_compute; reflexivity|].
  exists b1, b2. split; [exact H1|].
  assert (E : zlen (queue_run mixed ([], [])).1 = 5004 /\ (queue_run mixed ([], [])).2 = lit "/ HTTPbody") by (split; vm_compute; reflexivity).
  rewrite Hq in E. cbn [fst snd] in E. destruct E as [E1 E2]. rewrite E2 in H3. rewrite E1 in H2. split; [exact H2|exact H3].
Defined.

(** [shrink] after a prepend: with fewer than 128 bytes in front and the vector full, the
    bytes are moved beyond its end. *)
Theorem shrink_overruns b c :
  rep b c -> c <> [] -> zlen (buf b) < kPrependableSize + zlen c -> shrink b = None.
Proof.
  intros Hr Hc Hs. destruct (rep_sizes _ _ Hr) as (E1 & E2 & E3 & E4 & E5). unfold shrink.
  destruct (Z.eqb_spec (read_idx b) kPrependableSize) as [E|E]; [lia|]. rewrite E1.
  assert (Hp : 0 < zlen c) by (destruct c; [done|]; zl). apply Z.ltb_lt in Hp. rewrite Hp.
  assert (Hl : load (read_idx b) (zlen c) (buf b) = Some c) by (rewrite <- E1; by apply rep_read).
  rewrite Hl. cbn [mbind option_bind]. unfold store.
  assert (Hg : (0 <=? kPrependableSize) && (kPrependableSize + zlen c <=? zlen (buf b)) = false).
  { apply andb_false_iff. right. apply Z.leb_gt. lia. }
  by rewrite Hg.
Qed.

(** Applied: a full buffer after one prepended byte. *)
Lemma shrink_overruns_witness :
  exists b, (append (replicate 4096 "x"%char) create ≫= prepend (lit "y")) = Some b /\ shrink b = None.
Proof.
  destruct (append_rep create [] (replicate 4096 "x"%char) create_rep) as (b1 & E1 & H1 & _); [vm_compute; reflexivity|].
  assert (Hb : b1 = default create (append (replicate 4096 "x"%char) create)) by (rewrite E1; reflexivity).
  destruct (prepend_rep b1 _ (lit "y") H1) as (b2 & E2 & H2 & H3).
  { rewrite Hb. vm_compute. discriminate. }
  exists b2. split; [rewrite E1; exact E2|]. apply (shrink_overruns b2 _ H2); [discriminate|].
  rewrite H3, Hb. vm_compute. reflexivity.
Defined.

(** [find_crlf] returns the offset of the first CR LF pair of the readable
    bytes, and [nullptr] exactly when they contain none. *)
Theorem find_crlf_correct b c :
  rep b c ->
  match find_crlf b with
  | Some (Some i) => exists rest, c = take i c ++ CRLF ++ rest /\
                     forall a d, c = a ++ CRLF ++ d -> (i <= length a)%nat
  | Some None => forall a d, c <> a ++ CRLF ++ d
  | None => False
  end.
Proof.
  intros Hr. unfold find_crlf, find. rewrite (rep_read _ _ Hr).
  destruct (rep_sizes _ _ Hr) as (-> & _). change (zlen CRLF =? 0) with false. simpl orb.
  assert (zlen CRLF = 2) as E by done.
  destruct (Z.ltb_spec (zlen c) (zlen CRLF)) as [Hl|Hl].
  { intros a d ->. unfold zlen in *. rewrite !length_app in Hl. simpl in Hl. lia. }
  simpl. unfold fast_search. rewrite E. simpl (2 =? 0).
  destruct (Z.ltb_spec (zlen c) 2); [lia|].
  destruct (find_sub CRLF c) as [i|] eqn:F.
  - apply find_sub_Some in F as F'. destruct F' as [[rest Hrest] _].
    exists rest. split; [done|]. intros a d ->.
    destruct (find_sub_least CRLF a d) as (j & Hj & Hle).
    simpl in Hj. rewrite F in Hj. by injection Hj as ->.
  - intros a d ->. destruct (find_sub_least CRLF a d) as (j & Hj & _).
    simpl in Hj. by rewrite F in Hj.
Qed.

Definition line_buffer : t := default create (append (lit "ab" ++ CRLF ++ lit "c") create).

(** Applied to a buffered line. *)
Lemma find_crlf_correct_witness :
  find_crlf line_buffer = Some (Some 2%nat) /\
  forall a d, lit "ab" ++ CRLF ++ lit "c" = a ++ CRLF ++ d -> (2 <= length a)%nat.
Proof.
  assert (rep line_buffer (lit "ab" ++ CRLF ++ lit "c")) as Hr.
  { unfold line_buffer.
    destruct (append_rep create [] (lit "ab" ++ CRLF ++ lit "c") create_rep)
      as (b & -> & Hb & _); [vm_compute; done|exact Hb]. }
  assert (find_crlf line_buffer = Some (Some 2%nat)) as Hf by (vm_compute; reflexivity).
  split; [exact Hf|].
  pose proof (find_crlf_correct line_buffer _ Hr) as H. rewrite Hf in H.
  destruct H as (rest & _ & H). exact H.
Defined.

(** ** Prepending *)

(** When the reserve is too small, [prepend] recomputes [write_idx_] from
    the already updated [read_idx_], so the old write index survives: of
    [data ++ c] only the first [write_idx - 128] bytes stay readable, always
    fewer than there are. *)
Theorem prepend_slow_path_truncates b c data :
  rep b c -> prependable_size b < zlen data -> kPrependableSize <= write_idx b ->
  zlen (buf b) + zlen data + kPrependableSize < max_size ->
  exists b', prepend data b = Some b' /\
    read_as_string b' = Some (take (Z.to_nat (write_idx b - kPrependableSize)) (data ++ c)) /\
    write_idx b - kPrependableSize < zlen (data ++ c).
Proof.
  intros Hr Hl Hw Hb. unfold prepend.
  destruct (Z.ltb_spec (prependable_size b) (zlen data)); [|lia].
  destruct (rep_sizes _ _ Hr) as (E1 & _ & E3 & E4 & E5).
  pose proof Hr as (_ & _ & _ & Hs). rewrite E1. unfold prependable_size in *.
  assert (load (read_idx b) (zlen c) (buf b) = Some c) as Hload.
  { rewrite <- E1. by apply rep_read. }
  rewrite Hload. simpl.
  rewrite !(u64_small (zlen data + zlen c)), !(u64_small (kPrependableSize + zlen data)) by zl.
  rewrite (u64_small (_ + _ + _)) by zl.
  destruct (zeros_split kPrependableSize (zlen data) (zlen c))
    as (x & y & z & Ez & Hx & Hy & Hz); [zl..|].
  replace (zlen data + zlen c + kPrependableSize)
    with (kPrependableSize + zlen data + zlen c) by lia.
  rewrite Ez, <- Hx, <- Hy, <- zlen_app, store_middle by done. simpl.
  unfold readable_size. simpl. rewrite u64_idemp_add_r.
  replace (zlen (x ++ y) + (write_idx b - zlen (x ++ y))) with (write_idx b) by lia.
  replace (zlen (x ++ y) - zlen y) with (zlen x) by zl.
  rewrite !u64_small by zl.
  rewrite <- app_assoc, store_middle by done. simpl.
  eexists. split; [done|]. split; [|zl].
  apply rep_read.
  destruct (split_at (data ++ c) (write_idx b - zlen x)) as (u & v & Euv & Hu); [zl|].
  rewrite Euv, <- Hu, zlen_to_nat, take_app_length, app_nil_r, Euv.
  exists x, v. split; [f_equal; lia|]. simpl. rewrite <- Euv. zl.
Qed.

(** Applied: a 200-byte header in front of five bytes leaves five bytes. *)
Lemma prepend_slow_path_truncates_witness :
  exists b, prepend (replicate 200 "h"%char) line_buffer = Some b /\
            read_as_string b = Some (lit "hhhhh").
Proof.
  destruct (prepend_slow_path_truncates line_buffer (lit "ab" ++ CRLF ++ lit "c")
    (replicate 200 "h"%char)) as (b & H1 & H2 & _).
  - unfold line_buffer.
    destruct (append_rep create [] (lit "ab" ++ CRLF ++ lit "c") create_rep)
      as (b & -> & Hb & _); [vm_compute; done|exact Hb].
  - vm_compute; done.
  - vm_compute; done.
  - vm_compute; done.
  - exists b. split; [exact H1|]. rewrite H2. vm_compute. reflexivity.
Defined.

End Buffer.
