(* ===== verification/Http.v ===== *)
(** * Http: requests and responses of src/http/request.cpp and response.cpp *)

From S2P Require Import Prelude Utils StdMap.

Module Http.

(** ** ASCII case *)

Definition ascii_to_lower (c : ascii) : ascii :=
  if ((65 <=? code c) && (code c <=? 90))%Z
  then ascii_of_N (Z.to_N (code c + 32)) else c.

(** [to_lower_inplace] *)
Definition to_lower (s : bytes) : bytes := ascii_to_lower <$> s.

(** [str_iequal] of parser.cpp and [iequal] of request.cpp have one body. *)
Fixpoint iequal_chars (a b : bytes) : bool :=
  match a, b with
  | x :: a', y :: b' =>
      if negb (Ascii.eqb (ascii_to_lower x) (ascii_to_lower y)) then false
      else iequal_chars a' b'
  | _, _ => true
  end.

Definition str_iequal (a b : bytes) : bool :=
  if negb (length a =? length b) then false else iequal_chars a b.

(** The scan [for (i = 0; i + |w| <= |v|; ++i) if (iequal(v.substr(i, |w|), w))]. *)
Fixpoint icontains (w v : bytes) : bool :=
  if length w <=? length v
  then if str_iequal (take (length w) v) w then true
       else match v with [] => false | _ :: v' => icontains w v' end
  else false.

(** ** Requests *)

Record HttpRequest := mkRequest {
  method : bytes;
  path : bytes;
  version : bytes;
  headers : StdMap.t;
  body : bytes
}.

#[global] Instance HttpRequest_eq_dec : EqDecision HttpRequest.
Proof. solve_decision. Defined.

Definition empty_request : HttpRequest := mkRequest [] [] [] [] [].

Definition request_keep_alive (req : HttpRequest) : bool :=
  match StdMap.find (lit "connection") (headers req) with
  | Some v =>
      if icontains (lit "keep-alive") v then true
      else bool_decide (version req = lit "HTTP/1.1")
  | None => bool_decide (version req = lit "HTTP/1.1")
  end.

(** ** Responses *)

Record HttpResponse := mkResponse {
  status_code : Z;
  status_text : bytes;
  resp_headers : StdMap.t;
  resp_body : bytes
}.

Definition default_response : HttpResponse := mkResponse 200 (lit "OK") [] [].

Definition header_line (kv : bytes * bytes) : bytes := kv.1 ++ lit ": " ++ kv.2 ++ CRLF.

Definition has_key (k : bytes) (h : StdMap.t) : bool :=
  existsb (fun kv => bool_decide (kv.1 = k)) h.

(** [HttpResponse::to_string]; [reserve] is only a capacity hint. *)
Definition to_string (r : HttpResponse) : bytes :=
  lit "HTTP/1.1 " ++ Utils.to_string (status_code r) ++ lit " " ++ status_text r ++ CRLF ++
  concat (header_line <$> resp_headers r) ++
  (if has_key (lit "Content-Length") (resp_headers r) then []
   else lit "Content-Length: " ++ Utils.to_string (zlen (resp_body r)) ++ CRLF) ++
  (if has_key (lit "Connection") (resp_headers r) then []
   else lit "Connection: close" ++ CRLF) ++
  CRLF ++ resp_body r.

Definition make_common (code : Z) (text : bytes) (keep_alive : bool) : HttpResponse :=
  mkResponse code text
    (StdMap.set (lit "Connection") (if keep_alive then lit "keep-alive" else lit "close") [])
    [].

Definition set_body (b : bytes) (r : HttpResponse) : HttpResponse :=
  mkResponse (status_code r) (status_text r) (resp_headers r) b.

Definition make_400 (ka : bool) : HttpResponse :=
  set_body (lit "Bad Request") (make_common 400 (lit "Bad Request") ka).
Definition make_404 (ka : bool) : HttpResponse :=
  set_body (lit "Not Found") (make_common 404 (lit "Not Found") ka).
Definition make_502 (ka : bool) : HttpResponse :=
  set_body (lit "Bad Gateway") (make_common 502 (lit "Bad Gateway") ka).

(** ** Case-insensitive comparison *)

Lemma iequal_chars_spec a b :
  length a = length b -> iequal_chars a b = true <-> to_lower a = to_lower b.
Proof.
  revert b; induction a as [|x a IH]; intros [|y b] Hl; simpl in *; try done.
  destruct (Ascii.eqb_spec (ascii_to_lower x) (ascii_to_lower y)) as [E|E]; simpl.
  - rewrite IH by lia. unfold to_lower. simpl. rewrite E. split; [by intros ->|by intros [= ->]].
  - split; [done|]. intros [= F _]. done.
Qed.

Lemma str_iequal_spec a b : str_iequal a b = true <-> to_lower a = to_lower b.
Proof.
  unfold str_iequal. destruct (Nat.eqb_spec (length a) (length b)) as [E|E]; simpl.
  - by apply iequal_chars_spec.
  - split; [done|]. intros F. apply (f_equal length) in F.
    unfold to_lower in F. rewrite !length_fmap in F. done.
Qed.

(** The scan finds the word anywhere, up to ASCII case. *)
Lemma icontains_spec w v :
  icontains w v = true <-> exists a m b, v = a ++ m ++ b /\ to_lower m = to_lower w.
Proof.
  assert (forall m w, to_lower m = to_lower w -> length m = length w) as Hlen.
  { intros m w' E. apply (f_equal length) in E. unfold to_lower in E.
    by rewrite !length_fmap in E. }
  induction v as [|c v IH]; cbn [icontains]; split.
  - destruct (Nat.leb_spec (length w) (length (@nil ascii))) as [Hl|]; [|done].
    destruct (str_iequal _ w) eqn:E; [|done]. apply str_iequal_spec in E.
    rewrite take_nil in E. intros _. by exists [], [], [].
  - intros (a & m & b & E & Hm). symmetry in E.
    apply app_nil in E as [-> E]. apply app_nil in E as [-> ->].
    rewrite <- (Hlen _ _ Hm). simpl. by rewrite (proj2 (str_iequal_spec [] w)).
  - destruct (Nat.leb_spec (length w) (length (c :: v))) as [Hl|]; [|done].
    destruct (str_iequal _ w) eqn:E.
    + apply str_iequal_spec in E. intros _.
      exists [], (take (length w) (c :: v)), (drop (length w) (c :: v)).
      split; [by rewrite take_drop|done].
    + rewrite IH. intros (a & m & b & -> & Hm). by exists (c :: a), m, b.
  - intros (a & m & b & E & Hm).
    assert (length w <= length (c :: v)) as Hl.
    { rewrite E, !length_app, (Hlen _ _ Hm). lia. }
    destruct (Nat.leb_spec (length w) (length (c :: v))); [|lia].
    destruct (str_iequal _ w) eqn:F; [done|].
    destruct a as [|x a].
    + simpl in E. rewrite E, <- (Hlen _ _ Hm), take_app_length in F.
      apply str_iequal_spec in Hm. congruence.
    + injection E as -> ->. apply IH. by exists a, m, b.
Qed.

(** A connection is kept alive exactly when the request's Connection value
    contains "keep-alive" in any letter case, or the version is HTTP/1.1. *)
Theorem request_keep_alive_correct req :
  request_keep_alive req = true <->
  (exists v a m b, StdMap.find (lit "connection") (headers req) = Some v /\
     v = a ++ m ++ b /\ to_lower m = lit "keep-alive") \/
  version req = lit "HTTP/1.1".
Proof.
  unfold request_keep_alive.
  destruct (StdMap.find (lit "connection") (headers req)) as [v|] eqn:E.
  - destruct (icontains (lit "keep-alive") v) eqn:F.
    + split; [|done]. intros _. apply icontains_spec in F as (a & m & b & F & Hm).
      left. by exists v, a, m, b.
    + rewrite bool_decide_eq_true. split; [tauto|].
      intros [(v' & a & m & b & [= <-] & Ev & Hm)|]; [|done].
      apply not_true_iff_false in F. destruct F. apply icontains_spec. by exists a, m, b.
  - rewrite bool_decide_eq_true. split; [tauto|]. by intros [(v & ? & ? & ? & ? & _)|].
Qed.

End Http.
