(* ===== verification/HttpParser.v ===== *)
(** * HttpParser: src/http/parser.cpp

    The one-shot functions [parse_content_length] and [parse_http_request], and
    the incremental state machine [HttpParser] with every private method.  The
    inner loops run on fuel computed from the buffered bytes, each of whose
    iterations consumes input; the dispatch loop [process] takes its fuel as an
    argument and returns [None] when it runs out, because it need not terminate
    (see HttpParserSpec). *)

From S2P Require Import Prelude Utils StdMap Http.

Module HttpParser.
Import Http.
Open Scope Z_scope.

(** ** Static helpers *)

Definition is_blank (c : ascii) : bool := Ascii.eqb c SP || Ascii.eqb c TAB.

(** [while (... == ' ' || ... == '\t') ++i] *)
Fixpoint skip_blanks (s : bytes) : bytes :=
  match s with
  | c :: s' => if is_blank c then skip_blanks s' else s
  | [] => []
  end.

(** The header loop: [pos] is the offset of [p], [rest] the bytes from [p] to [end]. *)
Fixpoint header_find_icase_go (fuel pos : nat) (rest name : bytes) : option nat :=
  match fuel with
  | O => None
  | S fuel' =>
      match rest with
      | [] => None
      | _ =>
          let line_len := default (length rest) (find_sub CRLF rest) in
          if (length name <? line_len)%nat
             && bool_decide (rest !! length name = Some ":"%char)
             && str_iequal (take (length name) rest) name
          then Some pos
          else if (line_len =? length rest)%nat then None
          else header_find_icase_go fuel' (pos + line_len + 2) (drop (line_len + 2) rest) name
      end
  end.

Definition header_find_icase (data name : bytes) : option nat :=
  header_find_icase_go (S (length data)) 0 data name.

(** [parse_content_length(header_data, header_len)]; [after] is the storage that
    follows the header range, which [strtol] may look at. *)
Definition parse_content_length (data after : bytes) : Z :=
  match header_find_icase data (lit "Content-Length") with
  | None => -1
  | Some cl_pos =>
      let rest := skip_blanks (drop (cl_pos + 15) data) in
      let cl_len := default (length rest) (find_sub CRLF rest) in
      match Utils.parse_int_safe (rest ++ after) cl_len with
      | Some v => if 0 <=? v then v else -1
      | None => -1
      end
  end.

(** [parse_request_line]: the fields are assigned before they are checked. *)
Definition parse_request_line (line : bytes) (req : HttpRequest) : bool * HttpRequest :=
  match find_char SP line with
  | None => (false, req)
  | Some pos1 =>
      match find_char_from SP line (S pos1) with
      | None => (false, req)
      | Some pos2 =>
          let m := take pos1 line in
          let p := slice (S pos1) (pos2 - pos1 - 1) line in
          let v := slice (S pos2) (length line - pos2 - 1) line in
          (negb (bool_decide (m = [])) && negb (bool_decide (p = []))
             && negb (bool_decide (v = [])),
           mkRequest m p v (headers req) (body req))
      end
  end.

(** A header line: [None] without a colon, otherwise lower-cased key and value. *)
Definition parse_header_line (line : bytes) : option (bytes * bytes) :=
  match find_char ":" line with
  | None => None
  | Some colon => Some (to_lower (take colon line), skip_blanks (drop (S colon) line))
  end.

Definition add_header (line : bytes) (req : HttpRequest) : HttpRequest :=
  match parse_header_line line with
  | None => req
  | Some (k, v) =>
      mkRequest (method req) (path req) (version req) (StdMap.set k v (headers req)) (body req)
  end.

Definition with_body (b : bytes) (req : HttpRequest) : HttpRequest :=
  mkRequest (method req) (path req) (version req) (headers req) b.

Definition complete_request (req : HttpRequest) : bool :=
  negb (bool_decide (method req = [])) && negb (bool_decide (path req = []))
    && negb (bool_decide (version req = [])).

(** The line loop of [parse_http_request] from [line_start]. *)
Fixpoint parse_lines (fuel : nat) (raw : bytes) (header_end line_start : nat)
    (req : HttpRequest) : bool * HttpRequest :=
  match fuel with
  | O => (complete_request req, req)
  | S fuel' =>
      if (line_start <? header_end)%nat then
        match find_sub_from CRLF raw line_start with
        | None => (complete_request req, req)
        | Some line_end =>
            if (header_end <? line_end)%nat then (complete_request req, req)
            else
              let line := slice line_start (line_end - line_start) raw in
              if bool_decide (line = []) then
                parse_lines fuel' raw header_end (line_end + 2) req
              else if bool_decide (method req = []) then
                let '(ok, req') := parse_request_line line req in
                if negb ok then (false, req')
                else parse_lines fuel' raw header_end (line_end + 2) req'
              else parse_lines fuel' raw header_end (line_end + 2) (add_header line req)
        end
      else (complete_request req, req)
  end.

Definition parse_http_request (raw : bytes) (req : HttpRequest) : bool * HttpRequest :=
  match find_sub CRLFCRLF raw with
  | None => (false, req)
  | Some header_end =>
      parse_lines (S header_end) raw header_end 0
        (with_body (slice (header_end + 4) (length raw - header_end - 4) raw) req)
  end.

(** ** The incremental parser *)

Inductive State := RequestLine | Headers | Body | ChunkedBody | Complete | Error.
Inductive ChunkPhase := SizeLine | Data | Trailer | End_.

#[global] Instance State_eq_dec : EqDecision State.
Proof. solve_decision. Defined.
#[global] Instance ChunkPhase_eq_dec : EqDecision ChunkPhase.
Proof. solve_decision. Defined.

Record t := mk {
  state : State;
  request : HttpRequest;
  raw : bytes;
  partial : bytes;
  max_size : Z;
  is_chunked : bool;
  content_length : Z;
  body_read : Z;
  chunk_phase : ChunkPhase;
  current_chunk_size : Z;
  current_chunk_read : Z
}.

(** Field updates. *)
Definition set_state (s : State) (p : t) : t :=
  mk s (request p) (raw p) (partial p) (max_size p) (is_chunked p) (content_length p)
     (body_read p) (chunk_phase p) (current_chunk_size p) (current_chunk_read p).
Definition set_request (r : HttpRequest) (p : t) : t :=
  mk (state p) r (raw p) (partial p) (max_size p) (is_chunked p) (content_length p)
     (body_read p) (chunk_phase p) (current_chunk_size p) (current_chunk_read p).
Definition set_partial (d : bytes) (p : t) : t :=
  mk (state p) (request p) (raw p) d (max_size p) (is_chunked p) (content_length p)
     (body_read p) (chunk_phase p) (current_chunk_size p) (current_chunk_read p).
Definition set_max_size (n : Z) (p : t) : t :=
  mk (state p) (request p) (raw p) (partial p) n (is_chunked p) (content_length p)
     (body_read p) (chunk_phase p) (current_chunk_size p) (current_chunk_read p).
Definition set_content_length (n : Z) (p : t) : t :=
  mk (state p) (request p) (raw p) (partial p) (max_size p) (is_chunked p) n
     (body_read p) (chunk_phase p) (current_chunk_size p) (current_chunk_read p).
Definition set_body_read (n : Z) (p : t) : t :=
  mk (state p) (request p) (raw p) (partial p) (max_size p) (is_chunked p) (content_length p)
     n (chunk_phase p) (current_chunk_size p) (current_chunk_read p).
Definition set_chunk (ph : ChunkPhase) (size read : Z) (p : t) : t :=
  mk (state p) (request p) (raw p) (partial p) (max_size p) (is_chunked p) (content_length p)
     (body_read p) ph size read.

Definition create : t :=
  mk RequestLine empty_request [] [] 65536 false (-1) 0 SizeLine 0 0.

(** [reset] keeps [partial_] and [max_size_]. *)
Definition reset (p : t) : t :=
  mk RequestLine empty_request [] (partial p) (max_size p) false (-1) 0 SizeLine 0 0.

Definition complete (p : t) : bool := bool_decide (state p = Complete).
Definition has_error (p : t) : bool := bool_decide (state p = Error).
Definition pending_size (p : t) : Z := zlen (partial p).

Definition check_size_limit (p : t) : bool * t :=
  if u64 (max_size p) <? zlen (raw p) then (false, set_state Error p) else (true, p).

Definition consume_partial (n : nat) (p : t) : t :=
  mk (state p) (request p) (raw p ++ take n (partial p)) (drop n (partial p))
     (max_size p) (is_chunked p) (content_length p)
     (body_read p) (chunk_phase p) (current_chunk_size p) (current_chunk_read p).

(** A line ends at the first CR, which must be followed by LF. *)
Definition extract_line (d : bytes) : option bytes :=
  match find_char CR d with
  | None => None
  | Some cr => if bool_decide (d !! S cr = Some LF) then Some (take cr d) else None
  end.

Definition consume_line (line : bytes) (p : t) : t := consume_partial (length line + 2) p.

(** *** RequestLine *)

Definition process_request_line (p : t) : t :=
  match extract_line (partial p) with
  | None => p
  | Some line =>
      if bool_decide (line = []) then consume_line line p
      else
        let '(ok, req) := parse_request_line line (request p) in
        let p := set_request req p in
        if negb ok then set_state Error p
        else set_state Headers (consume_line line p)
  end.

(** *** Headers *)

Definition mentions_chunked (req : HttpRequest) : bool :=
  match StdMap.find (lit "transfer-encoding") (headers req) with
  | Some v => icontains (lit "chunked") v
  | None => false
  end.

Definition finalize_headers (p : t) : t :=
  let chunked := is_chunked p || mentions_chunked (request p) in
  let p := mk (state p) (request p) (raw p) (partial p) (max_size p) chunked
              (content_length p) (body_read p) (chunk_phase p)
              (current_chunk_size p) (current_chunk_read p) in
  if chunked then set_chunk SizeLine 0 0 (set_state ChunkedBody p)
  else
    let p :=
      match StdMap.find (lit "content-length") (headers (request p)) with
      | Some v =>
          match Utils.parse_int_safe v (length v) with
          | Some n => if 0 <=? n then set_content_length n p else p
          | None => p
          end
      | None => p
      end in
    if 0 <? content_length p then set_body_read 0 (set_state Body p)
    else set_state Complete p.

Definition starts_crlf (d : bytes) : bool :=
  bool_decide (d !! 0%nat = Some CR) && bool_decide (d !! 1%nat = Some LF).

Fixpoint process_headers_go (fuel : nat) (p : t) : option t :=
  match fuel with
  | O => None
  | S fuel' =>
      if (length (partial p) <? 2)%nat then Some p
      else if starts_crlf (partial p) then Some (finalize_headers (consume_partial 2 p))
      else
        match extract_line (partial p) with
        | None => Some p
        | Some line =>
            if bool_decide (line = []) then process_headers_go fuel' (consume_line line p)
            else process_headers_go fuel'
                   (consume_line line (set_request (add_header line (request p)) p))
        end
  end.

(** Every iteration consumes at least a CR LF. *)
Definition process_headers (p : t) : option t :=
  process_headers_go (S (length (partial p))) p.

(** *** Body *)

(** Cut the body out of [raw_] after the first blank line and finish. *)
Definition extract_body (p : t) : t :=
  set_state Complete
    match find_sub CRLFCRLF (raw p) with
    | Some he =>
        set_request (with_body (slice (he + 4) (Z.to_nat (content_length p)) (raw p))
                       (request p)) p
    | None => p
    end.

Definition process_body (p : t) : t :=
  if content_length p <=? 0 then set_state Complete p
  else
    let remaining := u64 (u64 (content_length p) - body_read p) in
    if remaining =? 0 then extract_body p
    else
      let consume := Z.min (zlen (partial p)) remaining in
      let p := consume_partial (Z.to_nat consume) p in
      let p := set_body_read (u64 (body_read p + consume)) p in
      if u64 (content_length p) <=? body_read p then extract_body p else p.

(** *** ChunkedBody *)

Definition hex_digit (c : ascii) : option Z :=
  let c := code c in
  if (48 <=? c) && (c <=? 57) then Some (c - 48)
  else if (97 <=? c) && (c <=? 102) then Some (c - 97 + 10)
  else if (65 <=? c) && (c <=? 70) then Some (c - 65 + 10)
  else None.

Fixpoint parse_hex_go (s : bytes) (value : Z) : option Z :=
  match s with
  | [] => Some value
  | ch :: s' =>
      match hex_digit ch with
      | None => None
      | Some digit => parse_hex_go s' (Z.lor (u64 (Z.shiftl value 4)) digit)
      end
  end.

Definition parse_hex (s : bytes) : option Z :=
  if bool_decide (s = []) then None else parse_hex_go s 0.

(** The size field of a chunk-size line: what precedes a semicolon. *)
Definition chunk_size_field (line : bytes) : bytes :=
  match find_char ";" line with Some semi => take semi line | None => line end.

(** Whether the loop over the chunk phases returns or goes round. *)
Inductive flow := Return | Loop.

(** The trailer loop: [Loop] when the blank line ended it. *)
Fixpoint process_trailer (fuel : nat) (p : t) : option (flow * t) :=
  match fuel with
  | O => None
  | S fuel' =>
      if (length (partial p) <? 2)%nat then Some (Return, p)
      else if starts_crlf (partial p)
      then let p := consume_partial 2 p in
           Some (Loop, set_chunk End_ (current_chunk_size p) (current_chunk_read p) p)
      else
        match extract_line (partial p) with
        | None => Some (Return, p)
        | Some line => process_trailer fuel' (consume_partial (length line + 2) p)
        end
  end.

(** One turn of the switch over [chunk_phase_]. *)
Definition chunk_turn (p : t) : option (flow * t) :=
  match chunk_phase p with
  | SizeLine =>
      match extract_line (partial p) with
      | None => Some (Return, p)
      | Some line =>
          match parse_hex (chunk_size_field line) with
          | None => Some (Return, set_state Error p)
          | Some sz =>
              let p := set_chunk SizeLine sz (current_chunk_read p) p in
              let p := consume_partial (length line + 2) p in
              if sz =? 0 then Some (Loop, set_chunk Trailer sz (current_chunk_read p) p)
              else
                let '(ok, p) := check_size_limit p in
                if negb ok then Some (Return, p)
                else Some (Loop, set_chunk Data sz 0 p)
          end
      end
  | Data =>
      let remaining := u64 (current_chunk_size p - current_chunk_read p) in
      if remaining =? 0 then
        if (length (partial p) <? 2)%nat then Some (Return, p)
        else if negb (starts_crlf (partial p)) then Some (Return, set_state Error p)
        else
          let p := consume_partial 2 p in
          Some (Loop, set_chunk SizeLine (current_chunk_size p) (current_chunk_read p) p)
      else
        let consume := Z.min (zlen (partial p)) remaining in
        let p := consume_partial (Z.to_nat consume) p in
        let p := set_chunk Data (current_chunk_size p)
                   (u64 (current_chunk_read p + consume)) p in
        let '(ok, p) := check_size_limit p in
        if negb ok then Some (Return, p)
        else if current_chunk_size p <=? current_chunk_read p then Some (Loop, p)
        else Some (Return, p)
  | Trailer => process_trailer (S (length (partial p))) p
  | End_ => Some (Return, set_state Complete p)
  end.

Fixpoint process_chunked_go (fuel : nat) (p : t) : option t :=
  match fuel with
  | O => None
  | S fuel' =>
      if bool_decide (state p = ChunkedBody) then
        '(fl, p') ← chunk_turn p;
        match fl with Return => Some p' | Loop => process_chunked_go fuel' p' end
      else Some p
  end.

(** Every turn that goes round consumes at least one byte. *)
Definition process_chunked (p : t) : option t :=
  process_chunked_go (S (S (length (partial p)))) p.

(** *** Dispatch *)

Fixpoint process (fuel : nat) (p : t) : option t :=
  match fuel with
  | O => None
  | S fuel' =>
      let after (p : t) : option t :=
        match state p with
        | RequestLine | Headers => Some p
        | Body | ChunkedBody =>
            if bool_decide (partial p = []) then Some p else process fuel' p
        | _ => process fuel' p
        end in
      match state p with
      | Complete | Error => Some p
      | RequestLine =>
          let p := process_request_line p in
          if bool_decide (state p = Headers) then process fuel' p else after p
      | Headers => p ← process_headers p; after p
      | Body => after (process_body p)
      | ChunkedBody => p ← process_chunked p; after p
      end
  end.

(** [parse(data, len)]: the returned count and the new parser, [None] when the
    dispatch loop has not returned within the fuel. *)
Definition parse (fuel : nat) (data : bytes) (p : t) : option (Z * t) :=
  if bool_decide (state p = Error) || bool_decide (state p = Complete) then Some (0, p)
  else
    let old_raw_size := zlen (raw p) in
    p ← process fuel (set_partial (partial p ++ data) p);
    let '(ok, p) := check_size_limit p in
    if negb ok then Some (0, p)
    else if 0 <? zlen data then Some (zlen data, p)
    else Some (u64 (zlen (raw p) - old_raw_size), p).

End HttpParser.
