(* ===== verification/HttpParserSpec.v ===== *)
(** * HttpParserSpec: what the incremental parser computes

    The parser is described by a step function [mstep] that takes the smallest
    unit of input the code acts on (a line, a run of body bytes, a chunk
    delimiter).  [process] and [parse] are proved to perform exactly such steps
    until none applies, which gives the theorems of the file by induction over
    the steps: byte accounting, size limit, independence of how the input is cut
    into reads, termination and its failure on incomplete chunks. *)

From S2P Require Import Prelude Utils StdMap Http HttpParser.

Module HttpParserSpec.
Import Http HttpParser.
Open Scope Z_scope.

(** The parser with more buffered input. *)
Definition with_data (d : bytes) (p : t) : t := set_partial (partial p ++ d) p.

Definition active (p : t) : Prop := state p <> Complete /\ state p <> Error.

(** ** The step function *)

Definition chunk_step (p : t) : option t :=
  match chunk_phase p with
  | SizeLine =>
      match extract_line (partial p) with
      | None => None
      | Some _ => snd <$> chunk_turn p
      end
  | Data =>
      if u64 (current_chunk_size p - current_chunk_read p) =? 0
      then if (length (partial p) <? 2)%nat then None else snd <$> chunk_turn p
      else if bool_decide (partial p = []) then None else snd <$> chunk_turn p
  | Trailer =>
      if (length (partial p) <? 2)%nat then None
      else if starts_crlf (partial p)
      then let p := consume_partial 2 p in
           Some (set_chunk End_ (current_chunk_size p) (current_chunk_read p) p)
      else
        match extract_line (partial p) with
        | None => None
        | Some line => Some (consume_partial (length line + 2) p)
        end
  | End_ => Some (set_state Complete p)
  end.

Definition mstep (p : t) : option t :=
  match state p with
  | Complete | Error => None
  | RequestLine =>
      match extract_line (partial p) with
      | None => None
      | Some line =>
          if bool_decide (line = []) then Some (snd (check_size_limit (consume_line line p)))
          else Some (process_request_line p)
      end
  | Headers =>
      if (length (partial p) <? 2)%nat then None
      else if starts_crlf (partial p) then Some (finalize_headers (consume_partial 2 p))
      else
        match extract_line (partial p) with
        | None => None
        | Some line =>
            Some (consume_line line (set_request (add_header line (request p)) p))
        end
  | Body => if bool_decide (partial p = []) then None else Some (process_body p)
  | ChunkedBody => chunk_step p
  end.

Definition R (p p' : t) : Prop := mstep p = Some p'.

(** [nf p q]: [q] is where the steps from [p] end. *)
Definition nf (p q : t) : Prop := rtc R p q /\ mstep q = None.

(** ** Representation invariant *)

Definition inv (p : t) : Prop :=
  match state p with
  | RequestLine | Headers => content_length p = -1 /\ is_chunked p = false
  | Body => 0 < content_length p <= INT_MAX /\ 0 <= body_read p < content_length p
  | ChunkedBody =>
      chunk_phase p = Data ->
      0 <= current_chunk_read p <= current_chunk_size p /\ current_chunk_size p < two64 /\
      zlen (raw p) <= u64 (max_size p)
  | Complete | Error => True
  end.

(** ** Lines *)

Lemma extract_line_Some d line :
  extract_line d = Some line ->
  CR ∉ line /\ exists rest, d = line ++ CRLF ++ rest.
Proof.
  unfold extract_line. destruct (find_char CR d) as [i|] eqn:E; [|done].
  apply find_char_Some in E as (Hd & Hn & Hl). split_if; [|done]. intros [= <-].
  split; [done|]. exists (drop (S (S i)) d). rewrite Hd at 1. simpl. do 2 f_equal.
  by apply drop_S.
Qed.

Lemma extract_line_app line rest :
  CR ∉ line -> extract_line (line ++ CRLF ++ rest) = Some line.
Proof.
  intros Hn. unfold extract_line. simpl.
  rewrite find_char_app by done. rewrite bool_decide_eq_true_2.
  - by rewrite take_app_length.
  - rewrite lookup_app_r by lia. by replace (S (length line) - length line)%nat with 1%nat by lia.
Qed.

Lemma extract_line_with_data d e line :
  extract_line d = Some line -> extract_line (d ++ e) = Some line.
Proof.
  intros H. apply extract_line_Some in H as (Hn & rest & ->).
  rewrite <- !app_assoc. by apply extract_line_app.
Qed.

Lemma extract_line_length d line :
  extract_line d = Some line -> (length line + 2 <= length d)%nat.
Proof.
  intros H. apply extract_line_Some in H as (_ & rest & ->).
  rewrite !length_app. simpl. lia.
Qed.

Lemma starts_crlf_spec d : starts_crlf d = true <-> exists rest, d = CRLF ++ rest.
Proof.
  unfold starts_crlf. rewrite andb_true_iff, !bool_decide_eq_true. split.
  - destruct d as [|a [|b d]]; simpl; [by intros []|by intros []|].
    intros [[= ->] [= ->]]. by exists d.
  - by intros [rest ->].
Qed.

Lemma starts_crlf_app d e :
  (2 <= length d)%nat -> starts_crlf (d ++ e) = starts_crlf d.
Proof. intros H. destruct d as [|a [|b d]]; simpl in *; try lia. done. Qed.

Lemma starts_crlf_line d : starts_crlf d = true -> extract_line d = Some [].
Proof. intros H. apply starts_crlf_spec in H as [rest ->]. apply (extract_line_app []), not_elem_of_nil. Qed.

(** ** Adding data commutes with the actions of the code *)

Lemma consume_with_data n d p :
  (n <= length (partial p))%nat ->
  consume_partial n (with_data d p) = with_data d (consume_partial n p).
Proof.
  intros H. unfold consume_partial, with_data, set_partial. simpl.
  by rewrite take_app_le, drop_app_le.
Qed.

Lemma check_with_data d p :
  check_size_limit (with_data d p) =
  ((check_size_limit p).1, with_data d (check_size_limit p).2).
Proof. unfold check_size_limit. simpl. by split_if. Qed.

Lemma finalize_with_data d p :
  finalize_headers (with_data d p) = with_data d (finalize_headers p).
Proof.
  unfold finalize_headers. simpl. split_if; [done|].
  destruct (StdMap.find _ _) as [v|]; [|simpl; by split_if].
  destruct (Utils.parse_int_safe _ _) as [n|]; [|simpl; by split_if].
  destruct (0 <=? n); simpl; by split_if.
Qed.

Lemma extract_body_with_data d p :
  extract_body (with_data d p) = with_data d (extract_body p).
Proof. unfold extract_body. simpl. by destruct (find_sub _ _). Qed.

Lemma with_data_nil p : with_data [] p = p.
Proof. unfold with_data, set_partial. rewrite app_nil_r. by destruct p. Qed.

Lemma with_data_app d e p : with_data e (with_data d p) = with_data (d ++ e) p.
Proof. unfold with_data, set_partial. simpl. by rewrite app_assoc. Qed.

(** ** What a step preserves *)

(** The bytes of the message so far and those still buffered, in order. *)
Definition stream (p : t) : bytes := raw p ++ partial p.

Lemma consume_stream n p : stream (consume_partial n p) = stream p.
Proof. unfold stream. simpl. by rewrite <- app_assoc, take_drop. Qed.

Lemma finalize_frame p :
  raw (finalize_headers p) = raw p /\ partial (finalize_headers p) = partial p /\
  max_size (finalize_headers p) = max_size p.
Proof.
  unfold finalize_headers. split_if; [done|].
  destruct (StdMap.find _ _) as [v|]; [|by split_if].
  destruct (Utils.parse_int_safe _ _) as [n|]; [|by split_if].
  destruct (0 <=? n); by split_if.
Qed.

Lemma extract_body_frame p :
  raw (extract_body p) = raw p /\ partial (extract_body p) = partial p /\
  max_size (extract_body p) = max_size p.
Proof. unfold extract_body. by destruct (find_sub _ _). Qed.

Lemma check_cases p :
  (check_size_limit p = (true, p) /\ zlen (raw p) <= u64 (max_size p)) \/
  (check_size_limit p = (false, set_state Error p) /\ u64 (max_size p) < zlen (raw p)).
Proof. unfold check_size_limit. split_if; [by right|by left]. Qed.

Lemma process_body_eq p :
  state p = Body -> inv p ->
  let k := Z.min (zlen (partial p)) (content_length p - body_read p) in
  let p1 := set_body_read (body_read p + k) (consume_partial (Z.to_nat k) p) in
  process_body p = if content_length p <=? body_read p + k then extract_body p1 else p1.
Proof.
  intros Hs Hi. unfold inv in Hi. rewrite Hs in Hi. unfold INT_MAX in Hi.
  assert (0 <= zlen (partial p)) by apply zlen_nonneg.
  unfold process_body. rewrite (u64_small (content_length p)) by (unfold two64; lia).
  rewrite u64_small by (unfold two64; lia). simpl.
  rewrite (u64_small (content_length p)) by (unfold two64; lia).
  rewrite (u64_small (body_read p + _)) by (unfold two64; lia).
  destruct (Z.leb_spec (content_length p) 0); [lia|].
  destruct (Z.eqb_spec (content_length p - body_read p) 0); [lia|]. done.
Qed.

(** One turn in the Data phase, with the machine arithmetic resolved. *)
Lemma chunk_turn_data p :
  state p = ChunkedBody -> chunk_phase p = Data -> inv p ->
  let rem := current_chunk_size p - current_chunk_read p in
  chunk_turn p =
  if rem =? 0 then
    if (length (partial p) <? 2)%nat then Some (Return, p)
    else if negb (starts_crlf (partial p)) then Some (Return, set_state Error p)
    else Some (Loop, set_chunk SizeLine (current_chunk_size p) (current_chunk_read p)
                       (consume_partial 2 p))
  else
    let k := Z.min (zlen (partial p)) rem in
    let p1 := set_chunk Data (current_chunk_size p) (current_chunk_read p + k)
                (consume_partial (Z.to_nat k) p) in
    if u64 (max_size p) <? zlen (raw p1) then Some (Return, set_state Error p1)
    else if rem <=? k then Some (Loop, p1) else Some (Return, p1).
Proof.
  intros Hs Hp Hi. unfold inv in Hi. rewrite Hs in Hi. specialize (Hi Hp).
  assert (0 <= zlen (partial p)) by apply zlen_nonneg.
  unfold chunk_turn. rewrite Hp. rewrite u64_small by (unfold two64 in *; lia). simpl.
  rewrite u64_small by (unfold two64 in *; lia).
  destruct (Z.eqb_spec (current_chunk_size p - current_chunk_read p) 0); [done|].
  unfold check_size_limit. simpl. split_if; simpl; [done|].
  set (k := Z.min (zlen (partial p)) (current_chunk_size p - current_chunk_read p)).
  replace (current_chunk_size p <=? current_chunk_read p + k)
    with (current_chunk_size p - current_chunk_read p <=? k); [done|].
  apply eq_true_iff_eq. rewrite !Z.leb_le. lia.
Qed.

Lemma mstep_chunked p : state p = ChunkedBody -> mstep p = chunk_step p.
Proof. intros H. unfold mstep. by rewrite H. Qed.

(** One turn in the SizeLine phase on a complete line. *)
Lemma chunk_turn_size p line :
  chunk_phase p = SizeLine -> extract_line (partial p) = Some line ->
  let p1 := consume_partial (length line + 2) p in
  chunk_turn p =
  match parse_hex (chunk_size_field line) with
  | None => Some (Return, set_state Error p)
  | Some sz =>
      if sz =? 0 then Some (Loop, set_chunk Trailer sz (current_chunk_read p) p1)
      else if u64 (max_size p) <? zlen (raw p1)
      then Some (Return, set_state Error (set_chunk SizeLine sz (current_chunk_read p) p1))
      else Some (Loop, set_chunk Data sz 0 p1)
  end.
Proof.
  intros Hp El. unfold chunk_turn. rewrite Hp, El. simpl.
  destruct (parse_hex _) as [sz|]; [|done]. destruct (sz =? 0); [done|].
  unfold check_size_limit. simpl. by split_if.
Qed.

Lemma lor_range a b : 0 <= a < two64 -> 0 <= b < two64 -> 0 <= Z.lor a b < two64.
Proof.
  intros Ha Hb. assert (0 <= Z.lor a b) as H0 by (apply Z.lor_nonneg; lia).
  split; [done|]. destruct (Z.eq_dec (Z.lor a b) 0) as [->|]; [done|].
  change two64 with (2 ^ 64) in *. apply Z.log2_lt_pow2; [lia|].
  rewrite Z.log2_lor by lia. apply Z.max_lub_lt.
  - destruct (Z.eq_dec a 0) as [->|]; [done|]. apply Z.log2_lt_pow2; lia.
  - destruct (Z.eq_dec b 0) as [->|]; [done|]. apply Z.log2_lt_pow2; lia.
Qed.

Lemma hex_digit_range c d : hex_digit c = Some d -> 0 <= d < 16.
Proof. unfold hex_digit. repeat split_if; try done; intros [= <-]; lia. Qed.

Lemma parse_hex_go_range s v n :
  0 <= v < two64 -> parse_hex_go s v = Some n -> 0 <= n < two64.
Proof.
  revert v; induction s as [|c s IH]; intros v Hv; simpl; [by intros [= <-]|].
  destruct (hex_digit c) as [d|] eqn:E; [|done]. apply hex_digit_range in E.
  apply IH, lor_range; [apply u64_range|unfold two64; lia].
Qed.

Lemma parse_hex_range s n : parse_hex s = Some n -> 0 <= n < two64.
Proof.
  unfold parse_hex. split_if; [done|]. apply parse_hex_go_range. unfold two64; lia.
Qed.

(** Case analysis on a step of the chunk machine. *)
Lemma chunk_step_cases p p' :
  chunk_step p = Some p' ->
  (chunk_phase p = SizeLine /\ (exists line, extract_line (partial p) = Some line) /\
     exists fl, chunk_turn p = Some (fl, p')) \/
  (chunk_phase p = Data /\ exists fl, chunk_turn p = Some (fl, p')) \/
  (chunk_phase p = Trailer /\ starts_crlf (partial p) = true /\ (2 <= length (partial p))%nat /\
     p' = set_chunk End_ (current_chunk_size p) (current_chunk_read p) (consume_partial 2 p)) \/
  (chunk_phase p = Trailer /\ exists line, extract_line (partial p) = Some line /\
     (2 <= length (partial p))%nat /\ starts_crlf (partial p) = false /\
     p' = consume_partial (length line + 2) p) \/
  (chunk_phase p = End_ /\ p' = set_state Complete p).
Proof.
  unfold chunk_step. destruct (chunk_phase p) eqn:Hph.
  - destruct (extract_line (partial p)) as [line|] eqn:El; [|done]. intros Ht. left.
    destruct (chunk_turn p) as [[fl q]|]; simpl in *; [|done]. naive_solver.
  - intros Ht. right. left. split; [done|].
    assert (snd <$> chunk_turn p = Some p') as Ht' by (repeat split_if; done).
    destruct (chunk_turn p) as [[fl q]|]; simpl in *; [|done]. exists fl. congruence.
  - split_if; [done|]. split_if.
    + intros [= <-]. right; right; left. repeat split; try done.
    + destruct (extract_line (partial p)) as [line|]; [|done]. intros [= <-].
      right; right; right; left. split; [done|]. exists line. repeat split; done.
  - intros [= <-]. right; right; right; right. done.
Qed.

(** What every step does to the input: it moves a prefix of the buffered bytes
    to [raw_], and takes at least one unless it ends the message. *)
Record moves (p p' : t) : Prop := {
  moves_stream : stream p' = stream p;
  moves_max : max_size p' = max_size p;
  moves_le : (length (partial p') <= length (partial p))%nat;
  moves_progress : (length (partial p') < length (partial p))%nat \/ ~ active p'
}.

Lemma moves_consume n p q :
  raw q = raw (consume_partial n p) -> partial q = partial (consume_partial n p) ->
  max_size q = max_size p ->
  ((0 < n)%nat /\ partial p <> []) \/ ~ active q -> moves p q.
Proof.
  intros Hr Hp Hm Hn. split.
  - rewrite <- (consume_stream n p). unfold stream. by rewrite Hr, Hp.
  - done.
  - rewrite Hp. simpl. rewrite length_drop. lia.
  - destruct Hn as [[Hn Hne]|]; [left|by right]. rewrite Hp. simpl. rewrite length_drop.
    destruct (partial p); [done|]. simpl. lia.
Qed.

Lemma extract_line_nonempty d line : extract_line d = Some line -> d <> [].
Proof. intros H ->. by apply extract_line_length in H; simpl in H; lia. Qed.

Lemma chunk_step_moves p p' :
  state p = ChunkedBody -> inv p -> chunk_step p = Some p' -> moves p p'.
Proof.
  intros Hs Hi Hc. pose proof Hc as Hc0.
  apply chunk_step_cases in Hc
    as [(Hp & [line El] & fl & Ht)|[(Hp & fl & Ht)|[(Hp & Hx & Hl & ->)|[(Hp & line & El & Hl & Hx & ->)|(Hp & ->)]]]].
  - rewrite (chunk_turn_size p line Hp El) in Ht. cbv zeta in Ht. apply extract_line_nonempty in El as Hne.
    destruct (parse_hex _) as [sz|].
    + repeat split_if; injection Ht as _ <-; apply (moves_consume (length line + 2)); try done;
        left; (split; [lia|done]).
    + injection Ht as _ <-. split; try done. right. unfold active. simpl. naive_solver.
  - rewrite (chunk_turn_data p Hs Hp Hi) in Ht. cbv zeta in Ht. unfold chunk_step in Hc0. rewrite Hp in Hc0.
    assert (Hi' := Hi). unfold inv in Hi'. rewrite Hs in Hi'. specialize (Hi' Hp).
    rewrite u64_small in Hc0 by (unfold two64 in *; lia).
    destruct (Z.eqb_spec (current_chunk_size p - current_chunk_read p) 0) as [E|E].
    + split_if; [done|]. split_if; injection Ht as _ <-.
      * split; try done. right. unfold active. simpl. naive_solver.
      * apply (moves_consume 2); try done. left. split; [lia|]. intros Hn. rewrite Hn in *. simpl in *. lia.
    + split_if; [done|].
      assert (0 < zlen (partial p)) as Hz by by apply zlen_pos.
      repeat split_if; injection Ht as _ <-;
        apply (moves_consume (Z.to_nat (Z.min (zlen (partial p))
                 (current_chunk_size p - current_chunk_read p)))); try done;
        left; (split; [lia|done]).
  - apply (moves_consume 2); try done. left. split; [lia|]. intros Hn. rewrite Hn in *. simpl in *. lia.
  - apply (moves_consume (length line + 2)); try done.
    left. split; [lia|]. by eapply extract_line_nonempty.
  - split; try done. right. unfold active. simpl. naive_solver.
Qed.

Lemma mstep_moves p p' : inv p -> mstep p = Some p' -> moves p p'.
Proof.
  intros Hi. unfold mstep. destruct (state p) eqn:Hs; try done.
  - destruct (extract_line (partial p)) as [line|] eqn:El; [|done].
    apply extract_line_nonempty in El as Hne. split_if.
    + intros [= <-]. destruct (check_cases (consume_line line p)) as [[-> _]|[-> _]];
        apply (moves_consume (length line + 2)); try done; left; (split; [lia|done]).
    + intros [= <-]. unfold process_request_line. rewrite El. rewrite bool_decide_eq_false_2 by done.
      destruct (parse_request_line line (request p)) as [[] req]; simpl.
      * apply (moves_consume (length line + 2)); try done. left; (split; [lia|done]).
      * split; try done. right. unfold active. simpl. naive_solver.
  - split_if; [done|]. split_if.
    + intros [= <-]. destruct (finalize_frame (consume_partial 2 p)) as (H1 & H2 & H3).
      apply (moves_consume 2); try done. left. split; [lia|].
      intros Hn. rewrite Hn in *. simpl in *. lia.
    + destruct (extract_line (partial p)) as [line|] eqn:El; [|done]. intros [= <-].
      apply (moves_consume (length line + 2)); try done.
      left. split; [lia|]. by eapply extract_line_nonempty.
  - split_if; [done|]. intros [= <-]. rewrite (process_body_eq p Hs Hi).
    unfold inv in Hi. rewrite Hs in Hi.
    set (k := Z.min _ _).
    destruct (extract_body_frame (set_body_read (body_read p + k) (consume_partial (Z.to_nat k) p)))
      as (H1 & H2 & H3).
    assert (0 < zlen (partial p)) as Hz by by apply zlen_pos.
    split_if; apply (moves_consume (Z.to_nat k)); try done; left; (split; [lia|done]).
  - by apply chunk_step_moves.
Qed.

Lemma finalize_inv p :
  content_length p = -1 -> is_chunked p = false -> inv (finalize_headers p).
Proof.
  intros Hc Hk. unfold finalize_headers. simpl. split_if; [done|].
  destruct (StdMap.find _ _) as [v|]; [|simpl; split_if; [lia|done]].
  destruct (Utils.parse_int_safe _ _) as [n|] eqn:E; [|simpl; split_if; [lia|done]].
  apply Utils.parse_int_safe_range in E.
  destruct (0 <=? n); simpl; split_if; try done; try lia.
  unfold inv. simpl. lia.
Qed.

Lemma chunk_step_inv p p' :
  state p = ChunkedBody -> inv p -> chunk_step p = Some p' -> inv p'.
Proof.
  intros Hs Hi Hc.
  apply chunk_step_cases in Hc
    as [(Hp & [line El] & fl & Ht)|[(Hp & fl & Ht)|[(Hp & Hx & Hl & ->)|[(Hp & line & El & Hl & Hx & ->)|(Hp & ->)]]]].
  - rewrite (chunk_turn_size p line Hp El) in Ht. cbv zeta in Ht.
    destruct (parse_hex _) as [sz|] eqn:E; [|by injection Ht as _ <-].
    apply parse_hex_range in E.
    repeat split_if; injection Ht as _ <-; unfold inv; simpl; rewrite ?Hs; simpl in *; try done; lia.
  - rewrite (chunk_turn_data p Hs Hp Hi) in Ht. cbv zeta in Ht.
    unfold inv in Hi. rewrite Hs in Hi. specialize (Hi Hp).
    pose proof (zlen_nonneg (partial p)).
    repeat split_if; injection Ht as _ <-; unfold inv; simpl; rewrite ?Hs; simpl in *; try done; lia.
  - unfold inv. simpl. by rewrite Hs.
  - unfold inv. simpl. rewrite Hs, Hp. done.
  - done.
Qed.

Lemma mstep_inv p p' : inv p -> mstep p = Some p' -> inv p'.
Proof.
  intros Hi. unfold mstep. destruct (state p) eqn:Hs; try done.
  - unfold inv in Hi. rewrite Hs in Hi.
    destruct (extract_line (partial p)) as [line|] eqn:El; [|done]. split_if.
    + intros [= <-]. destruct (check_cases (consume_line line p)) as [[-> _]|[-> _]]; [|done].
      unfold inv. simpl. by rewrite Hs.
    + intros [= <-]. unfold process_request_line. rewrite El. rewrite bool_decide_eq_false_2 by done.
      destruct (parse_request_line line (request p)) as [[] req]; [|done].
      unfold inv. simpl. done.
  - unfold inv in Hi. rewrite Hs in Hi. split_if; [done|]. split_if.
    + intros [= <-]. apply finalize_inv; simpl; tauto.
    + destruct (extract_line (partial p)) as [line|] eqn:El; [|done]. intros [= <-].
      unfold inv. simpl. by rewrite Hs.
  - split_if; [done|]. intros [= <-]. rewrite (process_body_eq p Hs Hi).
    unfold inv in Hi. rewrite Hs in Hi. pose proof (zlen_nonneg (partial p)).
    split_if.
    + unfold extract_body. by destruct (find_sub _ _).
    + unfold inv. simpl. rewrite Hs. lia.
  - by apply chunk_step_inv.
Qed.

Lemma R_inv p q : rtc R p q -> inv p -> inv q.
Proof. induction 1 as [|p p' q Hs _ IH]; [done|]. intros Hi. eauto using mstep_inv. Qed.

Lemma R_moves p q : rtc R p q -> inv p ->
  stream q = stream p /\ max_size q = max_size p /\ (length (partial q) <= length (partial p))%nat.
Proof.
  induction 1 as [|p p' q Hs _ IH]; [done|]. intros Hi.
  destruct (mstep_moves _ _ Hi Hs) as [H1 H2 H3 _].
  destruct IH as (I1 & I2 & I3); [by eapply mstep_inv|].
  rewrite I1, I2. repeat split; [done|done|lia].
Qed.

(** ** The loops of the code perform steps *)

Lemma nf_stuck p : mstep p = None -> nf p p.
Proof. intros H. split; [apply rtc_refl|done]. Qed.

Lemma nf_trans p p' q : rtc R p p' -> nf p' q -> nf p q.
Proof. intros H [H1 H2]. split; [by etrans|done]. Qed.

Lemma nf_step p p' q : mstep p = Some p' -> nf p' q -> nf p q.
Proof. intros H. apply nf_trans. by apply rtc_once. Qed.

Lemma stuck_rtc p q : mstep p = None -> rtc R p q -> q = p.
Proof. intros H Hr. inversion Hr as [|? p' ? Hs]; [done|]. unfold R in Hs. congruence. Qed.

Lemma rtc_comparable p a b : rtc R p a -> rtc R p b -> rtc R a b \/ rtc R b a.
Proof.
  intros Ha. revert b. induction Ha as [|p p' a Hs Ha IH]; intros b Hb; [by left|].
  inversion Hb as [|? p'' ? Hs' Hb']; subst; [right; by eapply rtc_l|].
  unfold R in *. assert (p'' = p') as -> by congruence. by apply IH.
Qed.

Lemma nf_unique p a b : nf p a -> nf p b -> a = b.
Proof.
  intros [Ha Sa] [Hb Sb].
  destruct (rtc_comparable p a b Ha Hb) as [H|H]; apply stuck_rtc in H; done.
Qed.

(** A normal form is reached through every intermediate state. *)
Lemma nf_through p p' q : rtc R p p' -> nf p q <-> nf p' q.
Proof.
  intros H. split; [|by apply nf_trans]. intros [Hq Sq]. split; [|done].
  destruct (rtc_comparable p p' q H Hq) as [?|H']; [done|].
  by apply stuck_rtc in H' as ->.
Qed.

Lemma set_request_same p : set_request (request p) p = p.
Proof. by destruct p. Qed.

Lemma finalize_state p :
  state (finalize_headers p) = Body \/ state (finalize_headers p) = Complete \/
  (state (finalize_headers p) = ChunkedBody /\ chunk_phase (finalize_headers p) = SizeLine).
Proof.
  unfold finalize_headers. simpl. split_if; [by right; right|].
  destruct (StdMap.find _ _) as [v|]; [|simpl; split_if; tauto].
  destruct (Utils.parse_int_safe _ _) as [n|]; [|simpl; split_if; tauto].
  destruct (0 <=? n); simpl; split_if; tauto.
Qed.

Lemma process_headers_go_steps fuel p :
  state p = Headers -> (length (partial p) < fuel)%nat ->
  exists p', process_headers_go fuel p = Some p' /\ rtc R p p' /\
    ((state p' = Headers /\ mstep p' = None) \/ state p' = Body \/ state p' = Complete \/
     (state p' = ChunkedBody /\ chunk_phase p' = SizeLine)).
Proof.
  revert p; induction fuel as [|fuel IH]; intros p Hs Hf; [lia|]. simpl.
  assert (Hm : mstep p = mstep p) by done. unfold mstep at 2 in Hm. rewrite Hs in Hm.
  destruct (Nat.ltb_spec (length (partial p)) 2).
  { exists p. split; [done|]. split; [apply rtc_refl|by left]. }
  destruct (starts_crlf (partial p)) eqn:Hx.
  { eexists. split; [done|]. split; [by apply rtc_once|]. right. apply finalize_state. }
  destruct (extract_line (partial p)) as [line|] eqn:El.
  2: { exists p. split; [done|]. split; [apply rtc_refl|by left]. }
  assert ((if bool_decide (line = []) then process_headers_go fuel (consume_line line p)
           else process_headers_go fuel
                  (consume_line line (set_request (add_header line (request p)) p)))
          = process_headers_go fuel (consume_line line (set_request (add_header line (request p)) p)))
    as ->.
  { split_if; [|done]. subst. unfold add_header. simpl. by rewrite set_request_same. }
  destruct (IH (consume_line line (set_request (add_header line (request p)) p)))
    as (p' & -> & Hr & Hp'); [done|simpl; rewrite length_drop; apply extract_line_length in El; lia|].
  exists p'. split; [done|]. split; [by eapply rtc_l|done].
Qed.

Lemma process_headers_steps p :
  state p = Headers ->
  exists p', process_headers p = Some p' /\ rtc R p p' /\
    ((state p' = Headers /\ mstep p' = None) \/ state p' = Body \/ state p' = Complete \/
     (state p' = ChunkedBody /\ chunk_phase p' = SizeLine)).
Proof. intros Hs. apply process_headers_go_steps; [done|lia]. Qed.

Lemma process_trailer_steps fuel p :
  state p = ChunkedBody -> chunk_phase p = Trailer -> (length (partial p) < fuel)%nat ->
  exists fl p', process_trailer fuel p = Some (fl, p') /\ rtc R p p' /\ state p' = ChunkedBody /\
    match fl with
    | Loop => chunk_phase p' = End_ /\ (length (partial p') < length (partial p))%nat
    | Return => mstep p' = None
    end.
Proof.
  revert p; induction fuel as [|fuel IH]; intros p Hs Hp Hf; [lia|]. simpl.
  assert (Hm : mstep p = mstep p) by done.
  unfold mstep at 2, chunk_step in Hm. rewrite Hs, Hp in Hm.
  destruct (Nat.ltb_spec (length (partial p)) 2).
  { exists Return, p. repeat split; done. }
  destruct (starts_crlf (partial p)) eqn:Hx.
  { eexists Loop, _. split; [done|]. split; [by apply rtc_once|]. split; [done|]. simpl.
    split; [done|]. rewrite length_drop. lia. }
  destruct (extract_line (partial p)) as [line|] eqn:El.
  2: { exists Return, p. repeat split; done. }
  apply extract_line_length in El as Hl.
  destruct (IH (consume_partial (length line + 2) p)) as (fl & p' & -> & Hr & Hs' & Hf');
    [done|done|simpl; rewrite length_drop; lia|].
  exists fl, p'. split; [done|]. split; [by eapply rtc_l|]. split; [done|].
  destruct fl; [done|]. simpl in Hf'. rewrite length_drop in Hf'. split; [tauto|lia].
Qed.

(** A turn that goes round made a step to a smaller chunked state; one that
    returns has reached a state with no step. *)
Lemma chunk_turn_steps p :
  state p = ChunkedBody -> inv p ->
  exists fl p', chunk_turn p = Some (fl, p') /\ rtc R p p' /\
    match fl with
    | Loop => state p' = ChunkedBody /\ (length (partial p') < length (partial p))%nat
    | Return => mstep p' = None
    end.
Proof.
  intros Hs Hi.
  assert (Hm : mstep p = chunk_step p) by by apply mstep_chunked.
  assert (forall fl p', chunk_turn p = Some (fl, p') -> chunk_step p = Some p' ->
    match fl with
    | Loop => state p' = ChunkedBody
    | Return => mstep p' = None
    end ->
    exists fl p', chunk_turn p = Some (fl, p') /\ rtc R p p' /\
    match fl with
    | Loop => state p' = ChunkedBody /\ (length (partial p') < length (partial p))%nat
    | Return => mstep p' = None
    end) as Hstep.
  { intros fl p' Ht Hc Hf. exists fl, p'. split; [done|].
    split; [apply rtc_once; unfold R; congruence|].
    destruct fl; [done|]. split; [done|].
    destruct (chunk_step_moves p p' Hs Hi Hc) as [_ _ _ [?|Hn]]; [done|].
    unfold active in Hn. rewrite Hf in Hn. naive_solver. }
  destruct (chunk_phase p) eqn:Hp.
  - unfold chunk_step in *. rewrite Hp in *.
    destruct (extract_line (partial p)) as [line|] eqn:El.
    + pose proof (chunk_turn_size p line Hp El) as Ht. cbv zeta in Ht.
      destruct (parse_hex _) as [sz|].
      * destruct (sz =? 0); [apply (Hstep _ _ Ht); [by rewrite Ht|done]|].
        destruct (_ <? _); apply (Hstep _ _ Ht); try done; by rewrite Ht.
      * apply (Hstep _ _ Ht); [by rewrite Ht|done].
    + exists Return, p. unfold chunk_turn. rewrite Hp, El. repeat split; done.
  - pose proof (chunk_turn_data p Hs Hp Hi) as Ht. cbv zeta in Ht.
    assert (Hi' := Hi). unfold inv in Hi'. rewrite Hs in Hi'. specialize (Hi' Hp).
    unfold chunk_step in Hm, Hstep. rewrite Hp in Hm, Hstep.
    rewrite u64_small in Hm, Hstep by (unfold two64 in *; lia).
    destruct (Z.eqb_spec (current_chunk_size p - current_chunk_read p) 0) as [E|E].
    + destruct (Nat.ltb_spec (length (partial p)) 2).
      { exists Return, p. repeat split; done. }
      destruct (negb (starts_crlf (partial p))); apply (Hstep _ _ Ht); try done; by rewrite Ht.
    + set (k := Z.min _ _) in *.
      destruct (bool_decide (partial p = [])) eqn:He; breflect.
      * assert (k = 0) as Hk by (subst k; rewrite He, zlen_nil; lia).
        rewrite Hk in Ht.
        assert (set_chunk Data (current_chunk_size p) (current_chunk_read p + 0)
                  (consume_partial (Z.to_nat 0) p) = p) as Ep.
        { destruct p; simpl in *. subst. unfold consume_partial, set_chunk. simpl.
          by rewrite Z.add_0_r, app_nil_r. }
        rewrite Ep in Ht. destruct (Z.ltb_spec (u64 (max_size p)) (zlen (raw p))); [lia|].
        destruct (Z.leb_spec (current_chunk_size p - current_chunk_read p) 0); [lia|].
        exists Return, p. repeat split; done.
      * destruct (_ <? _) eqn:Hlim; [apply (Hstep _ _ Ht); [by rewrite Ht|done]|].
        destruct (Z.leb_spec (current_chunk_size p - current_chunk_read p) k) as [Hle|Hlt];
          apply (Hstep _ _ Ht); try done; try (by rewrite Ht).
        unfold mstep, chunk_step. simpl. rewrite Hs.
        pose proof (zlen_nonneg (partial p)).
        rewrite u64_small by (unfold two64 in *; lia).
        destruct (Z.eqb_spec (current_chunk_size p - (current_chunk_read p + k)) 0); [lia|].
        rewrite bool_decide_eq_true_2; [done|]. apply drop_ge. unfold zlen in *. lia.
  - destruct (process_trailer_steps (S (length (partial p))) p) as (fl & p' & Ht & Hr & Hs' & Hf);
      [done|done|lia|].
    exists fl, p'. unfold chunk_turn. rewrite Hp. split; [done|]. split; [done|].
    destruct fl; [done|]. tauto.
  - apply (Hstep Return (set_state Complete p)); unfold chunk_turn, chunk_step; by rewrite ?Hp.
Qed.

Lemma process_chunked_go_steps fuel p :
  state p = ChunkedBody -> inv p -> (length (partial p) < fuel)%nat ->
  exists p', process_chunked_go fuel p = Some p' /\ nf p p'.
Proof.
  revert p; induction fuel as [|fuel IH]; intros p Hs Hi Hf; [lia|]. simpl.
  rewrite bool_decide_eq_true_2 by done.
  destruct (chunk_turn_steps p Hs Hi) as (fl & p' & -> & Hr & Hfl). simpl. destruct fl.
  - exists p'. split; [done|]. by split.
  - destruct Hfl as [Hs' Hl]. destruct (IH p') as (q & -> & Hq); [done|by eapply R_inv|lia|].
    exists q. split; [done|]. by eapply nf_trans.
Qed.

Lemma process_chunked_steps p :
  state p = ChunkedBody -> inv p -> exists p', process_chunked p = Some p' /\ nf p p'.
Proof. intros Hs Hi. apply process_chunked_go_steps; [done|done|lia]. Qed.

(** From a chunked body the steps stay chunked or end the message. *)
Lemma chunk_step_state p p' :
  state p = ChunkedBody -> inv p -> chunk_step p = Some p' ->
  state p' = ChunkedBody \/ state p' = Complete \/ state p' = Error.
Proof.
  intros Hs Hi Hc.
  apply chunk_step_cases in Hc
    as [(Hp & [line El] & fl & Ht)|[(Hp & fl & Ht)|[(Hp & Hx & Hl & ->)|[(Hp & line & El & Hl & Hx & ->)|(Hp & ->)]]]];
    try (simpl; tauto).
  - rewrite (chunk_turn_size p line Hp El) in Ht. cbv zeta in Ht.
    destruct (parse_hex _) as [sz|]; [repeat split_if|]; injection Ht as _ <-; simpl; tauto.
  - rewrite (chunk_turn_data p Hs Hp Hi) in Ht. cbv zeta in Ht.
    repeat split_if; injection Ht as _ <-; simpl; tauto.
Qed.

Lemma chunked_end p q :
  rtc R p q -> state p = ChunkedBody -> inv p ->
  state q = ChunkedBody \/ state q = Complete \/ state q = Error.
Proof.
  induction 1 as [|p p' q Hr Hq IH]; [tauto|]. intros Hs Hi.
  assert (Hc : chunk_step p = Some p') by (rewrite <- mstep_chunked; done).
  destruct (chunk_step_state p p' Hs Hi Hc) as [Hs'|Ht].
  - apply IH; [done|by eapply mstep_inv].
  - right. enough (q = p') as -> by done. apply stuck_rtc; [|done].
    unfold mstep. by destruct Ht as [-> | ->].
Qed.

(** ** The dispatch loop *)

(** A chunked message whose buffered bytes do not complete the next delimiter:
    the dispatch loop neither returns nor advances. *)
Definition hung (q : t) : Prop := state q = ChunkedBody /\ partial q <> [].

Lemma hung_diverges q :
  inv q -> hung q -> mstep q = None -> forall fuel, process fuel q = None.
Proof.
  intros Hi [Hs Hp] Hm. induction fuel as [|fuel IH]; [done|]. simpl. rewrite Hs.
  destruct (process_chunked_steps q Hs Hi) as (q' & -> & Hr & _).
  apply stuck_rtc in Hr as ->; [|done]. simpl. rewrite Hs.
  by rewrite bool_decide_eq_false_2.
Qed.

(** [settles n p]: the loop ends in the normal form within [n] rounds, or the
    normal form is hung and it never ends. *)
Definition settles (n : nat) (p : t) : Prop :=
  exists q, nf p q /\
    ((~ hung q /\ forall fuel, (n <= fuel)%nat -> process fuel p = Some q) \/
     (hung q /\ forall fuel, process fuel p = None)).

Lemma settles_terminal p : ~ active p -> settles 1 p.
Proof.
  intros Ha. exists p.
  assert (state p = Complete \/ state p = Error) as Hs.
  { unfold active in Ha. destruct (state p); naive_solver. }
  split; [apply nf_stuck; unfold mstep; by destruct Hs as [-> | ->]|]. left. split.
  - intros [H _]. by destruct Hs; congruence.
  - intros [|fuel] Hf; [lia|]. simpl. by destruct Hs as [-> | ->].
Qed.

Lemma settles_body p : state p = Body -> inv p -> settles 2 p.
Proof.
  intros Hs Hi. pose proof (process_body_eq p Hs Hi) as Hb. cbv zeta in Hb.
  assert (Hi' := Hi). unfold inv in Hi'. rewrite Hs in Hi'.
  destruct (decide (partial p = [])) as [He|He].
  - rewrite He, zlen_nil, Z.min_l in Hb by lia.
    assert (set_body_read (body_read p + 0) (consume_partial (Z.to_nat 0) p) = p) as Ep.
    { destruct p; simpl in *. subst. unfold consume_partial, set_body_read. simpl.
      by rewrite Z.add_0_r, app_nil_r. }
    rewrite Ep in Hb. destruct (Z.leb_spec (content_length p) (body_read p + 0)); [lia|].
    exists p. split; [apply nf_stuck; unfold mstep; by rewrite Hs, bool_decide_eq_true_2|].
    left. split; [intros [? _]; congruence|]. intros [|fuel] Hf; [lia|]. simpl.
    rewrite Hs, Hb, Hs. by rewrite bool_decide_eq_true_2.
  - assert (mstep p = Some (process_body p)) as Hm.
    { unfold mstep. by rewrite Hs, bool_decide_eq_false_2. }
    destruct (Z.leb_spec (content_length p)
      (body_read p + Z.min (zlen (partial p)) (content_length p - body_read p))) as [Hc|Hc].
    + set (p1 := set_body_read _ _) in Hb.
      assert (state (process_body p) = Complete) as Hst.
      { rewrite Hb. unfold extract_body. by destruct (find_sub _ _). }
      exists (process_body p). split.
      { eapply nf_step; [done|]. apply nf_stuck. unfold mstep. by rewrite Hst. }
      left. split; [intros [? _]; congruence|].
      intros [|[|fuel]] Hf; [lia|lia|]. simpl. rewrite Hs, Hst. done.
    + assert (state (process_body p) = Body /\ partial (process_body p) = []) as [Hst Hpe].
      { rewrite Hb. simpl. split; [done|]. apply drop_ge. unfold zlen in *. lia. }
      exists (process_body p). split.
      { eapply nf_step; [done|]. apply nf_stuck. unfold mstep.
        by rewrite Hst, bool_decide_eq_true_2. }
      left. split; [intros [? _]; congruence|].
      intros [|fuel] Hf; [lia|]. simpl. rewrite Hs, Hst. by rewrite bool_decide_eq_true_2.
Qed.

Lemma settles_chunked p : state p = ChunkedBody -> inv p -> settles 2 p.
Proof.
  intros Hs Hi. destruct (process_chunked_steps p Hs Hi) as (q & Hq & Hn).
  exists q. split; [done|]. destruct (decide (state q = ChunkedBody)) as [Hc|Hc].
  - destruct (decide (partial q = [])) as [He|He].
    + left. split; [by intros [_ ?]|]. intros [|fuel] Hf; [lia|]. simpl.
      rewrite Hs, Hq. simpl. rewrite Hc. by rewrite bool_decide_eq_true_2.
    + right. split; [done|]. intros [|fuel]; [done|]. simpl. rewrite Hs, Hq. simpl.
      rewrite Hc, bool_decide_eq_false_2 by done.
      destruct Hn as [Hr Hm]. apply hung_diverges; [by eapply R_inv|done|done].
  - left. split; [by intros [? _]|]. intros [|[|fuel]] Hf; [lia|lia|]. simpl. rewrite Hs, Hq. simpl.
    destruct Hn as [Hr Hm].
    assert (state q = Complete \/ state q = Error) as Ht.
    { destruct (chunked_end p q Hr Hs Hi); tauto. }
    by destruct Ht as [-> | ->].
Qed.

Lemma settles_mono n m p : settles n p -> (n <= m)%nat -> settles m p.
Proof.
  intros (q & Hq & Hf) Hn. exists q. split; [done|].
  destruct Hf as [[Hh Hf]|?]; [left|by right]. split; [done|]. intros f Hle. apply Hf. lia.
Qed.

Lemma settles_headers p : state p = Headers -> inv p -> settles 3 p.
Proof.
  intros Hs Hi. destruct (process_headers_steps p Hs) as (p1 & Hp & Hr & Hp1).
  assert (Hi1 : inv p1) by by eapply R_inv.
  assert (Hproc : forall fuel, process (S fuel) p =
    match state p1 with
    | RequestLine | Headers => Some p1
    | Body | ChunkedBody => if bool_decide (partial p1 = []) then Some p1 else process fuel p1
    | _ => process fuel p1
    end).
  { intros fuel. simpl. by rewrite Hs, Hp. }
  destruct Hp1 as [[Hst Hm]|Hlate].
  { exists p1. split; [by split|]. left. split; [intros [? _]; congruence|].
    intros [|fuel] Hf; [lia|]. by rewrite Hproc, Hst. }
  destruct (decide (partial p1 = [] /\ state p1 <> Complete)) as [[He Hnc]|He].
  - exists p1. rewrite bool_decide_eq_true_2 in Hproc by done. split.
    { split; [done|]. unfold mstep, chunk_step.
      destruct Hlate as [->|[?|[-> ->]]]; [by rewrite bool_decide_eq_true_2|done|by rewrite He]. }
    left. split; [by intros [_ ?]|]. intros [|fuel] Hf; [lia|]. rewrite Hproc.
    by destruct Hlate as [->|[?|[-> _]]].
  - assert (settles 2 p1) as (q & Hq & Hf).
    { destruct Hlate as [?|[Hc|[? _]]]; [by apply settles_body| |by apply settles_chunked].
      apply (settles_mono 1); [|lia]. apply settles_terminal. by intros [? _]. }
    assert (forall fuel, process (S fuel) p = process fuel p1) as Hproc'.
    { intros fuel. rewrite Hproc.
      destruct Hlate as [E|[E|[E _]]]; rewrite E; [|done|];
        (rewrite bool_decide_eq_false_2; [done|]; intros ?; apply He; split; [done|congruence]). }
    exists q. split; [by eapply nf_trans|].
    destruct Hf as [[Hh Hf]|[Hh Hf]]; [left|right]; (split; [done|]).
    + intros [|fuel] Hle; [lia|]. rewrite Hproc'. apply Hf. lia.
    + intros [|fuel]; [done|]. by rewrite Hproc'.
Qed.

(** The whole dispatch loop: it settles, or it consumes one leading blank line
    and pauses there. *)
Lemma process_settles p :
  inv p -> active p ->
  settles 4 p \/
  (state p = RequestLine /\ extract_line (partial p) = Some [] /\
   forall fuel, (1 <= fuel)%nat -> process fuel p = Some (consume_line [] p)).
Proof.
  intros Hi Ha.
  destruct (state p) eqn:Hs.
  - destruct (extract_line (partial p)) as [line|] eqn:El.
    + destruct (decide (line = [])) as [->|Hne].
      { right. repeat split. intros [|fuel] Hf; [lia|]. simpl. rewrite Hs.
        unfold process_request_line. rewrite El. change (bool_decide (@nil ascii = [])) with true. simpl.
        by rewrite Hs. }
      left. assert (mstep p = Some (process_request_line p)) as Hm.
      { unfold mstep. by rewrite Hs, El, bool_decide_eq_false_2. }
      assert (Hi1 : inv (process_request_line p)) by by eapply mstep_inv.
      assert (state (process_request_line p) = Headers \/ state (process_request_line p) = Error)
        as Hst.
      { unfold process_request_line. rewrite El, bool_decide_eq_false_2 by done.
        destruct (parse_request_line _ _) as [[] ?]; simpl; tauto. }
      assert (forall fuel, process (S fuel) p = process fuel (process_request_line p)) as Hproc.
      { intros fuel. simpl. rewrite Hs. destruct Hst as [Hst|Hst]; rewrite Hst.
        - by rewrite bool_decide_eq_true_2.
        - by rewrite bool_decide_eq_false_2. }
      assert (settles 3 (process_request_line p)) as (q & Hq & Hf).
      { destruct Hst as [Hst|Hst]; [by apply settles_headers|].
        apply (settles_mono 1); [|lia]. apply settles_terminal. by intros [_ ?]. }
      exists q. split; [by eapply nf_step|].
      destruct Hf as [[Hh Hf]|[Hh Hf]]; [left|right]; (split; [done|]).
      * intros [|fuel] Hle; [lia|]. rewrite Hproc. apply Hf. lia.
      * intros [|fuel]; [done|]. by rewrite Hproc.
    + left. exists p. split; [apply nf_stuck; unfold mstep; by rewrite Hs, El|].
      left. split; [intros [? _]; congruence|]. intros [|fuel] Hf; [lia|]. simpl.
      rewrite Hs. unfold process_request_line. rewrite El. by rewrite Hs.
  - left. eapply settles_mono; [by apply settles_headers|lia].
  - left. eapply settles_mono; [by apply settles_body|lia].
  - left. eapply settles_mono; [by apply settles_chunked|lia].
  - destruct Ha. done.
  - destruct Ha. done.
Qed.

(** ** More input *)

Lemma inv_with_data d p : inv p -> inv (with_data d p).
Proof. unfold inv. simpl. done. Qed.

Lemma consume_bulk k j d p :
  (k = length (partial p))%nat ->
  consume_partial (k + j) (with_data d p) =
  consume_partial j (with_data d (consume_partial k p)).
Proof.
  intros ->. unfold consume_partial, with_data, set_partial. simpl.
  rewrite drop_all. simpl. rewrite take_app_add', drop_app_add' by done.
  rewrite firstn_all. by rewrite app_assoc.
Qed.

Lemma extract_body_eq p q :
  raw p = raw q -> content_length p = content_length q -> request p = request q ->
  set_state Complete p = set_state Complete q -> extract_body p = extract_body q.
Proof.
  destruct p, q; unfold extract_body, set_state; simpl.
  intros ? ? ? Hs. injection Hs. intros. subst.
  by destruct (find_sub _ _).
Qed.

(** A run of body bytes may be taken in two parts. *)
Lemma process_body_split d p :
  state p = Body -> inv p -> d <> [] ->
  zlen (partial p) < content_length p - body_read p ->
  process_body (with_data d p) = process_body (with_data d (process_body p)).
Proof.
  intros Hs Hi Hd Hlt. assert (Hi' := Hi). unfold inv in Hi'. rewrite Hs in Hi'.
  pose proof (zlen_nonneg (partial p)) as Hz. pose proof (zlen_pos d Hd) as Hzd.
  assert (process_body p = set_body_read (body_read p + zlen (partial p))
            (consume_partial (length (partial p)) p)) as E1.
  { rewrite (process_body_eq p Hs Hi), Z.min_l by lia.
    destruct (Z.leb_spec (content_length p) (body_read p + zlen (partial p))); [lia|].
    by replace (Z.to_nat (zlen (partial p))) with (length (partial p)) by (unfold zlen; lia). }
  assert (Hi1 : inv (process_body p)).
  { rewrite E1. unfold inv. simpl. rewrite Hs. lia. }
  rewrite (process_body_eq (with_data d p) Hs (inv_with_data d p Hi)).
  rewrite (process_body_eq (with_data d (process_body p))); cycle 1.
  { rewrite E1. done. }
  { by apply inv_with_data. }
  rewrite E1. simpl. rewrite drop_all. simpl. rewrite !zlen_app.
  set (k1 := Z.min (zlen (partial p) + zlen d) _).
  set (k2 := Z.min (zlen d) _).
  assert (k1 = zlen (partial p) + k2) as -> by lia.
  rewrite !Z.add_assoc.
  replace (Z.to_nat (zlen (partial p) + k2)) with (length (partial p) + Z.to_nat k2)%nat
    by (unfold zlen in *; lia).
  rewrite (consume_bulk _ (Z.to_nat k2) d p eq_refl). simpl.
  split_if; [|done]. by apply extract_body_eq.
Qed.

Lemma chunk_data_split d p p1 :
  state p = ChunkedBody -> chunk_phase p = Data -> inv p -> d <> [] -> partial p <> [] ->
  zlen (partial p) < current_chunk_size p - current_chunk_read p ->
  mstep p = Some p1 -> state p1 <> Error ->
  mstep (with_data d p) = mstep (with_data d p1).
Proof.
  intros Hs Hp Hi Hd Hne Hlt Hm Hnerr. assert (Hi' := Hi).
  unfold inv in Hi'. rewrite Hs in Hi'. specialize (Hi' Hp).
  pose proof (zlen_nonneg (partial p)) as Hz. pose proof (zlen_pos d Hd) as Hzd.
  assert (Hstep : forall q, state q = ChunkedBody -> chunk_phase q = Data -> inv q ->
    partial q <> [] -> current_chunk_size q - current_chunk_read q <> 0 ->
    mstep q = snd <$> chunk_turn q).
  { intros q Qs Qp Qi Qn Qr. rewrite (mstep_chunked q Qs). unfold chunk_step. rewrite Qp.
    unfold inv in Qi. rewrite Qs in Qi. specialize (Qi Qp).
    rewrite u64_small by (unfold two64 in *; lia).
    destruct (Z.eqb_spec (current_chunk_size q - current_chunk_read q) 0); [done|].
    by rewrite bool_decide_eq_false_2. }
  assert (p1 = set_chunk Data (current_chunk_size p) (current_chunk_read p + zlen (partial p))
            (consume_partial (length (partial p)) p) /\
          zlen (raw p ++ partial p) <= u64 (max_size p)) as [E1 Hraw].
  { rewrite Hstep in Hm by (done || lia). rewrite (chunk_turn_data p Hs Hp Hi) in Hm.
    cbv zeta in Hm. rewrite Z.min_l in Hm by lia.
    replace (Z.to_nat (zlen (partial p))) with (length (partial p)) in Hm by (unfold zlen; lia).
    destruct (Z.eqb_spec (current_chunk_size p - current_chunk_read p) 0); [lia|].
    simpl in Hm. rewrite firstn_all in Hm. split_if; [injection Hm as <-; done|].
    split_if; [lia|]. by injection Hm as <-. }
  assert (Hi1 : inv p1) by by eapply mstep_inv.
  assert (Hs1 : state p1 = ChunkedBody) by by rewrite E1.
  assert (Hp1 : chunk_phase p1 = Data) by by rewrite E1.
  rewrite (Hstep (with_data d p) Hs Hp (inv_with_data d p Hi)); cycle 1.
  { simpl. intros E. by apply app_nil in E as [_ ?]. }
  { simpl. lia. }
  rewrite (Hstep (with_data d p1) Hs1 Hp1 (inv_with_data d p1 Hi1)); cycle 1.
  { simpl. intros E. by apply app_nil in E as [_ ?]. }
  { rewrite E1. simpl. lia. }
  rewrite (chunk_turn_data (with_data d p) Hs Hp (inv_with_data d p Hi)).
  rewrite (chunk_turn_data (with_data d p1) Hs1 Hp1 (inv_with_data d p1 Hi1)).
  cbv zeta. rewrite E1. simpl. rewrite drop_all. simpl. rewrite !zlen_app.
  set (k1 := Z.min (zlen (partial p) + zlen d) _).
  set (k2 := Z.min (zlen d) _).
  assert (k1 = zlen (partial p) + k2) as -> by lia.
  rewrite !Z.add_assoc.
  replace (Z.to_nat (zlen (partial p) + k2)) with (length (partial p) + Z.to_nat k2)%nat
    by (unfold zlen in *; lia).
  rewrite (consume_bulk _ (Z.to_nat k2) d p eq_refl).
  rewrite take_app_add', !zlen_app by done. rewrite firstn_all.
  destruct (Z.eqb_spec (current_chunk_size p - current_chunk_read p) 0); [lia|].
  destruct (Z.eqb_spec (current_chunk_size p - (current_chunk_read p + zlen (partial p))) 0); [lia|].
  rewrite !Z.add_assoc. split_if; [done|].
  replace (current_chunk_size p - current_chunk_read p <=? zlen (partial p) + k2)
    with (current_chunk_size p - (current_chunk_read p + zlen (partial p)) <=? k2); [done|].
  apply eq_true_iff_eq. rewrite !Z.leb_le. lia.
Qed.

(** A step taken before more input arrives leads to the same end as the same
    input available at once. *)
Lemma step_commutes d p p' :
  mstep p = Some p' -> state p <> Body -> (state p = ChunkedBody -> chunk_phase p <> Data) ->
  mstep (with_data d p) = Some (with_data d p').
Proof.
  unfold mstep. simpl. destruct (state p) eqn:Hs; try done; intros Hm Hnb Hnd.
  - destruct (extract_line (partial p)) as [line|] eqn:El; [|done].
    apply extract_line_length in El as Hl. rewrite (extract_line_with_data _ d _ El).
    split_if.
    + injection Hm as <-. unfold consume_line. rewrite consume_with_data by done.
      by rewrite check_with_data.
    + injection Hm as <-. unfold process_request_line. simpl.
      rewrite El, (extract_line_with_data _ d _ El), bool_decide_eq_false_2 by done.
      destruct (parse_request_line line (request p)) as [[] req]; simpl; [|done].
      unfold consume_line. f_equal. unfold set_state, consume_partial, with_data, set_partial. simpl.
      by rewrite take_app_le, drop_app_le.
  - destruct (Nat.ltb_spec (length (partial p)) 2); [done|].
    destruct (Nat.ltb_spec (length (partial p ++ d)) 2); [rewrite length_app in *; lia|].
    rewrite starts_crlf_app by done. split_if.
    + injection Hm as <-. rewrite consume_with_data by done. by rewrite finalize_with_data.
    + destruct (extract_line (partial p)) as [line|] eqn:El; [|done]. injection Hm as <-.
      apply extract_line_length in El as Hl. rewrite (extract_line_with_data _ d _ El).
      f_equal. by apply (consume_with_data _ d (set_request _ p)).
  - unfold chunk_step in *. simpl. destruct (chunk_phase p) eqn:Hp.
    + destruct (extract_line (partial p)) as [line|] eqn:El; [|done].
      apply extract_line_length in El as Hl.
      apply (extract_line_with_data _ d) in El as El'. rewrite El'.
      rewrite (chunk_turn_size p line Hp El) in Hm.
      rewrite (chunk_turn_size (with_data d p) line Hp El'). cbv zeta in *. simpl.
      rewrite take_app_le by done.
      destruct (parse_hex _) as [sz|]; [|by injection Hm as <-].
      rewrite !consume_with_data by done. simpl in Hm.
      repeat split_if; injection Hm as <-; done.
    + by destruct Hnd.
    + destruct (Nat.ltb_spec (length (partial p)) 2); [done|].
      destruct (Nat.ltb_spec (length (partial p ++ d)) 2); [rewrite length_app in *; lia|].
      rewrite starts_crlf_app by done. split_if.
      * injection Hm as <-. by rewrite consume_with_data.
      * destruct (extract_line (partial p)) as [line|] eqn:El; [|done]. injection Hm as <-.
        apply extract_line_length in El as Hl. rewrite (extract_line_with_data _ d _ El).
        f_equal. by apply consume_with_data.
    + by injection Hm as <-.
Qed.

Lemma body_step_shift d p p' q :
  state p = Body -> inv p -> mstep p = Some p' ->
  nf (with_data d p) q <-> nf (with_data d p') q.
Proof.
  intros Hs Hi Hm. destruct (decide (d = [])) as [->|Hd].
  { rewrite !with_data_nil. apply nf_through, rtc_once. done. }
  assert (Hne : partial p <> []).
  { unfold mstep in Hm. rewrite Hs in Hm. by split_if. }
  assert (p' = process_body p) as ->.
  { unfold mstep in Hm. rewrite Hs, bool_decide_eq_false_2 in Hm by done. by injection Hm. }
  assert (Hstep : forall r, state r = Body -> mstep (with_data d r) = Some (process_body (with_data d r))).
  { intros r Hr. unfold mstep. simpl. rewrite Hr, bool_decide_eq_false_2; [done|].
    intros E. by apply app_nil in E as [_ ?]. }
  destruct (Z.lt_ge_cases (zlen (partial p)) (content_length p - body_read p)) as [Hlt|Hge].
  - assert (state (process_body p) = Body) as Hs'.
    { rewrite (process_body_eq p Hs Hi), Z.min_l by lia. split_if; [lia|done]. }
    rewrite (nf_through (with_data d p)) by (apply rtc_once; by apply Hstep).
    rewrite (nf_through (with_data d (process_body p))) by (apply rtc_once; by apply Hstep).
    by rewrite process_body_split.
  - apply nf_through, rtc_once. unfold R. rewrite Hstep by done. f_equal.
    rewrite (process_body_eq (with_data d p) Hs (inv_with_data d p Hi)).
    rewrite (process_body_eq p Hs Hi). simpl. rewrite zlen_app.
    pose proof (zlen_nonneg d). rewrite !Z.min_r by lia.
    unfold inv in Hi. rewrite Hs in Hi.
    split_if; [|lia]. rewrite <- extract_body_with_data. f_equal.
    rewrite consume_with_data; [done|]. unfold zlen in *. lia.
Qed.

Lemma data_step_shift d p p' q :
  state p = ChunkedBody -> chunk_phase p = Data -> inv p -> mstep p = Some p' ->
  state p' <> Error ->
  nf (with_data d p) q <-> nf (with_data d p') q.
Proof.
  intros Hs Hp Hi Hm Hne'. destruct (decide (d = [])) as [->|Hd].
  { rewrite !with_data_nil. apply nf_through, rtc_once. done. }
  assert (Hi' := Hi). unfold inv in Hi'. rewrite Hs in Hi'. specialize (Hi' Hp).
  assert (Hm' := Hm). rewrite (mstep_chunked p Hs) in Hm'. unfold chunk_step in Hm'. rewrite Hp in Hm'.
  rewrite u64_small in Hm' by (unfold two64 in *; lia).
  pose proof (mstep_chunked (with_data d p) Hs) as Hw. unfold chunk_step in Hw. simpl in Hw.
  rewrite Hp, u64_small in Hw by (unfold two64 in *; lia).
  rewrite (chunk_turn_data (with_data d p) Hs Hp (inv_with_data d p Hi)) in Hw.
  rewrite (chunk_turn_data p Hs Hp Hi) in Hm'. cbv zeta in *. simpl in Hw.
  destruct (Z.eqb_spec (current_chunk_size p - current_chunk_read p) 0) as [E|E].
  - destruct (Nat.ltb_spec (length (partial p)) 2); [done|].
    rewrite starts_crlf_app in Hw by done.
    destruct (Nat.ltb_spec (length (partial p ++ d)) 2); [rewrite length_app in *; lia|].
    apply nf_through, rtc_once. unfold R. rewrite Hw.
    split_if; simpl in *; [by injection Hm' as <-|].
    injection Hm' as <-. by rewrite consume_with_data.
  - destruct (bool_decide (partial p = [])) eqn:Hn; breflect; [done|].
    rewrite bool_decide_eq_false_2 in Hw by (intros F; by apply app_nil in F as [_ ?]).
    destruct (Z.lt_ge_cases (zlen (partial p)) (current_chunk_size p - current_chunk_read p))
      as [Hlt|Hge].
    + pose proof (chunk_data_split d p p' Hs Hp Hi Hd Hn Hlt Hm Hne') as Heq.
      destruct (mstep (with_data d p)) as [z|] eqn:Hz.
      * rewrite (nf_through (with_data d p) z) by (by apply rtc_once).
        by rewrite (nf_through (with_data d p') z) by (by apply rtc_once).
      * by repeat split_if.
    + apply nf_through, rtc_once. unfold R. rewrite Hw. rewrite (zlen_app (partial p) d).
      pose proof (zlen_nonneg d). rewrite !Z.min_r in * by lia.
      assert (Z.to_nat (current_chunk_size p - current_chunk_read p) <= length (partial p))%nat
        by (unfold zlen in *; lia).
      rewrite take_app_le by done. rewrite consume_with_data by done. simpl in Hm'.
      split_if; [by injection Hm' as <-|]. split_if; [|lia]. by injection Hm' as <-.
Qed.

Lemma step_shift d p p' q :
  inv p -> mstep p = Some p' -> state p' <> Error ->
  nf (with_data d p) q <-> nf (with_data d p') q.
Proof.
  intros Hi Hm He. destruct (decide (state p = Body)) as [Hb|Hb]; [by apply body_step_shift|].
  destruct (decide (state p = ChunkedBody /\ chunk_phase p = Data)) as [[Hc Hp]|Hc];
    [by apply data_step_shift|].
  apply nf_through, rtc_once. apply step_commutes; [done|done|naive_solver].
Qed.

Lemma steps_shift d p p' q :
  rtc R p p' -> inv p -> state p' <> Error ->
  nf (with_data d p) q <-> nf (with_data d p') q.
Proof.
  induction 1 as [|p p1 p' Hs Hr IH]; [done|]. intros Hi He.
  assert (state p1 <> Error) as He1.
  { intros E. assert (p' = p1) as -> by (apply stuck_rtc; [unfold mstep; by rewrite E|done]).
    done. }
  rewrite (step_shift d p p1) by done. apply IH; [by eapply mstep_inv|done].
Qed.

(** ** Feeding the parser *)

(** The loop of [Connection::try_parse_message] (the usage documented in
    parser.h): parse what has been read, then go on with what is pending until
    the message is complete, an error is found or nothing advances. *)
Fixpoint feed (rounds fuel : nat) (read_buf : bytes) (p : t) : option t :=
  match rounds with
  | O => None
  | S rounds' =>
      if negb (bool_decide (read_buf = [])) || (0 <? pending_size p) then
        '(consumed, p) ← parse fuel read_buf p;
        let read_buf := drop (Z.to_nat consumed) read_buf in
        if has_error p then Some p
        else if complete p then Some p
        else if consumed =? 0 then Some p
        else feed rounds' fuel read_buf p
      else Some p
  end.

(** The parser between two calls. *)
Definition ready (p : t) : Prop :=
  inv p /\ active p /\ zlen (raw p) <= u64 (max_size p) /\
  (state p = ChunkedBody -> chunk_phase p <> End_).

Lemma ready_empty p : ready p -> partial p = [] -> mstep p = None.
Proof.
  intros (Hi & Ha & _ & He) Hp. unfold mstep, chunk_step. rewrite Hp.
  destruct (state p) eqn:Hs; try done. specialize (He eq_refl).
  destruct (chunk_phase p); try done. simpl. by split_if.
Qed.

Lemma check_ok p : zlen (raw p) <= u64 (max_size p) -> check_size_limit p = (true, p).
Proof. intros H. destruct (check_cases p) as [[-> _]|[_ ?]]; [done|lia]. Qed.

Lemma checked_ready q :
  inv q -> mstep q = None -> active (check_size_limit q).2 ->
  (check_size_limit q).2 = q /\ ready q.
Proof.
  intros Hi Hm Ha. destruct (check_cases q) as [[E Hr]|[E Hr]]; rewrite E in *; simpl in *.
  - split; [done|]. repeat split; try done; [apply Ha|apply Ha|].
    intros Hs Hp. unfold mstep, chunk_step in Hm. by rewrite Hs, Hp in Hm.
  - by destruct Ha.
Qed.

Lemma parse_active fuel d p :
  active p ->
  parse fuel d p =
  p1 ← process fuel (with_data d p);
  let '(ok, p2) := check_size_limit p1 in
  Some (if negb ok then 0 else if 0 <? zlen d then zlen d
        else u64 (zlen (raw p1) - zlen (raw p)), p2).
Proof.
  intros [H1 H2]. unfold parse. rewrite !bool_decide_eq_false_2 by done. simpl.
  unfold with_data. destruct (process _ _) as [p1|]; [|done]. simpl.
  destruct (check_cases p1) as [[-> _]|[-> _]]; simpl; [|done]. by split_if.
Qed.

(** What a round of [feed] does. *)
Lemma feed_unfold rounds fuel d p :
  feed (S rounds) fuel d p =
  if negb (bool_decide (d = [])) || (0 <? pending_size p) then
    '(consumed, p1) ← parse fuel d p;
    if bool_decide (active p1) && negb (consumed =? 0)
    then feed rounds fuel (drop (Z.to_nat consumed) d) p1 else Some p1
  else Some p.
Proof.
  simpl. split_if; [|done]. destruct (parse fuel d p) as [[n p1]|]; [|done]. simpl.
  unfold has_error, complete, active.
  destruct (decide (state p1 = Error)) as [E|E];
    [by rewrite (bool_decide_eq_true_2 _ E), (bool_decide_eq_false_2 (_ /\ _)) by tauto|].
  rewrite (bool_decide_eq_false_2 _ E).
  destruct (decide (state p1 = Complete)) as [F|F];
    [by rewrite (bool_decide_eq_true_2 _ F), (bool_decide_eq_false_2 (_ /\ _)) by tauto|].
  rewrite (bool_decide_eq_false_2 _ F), (bool_decide_eq_true_2 (_ /\ _)) by tauto.
  simpl. by destruct (n =? 0).
Qed.

Lemma pending_pos p : partial p <> [] -> (0 <? pending_size p) = true.
Proof. intros H. apply Z.ltb_lt. by apply zlen_pos. Qed.

(** Nothing more to do: a round without input changes nothing. *)
Lemma feed_stuck rounds fuel q :
  ready q -> mstep q = None -> ~ hung q -> (4 <= fuel)%nat ->
  feed (S rounds) fuel [] q = Some q.
Proof.
  intros Hq Hm Hh Hf. destruct Hq as (Hi & Ha & Hr & He).
  rewrite feed_unfold. simpl. destruct (Z.ltb_spec 0 (pending_size q)); [|done].
  rewrite parse_active by done. rewrite with_data_nil.
  destruct (process_settles q Hi Ha) as [(q' & Hn & Hq')|(Hs & El & _)].
  - assert (q' = q) as -> by (apply (nf_unique q); [done|by apply nf_stuck]).
    destruct Hq' as [[_ Hp]|[? _]]; [|done]. rewrite Hp by done. simpl.
    rewrite check_ok by done. simpl. rewrite Z.sub_diag. simpl.
    by rewrite andb_false_r.
  - unfold mstep in Hm. by rewrite Hs, El in Hm.
Qed.

(** The consumed count of a round that paused after a blank line. *)
Lemma paused_count d p :
  ready p -> extract_line (partial (with_data d p)) = Some [] ->
  zlen (raw (consume_line [] (with_data d p))) <= u64 (max_size p) ->
  u64 (zlen (raw (consume_line [] (with_data d p))) - zlen (raw p)) = 2.
Proof.
  intros Hp El Hr. apply extract_line_length in El. simpl in *.
  rewrite zlen_app in *. replace (zlen (take 2 (partial p ++ d))) with 2 in *.
  - rewrite u64_small; unfold two64; lia.
  - unfold zlen. rewrite length_take. lia.
Qed.

Definition feeds_to (n : nat) (d : bytes) (p q : t) : Prop :=
  (hung q /\ forall rounds fuel, feed rounds fuel d p = None) \/
  (~ hung q /\ forall rounds fuel, (n <= rounds)%nat -> (4 <= fuel)%nat ->
     feed rounds fuel d p = Some (check_size_limit q).2).

Lemma feed_settled n d p q :
  ready p -> (d <> [] \/ partial p <> []) -> nf (with_data d p) q -> (2 <= n)%nat ->
  (~ hung q /\ (forall fuel, (4 <= fuel)%nat -> process fuel (with_data d p) = Some q)) \/
  (hung q /\ (forall fuel, process fuel (with_data d p) = None)) ->
  feeds_to n d p q.
Proof.
  intros Hp Hne [Hr Hm] Hn Hq. assert (Hp' := Hp). destruct Hp' as (Hi & Ha & _).
  assert (Hi' : inv q) by (eapply R_inv; [done|by apply inv_with_data]).
  assert (Hgo : negb (bool_decide (d = [])) || (0 <? pending_size p) = true).
  { destruct Hne; [by rewrite bool_decide_eq_false_2|by rewrite pending_pos, orb_true_r]. }
  destruct Hq as [[Hh Hq]|[Hh Hq]].
  2: { left. split; [done|]. intros [|rounds] fuel; [done|].
       rewrite feed_unfold, Hgo, parse_active by done. by rewrite Hq. }
  right. split; [done|]. intros [|[|rounds]] fuel Hro Hf; try lia.
  rewrite feed_unfold, Hgo, parse_active by done. rewrite Hq by done. simpl.
  destruct (decide (active (check_size_limit q).2)) as [Hact|Hact].
  - destruct (checked_ready q Hi' Hm Hact) as [E Hrq].
    assert (check_size_limit q = (true, q)) as Ec by (apply check_ok; apply Hrq).
    rewrite Ec in *. simpl. rewrite bool_decide_eq_true_2 by done.
    split_if; [|done].
    assert (drop (Z.to_nat (if 0 <? zlen d then zlen d else u64 (zlen (raw q) - zlen (raw p)))) d
            = []) as Ed.
    { destruct (Z.ltb_spec 0 (zlen d)) as [|Hz].
      - apply drop_ge. unfold zlen. lia.
      - rewrite (zlen_0 d) by (pose proof (zlen_nonneg d); lia). apply drop_nil. }
    simpl in Ed |- *. rewrite Ed. by apply feed_stuck.
  - destruct (check_size_limit q) as [ok q2] eqn:Ec. simpl in *.
    by rewrite bool_decide_eq_false_2.
Qed.

Lemma feed_spec_aux n : forall d p,
  ready p -> (length (partial p) + length d <= n)%nat ->
  exists q, nf (with_data d p) q /\ feeds_to (n + 2) d p q.
Proof.
  induction n as [n IH] using lt_wf_ind. intros d p Hp Hl.
  assert (Hp' := Hp). destruct Hp' as (Hi & Ha & Hr & He).
  destruct (decide (d = [] /\ partial p = [])) as [[-> Hpe]|Hne].
  { exists p. rewrite with_data_nil. pose proof (ready_empty p Hp Hpe) as Hm.
    split; [by apply nf_stuck|]. right. split; [by intros [_ ?]|].
    intros rounds fuel Hro Hf. rewrite check_ok by done.
    destruct rounds as [|rounds]; [lia|]. apply feed_stuck; try done. by intros [_ ?]. }
  assert (d <> [] \/ partial p <> []) as Hne'.
  { destruct (decide (d = [])); [right|by left]. naive_solver. }
  destruct (process_settles (with_data d p) (inv_with_data d p Hi) Ha)
    as [(q & Hq & Hs)|(Hs & El & Hproc)].
  { exists q. split; [done|]. apply feed_settled; try done. lia. }
  set (p1 := consume_line [] (with_data d p)) in *.
  assert (Hm : mstep (with_data d p) = Some (check_size_limit p1).2).
  { unfold mstep. rewrite Hs, El. done. }
  assert (Hmax : max_size p1 = max_size p) by done.
  assert (Hgo : negb (bool_decide (d = [])) || (0 <? pending_size p) = true).
  { destruct Hne'; [by rewrite bool_decide_eq_false_2|by rewrite pending_pos, orb_true_r]. }
  destruct (check_cases p1) as [[Ec Hr1]|[Ec Hr1]].
  - rewrite Ec in Hm. simpl in Hm.
    assert (Hp1 : ready p1).
    { split; [eapply mstep_inv; [by apply inv_with_data|done]|]. split; [done|].
      split; [done|]. simpl in *. by rewrite Hs. }
    assert (Hlen : (length (partial p1) + 2 = length (partial p) + length d)%nat).
    { apply extract_line_length in El. simpl in *.
      rewrite length_drop. rewrite length_app in *. lia. }
    destruct (IH (length (partial p1)) ltac:(lia) [] p1 Hp1 ltac:(simpl; lia)) as (q & Hq & Hf).
    rewrite with_data_nil in Hq. exists q. split; [by eapply nf_step|].
    assert (Hround : forall rounds fuel, (1 <= fuel)%nat ->
      feed (S rounds) fuel d p = feed rounds fuel [] p1).
    { intros rounds fuel Hfu. rewrite feed_unfold, Hgo, parse_active by done.
      rewrite Hproc by done. cbn [mbind option_bind]. rewrite Ec. cbn [negb mbind option_bind].
      rewrite bool_decide_eq_true_2 by apply Hp1.
      assert (u64 (zlen (raw p1) - zlen (raw p)) = 2) as -> by by apply paused_count.
      destruct (Z.ltb_spec 0 (zlen d)) as [Hz|Hz].
      - destruct (Z.eqb_spec (zlen d) 0); [lia|]. simpl.
        rewrite drop_ge by (unfold zlen; lia). done.
      - simpl. rewrite (zlen_0 d) by (pose proof (zlen_nonneg d); lia). done. }
    destruct Hf as [[Hh Hf]|[Hh Hf]]; [left|right]; (split; [done|]).
    + intros [|rounds] [|fuel]; try done.
      * rewrite feed_unfold, Hgo, parse_active by done. done.
      * rewrite Hround by lia. apply Hf.
    + intros [|rounds] fuel Hro Hfu; [lia|]. rewrite Hround by lia. apply Hf; lia.
  - rewrite Ec in Hm. simpl in Hm. exists (set_state Error p1).
    split; [eapply nf_step; [done|]; by apply nf_stuck|].
    right. split; [by intros [? _]|]. intros [|rounds] fuel Hro Hfu; [lia|].
    rewrite feed_unfold, Hgo, parse_active by done. rewrite Hproc by lia.
    cbn [mbind option_bind]. rewrite Ec. cbn [negb mbind option_bind].
    rewrite bool_decide_eq_false_2 by (by intros [_ ?]). cbn [andb]. f_equal.
    by destruct (check_cases (set_state Error p1)) as [[-> _]|[-> _]].
Qed.

Lemma feed_spec d p :
  ready p ->
  exists q, nf (with_data d p) q /\
    feeds_to (length (partial p) + length d + 2) d p q.
Proof. intros Hp. by apply feed_spec_aux. Qed.
End HttpParserSpec.
