(* ===== verification/HttpParserProps.v ===== *)
(** * HttpParserProps: the properties of the incremental HTTP parser

    Consequences of the step semantics of HttpParserSpec: the parser neither
    loses nor invents bytes, keeps accepted messages below the size limit, and
    either returns after four turns of its dispatch loop or, on an incomplete chunk
    delimiter, never returns; when all reads of a stream return, the result is that of
    one read of the whole. *)

From S2P Require Import Prelude Utils StdMap Http HttpParser HttpParserSpec.

Module HttpParserProps.
Import Http HttpParser HttpParserSpec.
Open Scope Z_scope.

(** Enough rounds of the calling loop: every round but the last two consumes a
    blank line of the buffered bytes. *)
Definition rounds_for (d : bytes) (p : t) : nat := length (partial p) + length d + 2.

Lemma feed_result d p rounds fuel p1 :
  ready p -> (4 <= fuel)%nat -> (rounds_for d p <= rounds)%nat ->
  feed rounds fuel d p = Some p1 ->
  exists q, nf (with_data d p) q /\ ~ hung q /\ p1 = (check_size_limit q).2 /\ inv q /\
    (state p1 <> Error -> p1 = q /\ zlen (raw q) <= u64 (max_size q)).
Proof.
  intros Hp Hf Hr He. destruct (feed_spec d p Hp) as (q & Hq & [[_ H]|[Hh H]]).
  - by rewrite H in He.
  - rewrite (H rounds fuel Hr Hf) in He. injection He as <-. exists q.
    split; [done|]. split; [done|]. split; [done|].
    split; [destruct Hq; eapply R_inv; [done|apply inv_with_data, Hp]|].
    destruct (check_cases q) as [[-> Hs]|[-> _]]; [done|]. by intros [].
Qed.

Lemma feed_two_reads (d1 d2 : bytes) (p p1 : t) (rounds fuel : nat) :
  ready p -> (4 <= fuel)%nat -> (rounds_for (d1 ++ d2) p <= rounds)%nat ->
  feed rounds fuel d1 p = Some p1 -> state p1 <> Error ->
  feed rounds fuel (d1 ++ d2) p =
  if complete p1 then Some (with_data d2 p1) else feed rounds fuel d2 p1.
Proof.
  intros Hp Hf Hr H1 He. unfold rounds_for in Hr. rewrite length_app in Hr.
  destruct (feed_result d1 p rounds fuel p1) as (q & [Hq Hm] & Hh & _ & Hi & Hok);
    [done|done|unfold rounds_for; lia|done|].
  destruct (Hok He) as [-> Hsz]. clear Hok.
  destruct (R_moves _ _ Hq (inv_with_data d1 p (proj1 Hp))) as (_ & _ & Hl).
  simpl in Hl. rewrite length_app in Hl.
  destruct (feed_spec (d1 ++ d2) p Hp) as (r & Hnr & Hfr).
  rewrite <- with_data_app in Hnr.
  rewrite (steps_shift d2 _ q r Hq (inv_with_data d1 p (proj1 Hp)) He) in Hnr.
  unfold complete. split_if.
  - assert (mstep (with_data d2 q) = None) as Hs by (unfold mstep; simpl; by rewrite Heqb).
    assert (r = with_data d2 q) as -> by (apply (nf_unique (with_data d2 q)); [done|by apply nf_stuck]).
    destruct Hfr as [[[Hc _] _]|[_ Hfr]]; [simpl in Hc; congruence|].
    rewrite Hfr by (rewrite ?length_app; lia). by rewrite check_with_data, check_ok.
  - assert (Hrq : ready q).
    { destruct (checked_ready q Hi Hm) as [_ ?]; [|done]. by rewrite check_ok. }
    destruct (feed_spec d2 q Hrq) as (r' & Hnr' & Hfr').
    assert (r' = r) as -> by by eapply nf_unique.
    destruct Hfr as [[Hr1 Hfr]|[Hr1 Hfr]], Hfr' as [[Hr2 Hfr']|[Hr2 Hfr']]; try done.
    + by rewrite Hfr, Hfr'.
    + rewrite Hfr, Hfr' by (rewrite ?length_app; lia). done.
Qed.

(** More input does not undo an error. *)
Lemma error_step d p p' :
  inv p -> mstep p = Some p' -> state p' = Error -> exists r, mstep (with_data d p) = Some r /\ state r = Error.
Proof.
  intros Hi Hm He. destruct (decide (state p = Body)) as [Hb|Hb].
  { exfalso. unfold mstep in Hm. rewrite Hb in Hm. split_if; [done|]. injection Hm as <-.
    rewrite (process_body_eq p Hb Hi) in He. cbv zeta in He. revert He. split_if; [|simpl; congruence].
    unfold extract_body. by destruct (find_sub _ _). }
  destruct (decide (state p = ChunkedBody /\ chunk_phase p = Data)) as [[Hc Hp]|Hc].
  - assert (Hi' := Hi). unfold inv in Hi'. rewrite Hc in Hi'. specialize (Hi' Hp).
    rewrite (mstep_chunked p Hc) in Hm. unfold chunk_step in Hm. rewrite Hp, u64_small in Hm by (unfold two64 in *; lia).
    rewrite (chunk_turn_data p Hc Hp Hi) in Hm.
    pose proof (mstep_chunked (with_data d p) Hc) as Hw. unfold chunk_step in Hw. simpl in Hw.
    rewrite Hp, u64_small in Hw by (unfold two64 in *; lia).
    rewrite (chunk_turn_data (with_data d p) Hc Hp (inv_with_data d p Hi)) in Hw. cbv zeta in *. simpl in Hw. rewrite Hw.
    destruct (Z.eqb_spec (current_chunk_size p - current_chunk_read p) 0) as [E|E].
    + destruct (Nat.ltb_spec (length (partial p)) 2); [done|].
      rewrite starts_crlf_app by done. destruct (Nat.ltb_spec (length (partial p ++ d)) 2); [rewrite length_app in *; lia|].
      destruct (starts_crlf (partial p)); injection Hm as <-; [by simpl in He; congruence|]. by eexists.
    + destruct (bool_decide (partial p = [])) eqn:Hn; [done|]. apply bool_decide_eq_false in Hn.
      rewrite bool_decide_eq_false_2 by (intros F; by apply app_nil in F as [? _]).
      destruct (Z.ltb_spec (u64 (max_size p)) (zlen (raw p ++ take (Z.to_nat (Z.min (zlen (partial p))
        (current_chunk_size p - current_chunk_read p))) (partial p)))) as [Hs|Hs]; simpl in Hm.
      * assert (Hs' : u64 (max_size p) < zlen (raw p ++ take (Z.to_nat (Z.min (zlen (partial p ++ d))
          (current_chunk_size p - current_chunk_read p))) (partial p ++ d))).
        { unfold zlen in *. rewrite !length_app, !length_take, ?length_app in *. lia. }
        apply Z.ltb_lt in Hs'. rewrite Hs'. by eexists.
      * apply Z.ltb_ge in Hs. rewrite Hs in Hm. revert Hm. split_if; intros [= <-]; simpl in He; congruence.
  - exists (with_data d p'). split; [|done]. apply step_commutes; [done|done|naive_solver].
Qed.

Lemma error_shift d p q r :
  rtc R p q -> inv p -> state q = Error -> nf (with_data d p) r -> state r = Error.
Proof.
  induction 1 as [p|p p1 q Hs Hr IH]; intros Hi He Hn.
  - assert (r = with_data d p) as ->; [|done]. eapply nf_unique; [done|]. apply nf_stuck. unfold mstep. simpl. by rewrite He.
  - destruct (decide (state p1 = Error)) as [E|E].
    + destruct (error_step d p p1 Hi Hs E) as (r' & Hr' & Er).
      assert (r = r') as ->; [|done]. eapply nf_unique; [done|]. eapply nf_step; [done|]. apply nf_stuck. unfold mstep. by rewrite Er.
    + apply IH; [by eapply mstep_inv|done|]. by apply (step_shift d p p1).
Qed.

(** A read that fails, followed by another. *)
Lemma feed_failed (d1 d2 : bytes) (p p1 : t) (rounds fuel : nat) :
  ready p -> (4 <= fuel)%nat -> (rounds_for (d1 ++ d2) p <= rounds)%nat ->
  feed rounds fuel d1 p = Some p1 -> state p1 = Error ->
  (exists p2, feed rounds fuel (d1 ++ d2) p = Some p2 /\ state p2 = Error) \/
  forall rounds fuel, feed rounds fuel (d1 ++ d2) p = None.
Proof.
  intros Hp Hf Hr H1 He. unfold rounds_for in Hr. rewrite length_app in Hr.
  destruct (feed_spec (d1 ++ d2) p Hp) as (r & Hnr & [[_ Hfr]|[_ Hfr]]); [by right|]. left.
  exists (check_size_limit r).2. split; [apply Hfr; [rewrite length_app; lia|done]|].
  destruct (feed_result d1 p rounds fuel p1) as (q & [Hq Hm] & _ & -> & _ & _); [done|done|unfold rounds_for; lia|done|].
  rewrite <- with_data_app in Hnr. pose proof (inv_with_data d1 p (proj1 Hp)) as Hi.
  destruct (decide (state q = Error)) as [Eq|Eq].
  - pose proof (error_shift d2 _ q r Hq Hi Eq Hnr) as Er. by destruct (check_cases r) as [[-> _]|[-> _]].
  - destruct (check_cases q) as [[E _]|[_ Hs]]; [by rewrite E in He|].
    rewrite (steps_shift d2 _ q r Hq Hi Eq) in Hnr. destruct Hnr as [Hnr _].
    destruct (R_moves _ _ Hnr (inv_with_data d2 q (R_inv _ _ Hq Hi))) as (Hst & Hmx & Hl).
    destruct (check_cases r) as [[_ Hr']|[-> _]]; [|done]. exfalso.
    apply (f_equal length) in Hst. unfold stream in Hst. simpl in Hst, Hmx, Hl.
    rewrite Hmx in Hr'. rewrite !length_app in *. unfold zlen in *. lia.
Qed.

(** A read that has not returned after enough turns never does. *)
Lemma feed_never d p rounds fuel :
  ready p -> (4 <= fuel)%nat -> (rounds_for d p <= rounds)%nat -> feed rounds fuel d p = None ->
  forall rounds fuel, feed rounds fuel d p = None.
Proof. intros Hp Hf Hr H. destruct (feed_spec d p Hp) as (q & _ & [[_ Hd]|[_ Hd]]); [done|]. by rewrite Hd in H. Qed.

(** After a read that neither completes nor fails the parser is ready for the next one. *)
Lemma feed_next (d1 d2 : bytes) (p p1 : t) (rounds fuel : nat) :
  ready p -> (4 <= fuel)%nat -> (rounds_for (d1 ++ d2) p <= rounds)%nat ->
  feed rounds fuel d1 p = Some p1 -> state p1 <> Error -> state p1 <> Complete ->
  ready p1 /\ (rounds_for d2 p1 <= rounds)%nat.
Proof.
  intros Hp Hf Hr H1 He Hc. unfold rounds_for in *. rewrite length_app in Hr.
  destruct (feed_result d1 p rounds fuel p1) as (q & [Hq Hm] & _ & Eq & Hi & Hok); [done|done|unfold rounds_for; lia|done|].
  rewrite Eq in He, Hc. destruct (checked_ready q Hi Hm) as [E Hrd]; [done|]. rewrite E in Eq. subst p1. split; [done|].
  destruct (R_moves _ _ Hq (inv_with_data d1 p (proj1 Hp))) as (_ & _ & Hl). simpl in Hl. rewrite length_app in Hl. lia.
Qed.

(** A stream that arrives in several reads: each is fed until the message is complete, the
    rest then waits behind it, or an error is found. *)
Fixpoint reads (rounds fuel : nat) (ds : list bytes) (p : t) : option t :=
  match ds with
  | [] => Some p
  | d :: ds' =>
      p1 ← feed rounds fuel d p;
      match state p1 with
      | Complete => Some (with_data (concat ds') p1)
      | Error => Some p1
      | _ => reads rounds fuel ds' p1
      end
  end.

(** A read that stops inside a chunk-size line, a chunk terminator or a trailer. *)
Definition stops_in_delimiter (d : bytes) (p : t) : Prop :=
  exists q, nf (with_data d p) q /\ state q = ChunkedBody /\ partial q <> [].

(** C1. Segmentation of the stream, for any list of reads.  When all reads return, the parser
    ends exactly as if it had been fed the whole stream in one read, with what follows a
    complete message left behind it as pipelined input; if a read finds an error, the
    stream in one read ends in an error too, or does not return.  The only other case is a
    read that does not return whatever the number of turns: it stops inside a chunk-size
    line, a chunk terminator or a trailer. *)
Theorem feed_segmentation (d : bytes) (ds : list bytes) (p : t) (rounds fuel : nat) :
  ready p -> (4 <= fuel)%nat -> (rounds_for (concat (d :: ds)) p <= rounds)%nat ->
  match reads rounds fuel (d :: ds) p with
  | Some p1 =>
      if bool_decide (state p1 = Error)
      then (exists p2, feed rounds fuel (concat (d :: ds)) p = Some p2 /\ state p2 = Error) \/
           forall rounds fuel, feed rounds fuel (concat (d :: ds)) p = None
      else feed rounds fuel (concat (d :: ds)) p = Some p1
  | None =>
      exists ds1 d' ds2 p1, d :: ds = ds1 ++ d' :: ds2 /\ reads rounds fuel ds1 p = Some p1 /\
        ready p1 /\ stops_in_delimiter d' p1 /\ forall rounds fuel, feed rounds fuel d' p1 = None
  end.
Proof.
  revert d p. induction ds as [|d2 ds IH]; intros d p Hp Hf Hr.
  all: destruct (feed_spec d p Hp) as (q & Hq & [[[Hs Hn] Hd]|[Hh Hd]]);
    [cbn [reads]; rewrite Hd; eexists [], d, _, p; split_and!; try done; by exists q|].
  all: destruct (feed rounds fuel d p) as [p1|] eqn:E1;
    [|unfold rounds_for in Hr; cbn [concat] in Hr; rewrite !length_app in Hr; by rewrite Hd in E1 by lia].
  - cbn [reads concat]. rewrite app_nil_r, E1. cbn [mbind option_bind]. rewrite with_data_nil.
    destruct (state p1) eqn:Es; cbn [reads]; rewrite Es; case_bool_decide; try done. left. by exists p1.
  - change (concat (d :: d2 :: ds)) with (d ++ concat (d2 :: ds)) in *.
    change (reads rounds fuel (d :: d2 :: ds) p) with (p1 ← feed rounds fuel d p;
      match state p1 with
      | Complete => Some (with_data (concat (d2 :: ds)) p1)
      | Error => Some p1
      | _ => reads rounds fuel (d2 :: ds) p1
      end).
    rewrite E1. cbn [mbind option_bind]. destruct (decide (state p1 = Error)) as [Ee|Ee].
    { rewrite Ee, bool_decide_eq_true_2 by done. by apply (feed_failed d _ p p1). }
    pose proof (feed_two_reads d (concat (d2 :: ds)) p p1 rounds fuel Hp Hf Hr E1 Ee) as H2. unfold complete in H2.
    destruct (decide (state p1 = Complete)) as [Ec|Ec].
    { rewrite Ec in *. rewrite bool_decide_eq_true_2 in H2 by done. rewrite bool_decide_eq_false_2; [done|].
      simpl. by rewrite Ec. }
    rewrite bool_decide_eq_false_2 in H2 by done. rewrite H2.
    destruct (feed_next d (concat (d2 :: ds)) p p1 rounds fuel Hp Hf Hr E1 Ee Ec) as [Hrd Hb].
    specialize (IH d2 p1 Hrd Hf Hb).
    assert (E : reads rounds fuel (d2 :: ds) p1 = match state p1 with
      | Complete => Some (with_data (concat (d2 :: ds)) p1) | Error => Some p1 | _ => reads rounds fuel (d2 :: ds) p1 end)
      by (by destruct (state p1)).
    rewrite <- E. destruct (reads rounds fuel (d2 :: ds) p1) as [p2|].
    { case_bool_decide; [|done]. destruct IH as [IH|IH]; [by left|right].
      apply (feed_never (d ++ concat (d2 :: ds)) p rounds fuel); [done..|]. by rewrite H2. }
    destruct IH as (ds1 & d' & ds2 & p2 & E2 & Hrs & Hrest). exists (d :: ds1), d', ds2, p2.
    split; [by rewrite E2|]. split; [|done]. cbn [reads]. rewrite E1. cbn [mbind option_bind]. by destruct (state p1).
Qed.

Definition sample_head : bytes :=
  lit "POST /a HTTP/1.1" ++ CRLF ++ lit "Content-Length: 3" ++ CRLF ++ CRLF.

Lemma create_ready : ready create.
Proof. repeat split; try done. Qed.

(** C1 applied to a POST request cut twice in its body, with a pipelined request behind it,
    and to a chunked one whose second read stops inside a chunk-size line. *)
Lemma feed_segmentation_witness :
  (exists p1, feed 100 4 (sample_head ++ lit "abcGET") create = Some p1 /\ state p1 = Complete /\ partial p1 = lit "GET") /\
  exists ds1 d' ds2 p1, [lit "POST /a HTTP/1.1" ++ CRLF; lit "Transfer-Encoding: chunked" ++ CRLFCRLF ++ lit "5"; CRLF] =
    ds1 ++ d' :: ds2 /\ stops_in_delimiter d' p1 /\ forall rounds fuel, feed rounds fuel d' p1 = None.
Proof.
  split.
  - pose proof (feed_segmentation (sample_head ++ lit "a") [lit "b"; lit "cGET"] create 100 4 create_ready
      ltac:(lia) ltac:(vm_compute; lia)) as H.
    destruct (reads 100 4 [sample_head ++ lit "a"; lit "b"; lit "cGET"] create) as [p1|] eqn:E; [|vm_compute in E; discriminate E].
    exists p1. vm_compute in E. injection E as <-. split; [exact H|]. split; reflexivity.
  - pose proof (feed_segmentation (lit "POST /a HTTP/1.1" ++ CRLF)
      [lit "Transfer-Encoding: chunked" ++ CRLFCRLF ++ lit "5"; CRLF] create 100 4 create_ready
      ltac:(lia) ltac:(vm_compute; lia)) as H.
    destruct (reads 100 4 _ create) as [p1|] eqn:E; [vm_compute in E; discriminate E|].
    destruct H as (ds1 & d' & ds2 & p1 & H1 & _ & _ & H2 & H3). exists ds1, d', ds2, p1. split; [exact H1|]. split; [exact H2|exact H3].
Defined.

(** C2. Byte conservation and size limit: after any read the message bytes
    followed by the pending ones are the old ones followed by the data read; an
    accepted message never exceeds [max_size_]; and between calls the
    representation invariant holds again. *)
Theorem feed_conserves (d : bytes) (p p1 : t) (rounds fuel : nat) :
  ready p -> (4 <= fuel)%nat -> (rounds_for d p <= rounds)%nat ->
  feed rounds fuel d p = Some p1 ->
  raw p1 ++ partial p1 = raw p ++ partial p ++ d /\
  (state p1 <> Error -> zlen (raw p1) <= u64 (max_size p)) /\
  (state p1 <> Error -> state p1 <> Complete -> ready p1).
Proof.
  intros Hp Hf Hr H1.
  destruct (feed_result d p rounds fuel p1 Hp Hf Hr H1) as (q & [Hq Hm] & Hh & -> & Hi & Hok).
  destruct (R_moves _ _ Hq (inv_with_data d p (proj1 Hp))) as (Hst & Hmx & _).
  unfold stream in Hst. simpl in Hst, Hmx. split; [|split].
  - rewrite <- Hst. by destruct (check_cases q) as [[-> _]|[-> _]].
  - intros He. rewrite <- Hmx. destruct (Hok He) as [-> ?]. done.
  - intros He Hc. destruct (checked_ready q Hi Hm) as [-> ?]; done.
Qed.

(** C2 applied to a partial request. *)
Lemma feed_conserves_witness :
  raw (default create (feed 60 4 (sample_head ++ lit "a") create)) ++
  partial (default create (feed 60 4 (sample_head ++ lit "a") create))
  = sample_head ++ lit "a".
Proof.
  apply (feed_conserves (sample_head ++ lit "a") create _ 60 4).
  - apply create_ready.
  - lia.
  - vm_compute. lia.
  - vm_compute. reflexivity.
Defined.

(** C23. Termination of [parse] as the connection uses it: from any state between
    two calls and for any input, either four turns of the dispatch loop per call
    are enough and the result is the normal form of the input, or the input ends
    inside a chunk-size line, a chunk terminator or a trailer and no number of
    turns is enough. *)
Theorem feed_terminates_or_hangs (d : bytes) (p : t) :
  ready p ->
  exists q, nf (with_data d p) q /\
    (((state q <> ChunkedBody \/ partial q = []) /\
      feed (rounds_for d p) 4 d p = Some (check_size_limit q).2) \/
     ((state q = ChunkedBody /\ partial q <> []) /\
      forall rounds fuel, feed rounds fuel d p = None)).
Proof.
  intros Hp. destruct (feed_spec d p Hp) as (q & Hq & [[Hh H]|[Hh H]]).
  - exists q. split; [done|]. by right.
  - exists q. split; [done|]. left. split; [|by apply H].
    destruct (decide (partial q = [])); [by right|left]. intros ?. by apply Hh.
Qed.

(** C23 applied to the start of a connection. *)
Lemma feed_terminates_or_hangs_witness :
  exists q, nf (with_data sample_head create) q /\
    (((state q <> ChunkedBody \/ partial q = []) /\
      feed (rounds_for sample_head create) 4 sample_head create = Some (check_size_limit q).2) \/
     ((state q = ChunkedBody /\ partial q <> []) /\
      forall rounds fuel, feed rounds fuel sample_head create = None)).
Proof. apply (feed_terminates_or_hangs sample_head create), create_ready. Defined.

End HttpParserProps.
