(* ===== verification/HttpGrammar.v ===== *)
(** * HttpGrammar: the messages the parsers accept

    The grammar of a message head as a list of CRLF-terminated lines.  Every
    message the incremental parser completes has this form (a history invariant
    of its steps), and the one-shot [parse_http_request], which the gateway runs
    on the raw bytes of the completed message, reads the same request from it. *)

From S2P Require Import Prelude Utils StdMap Http HttpParser HttpParserSpec HttpParserProps.

Module HttpGrammar.
Import Http HttpParser HttpParserSpec HttpParserProps.
Open Scope Z_scope.

(** ** Lines *)

Definition line_ok (l : bytes) : Prop := l <> [] /\ CR ∉ l.

Fixpoint crlf_lines (ls : list bytes) : bytes :=
  match ls with [] => [] | l :: ls' => l ++ CRLF ++ crlf_lines ls' end.

(** [n] blank lines. *)
Definition blanks (n : nat) : bytes := crlf_lines (repeat [] n).

Definition add_headers (hs : list bytes) (req : HttpRequest) : HttpRequest :=
  foldl (fun r l => add_header l r) req hs.

Lemma crlf_lines_app ls l : crlf_lines (ls ++ [l]) = crlf_lines ls ++ l ++ CRLF.
Proof. induction ls as [|k ls IH]; simpl; [done|]. rewrite IH. by rewrite <- app_assoc. Qed.

Lemma blanks_S n : blanks (S n) = blanks n ++ CRLF.
Proof.
  unfold blanks. simpl. induction n as [|n IH]; simpl; [done|]. by rewrite IH.
Qed.

Lemma find_crlf_line l rest :
  CR ∉ l -> find_sub CRLF (l ++ CRLF ++ rest) = Some (length l).
Proof.
  intros H. rewrite find_sub_skip by done. simpl. by rewrite Nat.add_0_r.
Qed.

(** The blank line that ends the head is the first CRLFCRLF. *)
Lemma find_head_end l ls rest :
  CR ∉ l -> Forall line_ok ls ->
  find_sub CRLFCRLF (crlf_lines (l :: ls) ++ CRLF ++ rest)
  = Some (length (crlf_lines (l :: ls)) - 2)%nat.
Proof.
  revert l; induction ls as [|k ls IH]; intros l Hl Hls.
  - simpl crlf_lines. rewrite <- app_assoc, find_sub_skip by done. simpl.
    f_equal. rewrite length_app. simpl. lia.
  - apply Forall_cons in Hls as [[Hk Hkc] Hls]. specialize (IH k Hkc Hls).
    change (crlf_lines (l :: k :: ls)) with (l ++ CRLF ++ crlf_lines (k :: ls)).
    rewrite <- !app_assoc, find_sub_skip by done.
    assert (find_sub CRLFCRLF (CRLF ++ crlf_lines (k :: ls) ++ CRLF ++ rest)
            = (fun i => 2 + i)%nat <$> find_sub CRLFCRLF (crlf_lines (k :: ls) ++ CRLF ++ rest)) as ->.
    { destruct k as [|c k]; [done|]. assert (c <> CR) as Hc by set_solver.
      change (crlf_lines ((c :: k) :: ls)) with (c :: k ++ CRLF ++ crlf_lines ls).
      simpl app. rewrite (find_sub_unfold _ CR), (find_sub_unfold _ LF).
      assert (forall x, prefixb CRLFCRLF (CR :: LF :: c :: x) = false) as ->.
      { intros x. apply not_true_iff_false. rewrite prefixb_spec. by intros [t [= ? _]]. }
      assert (forall x, prefixb CRLFCRLF (LF :: x) = false) as -> by done.
      by destruct (find_sub CRLFCRLF _). }
    rewrite IH. simpl. f_equal. rewrite !length_app. simpl. rewrite length_app. simpl. lia.
Qed.

(** ** The one-shot parser on a well-formed head *)

Lemma parse_request_line_method l r req :
  parse_request_line l r = (true, req) -> complete_request req = true.
Proof.
  unfold parse_request_line, complete_request. destruct (find_char SP l) as [i|]; [|done].
  destruct (find_char_from SP l (S i)) as [j|]; [|done]. intros [= H <-]. done.
Qed.

Lemma add_header_fields l r :
  method (add_header l r) = method r /\ path (add_header l r) = path r /\
  version (add_header l r) = version r /\ body (add_header l r) = body r.
Proof. unfold add_header. by destruct (parse_header_line l) as [[k v]|]. Qed.

Lemma add_headers_fields hs r :
  method (add_headers hs r) = method r /\ path (add_headers hs r) = path r /\
  version (add_headers hs r) = version r /\ body (add_headers hs r) = body r.
Proof.
  revert r; induction hs as [|l hs IH]; intros r; simpl; [done|].
  destruct (IH (add_header l r)) as (-> & -> & -> & ->). apply add_header_fields.
Qed.

Lemma complete_add_headers hs r : complete_request (add_headers hs r) = complete_request r.
Proof.
  unfold complete_request. by destruct (add_headers_fields hs r) as (-> & -> & -> & _).
Qed.

Lemma add_headers_body hs b r : add_headers hs (with_body b r) = with_body b (add_headers hs r).
Proof.
  revert r; induction hs as [|l hs IH]; intros r; simpl; [done|].
  rewrite <- IH. f_equal. unfold add_header. by destruct (parse_header_line l) as [[k v]|].
Qed.

(** One turn of the line loop at the start of a line. *)
Lemma parse_lines_turn fuel pre l ls rest he req :
  CR ∉ l -> he = (length pre + length (crlf_lines (l :: ls)) - 2)%nat ->
  parse_lines (S fuel) (pre ++ crlf_lines (l :: ls) ++ rest) he (length pre) req =
  if (length pre <? he)%nat then
    let next := parse_lines fuel ((pre ++ l ++ CRLF) ++ crlf_lines ls ++ rest) he
                  (length (pre ++ l ++ CRLF)) in
    if bool_decide (l = []) then next req
    else if bool_decide (method req = []) then
      let '(ok, req') := parse_request_line l req in
      if negb ok then (false, req') else next req'
    else next (add_header l req)
  else (complete_request req, req).
Proof.
  intros Hl He. simpl parse_lines. destruct (Nat.ltb_spec (length pre) he); [|done].
  simpl in He. rewrite !length_app in He. simpl in He.
  unfold find_sub_from. rewrite (proj2 (Nat.leb_le _ _)) by (rewrite length_app; lia).
  rewrite drop_app_length. rewrite <- app_assoc. simpl (_ ++ crlf_lines ls).
  change (l ++ (CR :: LF :: crlf_lines ls) ++ rest) with (l ++ CRLF ++ crlf_lines ls ++ rest).
  rewrite find_crlf_line by done. simpl.
  destruct (Nat.ltb_spec he (length pre + length l)); [lia|].
  replace (length pre + length l - length pre)%nat with (length l) by lia.
  unfold slice. rewrite drop_app_length, take_app_length.
  replace (length (pre ++ l ++ CRLF)) with (length pre + length l + 2)%nat
    by (rewrite !length_app; simpl; lia).
  rewrite <- !app_assoc. done.
Qed.

Lemma parse_lines_headers fuel pre hs rest he req :
  Forall line_ok hs -> he = (length pre + length (crlf_lines hs) - 2)%nat ->
  (2 <= length pre)%nat -> (length hs < fuel)%nat -> method req <> [] ->
  parse_lines fuel (pre ++ crlf_lines hs ++ rest) he (length pre) req
  = (complete_request req, add_headers hs req).
Proof.
  revert pre hs req. induction fuel as [|fuel IH]; intros pre hs req Hhs He Hp Hf Hm; [lia|].
  destruct hs as [|l hs].
  - simpl. simpl in He. destruct (Nat.ltb_spec (length pre) he); [lia|done].
  - apply Forall_cons in Hhs as [[Hl Hc] Hhs]. rewrite (parse_lines_turn fuel) by done.
    assert (1 <= length l)%nat by (destruct l; simpl; [done|lia]).
    simpl in He. rewrite length_app in He. simpl in He.
    rewrite (proj2 (Nat.ltb_lt _ _)) by lia. cbv zeta.
    rewrite (bool_decide_eq_false_2 _ Hl), (bool_decide_eq_false_2 _ Hm).
    rewrite IH; [| |rewrite !length_app; simpl; lia..| |].
    + simpl. f_equal. apply (complete_add_headers [l]).
    + done.
    + simpl in Hf. lia.
    + by destruct (add_header_fields l req) as (-> & _).
Qed.

(** A message: leading blank lines, request line, header lines, blank line, body. *)
Definition message (n : nat) (rl : bytes) (hs : list bytes) (b : bytes) : bytes :=
  blanks n ++ crlf_lines (rl :: hs) ++ CRLF ++ b.

Lemma length_crlf_lines ls :
  Forall line_ok ls -> (3 * length ls <= length (crlf_lines ls))%nat.
Proof.
  induction 1 as [|l ls [Hl _] _ IH]; simpl; [lia|]. rewrite length_app. simpl.
  destruct l; [done|]. simpl. lia.
Qed.

(** [parse_http_request] on a message with at most one leading blank line. *)
Lemma parse_message n rl hs b r req :
  (n <= 1)%nat -> line_ok rl -> Forall line_ok hs -> method r = [] ->
  parse_request_line rl (with_body b r) = (true, req) ->
  parse_http_request (message n rl hs b) r = (true, add_headers hs req).
Proof.
  intros Hn [Hrl Hc] Hhs Hm Hreq.
  assert (Hreq' := Hreq). apply parse_request_line_method in Hreq'.
  assert (method req <> []) as Hmr.
  { unfold complete_request in Hreq'. by breflect. }
  assert (Forall line_ok (rl :: hs)) as Hall by by constructor.
  pose proof (length_crlf_lines (rl :: hs) Hall) as Hlen. change (length (rl :: hs)) with (S (length hs)) in Hlen.
  unfold parse_http_request, message.
  assert (find_sub CRLFCRLF (blanks n ++ crlf_lines (rl :: hs) ++ CRLF ++ b)
          = Some (length (blanks n) + length (crlf_lines (rl :: hs)) - 2)%nat) as ->.
  { destruct n as [|[|n]]; [by apply find_head_end| |lia].
    apply (find_head_end [] (rl :: hs) b); [apply not_elem_of_nil|by constructor]. }
  set (he := (length (blanks n) + length (crlf_lines (rl :: hs)) - 2)%nat).
  assert (slice (he + 4) (length (blanks n ++ crlf_lines (rl :: hs) ++ CRLF ++ b) - he - 4)
            (blanks n ++ crlf_lines (rl :: hs) ++ CRLF ++ b) = b) as ->.
  { unfold slice. rewrite !app_assoc, drop_app_length'.
    - apply take_ge. rewrite !length_app. change (length CRLF) with 2%nat. subst he. lia.
    - rewrite !length_app. change (length CRLF) with 2%nat. subst he. lia. }
  assert (Hgo : forall fuel, (length hs < fuel)%nat ->
    parse_lines (S fuel) (blanks n ++ crlf_lines (rl :: hs) ++ CRLF ++ b) he
      (length (blanks n)) (with_body b r) = (true, add_headers hs req)).
  { intros fuel Hf. rewrite (parse_lines_turn fuel) by done.
    assert (1 <= length rl)%nat by (destruct rl; simpl; [done|lia]).
    assert (length (crlf_lines (rl :: hs)) = length rl + 2 + length (crlf_lines hs))%nat as El.
    { simpl. rewrite length_app. simpl. lia. }
    rewrite (proj2 (Nat.ltb_lt _ _)) by (subst he; lia). cbv zeta.
    rewrite (bool_decide_eq_false_2 _ Hrl), bool_decide_eq_true_2 by done.
    rewrite Hreq. simpl negb. cbv iota.
    rewrite parse_lines_headers; [by rewrite Hreq'|done| |rewrite !length_app; simpl; lia|done|done].
    subst he. rewrite !length_app. change (length CRLF) with 2%nat. lia. }
  destruct n as [|[|n]]; [apply Hgo; subst he; lia| |lia].
  change (blanks 1 ++ crlf_lines (rl :: hs) ++ CRLF ++ b)
    with ([] ++ crlf_lines ([] :: rl :: hs) ++ CRLF ++ b).
  change 0%nat with (length (@nil ascii)).
  assert (length (blanks 1) = 2)%nat as Hb by done.
  rewrite (parse_lines_turn he); [|apply not_elem_of_nil|subst he; simpl; lia].
  rewrite (proj2 (Nat.ltb_lt _ _)) by (change (length (@nil ascii)) with 0%nat; subst he; lia). cbv zeta.
  rewrite bool_decide_eq_true_2 by done.
  destruct he as [|he'] eqn:E; [subst he; lia|]. apply Hgo.
  subst he. lia.
Qed.

(** ** The history of a message *)

Definition head_of (p : t) (n : nat) (rl : bytes) (hs : list bytes) (req : HttpRequest) : Prop :=
  line_ok rl /\ Forall line_ok hs /\ parse_request_line rl empty_request = (true, req).

Definition hist (p : t) : Prop :=
  match state p with
  | RequestLine => request p = empty_request /\ exists n, raw p = blanks n
  | Headers => exists n rl hs req, head_of p n rl hs req /\
      raw p = blanks n ++ crlf_lines (rl :: hs) /\ request p = add_headers hs req
  | Body | ChunkedBody | Complete => exists n rl hs req b b', head_of p n rl hs req /\
      raw p = message n rl hs b /\ request p = with_body b' (add_headers hs req)
  | Error => True
  end.

(** Appending to the raw bytes of a message keeps its head. *)
Lemma hist_more p q d :
  (state p = Body \/ state p = ChunkedBody) ->
  (state q = Body \/ state q = ChunkedBody \/ state q = Complete \/ state q = Error) ->
  hist p -> raw q = raw p ++ d -> (exists b, request q = with_body b (request p)) -> hist q.
Proof.
  intros Hp Hq Hh Hr [b0 Hb]. unfold hist in Hh.
  assert (exists n rl hs req b b', head_of p n rl hs req /\
      raw p = message n rl hs b /\ request p = with_body b' (add_headers hs req))
    as (n & rl & hs & req & b & b' & Hok & Hraw & Hreq) by by destruct Hp as [Hp|Hp]; rewrite Hp in Hh.
  assert (exists n rl hs req b b', head_of q n rl hs req /\
      raw q = message n rl hs b /\ request q = with_body b' (add_headers hs req)) as H.
  { exists n, rl, hs, req, (b ++ d), b0. split; [done|]. split; [|by rewrite Hb, Hreq].
    rewrite Hr, Hraw. unfold message. by rewrite <- !app_assoc. }
  unfold hist. destruct Hq as [Hq|[Hq|[Hq|Hq]]]; by rewrite Hq.
Qed.

Lemma with_body_same r : with_body (body r) r = r.
Proof. by destruct r. Qed.

Lemma take_line d line rest n :
  d = line ++ CRLF ++ rest -> n = (length line + 2)%nat -> take n d = line ++ CRLF.
Proof.
  intros -> ->. rewrite app_assoc. apply take_app_length'. by rewrite length_app.
Qed.

Lemma finalize_request p : request (finalize_headers p) = request p.
Proof.
  unfold finalize_headers. split_if; [done|].
  destruct (StdMap.find _ _) as [v|]; [|by split_if].
  destruct (Utils.parse_int_safe _ _) as [n|]; [|by split_if].
  destruct (0 <=? n); by split_if.
Qed.

Lemma mstep_hist_line p p' : state p = RequestLine -> hist p -> mstep p = Some p' -> hist p'.
Proof.
  intros Hs Hh Hm. unfold hist in Hh. rewrite Hs in Hh. destruct Hh as [Hreq [n Hraw]].
  unfold mstep in Hm. rewrite Hs in Hm.
  destruct (extract_line (partial p)) as [line|] eqn:El; [|done].
  apply extract_line_Some in El as Hl. destruct Hl as (Hc & rest & Hd).
  assert (take (length line + 2) (partial p) = line ++ CRLF) as Ht by by eapply take_line.
  split_if.
  - injection Hm as <-. subst line.
    destruct (check_cases (consume_line [] p)) as [[-> _]|[-> _]]; [|done].
    unfold hist. simpl state. rewrite Hs. split; [done|]. exists (S n).
    cbn [snd]. change (raw p ++ take (length (@nil ascii) + 2) (partial p) = blanks (S n)).
    by rewrite Ht, Hraw, blanks_S.
  - injection Hm as <-. unfold process_request_line.
    rewrite El, bool_decide_eq_false_2 by done. rewrite Hreq.
    destruct (parse_request_line line empty_request) as [[] req] eqn:E; [|done].
    exists n, line, [], req. split; [by repeat split|].
    cbn [negb]. unfold consume_line. simpl raw. split; [|done]. rewrite Ht, Hraw. done.
Qed.

Lemma mstep_hist_headers p p' : state p = Headers -> hist p -> mstep p = Some p' -> hist p'.
Proof.
  intros Hs Hh Hm. unfold hist in Hh. rewrite Hs in Hh.
  destruct Hh as (n & rl & hs & req & (Hrl & Hhs & Hpr) & Hraw & Hreq).
  unfold mstep in Hm. rewrite Hs in Hm. split_if; [done|]. split_if.
  - injection Hm as <-. apply starts_crlf_spec in Heqb0 as [rest Hd].
    assert (exists b b', raw (finalize_headers (consume_partial 2 p)) = message n rl hs b /\
      request (finalize_headers (consume_partial 2 p)) = with_body b' (add_headers hs req)) as Hx.
    { exists [], (body (add_headers hs req)). rewrite finalize_request.
      destruct (finalize_frame (consume_partial 2 p)) as (-> & _).
      cbn [raw request consume_partial]. rewrite Hd, Hraw, with_body_same. split; [|done].
      unfold message. by rewrite <- app_assoc. }
    destruct Hx as (b & b' & Hx1 & Hx2). unfold hist.
    destruct (finalize_state (consume_partial 2 p)) as [->|[->|[-> _]]];
      by exists n, rl, hs, req, b, b'.
  - destruct (extract_line (partial p)) as [line|] eqn:El; [|done]. injection Hm as <-.
    apply extract_line_Some in El as Hl. destruct Hl as (Hc & rest & Hd).
    assert (take (length line + 2) (partial p) = line ++ CRLF) as Ht by by eapply take_line.
    assert (line <> []) as Hne.
    { intros ->. apply not_true_iff_false in Heqb0. apply Heqb0, starts_crlf_spec. by exists rest. }
    unfold hist. simpl state. rewrite Hs.
    exists n, rl, (hs ++ [line]), req. split; [split; [done|]; split; [|done]|].
    { apply Forall_app. split; [done|]. by constructor. }
    unfold consume_line. cbn [raw request consume_partial set_request].
    cbn [partial set_request raw]. rewrite Ht, Hraw, Hreq. split.
    + change (crlf_lines (rl :: hs ++ [line])) with (crlf_lines ((rl :: hs) ++ [line])).
      by rewrite crlf_lines_app, !app_assoc.
    + unfold add_headers. by rewrite foldl_app.
Qed.

Lemma chunk_step_raw p p' :
  state p = ChunkedBody -> inv p -> chunk_step p = Some p' ->
  (exists d, raw p' = raw p ++ d) /\ request p' = request p.
Proof.
  intros Hs Hi Hc.
  apply chunk_step_cases in Hc
    as [(Hp & [line El] & fl & Ht)|[(Hp & fl & Ht)|[(Hp & Hx & Hl & ->)|[(Hp & line & El & Hl & Hx & ->)|(Hp & ->)]]]].
  - rewrite (chunk_turn_size p line Hp El) in Ht. cbv zeta in Ht.
    destruct (parse_hex _) as [sz|].
    + repeat split_if; injection Ht as _ <-; (split; [by eexists|done]).
    + injection Ht as _ <-. split; [exists []; by rewrite app_nil_r|done].
  - rewrite (chunk_turn_data p Hs Hp Hi) in Ht. cbv zeta in Ht.
    repeat split_if; injection Ht as _ <-;
      (split; [|done]; first [exists []; by rewrite app_nil_r | by eexists]).
  - split; [by eexists|done].
  - split; [by eexists|done].
  - split; [exists []; by rewrite app_nil_r|done].
Qed.

Lemma mstep_hist p p' : inv p -> hist p -> mstep p = Some p' -> hist p'.
Proof.
  intros Hi Hh Hm. destruct (state p) eqn:Hs.
  - by eapply mstep_hist_line.
  - by eapply mstep_hist_headers.
  - unfold mstep in Hm. rewrite Hs in Hm. split_if; [done|]. injection Hm as <-.
    rewrite (process_body_eq p Hs Hi).
    set (p1 := set_body_read _ _).
    assert (raw p1 = raw p ++ take (Z.to_nat (Z.min (zlen (partial p))
      (content_length p - body_read p))) (partial p)) as Hr by done.
    assert (exists b, request (extract_body p1) = with_body b (request p)) as [b Hb].
    { unfold extract_body. destruct (find_sub _ _) as [he|]; [by eexists|].
      exists (body (request p)). by rewrite with_body_same. }
    split_if.
    + eapply hist_more; [by left| |done| |by exists b].
      * unfold extract_body. destruct (find_sub _ _); tauto.
      * destruct (extract_body_frame p1) as (-> & _). exact Hr.
    + eapply hist_more; [by left|by left|done|exact Hr|].
      exists (body (request p)). by rewrite with_body_same.
  - rewrite (mstep_chunked p Hs) in Hm.
    destruct (chunk_step_raw p p' Hs Hi Hm) as [[d Hd] Hr].
    eapply (hist_more p p' d); [by right| |done|done|exists (body (request p)); by rewrite with_body_same].
    right. by eapply chunk_step_state.
  - unfold mstep in Hm. by rewrite Hs in Hm.
  - unfold mstep in Hm. by rewrite Hs in Hm.
Qed.

Lemma R_hist p q : rtc R p q -> inv p -> hist p -> hist q.
Proof.
  induction 1 as [|p p' q Hs _ IH]; [done|]. intros Hi Hh.
  apply IH; [by eapply mstep_inv|by eapply mstep_hist].
Qed.

(** A parser just created or reset, with pipelined bytes already buffered. *)
Definition fresh (p : t) : Prop := ready p /\ p = reset p.

Lemma fresh_hist d p : fresh p -> hist (with_data d p).
Proof. intros [_ ->]. split; [done|]. by exists 0%nat. Qed.

Lemma reset_fresh p : fresh (reset p).
Proof.
  split; [|done]. split; [by split|]. split; [done|]. split; [|done].
  apply (u64_range (max_size p)).
Qed.

(** C24. The two parsers agree: when the incremental parser, fresh or reset,
    completes a message from any input, the raw bytes it hands over start with
    some number of blank lines, and if there is at most one, [parse_http_request]
    on those bytes succeeds with the same method, path, version and headers. *)
Theorem oneshot_agrees (d : bytes) (p p1 : t) (rounds fuel : nat) :
  fresh p -> (4 <= fuel)%nat -> (rounds_for d p <= rounds)%nat ->
  feed rounds fuel d p = Some p1 -> complete p1 = true ->
  exists n rest, raw p1 = blanks n ++ rest /\ starts_crlf rest = false /\
    ((n <= 1)%nat ->
     exists req, parse_http_request (raw p1) empty_request = (true, req) /\
       method req = method (request p1) /\ path req = path (request p1) /\
       version req = version (request p1) /\ headers req = headers (request p1)).
Proof.
  intros Hp Hf Hr H1 Hc. apply bool_decide_eq_true in Hc.
  destruct (feed_result d p rounds fuel p1 (proj1 Hp) Hf Hr H1) as (q & [Hq _] & _ & _ & _ & Hok).
  destruct Hok as [-> _]; [congruence|].
  assert (hist q) as Hh.
  { eapply R_hist; [done|apply inv_with_data, Hp|by apply fresh_hist]. }
  unfold hist in Hh. rewrite Hc in Hh.
  destruct Hh as (n & rl & hs & req & b & b' & (Hrl & Hhs & Hpr) & Hraw & Hreq).
  exists n, (crlf_lines (rl :: hs) ++ CRLF ++ b). split; [done|]. split.
  { destruct Hrl as [Hne Hcr]. destruct rl as [|c rl]; [done|].
    apply not_true_iff_false. rewrite starts_crlf_spec. intros [rest [= ? _]]. set_solver. }
  intros Hn. exists (add_headers hs (with_body b req)). rewrite Hraw, Hreq. split.
  - apply parse_message; try done.
    unfold parse_request_line in Hpr |- *.
    destruct (find_char SP rl) as [i|]; [|done].
    destruct (find_char_from SP rl (S i)) as [j|]; [|done].
    injection Hpr as Hb <-. by rewrite Hb.
  - rewrite add_headers_body. done.
Qed.

(** C24 applied to a GET request after one blank line. *)
Lemma oneshot_agrees_witness :
  exists req,
    parse_http_request
      (raw (default create (feed 60 4 (CRLF ++ lit "GET /x HTTP/1.1" ++ CRLF ++ lit "A: b" ++ CRLFCRLF)
                             create))) empty_request
    = (true, req) /\ path req = lit "/x".
Proof.
  destruct (oneshot_agrees (CRLF ++ lit "GET /x HTTP/1.1" ++ CRLF ++ lit "A: b" ++ CRLFCRLF) create
    (default create (feed 60 4 (CRLF ++ lit "GET /x HTTP/1.1" ++ CRLF ++ lit "A: b" ++ CRLFCRLF) create))
    60 4) as (n & rest & Hraw & Hst & Hreq).
  - apply (reset_fresh create).
  - lia.
  - vm_compute. lia.
  - vm_compute. reflexivity.
  - vm_compute. reflexivity.
  - destruct n as [|[|n]].
    + destruct Hreq as (req & H1 & _ & H2 & _); [lia|]. exists req. split; [exact H1|exact H2].
    + destruct Hreq as (req & H1 & _ & H2 & _); [lia|]. exists req. split; [exact H1|exact H2].
    + exfalso. vm_compute in Hraw. discriminate Hraw.
Defined.

(** Where they disagree: a message behind two or more blank lines is
    completed by the incremental parser, which skips them, and rejected by
    [parse_http_request], which takes the first two for the end of the head, so
    that the gateway answers 400. *)
Theorem oneshot_rejects_blank_lines (n : nat) (rest : bytes) :
  parse_http_request (blanks (2 + n) ++ rest) empty_request
  = (false, with_body (blanks n ++ rest) empty_request).
Proof.
  unfold parse_http_request. change (blanks (2 + n) ++ rest) with (CRLFCRLF ++ blanks n ++ rest).
  assert (find_sub CRLFCRLF (CRLFCRLF ++ blanks n ++ rest) = Some 0%nat) as -> by done.
  unfold slice. change (drop (0 + 4) (CRLFCRLF ++ blanks n ++ rest)) with (blanks n ++ rest).
  rewrite take_ge by (rewrite (length_app CRLFCRLF); simpl length; lia). done.
Qed.

(** The parser while it reads a head. *)
Definition parser_at (st : State) (req : HttpRequest) (r rest : bytes) (mx : Z) : t :=
  mk st req r rest mx false (-1) 0 SizeLine 0 0.

Lemma fresh_at d p :
  fresh p -> with_data d p = parser_at RequestLine empty_request [] (partial p ++ d) (max_size p).
Proof. intros [_ ->]. done. Qed.

Lemma CR_free_dec l : find_char CR l = None -> CR ∉ l.
Proof. apply find_char_None. Qed.

(** The size limit covers [raw_] only: input without a CR is buffered without
    bound in [partial_], whatever [max_size_] is, and never raises an error. *)
Theorem pending_not_limited (d : bytes) (p : t) (rounds fuel : nat) :
  fresh p -> CR ∉ partial p ++ d -> (4 <= fuel)%nat -> (rounds_for d p <= rounds)%nat ->
  feed rounds fuel d p = Some (with_data d p) /\
  pending_size (with_data d p) = pending_size p + zlen d /\
  has_error (with_data d p) = false.
Proof.
  intros Hp Hc Hf Hr. split; [|split].
  - assert (mstep (with_data d p) = None) as Hm.
    { rewrite (fresh_at d p Hp). unfold mstep, extract_line. simpl.
      by rewrite (proj2 (find_char_None CR (partial p ++ d))). }
    destruct (feed_spec d p (proj1 Hp)) as (q & Hq & Hft).
    assert (q = with_data d p) as -> by (eapply nf_unique; [done|by apply nf_stuck]).
    assert (state (with_data d p) = RequestLine) as Hs by by rewrite (fresh_at d p Hp).
    destruct Hft as [[[? _] _]|[_ H]]; [congruence|]. rewrite H by done.
    rewrite check_ok; [done|]. apply Hp.
  - unfold pending_size. simpl. apply zlen_app.
  - rewrite (fresh_at d p Hp). done.
Qed.

(** Applied to a parser limited to 2 bytes that buffers 5. *)
Lemma pending_not_limited_witness :
  feed 7 4 (lit "AAAAA") (set_max_size 2 create) = Some (with_data (lit "AAAAA") (set_max_size 2 create)) /\
  pending_size (with_data (lit "AAAAA") (set_max_size 2 create)) = 5.
Proof.
  destruct (pending_not_limited (lit "AAAAA") (set_max_size 2 create) 7 4) as (H1 & H2 & _).
  - apply (reset_fresh (set_max_size 2 create)).
  - apply CR_free_dec. vm_compute. reflexivity.
  - lia.
  - vm_compute. lia.
  - split; [exact H1|exact H2].
Defined.

End HttpGrammar.
