(* ===== verification/HttpAccept.v ===== *)
(** * HttpAccept: the messages the incremental parser is guaranteed to complete

    Completeness of the parser: every well-formed message within the size limit,
    with a body delimited by Content-Length or in chunks, is completed, the raw
    bytes are exactly the message and what follows it stays pending.  The last
    section is the class of inputs on which the parser does not return. *)

From S2P Require Import Prelude Utils StdMap Http HttpParser HttpParserSpec HttpParserProps HttpGrammar.

Module HttpAccept.
Import Http HttpParser HttpParserSpec HttpParserProps HttpGrammar.
Open Scope Z_scope.

(** ** Steps over a head *)

Lemma consume_app n st req r l rest mx :
  n = length l ->
  consume_partial n (parser_at st req r (l ++ rest) mx) = parser_at st req (r ++ l) rest mx.
Proof.
  intros ->. unfold consume_partial. simpl. by rewrite take_app_length, drop_app_length.
Qed.

Lemma step_request_line rl req r rest mx :
  line_ok rl -> parse_request_line rl empty_request = (true, req) ->
  R (parser_at RequestLine empty_request r (rl ++ CRLF ++ rest) mx)
    (parser_at Headers req (r ++ rl ++ CRLF) rest mx).
Proof.
  intros [Hne Hc] Hreq. unfold R, mstep. simpl state. cbn [partial parser_at].
  rewrite extract_line_app, bool_decide_eq_false_2 by done. f_equal.
  unfold process_request_line. cbn [partial request parser_at].
  rewrite extract_line_app, bool_decide_eq_false_2 by done. rewrite Hreq. cbn [negb].
  unfold consume_line. change (set_request req (parser_at RequestLine empty_request r (rl ++ CRLF ++ rest) mx))
    with (parser_at RequestLine req r (rl ++ CRLF ++ rest) mx).
  rewrite app_assoc, consume_app by by rewrite length_app. done.
Qed.

Lemma not_starts_crlf l rest : line_ok l -> starts_crlf (l ++ rest) = false.
Proof.
  intros [Hne Hc]. destruct l as [|c l]; [done|].
  apply not_true_iff_false. rewrite starts_crlf_spec. intros [x [= ? _]]. set_solver.
Qed.

Lemma steps_headers hs req r rest mx :
  Forall line_ok hs ->
  rtc R (parser_at Headers req r (crlf_lines hs ++ rest) mx)
        (parser_at Headers (add_headers hs req) (r ++ crlf_lines hs) rest mx).
Proof.
  intros Hhs. revert req r. induction Hhs as [|l hs Hl Hhs IH]; intros req r; simpl.
  { by rewrite app_nil_r. }
  rewrite <- app_assoc. cbn [app].
  change (l ++ CR :: LF :: crlf_lines hs ++ rest) with (l ++ CRLF ++ crlf_lines hs ++ rest).
  change (r ++ l ++ CR :: LF :: crlf_lines hs) with (r ++ l ++ CRLF ++ crlf_lines hs).
  eapply rtc_l; [|rewrite (app_assoc l), (app_assoc r); apply IH].
  unfold R, mstep. simpl state. cbn [partial request parser_at].
  destruct (Nat.ltb_spec (length (l ++ CRLF ++ crlf_lines hs ++ rest)) 2) as [Hlt|_].
  { rewrite !length_app in Hlt. simpl in Hlt. lia. }
  rewrite not_starts_crlf, extract_line_app by (done || apply Hl). f_equal. unfold consume_line.
  change (set_request (add_header l req) (parser_at Headers req r (l ++ CRLF ++ crlf_lines hs ++ rest) mx))
    with (parser_at Headers (add_header l req) r (l ++ CRLF ++ crlf_lines hs ++ rest) mx).
  rewrite app_assoc, consume_app by by rewrite length_app. done.
Qed.

Lemma step_blank_line req r rest mx :
  R (parser_at Headers req r (CRLF ++ rest) mx)
    (finalize_headers (parser_at Headers req (r ++ CRLF) rest mx)).
Proof.
  unfold R, mstep. cbn [state partial parser_at]. simpl Nat.ltb. cbv iota.
  change (starts_crlf (CRLF ++ rest)) with true. cbv iota. by rewrite consume_app.
Qed.

(** From a fresh parser to the end of the head. *)
Lemma steps_head d p rl hs req rest :
  fresh p -> line_ok rl -> Forall line_ok hs -> parse_request_line rl empty_request = (true, req) ->
  partial p ++ d = crlf_lines (rl :: hs) ++ CRLF ++ rest ->
  rtc R (with_data d p)
        (finalize_headers
           (parser_at Headers (add_headers hs req) (crlf_lines (rl :: hs) ++ CRLF) rest (max_size p))).
Proof.
  intros Hp Hrl Hhs Hreq Hd. rewrite (fresh_at d p Hp), Hd.
  assert (crlf_lines (rl :: hs) ++ CRLF ++ rest = rl ++ CRLF ++ crlf_lines hs ++ CRLF ++ rest)
    as -> by (cbn [crlf_lines]; by rewrite <- !app_assoc).
  eapply rtc_l; [by apply step_request_line|].
  etrans; [by apply steps_headers|].
  eapply rtc_l; [apply step_blank_line|].
  assert ((([] ++ rl ++ CRLF) ++ crlf_lines hs) ++ CRLF = crlf_lines (rl :: hs) ++ CRLF)
    as -> by (cbn [crlf_lines app]; by rewrite <- !app_assoc).
  done.
Qed.

(** ** Bodies delimited by Content-Length *)

(** The body length a request declares, 0 when it declares none that is valid. *)
Definition declared_length (req : HttpRequest) : Z :=
  match StdMap.find (lit "content-length") (headers req) with
  | Some v =>
      match Utils.parse_int_safe v (length v) with
      | Some n => if 0 <=? n then n else 0
      | None => 0
      end
  | None => 0
  end.

Lemma declared_range req : 0 <= declared_length req <= INT_MAX.
Proof.
  unfold declared_length. destruct (StdMap.find _ _) as [v|]; [|done].
  destruct (Utils.parse_int_safe v (length v)) as [n|] eqn:E; [|done].
  apply Utils.parse_int_safe_range in E. split_if; unfold INT_MAX in *; lia.
Qed.

Lemma finalize_plain req r rest mx :
  mentions_chunked req = false ->
  let q := finalize_headers (parser_at Headers req r rest mx) in
  (0 < declared_length req ->
   q = set_content_length (declared_length req) (parser_at Body req r rest mx)) /\
  (declared_length req = 0 ->
   state q = Complete /\ request q = req /\ raw q = r /\ partial q = rest /\ max_size q = mx).
Proof.
  intros Hc. unfold finalize_headers. cbn [is_chunked request parser_at]. rewrite Hc. cbn [orb].
  unfold declared_length. cbn [headers request].
  destruct (StdMap.find _ _) as [v|]; [|split; [lia|done]].
  destruct (Utils.parse_int_safe v (length v)) as [n|]; [|split; [lia|done]].
  destruct (0 <=? n) eqn:E; breflect; [|split; [lia|done]]. simpl.
  split; intros H; (split_if; [|try lia]); try lia; done.
Qed.

Lemma step_body req b rest rl hs mx :
  CR ∉ rl -> Forall line_ok hs -> 0 < zlen b <= INT_MAX ->
  exists q,
    R (set_content_length (zlen b)
         (parser_at Body req (crlf_lines (rl :: hs) ++ CRLF) (b ++ rest) mx)) q /\
    state q = Complete /\ request q = with_body b req /\
    raw q = crlf_lines (rl :: hs) ++ CRLF ++ b /\ partial q = rest /\ max_size q = mx.
Proof.
  intros Hrl Hhs Hb. assert (b <> []) as Hbne by (intros ->; unfold zlen in Hb; simpl in Hb; lia).
  set (p := set_content_length _ _).
  assert (Hs : state p = Body) by done.
  assert (Hi : inv p) by (unfold inv; simpl; lia).
  exists (process_body p). split.
  { unfold R, mstep. rewrite Hs, bool_decide_eq_false_2; [done|].
    simpl. intros E. by apply app_nil in E as [? _]. }
  set (hd := crlf_lines (rl :: hs)) in *.
  assert (Z.min (zlen (partial p)) (content_length p - body_read p) = zlen b) as Hk.
  { simpl. rewrite zlen_app. pose proof (zlen_nonneg rest). lia. }
  assert (consume_partial (length b) p
          = set_content_length (zlen b) (parser_at Body req ((hd ++ CRLF) ++ b) rest mx)) as Hcp.
  { unfold consume_partial. simpl. by rewrite take_app_length, drop_app_length. }
  rewrite (process_body_eq p Hs Hi), Hk. replace (Z.to_nat (zlen b)) with (length b)
    by (unfold zlen; lia).
  rewrite Hcp. cbn [content_length body_read p parser_at set_content_length].
  rewrite Z.leb_refl. unfold extract_body.
  cbn [raw content_length request set_body_read set_content_length parser_at].
  rewrite <- (app_assoc hd), (find_head_end rl hs b Hrl Hhs : find_sub _ (hd ++ _) = _).
  repeat split. cbn [request set_state set_request]. f_equal. unfold slice. fold hd.
  assert (2 <= length hd)%nat by (subst hd; simpl; rewrite length_app; simpl; lia).
  rewrite app_assoc, drop_app_length' by (rewrite length_app; change (length CRLF) with 2%nat; lia).
  apply take_ge. unfold zlen. lia.
Qed.

Lemma declared_body0 hs rl req :
  parse_request_line rl empty_request = (true, req) ->
  with_body [] (add_headers hs req) = add_headers hs req.
Proof.
  intros H. rewrite <- add_headers_body. f_equal. unfold parse_request_line in H.
  destruct (find_char SP rl) as [i|]; [|done].
  destruct (find_char_from SP rl (S i)) as [j|]; [|done]. by injection H as _ <-.
Qed.

(** A normal form that has completed is what [feed] returns. *)
Lemma feed_completes d p q rounds fuel :
  ready p -> (4 <= fuel)%nat -> (rounds_for d p <= rounds)%nat ->
  rtc R (with_data d p) q -> state q = Complete -> zlen (raw q) <= u64 (max_size q) ->
  feed rounds fuel d p = Some q.
Proof.
  intros Hp Hf Hr Hq Hc Hs. destruct (feed_spec d p Hp) as (q' & Hn & Hft).
  assert (q' = q) as ->.
  { apply (nf_unique (with_data d p)); [done|]. split; [done|]. unfold mstep. by rewrite Hc. }
  destruct Hft as [[[? _] _]|[_ H]]; [congruence|]. rewrite H by done. by rewrite check_ok.
Qed.

Lemma plain_completes (d : bytes) (p : t) (rl : bytes) (hs : list bytes)
    (b rest : bytes) (req : HttpRequest) (rounds fuel : nat) :
  fresh p -> (4 <= fuel)%nat -> (rounds_for d p <= rounds)%nat ->
  partial p ++ d = crlf_lines (rl :: hs) ++ CRLF ++ b ++ rest ->
  line_ok rl -> Forall line_ok hs -> parse_request_line rl empty_request = (true, req) ->
  mentions_chunked (add_headers hs req) = false ->
  declared_length (add_headers hs req) = zlen b ->
  zlen (crlf_lines (rl :: hs) ++ CRLF ++ b) <= u64 (max_size p) ->
  exists q, feed rounds fuel d p = Some q /\ complete q = true /\
    raw q = crlf_lines (rl :: hs) ++ CRLF ++ b /\ partial q = rest /\
    request q = with_body b (add_headers hs req).
Proof.
  intros Hp Hf Hr Hd Hrl Hhs Hreq Hch Hlen Hmax.
  pose proof (steps_head d p rl hs req (b ++ rest) Hp Hrl Hhs Hreq Hd) as Hst.
  destruct (finalize_plain (add_headers hs req) (crlf_lines (rl :: hs) ++ CRLF) (b ++ rest)
    (max_size p) Hch) as [Hbody Hnone].
  pose proof (declared_range (add_headers hs req)) as Hrange.
  assert (exists q, rtc R (with_data d p) q /\ state q = Complete /\
    request q = with_body b (add_headers hs req) /\
    raw q = crlf_lines (rl :: hs) ++ CRLF ++ b /\ partial q = rest /\ max_size q = max_size p)
    as (q & Hq & Hc & Hrq & Hraw & Hpart & Hmx).
  { destruct (Z.eq_dec (zlen b) 0) as [E|E].
    - apply zlen_0 in E as ->. destruct Hnone as (Hc & Hrq & Hraw & Hpart & Hmx); [done|].
      eexists. split; [exact Hst|]. rewrite (declared_body0 hs rl req Hreq). done.
    - rewrite Hbody, Hlen in Hst by lia.
      destruct (step_body (add_headers hs req) b rest rl hs (max_size p)) as (q & Hs & Hq);
        [apply Hrl|done|lia|].
      exists q. split; [|done]. eapply rtc_r; [exact Hst|exact Hs]. }
  exists q. split.
  - apply feed_completes; try done; [apply Hp|]. by rewrite Hraw, Hmx.
  - split; [unfold complete; by rewrite bool_decide_eq_true_2|done].
Qed.

(** C3. Completeness for plain messages: from a fresh parser, buffered bytes and
    input that spell a request line, header lines, a blank line and a body of the
    declared length are completed, with exactly the message in [raw_], the body
    in the request and the bytes behind it pending. *)
Theorem plain_message_completes (d : bytes) (p : t) (rl : bytes) (hs : list bytes)
    (b rest : bytes) (req : HttpRequest) (rounds fuel : nat) :
  fresh p -> (4 <= fuel)%nat -> (rounds_for d p <= rounds)%nat ->
  partial p ++ d = crlf_lines (rl :: hs) ++ CRLF ++ b ++ rest ->
  line_ok rl -> Forall line_ok hs -> parse_request_line rl empty_request = (true, req) ->
  mentions_chunked (add_headers hs req) = false ->
  declared_length (add_headers hs req) = zlen b ->
  zlen (crlf_lines (rl :: hs) ++ CRLF ++ b) <= u64 (max_size p) ->
  exists q, feed rounds fuel d p = Some q /\ complete q = true /\
    raw q = crlf_lines (rl :: hs) ++ CRLF ++ b /\ partial q = rest /\
    request q = with_body b (add_headers hs req).
Proof. apply plain_completes. Qed.

(** C3 applied to a POST request with a pipelined request behind it. *)
Lemma plain_message_completes_witness :
  exists q, feed 100 4 (sample_head ++ lit "abcGET") create = Some q /\ complete q = true /\
    raw q = sample_head ++ lit "abc" /\ partial q = lit "GET" /\ body (request q) = lit "abc".
Proof.
  destruct (plain_message_completes (sample_head ++ lit "abcGET") create
    (lit "POST /a HTTP/1.1") [lit "Content-Length: 3"] (lit "abc") (lit "GET")
    (snd (parse_request_line (lit "POST /a HTTP/1.1") empty_request)) 100 4)
    as (q & H1 & H2 & H3 & H4 & H5).
  - apply (reset_fresh create).
  - lia.
  - vm_compute. lia.
  - vm_compute. reflexivity.
  - split; [discriminate|]. apply find_char_None. vm_compute. reflexivity.
  - constructor; [|constructor]. split; [discriminate|]. apply find_char_None. vm_compute. reflexivity.
  - vm_compute. reflexivity.
  - vm_compute. reflexivity.
  - vm_compute. reflexivity.
  - vm_compute. discriminate.
  - exists q. split; [exact H1|]. split; [exact H2|]. split; [exact H3|]. split; [exact H4|].
    rewrite H5. reflexivity.
Defined.

(** ** Chunked bodies *)

(** The parser inside a chunked body. *)
Definition parser_chunk (ph : ChunkPhase) (sz rd : Z) (req : HttpRequest) (r rest : bytes) (mx : Z) : t :=
  mk ChunkedBody req r rest mx true (-1) 0 ph sz rd.

(** Hexadecimal numbers, in upper or lower case. *)
Definition hex_value (c : ascii) (d : Z) : Prop :=
  (0 <= d <= 9 /\ code c = 48 + d) \/ (10 <= d <= 15 /\ (code c = 87 + d \/ code c = 55 + d)).

Inductive hex_number : bytes -> Z -> Prop :=
  | hex_one c d : hex_value c d -> hex_number [c] d
  | hex_snoc h n c d : hex_number h n -> hex_value c d -> hex_number (h ++ [c]) (16 * n + d).

(** A size line: a hexadecimal size, possibly followed by extensions. *)
Definition size_line (sl : bytes) (n : Z) : Prop :=
  CR ∉ sl /\ exists h ext, sl = h ++ ext /\ hex_number h n /\ (ext = [] \/ head ext = Some ";"%char).

(** A chunk is its size line and its data. *)
Definition chunk_ok (c : bytes * bytes) : Prop := size_line c.1 (zlen c.2) /\ c.2 <> [].

Lemma hex_value_digit c d : hex_value c d -> hex_digit c = Some d.
Proof.
  intros H. unfold hex_digit. cbv zeta. destruct H as [[Hd ->]|[Hd [-> | ->]]]; repeat split_if;
    try (f_equal; lia); try lia.
  all: repeat match goal with H : _ && _ = false |- _ => apply andb_false_iff in H as [?|?] end;
    breflect; lia.
Qed.

Lemma hex_number_range h n : hex_number h n -> 0 <= n.
Proof. induction 1 as [c d H|h n c d _ IH H]; unfold hex_value in H; lia. Qed.

Lemma parse_hex_go_snoc s c v :
  parse_hex_go (s ++ [c]) v =
  (w ← parse_hex_go s v; d ← hex_digit c; Some (Z.lor (u64 (Z.shiftl w 4)) d)).
Proof.
  revert v; induction s as [|a s IH]; intros v; simpl; [by destruct (hex_digit c)|].
  destruct (hex_digit a); [apply IH|done].
Qed.

Lemma lor_nibble n d : 0 <= d < 16 -> Z.lor (Z.shiftl n 4) d = 16 * n + d.
Proof.
  intros Hd. replace (16 * n) with (Z.shiftl n 4) by (rewrite Z.shiftl_mul_pow2; lia).
  assert (Z.land (Z.shiftl n 4) d = 0) as Hl.
  { apply Z.bits_inj'. intros i Hi. rewrite Z.land_spec, Z.bits_0.
    destruct (Z.ltb_spec i 4); [by rewrite Z.shiftl_spec_low|].
    assert (d < 2 ^ i) as Hp.
    { apply (Z.lt_le_trans _ (2 ^ 4)); [lia|]. apply Z.pow_le_mono_r; lia. }
    destruct (Z.eq_dec d 0) as [->|]; [by rewrite Z.bits_0, andb_false_r|].
    rewrite (Z.bits_above_log2 d), andb_false_r; [done|lia|]. apply Z.log2_lt_pow2; lia. }
  rewrite <- Z.lxor_lor by done. by rewrite Z.add_nocarry_lxor.
Qed.

Lemma hex_number_parse h n : hex_number h n -> n < two64 -> parse_hex h = Some n.
Proof.
  intros Hh Hn. assert (h <> [] /\ parse_hex_go h 0 = Some n) as [Hne Hp].
  { induction Hh as [c d H|h n c d Hh IH H]; pose proof H as Hd; apply hex_value_digit in Hd;
      pose proof (hex_digit_range _ _ Hd).
    - split; [done|]. simpl. by rewrite Hd.
    - apply hex_number_range in Hh as Hp. destruct IH as [_ IH]; [lia|].
      split; [by destruct h|]. rewrite parse_hex_go_snoc, IH. simpl. rewrite Hd. simpl.
      rewrite u64_small, lor_nibble; [done|lia|]. rewrite Z.shiftl_mul_pow2 by lia. lia. }
  unfold parse_hex. by rewrite bool_decide_eq_false_2.
Qed.

Lemma hex_number_no_semi h n : hex_number h n -> ";"%char ∉ h.
Proof.
  assert (forall c d, hex_value c d -> ";"%char <> c) as Hv.
  { intros c d H <-. unfold hex_value in H. change (code ";"%char) with 59 in H. lia. }
  induction 1 as [c d H|h n c d _ IH H].
  - intros E%list_elem_of_singleton. by eapply Hv.
  - rewrite not_elem_of_app. split; [done|]. intros E%list_elem_of_singleton. by eapply Hv.
Qed.

Lemma size_line_parse sl n :
  size_line sl n -> n < two64 -> CR ∉ sl /\ parse_hex (chunk_size_field sl) = Some n.
Proof.
  intros (Hc & h & ext & -> & Hh & He) Hn. split; [done|].
  assert (chunk_size_field (h ++ ext) = h) as ->; [|by apply hex_number_parse].
  pose proof (hex_number_no_semi _ _ Hh) as Hs. unfold chunk_size_field.
  destruct ext as [|x ext]; [by rewrite app_nil_r, (proj2 (find_char_None _ _) Hs)|].
  destruct He as [|[= ->]]; [done|]. by rewrite find_char_app, take_app_length.
Qed.

Fixpoint chunks (cs : list (bytes * bytes)) : bytes :=
  match cs with
  | [] => []
  | (sl, dt) :: cs' => sl ++ CRLF ++ dt ++ CRLF ++ chunks cs'
  end.

Lemma consume_chunk n ph sz rd req r l rest mx :
  n = length l ->
  consume_partial n (parser_chunk ph sz rd req r (l ++ rest) mx)
  = parser_chunk ph sz rd req (r ++ l) rest mx.
Proof.
  intros ->. unfold consume_partial. simpl. by rewrite take_app_length, drop_app_length.
Qed.

Lemma step_size_line sl n sz rd req r rest mx :
  CR ∉ sl -> parse_hex (chunk_size_field sl) = Some n ->
  zlen (r ++ sl ++ CRLF) <= u64 mx ->
  R (parser_chunk SizeLine sz rd req r (sl ++ CRLF ++ rest) mx)
    (if n =? 0 then parser_chunk Trailer 0 rd req (r ++ sl ++ CRLF) rest mx
     else parser_chunk Data n 0 req (r ++ sl ++ CRLF) rest mx).
Proof.
  intros Hc Hn Hmax. set (p := parser_chunk _ _ _ _ _ _ _).
  assert (extract_line (partial p) = Some sl) as El by by apply extract_line_app.
  assert (consume_partial (length sl + 2) p = parser_chunk SizeLine sz rd req (r ++ sl ++ CRLF) rest mx)
    as Hcp.
  { subst p. rewrite app_assoc, consume_chunk by by rewrite length_app. done. }
  unfold R. rewrite mstep_chunked by done. unfold chunk_step.
  change (chunk_phase p) with SizeLine. cbv iota. rewrite El.
  rewrite (chunk_turn_size p sl eq_refl El), Hn, Hcp. cbv zeta.
  destruct (Z.eqb_spec n 0) as [->|]; [done|].
  cbn [raw parser_chunk]. change (max_size p) with mx.
  destruct (Z.ltb_spec (u64 mx) (zlen (r ++ sl ++ CRLF))); [lia|done].
Qed.

Lemma step_chunk_data dt req r rest mx :
  dt <> [] -> zlen dt < two64 -> zlen (r ++ dt) <= u64 mx ->
  R (parser_chunk Data (zlen dt) 0 req r (dt ++ rest) mx)
    (parser_chunk Data (zlen dt) (zlen dt) req (r ++ dt) rest mx).
Proof.
  intros Hne Hlt Hmax. pose proof (zlen_pos dt Hne). pose proof (zlen_nonneg rest).
  pose proof (zlen_nonneg r). rewrite zlen_app in Hmax.
  set (p := parser_chunk _ _ _ _ _ _ _).
  assert (Hi : inv p) by (unfold inv; simpl; intros _; lia).
  unfold R. rewrite mstep_chunked by done. unfold chunk_step.
  change (chunk_phase p) with Data. cbv iota.
  change (current_chunk_size p - current_chunk_read p) with (zlen dt - 0).
  rewrite Z.sub_0_r, u64_small by lia. destruct (Z.eqb_spec (zlen dt) 0); [lia|].
  rewrite bool_decide_eq_false_2 by (simpl; intros E; by apply app_nil in E as [? _]).
  rewrite (chunk_turn_data p eq_refl eq_refl Hi). cbv zeta.
  change (current_chunk_size p - current_chunk_read p) with (zlen dt - 0).
  rewrite Z.sub_0_r. destruct (Z.eqb_spec (zlen dt) 0); [lia|].
  change (partial p) with (dt ++ rest). rewrite zlen_app, Z.min_r by lia.
  replace (Z.to_nat (zlen dt)) with (length dt) by (unfold zlen; lia).
  unfold p. rewrite consume_chunk by done. rewrite Z.leb_refl.
  cbn [raw max_size set_chunk parser_chunk]. rewrite zlen_app.
  destruct (Z.ltb_spec (u64 mx) (zlen r + zlen dt)); [lia|done].
Qed.

Lemma step_chunk_end n req r rest mx :
  0 <= n < two64 -> zlen r <= u64 mx ->
  R (parser_chunk Data n n req r (CRLF ++ rest) mx)
    (parser_chunk SizeLine n n req (r ++ CRLF) rest mx).
Proof.
  intros Hn Hmax. set (p := parser_chunk _ _ _ _ _ _ _).
  assert (Hi : inv p) by (unfold inv; simpl; intros _; lia).
  unfold R. rewrite mstep_chunked by done. unfold chunk_step.
  change (chunk_phase p) with Data. cbv iota.
  change (current_chunk_size p - current_chunk_read p) with (n - n). rewrite Z.sub_diag.
  change (u64 0 =? 0) with true. cbv iota.
  rewrite (chunk_turn_data p eq_refl eq_refl Hi). cbv zeta.
  change (current_chunk_size p - current_chunk_read p) with (n - n). rewrite Z.sub_diag.
  simpl Z.eqb. cbv iota. change (length (partial p) <? 2)%nat with false. cbv iota.
  change (starts_crlf (partial p)) with true. cbn [negb]. cbv iota.
  unfold p. by rewrite consume_chunk.
Qed.

Lemma steps_chunks cs sz rd req r rest mx :
  Forall chunk_ok cs -> zlen (r ++ chunks cs) <= u64 mx ->
  exists sz' rd', rtc R (parser_chunk SizeLine sz rd req r (chunks cs ++ rest) mx)
    (parser_chunk SizeLine sz' rd' req (r ++ chunks cs) rest mx).
Proof.
  intros Hcs. revert sz rd r. induction Hcs as [|[sl dt] cs [Hsl Hne] Hcs IH];
    intros sz rd r Hmax.
  { exists sz, rd. simpl. by rewrite app_nil_r. }
  cbn [fst snd] in *. cbn [chunks] in *.
  assert (zlen dt < two64) as Hsz.
  { pose proof (u64_range mx). rewrite !zlen_app in Hmax. zlen_facts. lia. }
  apply size_line_parse in Hsl as [Hc Hhex]; [|done].
  set (r1 := r ++ sl ++ CRLF). set (r2 := r1 ++ dt). set (r3 := r2 ++ CRLF).
  assert (r ++ sl ++ CRLF ++ dt ++ CRLF ++ chunks cs = r3 ++ chunks cs) as E.
  { unfold r3, r2, r1. by rewrite <- !app_assoc. }
  rewrite E in *. clear E.
  assert (zlen r1 <= zlen r2 /\ zlen r2 <= zlen r3 /\ zlen r3 <= zlen (r3 ++ chunks cs)) as Hle.
  { unfold r3, r2. rewrite !zlen_app. zlen_facts. lia. }
  destruct (IH (zlen dt) (zlen dt) r3 ltac:(done)) as (sz' & rd' & Hr). exists sz', rd'.
  eapply rtc_l.
  { rewrite <- !app_assoc. apply step_size_line; [done|done|]. fold r1. lia. }
  pose proof (zlen_pos dt Hne). destruct (Z.eqb_spec (zlen dt) 0); [lia|].
  eapply rtc_l; [apply step_chunk_data; [done|lia|fold r1 r2; lia]|].
  eapply rtc_l; [apply step_chunk_end; [lia|fold r1 r2; lia]|]. exact Hr.
Qed.

Lemma steps_trailers ts sz rd req r rest mx :
  Forall line_ok ts ->
  rtc R (parser_chunk Trailer sz rd req r (crlf_lines ts ++ CRLF ++ rest) mx)
    (parser_chunk End_ sz rd req (r ++ crlf_lines ts ++ CRLF) rest mx).
Proof.
  intros Hts. revert r. induction Hts as [|l ts Hl Hts IH]; intros r.
  - apply rtc_once. unfold R. rewrite mstep_chunked by done. unfold chunk_step.
    cbn [chunk_phase partial parser_chunk crlf_lines app].
    change (starts_crlf (CR :: LF :: rest)) with true. simpl Nat.ltb. cbv iota zeta.
    change (CR :: LF :: rest) with (CRLF ++ rest). by rewrite consume_chunk.
  - cbn [crlf_lines]. rewrite <- !app_assoc.
    assert (r ++ l ++ CRLF ++ crlf_lines ts ++ CRLF = (r ++ l ++ CRLF) ++ crlf_lines ts ++ CRLF)
      as -> by by rewrite <- !app_assoc.
    eapply rtc_l; [|apply IH]. unfold R. rewrite mstep_chunked by done. unfold chunk_step.
    cbn [chunk_phase partial parser_chunk].
    destruct (Nat.ltb_spec (length (l ++ CRLF ++ crlf_lines ts ++ CRLF ++ rest)) 2) as [Hlt|_].
    { rewrite !length_app in Hlt. simpl in Hlt. lia. }
    rewrite not_starts_crlf, extract_line_app by (done || apply Hl). f_equal.
    rewrite (app_assoc l), consume_chunk by by rewrite length_app. done.
Qed.

(** A chunked body: chunks, a last-chunk line of size 0, trailers, a blank line. *)
Definition chunked_body (cs : list (bytes * bytes)) (last : bytes) (ts : list bytes) : bytes :=
  chunks cs ++ (last ++ CRLF) ++ crlf_lines ts ++ CRLF.

(** C4. Completeness for chunked messages: a head that announces the chunked
    coding followed by well-formed chunks (extensions allowed), a zero chunk and
    trailers, all within the size limit and wholly in the bytes of the call, is completed
    with exactly the message in [raw_] (a read that stops inside a chunk delimiter does
    not return, see [feed_terminates_or_hangs]); the body is left in its coded form for forwarding and what follows
    stays pending. *)
Theorem chunked_message_completes (d : bytes) (p : t) (rl : bytes) (hs : list bytes)
    (cs : list (bytes * bytes)) (last : bytes) (ts : list bytes) (rest : bytes)
    (req : HttpRequest) (rounds fuel : nat) :
  fresh p -> (4 <= fuel)%nat -> (rounds_for d p <= rounds)%nat ->
  partial p ++ d = crlf_lines (rl :: hs) ++ CRLF ++ chunked_body cs last ts ++ rest ->
  line_ok rl -> Forall line_ok hs -> parse_request_line rl empty_request = (true, req) ->
  mentions_chunked (add_headers hs req) = true ->
  Forall chunk_ok cs -> size_line last 0 -> Forall line_ok ts ->
  zlen (crlf_lines (rl :: hs) ++ CRLF ++ chunked_body cs last ts) <= u64 (max_size p) ->
  exists q, feed rounds fuel d p = Some q /\ complete q = true /\
    raw q = crlf_lines (rl :: hs) ++ CRLF ++ chunked_body cs last ts /\ partial q = rest /\
    request q = add_headers hs req.
Proof.
  intros Hp Hf Hr Hd Hrl Hhs Hreq Hch Hcs Hlast Hts Hmax.
  apply size_line_parse in Hlast as [Hlc Hlast]; [|done].
  pose proof (steps_head d p rl hs req _ Hp Hrl Hhs Hreq Hd) as Hst.
  set (r0 := crlf_lines (rl :: hs) ++ CRLF) in *.
  assert (finalize_headers (parser_at Headers (add_headers hs req) r0
            (chunked_body cs last ts ++ rest) (max_size p))
          = parser_chunk SizeLine 0 0 (add_headers hs req) r0
              (chunked_body cs last ts ++ rest) (max_size p)) as Ef.
  { unfold finalize_headers. cbn [is_chunked request parser_at]. by rewrite Hch. }
  rewrite Ef in Hst. clear Ef. rewrite app_assoc in Hmax. fold r0 in Hmax.
  set (r1 := r0 ++ chunks cs) in *. set (r2 := r1 ++ last ++ CRLF) in *.
  assert (r0 ++ chunked_body cs last ts = r2 ++ crlf_lines ts ++ CRLF) as Eb.
  { unfold r2, r1, chunked_body. by rewrite <- !app_assoc. }
  assert (zlen r1 <= zlen r2 /\ zlen r2 <= u64 (max_size p)) as Hle.
  { rewrite Eb in Hmax. unfold r2 in *. rewrite !zlen_app in *. zlen_facts. lia. }
  destruct (steps_chunks cs 0 0 (add_headers hs req) r0
    ((last ++ CRLF) ++ (crlf_lines ts ++ CRLF) ++ rest) (max_size p) Hcs)
    as (sz & rd & Hsc); [fold r1; lia|].
  exists (set_state Complete (parser_chunk End_ 0 rd (add_headers hs req)
            (r0 ++ chunked_body cs last ts) rest (max_size p))). split.
  - apply feed_completes; try done; [apply Hp|].
    etrans; [exact Hst|]. unfold chunked_body at 1. rewrite <- !app_assoc.
    rewrite <- !app_assoc in Hsc. etrans; [exact Hsc|]. fold r1.
    eapply rtc_l; [apply step_size_line; [done|done|fold r2; lia]|].
    simpl Z.eqb. cbv iota. fold r2. rewrite Eb.
    etrans; [by apply steps_trailers|]. apply rtc_once. done.
  - repeat split. simpl. unfold r0. by rewrite <- app_assoc.
Qed.

Definition chunked_head : bytes :=
  lit "POST / HTTP/1.1" ++ CRLF ++ lit "Transfer-Encoding: chunked" ++ CRLF ++ CRLF.

(** C4 applied to a message of one chunk with an extension. *)
Lemma chunked_message_completes_witness :
  exists q, feed 100 4 (chunked_head ++ lit "3;x=y" ++ CRLF ++ lit "abc" ++ CRLF ++ lit "0"
                          ++ CRLF ++ CRLF ++ lit "GET") create = Some q /\
    complete q = true /\ partial q = lit "GET".
Proof.
  destruct (chunked_message_completes
    (chunked_head ++ lit "3;x=y" ++ CRLF ++ lit "abc" ++ CRLF ++ lit "0" ++ CRLF ++ CRLF ++ lit "GET")
    create (lit "POST / HTTP/1.1") [lit "Transfer-Encoding: chunked"]
    [(lit "3;x=y", lit "abc")] (lit "0") [] (lit "GET")
    (snd (parse_request_line (lit "POST / HTTP/1.1") empty_request)) 100 4)
    as (q & H1 & H2 & _ & H4 & _).
  - apply (reset_fresh create).
  - lia.
  - vm_compute. lia.
  - vm_compute. reflexivity.
  - split; [discriminate|]. apply CR_free_dec. vm_compute. reflexivity.
  - constructor; [|constructor]. split; [discriminate|]. apply CR_free_dec. vm_compute. reflexivity.
  - vm_compute. reflexivity.
  - vm_compute. reflexivity.
  - constructor; [|constructor]. split; [|discriminate].
    split; [apply CR_free_dec; vm_compute; reflexivity|].
    exists (lit "3"), (lit ";x=y"). split; [done|]. split; [|by right]. constructor. left. done.
  - split; [apply CR_free_dec; vm_compute; reflexivity|].
    exists (lit "0"), []. split; [done|]. split; [|by left]. constructor. left. done.
  - constructor.
  - vm_compute. discriminate.
  - exists q. split; [exact H1|]. split; [exact H2|exact H4].
Defined.

(** ** Inputs on which the parser does not return *)

(** The dispatch loop does not return on a chunked message that is cut inside
    a chunk-size line: after any head announcing chunks and any number of complete
    chunks, one non-empty piece of the next size line makes [process] spin, for
    every number of turns. *)
Theorem incomplete_chunk_hangs (d : bytes) (p : t) (rl : bytes) (hs : list bytes)
    (cs : list (bytes * bytes)) (tail : bytes) (req : HttpRequest) (rounds fuel : nat) :
  fresh p -> partial p ++ d = crlf_lines (rl :: hs) ++ CRLF ++ chunks cs ++ tail ->
  line_ok rl -> Forall line_ok hs -> parse_request_line rl empty_request = (true, req) ->
  mentions_chunked (add_headers hs req) = true -> Forall chunk_ok cs ->
  line_ok tail -> zlen (crlf_lines (rl :: hs) ++ CRLF ++ chunks cs) <= u64 (max_size p) ->
  feed rounds fuel d p = None.
Proof.
  intros Hp Hd Hrl Hhs Hreq Hch Hcs [Hne Hcr] Hmax.
  pose proof (steps_head d p rl hs req _ Hp Hrl Hhs Hreq Hd) as Hst.
  unfold finalize_headers in Hst. cbn [is_chunked request parser_at] in Hst.
  rewrite Hch in Hst. cbn [orb] in Hst. rewrite app_assoc in Hmax.
  destruct (steps_chunks cs 0 0 (add_headers hs req) _ tail (max_size p) Hcs Hmax)
    as (sz & rd & Hsc).
  set (q := parser_chunk SizeLine sz rd _ _ _ _) in Hsc.
  assert (nf (with_data d p) q) as Hq.
  { split; [etrans; [exact Hst|exact Hsc]|]. rewrite mstep_chunked by done.
    unfold chunk_step. cbn [q chunk_phase partial parser_chunk]. unfold extract_line.
    by rewrite (proj2 (find_char_None CR tail)). }
  destruct (feed_spec d p (proj1 Hp)) as (q' & Hq' & [[_ H]|[Hh _]]); [apply H|].
  assert (q' = q) as -> by by eapply nf_unique. by destruct Hh.
Qed.

(** Applied to the first byte of a size line. *)
Lemma incomplete_chunk_hangs_witness :
  ~ exists rounds fuel q, feed rounds fuel (chunked_head ++ lit "5") create = Some q.
Proof.
  intros (rounds & fuel & q & Hq).
  rewrite (incomplete_chunk_hangs (chunked_head ++ lit "5") create (lit "POST / HTTP/1.1")
    [lit "Transfer-Encoding: chunked"] [] (lit "5")
    (snd (parse_request_line (lit "POST / HTTP/1.1") empty_request)) rounds fuel) in Hq.
  - discriminate Hq.
  - apply (reset_fresh create).
  - vm_compute. reflexivity.
  - split; [discriminate|]. apply CR_free_dec. vm_compute. reflexivity.
  - constructor; [|constructor]. split; [discriminate|]. apply CR_free_dec. vm_compute. reflexivity.
  - vm_compute. reflexivity.
  - vm_compute. reflexivity.
  - constructor.
  - split; [discriminate|]. apply CR_free_dec. vm_compute. reflexivity.
  - vm_compute. discriminate.
Defined.

End HttpAccept.
