(* ===== verification/CircuitBreaker.v ===== *)
(** * CircuitBreaker: the three-state breaker of src/proxy/circuit_breaker.cpp

    The state of [class CircuitBreaker] as a record, one definition per method.
    [std::chrono::steady_clock::now()] is an argument [now] of the methods that
    read it, in nanoseconds.  Each method body runs under [mutex_], so a
    concurrent execution is a sequence of method calls: [run] executes such a
    sequence and the theorems quantify over all of them. *)

From S2P Require Import Prelude.

Module CircuitBreaker.
Open Scope Z_scope.

Inductive State := Closed | Open | HalfOpen.

#[global] Instance State_eq_dec : EqDecision State.
Proof. solve_decision. Defined.

Record t := mk {
  failure_threshold : Z;
  reset_timeout_ms : Z;
  half_open_max_requests : Z;
  state : State;
  failure_count : Z;
  consecutive_failures : Z;
  half_open_successes : Z;
  half_open_requests : Z;
  opened_at : Z  (* nanoseconds *)
}.

(** The constructor; [opened_at_] is a default [time_point], the epoch. *)
Definition create (threshold reset_ms half_open_max : Z) : t :=
  mk threshold reset_ms half_open_max Closed 0 0 0 0 0.

Definition transition_to_open (now : Z) (b : t) : t :=
  mk (failure_threshold b) (reset_timeout_ms b) (half_open_max_requests b)
     Open (failure_count b) (consecutive_failures b) 0 0 now.

Definition try_transition_to_half_open (b : t) : t :=
  mk (failure_threshold b) (reset_timeout_ms b) (half_open_max_requests b)
     HalfOpen (failure_count b) (consecutive_failures b) 0 0 (opened_at b).

(** [milliseconds(reset_timeout_ms_)] in the clock's unit. *)
Definition reset_timeout_ns (b : t) : Z := reset_timeout_ms b * 1000000.

Definition allow_request (now : Z) (b : t) : bool * t :=
  match state b with
  | Closed => (true, b)
  | Open =>
      if reset_timeout_ns b <=? now - opened_at b
      then (true, try_transition_to_half_open b)
      else (false, b)
  | HalfOpen =>
      if half_open_requests b <? half_open_max_requests b
      then (true,
            mk (failure_threshold b) (reset_timeout_ms b) (half_open_max_requests b)
               HalfOpen (failure_count b) (consecutive_failures b)
               (half_open_successes b) (half_open_requests b + 1) (opened_at b))
      else (false, b)
  end.

Definition on_success (b : t) : t :=
  match state b with
  | Closed =>
      mk (failure_threshold b) (reset_timeout_ms b) (half_open_max_requests b)
         Closed 0 0 (half_open_successes b) (half_open_requests b) (opened_at b)
  | HalfOpen =>
      let succ := half_open_successes b + 1 in
      if half_open_requests b <=? succ
      then mk (failure_threshold b) (reset_timeout_ms b) (half_open_max_requests b)
              Closed 0 0 0 0 (opened_at b)
      else mk (failure_threshold b) (reset_timeout_ms b) (half_open_max_requests b)
              HalfOpen (failure_count b) 0 succ (half_open_requests b) (opened_at b)
  | Open =>
      mk (failure_threshold b) (reset_timeout_ms b) (half_open_max_requests b)
         Open (failure_count b) 0
         (half_open_successes b) (half_open_requests b) (opened_at b)
  end.

Definition on_failure (now : Z) (b : t) : t :=
  let b := mk (failure_threshold b) (reset_timeout_ms b) (half_open_max_requests b)
              (state b) (failure_count b + 1) (consecutive_failures b + 1)
              (half_open_successes b) (half_open_requests b) (opened_at b) in
  match state b with
  | Closed =>
      if failure_threshold b <=? failure_count b then transition_to_open now b else b
  | HalfOpen => transition_to_open now b
  | Open =>
      mk (failure_threshold b) (reset_timeout_ms b) (half_open_max_requests b)
         Open (failure_count b) (consecutive_failures b)
         (half_open_successes b) (half_open_requests b) now
  end.

Definition reset (b : t) : t :=
  mk (failure_threshold b) (reset_timeout_ms b) (half_open_max_requests b)
     Closed 0 0 0 0 (opened_at b).

Definition state_name (s : State) : string :=
  match s with Closed => "CLOSED" | Open => "OPEN" | HalfOpen => "HALF_OPEN" end.

(** ** Executions *)

(** One public call, with the clock value it reads. *)
Inductive call := Allow (now : Z) | Success | Failure (now : Z) | Reset.

Definition exec (c : call) (b : t) : t :=
  match c with
  | Allow now => snd (allow_request now b)
  | Success => on_success b
  | Failure now => on_failure now b
  | Reset => reset b
  end.

Definition run (cs : list call) (b : t) : t := fold_left (fun b c => exec c b) cs b.

(** How many of a run of [allow_request] calls are admitted. *)
Fixpoint admitted (nows : list Z) (b : t) : Z :=
  match nows with
  | [] => 0
  | now :: nows' =>
      let '(ok, b') := allow_request now b in
      (if ok then 1 else 0) + admitted nows' b'
  end.

(** ** Invariant *)

Definition inv (b : t) : Prop :=
  match state b with
  | Closed =>
      half_open_successes b = 0 /\ half_open_requests b = 0 /\
      failure_count b = consecutive_failures b /\
      0 <= failure_count b < failure_threshold b
  | Open => half_open_successes b = 0 /\ half_open_requests b = 0
  | HalfOpen =>
      0 <= half_open_successes b /\
      0 <= half_open_requests b <= Z.max 0 (half_open_max_requests b) /\
      (half_open_requests b = 0 \/ half_open_successes b < half_open_requests b) /\
      (half_open_requests b = 0 -> half_open_successes b = 0)
  end.

Ltac cb_cases :=
  unfold inv, exec, allow_request, on_success, on_failure, reset,
    transition_to_open, try_transition_to_half_open in *; simpl in *;
  repeat (split_if; simpl in *); try lia.

Lemma exec_threshold c b : failure_threshold (exec c b) = failure_threshold b.
Proof. destruct b as [th rt hm [] fc cf hs hr oa], c; cb_cases; done. Qed.

Lemma run_reset_timeout cs b : reset_timeout_ms (run cs b) = reset_timeout_ms b.
Proof.
  revert b; induction cs as [|c cs IH]; intros b; [done|].
  unfold run in *. simpl. rewrite IH.
  destruct b as [th rt hm [] fc cf hs hr oa], c; cb_cases; done.
Qed.

Lemma run_threshold cs b : failure_threshold (run cs b) = failure_threshold b.
Proof.
  revert b; induction cs as [|c cs IH]; intros b; [done|]. unfold run in *. simpl. rewrite IH. apply exec_threshold.
Qed.

Lemma exec_inv c b : 1 <= failure_threshold b -> inv b -> inv (exec c b).
Proof. destruct b as [th rt hm [] fc cf hs hr oa], c; intros Ht Hi; cb_cases. Qed.

Lemma run_inv cs b : 1 <= failure_threshold b -> inv b -> inv (run cs b).
Proof.
  revert b; induction cs as [|c cs IH]; intros b Ht Hi; simpl; [done|].
  apply IH; [by rewrite exec_threshold|by apply exec_inv].
Qed.

Lemma create_inv th rt hm : 1 <= th -> inv (create th rt hm).
Proof. unfold inv; simpl; lia. Qed.

(** From a fresh breaker with a positive threshold, after any sequence of
    calls at any clock readings the invariant holds: in Closed the failure count
    is the number of consecutive failures and stays below the threshold, in Open
    the probe counters are zero, in HalfOpen fewer probes have succeeded than
    were counted and at most [half_open_max_requests] were counted. *)
Theorem breaker_invariant th rt hm cs :
  1 <= th -> inv (run cs (create th rt hm)).
Proof. intros H. apply run_inv; [done|by apply create_inv]. Qed.

(** Applied: five failures with the threshold of the gateway, then a probe. *)
Lemma breaker_invariant_witness :
  inv (run [Failure 1; Failure 2; Failure 3; Failure 4; Failure 5;
            Allow 7000000000] (create 5 6000 3)).
Proof. apply (breaker_invariant 5 6000 3). lia. Defined.

(** ** The documented diagram *)













Lemma run_app cs ds b : run (cs ++ ds) b = run ds (run cs b).
Proof. unfold run. apply fold_left_app. Qed.

Lemma run_cons c cs b : run (c :: cs) b = run cs (exec c b).
Proof. done. Qed.

Lemma closed_failures nows b :
  state b = Closed -> 0 <= failure_count b ->
  failure_count b + zlen nows < failure_threshold b ->
  state (run (Failure <$> nows) b) = Closed /\
  failure_count (run (Failure <$> nows) b) = failure_count b + zlen nows /\
  failure_threshold (run (Failure <$> nows) b) = failure_threshold b.
Proof.
  revert b; induction nows as [|now nows IH]; intros b Hs Hf Hl.
  - unfold zlen. simpl. repeat split; [done|lia].
  - assert (zlen (now :: nows) = 1 + zlen nows) as E by (apply zlen_cons).
    rewrite E in *. pose proof (zlen_nonneg nows).
    rewrite fmap_cons, run_cons.
    destruct b as [th rt hm st fc cf hs hr oa]. simpl in Hs, Hf, Hl. subst.
    assert (exec (Failure now) (mk th rt hm Closed fc cf hs hr oa) =
            mk th rt hm Closed (fc + 1) (cf + 1) hs hr oa) as ->.
    { simpl. unfold on_failure. simpl. split_if; [lia|done]. }
    destruct (IH (mk th rt hm Closed (fc + 1) (cf + 1) hs hr oa)) as (-> & -> & ->);
      simpl; [done|lia|lia|]. repeat split; lia.
Qed.

(** A fresh breaker stays Closed, admitting every request, through any
    number of failures below the threshold, and the failure that reaches the
    threshold opens it: it then rejects every request until the reset timeout
    has elapsed since that failure, and admits the first one after it. *)
Theorem breaker_trips_at_threshold th rt hm nows last now :
  zlen nows = th - 1 ->
  let closed := run (Failure <$> nows) (create th rt hm) in
  let opened := exec (Failure last) closed in
  fst (allow_request now closed) = true /\
  state opened = Open /\
  fst (allow_request now opened) = (rt * 1000000 <=? now - last).
Proof.
  intros Hl closed opened.
  destruct (closed_failures nows (create th rt hm)) as (H1 & H2 & H3);
    simpl; [done|lia|lia|]. fold closed in H1, H2, H3. simpl in H2, H3.
  assert (exec (Failure last) closed =
          transition_to_open last
            (mk (failure_threshold closed) (reset_timeout_ms closed)
               (half_open_max_requests closed) (state closed)
               (failure_count closed + 1) (consecutive_failures closed + 1)
               (half_open_successes closed) (half_open_requests closed)
               (opened_at closed))) as Ho.
  { simpl. unfold on_failure. simpl. rewrite H1. split_if; [done|lia]. }
  assert (reset_timeout_ms closed = rt) as Hr.
  { subst closed. change rt with (reset_timeout_ms (create th rt hm)) at 2.
    by rewrite run_reset_timeout. }
  subst opened. rewrite Ho. unfold allow_request, reset_timeout_ns. rewrite H1. simpl.
  rewrite Hr. repeat split. by split_if.
Qed.

(** Applied with the gateway's threshold of five. *)
Lemma breaker_trips_at_threshold_witness :
  zlen [1; 2; 3; 4] = 5 - 1 /\
  fst (allow_request 6000000004 (run (Failure <$> [1; 2; 3; 4; 5]) (create 5 6000 3))) = false.
Proof.
  split; [reflexivity|].
  pose proof (breaker_trips_at_threshold 5 6000 3 [1; 2; 3; 4] 5 6000000004 eq_refl)
    as (_ & _ & H).
  exact H.
Defined.

(** ** Probing *)

Lemma admitted_half_open nows b :
  state b = HalfOpen -> half_open_requests b <= half_open_max_requests b ->
  admitted nows b =
  Z.min (zlen nows) (half_open_max_requests b - half_open_requests b).
Proof.
  revert b; induction nows as [|now nows IH]; intros b Hs Hr; [unfold zlen; simpl; lia|].
  assert (zlen (now :: nows) = 1 + zlen nows) as E by (apply zlen_cons).
  pose proof (zlen_nonneg nows). simpl. unfold allow_request. rewrite Hs.
  split_if; rewrite IH; simpl; try done; lia.
Qed.

(** When the reset timeout of an open breaker has elapsed and no result is
    reported meanwhile, a burst of requests gets exactly one more probe through
    than [half_open_max_requests]: the request that switches to HalfOpen is not
    counted. *)
Theorem half_open_admits_max_plus_one b now nows :
  state b = Open -> 0 <= half_open_max_requests b ->
  reset_timeout_ms b * 1000000 <= now - opened_at b ->
  admitted (now :: nows) b = 1 + Z.min (zlen nows) (half_open_max_requests b).
Proof.
  intros Hs Hm Ht. simpl. unfold allow_request, reset_timeout_ns. rewrite Hs.
  split_if; [|lia]. rewrite admitted_half_open; simpl; try done; lia.
Qed.

(** Applied: with a limit of three, four of six requests are admitted. *)
Lemma half_open_admits_max_plus_one_witness :
  admitted [10; 11; 12; 13; 14; 15] (transition_to_open 0 (create 5 0 3)) = 4.
Proof.
  apply (half_open_admits_max_plus_one (transition_to_open 0 (create 5 0 3))
           10 [11; 12; 13; 14; 15]); [reflexivity|simpl; lia|simpl; lia].
Defined.

(** The first reported success of a single outstanding probe closes the
    breaker and clears its counters, whatever [half_open_max_requests] is; the
    first reported failure reopens it with a fresh timeout. *)
Theorem first_probe_decides b now done_at :
  state b = Open -> reset_timeout_ms b * 1000000 <= now - opened_at b ->
  let probing := exec (Allow now) b in
  on_success probing = reset b /\
  state (on_failure done_at probing) = Open /\
  opened_at (on_failure done_at probing) = done_at.
Proof.
  intros Hs Ht. simpl. unfold allow_request, reset_timeout_ns. rewrite Hs.
  split_if; [|lia]. done.
Qed.

(** Applied with a limit of three probes. *)
Lemma first_probe_decides_witness :
  state (on_success (exec (Allow 10) (transition_to_open 0 (create 5 0 3)))) = Closed.
Proof.
  destruct (first_probe_decides (transition_to_open 0 (create 5 0 3)) 10 11)
    as (-> & _ & _); [reflexivity|simpl; lia|reflexivity].
Defined.

End CircuitBreaker.
