(* ===== verification/LoadBalancer.v ===== *)
(** * LoadBalancer: src/proxy/load_balancer.cpp

    The balancer's state is the round-robin counter (a [size_t] that wraps) and
    the connection counts per backend key.  [conn_counts_[k]] inserts a zero for
    an unknown key, as [std::unordered_map] does.  The value drawn by
    [uniform_int_distribution] is an argument of [select].  [Balancer] is what the
    request pipeline relies on, whatever the algorithm. *)

From S2P Require Import Prelude Utils Config.

Module LoadBalancer.
Import Config.
Open Scope Z_scope.

Inductive LBAlgorithm := RoundRobin | Random | LeastConnections.

Record t := mk {
  algo : LBAlgorithm;
  rr_counter : Z;
  conn_counts : gmap bytes Z
}.

Definition create (a : LBAlgorithm) : t := mk a 0 ∅.

Definition make_key (b : Backend) : bytes := Utils.make_key (host b) (port b).

(** The value and the map after an access [conn_counts_[k]]. *)
Definition count_of (k : bytes) (m : gmap bytes Z) : Z := default 0 (m !! k).
Definition index (k : bytes) (m : gmap bytes Z) : gmap bytes Z := <[k := count_of k m]> m.

Definition no_backend : Backend := mkBackend [] 0.

Definition set_counts (m : gmap bytes Z) (s : t) : t := mk (algo s) (rr_counter s) m.

Definition on_connect (b : Backend) (s : t) : t :=
  let k := make_key b in
  set_counts (<[k := u64 (count_of k (conn_counts s) + 1)]> (conn_counts s)) s.

Definition on_disconnect (b : Backend) (s : t) : t :=
  let k := make_key b in
  let m := index k (conn_counts s) in
  set_counts (if 0 <? count_of k m then <[k := u64 (count_of k m - 1)]> m else m) s.

(** [fetch_add] returns the old value and wraps at 2^64. *)
Definition select_roundRobin (bs : list Backend) (s : t) : Backend * t :=
  (default no_backend (bs !! Z.to_nat (rr_counter s mod zlen bs)),
   mk (algo s) (u64 (rr_counter s + 1)) (conn_counts s)).

Definition select_random (draw : nat) (bs : list Backend) (s : t) : Backend * t :=
  (default no_backend (bs !! draw), s).

(** The loop over [backends[1..]]; counts are read into an [int]. *)
Fixpoint least_go (best : Backend) (min_conn : Z) (rest : list Backend) (m : gmap bytes Z) :
    Backend * gmap bytes Z :=
  match rest with
  | [] => (best, m)
  | b :: rest' =>
      let m := index (make_key b) m in
      let count := i32 (count_of (make_key b) m) in
      if count <? min_conn then least_go b count rest' m else least_go best min_conn rest' m
  end.

Definition select_leastConnections (bs : list Backend) (s : t) : Backend * t :=
  let first := default no_backend (head bs) in
  let m := index (make_key first) (conn_counts s) in
  let '(best, m) := least_go first (i32 (count_of (make_key first) m)) (tail bs) m in
  (best, set_counts (<[make_key best := u64 (count_of (make_key best) m + 1)]> m) s).

Definition select (draw : nat) (bs : list Backend) (s : t) : Backend * t :=
  match bs with
  | [] => (no_backend, s)
  | [b] => (b, s)
  | _ =>
      match algo s with
      | RoundRobin => select_roundRobin bs s
      | Random => select_random draw bs s
      | LeastConnections => select_leastConnections bs s
      end
  end.

(** ** What the balancer promises to the request pipeline *)

(** A balancer state with the operations the pipeline calls. *)
Class Balancer (B : Type) := {
  pick : nat -> list Backend -> B -> Backend * B;
  acquired : Backend -> B -> B;
  released : Backend -> B -> B;
  pick_member : forall draw bs s, bs <> [] -> (draw < length bs)%nat -> (pick draw bs s).1 ∈ bs;
  pick_empty : forall draw s, (pick draw [] s).1 = no_backend
}.

Lemma least_go_member best n rest m :
  (least_go best n rest m).1 = best \/ (least_go best n rest m).1 ∈ rest.
Proof.
  revert best n m; induction rest as [|b rest IH]; intros best n m; simpl; [by left|].
  split_if.
  - destruct (IH b (i32 (count_of (make_key b) (index (make_key b) m))) (index (make_key b) m))
      as [->|H]; right; set_solver.
  - destruct (IH best n (index (make_key b) m)) as [->|H]; [by left|right; set_solver].
Qed.

Lemma lookup_default_member (bs : list Backend) i :
  (i < length bs)%nat -> default no_backend (bs !! i) ∈ bs.
Proof.
  intros Hi. destruct (lookup_lt_is_Some_2 bs i Hi) as [b Hb]. rewrite Hb. simpl.
  by eapply list_elem_of_lookup_2.
Qed.

Lemma select_member draw bs s :
  bs <> [] -> (draw < length bs)%nat -> (select draw bs s).1 ∈ bs.
Proof.
  intros Hne Hd. destruct bs as [|b [|b2 bs]]; [done|simpl; set_solver|].
  unfold select. destruct (algo s).
  - apply lookup_default_member.
    pose proof (Z.mod_pos_bound (rr_counter s) (zlen (b :: b2 :: bs)) (zlen_pos _ Hne)).
    unfold zlen in *. lia.
  - by apply lookup_default_member.
  - unfold select_leastConnections. simpl head. simpl tail.
    set (m := index _ _).
    destruct (least_go_member (default no_backend (Some b))
      (i32 (count_of (make_key (default no_backend (Some b))) m)) (b2 :: bs) m) as [H|H];
      destruct (least_go _ _ _ _) as [best m']; simpl in *; set_solver.
Qed.

#[global] Instance LoadBalancer_Balancer : Balancer t := {
  pick := select;
  acquired := on_connect;
  released := on_disconnect;
  pick_member := select_member;
  pick_empty := fun _ _ => eq_refl
}.

(** ** Round robin *)

(** [n] selections in a row from the same list. *)
Fixpoint selections (n : nat) (bs : list Backend) (s : t) : list Backend * t :=
  match n with
  | O => ([], s)
  | S n' =>
      let '(b, s1) := select 0 bs s in
      let '(rest, s2) := selections n' bs s1 in (b :: rest, s2)
  end.

Lemma selections_app n k bs s :
  selections (n + k) bs s =
  ((selections n bs s).1 ++ (selections k bs (selections n bs s).2).1,
   (selections k bs (selections n bs s).2).2).
Proof.
  revert s; induction n as [|n IH]; intros s; simpl; [by destruct (selections k bs s)|].
  destruct (select 0 bs s) as [b s1]. rewrite IH. by destruct (selections n bs s1).
Qed.

Lemma rr_selections n bs s :
  (2 <= length bs)%nat -> algo s = RoundRobin -> 0 <= rr_counter s < two64 ->
  rr_counter s + Z.of_nat n <= two64 ->
  (selections n bs s).1 =
    map (fun i => default no_backend (bs !! (Z.to_nat (rr_counter s + Z.of_nat i) mod length bs)%nat))
        (seq 0 n) /\
  algo (selections n bs s).2 = RoundRobin /\
  rr_counter (selections n bs s).2 = u64 (rr_counter s + Z.of_nat n).
Proof.
  intros Hl. revert s; induction n as [|n IH]; intros s Ha Hc Hw.
  { simpl. rewrite Z.add_0_r, u64_small by lia. done. }
  destruct bs as [|b1 [|b2 bs]]; [simpl in Hl; lia..|]. set (L := b1 :: b2 :: bs) in *.
  assert (select 0 L s = select_roundRobin L s) as Es by (unfold L, select; by rewrite Ha).
  cbn [selections]. rewrite Es. unfold select_roundRobin.
  specialize (IH (mk (algo s) (u64 (rr_counter s + 1)) (conn_counts s)) Ha).
  destruct (selections n L _) as [rest s2]. cbn [fst snd rr_counter] in *.
  destruct (decide (n = 0)%nat) as [->|Hn0].
  - destruct IH as (-> & -> & Hr); [apply u64_range|pose proof (u64_range (rr_counter s + 1)); lia|].
    cbn [map seq]. rewrite Hr. split; [|split; [done|]].
    + do 3 f_equal. rewrite Z.add_0_r. unfold zlen. rewrite Z2Nat.inj_mod by lia.
      by rewrite Nat2Z.id.
    + by rewrite u64_idemp_add_l, Z.add_0_r.
  - rewrite u64_small in IH by lia.
    destruct IH as (-> & -> & Hr); [lia|lia|]. split; [|split; [done|]].
    + cbn [seq map]. f_equal.
      * do 2 f_equal. rewrite Z.add_0_r. unfold zlen. rewrite Z2Nat.inj_mod by lia.
        by rewrite Nat2Z.id.
      * rewrite <- seq_shift, map_map. apply map_ext. intros i. do 4 f_equal. lia.
    + rewrite Hr. f_equal. lia.
Qed.

(** A window of [length bs] consecutive counter values visits every index once. *)
Lemma window_permutation (c : nat) (bs : list Backend) :
  map (fun i => default no_backend (bs !! ((c + i) mod length bs)%nat)) (seq 0 (length bs)) ≡ₚ bs.
Proof.
  destruct (decide (bs = [])) as [->|Hne]; [done|].
  assert (length bs <> 0)%nat as Hl by (destruct bs; [done|simpl; lia]).
  set (k := (c mod length bs)%nat). assert (k < length bs)%nat as Hk by by apply Nat.mod_upper_bound.
  assert (map (fun i => default no_backend (bs !! ((c + i) mod length bs)%nat)) (seq 0 (length bs))
          = drop k bs ++ take k bs) as ->.
  2: { rewrite Permutation_app_comm. by rewrite take_drop. }
  apply list_eq. intros i. destruct (decide (i < length bs)%nat) as [Hi|Hi].
  - rewrite list_lookup_fmap, lookup_seq_lt by done. simpl.
    replace ((c + i) mod length bs)%nat with ((k + i) mod length bs)%nat
      by (unfold k; by rewrite Nat.Div0.add_mod_idemp_l).
    destruct (decide (k + i < length bs)%nat) as [Hki|Hki].
    + rewrite Nat.mod_small by done. rewrite lookup_app_l by (rewrite length_drop; lia).
      rewrite lookup_drop. destruct (lookup_lt_is_Some_2 bs (k + i) Hki) as [x Hx]. by rewrite Hx.
    + rewrite lookup_app_r by (rewrite length_drop; lia). rewrite length_drop.
      replace ((k + i) mod length bs)%nat with (k + i - length bs)%nat.
      2: { symmetry. rewrite <- (Nat.mod_small (k + i - length bs) (length bs)) by lia.
           rewrite <- (Nat.Div0.mod_add (k + i - length bs) 1 (length bs)). f_equal. lia. }
      rewrite lookup_take_lt by lia.
      replace (i - (length bs - k))%nat with (k + i - length bs)%nat by lia.
      destruct (lookup_lt_is_Some_2 bs (k + i - length bs)) as [x Hx]; [lia|]. by rewrite Hx.
  - rewrite !lookup_ge_None_2; [done| |].
    + rewrite length_app, length_drop, length_take. lia.
    + rewrite length_map, length_seq. lia.
Qed.

(** C30. Round-robin fairness: any [k * n] consecutive selections from [n >= 2]
    backends choose every backend exactly [k] times, from any counter value, as
    long as the counter does not wrap. *)
Theorem round_robin_fair (k : nat) (bs : list Backend) (s : t) :
  (2 <= length bs)%nat -> algo s = RoundRobin -> 0 <= rr_counter s < two64 ->
  rr_counter s + Z.of_nat (k * length bs) < two64 ->
  (selections (k * length bs) bs s).1 ≡ₚ concat (repeat bs k).
Proof.
  intros Hl. revert s; induction k as [|k IH]; intros s Ha Hc Hw; [done|].
  cbn [Nat.mul repeat concat]. rewrite selections_app. cbn [fst].
  destruct (rr_selections (length bs) bs s Hl Ha Hc) as (-> & Ha' & Hr); [simpl in Hw; lia|].
  rewrite IH; [|done|rewrite Hr; apply u64_range|rewrite Hr, u64_small; simpl in Hw; lia].
  f_equiv. etrans; [|apply (window_permutation (Z.to_nat (rr_counter s)))].
  match goal with |- map ?f ?l ≡ₚ map ?g _ => replace (map f l) with (map g l); [done|] end.
  apply map_ext. intros i. do 3 f_equal. lia.
Qed.

(** C30 applied to six selections from three backends, starting at counter 4. *)
Lemma round_robin_fair_witness :
  (selections 6 (map (mkBackend (lit "h")) [1; 2; 3]) (mk RoundRobin 4 ∅)).1
  ≡ₚ concat (repeat (map (mkBackend (lit "h")) [1; 2; 3]) 2).
Proof.
  apply (round_robin_fair 2 (map (mkBackend (lit "h")) [1; 2; 3]) (mk RoundRobin 4 ∅)).
  - simpl; lia.
  - reflexivity.
  - vm_compute. split; [discriminate|reflexivity].
  - vm_compute. reflexivity.
Defined.

(** ** Least connections *)

(** The count of a backend. *)
Definition conns (b : Backend) (s : t) : Z := count_of (make_key b) (conn_counts s).

(** No count has left the range of [int], into which the selection reads it. *)
Definition small_counts (bs : list Backend) (s : t) : Prop :=
  forall b, b ∈ bs -> 0 <= conns b s < INT_MAX.

Lemma count_of_index k k' m : count_of k (index k' m) = count_of k m.
Proof.
  unfold index, count_of. destruct (decide (k' = k)) as [->|Hne].
  - by rewrite lookup_insert_eq.
  - by rewrite lookup_insert_ne.
Qed.

Lemma count_of_insert k k' v m :
  count_of k (<[k' := v]> m) = if decide (k' = k) then v else count_of k m.
Proof.
  unfold count_of. destruct (decide (k' = k)) as [->|Hne].
  - by rewrite lookup_insert_eq.
  - by rewrite lookup_insert_ne.
Qed.

Lemma make_key_inj_backend a b : make_key a = make_key b -> a = b.
Proof. intros H. apply Utils.make_key_inj in H as [H1 H2]. by destruct a, b; simpl in *; subst. Qed.

Lemma least_go_spec best n rest m :
  n = count_of (make_key best) m ->
  (forall b, b ∈ rest -> 0 <= count_of (make_key b) m < INT_MAX) ->
  (forall k, count_of k (least_go best n rest m).2 = count_of k m) /\
  (forall b, b ∈ best :: rest ->
     count_of (make_key (least_go best n rest m).1) m <= count_of (make_key b) m).
Proof.
  revert best n m; induction rest as [|c rest IH]; intros best n m Hn Hs.
  { split; [done|]. intros b Hb. apply list_elem_of_singleton in Hb as ->. simpl. lia. }
  simpl. assert (0 <= count_of (make_key c) m < INT_MAX) as Hc by (apply Hs; set_solver).
  rewrite count_of_index, i32_small by lia.
  assert (forall b, b ∈ rest -> 0 <= count_of (make_key b) (index (make_key c) m) < INT_MAX) as Hs'.
  { intros b Hb. rewrite count_of_index. apply Hs. set_solver. }
  destruct (Z.ltb_spec (count_of (make_key c) m) n) as [Hlt|Hge].
  - destruct (IH c (count_of (make_key c) m) (index (make_key c) m)) as [H1 H2];
      [by rewrite count_of_index|done|].
    split; [intros k; by rewrite H1, count_of_index|].
    intros b Hb. assert (forall x, x ∈ c :: rest ->
      count_of (make_key (least_go c (count_of (make_key c) m) rest (index (make_key c) m)).1) m
      <= count_of (make_key x) m) as H3.
    { intros x Hx. specialize (H2 x Hx). by rewrite !count_of_index in H2. }
    apply elem_of_cons in Hb as [->|Hb]; [|by apply H3].
    specialize (H3 c ltac:(set_solver)). lia.
  - destruct (IH best n (index (make_key c) m)) as [H1 H2]; [by rewrite count_of_index|done|].
    split; [intros k; by rewrite H1, count_of_index|].
    intros b Hb. assert (forall x, x ∈ best :: rest ->
      count_of (make_key (least_go best n rest (index (make_key c) m)).1) m
      <= count_of (make_key x) m) as H3.
    { intros x Hx. specialize (H2 x Hx). by rewrite !count_of_index in H2. }
    apply elem_of_cons in Hb as [->|Hb]; [apply H3; set_solver|].
    apply elem_of_cons in Hb as [->|Hb]; [|apply H3; set_solver].
    specialize (H3 best ltac:(set_solver)). lia.
Qed.

(** A least-connections selection takes a backend with the fewest connections and
    counts one more for it, leaving the others alone. *)
Lemma least_connections_select draw bs s :
  (2 <= length bs)%nat -> algo s = LeastConnections -> small_counts bs s ->
  let '(best, s') := select draw bs s in
  best ∈ bs /\ algo s' = LeastConnections /\ (forall b, b ∈ bs -> conns best s <= conns b s) /\
  forall b, conns b s' = if decide (b = best) then conns b s + 1 else conns b s.
Proof.
  intros Hl Ha Hs. destruct bs as [|b1 [|b2 bs]]; [simpl in Hl; lia..|].
  unfold select. rewrite Ha. unfold select_leastConnections.
  change (default no_backend (head (b1 :: b2 :: bs))) with b1. simpl tail.
  set (m := index (make_key b1) (conn_counts s)).
  assert (forall b, b ∈ b1 :: b2 :: bs -> 0 <= count_of (make_key b) m < INT_MAX) as Hsm.
  { intros b Hb. unfold m. rewrite count_of_index. by apply Hs. }
  rewrite i32_small by (specialize (Hsm b1 ltac:(set_solver)); lia).
  destruct (least_go_spec b1 (count_of (make_key b1) m) (b2 :: bs) m) as [H1 H2];
    [done|intros b Hb; apply Hsm; set_solver|].
  destruct (least_go_member b1 (count_of (make_key b1) m) (b2 :: bs) m) as [Hm|Hm];
    destruct (least_go _ _ _ _) as [best m']; simpl in Hm, H1, H2;
    (assert (best ∈ b1 :: b2 :: bs) as Hin by set_solver); clear Hm.
  all: split; [done|]; split; [done|].
  all: split; [intros b Hb; specialize (H2 b Hb); unfold m in H2; by rewrite !count_of_index in H2|].
  all: intros b; unfold conns, set_counts; cbn [conn_counts]; rewrite count_of_insert, !H1;
    unfold m; rewrite !count_of_index;
    (specialize (Hs best Hin); unfold conns in Hs).
  all: rewrite u64_small by (unfold two64, INT_MAX in *; lia).
  all: destruct (decide (b = best)) as [->|Hne]; [by rewrite decide_True|].
  all: rewrite decide_False; [done|]; intros E; by apply make_key_inj_backend in E.
Qed.

(** Any two backends of the list differ by at most one connection. *)
Definition balanced (bs : list Backend) (s : t) : Prop :=
  forall a b, a ∈ bs -> b ∈ bs -> conns a s <= conns b s + 1.

(** Least-connections balance: starting from balanced counts, any number of
    selections without disconnections keeps every two backends within one
    connection of each other. *)
Theorem least_connections_balanced (n : nat) (bs : list Backend) (s : t) :
  (2 <= length bs)%nat -> algo s = LeastConnections ->
  (forall b, b ∈ bs -> 0 <= conns b s < INT_MAX - Z.of_nat n) ->
  balanced bs s -> balanced bs (selections n bs s).2.
Proof.
  intros Hl. revert s; induction n as [|n IH]; intros s Ha Hs Hb; [done|]. cbn [selections].
  pose proof (least_connections_select 0 bs s Hl Ha) as Hsel.
  destruct (select 0 bs s) as [best s1].
  destruct Hsel as (Hin & Ha1 & Hmin & Hc); [intros b Hb'; specialize (Hs b Hb'); lia|].
  specialize (IH s1 Ha1). destruct (selections n bs s1) as [rest s2]. cbn [snd] in *. apply IH.
  - intros b Hb'. rewrite Hc. specialize (Hs b Hb'). destruct (decide _); lia.
  - intros a b Hain Hbin. rewrite !Hc. specialize (Hb a b Hain Hbin).
    pose proof (Hmin b Hbin). destruct (decide (a = best)) as [->|], (decide (b = best)); lia.
Qed.

(** Applied to five selections from two fresh backends. *)
Lemma least_connections_balanced_witness :
  balanced (map (mkBackend (lit "h")) [1; 2])
    (selections 5 (map (mkBackend (lit "h")) [1; 2]) (create LeastConnections)).2.
Proof.
  apply (least_connections_balanced 5 (map (mkBackend (lit "h")) [1; 2]) (create LeastConnections)).
  - simpl; lia.
  - reflexivity.
  - intros b _. unfold conns, count_of. simpl. rewrite lookup_empty. simpl. unfold INT_MAX. lia.
  - intros a b _ _. unfold conns, count_of. simpl. rewrite !lookup_empty. simpl. lia.
Defined.

(** ** Connection accounting *)

Lemma conns_on_connect a b s :
  conns a (on_connect b s) = if decide (a = b) then u64 (conns a s + 1) else conns a s.
Proof.
  unfold conns, on_connect, set_counts. simpl. rewrite count_of_insert.
  destruct (decide (a = b)) as [->|Hne]; [by rewrite decide_True|].
  rewrite decide_False; [done|]. intros E. by apply make_key_inj_backend in E.
Qed.

Lemma conns_on_disconnect a b s :
  conns a (on_disconnect b s) =
  if decide (a = b) then (if 0 <? conns a s then u64 (conns a s - 1) else conns a s) else conns a s.
Proof.
  unfold conns, on_disconnect, set_counts. simpl. rewrite !count_of_index.
  destruct (decide (a = b)) as [->|Hne].
  - split_if; [|by rewrite count_of_index]. by rewrite count_of_insert, decide_True.
  - split_if; [|by rewrite count_of_index]. rewrite count_of_insert, decide_False.
    + by rewrite count_of_index.
    + intros E. by apply make_key_inj_backend in E.
Qed.

(** The accounting of one request as the gateway performs it (select, then
    on_connect, then on_disconnect of the chosen backend): under round robin the
    counts end where they started, under least connections the chosen backend
    keeps one connection too many for ever, because [select] has already counted
    the connection that [on_connect] counts again. *)
Theorem request_accounting (draw : nat) (bs : list Backend) (s : t) :
  (2 <= length bs)%nat -> algo s <> Random -> small_counts bs s -> (forall b, 0 <= conns b s < INT_MAX) ->
  let '(best, s1) := select draw bs s in
  forall b, conns b (on_disconnect best (on_connect best s1)) =
    conns b s + match algo s with
                | LeastConnections => if decide (b = best) then 1 else 0
                | _ => 0
                end.
Proof.
  intros Hl Hr Hs Hall.
  destruct (algo s) eqn:Ha; [|done|].
  - destruct bs as [|b1 [|b2 bs]]; [simpl in Hl; lia..|].
    unfold select. rewrite Ha. unfold select_roundRobin. set (best := default _ _).
    intros b. rewrite conns_on_disconnect, conns_on_connect.
    change (conns b (mk _ _ (conn_counts s))) with (conns b s). specialize (Hall b).
    destruct (decide (b = best)); [|lia].
    rewrite u64_small by (unfold two64, INT_MAX in *; lia).
    destruct (Z.ltb_spec 0 (conns b s + 1)); [|lia]. rewrite u64_small; unfold two64, INT_MAX in *; lia.
  - pose proof (least_connections_select draw bs s Hl Ha Hs) as Hsel.
    destruct (select draw bs s) as [best s1]. destruct Hsel as (_ & _ & _ & Hc).
    intros b. rewrite conns_on_disconnect, conns_on_connect, Hc. specialize (Hall b).
    destruct (decide (b = best)); [|lia].
    rewrite u64_small by (unfold two64, INT_MAX in *; lia).
    destruct (Z.ltb_spec 0 (conns b s + 1 + 1)); [|lia]. rewrite u64_small; unfold two64, INT_MAX in *; lia.
Qed.

(** Applied to a fresh least-connections balancer. *)
Lemma request_accounting_witness :
  let bs := map (mkBackend (lit "h")) [1; 2] in
  let '(best, s1) := select 0 bs (create LeastConnections) in
  conns best (on_disconnect best (on_connect best s1)) = 1.
Proof.
  cbv zeta.
  pose proof (request_accounting 0 (map (mkBackend (lit "h")) [1; 2]) (create LeastConnections)) as H.
  destruct (select 0 (map (mkBackend (lit "h")) [1; 2]) (create LeastConnections)) as [best s1].
  rewrite H.
  - simpl algo. cbv iota. rewrite decide_True by reflexivity.
    unfold conns, count_of. simpl. rewrite lookup_empty. reflexivity.
  - simpl; lia.
  - discriminate.
  - intros b _. unfold conns, count_of. simpl. rewrite lookup_empty. simpl. unfold INT_MAX. lia.
  - intros b. unfold conns, count_of. simpl. rewrite lookup_empty. simpl. unfold INT_MAX. lia.
Defined.

End LoadBalancer.
