(* ===== verification/BackendConnection.v ===== *)
(** * BackendConnection: src/proxy/backend.cpp

    One TCP connection to a backend.  What the kernel answers is a script: one
    record for [connect], one event per turn of the [poll]/[send] and
    [poll]/[recv] loops, whose [poll] answer already reflects the timeout the code
    asks for.  A loop whose script is used up is still waiting and yields [None]. *)

From S2P Require Import Prelude Utils.

Module BackendConnection.
Open Scope Z_scope.

Definition EAGAIN : Z := 11.
Definition EINPROGRESS : Z := 115.

Record t := mk { fd : Z; host : bytes; port : Z; last_activity : Z }.

Definition create (h : bytes) (p : Z) : t := mk (-1) h p 0.

Definition touch (now : Z) (c : t) : t := mk (fd c) (host c) (port c) now.

Definition close (c : t) : t :=
  if 0 <=? fd c then mk (-1) (host c) (port c) (last_activity c) else c.

(** ** Connecting *)

Record connect_env := {
  socket_ret : Z; pton_ret : Z; connect_ret : Z; connect_errno : Z;
  poll_ret : Z; getsockopt_ret : Z; so_error : Z; now : Z
}.

Definition connect (e : connect_env) (c : t) : bool * t :=
  let c := mk (socket_ret e) (host c) (port c) (last_activity c) in
  if fd c <? 0 then (false, c)
  else if pton_ret e <=? 0 then (false, close c)
  else if connect_ret e =? 0 then (true, touch (now e) c)
  else if negb (connect_errno e =? EINPROGRESS) then (false, close c)
  else if poll_ret e <=? 0 then (false, close c)
  else if (getsockopt_ret e <? 0) || negb (so_error e =? 0) then (false, close c)
  else (true, touch (now e) c).

(** ** Liveness *)

Record alive_env := { sockopt_ret : Z; sock_err : Z; peek_ret : Z; peek_errno : Z }.

Definition is_alive (e : alive_env) (c : t) : bool :=
  if fd c <? 0 then false
  else if sockopt_ret e <? 0 then false
  else if negb (sock_err e =? 0) then false
  else if (peek_ret e <? 0) && negb (peek_errno e =? EAGAIN) then false
  else if peek_ret e =? 0 then false
  else true.

(** ** Sending *)

Record send_event := { sp_poll : Z; sp_ret : Z; sp_errno : Z }.

(** The loop: result, bytes handed to the kernel so far. *)
Fixpoint send_loop (script : list send_event) (data : bytes) (sent : Z) (wire : bytes) :
    option (bool * bytes) :=
  if sent <? zlen data then
    match script with
    | [] => None
    | e :: script' =>
        if sp_poll e <=? 0 then Some (false, wire)
        else if 0 <? sp_ret e then
          send_loop script' data (u64 (sent + sp_ret e))
            (wire ++ slice (Z.to_nat sent) (Z.to_nat (sp_ret e)) data)
        else if (sp_ret e <? 0) && (sp_errno e =? EAGAIN) then send_loop script' data sent wire
        else Some (false, wire)
    end
  else Some (true, wire).

Definition send_all (script : list send_event) (data : bytes) (c : t) : option (bool * bytes) :=
  if fd c <? 0 then Some (false, []) else send_loop script data 0 [].

(** ** Receiving *)

Inductive recv_result := RData (d : bytes) | REof | RErr (errno : Z).
Record recv_event := { rp_poll : Z; rp_recv : recv_result }.

Fixpoint skip_sp (s : bytes) : bytes :=
  match s with
  | c :: s' => if Ascii.eqb c SP then skip_sp s' else s
  | [] => []
  end.

(** [content_length * 10 + digit] in a [ssize_t]: the wrap-around of 64-bit two's complement
    where C++ leaves the overflow undefined. *)
Fixpoint read_digits (s : bytes) (acc : Z) : Z :=
  match s with
  | c :: s' => if Utils.isdigit c then read_digits s' (i64 (acc * 10 + (code c - 48))) else acc
  | [] => acc
  end.

(** The Content-Length of a response head, 0 when there is none. *)
Definition head_content_length (headers : bytes) : Z :=
  let cl_pos :=
    match find_sub (CRLF ++ lit "Content-Length:") headers with
    | Some i => Some i
    | None => find_sub (CRLF ++ lit "content-length:") headers
    end in
  match cl_pos with
  | Some i => read_digits (skip_sp (drop (i + 17) headers)) 0
  | None => 0
  end.

(** [content_length] and [header_end] after another look at [resp]. *)
Definition parse_head (resp : bytes) (content_length : Z) (header_end : option nat) :
    Z * option nat :=
  if content_length <? 0 then
    match find_sub CRLFCRLF resp with
    | Some he => (head_content_length (take he resp), Some he)
    | None => (content_length, None)
    end
  else (content_length, header_end).

Definition response_done (resp : bytes) (content_length : Z) (header_end : option nat) : bool :=
  match header_end with
  | Some he => (0 <=? content_length) && (u64 (Z.of_nat he + 4 + content_length) <=? zlen resp)
  | None => false
  end.

(** How the receive loop ended: the bytes, whether the peer closed, and the
    events not yet looked at. *)
Record received := { resp : bytes; eof : bool; unread : list recv_event }.

Fixpoint recv_loop (script : list recv_event) (resp : bytes) (content_length : Z)
    (header_end : option nat) : option received :=
  match script with
  | [] => None
  | e :: script' =>
      if rp_poll e <=? 0 then Some {| resp := resp; eof := false; unread := script' |}
      else
        match rp_recv e with
        | RData d =>
            let resp := resp ++ d in
            let '(content_length, header_end) := parse_head resp content_length header_end in
            if response_done resp content_length header_end
            then Some {| resp := resp; eof := false; unread := script' |}
            else recv_loop script' resp content_length header_end
        | REof => Some {| resp := resp; eof := true; unread := script' |}
        | RErr errno =>
            if errno =? EAGAIN then recv_loop script' resp content_length header_end
            else Some {| resp := resp; eof := false; unread := script' |}
        end
  end.

(** [recv] only returns a positive count, so [got_data] is [resp] non-empty. *)
Definition recv_all (script : list recv_event) (now : Z) (c : t) : option (bytes * t) :=
  if fd c <? 0 then Some ([], c)
  else
    r ← recv_loop script [] (-1) None;
    if bool_decide (resp r = []) then Some ([], close c)
    else if eof r then Some (resp r, close c)
    else Some (resp r, touch now c).

(** ** Properties *)

(** [connect] leaves no open descriptor behind on any failure path, and a
    connected one on success. *)
Theorem connect_no_leak (e : connect_env) (c : t) :
  let '(ok, c') := connect e c in
  host c' = host c /\ port c' = port c /\
  if ok then 0 <= fd c' /\ fd c' = socket_ret e /\ last_activity c' = now e else fd c' < 0.
Proof.
  unfold connect, close, touch. simpl.
  repeat split_if; simpl; repeat split; lia.
Qed.

(** The kernel never accepts more than it was offered. *)
Fixpoint send_contract (script : list send_event) (room : Z) : Prop :=
  match script with
  | [] => True
  | e :: script' => sp_ret e <= room /\ send_contract script' (room - Z.max 0 (sp_ret e))
  end.

Lemma take_slice (l : bytes) i j :
  (i + j <= length l)%nat -> take i l ++ slice i j l = take (i + j) l.
Proof. intros H. unfold slice. symmetry. rewrite <- take_take_drop. done. Qed.

Lemma send_loop_prefix script data sent ok wire :
  zlen data < two64 -> 0 <= sent <= zlen data ->
  send_contract script (zlen data - sent) ->
  send_loop script data sent (take (Z.to_nat sent) data) = Some (ok, wire) ->
  exists n, wire = take n data /\ (ok = true -> wire = data).
Proof.
  intros Hl. revert sent; induction script as [|e script IH]; intros sent Hs Hc; cbn [send_loop].
  all: destruct (Z.ltb_spec sent (zlen data)) as [Hlt|Hge].
  all: try (intros [= <- <-]; exists (Z.to_nat sent); split; [done|]; intros _;
            apply take_ge; unfold zlen in *; lia).
  - done.
  - destruct Hc as [Hr Hc]. destruct (Z.leb_spec (sp_poll e) 0).
    { intros [= <- <-]. by eexists. }
    destruct (Z.ltb_spec 0 (sp_ret e)) as [Hp|Hp].
    + rewrite u64_small by lia. rewrite take_slice by (unfold zlen in *; lia).
      rewrite <- Z2Nat.inj_add by lia. rewrite Z.max_r in Hc by lia.
      apply IH; [lia|]. by replace (zlen data - (sent + sp_ret e)) with (zlen data - sent - sp_ret e) by lia.
    + destruct ((sp_ret e <? 0) && (sp_errno e =? EAGAIN)); [|intros [= <- <-]; by eexists].
      rewrite Z.max_l in Hc by lia. rewrite Z.sub_0_r in Hc. by apply IH.
Qed.

(** [send_all] sends a prefix of the request in order, and reports success
    only when all of it was accepted, however the kernel cuts the sends. *)
Theorem send_all_complete (script : list send_event) (data : bytes) (c : t) (ok : bool) (wire : bytes) :
  zlen data < two64 -> send_contract script (zlen data) ->
  send_all script data c = Some (ok, wire) ->
  exists n, wire = take n data /\ (ok = true -> wire = data).
Proof.
  intros Hl Hc. unfold send_all. split_if; [intros [= <- <-]; by exists 0%nat|].
  intros H. apply (send_loop_prefix script data 0 ok wire); try done; [zlen_facts; lia|].
  by rewrite Z.sub_0_r.
Qed.

(** Applied to a request accepted in two pieces after a spurious wake-up. *)
Lemma send_all_complete_witness :
  send_all [Build_send_event 1 2 0; Build_send_event 1 (-1) 11; Build_send_event 1 3 0]
    (lit "HELLO") (mk 3 [] 80 0) = Some (true, lit "HELLO") /\
  exists n, lit "HELLO" = take n (lit "HELLO").
Proof.
  split; [vm_compute; reflexivity|].
  destruct (send_all_complete
    [Build_send_event 1 2 0; Build_send_event 1 (-1) 11; Build_send_event 1 3 0]
    (lit "HELLO") (mk 3 [] 80 0) true (lit "HELLO")) as (n & H & _).
  - vm_compute. reflexivity.
  - vm_compute. repeat split; discriminate.
  - vm_compute. reflexivity.
  - exists n. exact H.
Defined.

(** A run of successful receives. *)
Definition data_events (ds : list bytes) : list recv_event :=
  map (fun d => {| rp_poll := 1; rp_recv := RData d |}) ds.

(** A response whose head ends at [he] and whose size is the declared one. *)
Definition sized_response (r : bytes) (he : nat) : Prop :=
  find_sub CRLFCRLF r = Some he /\
  zlen r = Z.of_nat he + 4 + head_content_length (take he r) /\ zlen r < two64.

Lemma sized_length_nonneg r he : sized_response r he -> 0 <= head_content_length (take he r).
Proof.
  intros (Hf & Hl & _). apply find_sub_Some in Hf as [[b Hb] Hle]. set (n := head_content_length _) in *.
  apply (f_equal zlen) in Hb. rewrite !zlen_app in Hb. change (zlen CRLFCRLF) with 4 in Hb.
  assert (zlen (take he r) = Z.of_nat he) by (unfold zlen; rewrite length_take; lia). zlen_facts. lia.
Qed.

(** What the loop knows after [got] bytes of a response. *)
Definition scanned (r got : bytes) (he : nat) (cl : Z) (hd : option nat) : Prop :=
  (cl = -1 /\ find_sub CRLFCRLF got = None) \/
  (cl = head_content_length (take he r) /\ hd = Some he).

Lemma parse_head_scanned r got rest he cl hd d :
  sized_response r he -> r = got ++ d ++ rest -> scanned r got he cl hd ->
  scanned r (got ++ d) he (parse_head (got ++ d) cl hd).1 (parse_head (got ++ d) cl hd).2 /\
  response_done (got ++ d) (parse_head (got ++ d) cl hd).1 (parse_head (got ++ d) cl hd).2
  = bool_decide (rest = []).
Proof.
  intros Hz Hr Hs. pose proof (sized_length_nonneg r he Hz) as Hn. destruct Hz as (Hf & Hlen & Hb).
  set (n := head_content_length (take he r)) in *.
  assert (Hdone : response_done (got ++ d) n (Some he) = bool_decide (rest = [])).
  { unfold response_done. rewrite (proj2 (Z.leb_le 0 n) Hn). cbn [andb].
    rewrite u64_small by lia. rewrite Hr, !zlen_app in Hlen. rewrite zlen_app.
    destruct (decide (rest = [])) as [E|E].
    - rewrite bool_decide_eq_true_2 by done. apply Z.leb_le.
      rewrite E, zlen_nil in Hlen. lia.
    - rewrite bool_decide_eq_false_2 by done. apply Z.leb_gt. pose proof (zlen_pos rest E). lia. }
  assert (Hpre : forall i, find_sub CRLFCRLF (got ++ d) = Some i ->
    i = he /\ take i (got ++ d) = take he r).
  { intros i Hi. assert (find_sub CRLFCRLF ((got ++ d) ++ rest) = Some i) as Hi' by by apply find_sub_app_l.
    rewrite <- app_assoc, <- Hr, Hf in Hi'. injection Hi' as ->. split; [done|].
    apply find_sub_Some in Hi as [_ Hle]. rewrite Hr, app_assoc.
    by rewrite (take_app_le (got ++ d) rest i Hle). }
  unfold parse_head. destruct Hs as [[-> Hnone]|[-> ->]].
  - simpl (-1 <? 0). destruct (find_sub CRLFCRLF (got ++ d)) as [i|] eqn:Ei.
    + destruct (Hpre i eq_refl) as [-> ->]. split; [by right|]. apply Hdone.
    + cbn [fst snd]. split; [by left|]. symmetry. apply bool_decide_eq_false_2. intros ->.
      rewrite app_nil_r in Hr. congruence.
  - fold n. destruct (Z.ltb_spec n 0); [lia|]. cbn [fst snd]. split; [by right|]. apply Hdone.
Qed.

Lemma recv_loop_sized ds r he got cl hd rest :
  sized_response r he -> Forall (.≠ []) ds -> ds <> [] -> r = got ++ concat ds ->
  scanned r got he cl hd ->
  recv_loop (data_events ds ++ rest) got cl hd = Some {| resp := r; eof := false; unread := rest |}.
Proof.
  intros Hr. revert got cl hd; induction ds as [|d ds IH]; intros got cl hd Hds Hne Hc Hs; [done|].
  apply Forall_cons in Hds as [Hd Hds]. simpl. cbn [concat] in Hc.
  destruct (parse_head_scanned r got (concat ds) he cl hd d Hr Hc Hs) as [Hs' Hdone].
  destruct (parse_head (got ++ d) cl hd) as [cl' hd']. cbn [fst snd] in *.
  rewrite Hdone. split_if.
  - assert (ds = []) as ->.
    { destruct ds as [|d' ds]; [done|]. apply Forall_cons in Hds as [Hd' _].
      cbn [concat] in Heqb. by apply app_nil in Heqb as [? _]. }
    rewrite Hc. cbn [concat]. by rewrite app_nil_r.
  - apply IH; [done| |by rewrite <- app_assoc|done].
    intros ->. done.
Qed.

Lemma recv_all_sized ds rest r he now c :
  0 <= fd c -> sized_response r he -> Forall (.≠ []) ds -> concat ds = r ->
  recv_all (data_events ds ++ rest) now c = Some (r, touch now c).
Proof.
  intros Hfd Hr Hds Hc. unfold recv_all. destruct (Z.ltb_spec (fd c) 0); [lia|].
  assert (r <> []) as Hrne by (intros ->; by destruct Hr as [? _]).
  rewrite (recv_loop_sized ds r he [] (-1) None rest Hr Hds); [|by intros ->|done|by left].
  simpl. by rewrite bool_decide_eq_false_2.
Qed.

(** *** Responses with a Content-Length, as they are written *)

(** [needle] behind [a] is its first occurrence. *)
Definition first_at (needle a : bytes) : Prop := forall x y, a ++ needle = x ++ needle ++ y -> y = [].

(** The head announces a body of [n] bytes: in one of the two spellings, with any number of spaces,
    in decimal digits.  The capitalised spelling wins wherever it stands. *)
Inductive announces : bytes -> Z -> Prop :=
  | announces_capital a k t n :
      first_at (CRLF ++ lit "Content-Length:") a -> match t with [] => True | c :: _ => c ∉ lit "0123456789" end ->
      announces (a ++ CRLF ++ lit "Content-Length:" ++ replicate k SP ++ Utils.dec_nonneg n ++ t) n
  | announces_small a k t n :
      first_at (CRLF ++ lit "content-length:") a -> match t with [] => True | c :: _ => c ∉ lit "0123456789" end ->
      (forall x y, a ++ CRLF ++ lit "content-length:" ++ replicate k SP ++ Utils.dec_nonneg n ++ t
                   <> x ++ CRLF ++ lit "Content-Length:" ++ y) ->
      announces (a ++ CRLF ++ lit "content-length:" ++ replicate k SP ++ Utils.dec_nonneg n ++ t) n.

Lemma first_at_find needle a post : first_at needle a -> find_sub needle (a ++ needle ++ post) = Some (length a).
Proof.
  intros Ha. rewrite app_assoc. apply find_sub_app_l. destruct (find_sub_least needle a []) as (i & Hi & Hl).
  rewrite app_nil_r in Hi. apply find_sub_Some in Hi as Hi'. destruct Hi' as [[y Hy] Hle].
  pose proof (Ha _ _ Hy) as ->. rewrite app_nil_r in Hy. apply (f_equal length) in Hy. rewrite !length_app, length_take in Hy.
  rewrite length_app in Hle. rewrite Hi. f_equal. lia.
Qed.

Lemma read_digits_over s t acc :
  Forall (fun c => Utils.isdigit c = true) s -> match t with [] => True | c :: _ => Utils.isdigit c = false end ->
  read_digits (s ++ t) (i64 acc) = i64 (fold_left (fun a c => a * 10 + (code c - 48)) s acc).
Proof.
  intros Hs Ht. revert acc. induction Hs as [|c s Hc _ IH]; intros acc; cbn [app read_digits fold_left].
  - destruct t as [|c t]; [done|]. cbn. by rewrite Ht.
  - by rewrite Hc, i64_linear.
Qed.

Lemma skip_sp_over k c s : c <> SP -> skip_sp (replicate k SP ++ c :: s) = c :: s.
Proof. intros Hc. induction k as [|k IH]; cbn; [|done]. by rewrite (proj2 (Ascii.eqb_neq c SP) Hc). Qed.

Lemma length_value k n t :
  0 <= n <= LONG_MAX -> match t with [] => True | c :: _ => c ∉ lit "0123456789" end ->
  read_digits (skip_sp (replicate k SP ++ Utils.dec_nonneg n ++ t)) 0 = n.
Proof.
  intros [Hn Hmax] Ht. pose proof (Utils.dec_nonneg_isdigit n Hn) as Hd. pose proof (Utils.dec_nonneg_value n Hn) as Hv.
  pose proof (Utils.dec_nonneg_nonempty n) as Hne. destruct (Utils.dec_nonneg n) as [|c s]; [done|].
  assert (Hc : c <> SP) by (intros ->; by apply Forall_cons in Hd as [? _]).
  cbn [app]. rewrite skip_sp_over by done. change 0 with (i64 0). change (c :: s ++ t) with ((c :: s) ++ t).
  rewrite read_digits_over, Hv; [apply i64_small; unfold LONG_MIN; lia|done|].
  destruct t as [|x t]; [done|]. destruct (Utils.isdigit x) eqn:E; [|done]. destruct Ht.
  apply (bool_decide_unpack _). revert E. destruct x as [[] [] [] [] [] [] [] []]; vm_compute; done.
Qed.

Lemma drop_behind (a h r : bytes) n : length h = n -> drop (length a + n) (a ++ h ++ r) = r.
Proof. intros <-. rewrite app_assoc. apply drop_app_length'. by rewrite length_app. Qed.

Lemma announces_length head n : announces head n -> 0 <= n <= LONG_MAX -> head_content_length head = n.
Proof.
  intros [a k t m Ha Ht|a k t m Ha Ht Hno] Hn; unfold head_content_length.
  - rewrite (app_assoc CRLF), (first_at_find _ a _ Ha), drop_behind by done. by apply length_value.
  - assert (E : find_sub (CRLF ++ lit "Content-Length:") (a ++ CRLF ++ lit "content-length:" ++ replicate k SP ++ Utils.dec_nonneg m ++ t) = None).
    { destruct (find_sub _ _) as [i|] eqn:E; [|done]. apply find_sub_Some in E as [[b Hb] _].
      rewrite <- app_assoc in Hb. by destruct (Hno _ _ Hb). }
    rewrite E. rewrite (app_assoc CRLF), (first_at_find _ a _ Ha), drop_behind by done. by apply length_value.
Qed.

(** C28. A response whose head announces the length of its body, in either spelling of the header, is
    received whole: however the kernel cuts it into non-empty reads, [recv_all] stops
    exactly at its end, leaves the events behind it alone and keeps the connection open
    for reuse. *)
Theorem recv_all_segmentation (ds : list bytes) (rest : list recv_event) (head body : bytes) (now : Z) (c : t) :
  0 <= fd c -> announces head (zlen body) -> first_at CRLFCRLF head ->
  zlen (head ++ CRLFCRLF ++ body) <= LONG_MAX -> Forall (.≠ []) ds -> concat ds = head ++ CRLFCRLF ++ body ->
  recv_all (data_events ds ++ rest) now c = Some (head ++ CRLFCRLF ++ body, touch now c).
Proof.
  intros Hfd Ha Hf Hl Hds Hc. apply (recv_all_sized ds rest _ (length head)); [done| |done|done].
  assert (Hn : 0 <= zlen body <= LONG_MAX) by (rewrite !zlen_app in Hl; zlen_facts; lia).
  split; [by apply first_at_find|]. rewrite take_app_length, (announces_length _ _ Ha Hn).
  split; [rewrite !zlen_app; change (zlen CRLFCRLF) with 4; unfold zlen; lia|]. unfold LONG_MAX, two64 in *. lia.
Qed.

Definition sample_response : bytes :=
  lit "HTTP/1.1 200 OK" ++ CRLF ++ lit "content-length:  2" ++ CRLFCRLF ++ lit "hi".

Lemma first_at_dec needle a :
  find_sub needle (removelast (a ++ needle)) = None -> needle <> [] -> first_at needle a.
Proof.
  intros H Hne x y E. destruct y as [|c y _] using rev_ind; [done|]. exfalso. rewrite E, !app_assoc, removelast_last in H.
  destruct (find_sub_least needle x y) as (i & Hi & _). rewrite app_assoc in Hi. congruence.
Qed.

(** C28 applied to a response cut inside its head and inside its body, its length written in small letters. *)
Lemma recv_all_segmentation_witness :
  recv_all (data_events [take 9 sample_response; slice 9 30 sample_response; drop 39 sample_response] ++ [])
    7 (mk 3 [] 80 0) = Some (sample_response, mk 3 [] 80 7).
Proof.
  apply (recv_all_segmentation
    [take 9 sample_response; slice 9 30 sample_response; drop 39 sample_response] []
    (lit "HTTP/1.1 200 OK" ++ CRLF ++ lit "content-length:  2") (lit "hi") 7 (mk 3 [] 80 0)).
  - simpl. lia.
  - apply (announces_small (lit "HTTP/1.1 200 OK") 2 [] 2); [|exact I|].
    + apply first_at_dec; [vm_compute; reflexivity|discriminate].
    + intros x y E. destruct (find_sub_least (CRLF ++ lit "Content-Length:") x y) as (i & Hi & _).
      rewrite <- app_assoc, <- E in Hi. vm_compute in Hi. discriminate Hi.
  - apply first_at_dec; [vm_compute; reflexivity|discriminate].
  - vm_compute. discriminate.
  - repeat constructor; vm_compute; discriminate.
  - vm_compute. reflexivity.
Defined.

Lemma recv_loop_unsized (d : bytes) (he : nat) (rest : list recv_event) :
  find_sub CRLFCRLF d = Some he -> zlen d < two64 ->
  find_sub (CRLF ++ lit "Content-Length:") (take he d) = None ->
  find_sub (CRLF ++ lit "content-length:") (take he d) = None ->
  recv_loop (data_events [d] ++ rest) [] (-1) None
    = Some {| resp := d; eof := false; unread := rest |}.
Proof.
  intros Hhe Hlen H1 H2. apply find_sub_Some in Hhe as Hhe'. destruct Hhe' as [[b Hb] Hle].
  assert (Z.of_nat he + 4 <= zlen d) as Hsz.
  { apply (f_equal length) in Hb. rewrite !length_app, length_take in Hb. simpl in Hb.
    unfold zlen. lia. }
  simpl. unfold parse_head. simpl (-1 <? 0). cbv iota. rewrite Hhe.
  unfold head_content_length. rewrite H1, H2. unfold response_done.
  change (-1 <? 0) with true. cbv iota. change (0 <=? 0) with true. cbn [andb].
  rewrite Z.add_0_r, u64_small by lia. by rewrite (proj2 (Z.leb_le _ _) Hsz).
Qed.

(** A response without a Content-Length (chunked, or ended by the peer's
    close) is cut short: [recv_all] returns with what arrived together with the
    end of the head and leaves the rest of the body unread on a connection that
    stays open. *)
Theorem recv_all_truncates_unsized (d : bytes) (he : nat) (rest : list recv_event) (now : Z) (c : t) :
  0 <= fd c -> find_sub CRLFCRLF d = Some he -> zlen d < two64 ->
  find_sub (CRLF ++ lit "Content-Length:") (take he d) = None ->
  find_sub (CRLF ++ lit "content-length:") (take he d) = None ->
  recv_loop (data_events [d] ++ rest) [] (-1) None
    = Some {| resp := d; eof := false; unread := rest |} /\
  recv_all (data_events [d] ++ rest) now c = Some (d, touch now c).
Proof.
  intros Hfd Hhe Hlen H1 H2. pose proof (recv_loop_unsized d he rest Hhe Hlen H1 H2) as E.
  split; [done|]. unfold recv_all. destruct (Z.ltb_spec (fd c) 0); [lia|]. rewrite E. simpl.
  rewrite bool_decide_eq_false_2; [done|]. intros ->. done.
Qed.

Definition chunked_response_head : bytes :=
  lit "HTTP/1.1 200 OK" ++ CRLF ++ lit "Transfer-Encoding: chunked" ++ CRLFCRLF.

(** Applied to a chunked response whose chunks arrive after its head. *)
Lemma recv_all_truncates_unsized_witness :
  recv_all (data_events [chunked_response_head; lit "5" ++ CRLF ++ lit "hello" ++ CRLF]) 7
    (mk 3 [] 80 0) = Some (chunked_response_head, mk 3 [] 80 7).
Proof.
  apply (recv_all_truncates_unsized chunked_response_head 43
    (data_events [lit "5" ++ CRLF ++ lit "hello" ++ CRLF]) 7 (mk 3 [] 80 0)).
  - simpl. lia.
  - vm_compute. reflexivity.
  - vm_compute. reflexivity.
  - vm_compute. reflexivity.
  - vm_compute. reflexivity.
Defined.

End BackendConnection.
