(* ===== verification/HealthChecker.v ===== *)
(** * HealthChecker: src/proxy/health_checker.cpp

    The table of backends with their status, the TCP probe and the round of checks.
    What the kernel answers to a probe is the record [BackendConnection.connect_env];
    the clock is an argument.  A callback call is an event of the result.  The mutex
    makes the table operations atomic, and [check_all] is a snapshot followed by one
    critical section per backend, between which [add_backend] and [remove_backend]
    of other threads may run. *)

From S2P Require Import Prelude StdMap Utils Config BackendConnection.

Module HealthChecker.
Import Config.
Open Scope Z_scope.

Record BackendHealth := mkHealth {
  backend : Backend;
  healthy : bool;
  last_check : Z;
  consecutive_failures : Z
}.

Record t := mk {
  interval_ms : Z;
  connect_timeout_ms : Z;
  has_callback : bool;          (* on_status_change_ is set *)
  backends : gmap bytes BackendHealth
}.

Definition create : t := mk 5000 2000 false ∅.

Definition set_interval_ms (ms : Z) (s : t) : t := mk ms (connect_timeout_ms s) (has_callback s) (backends s).
Definition set_connect_timeout_ms (ms : Z) (s : t) : t := mk (interval_ms s) ms (has_callback s) (backends s).
Definition set_on_status_change (s : t) : t := mk (interval_ms s) (connect_timeout_ms s) true (backends s).
Definition set_backends (m : gmap bytes BackendHealth) (s : t) : t :=
  mk (interval_ms s) (connect_timeout_ms s) (has_callback s) m.

Definition make_key (b : Backend) : bytes := Utils.make_key (host b) (port b).

(** ** The table *)

Definition add_backend (b : Backend) (s : t) : t :=
  match backends s !! make_key b with
  | None => set_backends (<[make_key b := mkHealth b false 0 0]> (backends s)) s
  | Some _ => s
  end.

Definition remove_backend (b : Backend) (s : t) : t := set_backends (delete (make_key b) (backends s)) s.

Definition is_healthy (b : Backend) (s : t) : bool :=
  match backends s !! make_key b with Some bh => healthy bh | None => false end.

(** ** The probe *)

(** The verdict and the descriptors passed to [close]. *)
Definition tcp_check (e : BackendConnection.connect_env) : bool * list Z :=
  let fd := BackendConnection.socket_ret e in
  if fd <? 0 then (false, [])
  else if BackendConnection.pton_ret e <=? 0 then (false, [fd])
  else if BackendConnection.connect_ret e =? 0 then (true, [fd])
  else if negb (BackendConnection.connect_errno e =? BackendConnection.EINPROGRESS) then (false, [fd])
  else if BackendConnection.poll_ret e <=? 0 then (false, [fd])
  else if (BackendConnection.getsockopt_ret e <? 0) || negb (BackendConnection.so_error e =? 0) then (false, [fd])
  else (true, [fd]).

(** ** A round of checks *)

Definition snapshot `{HashOrder} (s : t) : list BackendHealth := (iterate (backends s)).*2.

(** The body of the loop up to the write-back. *)
Definition check (now : Z) (now_healthy : bool) (bh : BackendHealth) : BackendHealth :=
  if now_healthy then mkHealth (backend bh) true now 0
  else
    let failures := consecutive_failures bh + 1 in
    mkHealth (backend bh) (if 3 <=? failures then false else healthy bh) now failures.

Definition status_change (cb : bool) (was_healthy : bool) (bh : BackendHealth) : list (Backend * bool) :=
  if negb (Bool.eqb (healthy bh) was_healthy) then
    if cb then [(backend bh, healthy bh)] else []
  else [].

Definition write_back (bh : BackendHealth) (s : t) : t :=
  match backends s !! make_key (backend bh) with
  | Some _ => set_backends (<[make_key (backend bh) := bh]> (backends s)) s
  | None => s
  end.

(** One turn of the loop on a snapshot entry. *)
Definition check_one (now : Z) (e : BackendConnection.connect_env) (bh : BackendHealth) (s : t) :
    t * list (Backend * bool) :=
  let bh' := check now (tcp_check e).1 bh in
  (write_back bh' s, status_change (has_callback s) (healthy bh) bh').

Fixpoint check_each (now : Z) (probe : Backend -> BackendConnection.connect_env) (l : list BackendHealth) (s : t) :
    t * list (Backend * bool) :=
  match l with
  | [] => (s, [])
  | bh :: l' =>
      let '(s, ev) := check_one now (probe (backend bh)) bh s in
      let '(s, evs) := check_each now probe l' s in (s, ev ++ evs)
  end.

(** [check_all] when no other thread touches the table meanwhile. *)
Definition check_all `{HashOrder} (now : Z) (probe : Backend -> BackendConnection.connect_env) (s : t) :
    t * list (Backend * bool) :=
  check_each now probe (snapshot s) s.

(** ** Interleavings of a round with other threads *)

(** The checking thread holds the clock value and the part of its snapshot that is left. *)
Record machine := Machine { table : t; round_time : Z; pending : list BackendHealth }.

Inductive op :=
  | Add (b : Backend)
  | Remove (b : Backend)
  | Begin (now : Z)                               (* check_all takes its snapshot *)
  | Next (e : BackendConnection.connect_env).     (* one turn of its loop *)

Definition exec `{HashOrder} (o : op) (x : machine) : machine * list (Backend * bool) :=
  match o with
  | Add b => (Machine (add_backend b (table x)) (round_time x) (pending x), [])
  | Remove b => (Machine (remove_backend b (table x)) (round_time x) (pending x), [])
  | Begin now => (Machine (table x) now (snapshot (table x)), [])
  | Next e =>
      match pending x with
      | [] => (x, [])
      | bh :: l =>
          let '(s, ev) := check_one (round_time x) e bh (table x) in (Machine s (round_time x) l, ev)
      end
  end.

Fixpoint run `{HashOrder} (os : list op) (x : machine) : machine * list (Backend * bool) :=
  match os with
  | [] => (x, [])
  | o :: os' => let '(x, ev) := exec o x in let '(x, evs) := run os' x in (x, ev ++ evs)
  end.

(** ** Specification: the status a sequence of probes stands for *)

(** Failures since the last success; the newest result is the last one. *)
Definition trailing_failures (rs : list bool) : nat := foldl (fun n (r : bool) => if r then O else S n) O rs.

(** Reachable once and fewer than three failures since. *)
Definition status (rs : list bool) : bool := existsb id rs && (trailing_failures rs <? 3)%nat.

(** The new values of the status, each time a result changes it. *)
Fixpoint changes_from (past rs : list bool) : list bool :=
  match rs with
  | [] => []
  | r :: rs' =>
      let past' := past ++ [r] in
      (if negb (Bool.eqb (status past') (status past)) then [status past'] else []) ++ changes_from past' rs'
  end.

(** ** The table keeps every entry under its own key *)

Definition inv (s : t) : Prop := map_Forall (fun k bh => make_key (backend bh) = k) (backends s).

Lemma backend_key_inj a b : make_key a = make_key b -> a = b.
Proof. intros [E1 E2]%Utils.make_key_inj. destruct a, b; simpl in *; congruence. Qed.

Lemma backend_check now r bh : backend (check now r bh) = backend bh.
Proof. by destruct r. Qed.

Lemma add_backend_inv b s : inv s -> inv (add_backend b s).
Proof.
  unfold add_backend. intros Hi. destruct (backends s !! make_key b); [done|].
  by apply map_Forall_insert_2.
Qed.

Lemma remove_backend_inv b s : inv s -> inv (remove_backend b s).
Proof. intros Hi. by apply map_Forall_delete. Qed.

Lemma write_back_inv bh s : inv s -> inv (write_back bh s).
Proof.
  unfold write_back. intros Hi. destruct (backends s !! _); [|done]. by apply map_Forall_insert_2.
Qed.

Lemma write_back_lookup bh s k :
  backends (write_back bh s) !! k =
  if decide (make_key (backend bh) = k) then (fun _ => bh) <$> backends s !! k else backends s !! k.
Proof.
  unfold write_back. destruct (decide _) as [<-|Hne].
  - destruct (backends s !! make_key (backend bh)) eqn:E; simpl; [by rewrite lookup_insert_eq|done].
  - destruct (backends s !! make_key (backend bh)) eqn:E; simpl; [by rewrite lookup_insert_ne|done].
Qed.

Lemma write_back_callback bh s : has_callback (write_back bh s) = has_callback s.
Proof. unfold write_back. by destruct (backends s !! _). Qed.

Lemma status_change_filter cb w bh b :
  filter (fun ev => ev.1 = b) (status_change cb w bh) =
  if decide (backend bh = b) then status_change cb w bh else [].
Proof.
  unfold status_change. destruct (negb _), cb; rewrite ?filter_cons; simpl; by destruct (decide _).
Qed.

(** ** One round *)

Section Round.
Context `{HashOrder} (now : Z) (probe : Backend -> BackendConnection.connect_env).

Definition result (bh : BackendHealth) : bool := (tcp_check (probe (backend bh))).1.

Lemma check_each_spec l s :
  NoDup (make_key ∘ backend <$> l) ->
  (forall bh, bh ∈ l -> backends s !! make_key (backend bh) = Some bh) ->
  let '(s', evs) := check_each now probe l s in
  has_callback s' = has_callback s /\
  (forall k, backends s' !! k =
     if decide (k ∈ make_key ∘ backend <$> l) then (fun bh => check now (result bh) bh) <$> backends s !! k
     else backends s !! k) /\
  (forall b, filter (fun ev => ev.1 = b) evs =
     match backends s !! make_key b with
     | Some bh => if decide (make_key b ∈ make_key ∘ backend <$> l)
                  then status_change (has_callback s) (healthy bh) (check now (result bh) bh) else []
     | None => []
     end).
Proof.
  revert s; induction l as [|bh l IH]; intros s Hnd Hl; simpl.
  { split_and!; [done|..]; intros; rewrite ?decide_False by set_solver; [done|by destruct (backends s !! _)]. }
  apply NoDup_cons in Hnd as [Hn Hnd].
  fold (result bh). set (bh' := check now (result bh) bh).
  assert (Hk : make_key (backend bh') = make_key (backend bh)) by (unfold bh'; by rewrite backend_check).
  pose proof (Hl bh ltac:(set_solver)) as Hbh.
  specialize (IH (write_back bh' s) Hnd).
  destruct (check_each now probe l (write_back bh' s)) as [s' evs].
  destruct IH as (Hc & Hm & He).
  { intros b Hb. rewrite write_back_lookup, Hk, decide_False; [apply Hl; set_solver|].
    intros E. apply Hn, list_elem_of_fmap. by exists b. }
  rewrite write_back_callback in *. split_and!; [done|..].
  - intros k. rewrite Hm, write_back_lookup, Hk. destruct (decide (make_key (backend bh) = k)) as [<-|Hne].
    + rewrite decide_False by done. rewrite decide_True by set_solver. by rewrite Hbh.
    + destruct (decide (k ∈ make_key ∘ backend <$> l)) as [Hin|Hni].
      * rewrite decide_True; [done|]. by apply list_elem_of_further.
      * rewrite decide_False; [done|]. by intros [->|?]%elem_of_cons.
  - intros b. rewrite filter_app, He, write_back_lookup, Hk, status_change_filter.
    replace (backend bh') with (backend bh) by (unfold bh'; by rewrite backend_check).
    destruct (decide (make_key (backend bh) = make_key b)) as [Eb|Hne].
    + apply backend_key_inj in Eb as <-. rewrite Hbh, decide_True by done. simpl.
      rewrite decide_False by done. rewrite decide_True by (left; done). by rewrite app_nil_r.
    + rewrite (decide_False (P := backend bh = b)) by congruence. simpl.
      destruct (backends s !! make_key b); [|done].
      destruct (decide (make_key b ∈ make_key ∘ backend <$> l)) as [Hin|Hni].
      * rewrite decide_True; [done|]. by apply list_elem_of_further.
      * rewrite decide_False; [done|]. by intros [E|?]%elem_of_cons.
Qed.

Lemma snapshot_keys s : inv s -> make_key ∘ backend <$> snapshot s = (iterate (backends s)).*1.
Proof.
  intros Hi. unfold snapshot. rewrite <- list_fmap_compose. apply list_fmap_ext.
  intros i [k bh] Hk. simpl. apply list_elem_of_lookup_2 in Hk. rewrite iterate_perm in Hk.
  apply elem_of_map_to_list in Hk. by apply Hi.
Qed.

Lemma snapshot_elem s bh : bh ∈ snapshot s <-> exists k, backends s !! k = Some bh.
Proof.
  unfold snapshot. rewrite list_elem_of_fmap. split.
  - intros ([k v] & -> & Hk). rewrite iterate_perm in Hk. exists k. by apply elem_of_map_to_list in Hk.
  - intros [k Hk]. exists (k, bh). split; [done|]. rewrite iterate_perm. by apply elem_of_map_to_list.
Qed.

(** A round probes every registered backend once and moves only its own entry;
    the order of the unordered map plays no part. *)
Lemma check_all_spec s :
  inv s ->
  let '(s', evs) := check_all now probe s in
  has_callback s' = has_callback s /\
  backends s' = (fun bh => check now (result bh) bh) <$> backends s /\
  (forall b, filter (fun ev => ev.1 = b) evs =
     match backends s !! make_key b with
     | Some bh => status_change (has_callback s) (healthy bh) (check now (result bh) bh)
     | None => []
     end).
Proof.
  intros Hi. unfold check_all.
  assert (Hin : forall k, k ∈ make_key ∘ backend <$> snapshot s <-> is_Some (backends s !! k)).
  { intros k. rewrite (snapshot_keys s Hi), list_elem_of_fmap. split.
    - intros ([k' v] & -> & Hk). rewrite iterate_perm in Hk. apply elem_of_map_to_list in Hk. by exists v.
    - intros [v Hv]. exists (k, v). split; [done|]. rewrite iterate_perm. by apply elem_of_map_to_list. }
  pose proof (check_each_spec (snapshot s) s) as Hc.
  destruct (check_each now probe (snapshot s) s) as [s' evs]. destruct Hc as (H1 & H2 & H3).
  { rewrite (snapshot_keys s Hi). rewrite (iterate_perm _ (backends s)). apply NoDup_fst_map_to_list. }
  { intros bh [k Hk]%snapshot_elem. by rewrite (Hi k bh Hk). }
  split_and!; [done|..].
  - apply map_eq. intros k. rewrite H2, lookup_fmap. case_decide as Hk; [done|].
    destruct (backends s !! k) eqn:E; [|done]. destruct Hk. by apply Hin.
  - intros b. rewrite H3. destruct (backends s !! make_key b) eqn:E; [|done].
    rewrite decide_True; [done|]. by apply Hin.
Qed.

End Round.

(** ** A sequence of rounds *)

Fixpoint rounds `{HashOrder} (rs : list (Z * (Backend -> BackendConnection.connect_env))) (s : t) :
    t * list (Backend * bool) :=
  match rs with
  | [] => (s, [])
  | (now, probe) :: rs' =>
      let '(s, ev) := check_all now probe s in let '(s, evs) := rounds rs' s in (s, ev ++ evs)
  end.

(** The verdicts on one backend. *)
Definition verdicts (rs : list (Z * (Backend -> BackendConnection.connect_env))) (b : Backend) : list bool :=
  (fun r => (tcp_check (r.2 b)).1) <$> rs.

(** The entry that stands for a history of verdicts. *)
Definition represents (b : Backend) (past : list bool) (bh : BackendHealth) : Prop :=
  backend bh = b /\ healthy bh = status past /\ consecutive_failures bh = Z.of_nat (trailing_failures past).

Lemma trailing_snoc past r : trailing_failures (past ++ [r]) = if r : bool then O else S (trailing_failures past).
Proof. unfold trailing_failures. by rewrite foldl_app. Qed.

Lemma status_snoc past r :
  status (past ++ [r]) = if r : bool then true else status past && (trailing_failures past <? 2)%nat.
Proof.
  unfold status. rewrite existsb_app, trailing_snoc. destruct r; simpl; [by rewrite orb_true_r|].
  rewrite orb_false_r, <- andb_assoc. f_equal.
  destruct (Nat.ltb_spec (S (trailing_failures past)) 3), (Nat.ltb_spec (trailing_failures past) 3),
    (Nat.ltb_spec (trailing_failures past) 2); simpl; try done; lia.
Qed.

Lemma check_represents now b past r bh :
  represents b past bh -> represents b (past ++ [r]) (check now r bh).
Proof.
  intros (H1 & H2 & H3). unfold represents. rewrite status_snoc, trailing_snoc. destruct r; simpl; [done|].
  rewrite H2, H3. split_and!; [done| |lia].
  destruct (Z.leb_spec 3 (Z.of_nat (trailing_failures past) + 1)), (Nat.ltb_spec (trailing_failures past) 2); try lia;
    by destruct (status past).
Qed.

Lemma inv_check_all `{HashOrder} now probe s : inv s -> inv (check_all now probe s).1.
Proof.
  intros Hi. pose proof (check_all_spec now probe s Hi) as Hc. destruct (check_all now probe s) as [s' evs].
  destruct Hc as (_ & Hm & _). unfold inv. simpl. rewrite Hm. intros k bh' Hk. rewrite lookup_fmap in Hk.
  apply fmap_Some in Hk as (bh & Hk & ->). rewrite backend_check. by apply Hi.
Qed.

Lemma rounds_represents `{HashOrder} rs s b past bh :
  inv s -> has_callback s = true -> backends s !! make_key b = Some bh -> represents b past bh ->
  let '(s', evs) := rounds rs s in
  (exists bh', backends s' !! make_key b = Some bh' /\ represents b (past ++ verdicts rs b) bh') /\
  (filter (fun ev => ev.1 = b) evs).*2 = changes_from past (verdicts rs b).
Proof.
  revert s past bh; induction rs as [|[now probe] rs IH]; intros s past bh Hi Hcb Hb Hr; simpl.
  { rewrite app_nil_r. split; [by exists bh|done]. }
  pose proof (check_all_spec now probe s Hi) as Hc. pose proof (inv_check_all now probe s Hi) as Hi1.
  destruct (check_all now probe s) as [s1 ev]. destruct Hc as (Hcb1 & Hm & He). simpl in Hi1.
  destruct Hr as (Hb' & Hr). pose proof (conj Hb' Hr : represents b past bh) as Hrep.
  assert (Hres : result probe bh = (tcp_check (probe b)).1) by (unfold result; by rewrite Hb').
  assert (Hb1 : backends s1 !! make_key b = Some (check now (tcp_check (probe b)).1 bh))
    by (rewrite Hm, lookup_fmap, Hb; simpl; by rewrite Hres).
  pose proof (check_represents now b past (tcp_check (probe b)).1 bh Hrep) as Hrep1.
  specialize (IH s1 _ _ Hi1 ltac:(congruence) Hb1 Hrep1).
  destruct (rounds rs s1) as [s2 evs]. destruct IH as ((bh' & Hb2 & Hr2) & He2). split.
  - exists bh'. split; [done|]. by rewrite <- app_assoc in Hr2.
  - rewrite filter_app, fmap_app, He2, He, Hb, Hres. f_equal. unfold status_change.
    destruct Hrep1 as (_ & -> & _), Hr as (-> & _). rewrite Hcb. by destruct (negb _).
Qed.

(** C38. The status of a backend refines the history of its probes.  After [add_backend]
    and any number of rounds, whatever other backends do and in whatever order the
    table is visited, the backend is reported healthy exactly when some probe
    succeeded and fewer than three have failed since the last success, and the
    callback was called for it exactly at the changes of that status, with the new
    value. *)
Theorem status_follows_probes `{HashOrder} s b rs :
  inv s -> has_callback s = true -> backends s !! make_key b = None ->
  let '(s', evs) := rounds rs (add_backend b s) in
  is_healthy b s' = status (verdicts rs b) /\
  (filter (fun ev => ev.1 = b) evs).*2 = changes_from [] (verdicts rs b).
Proof.
  intros Hi Hcb Hn.
  pose proof (rounds_represents rs (add_backend b s) b [] (mkHealth b false 0 0) (add_backend_inv b s Hi)) as Hr.
  unfold add_backend in *. rewrite Hn in *. specialize (Hr Hcb (lookup_insert_eq _ _ _) ltac:(done)).
  destruct (rounds rs _) as [s' evs]. destruct Hr as ((bh & Hb & _ & Hh & _) & He). split; [|done].
  unfold is_healthy. by rewrite Hb.
Qed.

(** The probe never leaks a descriptor and agrees with the data path: it closes the
    socket it opened exactly once on every path, nothing when [socket] failed, and
    given the same answers of the kernel it succeeds exactly when
    [BackendConnection::connect] would. *)
Theorem tcp_check_sound e c :
  let '(ok, closed) := tcp_check e in
  closed = (if BackendConnection.socket_ret e <? 0 then [] else [BackendConnection.socket_ret e]) /\
  ok = (BackendConnection.connect e c).1.
Proof.
  unfold tcp_check, BackendConnection.connect. simpl.
  repeat match goal with |- context [if ?c then _ else _] => destruct c; simpl; try done end.
Qed.

(** ** Registration under interleaving *)

(** Whether the last [Add] or [Remove] of a backend was an [Add]. *)
Definition registered (b : Backend) (os : list op) : bool :=
  foldl (fun r o => match o with
                    | Add b' => bool_decide (b' = b) || r
                    | Remove b' => negb (bool_decide (b' = b)) && r
                    | _ => r
                    end) false os.

Lemma registered_snoc b os o :
  registered b (os ++ [o]) =
  match o with
  | Add b' => bool_decide (b' = b) || registered b os
  | Remove b' => negb (bool_decide (b' = b)) && registered b os
  | _ => registered b os
  end.
Proof. unfold registered. by rewrite foldl_app. Qed.

Lemma checker_run_snoc `{HashOrder} os o x :
  (run (os ++ [o]) x).1 = (exec o (run os x).1).1.
Proof.
  revert x; induction os as [|o' os IH]; intros x; simpl.
  - by destruct (exec o x) as [x1 ev].
  - destruct (exec o' x) as [x1 ev]. specialize (IH x1). destruct (run os x1), (run (os ++ [o]) x1). exact IH.
Qed.

Definition knows (b : Backend) (s : t) : bool := bool_decide (is_Some (backends s !! make_key b)).

Lemma knows_add b b' s : knows b (add_backend b' s) = bool_decide (b' = b) || knows b s.
Proof.
  unfold knows, add_backend. destruct (decide (b' = b)) as [->|Hne].
  - rewrite (bool_decide_eq_true_2 (b = b)) by done. apply bool_decide_eq_true_2.
    destruct (backends s !! make_key b) eqn:E; simpl; [by rewrite E|]. rewrite lookup_insert_eq. by eexists.
  - rewrite (bool_decide_eq_false_2 (b' = b)) by done.
    destruct (backends s !! make_key b') eqn:E; simpl; [done|].
    rewrite lookup_insert_ne; [done|]. by intros ?%backend_key_inj.
Qed.

Lemma knows_remove b b' s : knows b (remove_backend b' s) = negb (bool_decide (b' = b)) && knows b s.
Proof.
  unfold knows, remove_backend. simpl. destruct (decide (b' = b)) as [->|Hne].
  - rewrite (bool_decide_eq_true_2 (b = b)) by done. apply bool_decide_eq_false_2.
    rewrite lookup_delete_eq. by intros [].
  - rewrite (bool_decide_eq_false_2 (b' = b)) by done.
    rewrite lookup_delete_ne; [done|]. by intros ?%backend_key_inj.
Qed.

Lemma knows_write_back b bh s : knows b (write_back bh s) = knows b s.
Proof.
  unfold knows. rewrite write_back_lookup. case_decide as E; [|done]. by destruct (backends s !! make_key b).
Qed.

(** The checking thread never registers or drops a backend.  In every interleaving of
    the rounds with calls of other threads a backend is in the table exactly when
    the last [add_backend] or [remove_backend] for it was an [add_backend]: the
    write-back of a round in progress does not bring a removed backend back, and a
    removed backend is not reported healthy. *)
Theorem registration_exact `{HashOrder} os b :
  let x := (run os (Machine create 0 [])).1 in
  knows b (table x) = registered b os /\ (registered b os = false -> is_healthy b (table x) = false).
Proof.
  enough (E : knows b (table (run os (Machine create 0 [])).1) = registered b os).
  { split; [done|]. rewrite <- E. unfold knows, is_healthy. case_bool_decide as Hk; [done|].
    by destruct (backends _ !! _); [destruct Hk|]. }
  induction os as [|o os IH] using rev_ind; [done|].
  rewrite checker_run_snoc, registered_snoc, <- IH. destruct o as [b'|b'|now|e]; simpl.
  - apply knows_add.
  - apply knows_remove.
  - done.
  - destruct (pending _) as [|bh l]; [done|]. simpl. apply knows_write_back.
Qed.

(** The counters of the table and of the snapshot in progress. *)
Definition counters_within (n : Z) (x : machine) : Prop :=
  map_Forall (fun _ bh => 0 <= consecutive_failures bh <= n) (backends (table x)) /\
  Forall (fun bh => 0 <= consecutive_failures bh <= n) (pending x).

Lemma counters_weaken n n' x : n <= n' -> counters_within n x -> counters_within n' x.
Proof.
  intros Hn [H1 H2]. split.
  - eapply map_Forall_impl; [exact H1|]. simpl. lia.
  - eapply Forall_impl; [exact H2|]. simpl. lia.
Qed.

Lemma check_counter now r bh n :
  0 <= consecutive_failures bh <= n -> 0 <= consecutive_failures (check now r bh) <= n + 1.
Proof. destruct r; simpl; lia. Qed.

Lemma exec_counters `{HashOrder} n o x : 0 <= n -> counters_within n x -> counters_within (n + 1) (exec o x).1.
Proof.
  intros Hn Hx. pose proof (counters_weaken n (n + 1) x ltac:(lia) Hx) as [H1 H2].
  destruct o as [b|b|now|e]; simpl.
  - unfold add_backend. split; [|done]. simpl. destruct (backends (table x) !! make_key b); [done|].
    apply map_Forall_insert_2; [|done]. simpl. lia.
  - split; [by apply map_Forall_delete|done].
  - split; [done|]. apply Forall_forall. intros bh [k Hk]%snapshot_elem. by eapply H1.
  - destruct (pending x) as [|bh l] eqn:E; [split; simpl; [done|by rewrite E]|]. destruct Hx as [_ Hx].
    rewrite E in Hx. apply Forall_cons in Hx as [Hb _]. apply Forall_cons in H2 as [_ H2].
    split; [|done]. simpl. unfold write_back. destruct (backends (table x) !! _); [|done].
    apply map_Forall_insert_2; [by apply check_counter|done].
Qed.

(** No overflow: within any number of operations the failure counter of an entry is
    at least zero and at most that number, so [int] is wide enough for the first
    [INT_MAX] of them. *)
Theorem failures_bounded `{HashOrder} os k bh :
  backends (table (run os (Machine create 0 [])).1) !! k = Some bh ->
  0 <= consecutive_failures bh <= zlen os.
Proof.
  enough (Hc : counters_within (zlen os) (run os (Machine create 0 [])).1) by apply Hc.
  induction os as [|o os IH] using rev_ind; [by split|].
  rewrite checker_run_snoc, zlen_app. by apply exec_counters; [apply zlen_nonneg|].
Qed.

(** ** Concrete backends *)

Definition answers (ret err : Z) : BackendConnection.connect_env :=
  {| BackendConnection.socket_ret := 7; BackendConnection.pton_ret := 1; BackendConnection.connect_ret := ret;
     BackendConnection.connect_errno := err; BackendConnection.poll_ret := 0; BackendConnection.getsockopt_ret := 0;
     BackendConnection.so_error := 0; BackendConnection.now := 0 |}.
Definition up := answers 0 0.
Definition refused := answers (-1) 111.

Definition b1 : Backend := mkBackend (lit "127.0.0.1") 9001.
Definition b2 : Backend := mkBackend (lit "127.0.0.1") 9002.

(** [b1] answers, fails three times and comes back; [b2] stays up. *)
Definition flapping : list (Z * (Backend -> BackendConnection.connect_env)) :=
  (fun r : bool => (0, fun b => if bool_decide (b = b1) then (if r then up else refused) else up))
  <$> [true; false; false; false; true].

(** C38 applied to a backend that flaps beside one that stays up. *)
Lemma status_follows_probes_witness :
  let '(s', evs) := rounds flapping (add_backend b1 (add_backend b2 (set_on_status_change create))) in
  is_healthy b1 s' = status (verdicts flapping b1) /\
  (filter (fun ev => ev.1 = b1) evs).*2 = changes_from [] (verdicts flapping b1) /\
  changes_from [] (verdicts flapping b1) = [true; false; true].
Proof.
  pose proof (status_follows_probes (add_backend b2 (set_on_status_change create)) b1 flapping) as Hs.
  destruct (rounds flapping _) as [s' evs].
  destruct Hs as [H1 H2]; [by apply add_backend_inv|by vm_compute|by vm_compute|].
  split_and!; [done..|by vm_compute].
Defined.

(** Applied after a failed probe. *)
Lemma failures_bounded_witness :
  0 <= 1 <= zlen [Add b1; Begin 0; Next refused].
Proof.
  apply (failures_bounded [Add b1; Begin 0; Next refused] (make_key b1) (mkHealth b1 false 0 1)). by vm_compute.
Defined.

(** A backend that is removed and registered again while a round is in progress
    inherits the status of its former registration: it is reported healthy although
    its only probe since then failed. *)
Theorem stale_status_survives :
  let x := (run [Add b1; Begin 0; Next up; Begin 1; Remove b1; Add b1; Next refused] (Machine create 0 [])).1 in
  is_healthy b1 (table x) = true.
Proof. by vm_compute. Qed.

End HealthChecker.
