(* ===== verification/BackendPool.v ===== *)
(** * BackendPool: src/proxy/backend_pool.cpp

    Idle connections per backend key, in FIFO order, and the count of connections
    handed out.  Every critical section (code between lock and unlock) is one
    operation, so that an interleaving of threads is a sequence of operations;
    [acquire] is the composition of two such sections with [connect] between
    them.  [env c] is what the kernel answers when the liveness of [c] is checked. *)

From S2P Require Import Prelude Utils Config LoadBalancer BackendConnection.

Module BackendPool.
Import Config.
Module Conn := BackendConnection.
Open Scope Z_scope.

Record PoolEntry := mkEntry { idle : list Conn.t; active_count : Z }.

Record t := mk {
  pools : gmap bytes PoolEntry;
  max_idle_per_host : Z;
  idle_timeout_sec : Z
}.

(** The first parameter is a [size_t]: an [int] argument is converted on the way. *)
Definition create (max_idle timeout : Z) : t := mk ∅ (u64 max_idle) timeout.

Definition make_key (b : Backend) : bytes := Utils.make_key (host b) (port b).

Definition empty_entry : PoolEntry := mkEntry [] 0.

(** [pools_[key]]: an unknown key gets an empty entry. *)
Definition entry (k : bytes) (p : t) : PoolEntry := default empty_entry (pools p !! k).

Definition set_entry (k : bytes) (e : PoolEntry) (p : t) : t :=
  mk (<[k := e]> (pools p)) (max_idle_per_host p) (idle_timeout_sec p).

(** [while (!entry.idle.empty())]: the first live connection, the dead ones dropped. *)
Fixpoint pop_alive (env : Conn.t -> Conn.alive_env) (now : Z) (q : list Conn.t) :
    option Conn.t * list Conn.t :=
  match q with
  | [] => (None, [])
  | c :: q' =>
      if Conn.is_alive (env c) c then (Some (Conn.touch now c), q') else pop_alive env now q'
  end.

(** Section 1 of [acquire]. *)
Definition acquire_idle (b : Backend) (env : Conn.t -> Conn.alive_env) (now : Z) (p : t) :
    option Conn.t * t :=
  let k := make_key b in
  let e := entry k p in
  let '(c, q) := pop_alive env now (idle e) in
  (c, set_entry k (mkEntry q (u64 (active_count e + 1))) p).

(** Undo the count: the rollback of [acquire] and the body of [evict]. *)
Definition decrement (b : Backend) (p : t) : t :=
  let k := make_key b in
  match pools p !! k with
  | Some e =>
      if 0 <? active_count e
      then set_entry k (mkEntry (idle e) (u64 (active_count e - 1))) p else p
  | None => p
  end.

Definition acquire (b : Backend) (env : Conn.t -> Conn.alive_env) (now : Z)
    (ce : Conn.connect_env) (p : t) : option Conn.t * t :=
  let '(c, p) := acquire_idle b env now p in
  match c with
  | Some c => (Some c, p)
  | None =>
      let '(ok, c) := Conn.connect ce (Conn.create (host b) (port b)) in
      if ok then (Some c, p) else (None, decrement b p)
  end.

Definition evict (b : Backend) (c : option Conn.t) (p : t) : t :=
  match c with None => p | Some _ => decrement b p end.

(** The locked part of [release], for a live connection. *)
Definition release_live (b : Backend) (c : Conn.t) (p : t) : t :=
  let k := make_key b in
  let e := entry k p in
  let n := if 0 <? active_count e then u64 (active_count e - 1) else active_count e in
  let q := if zlen (idle e) <? max_idle_per_host p then idle e ++ [c] else idle e in
  set_entry k (mkEntry q n) p.

Definition release (b : Backend) (env : Conn.t -> Conn.alive_env) (c : option Conn.t) (p : t) : t :=
  match c with
  | Some conn => if Conn.is_alive (env conn) conn then release_live b conn p else evict b c p
  | None => evict b c p
  end.

(** The rotation of [cleanup_idle] over one queue: [n] turns of the loop. *)
Fixpoint rotate (n : nat) (now timeout : Z) (q : list Conn.t) : list Conn.t :=
  match n with
  | O => q
  | S n' =>
      match q with
      | [] => []
      | c :: q' =>
          rotate n' now timeout
            (if timeout <=? now - Conn.last_activity c then q' else q' ++ [c])
      end
  end.

Definition cleanup_idle (now : Z) (p : t) : t :=
  mk ((fun e => mkEntry (rotate (length (idle e)) now (idle_timeout_sec p) (idle e))
                  (active_count e)) <$> pools p)
     (max_idle_per_host p) (idle_timeout_sec p).

(** [warm_count] attempts for one backend; each attempt has its own kernel answers. *)
Fixpoint warm_backend (b : Backend) (tries : list (Conn.connect_env * (Conn.t -> Conn.alive_env)))
    (p : t) : t :=
  match tries with
  | [] => p
  | (ce, env) :: tries' =>
      let '(ok, c) := Conn.connect ce (Conn.create (host b) (port b)) in
      warm_backend b tries' (if ok then release b env (Some c) p else p)
  end.

Definition warm_up (bs : list (Backend * list (Conn.connect_env * (Conn.t -> Conn.alive_env))))
    (p : t) : t :=
  foldl (fun p '(b, tries) => warm_backend b tries p) p bs.

(** ** Operations as an interleaving of critical sections *)

Inductive op :=
  | AcquireIdle (b : Backend) (env : Conn.t -> Conn.alive_env) (now : Z)
  | Decrement (b : Backend)
  | ReleaseLive (b : Backend) (c : Conn.t)
  | CleanupIdle (now : Z).

Definition exec (o : op) (p : t) : t :=
  match o with
  | AcquireIdle b env now => (acquire_idle b env now p).2
  | Decrement b => decrement b p
  | ReleaseLive b c => release_live b c p
  | CleanupIdle now => cleanup_idle now p
  end.

Definition run (os : list op) (p : t) : t := foldl (fun p o => exec o p) p os.

(** ** Lemmas *)

Definition idle_of (k : bytes) (p : t) : list Conn.t := idle (entry k p).
Definition active_of (k : bytes) (p : t) : Z := active_count (entry k p).

Lemma entry_set k k' e p : entry k (set_entry k' e p) = if decide (k' = k) then e else entry k p.
Proof.
  unfold entry, set_entry. simpl. destruct (decide (k' = k)) as [->|Hne].
  - by rewrite lookup_insert_eq.
  - by rewrite lookup_insert_ne.
Qed.

Lemma entry_decrement k b p :
  entry k (decrement b p) =
  if decide (make_key b = k) then
    mkEntry (idle_of k p) (if 0 <? active_of k p then u64 (active_of k p - 1) else active_of k p)
  else entry k p.
Proof.
  unfold decrement, idle_of, active_of. destruct (pools p !! make_key b) as [e|] eqn:E.
  - assert (entry (make_key b) p = e) as He by (unfold entry; by rewrite E).
    split_if; [rewrite entry_set|]; destruct (decide (make_key b = k)) as [<-|]; try done.
    + by rewrite He, (proj2 (Z.ltb_lt _ _)).
    + rewrite He, (proj2 (Z.ltb_ge _ _)) by done. by destruct e.
  - destruct (decide (make_key b = k)) as [<-|]; [|done].
    unfold entry. rewrite E. done.
Qed.

Lemma rotate_filter n now timeout q kept :
  length q = n ->
  rotate n now timeout (q ++ kept) =
  kept ++ filter (fun c => now - Conn.last_activity c < timeout) q.
Proof.
  revert q kept; induction n as [|n IH]; intros q kept Hl.
  { apply nil_length_inv in Hl as ->. simpl. by rewrite app_nil_r. }
  destruct q as [|c q]; [done|]. injection Hl as Hl. simpl. rewrite filter_cons.
  destruct (Z.leb_spec timeout (now - Conn.last_activity c)) as [H|H].
  - rewrite decide_False by lia. by apply IH.
  - rewrite decide_True by lia. rewrite <- app_assoc, IH by done. by rewrite <- app_assoc.
Qed.

Lemma entry_cleanup k now p :
  entry k (cleanup_idle now p) =
  mkEntry (filter (fun c => now - Conn.last_activity c < idle_timeout_sec p) (idle_of k p))
          (active_of k p).
Proof.
  unfold entry, cleanup_idle, idle_of, active_of, entry. simpl. rewrite lookup_fmap.
  destruct (pools p !! k) as [e|]; simpl; [|done]. f_equal.
  rewrite <- (app_nil_r (idle e)) at 2. by rewrite rotate_filter.
Qed.

Lemma pop_alive_spec env now q :
  exists dead, Forall (fun c => Conn.is_alive (env c) c = false) dead /\
    match (pop_alive env now q).1 with
    | Some c' => exists c, Conn.is_alive (env c) c = true /\ c' = Conn.touch now c /\
                   q = dead ++ c :: (pop_alive env now q).2
    | None => q = dead /\ (pop_alive env now q).2 = []
    end.
Proof.
  induction q as [|c q IH]; simpl; [by exists []|].
  destruct (Conn.is_alive (env c) c) eqn:E; simpl.
  { exists []. split; [done|]. by exists c. }
  destruct IH as (dead & Hd & Hr). exists (c :: dead). split; [by constructor|].
  destruct (pop_alive env now q) as [[c'|] rest]; simpl in *.
  - destruct Hr as (x & H1 & H2 & ->). by exists x.
  - destruct Hr as [-> ->]. done.
Qed.

Lemma pop_alive_length env now q :
  (length (pop_alive env now q).2 <= length q)%nat.
Proof.
  induction q as [|c q IH]; simpl; [done|]. split_if; simpl; lia.
Qed.

(** ** Properties *)

Definition inv (p : t) : Prop :=
  forall k, 0 <= max_idle_per_host p /\ zlen (idle_of k p) <= max_idle_per_host p.

Lemma pool_exec_inv o p : inv p -> inv (exec o p) /\ max_idle_per_host (exec o p) = max_idle_per_host p.
Proof.
  intros Hi. destruct o as [b env now|b|b c|now]; simpl.
  - unfold acquire_idle. pose proof (pop_alive_length env now (idle (entry (make_key b) p))) as Hl.
    destruct (pop_alive _ _ _) as [c q]. simpl in *. split; [|done]. intros k. unfold idle_of.
    rewrite entry_set. destruct (decide _) as [<-|]; [|apply Hi].
    specialize (Hi (make_key b)). unfold idle_of, zlen in *. simpl. lia.
  - split; [|unfold decrement; destruct (pools p !! make_key b); [by split_if|done]].
    assert (max_idle_per_host (decrement b p) = max_idle_per_host p) as Em.
    { unfold decrement. destruct (pools p !! make_key b); [by split_if|done]. }
    intros k. rewrite Em. unfold idle_of. rewrite entry_decrement.
    destruct (decide _); apply (Hi k).
  - split; [|done]. intros k. unfold idle_of, release_live. rewrite entry_set.
    destruct (decide _) as [<-|]; [|apply Hi]. simpl.
    specialize (Hi (make_key b)). unfold idle_of in Hi.
    split_if; [rewrite zlen_app; unfold zlen in *; simpl; lia|done].
  - split; [|done]. intros k. unfold idle_of. rewrite entry_cleanup. simpl.
    specialize (Hi k). unfold zlen in *.
    pose proof (length_filter (fun c => now - Conn.last_activity c < idle_timeout_sec p) (idle_of k p)).
    lia.
Qed.

Lemma pool_run_inv os p : inv p -> inv (run os p) /\ max_idle_per_host (run os p) = max_idle_per_host p.
Proof.
  revert p; induction os as [|o os IH]; intros p Hi; simpl; [done|].
  destruct (pool_exec_inv o p Hi) as [H1 H2]. destruct (IH _ H1) as [H3 H4].
  split; [done|]. by rewrite H4.
Qed.

Lemma pool_create_inv max_idle timeout : inv (create max_idle timeout).
Proof.
  intros k. pose proof (u64_range max_idle). unfold idle_of, entry, create. cbn. rewrite lookup_empty. cbn. unfold zlen. cbn. lia.
Qed.

(** In every interleaving of the pool's critical sections, no backend ever has
    more idle connections than [max_idle_per_host]; a negative argument is a huge limit. *)
Theorem pool_idle_bounded (max_idle timeout : Z) (os : list op) (k : bytes) :
  zlen (idle_of k (run os (create max_idle timeout))) <= u64 max_idle.
Proof.
  destruct (pool_run_inv os _ (pool_create_inv max_idle timeout)) as [H1 H2]. specialize (H1 k). rewrite H2 in H1. apply H1.
Qed.

Definition host_a : Backend := mkBackend (lit "a") 80.
Definition all_alive (c : Conn.t) : Conn.alive_env := Conn.Build_alive_env 0 0 (-1) 11.
Definition conn_a (n : Z) : Conn.t := Conn.mk n (lit "a") 80 0.

(** Applied to three releases into a pool that keeps two. *)
Lemma pool_idle_bounded_witness :
  zlen (idle_of (make_key host_a)
    (run [ReleaseLive host_a (conn_a 3); ReleaseLive host_a (conn_a 4); ReleaseLive host_a (conn_a 5)]
       (create 2 60))) <= 2.
Proof. apply (pool_idle_bounded 2 60). Defined.

(** The effect of an operation on the number of connections handed out for [k]. *)
Definition delta (k : bytes) (o : op) : Z :=
  match o with
  | AcquireIdle b _ _ => if decide (make_key b = k) then 1 else 0
  | Decrement b | ReleaseLive b _ => if decide (make_key b = k) then -1 else 0
  | CleanupIdle _ => 0
  end.

Fixpoint outstanding (k : bytes) (n : Z) (os : list op) : Z :=
  match os with [] => n | o :: os' => outstanding k (n + delta k o) os' end.

(** Nobody gives back a connection that was not handed out. *)
Fixpoint disciplined (k : bytes) (n : Z) (os : list op) : Prop :=
  match os with
  | [] => True
  | o :: os' => 0 <= n + delta k o /\ disciplined k (n + delta k o) os'
  end.

Lemma exec_active k o p :
  0 <= active_of k p -> active_of k p + 1 < two64 -> 0 <= active_of k p + delta k o ->
  active_of k (exec o p) = active_of k p + delta k o.
Proof.
  intros H0 H1 H2. destruct o as [b env now|b|b c|now]; simpl in *; unfold active_of at 1.
  - unfold acquire_idle. destruct (pop_alive _ _ _) as [c q]. simpl. rewrite entry_set.
    destruct (decide _) as [<-|]; [|unfold active_of; lia]. simpl. by rewrite u64_small.
  - rewrite entry_decrement. destruct (decide _); simpl; [|unfold active_of; lia].
    destruct (Z.ltb_spec 0 (active_of k p)); [|lia]. rewrite u64_small; lia.
  - unfold release_live. rewrite entry_set. destruct (decide _) as [<-|]; simpl; [|unfold active_of; lia].
    unfold active_of in *. destruct (Z.ltb_spec 0 (active_count (entry (make_key b) p))); [|lia].
    rewrite u64_small; lia.
  - rewrite entry_cleanup. simpl. lia.
Qed.

Lemma delta_le k o : delta k o <= 1.
Proof. destruct o; simpl; try (destruct (decide _)); lia. Qed.

Lemma run_active k os p :
  0 <= active_of k p -> active_of k p + zlen os < two64 -> disciplined k (active_of k p) os ->
  active_of k (run os p) = outstanding k (active_of k p) os.
Proof.
  revert p; induction os as [|o os IH]; intros p H0 H1 Hd; [done|].
  destruct Hd as [H2 Hd]. rewrite zlen_cons in H1. pose proof (zlen_nonneg os).
  pose proof (delta_le k o) as Hle.
  pose proof (exec_active k o p H0 ltac:(lia) H2) as E. simpl.
  rewrite IH; rewrite E; [done|lia|lia|done].
Qed.

(** [active_count] is exact: in every interleaving in which callers return only
    what they were given, it equals the number of connections currently handed
    out for that backend. *)
Theorem active_count_exact (max_idle timeout : Z) (os : list op) (k : bytes) :
  zlen os < two64 -> disciplined k 0 os ->
  active_of k (run os (create max_idle timeout)) = outstanding k 0 os.
Proof.
  intros Hl Hd. assert (active_of k (create max_idle timeout) = 0) as E.
  { unfold active_of, entry. simpl. by rewrite lookup_empty. }
  rewrite run_active; rewrite E; [done|lia|lia|done].
Qed.

(** Applied to two acquisitions and one release. *)
Lemma active_count_exact_witness :
  active_of (make_key host_a)
    (run [AcquireIdle host_a all_alive 1; AcquireIdle host_a all_alive 2;
          ReleaseLive host_a (conn_a 3)] (create 2 60)) = 1.
Proof.
  rewrite (active_count_exact 2 60); [reflexivity|vm_compute; reflexivity|].
  vm_compute. repeat split; intros H; discriminate H.
Defined.

(** Reuse: [acquire] hands out the oldest idle connection that is still alive,
    drops exactly the dead ones in front of it, and connects anew only when no
    live one is left; a failed connect leaves the count as it was. *)
Theorem acquire_reuses_oldest (b : Backend) (env : Conn.t -> Conn.alive_env) (now : Z)
    (ce : Conn.connect_env) (p : t) :
  let k := make_key b in
  0 <= active_of k p -> active_of k p + 1 < two64 ->
  exists dead, Forall (fun c => Conn.is_alive (env c) c = false) dead /\
    let '(r, p') := acquire b env now ce p in
    (exists c rest, idle_of k p = dead ++ c :: rest /\ Conn.is_alive (env c) c = true /\
       r = Some (Conn.touch now c) /\ idle_of k p' = rest /\ active_of k p' = active_of k p + 1) \/
    (idle_of k p = dead /\ idle_of k p' = [] /\
     if (Conn.connect ce (Conn.create (host b) (port b))).1
     then r = Some (Conn.connect ce (Conn.create (host b) (port b))).2 /\
          active_of k p' = active_of k p + 1
     else r = None /\ active_of k p' = active_of k p).
Proof.
  intros k H0 H1. unfold acquire, acquire_idle. fold k.
  destruct (pop_alive_spec env now (idle (entry k p))) as (dead & Hd & Hr). exists dead.
  split; [done|]. destruct (pop_alive env now (idle (entry k p))) as [[c'|] q]; simpl in Hr.
  - destruct Hr as (c & Hal & -> & Hq). left. exists c, q. unfold idle_of, active_of.
    rewrite !entry_set, !decide_True by done. simpl. rewrite u64_small by (unfold active_of in *; lia).
    done.
  - destruct Hr as [Hq ->].
    destruct (Conn.connect ce _) as [[] c]; right; simpl; unfold idle_of, active_of.
    + rewrite !entry_set, !decide_True by done. simpl. rewrite u64_small by (unfold active_of in *; lia).
      done.
    + rewrite !entry_decrement, !decide_True by done. unfold idle_of, active_of.
      rewrite !entry_set, !decide_True by done. simpl.
      rewrite u64_small by (unfold active_of in *; lia).
      unfold active_of in *. destruct (Z.ltb_spec 0 (active_count (entry k p) + 1)); [|lia].
      split; [done|]. split; [done|]. split; [done|]. rewrite u64_small; lia.
Qed.

(** Applied to a pool with one idle connection. *)
Lemma acquire_reuses_oldest_witness :
  exists c, (acquire host_a all_alive 9 (Conn.Build_connect_env 7 1 0 0 0 0 0 9)
               (release_live host_a (conn_a 3) (create 2 60))).1 = Some (Conn.touch 9 c).
Proof.
  destruct (acquire_reuses_oldest host_a all_alive 9 (Conn.Build_connect_env 7 1 0 0 0 0 0 9)
    (release_live host_a (conn_a 3) (create 2 60))) as (dead & Hd & H).
  - vm_compute. discriminate.
  - vm_compute. reflexivity.
  - destruct (acquire host_a all_alive 9 _ _) as [r p'].
    destruct H as [(c & rest & _ & _ & Hr & _)|(Hq & _)].
    + exists c. exact Hr.
    + exfalso. assert (idle_of (make_key host_a) (release_live host_a (conn_a 3) (create 2 60))
                       = [conn_a 3]) as E by (vm_compute; reflexivity).
      rewrite E in Hq. rewrite <- Hq in Hd. apply Forall_cons in Hd as [Hd _].
      vm_compute in Hd. discriminate Hd.
Defined.

(** [cleanup_idle] drops exactly the connections idle for at least the timeout
    and keeps the others in order, although it rotates the queue in place. *)
Theorem cleanup_idle_exact (now : Z) (p : t) (k : bytes) :
  idle_of k (cleanup_idle now p)
  = filter (fun c => now - Conn.last_activity c < idle_timeout_sec p) (idle_of k p) /\
  active_of k (cleanup_idle now p) = active_of k p.
Proof.
  unfold idle_of at 1, active_of at 1. rewrite entry_cleanup. done.
Qed.

End BackendPool.
