(* ===== verification/Proxy.v ===== *)
(** * Proxy: src/proxy/proxy.cpp

    Forwarding of one raw request to a backend, over a pooled connection or a
    fresh one.  The kernel's answers to one call are a record of scripts; a call
    whose scripts are used up is still waiting and yields [None]. *)

From S2P Require Import Prelude Utils Config BackendConnection BackendPool.

Module Proxy.
Import Config.
Module Conn := BackendConnection.
Module Pool := BackendPool.
Open Scope Z_scope.

Record t := mk { backend_timeout_ms : Z; pool : option Pool.t }.

Definition create (timeout : Z) : t := mk timeout None.
Definition set_pool (p : Pool.t) (x : t) : t := mk (backend_timeout_ms x) (Some p).

(** [cleanup_pool] *)
Definition cleanup_pool (now : Z) (x : t) : t :=
  match pool x with Some p => set_pool (Pool.cleanup_idle now p) x | None => x end.

Definition make_502_response : bytes :=
  lit "HTTP/1.1 502 Bad Gateway" ++ CRLF ++ lit "Content-Length: 11" ++ CRLF
    ++ lit "Connection: close" ++ CRLF ++ CRLF ++ lit "Bad Gateway".

(** The kernel's answers during one call. *)
Record env := {
  alive_at_acquire : Conn.t -> Conn.alive_env;
  acquire_time : Z;
  conn_env : Conn.connect_env;
  sends : list Conn.send_event;
  recvs : list Conn.recv_event;
  recv_time : Z;
  alive_at_release : Conn.t -> Conn.alive_env
}.

(** ** Direct forwarding *)

Definition nb_connect (e : Conn.connect_env) : Z :=
  if Conn.connect_ret e =? 0 then 0
  else if negb (Conn.connect_errno e =? Conn.EINPROGRESS) then -1
  else if Conn.poll_ret e <=? 0 then -1
  else if Conn.getsockopt_ret e <? 0 then -1
  else if negb (Conn.so_error e =? 0) then -1
  else 0.

(** The loop is that of [BackendConnection::send_all]. *)
Definition nb_send_all (script : list Conn.send_event) (data : bytes) : option Z :=
  '(ok, wire) ← Conn.send_loop script data 0 [];
  Some (if ok : bool then zlen wire else -1).

Fixpoint direct_loop (script : list Conn.recv_event) (resp : bytes) : option bytes :=
  match script with
  | [] => None
  | e :: script' =>
      if Conn.rp_poll e <=? 0 then Some resp
      else
        match Conn.rp_recv e with
        | Conn.RData d => direct_loop script' (resp ++ d)
        | Conn.REof => Some resp
        | Conn.RErr errno => if errno =? Conn.EAGAIN then direct_loop script' resp else Some resp
        end
  end.

Definition forward_direct (e : env) (raw_request : bytes) : option bytes :=
  let ce := conn_env e in
  if Conn.socket_ret ce <? 0 then Some make_502_response
  else if Conn.pton_ret ce <=? 0 then Some make_502_response
  else if nb_connect ce <? 0 then Some make_502_response
  else
    n ← nb_send_all (sends e) raw_request;
    if n <? 0 then Some make_502_response
    else
      resp ← direct_loop (recvs e) [];
      Some (if bool_decide (resp = []) then make_502_response else resp).

(** ** Pooled forwarding *)

Definition forward_pooled (e : env) (b : Backend) (raw_request : bytes) (p : Pool.t) :
    option (bytes * Pool.t) :=
  let '(c, p) := Pool.acquire b (alive_at_acquire e) (acquire_time e) (conn_env e) p in
  match c with
  | None => Some (make_502_response, p)
  | Some conn =>
      '(ok, _) ← Conn.send_all (sends e) raw_request conn;
      if negb ok then Some (make_502_response, Pool.evict b (Some conn) p)
      else
        '(resp, conn) ← Conn.recv_all (recvs e) (recv_time e) conn;
        if bool_decide (resp = []) then Some (make_502_response, Pool.evict b (Some conn) p)
        else Some (resp, Pool.release b (alive_at_release e) (Some conn) p)
  end.

Definition forward (e : env) (b : Backend) (raw_request : bytes) (x : t) : option (bytes * t) :=
  match pool x with
  | Some p =>
      '(resp, p) ← forward_pooled e b raw_request p;
      Some (resp, set_pool p x)
  | None =>
      resp ← forward_direct e raw_request;
      Some (resp, x)
  end.

(** ** Properties *)

(** The gateway always has something to send: whatever the backend and the
    kernel do, a forward that returns yields a non-empty response, either bytes
    of the backend or the canned 502. *)
Theorem forward_nonempty (e : env) (b : Backend) (raw_request resp : bytes) (x x' : t) :
  forward e b raw_request x = Some (resp, x') -> resp <> [].
Proof.
  unfold forward, forward_pooled, forward_direct. destruct (pool x) as [p|].
  - destruct (Pool.acquire _ _ _ _ p) as [[conn|] p1]; simpl; [|by intros [= <- _]].
    destruct (Conn.send_all _ _ _) as [[[] w]|]; simpl; [|by intros [= <- _]|done].
    destruct (Conn.recv_all _ _ _) as [[r c]|]; simpl; [|done].
    split_if; [by intros [= <- _]|]. by intros [= <- _].
  - repeat (split_if; [by intros [= <- _]|]).
    destruct (nb_send_all _ _) as [n|]; simpl; [|done]. split_if; [by intros [= <- _]|].
    destruct (direct_loop _ _) as [r|]; simpl; [|done]. intros [= <- _]. by split_if.
Qed.

Definition sample_backend : Backend := mkBackend (lit "10.0.0.1") 9001.
Definition refused : env :=
  Build_env (fun _ => Conn.Build_alive_env 0 0 (-1) 11) 0
    (Conn.Build_connect_env 7 1 (-1) 111 0 0 0 0) [] [] 0 (fun _ => Conn.Build_alive_env 0 0 (-1) 11).

(** Applied to a refused connection. *)
Lemma forward_nonempty_witness :
  forward refused sample_backend (lit "GET") (create 3000) = Some (make_502_response, create 3000) /\
  make_502_response <> [].
Proof.
  split; [vm_compute; reflexivity|].
  apply (forward_nonempty refused sample_backend (lit "GET") make_502_response
           (create 3000) (create 3000)).
  vm_compute. reflexivity.
Defined.

Lemma active_decrement b p k :
  0 <= Pool.active_of k p < two64 ->
  Pool.active_of k (Pool.decrement b p) =
  if decide (Pool.make_key b = k) then Z.max 0 (Pool.active_of k p - 1) else Pool.active_of k p.
Proof.
  intros H. unfold Pool.active_of at 1. rewrite Pool.entry_decrement.
  destruct (decide _); [|done]. simpl. split_if; [rewrite u64_small|]; lia.
Qed.

Lemma active_release b env c p k :
  0 <= Pool.active_of k p < two64 ->
  Pool.active_of k (Pool.release b env (Some c) p) =
  if decide (Pool.make_key b = k) then Z.max 0 (Pool.active_of k p - 1) else Pool.active_of k p.
Proof.
  intros H. unfold Pool.release. split_if; [|by apply active_decrement].
  unfold Pool.active_of at 1, Pool.release_live. rewrite Pool.entry_set.
  destruct (decide _) as [<-|]; [|done]. simpl. fold (Pool.active_of (Pool.make_key b) p).
  split_if; [rewrite u64_small|]; lia.
Qed.

Lemma active_acquire b env now ce p k :
  0 <= Pool.active_of k p -> Pool.active_of k p + 1 < two64 ->
  Pool.active_of k (Pool.acquire b env now ce p).2 =
  if decide (Pool.make_key b = k) then
    match (Pool.acquire b env now ce p).1 with
    | Some _ => Pool.active_of k p + 1
    | None => Pool.active_of k p
    end
  else Pool.active_of k p.
Proof.
  intros H0 H1. unfold Pool.acquire, Pool.acquire_idle.
  destruct (Pool.pop_alive _ _ _) as [[c|] q].
  - simpl. unfold Pool.active_of at 1. rewrite Pool.entry_set.
    destruct (decide _) as [<-|]; [|done]. simpl. rewrite u64_small; [done|]. unfold Pool.active_of in *. lia.
  - destruct (Conn.connect ce _) as [[] c]; simpl; unfold Pool.active_of at 1.
    + rewrite Pool.entry_set. destruct (decide _) as [<-|]; [|done]. simpl.
      rewrite u64_small; [done|]. unfold Pool.active_of in *. lia.
    + rewrite Pool.entry_decrement. unfold Pool.active_of. rewrite !Pool.entry_set.
      destruct (decide _) as [<-|]; [|done]. simpl. fold (Pool.active_of (Pool.make_key b) p).
      rewrite u64_small by lia. split_if; [|lia]. rewrite u64_small; lia.
Qed.

(** No connection leaks from the accounting: on every path of a pooled forward,
    success, refused connection, failed send, empty response, dead or live
    connection at the end, the number of connections handed out returns to what
    it was, for every backend. *)
Theorem forward_pooled_balanced (e : env) (b : Backend) (raw_request resp : bytes) (p p' : Pool.t)
    (k : bytes) :
  0 <= Pool.active_of k p -> Pool.active_of k p + 1 < two64 ->
  forward_pooled e b raw_request p = Some (resp, p') ->
  Pool.active_of k p' = Pool.active_of k p.
Proof.
  intros H0 H1. unfold forward_pooled.
  pose proof (active_acquire b (alive_at_acquire e) (acquire_time e) (conn_env e) p k H0 H1) as Ha.
  destruct (Pool.acquire _ _ _ _ p) as [[conn|] p1]; simpl in Ha.
  2: { intros [= _ <-]. rewrite Ha. by destruct (decide _). }
  assert (0 <= Pool.active_of k p1 < two64) as Hr by (rewrite Ha; destruct (decide _); lia).
  destruct (Conn.send_all _ _ _) as [[[] w]|]; cbn [mbind option_bind negb]; [|intros [= _ <-]|done].
  2: { cbn [Pool.evict]. rewrite active_decrement by done. rewrite Ha. destruct (decide _); lia. }
  destruct (Conn.recv_all _ _ _) as [[r c]|]; cbn [mbind option_bind]; [|done].
  pose proof (active_release b (alive_at_release e) c p1 k Hr) as Hrel.
  cbn [Pool.release Pool.evict] in Hrel.
  split_if; intros [= _ <-]; [rewrite active_decrement by done|rewrite Hrel];
    rewrite Ha; destruct (decide _); lia.
Qed.

(** Applied to a refused connection. *)
Lemma forward_pooled_balanced_witness :
  exists p', forward_pooled refused sample_backend (lit "GET") (Pool.create 10 60)
             = Some (make_502_response, p') /\
    Pool.active_of (Pool.make_key sample_backend) p' = 0.
Proof.
  eexists. split; [vm_compute; reflexivity|].
  apply (forward_pooled_balanced refused sample_backend (lit "GET") make_502_response
           (Pool.create 10 60)).
  - vm_compute. discriminate.
  - vm_compute. reflexivity.
  - vm_compute. reflexivity.
Defined.

(** C29. A truncated response poisons the pool: when the backend's response has no
    Content-Length, the forward returns its head and puts the connection, with
    the rest of the body still unread on it, back into the pool, because
    [is_alive] takes readable bytes for a sign of life. *)
Theorem unsized_response_pools_dirty_connection (e : env) (b : Backend) (raw_request d : bytes)
    (he : nat) (rest : list Conn.recv_event) (p p1 : Pool.t) (conn : Conn.t) (wire : bytes) :
  Pool.acquire b (alive_at_acquire e) (acquire_time e) (conn_env e) p = (Some conn, p1) ->
  0 <= Conn.fd conn ->
  Conn.send_all (sends e) raw_request conn = Some (true, wire) ->
  recvs e = Conn.data_events [d] ++ rest ->
  find_sub CRLFCRLF d = Some he -> zlen d < two64 ->
  find_sub (CRLF ++ lit "Content-Length:") (take he d) = None ->
  find_sub (CRLF ++ lit "content-length:") (take he d) = None ->
  alive_at_release e (Conn.touch (recv_time e) conn) = Conn.Build_alive_env 0 0 1 0 ->
  zlen (Pool.idle_of (Pool.make_key b) p1) < Pool.max_idle_per_host p1 ->
  exists p', forward_pooled e b raw_request p = Some (d, p') /\
    Pool.idle_of (Pool.make_key b) p'
    = Pool.idle_of (Pool.make_key b) p1 ++ [Conn.touch (recv_time e) conn].
Proof.
  intros Hac Hfd Hs Hr Hhe Hl H1 H2 Hal Hroom. unfold forward_pooled. rewrite Hac, Hs. cbn [mbind option_bind negb].
  rewrite Hr. assert (Conn.recv_all (Conn.data_events [d] ++ rest) (recv_time e) conn
    = Some (d, Conn.touch (recv_time e) conn)) as ->.
  { unfold Conn.recv_all. destruct (Z.ltb_spec (Conn.fd conn) 0); [lia|].
    rewrite (Conn.recv_loop_unsized d he rest Hhe Hl H1 H2). simpl.
    rewrite bool_decide_eq_false_2; [done|]. by intros ->. }
  cbn [mbind option_bind]. rewrite bool_decide_eq_false_2 by by intros ->.
  eexists. split; [done|]. unfold Pool.release.
  assert (Conn.is_alive (alive_at_release e (Conn.touch (recv_time e) conn))
            (Conn.touch (recv_time e) conn) = true) as ->.
  { rewrite Hal. unfold Conn.is_alive. simpl. destruct (Z.ltb_spec (Conn.fd conn) 0); [lia|done]. }
  unfold Pool.idle_of, Pool.release_live. rewrite Pool.entry_set, decide_True by done. simpl.
  fold (Pool.idle_of (Pool.make_key b) p1). by rewrite (proj2 (Z.ltb_lt _ _)).
Qed.

Definition leaky : env :=
  Build_env (fun _ => Conn.Build_alive_env 0 0 (-1) 11) 0
    (Conn.Build_connect_env 7 1 0 0 0 0 0 0) [Conn.Build_send_event 1 3 0]
    (Conn.data_events [Conn.chunked_response_head; lit "5" ++ CRLF ++ lit "hello" ++ CRLF]) 4
    (fun _ => Conn.Build_alive_env 0 0 1 0).

(** C29 applied to a chunked response over a fresh connection. *)
Lemma unsized_response_pools_dirty_connection_witness :
  exists p', forward_pooled leaky sample_backend (lit "GET") (Pool.create 10 60)
             = Some (Conn.chunked_response_head, p') /\
    Pool.idle_of (Pool.make_key sample_backend) p' = [Conn.mk 7 (lit "10.0.0.1") 9001 4].
Proof.
  apply (unsized_response_pools_dirty_connection leaky sample_backend (lit "GET")
    Conn.chunked_response_head 43 (Conn.data_events [lit "5" ++ CRLF ++ lit "hello" ++ CRLF])
    (Pool.create 10 60)
    (Pool.acquire sample_backend (alive_at_acquire leaky) 0 (conn_env leaky) (Pool.create 10 60)).2
    (Conn.mk 7 (lit "10.0.0.1") 9001 0) (lit "GET")).
  - vm_compute. reflexivity.
  - vm_compute. discriminate.
  - vm_compute. reflexivity.
  - vm_compute. reflexivity.
  - vm_compute. reflexivity.
  - vm_compute. reflexivity.
  - vm_compute. reflexivity.
  - vm_compute. reflexivity.
  - vm_compute. reflexivity.
  - vm_compute. reflexivity.
Defined.

End Proxy.
