(* ===== verification/Connection.v ===== *)
(** * Connection: src/net/connection.cpp

    One client connection: its five-state machine, the read and write buffers and
    the incremental parser.  Effects on the event loop, the callbacks and the
    descriptor are recorded as a trace of [event]s.  Results of the system calls
    are scripts; an operation yields [None] when it has not returned (script used
    up, the parser still running) or would leave the buffer.  [send] and
    [force_close] hand [send_internal] and [close_internal] to the event loop. *)

From S2P Require Import Prelude Utils Http Buffer HttpParser HttpParserSpec HttpParserProps HttpGrammar HttpAccept.

Module Connection.
Module Parser := HttpParser.
Open Scope Z_scope.

Inductive State := Reading | Processing | Writing | Closing | Closed.

#[global] Instance State_eq_dec : EqDecision State.
Proof. solve_decision. Defined.

(** What the connection does to its surroundings. *)
Inductive event :=
  | ModFd (fd : Z) (out : bool)      (* mod_fd, with or without EPOLLOUT *)
  | DelFd (fd : Z)
  | RemoveCallback (fd : Z)
  | MessageCallback (fd : Z) (raw : bytes)
  | CloseCallback (fd : Z)
  | ShutdownWr (fd : Z)
  | CloseFd (fd : Z).

Record t := mk {
  fd : Z;
  state : State;
  last_active_time : Z;
  max_request_size : Z;
  read_buf : Buffer.t;
  write_buf : Buffer.t;
  keep_alive : bool;
  parser : Parser.t
}.

Definition set_state (s : State) (c : t) : t :=
  mk (fd c) s (last_active_time c) (max_request_size c) (read_buf c) (write_buf c) (keep_alive c) (parser c).
Definition set_time (now : Z) (c : t) : t :=
  mk (fd c) (state c) now (max_request_size c) (read_buf c) (write_buf c) (keep_alive c) (parser c).
Definition set_read_buf (b : Buffer.t) (c : t) : t :=
  mk (fd c) (state c) (last_active_time c) (max_request_size c) b (write_buf c) (keep_alive c) (parser c).
Definition set_write_buf (b : Buffer.t) (c : t) : t :=
  mk (fd c) (state c) (last_active_time c) (max_request_size c) (read_buf c) b (keep_alive c) (parser c).
Definition set_keep_alive (ka : bool) (c : t) : t :=
  mk (fd c) (state c) (last_active_time c) (max_request_size c) (read_buf c) (write_buf c) ka (parser c).
Definition set_parser (p : Parser.t) (c : t) : t :=
  mk (fd c) (state c) (last_active_time c) (max_request_size c) (read_buf c) (write_buf c) (keep_alive c) p.

Definition create (now fd max_size : Z) : t :=
  mk fd Reading now max_size Buffer.create Buffer.create false
     (Parser.set_max_size max_size Parser.create).

(** The destructor. *)
Definition destroy (c : t) : list event := if 0 <=? fd c then [CloseFd (fd c)] else [].

Definition close_internal (c : t) : t * list event :=
  if bool_decide (state c = Closed) then (c, [])
  else
    (mk (-1) Closed (last_active_time c) (max_request_size c) (read_buf c) (write_buf c)
        (keep_alive c) (parser c),
     [DelFd (fd c); CloseCallback (fd c); RemoveCallback (fd c); CloseFd (fd c)]).

(** The loop over [read_buf_] and the pending bytes of the parser. *)
Fixpoint try_parse_message (rounds fuel : nat) (c : t) : option (t * list event) :=
  match rounds with
  | O => None
  | S rounds' =>
      if negb (Buffer.empty (read_buf c)) || (0 <? Parser.pending_size (parser c)) then
        data ← Buffer.read_as_string (read_buf c);
        '(consumed, p) ← Parser.parse fuel data (parser c);
        let c := set_read_buf (Buffer.consume consumed (read_buf c)) (set_parser p c) in
        if Parser.has_error p then Some (close_internal c)
        else if Parser.complete p then
          Some (set_state Processing (set_parser (Parser.reset p) c),
                [MessageCallback (fd c) (Parser.raw p)])
        else if consumed =? 0 then Some (c, [])
        else try_parse_message rounds' fuel c
      else Some (c, [])
  end.

(** The ET read loop: [inl] when the socket is drained, [inr] when the connection
    was closed on the way. *)
Fixpoint read_loop (reads : list Buffer.io) (c : t) : option (t + t * list event) :=
  match reads with
  | [] => None
  | r :: reads' =>
      '(n, b) ← Buffer.read_from_fd r (read_buf c);
      let c := set_read_buf b c in
      if n =? 0 then Some (inr (close_internal c))
      else if n <? 0 then
        match r with
        | Buffer.IoErr errno => if errno =? 11 then Some (inl c) else Some (inr (close_internal c))
        | Buffer.IoOk _ => None
        end
      else if u64 (max_request_size c) <? Buffer.readable_size b then Some (inr (close_internal c))
      else read_loop reads' c
  end.

(** In [Closing] the input is drained and discarded before the close. *)
Definition on_read (rounds fuel : nat) (now : Z) (reads : list Buffer.io) (c : t) :
    option (t * list event) :=
  if bool_decide (state c = Closing) then Some (close_internal c)
  else if negb (bool_decide (state c = Reading)) then Some (c, [])
  else
    r ← read_loop reads (set_time now c);
    match r with
    | inl c => try_parse_message rounds fuel c
    | inr res => Some res
    end.

Definition finish_response (rounds fuel : nat) (c : t) : option (t * list event) :=
  if keep_alive c then
    let c := set_parser (Parser.reset (parser c)) (set_state Reading c) in
    if 0 <? Parser.pending_size (parser c) then
      '(c', evs) ← try_parse_message rounds fuel c;
      Some (c', ModFd (fd c) false :: evs)
    else Some (c, [ModFd (fd c) false])
  else Some (set_state Closing c, [ShutdownWr (fd c); ModFd (fd c) false]).

(** The write loop: the results of [write] and [errno]. *)
Fixpoint on_write_loop (rounds fuel : nat) (writes : list (Z * Z)) (c : t) : option (t * list event) :=
  if Buffer.empty (write_buf c) then finish_response rounds fuel c
  else
    match writes with
    | [] => None
    | (ret, errno) :: writes' =>
        let '(n, b) := Buffer.write_to_fd ret (write_buf c) in
        let c := set_write_buf b c in
        if n <? 0 then
          if errno =? 11 then Some (c, []) else Some (close_internal c)
        else if n =? 0 then Some (c, [])
        else on_write_loop rounds fuel writes' c
    end.

Definition on_write (rounds fuel : nat) (now : Z) (writes : list (Z * Z)) (c : t) :
    option (t * list event) :=
  if negb (bool_decide (state c = Writing)) then Some (c, [])
  else on_write_loop rounds fuel writes (set_time now c).

Definition send_internal (rounds fuel : nat) (now : Z) (writes : list (Z * Z)) (data : bytes)
    (ka : bool) (c : t) : option (t * list event) :=
  if negb (bool_decide (state c = Processing)) && negb (bool_decide (state c = Reading))
  then Some (c, [])
  else
    b ← Buffer.append data (write_buf c);
    let c := set_state Writing (set_write_buf b (set_keep_alive ka c)) in
    '(c', evs) ← on_write rounds fuel now writes c;
    Some (c', ModFd (fd c) true :: evs).

(** The task [force_close] hands to the event loop, if any. *)
Definition force_close (c : t) : bool := negb (bool_decide (state c = Closed)).

(** ** Executions: the event loop calls one of these at a time *)

Inductive op :=
  | OnRead (now : Z) (reads : list Buffer.io)
  | OnWrite (now : Z) (writes : list (Z * Z))
  | SendInternal (now : Z) (writes : list (Z * Z)) (data : bytes) (ka : bool)
  | CloseInternal.

Definition exec (rounds fuel : nat) (o : op) (c : t) : option (t * list event) :=
  match o with
  | OnRead now reads => on_read rounds fuel now reads c
  | OnWrite now writes => on_write rounds fuel now writes c
  | SendInternal now writes data ka => send_internal rounds fuel now writes data ka c
  | CloseInternal => Some (close_internal c)
  end.

Fixpoint run (rounds fuel : nat) (os : list op) (c : t) : option (t * list event) :=
  match os with
  | [] => Some (c, [])
  | o :: os' =>
      '(c1, e1) ← exec rounds fuel o c;
      '(c2, e2) ← run rounds fuel os' c1;
      Some (c2, e1 ++ e2)
  end.

(** ** The state diagram *)

(** The edges of connection.h, with those the code adds: a response may be sent
    while the connection still reads, and any state may close. *)
Inductive edge : State -> State -> Prop :=
  | edge_message : edge Reading Processing
  | edge_send : edge Processing Writing
  | edge_early_send : edge Reading Writing
  | edge_keep_alive : edge Writing Reading
  | edge_linger : edge Writing Closing
  | edge_close s : s <> Closed -> edge s Closed.

Definition closing_events (f : Z) : list event := [DelFd f; CloseCallback f; RemoveCallback f; CloseFd f].

(** An event that ends the life of a descriptor. *)
Definition is_close (e : event) : bool :=
  match e with DelFd _ | CloseCallback _ | RemoveCallback _ | CloseFd _ => true | _ => false end.

(** What every operation does: it moves along edges, and the closing events are
    emitted exactly when the connection becomes closed, on its own descriptor. *)
Definition well_behaved (c c' : t) (evs : list event) : Prop :=
  rtc edge (state c) (state c') /\
  match state c, state c' with
  | Closed, _ => c' = c /\ evs = []
  | _, Closed => filter is_close evs = closing_events (fd c) /\ fd c' = -1
  | _, _ => filter is_close evs = [] /\ fd c' = fd c
  end.

Lemma close_well_behaved c : well_behaved c (close_internal c).1 (close_internal c).2.
Proof.
  unfold close_internal. split_if.
  - split; [apply rtc_refl|]. simpl. by rewrite Heqb.
  - split; [apply rtc_once; by constructor|]. simpl. by destruct (state c).
Qed.

Lemma wb_refl c : well_behaved c c [].
Proof. split; [apply rtc_refl|]. by destruct (state c). Qed.

(** Only the state and the descriptor of the start matter; an edge may be put in
    front, and events that close nothing. *)
Lemma wb_from c0 c c' evs es :
  well_behaved c c' evs -> state c0 <> Closed -> state c <> Closed ->
  rtc edge (state c0) (state c) -> fd c0 = fd c -> Forall (fun e => is_close e = false) es ->
  well_behaved c0 c' (es ++ evs).
Proof.
  intros [Hr H] H0 Hc He Hf Hes. split; [by etrans|].
  assert (filter is_close (es ++ evs) = filter is_close evs) as Efil.
  { induction Hes as [|x es Hx _ IH]; [done|]. simpl app. rewrite filter_cons_False; [done|].
    intros Hb. by rewrite Hx in Hb. }
  destruct (state c) eqn:E1; try done;
    destruct (state c0); try done; destruct (state c'); by rewrite ?Efil, ?Hf.
Qed.

Lemma wb_same c0 c c' evs :
  well_behaved c c' evs -> state c0 <> Closed -> state c = state c0 -> fd c = fd c0 ->
  well_behaved c0 c' evs.
Proof.
  intros H H0 Hs Hf. apply (wb_from c0 c c' evs []); try done; [congruence|].
  by rewrite Hs.
Qed.

Lemma wb_close c0 c :
  state c0 <> Closed -> state c = state c0 -> fd c = fd c0 ->
  well_behaved c0 (close_internal c).1 (close_internal c).2.
Proof. intros. eapply wb_same; [apply close_well_behaved|done..]. Qed.

Lemma try_parse_wb rounds fuel c c' evs :
  state c = Reading -> try_parse_message rounds fuel c = Some (c', evs) -> well_behaved c c' evs.
Proof.
  revert c; induction rounds as [|rounds IH]; intros c Hs; simpl; [done|].
  split_if; [|intros [= <- <-]; apply wb_refl].
  destruct (Buffer.read_as_string (read_buf c)) as [data|]; simpl; [|done].
  destruct (Parser.parse fuel data (parser c)) as [[n p]|]; simpl; [|done].
  set (c1 := set_read_buf _ _).
  destruct (Parser.has_error p).
  { intros [= Hc]. rewrite (surjective_pairing (close_internal c1)) in Hc.
    injection Hc as <- <-. apply wb_close; [by rewrite Hs|done|done]. }
  destruct (Parser.complete p).
  { intros [= <- <-]. apply (wb_from c (set_state Processing c) _ [] [_]); try by rewrite ?Hs.
    - rewrite Hs. apply rtc_once. constructor.
    - by constructor. }
  split_if; [intros [= <- <-]; apply (wb_same c c1); try done; [apply wb_refl|by rewrite Hs]|].
  intros H. apply (wb_same c c1); try done; [|by rewrite Hs]. by apply IH.
Qed.

Lemma read_loop_wb reads c r :
  state c = Reading -> read_loop reads c = Some r ->
  match r with
  | inl c' => state c' = Reading /\ fd c' = fd c
  | inr (c', evs) => well_behaved c c' evs
  end.
Proof.
  revert c; induction reads as [|x reads IH]; intros c Hs; simpl; [done|].
  destruct (Buffer.read_from_fd x (read_buf c)) as [[n b]|]; simpl; [|done].
  set (c1 := set_read_buf b c).
  assert (Hcl : forall r, Some (inr (close_internal c1)) = Some r ->
    match r with
    | inl c' => state c' = Reading /\ fd c' = fd c
    | inr (c', evs) => well_behaved c c' evs
    end).
  { intros r' [= <-]. rewrite (surjective_pairing (close_internal c1)).
    apply wb_close; [by rewrite Hs|done|done]. }
  split_if; [apply Hcl|]. split_if.
  { destruct x as [errno|]; [|done]. split_if; [|apply Hcl]. by intros [= <-]. }
  split_if; [apply Hcl|]. intros H. specialize (IH c1 Hs H).
  destruct r as [c'|[c' evs]]; [done|]. apply (wb_same c c1); try done. by rewrite Hs.
Qed.

Lemma on_read_wb rounds fuel now reads c c' evs :
  on_read rounds fuel now reads c = Some (c', evs) -> well_behaved c c' evs.
Proof.
  unfold on_read. split_if.
  { intros [= H]. rewrite (surjective_pairing (close_internal c)) in H. injection H as <- <-.
    apply close_well_behaved. }
  split_if; [intros [= <- <-]; apply wb_refl|].
  destruct (read_loop reads (set_time now c)) as [r|] eqn:Er; simpl; [|done].
  apply read_loop_wb in Er; [|done]. destruct r as [c1|[c1 e1]].
  - destruct Er as [Hs Hf]. intros H. apply try_parse_wb in H; [|done].
    apply (wb_same c c1); try done; congruence.
  - intros [= <- <-]. apply (wb_same c (set_time now c)); try done. congruence.
Qed.

Lemma finish_response_wb rounds fuel c c' evs :
  state c = Writing -> finish_response rounds fuel c = Some (c', evs) -> well_behaved c c' evs.
Proof.
  intros Hs. unfold finish_response.
  assert (rtc edge (state c) Reading) as Hka by (rewrite Hs; apply rtc_once; constructor).
  set (c1 := set_parser _ _). split_if.
  - split_if.
    + destruct (try_parse_message rounds fuel c1) as [[c2 e2]|] eqn:E; simpl; [|done].
      intros [= <- <-]. apply try_parse_wb in E; [|done].
      apply (wb_from c c1 _ _ [_]); try done; [by rewrite Hs|by constructor].
    + intros [= <- <-]. apply (wb_from c c1 _ [] [_]); try done;
        [by rewrite Hs|by constructor].
  - intros [= <- <-]. apply (wb_from c (set_state Closing c) _ [] [_; _]); try done;
      [by rewrite Hs| |by repeat constructor].
    rewrite Hs. apply rtc_once. constructor.
Qed.

Lemma on_write_loop_wb rounds fuel writes c c' evs :
  state c = Writing -> on_write_loop rounds fuel writes c = Some (c', evs) -> well_behaved c c' evs.
Proof.
  revert c; induction writes as [|[ret errno] writes IH]; intros c Hs; simpl.
  - split_if; [by apply finish_response_wb|done].
  - split_if; [by apply finish_response_wb|].
    destruct (Buffer.write_to_fd ret (write_buf c)) as [n b]. set (c1 := set_write_buf b c).
    assert (well_behaved c c1 []) as H1 by (apply (wb_same c c1); [apply wb_refl|by rewrite Hs|done|done]).
    split_if.
    { split_if; [by intros [= <- <-]|]. intros [= H].
      rewrite (surjective_pairing (close_internal c1)) in H. injection H as <- <-.
      apply wb_close; [by rewrite Hs|done|done]. }
    split_if; [by intros [= <- <-]|]. intros H.
    apply (wb_same c c1); [by apply IH|by rewrite Hs|done|done].
Qed.

Lemma on_write_wb rounds fuel now writes c c' evs :
  on_write rounds fuel now writes c = Some (c', evs) -> well_behaved c c' evs.
Proof.
  unfold on_write. split_if; [intros [= <- <-]; apply wb_refl|]. intros H.
  apply on_write_loop_wb in H; [|done]. apply (wb_same c (set_time now c)); try done. congruence.
Qed.

Lemma send_internal_wb rounds fuel now writes data ka c c' evs :
  send_internal rounds fuel now writes data ka c = Some (c', evs) -> well_behaved c c' evs.
Proof.
  unfold send_internal.
  destruct (negb (bool_decide (state c = Processing)) && negb (bool_decide (state c = Reading))) eqn:E.
  { intros [= <- <-]. apply wb_refl. }
  destruct (Buffer.append data (write_buf c)) as [b|]; simpl; [|done].
  set (c1 := set_state Writing _).
  destruct (on_write rounds fuel now writes c1) as [[c2 e2]|] eqn:Ew; simpl; [|done].
  intros [= <- <-]. apply on_write_wb in Ew.
  assert (state c = Processing \/ state c = Reading) as Hs.
  { apply andb_false_iff in E as [E|E]; breflect; tauto. }
  apply (wb_from c c1 _ _ [_]); try done; [by destruct Hs; congruence| |by constructor].
  destruct Hs as [-> | ->]; apply rtc_once; constructor.
Qed.

Lemma exec_wb rounds fuel o c c' evs :
  exec rounds fuel o c = Some (c', evs) -> well_behaved c c' evs.
Proof.
  destruct o; simpl; [apply on_read_wb|apply on_write_wb|apply send_internal_wb|].
  intros [= H]. rewrite (surjective_pairing (close_internal c)) in H. injection H as <- <-.
  apply close_well_behaved.
Qed.

Lemma wb_trans c c1 c2 e1 e2 :
  well_behaved c c1 e1 -> well_behaved c1 c2 e2 -> well_behaved c c2 (e1 ++ e2).
Proof.
  intros [R1 H1] [R2 H2]. split; [by etrans|]. rewrite filter_app.
  destruct (state c) eqn:E0.
  5: { destruct H1 as [-> ->]. rewrite E0 in H2. destruct H2 as [-> ->]. done. }
  all: destruct (state c1) eqn:E1;
    try (destruct H2 as [-> ->]; rewrite E1; destruct H1 as [-> ->]; by rewrite app_nil_r).
  all: destruct H1 as [-> Hf]; destruct (state c2); destruct H2 as [-> Hf2]; by rewrite ?Hf2, ?Hf.
Qed.

Lemma run_wb rounds fuel os c c' evs :
  run rounds fuel os c = Some (c', evs) -> well_behaved c c' evs.
Proof.
  revert c evs; induction os as [|o os IH]; intros c evs; simpl.
  { intros [= <- <-]. apply wb_refl. }
  destruct (exec rounds fuel o c) as [[c1 e1]|] eqn:E; simpl; [|done].
  destruct (run rounds fuel os c1) as [[c2 e2]|] eqn:E2; simpl; [|done].
  intros [= <- <-]. eapply wb_trans; [by eapply exec_wb|by apply IH].
Qed.

(** The connection follows the state diagram: in every execution of event-loop
    callbacks and deferred tasks, from any state, the state only moves along the
    documented edges (and the direct answer while reading). *)
Theorem connection_follows_diagram (rounds fuel : nat) (os : list op) (c c' : t) (evs : list event) :
  run rounds fuel os c = Some (c', evs) -> rtc edge (state c) (state c').
Proof. intros H. by apply run_wb in H as [H _]. Qed.

Definition get_request : bytes := lit "GET / HTTP/1.1" ++ CRLFCRLF.

(** Applied to a request, its answer with keep-alive and the peer's close. *)
Lemma connection_follows_diagram_witness :
  exists c' evs,
    run 50 4 [OnRead 1 [Buffer.IoOk get_request; Buffer.IoErr 11]; SendInternal 2 [(2, 0)] (lit "OK") true;
              OnRead 3 [Buffer.IoOk []]] (create 0 9 65536) = Some (c', evs) /\
    state c' = Closed /\ rtc edge Reading (state c').
Proof.
  destruct (run 50 4 [OnRead 1 [Buffer.IoOk get_request; Buffer.IoErr 11];
    SendInternal 2 [(2, 0)] (lit "OK") true; OnRead 3 [Buffer.IoOk []]] (create 0 9 65536))
    as [[c' evs]|] eqn:E.
  - exists c', evs. split; [reflexivity|]. split.
    + vm_compute in E. injection E as <- _. reflexivity.
    + apply (connection_follows_diagram _ _ _ _ _ _ E).
  - vm_compute in E. discriminate E.
Defined.

(** C21. A descriptor is closed exactly once: over the whole life of a connection,
    any execution followed by the destructor, the descriptor is handed to
    [close(2)] once, and the close callback, [del_fd] and [remove_callback] run
    at most once, on the original descriptor. *)
Theorem descriptor_closed_once (rounds fuel : nat) (os : list op) (now f max_size : Z) (c' : t)
    (evs : list event) :
  0 <= f -> run rounds fuel os (create now f max_size) = Some (c', evs) ->
  filter is_close (evs ++ destroy c')
  = if bool_decide (state c' = Closed) then closing_events f else [CloseFd f].
Proof.
  intros Hf H. apply run_wb in H as [_ H]. simpl in H. rewrite filter_app. unfold destroy.
  destruct (state c'); destruct H as [-> ->]; simpl; try done;
    by rewrite (proj2 (Z.leb_le 0 f)).
Qed.

(** C21 applied to a connection closed by its peer. *)
Lemma descriptor_closed_once_witness :
  exists c' evs, run 50 4 [OnRead 1 [Buffer.IoOk []]; CloseInternal] (create 0 9 65536) = Some (c', evs) /\
    filter is_close (evs ++ destroy c') = closing_events 9.
Proof.
  destruct (run 50 4 [OnRead 1 [Buffer.IoOk []]; CloseInternal] (create 0 9 65536)) as [[c' evs]|] eqn:E.
  - exists c', evs. split; [reflexivity|].
    rewrite (descriptor_closed_once 50 4 [OnRead 1 [Buffer.IoOk []]; CloseInternal] 0 9 65536 c' evs);
      [|lia|exact E].
    vm_compute in E. injection E as <- _. reflexivity.
  - vm_compute in E. discriminate E.
Defined.

(** ** The connection and its parser *)

Lemma active_parse fuel d p n p' :
  HttpParserSpec.active p -> Parser.parse fuel d p = Some (n, p') ->
  0 <= n /\ (Parser.has_error p' = false -> drop (Z.to_nat n) d = []).
Proof.
  intros Ha. rewrite HttpParserSpec.parse_active by done.
  destruct (Parser.process fuel _) as [p1|]; simpl; [|done].
  destruct (HttpParserSpec.check_cases p1) as [[-> _]|[-> _]]; cbn [negb].
  - destruct (Z.ltb_spec 0 (zlen d)) as [Hd|Hd]; intros [= <- <-].
    + split; [lia|]. intros _. apply drop_ge. unfold zlen. lia.
    + split; [apply u64_range|]. intros _.
      rewrite (zlen_0 d) by (pose proof (zlen_nonneg d); lia). apply drop_nil.
  - intros [= <- <-]. split; [done|]. intros H. done.
Qed.

Lemma rep_empty b d : Buffer.rep b d -> Buffer.empty b = bool_decide (d = []).
Proof.
  intros Hr. destruct (Buffer.rep_sizes _ _ Hr) as (E & _). unfold Buffer.empty. rewrite E.
  destruct (decide (d = [])) as [->|Hne]; [done|].
  rewrite bool_decide_eq_false_2 by done. apply Z.eqb_neq. pose proof (zlen_pos d Hne). lia.
Qed.

Lemma consume_buf n b : Buffer.buf (Buffer.consume n b) = Buffer.buf b.
Proof. unfold Buffer.consume. by split_if. Qed.

(** [try_parse_message] runs the parser as [feed] does: the buffer is emptied into
    it, and the outcome decides between close, message and waiting. *)
Lemma try_parse_feed rounds fuel c d :
  Buffer.rep (read_buf c) d -> HttpParserSpec.active (parser c) ->
  match HttpParserSpec.feed rounds fuel d (parser c) with
  | None => try_parse_message rounds fuel c = None
  | Some p => exists b, Buffer.buf b = Buffer.buf (read_buf c) /\
      let c1 := set_read_buf b (set_parser p c) in
      if Parser.has_error p then try_parse_message rounds fuel c = Some (close_internal c1)
      else Buffer.rep b [] /\
        try_parse_message rounds fuel c =
        Some (if Parser.complete p
              then (set_state Processing (set_parser (Parser.reset p) c1),
                    [MessageCallback (fd c) (Parser.raw p)])
              else (c1, []))
  end.
Proof.
  revert c d; induction rounds as [|rounds IH]; intros c d Hr Ha; [done|].
  cbn [HttpParserSpec.feed try_parse_message]. rewrite (rep_empty _ _ Hr).
  destruct (negb (bool_decide (d = [])) || (0 <? Parser.pending_size (parser c))) eqn:Hgo.
  - rewrite (Buffer.rep_read _ _ Hr). cbn [mbind option_bind].
    destruct (Parser.parse fuel d (parser c)) as [[n p]|] eqn:Hp; [|done].
    cbn [mbind option_bind].
    destruct (active_parse _ _ _ _ _ Ha Hp) as [Hn Hdrop].
    pose proof (Buffer.consume_rep _ _ n Hr Hn) as Hr1.
    destruct (Parser.has_error p) eqn:Herr.
    { exists (Buffer.consume n (read_buf c)). rewrite Herr. by split; [apply consume_buf|]. }
    rewrite (Hdrop eq_refl) in Hr1.
    destruct (Parser.complete p) eqn:Hcm.
    { exists (Buffer.consume n (read_buf c)). rewrite Herr, Hcm. by split; [apply consume_buf|]. }
    destruct (n =? 0).
    { exists (Buffer.consume n (read_buf c)). rewrite Herr, Hcm. by split; [apply consume_buf|]. }
    set (c1 := set_read_buf (Buffer.consume n (read_buf c)) (set_parser p c)).
    rewrite (Hdrop eq_refl). specialize (IH c1 [] Hr1). simpl parser in IH.
    assert (HttpParserSpec.active p) as Hap.
    { unfold Parser.has_error, Parser.complete in *. by breflect. }
    specialize (IH Hap). destruct (HttpParserSpec.feed rounds fuel [] p) as [p2|]; [|done].
    destruct IH as [b [Hl Hb]]. exists b. split; [|exact Hb]. by rewrite Hl; cbn; rewrite consume_buf.
  - assert (d = []) as ->.
    { apply orb_false_iff in Hgo as [H1 _]. by breflect. }
    unfold HttpParserSpec.active in Ha. exists (read_buf c).
    unfold Parser.has_error, Parser.complete.
    rewrite !bool_decide_eq_false_2 by tauto. split; [done|]. split; [done|]. by destruct c.
Qed.

(** A complete request of the plain form within the size limit. *)
Definition plain_request (mx : Z) (m : bytes) : Prop :=
  exists rl hs b req, m = HttpGrammar.crlf_lines (rl :: hs) ++ CRLF ++ b /\
    HttpGrammar.line_ok rl /\ Forall HttpGrammar.line_ok hs /\
    Parser.parse_request_line rl Http.empty_request = (true, req) /\
    Parser.mentions_chunked (HttpGrammar.add_headers hs req) = false /\
    HttpAccept.declared_length (HttpGrammar.add_headers hs req) = zlen b /\
    zlen m <= u64 mx.

Lemma plain_feed d p m rest rounds fuel :
  HttpGrammar.fresh p -> (4 <= fuel)%nat -> (HttpParserProps.rounds_for d p <= rounds)%nat ->
  plain_request (Parser.max_size p) m -> Parser.partial p ++ d = m ++ rest ->
  exists q, HttpParserSpec.feed rounds fuel d p = Some q /\ Parser.complete q = true /\
    Parser.raw q = m /\ Parser.partial q = rest.
Proof.
  intros Hp Hf Hr (rl & hs & b & req & -> & H1 & H2 & H3 & H4 & H5 & H6) Hd.
  rewrite <- !app_assoc in Hd.
  destruct (HttpAccept.plain_completes d p rl hs b rest req rounds fuel)
    as (q & Hq & Hc & Hraw & Hpart & _); try done. by exists q.
Qed.

Lemma complete_no_error p : Parser.complete p = true -> Parser.has_error p = false.
Proof.
  unfold Parser.complete, Parser.has_error. intros H. breflect. rewrite H. done.
Qed.

(** The parser of a connection keeps the configured limit through a message. *)
Lemma message_step rounds c d m rest :
  Buffer.rep (read_buf c) d -> HttpGrammar.fresh (parser c) ->
  (HttpParserProps.rounds_for d (parser c) <= rounds)%nat ->
  plain_request (Parser.max_size (parser c)) m -> Parser.partial (parser c) ++ d = m ++ rest ->
  exists c', try_parse_message rounds 4 c = Some (c', [MessageCallback (fd c) m]) /\
    state c' = Processing /\ fd c' = fd c /\ Buffer.rep (read_buf c') [] /\
    write_buf c' = write_buf c /\ HttpGrammar.fresh (parser c') /\
    Parser.partial (parser c') = rest.
Proof.
  intros Hrep Hp Hr Hm Hd.
  destruct (plain_feed d (parser c) m rest rounds 4 Hp ltac:(lia) Hr Hm Hd)
    as (q & Hq & Hc & Hraw & Hpart).
  pose proof (try_parse_feed rounds 4 c d Hrep (proj1 (proj2 (proj1 Hp)))) as H.
  rewrite Hq in H. destruct H as (b & _ & H). cbv zeta in H.
  rewrite (complete_no_error q Hc), Hc, Hraw in H. destruct H as [Hb H].
  eexists. split; [exact H|]. repeat split; try done. apply HttpGrammar.reset_fresh.
Qed.

Lemma read_delivers now c data m rest rounds :
  state c = Reading -> Buffer.rep (read_buf c) [] -> HttpGrammar.fresh (parser c) ->
  data <> [] -> zlen (Buffer.buf (read_buf c)) + zlen data < Buffer.max_size ->
  zlen data <= u64 (max_request_size c) ->
  (HttpParserProps.rounds_for data (parser c) <= rounds)%nat ->
  plain_request (Parser.max_size (parser c)) m -> Parser.partial (parser c) ++ data = m ++ rest ->
  exists c', on_read rounds 4 now [Buffer.IoOk data; Buffer.IoErr 11] c
             = Some (c', [MessageCallback (fd c) m]) /\
    state c' = Processing /\ Parser.partial (parser c') = rest /\ HttpGrammar.fresh (parser c') /\
    fd c' = fd c /\ Buffer.rep (read_buf c') [] /\ write_buf c' = write_buf c.
Proof.
  intros Hs Hrep Hp Hne Hsz Hlim Hr Hm Hd. unfold on_read.
  rewrite !bool_decide_eq_false_2, bool_decide_eq_true_2 by (rewrite Hs; done). cbn [negb].
  destruct (Buffer.read_from_fd_rep _ _ data Hrep Hsz) as (b & Hb & Hrb & _).
  destruct (Buffer.rep_sizes _ _ Hrb) as (Hrs & _). pose proof (zlen_pos data Hne).
  cbn [read_loop]. change (read_buf (set_time now c)) with (read_buf c). rewrite Hb.
  cbn [mbind option_bind]. destruct (Z.eqb_spec (zlen data) 0); [lia|].
  destruct (Z.ltb_spec (zlen data) 0); [lia|].
  rewrite Hrs. simpl. set (c1 := set_read_buf b _).
  rewrite (proj2 (Z.ltb_ge _ _)) by done. cbn [mbind option_bind].
  destruct (message_step rounds c1 data m rest) as (c' & -> & Hst & Hf & Hrd & Hwr & Hfr & Hpt); try done.
  exists c'. by split_and!.
Qed.

(** Delivery: a connection waiting for a request, with a fresh parser, that reads
    a plain request (alone or with pipelined bytes behind it) delivers exactly
    that request to the message callback, once, goes to Processing, and keeps the
    bytes behind it for the next request. *)
Theorem request_delivered (now : Z) (c : t) (data m rest : bytes) (rounds : nat) :
  state c = Reading -> Buffer.rep (read_buf c) [] -> HttpGrammar.fresh (parser c) ->
  data <> [] -> zlen (Buffer.buf (read_buf c)) + zlen data < Buffer.max_size ->
  zlen data <= u64 (max_request_size c) ->
  (HttpParserProps.rounds_for data (parser c) <= rounds)%nat ->
  plain_request (Parser.max_size (parser c)) m -> Parser.partial (parser c) ++ data = m ++ rest ->
  exists c', on_read rounds 4 now [Buffer.IoOk data; Buffer.IoErr 11] c
             = Some (c', [MessageCallback (fd c) m]) /\
    state c' = Processing /\ Parser.partial (parser c') = rest /\ HttpGrammar.fresh (parser c').
Proof.
  intros. destruct (read_delivers now c data m rest rounds) as (c' & H'); try done. exists c'. naive_solver.
Qed.

(** Applied to a request with the start of another behind it. *)
Lemma request_delivered_witness :
  exists c', on_read 100 4 1 [Buffer.IoOk (get_request ++ lit "GET /b"); Buffer.IoErr 11] (create 0 9 65536)
             = Some (c', [MessageCallback 9 get_request]) /\
    state c' = Processing /\ Parser.partial (parser c') = lit "GET /b".
Proof.
  destruct (request_delivered 1 (create 0 9 65536) (get_request ++ lit "GET /b") get_request (lit "GET /b") 100)
    as (c' & H1 & H2 & H3 & _).
  - reflexivity.
  - apply Buffer.create_rep.
  - apply (HttpGrammar.reset_fresh (Parser.set_max_size 65536 Parser.create)).
  - discriminate.
  - vm_compute. reflexivity.
  - vm_compute. discriminate.
  - vm_compute. lia.
  - exists (lit "GET / HTTP/1.1"), [], [],
      (snd (Parser.parse_request_line (lit "GET / HTTP/1.1") Http.empty_request)).
    split; [vm_compute; reflexivity|].
    split; [split; [discriminate|apply HttpGrammar.CR_free_dec; vm_compute; reflexivity]|].
    split; [constructor|]. split; [vm_compute; reflexivity|]. split; [vm_compute; reflexivity|].
    split; [vm_compute; reflexivity|]. vm_compute. discriminate.
  - vm_compute. reflexivity.
  - exists c'. split; [exact H1|]. split; [exact H2|exact H3].
Defined.

(** [send_internal] on a connection whose response is accepted in one write. *)
Lemma send_writes_out rounds fuel now c resp ka :
  state c = Processing -> Buffer.rep (write_buf c) [] -> resp <> [] ->
  zlen (Buffer.buf (write_buf c)) + zlen resp < Buffer.max_size ->
  exists b, Buffer.rep b [] /\
    send_internal rounds fuel now [(zlen resp, 0)] resp ka c =
    '(c', evs) ← finish_response rounds fuel
       (mk (fd c) Writing now (max_request_size c) (read_buf c) b ka (parser c));
    Some (c', ModFd (fd c) true :: evs).
Proof.
  intros Hs Hrw Hne Hsz. unfold send_internal.
  rewrite bool_decide_eq_true_2 by done. cbn [negb andb].
  destruct (Buffer.append_rep _ _ resp Hrw Hsz) as (b & -> & Hb & _). cbn [mbind option_bind].
  unfold on_write. simpl state. rewrite bool_decide_eq_true_2 by done. cbn [negb].
  set (c1 := set_time now _). pose proof (zlen_pos resp Hne) as Hz.
  cbn [on_write_loop]. change (write_buf c1) with b.
  rewrite (rep_empty _ _ Hb). cbn [app]. rewrite bool_decide_eq_false_2 by done.
  pose proof (Buffer.write_to_fd_rep (zlen resp) b resp Hb) as Hw.
  unfold Buffer.write_to_fd in *. destruct (Buffer.rep_sizes _ _ Hb) as (E & _). cbn [app] in E.
  rewrite E in *. destruct (Z.eqb_spec (zlen resp) 0); [lia|].
  destruct (Z.ltb_spec (zlen resp) 0); [lia|]. destruct (Z.eqb_spec (zlen resp) 0); [lia|].
  cbn [snd] in Hw. rewrite drop_ge in Hw by (unfold zlen; lia).
  cbn [on_write_loop write_buf set_write_buf].
  rewrite (rep_empty _ _ Hw), bool_decide_eq_true_2 by done. eexists. split; [exact Hw|done].
Qed.

(** A response on a connection with no further input: keep-alive makes it ready again,
    otherwise it lingers with its writing side shut. *)
Lemma send_completes rounds fuel now c resp ka :
  state c = Processing -> Buffer.rep (write_buf c) [] -> HttpGrammar.fresh (parser c) ->
  Parser.partial (parser c) = [] -> resp <> [] ->
  zlen (Buffer.buf (write_buf c)) + zlen resp < Buffer.max_size ->
  exists c' evs, send_internal rounds fuel now [(zlen resp, 0)] resp ka c = Some (c', evs) /\
    state c' = (if ka then Reading else Closing) /\ evs = ModFd (fd c) true ::
      (if ka then [ModFd (fd c) false] else [ShutdownWr (fd c); ModFd (fd c) false]) /\
    read_buf c' = read_buf c /\ Buffer.rep (write_buf c') [] /\ parser c' = parser c.
Proof.
  intros Hs Hrw Hp Hpt Hne Hsz. destruct (send_writes_out rounds fuel now c resp ka Hs Hrw Hne Hsz) as (b & Hb & ->).
  unfold finish_response. cbn [keep_alive]. destruct ka.
  - assert (Ep : Parser.reset (parser c) = parser c) by (symmetry; apply Hp).
    unfold Parser.pending_size. cbn [parser set_parser set_state]. rewrite Ep, Hpt. cbn. by eexists _, _.
  - cbn. by eexists _, _.
Qed.

(** C17. Pipelining: when a keep-alive response has been written out and the next
    request is already buffered in the parser, the connection delivers it at
    once, without waiting for another read event, exactly once and in order. *)
Theorem pipelined_request_delivered (now : Z) (c : t) (resp m rest : bytes) (rounds : nat) :
  state c = Processing -> Buffer.rep (read_buf c) [] -> Buffer.rep (write_buf c) [] ->
  HttpGrammar.fresh (parser c) -> resp <> [] ->
  zlen (Buffer.buf (write_buf c)) + zlen resp < Buffer.max_size ->
  (HttpParserProps.rounds_for [] (parser c) <= rounds)%nat ->
  plain_request (Parser.max_size (parser c)) m -> Parser.partial (parser c) = m ++ rest ->
  exists c', send_internal rounds 4 now [(zlen resp, 0)] resp true c
             = Some (c', [ModFd (fd c) true; ModFd (fd c) false; MessageCallback (fd c) m]) /\
    state c' = Processing /\ Parser.partial (parser c') = rest /\ HttpGrammar.fresh (parser c').
Proof.
  intros Hs Hrr Hrw Hp Hne Hsz Hr Hm Hd.
  destruct (send_writes_out rounds 4 now c resp true Hs Hrw Hne Hsz) as (b & Hb & ->).
  unfold finish_response. simpl keep_alive. cbv iota.
  set (c2 := set_parser _ _).
  assert (parser c2 = parser c) as Ep.
  { destruct Hp as [_ Hp]. change (Parser.reset (parser c) = parser c). by symmetry. }
  assert (m <> []) as Hmne.
  { destruct Hm as (rl & hs & b' & req & -> & [Hrl _] & _). simpl. intros E'.
    apply app_nil in E' as [E' _]. by apply app_nil in E' as [-> _]. }
  rewrite Ep, HttpParserSpec.pending_pos; cycle 1.
  { rewrite Hd. intros E'. by apply app_nil in E' as [? _]. }
  destruct (message_step rounds c2 [] m rest) as (c' & -> & Hst & _ & _ & _ & Hfr & Hpt);
    try (by rewrite Ep); [done|by rewrite Ep, app_nil_r|].
  exists c'. cbn [mbind option_bind]. done.
Qed.

(** C17 applied to a second request read together with the first. *)
Lemma pipelined_request_delivered_witness :
  exists c', send_internal 100 4 2 [(2, 0)] (lit "OK") true
               (set_state Processing (set_parser
                 (HttpParserSpec.with_data (get_request ++ lit "GET") (Parser.set_max_size 65536 Parser.create))
                 (create 0 9 65536)))
             = Some (c', [ModFd 9 true; ModFd 9 false; MessageCallback 9 get_request]) /\
    state c' = Processing /\ Parser.partial (parser c') = lit "GET".
Proof.
  destruct (pipelined_request_delivered 2
    (set_state Processing (set_parser
      (HttpParserSpec.with_data (get_request ++ lit "GET") (Parser.set_max_size 65536 Parser.create))
      (create 0 9 65536))) (lit "OK") get_request (lit "GET") 100) as (c' & H1 & H2 & H3 & _).
  - reflexivity.
  - apply Buffer.create_rep.
  - apply Buffer.create_rep.
  - apply (HttpGrammar.reset_fresh
      (HttpParserSpec.with_data (get_request ++ lit "GET") (Parser.set_max_size 65536 Parser.create))).
  - discriminate.
  - vm_compute. reflexivity.
  - vm_compute. lia.
  - exists (lit "GET / HTTP/1.1"), [], [],
      (snd (Parser.parse_request_line (lit "GET / HTTP/1.1") Http.empty_request)).
    split; [vm_compute; reflexivity|].
    split; [split; [discriminate|apply HttpGrammar.CR_free_dec; vm_compute; reflexivity]|].
    split; [constructor|]. split; [vm_compute; reflexivity|]. split; [vm_compute; reflexivity|].
    split; [vm_compute; reflexivity|]. vm_compute. discriminate.
  - vm_compute. reflexivity.
  - exists c'. split; [exact H1|]. split; [exact H2|exact H3].
Defined.

End Connection.
