(* ===== verification/Timer.v ===== *)
(** * Timer: src/timer/timer.cpp

    The time heap.  [std::push_heap] and [std::pop_heap] are an interface with the
    contract of the standard (the array is permuted into a heap, the front goes to
    the back), so the theorems hold for every arrangement an implementation may
    choose.  Times are nanoseconds of [steady_clock]; [now] is an argument. *)

From S2P Require Import Prelude StdSort.

Module Timer.
Open Scope Z_scope.

Record TimerEntry := mkEntry {
  id : Z;
  expire_time : Z;
  interval_ms : Z;
  callback : option Z;   (* which callback, [None] for [nullptr] *)
  cancelled : bool
}.

Definition ms : Z := 1000000.

(** A min-heap by expiry: no element expires before its parent. *)
Definition is_heap (h : list TimerEntry) : Prop :=
  forall i a b, (0 < i)%nat -> h !! ((i - 1) / 2)%nat = Some a -> h !! i = Some b ->
  expire_time a <= expire_time b.

(** [push_heap] is called on a heap with one element appended, [pop_heap] on a
    non-empty heap. *)
Class StdHeap := {
  push_heap : list TimerEntry -> list TimerEntry;
  pop_heap : list TimerEntry -> list TimerEntry;
  push_heap_perm : forall h, push_heap h ≡ₚ h;
  push_heap_heap : forall h x, is_heap h -> is_heap (push_heap (h ++ [x]));
  pop_heap_front : forall x h, is_heap (x :: h) ->
    exists h', pop_heap (x :: h) = h' ++ [x] /\ h' ≡ₚ h /\ is_heap h'
}.

Record t := mk { heap : list TimerEntry; next_id : Z }.

Definition create : t := mk [] 1.

Section Ops.
Context `{StdHeap}.

Definition add (delay interval : Z) (cb : option Z) (now : Z) (tm : t) : Z * t :=
  (next_id tm,
   mk (push_heap (heap tm ++ [mkEntry (next_id tm) (now + delay * ms) interval cb false]))
      (u64 (next_id tm + 1))).

Definition run_after (delay_ms : Z) (cb : option Z) (now : Z) (tm : t) : Z * t :=
  add delay_ms 0 cb now tm.

Definition run_every (interval_ms : Z) (cb : option Z) (now : Z) (tm : t) : Z * t :=
  add interval_ms interval_ms cb now tm.

Definition mark_cancelled (e : TimerEntry) : TimerEntry :=
  mkEntry (id e) (expire_time e) (interval_ms e) None true.

(** The loop stops at the first entry with the id. *)
Fixpoint cancel_go (timer_id : Z) (h : list TimerEntry) : list TimerEntry :=
  match h with
  | [] => []
  | e :: h' => if id e =? timer_id then mark_cancelled e :: h' else e :: cancel_go timer_id h'
  end.

Definition cancel (timer_id : Z) (tm : t) : t := mk (cancel_go timer_id (heap tm)) (next_id tm).

Definition reschedule (now : Z) (e : TimerEntry) : TimerEntry :=
  mkEntry (id e) (now + interval_ms e * ms) (interval_ms e) (callback e) false.

(** [pop_heap] then [pop_back]: the popped entry and the remaining heap. *)
Definition pop (h : list TimerEntry) : list TimerEntry := removelast (pop_heap h).

(** The collecting loop of [tick]: [ready] in the order the callbacks will run. *)
Fixpoint tick_go (fuel : nat) (now : Z) (h : list TimerEntry) (ready : list (option Z)) :
    option (list TimerEntry * list (option Z)) :=
  match fuel with
  | O => None
  | S fuel' =>
      match h with
      | [] => Some (h, ready)
      | e :: _ =>
          if now <? expire_time e then Some (h, ready)
          else if cancelled e then tick_go fuel' now (pop h) ready
          else
            let h1 := pop h in
            let h2 := if 0 <? interval_ms e then push_heap (h1 ++ [reschedule now e]) else h1 in
            tick_go fuel' now h2 (ready ++ [callback e])
      end
  end.

(** The callbacks run after the lock is released, the null ones are skipped. *)
Definition tick (fuel : nat) (now : Z) (tm : t) : option (t * list Z) :=
  match tick_go fuel now (heap tm) [] with
  | None => None
  | Some (h, ready) => Some (mk h (next_id tm), omap (fun cb : option Z => cb) ready)
  end.

(** The first entry in array order that is not cancelled decides. *)
Fixpoint next_timeout_go (now : Z) (h : list TimerEntry) : Z :=
  match h with
  | [] => -1
  | e :: h' =>
      if negb (cancelled e) then
        let remaining := Z.quot (expire_time e - now) ms in
        if remaining <? 0 then 0 else remaining
      else next_timeout_go now h'
  end.

Definition next_timeout_ms (now : Z) (tm : t) : Z := next_timeout_go now (heap tm).

Definition pending_count (tm : t) : Z := zlen (heap tm).

(** ** Lemmas *)

Lemma heap_front_min_aux h x n :
  is_heap (x :: h) -> forall i b, (i <= n)%nat -> (x :: h) !! i = Some b -> expire_time x <= expire_time b.
Proof.
  intros Hh. induction n as [|n IH]; intros i b Hi Hb.
  - assert (i = 0)%nat as -> by lia. injection Hb as ->. lia.
  - destruct (decide (i = 0)%nat) as [->|Hne]; [injection Hb as ->; lia|].
    assert ((i - 1) / 2 < i)%nat as Hlt by (apply Nat.Div0.div_lt_upper_bound; lia).
    destruct (lookup_lt_is_Some_2 (x :: h) ((i - 1) / 2)) as [a Ha].
    { apply lookup_lt_Some in Hb. lia. }
    etrans; [apply (IH ((i - 1) / 2)%nat a); [lia|done]|]. apply (Hh i a b); [lia|done|done].
Qed.

(** The front of a heap expires first. *)
Lemma heap_front_min x h e : is_heap (x :: h) -> e ∈ h -> expire_time x <= expire_time e.
Proof.
  intros Hh He. apply list_elem_of_lookup in He as [i Hi].
  by apply (heap_front_min_aux h x (S i) Hh (S i) e).
Qed.

Lemma pop_spec x h : is_heap (x :: h) -> pop (x :: h) ≡ₚ h /\ is_heap (pop (x :: h)).
Proof.
  intros Hh. destruct (pop_heap_front x h Hh) as (h' & E & Hp & Hh'). unfold pop. rewrite E.
  by rewrite removelast_last.
Qed.

(** ** What a tick does *)

Definition fires (now : Z) (e : TimerEntry) : Prop := expire_time e <= now /\ cancelled e = false.

#[global] Instance fires_dec now e : Decision (fires now e).
Proof. unfold fires. apply _. Defined.

(** The entries that stay, and the next occurrence of those that fired. *)
Definition due (now : Z) (h : list TimerEntry) : list TimerEntry :=
  filter (fun e => expire_time e <= now) h.
Definition waiting (now : Z) (h : list TimerEntry) : list TimerEntry :=
  filter (fun e => now < expire_time e) h.
Definition next_rounds (now : Z) (es : list TimerEntry) : list TimerEntry :=
  reschedule now <$> filter (fun e => 0 < interval_ms e) es.

Definition earlier (a b : TimerEntry) : Prop := expire_time a <= expire_time b.

Lemma tick_go_spec fuel now h ready :
  is_heap h -> (length (due now h) < fuel)%nat ->
  exists h' es, tick_go fuel now h ready = Some (h', ready ++ (callback <$> es)) /\
    es ≡ₚ filter (fires now) h /\ StronglySorted earlier es /\
    h' ≡ₚ waiting now h ++ next_rounds now es /\ is_heap h'.
Proof.
  revert h ready; induction fuel as [|fuel IH]; intros h ready Hh Hf; [lia|].
  destruct h as [|e h]; simpl.
  { exists [], []. rewrite app_nil_r. repeat split; try done. constructor. }
  destruct (Z.ltb_spec now (expire_time e)) as [Hlate|Hdue].
  { exists (e :: h), []. rewrite app_nil_r. split; [done|].
    assert (forall x, x ∈ e :: h -> now < expire_time x) as Hall.
    { intros x Hx. apply elem_of_cons in Hx as [->|Hx]; [done|].
      pose proof (heap_front_min e h x Hh Hx). lia. }
    assert (filter (fires now) (e :: h) = []) as ->.
    { apply filter_nil_inv'. intros x Hx [H1 _]. specialize (Hall x Hx). lia. }
    split; [done|]. split; [constructor|]. split; [|done].
    unfold waiting, next_rounds. simpl. rewrite app_nil_r.
    rewrite list_filter_all; [done|]. done. }
  destruct (pop_spec e h Hh) as [Hp Hph].
  unfold due in Hf. rewrite filter_cons_True in Hf by done. simpl in Hf. fold (due now h) in Hf.
  assert (Hlen : forall g : list TimerEntry, g ≡ₚ h ->
    length (due now g) = length (due now h)).
  { intros g Hg. unfold due. by rewrite Hg. }
  assert (waiting now (e :: h) = waiting now h) as Hw.
  { unfold waiting. rewrite filter_cons_False by lia. done. }
  destruct (cancelled e) eqn:Hc.
  { destruct (IH (pop (e :: h)) ready Hph) as (h' & es & E & H1 & H2 & H3 & H4);
      [rewrite Hlen by done; lia|].
    exists h', es. split; [done|]. rewrite Hw.
    split; [|split; [done|split; [|done]]].
    - rewrite filter_cons_False by (unfold fires; rewrite Hc; naive_solver). by rewrite H1, Hp.
    - rewrite H3. unfold waiting. by rewrite Hp. }
  set (h2 := if 0 <? interval_ms e then push_heap (pop (e :: h) ++ [reschedule now e]) else pop (e :: h)).
  assert (Hh2 : is_heap h2).
  { unfold h2. split_if; [by apply push_heap_heap|done]. }
  assert (Hperm : h2 ≡ₚ h ++ next_rounds now [e]).
  { unfold h2, next_rounds. destruct (Z.ltb_spec 0 (interval_ms e)).
    - rewrite filter_cons_True by done. simpl. by rewrite push_heap_perm, Hp.
    - rewrite filter_cons_False by lia. simpl. by rewrite app_nil_r. }
  assert (Hlater : forall x, x ∈ next_rounds now [e] -> now < expire_time x).
  { intros x Hx. apply list_elem_of_fmap in Hx as (y & -> & Hy).
    apply list_elem_of_filter in Hy as [Hi Hy]. apply list_elem_of_singleton in Hy as ->.
    simpl. unfold ms. lia. }
  destruct (IH h2 (ready ++ [callback e]) Hh2) as (h' & es & E & H1 & H2 & H3 & H4).
  { unfold due. rewrite Hperm, filter_app, length_app, (filter_nil_inv' _ (next_rounds now [e])); [unfold due in Hf; simpl; lia|].
    intros x Hx. specialize (Hlater x Hx). lia. }
  exists h', (e :: es). split; [by rewrite E, <- app_assoc|].
  assert (es ≡ₚ filter (fires now) h) as H1'.
  { rewrite H1, Hperm, filter_app, (filter_nil_inv' _ (next_rounds now [e])); [by rewrite app_nil_r|].
    intros x Hx [Hd _]. specialize (Hlater x Hx). lia. }
  split; [|split; [|split; [|done]]].
  - rewrite filter_cons_True by done. by rewrite H1'.
  - constructor; [done|]. apply Forall_forall. intros x Hx. rewrite H1' in Hx.
    apply list_elem_of_filter in Hx as [_ Hx]. by apply (heap_front_min e h).
  - rewrite H3, Hw. unfold waiting. rewrite Hperm, filter_app.
    rewrite (list_filter_all _ (next_rounds now [e])) by done.
    rewrite <- app_assoc. f_equiv. unfold next_rounds.
    change (e :: es) with ([e] ++ es). by rewrite filter_app, fmap_app.
Qed.

Lemma tick_spec now tm :
  is_heap (heap tm) ->
  exists tm' es, tick (S (length (heap tm))) now tm = Some (tm', omap callback es) /\
    es ≡ₚ filter (fires now) (heap tm) /\ StronglySorted earlier es /\
    heap tm' ≡ₚ waiting now (heap tm) ++ next_rounds now es /\ is_heap (heap tm') /\
    next_id tm' = next_id tm.
Proof.
  intros Hh. destruct (tick_go_spec (S (length (heap tm))) now (heap tm) [] Hh)
    as (h' & es & E & H1 & H2 & H3 & H4).
  { unfold due. pose proof (length_filter (fun e => expire_time e <= now) (heap tm)). lia. }
  exists (mk h' (next_id tm)), es. unfold tick. rewrite E. split; [|done].
  do 2 f_equal. simpl. clear. induction es as [|e es IH]; [done|]. cbn.
  destruct (callback e); [f_equal|]; exact IH.
Qed.

(** C31. A tick runs exactly the due callbacks: the callbacks of the entries that
    have expired and were not cancelled, in order of expiry; one-shot entries are
    gone, periodic ones wait for their next round, the others are kept, and the
    loop ends although it pushes while it pops. *)
Theorem tick_fires_due (now : Z) (tm : t) :
  is_heap (heap tm) ->
  exists tm' es, tick (S (length (heap tm))) now tm = Some (tm', omap callback es) /\
    es ≡ₚ filter (fires now) (heap tm) /\ StronglySorted earlier es /\
    heap tm' ≡ₚ waiting now (heap tm) ++ next_rounds now es /\ is_heap (heap tm').
Proof.
  intros Hh. destruct (tick_spec now tm Hh) as (tm' & es & H1 & H2 & H3 & H4 & H5 & _).
  by exists tm', es.
Qed.

(** ** Invariant and cancellation *)

Definition inv (tm : t) : Prop :=
  is_heap (heap tm) /\ NoDup (id <$> heap tm) /\ Forall (fun e => id e < next_id tm) (heap tm).

Lemma is_heap_expire h h' :
  (expire_time <$> h) = (expire_time <$> h') -> is_heap h -> is_heap h'.
Proof.
  intros E Hh i a b Hi Ha Hb.
  assert (forall j x, h' !! j = Some x -> exists y, h !! j = Some y /\ expire_time y = expire_time x) as Hl.
  { intros j x Hx. assert ((expire_time <$> h') !! j = Some (expire_time x)) as Hj
      by by rewrite list_lookup_fmap, Hx.
    rewrite <- E, list_lookup_fmap in Hj. destruct (h !! j) as [y|]; [|done].
    exists y. by injection Hj. }
  destruct (Hl _ _ Ha) as (a' & Ha' & <-), (Hl _ _ Hb) as (b' & Hb' & <-). by apply (Hh i a' b').
Qed.

Lemma cancel_go_expire k h : (expire_time <$> cancel_go k h) = (expire_time <$> h).
Proof.
  induction h as [|e h IH]; [done|]. cbn [cancel_go]. split_if; rewrite !fmap_cons; [done|by rewrite IH].
Qed.

Lemma cancel_go_ids k h : (id <$> cancel_go k h) = (id <$> h).
Proof.
  induction h as [|e h IH]; [done|]. cbn [cancel_go]. split_if; rewrite !fmap_cons; [done|by rewrite IH].
Qed.

(** With distinct ids, [cancel] marks the entry with the id and no other. *)
Lemma cancel_go_map k h :
  NoDup (id <$> h) ->
  cancel_go k h = (fun e => if id e =? k then mark_cancelled e else e) <$> h.
Proof.
  induction h as [|e h IH]; intros Hn; simpl; [done|].
  apply NoDup_cons in Hn as [Hni Hn]. destruct (Z.eqb_spec (id e) k) as [<-|Hne].
  - f_equal. symmetry. apply fmap_fixed. intros x Hx.
    destruct (Z.eqb_spec (id x) (id e)) as [E|]; [|done].
    exfalso. apply Hni. rewrite <- E. by apply list_elem_of_fmap_2.
  - by rewrite IH.
Qed.

(** The operations of the public interface. *)
Inductive op := RunAfter (delay : Z) (cb : option Z) | RunEvery (interval : Z) (cb : option Z)
  | Cancel (k : Z) | Tick.

Definition exec (now : Z) (o : op) (tm : t) : option (t * list Z) :=
  match o with
  | RunAfter d cb => Some ((run_after d cb now tm).2, [])
  | RunEvery i cb => Some ((run_every i cb now tm).2, [])
  | Cancel k => Some (cancel k tm, [])
  | Tick => tick (S (length (heap tm))) now tm
  end.

Lemma add_inv d i cb now tm :
  inv tm -> 0 <= next_id tm -> next_id tm + 1 < two64 -> inv (add d i cb now tm).2.
Proof.
  intros (H1 & H2 & H3) H0 Hw. unfold add. simpl. split; [|split]; simpl.
  - by apply push_heap_heap.
  - rewrite push_heap_perm, fmap_app. apply NoDup_app. split; [done|].
    split; [|apply NoDup_singleton]. intros x Hx Hx'. apply list_elem_of_singleton in Hx'. simpl in Hx'.
    apply list_elem_of_fmap in Hx as (y & -> & Hy). rewrite Forall_forall in H3.
    specialize (H3 y Hy). lia.
  - rewrite push_heap_perm. rewrite u64_small by lia. apply Forall_app. split.
    + eapply Forall_impl; [done|]. simpl. lia.
    + apply Forall_singleton. simpl. lia.
Qed.

Lemma tick_ids now h es :
  es ≡ₚ filter (fires now) h -> NoDup (id <$> h) ->
  NoDup (id <$> waiting now h ++ next_rounds now es) /\
  forall x, x ∈ waiting now h ++ next_rounds now es -> exists y, y ∈ h /\ id y = id x.
Proof.
  intros He Hn. split.
  - rewrite fmap_app. unfold next_rounds. rewrite <- list_fmap_compose.
    change (id ∘ reschedule now) with id. rewrite He. clear He es. unfold waiting.
    induction h as [|e h IH]; [constructor|]. rewrite fmap_cons in Hn.
    apply NoDup_cons in Hn as [Hni Hn]. specialize (IH Hn).
    rewrite !filter_cons.
    assert (id e ∉ (id <$> filter (fun e => now < expire_time e) h) ++
            (id <$> filter (fun e => 0 < interval_ms e) (filter (fires now) h))) as Hne.
    { intros Hin. apply Hni. apply elem_of_app in Hin as [Hin|Hin];
        apply list_elem_of_fmap in Hin as (y & -> & Hy); apply list_elem_of_fmap_2.
      - by apply list_elem_of_filter in Hy as [_ ?].
      - apply list_elem_of_filter in Hy as [_ Hy]. by apply list_elem_of_filter in Hy as [_ ?]. }
    destruct (decide (now < expire_time e)) as [Hl|Hl].
    + rewrite decide_False by (unfold fires; lia). rewrite fmap_cons. by constructor.
    + destruct (decide (fires now e)); [|done]. rewrite filter_cons.
      destruct (decide (0 < interval_ms e)); [|done]. rewrite fmap_cons.
      rewrite <- Permutation_middle. by constructor.
  - intros x Hx. apply elem_of_app in Hx as [Hx|Hx].
    + exists x. by apply list_elem_of_filter in Hx as [_ ?].
    + apply list_elem_of_fmap in Hx as (y & -> & Hy). exists y. split; [|done].
      apply list_elem_of_filter in Hy as [_ Hy]. rewrite He in Hy.
      by apply list_elem_of_filter in Hy as [_ ?].
Qed.

(** Every operation keeps the timer well formed: the array is a heap, ids are
    distinct and below the next id. *)
Theorem timer_invariant (now : Z) (o : op) (tm tm' : t) (fired : list Z) :
  inv tm -> 0 <= next_id tm -> next_id tm + 1 < two64 ->
  exec now o tm = Some (tm', fired) -> inv tm'.
Proof.
  intros Hi H0 Hw. destruct o as [d cb|i cb|k|]; simpl.
  - intros [= <- _]. by apply add_inv.
  - intros [= <- _]. by apply add_inv.
  - intros [= <- _]. destruct Hi as (H1 & H2 & H3). split; [|split]; simpl.
    + eapply is_heap_expire; [symmetry; apply cancel_go_expire|done].
    + by rewrite cancel_go_ids.
    + rewrite cancel_go_map by done. apply Forall_fmap. eapply Forall_impl; [done|].
      intros x Hx. simpl. by split_if.
  - destruct Hi as (H1 & H2 & H3).
    destruct (tick_spec now tm H1) as (tm1 & es & E & He & _ & Hh & Hheap & Hid).
    rewrite E. intros [= <- _]. destruct (tick_ids now (heap tm) es He H2) as [Hn Hin].
    split; [done|]. rewrite Hid. split; [by rewrite Hh|]. apply Forall_forall. intros x Hx.
    rewrite Hh in Hx. destruct (Hin x Hx) as (y & Hy & <-). rewrite Forall_forall in H3. by apply H3.
Qed.

(** Cancellation works: after [cancel k] the next tick runs exactly the
    callbacks of the other due timers. *)
Theorem cancel_prevents (now k : Z) (tm : t) :
  inv tm ->
  exists tm' es, tick (S (length (heap tm))) now (cancel k tm) = Some (tm', omap callback es) /\
    es ≡ₚ filter (fun e => fires now e /\ id e <> k) (heap tm) /\ StronglySorted earlier es.
Proof.
  intros (H1 & H2 & _).
  assert (is_heap (heap (cancel k tm))) as Hh.
  { eapply is_heap_expire; [symmetry; apply cancel_go_expire|done]. }
  destruct (tick_spec now (cancel k tm) Hh) as (tm' & es & E & He & Hs & _).
  assert (length (heap (cancel k tm)) = length (heap tm)) as El.
  { simpl. rewrite <- (length_fmap id), cancel_go_ids. apply length_fmap. }
  rewrite El in E. exists tm', es. split; [done|]. split; [|done]. rewrite He. simpl.
  rewrite cancel_go_map by done. clear. induction (heap tm) as [|e h IH]; [done|]. simpl.
  rewrite !filter_cons. destruct (Z.eqb_spec (id e) k) as [E|E].
  - rewrite (decide_False (P := fires now (mark_cancelled e))) by (unfold fires; simpl; naive_solver).
    rewrite decide_False by naive_solver. done.
  - destruct (decide (fires now e)) as [Hf|Hf].
    + rewrite decide_True by done. by rewrite IH.
    + rewrite decide_False by naive_solver. done.
Qed.

(** The wait until the next timer is computed from the array order: with a
    live front it is the time to the earliest expiry, but behind a cancelled
    front the first child decides even when the second one expires earlier, and
    [epoll_wait] sleeps past a timer. *)
Theorem next_timeout_may_be_late (now n : Z) (e0 e1 e2 : TimerEntry) :
  cancelled e0 = true -> cancelled e1 = false -> cancelled e2 = false ->
  expire_time e0 <= expire_time e2 -> now <= expire_time e2 ->
  expire_time e2 + ms <= expire_time e1 ->
  is_heap [e0; e1; e2] /\
  next_timeout_ms now (mk [e0; e1; e2] n) = (expire_time e1 - now) ÷ ms /\
  (expire_time e2 - now) ÷ ms < next_timeout_ms now (mk [e0; e1; e2] n).
Proof.
  intros C0 C1 C2 H02 Hn H21. unfold ms in *.
  assert (next_timeout_ms now (mk [e0; e1; e2] n) = (expire_time e1 - now) ÷ ms) as E.
  { unfold next_timeout_ms. simpl. rewrite C0, C1. simpl.
    assert (0 <= (expire_time e1 - now) ÷ 1000000) by (apply Z.quot_pos; lia).
    unfold ms. destruct (Z.ltb_spec ((expire_time e1 - now) ÷ 1000000) 0); lia. }
  split; [|split; [done|]].
  - intros [|[|[|i]]] a b Hi Ha Hb; [lia| | |done]; simpl in Ha, Hb; injection Ha as <-;
      injection Hb as <-; lia.
  - rewrite E. unfold ms. rewrite !Z.quot_div_nonneg by lia.
    assert ((expire_time e2 - now + 1 * 1000000) / 1000000 <= (expire_time e1 - now) / 1000000)
      by (apply Z.div_le_mono; lia).
    rewrite Z.div_add in * by lia. lia.
Qed.

End Ops.

(** ** An instance: keep the array sorted *)

Definition before (a b : TimerEntry) : bool := expire_time a <? expire_time b.

Lemma before_swo : strict_weak_order before.
Proof. split; unfold before; intros; breflect; rewrite ?Z.ltb_ge, ?Z.ltb_lt; lia. Qed.

Lemma sorted_is_heap h : StronglySorted (fun a b => before b a = false) h -> is_heap h.
Proof.
  intros Hs i a b Hi Ha Hb.
  assert ((i - 1) / 2 < i)%nat as Hlt by (apply Nat.Div0.div_lt_upper_bound; lia).
  assert (forall j k x y, (j < k)%nat -> h !! j = Some x -> h !! k = Some y -> before y x = false) as H.
  { clear -Hs. induction Hs as [|e h Hs IH Hf]; intros j k x y Hjk Hx Hy; [done|].
    destruct k as [|k]; [lia|]. destruct j as [|j].
    - injection Hx as <-. rewrite Forall_lookup in Hf. by apply (Hf k).
    - apply (IH j k); [lia|done|done]. }
  specialize (H _ _ _ _ Hlt Ha Hb). unfold before in H. apply Z.ltb_ge in H. done.
Qed.

#[global] Instance sorted_heap : StdHeap.
Proof.
  refine {| push_heap := insertion_sort before;
            pop_heap := fun h => match h with [] => [] | x :: h' => insertion_sort before h' ++ [x] end |}.
  - apply insertion_sort_perm.
  - intros h x _. apply sorted_is_heap, insertion_sort_sorted, before_swo.
  - intros x h _. exists (insertion_sort before h). split; [done|].
    split; [apply insertion_sort_perm|apply sorted_is_heap, insertion_sort_sorted, before_swo].
Defined.

(** Three timers: one shot at 10 ms, periodic every 5 ms, one shot at 50 ms. *)
Definition sample : t :=
  (run_after 50 (Some 3) 0 (run_every 5 (Some 2) 0 (run_after 10 (Some 1) 0 create).2).2).2.

Lemma sample_inv : inv sample.
Proof.
  assert (inv create) as H0 by (split; [intros i a b _ ?; by destruct ((i - 1) / 2)%nat|]; split; constructor).
  unfold sample, run_after, run_every.
  repeat (apply add_inv; [|vm_compute; discriminate|vm_compute; reflexivity]). exact H0.
Qed.

(** C31 applied at 12 ms: the periodic timer and the first one-shot run. *)
Lemma tick_fires_due_witness :
  exists tm' es, tick 4 (12 * ms) sample = Some (tm', omap callback es) /\ StronglySorted earlier es.
Proof.
  destruct (tick_fires_due (12 * ms) sample) as (tm' & es & H1 & _ & H2 & _).
  - apply sample_inv.
  - exists tm', es. split; [exact H1|exact H2].
Defined.

(** Applied to a tick. *)
Lemma timer_invariant_witness :
  exists tm' fired, exec (12 * ms) Tick sample = Some (tm', fired) /\ fired = [2; 1] /\ inv tm'.
Proof.
  destruct (exec (12 * ms) Tick sample) as [[tm' fired]|] eqn:E.
  - exists tm', fired. split; [reflexivity|]. split.
    + vm_compute in E. injection E as _ <-. reflexivity.
    + apply (timer_invariant (12 * ms) Tick sample tm' fired).
      * apply sample_inv.
      * vm_compute. discriminate.
      * vm_compute. reflexivity.
      * exact E.
  - vm_compute in E. discriminate E.
Defined.

(** Applied to the cancellation of the periodic timer. *)
Lemma cancel_prevents_witness :
  exists tm' es, tick 4 (12 * ms) (cancel 2 sample) = Some (tm', omap callback es) /\
    es ≡ₚ filter (fun e => fires (12 * ms) e /\ id e <> 2) (heap sample).
Proof.
  destruct (cancel_prevents (12 * ms) 2 sample) as (tm' & es & H1 & H2 & _).
  - apply sample_inv.
  - exists tm', es. split; [exact H1|exact H2].
Defined.

(** Applied to timers at 1, 100 and 10 ms of which the first is cancelled. *)
Lemma next_timeout_may_be_late_witness :
  10 < next_timeout_ms 0 (mk [mkEntry 1 (1 * ms) 0 None true; mkEntry 2 (100 * ms) 0 (Some 2) false;
                              mkEntry 3 (10 * ms) 0 (Some 3) false] 4).
Proof.
  apply (next_timeout_may_be_late 0 4 (mkEntry 1 (1 * ms) 0 None true)
    (mkEntry 2 (100 * ms) 0 (Some 2) false) (mkEntry 3 (10 * ms) 0 (Some 3) false)).
  - reflexivity.
  - reflexivity.
  - reflexivity.
  - vm_compute. discriminate.
  - vm_compute. discriminate.
  - vm_compute. discriminate.
Defined.

End Timer.
