(* ===== verification/EventLoop.v ===== *)
(** * EventLoop: src/net/event_loop.cpp

    Deferred tasks with the per-round batch limit and the eventfd that wakes the
    loop, the epoll timeout, the descriptor tables, construction and destruction, and
    [run] over a script of [epoll_wait] answers with [stop].  Tasks and callbacks are
    values of abstract types.  A round is given the tasks that any thread defers
    while each of its tasks runs, so the theorems cover every interleaving of the
    loop with its clients. *)

From S2P Require Import Prelude Timer.

Module EventLoop.
Open Scope Z_scope.

(** ** Deferred tasks *)

Section Deferred.
Context {T : Type}.

Record defer_state := mkDefer {
  deferred_tasks : list T;
  pending_tasks : list T;
  max_deferred_per_round : Z;
  wakeup : bool        (* the eventfd is readable *)
}.

Definition create : defer_state := mkDefer [] [] 256 false.

Definition set_max_deferred_per_round (n : Z) (s : defer_state) : defer_state :=
  mkDefer (deferred_tasks s) (pending_tasks s) n (wakeup s).

Definition defer (task : T) (s : defer_state) : defer_state :=
  mkDefer (deferred_tasks s ++ [task]) (pending_tasks s) (max_deferred_per_round s) true.

Definition defer_all (tasks : list T) (s : defer_state) : defer_state :=
  foldl (fun s x => defer x s) s tasks.

(** Run the tasks of a batch; [during i] is what is deferred while task [i] runs. *)
Fixpoint run_batch (i : nat) (batch : list T) (during : nat -> list T) (s : defer_state) : defer_state :=
  match batch with
  | [] => s
  | _ :: batch' => run_batch (S i) batch' during (defer_all (during i) s)
  end.

(** The new state and the tasks that ran, in order. *)
Definition run_deferred_tasks (during : nat -> list T) (s : defer_state) : defer_state * list T :=
  let tasks := pending_tasks s ++ deferred_tasks s in
  let s := mkDefer [] [] (max_deferred_per_round s) (wakeup s) in
  let batch_limit := max_deferred_per_round s in
  if (0 <? batch_limit) && (batch_limit <? i32 (zlen tasks)) then
    let k := Z.to_nat batch_limit in
    let s := run_batch 0 (take k tasks) during s in
    (mkDefer (deferred_tasks s) (pending_tasks s ++ drop k tasks) (max_deferred_per_round s) true,
     take k tasks)
  else (run_batch 0 tasks during s, tasks).

(** The callback of the eventfd: drain it, then run the tasks. *)
Definition on_wakeup (during : nat -> list T) (s : defer_state) : defer_state * list T :=
  run_deferred_tasks during
    (mkDefer (deferred_tasks s) (pending_tasks s) (max_deferred_per_round s) false).

(** ** Executions *)

Inductive step :=
  | Defer (x : T)
  | Round (during : nat -> list T).

(** What a step submits, given the number of tasks it runs. *)
Fixpoint during_upto (n i : nat) (during : nat -> list T) : list T :=
  match n with O => [] | S n' => during i ++ during_upto n' (S i) during end.

(** State, tasks run so far, tasks submitted so far. *)
Definition exec (x : step) (c : defer_state * list T * list T) : defer_state * list T * list T :=
  let '(s, ran, sub) := c in
  match x with
  | Defer x => (defer x s, ran, sub ++ [x])
  | Round during =>
      if wakeup s then
        let '(s', now) := on_wakeup during s in
        (s', ran ++ now, sub ++ during_upto (length now) 0 during)
      else c
  end.

Definition run (xs : list step) (c : defer_state * list T * list T) : defer_state * list T * list T :=
  foldl (fun c x => exec x c) c xs.

Lemma defer_all_spec tasks s :
  deferred_tasks (defer_all tasks s) = deferred_tasks s ++ tasks /\
  pending_tasks (defer_all tasks s) = pending_tasks s /\
  max_deferred_per_round (defer_all tasks s) = max_deferred_per_round s /\
  (wakeup s = true \/ tasks <> [] -> wakeup (defer_all tasks s) = true).
Proof.
  revert s; induction tasks as [|x tasks IH]; intros s; simpl.
  { rewrite app_nil_r. repeat split. by intros [?|?]. }
  unfold defer_all in *. destruct (IH (defer x s)) as (-> & -> & -> & Hw). simpl.
  rewrite <- app_assoc. repeat split. intros _. apply Hw. by left.
Qed.

Lemma run_batch_spec batch i during s :
  deferred_tasks (run_batch i batch during s)
    = deferred_tasks s ++ during_upto (length batch) i during /\
  pending_tasks (run_batch i batch during s) = pending_tasks s /\
  max_deferred_per_round (run_batch i batch during s) = max_deferred_per_round s /\
  (wakeup s = true -> wakeup (run_batch i batch during s) = true) /\
  (during_upto (length batch) i during <> [] -> wakeup (run_batch i batch during s) = true).
Proof.
  revert i s; induction batch as [|x batch IH]; intros i s; simpl.
  { by rewrite app_nil_r. }
  destruct (defer_all_spec (during i) s) as (H1 & H2 & H3 & H4).
  destruct (IH (S i) (defer_all (during i) s)) as (-> & -> & -> & Hw & Hd).
  rewrite H1, H2, H3, <- app_assoc. repeat split.
  - intros E. apply Hw, H4. by left.
  - intros Hne. destruct (decide (during i = [])) as [E|E].
    + rewrite E in Hne. by apply Hd.
    + apply Hw, H4. by right.
Qed.

(** What a round does to the queue. *)
Lemma on_wakeup_spec during s :
  let '(s', now) := on_wakeup during s in
  let all := pending_tasks s ++ deferred_tasks s in
  now ++ pending_tasks s' ++ deferred_tasks s' = all ++ during_upto (length now) 0 during /\
  max_deferred_per_round s' = max_deferred_per_round s /\
  (pending_tasks s' ++ deferred_tasks s' <> [] -> wakeup s' = true) /\
  now = take (if (0 <? max_deferred_per_round s) && (max_deferred_per_round s <? i32 (zlen all))
              then Z.to_nat (max_deferred_per_round s) else length all) all.
Proof.
  unfold on_wakeup, run_deferred_tasks. cbn [pending_tasks deferred_tasks max_deferred_per_round wakeup].
  set (all := pending_tasks s ++ deferred_tasks s).
  destruct ((0 <? max_deferred_per_round s) && (max_deferred_per_round s <? i32 (zlen all))) eqn:E.
  - set (k := Z.to_nat (max_deferred_per_round s)).
    destruct (run_batch_spec (take k all) 0 during (mkDefer [] [] (max_deferred_per_round s) false))
      as (H1 & H2 & H3 & _ & _).
    cbn [pending_tasks deferred_tasks max_deferred_per_round wakeup] in *.
    rewrite H1, H2, H3. simpl. split; [|done]. rewrite !app_assoc, take_drop. done.
  - destruct (run_batch_spec all 0 during (mkDefer [] [] (max_deferred_per_round s) false))
      as (H1 & H2 & H3 & _ & Hw).
    cbn [pending_tasks deferred_tasks max_deferred_per_round wakeup] in *.
    rewrite H1, H2, H3. simpl. split; [done|]. split; [done|]. split; [done|].
    by rewrite firstn_all.
Qed.

(** The invariant of an execution. *)
Definition queue_inv (c : defer_state * list T * list T) : Prop :=
  let '(s, ran, sub) := c in
  sub = ran ++ pending_tasks s ++ deferred_tasks s /\
  (pending_tasks s ++ deferred_tasks s <> [] -> wakeup s = true).

Lemma loop_exec_inv x c : queue_inv c -> queue_inv (exec x c).
Proof.
  destruct c as [[s ran] sub]. intros [Hs Hw]. destruct x as [x|during]; simpl.
  - split; [|done]. by rewrite Hs, <- !app_assoc.
  - destruct (wakeup s) eqn:Ew; [|split; [exact Hs|by rewrite Ew]].
    pose proof (on_wakeup_spec during s) as H. destruct (on_wakeup during s) as [s' now].
    destruct H as (H1 & _ & H3 & _). split; [|done].
    rewrite Hs, <- !app_assoc. f_equal. by rewrite H1, <- app_assoc.
Qed.

Lemma loop_run_inv xs c : queue_inv c -> queue_inv (run xs c).
Proof.
  revert c; induction xs as [|x xs IH]; intros c Hc; [done|]. simpl. by apply IH, loop_exec_inv.
Qed.

(** C32. Deferred tasks run first-in first-out and none is lost or run twice: in
    every interleaving of submissions with rounds of the loop, whatever the batch
    limit, the tasks submitted so far are the tasks run so far followed by those
    still queued, in order; and whenever one is queued, the loop has been woken. *)
Theorem deferred_fifo (limit : Z) (xs : list step) :
  let '(s, ran, sub) := run xs (set_max_deferred_per_round limit create, [], []) in
  sub = ran ++ pending_tasks s ++ deferred_tasks s /\
  (pending_tasks s ++ deferred_tasks s <> [] -> wakeup s = true).
Proof.
  pose proof (loop_run_inv xs (set_max_deferred_per_round limit create, [], [])) as H.
  destruct (run xs _) as [[s ran] sub]. apply H. by split.
Qed.

(** Bounded batches and progress: a round runs exactly the first
    [max_deferred_per_round] queued tasks, or all of them when there are fewer or
    no limit is set, so with a limit it never runs more and always runs at least
    one when one is queued. *)
Theorem round_batch (during : nat -> list T) (s : defer_state) :
  let all := pending_tasks s ++ deferred_tasks s in
  let '(s', now) := on_wakeup during s in
  zlen all <= INT_MAX -> 0 <= max_deferred_per_round s ->
  now = take (if 0 <? max_deferred_per_round s then Z.to_nat (max_deferred_per_round s) else length all) all /\
  (0 < max_deferred_per_round s -> zlen now <= max_deferred_per_round s) /\
  (all <> [] -> now <> []).
Proof.
  pose proof (on_wakeup_spec during s) as H. destruct (on_wakeup during s) as [s' now].
  cbv zeta. set (all := pending_tasks s ++ deferred_tasks s) in *.
  destruct H as (_ & _ & _ & Hnow). intros Hl Hm. zlen_facts.
  rewrite i32_small in Hnow by lia.
  assert (now = take (if 0 <? max_deferred_per_round s then Z.to_nat (max_deferred_per_round s) else length all) all)
    as E.
  { rewrite Hnow. destruct (Z.ltb_spec 0 (max_deferred_per_round s)); [|done]. cbn [andb].
    destruct (Z.ltb_spec (max_deferred_per_round s) (zlen all)); [done|].
    rewrite firstn_all, take_ge; [done|]. unfold zlen in *. lia. }
  split; [done|]. split.
  - intros Hp. rewrite E, (proj2 (Z.ltb_lt _ _)) by done. unfold zlen. rewrite length_take. lia.
  - intros Hne Hno. rewrite E in Hno. destruct all as [|a all]; [done|].
    destruct (Z.ltb_spec 0 (max_deferred_per_round s)) as [Hp|Hp]; [|done].
    destruct (Z.to_nat (max_deferred_per_round s)) eqn:En; [lia|done].
Qed.

End Deferred.

Arguments step : clear implicits.
Arguments defer_state : clear implicits.

(** Applied to five tasks under a limit of two. *)
Lemma round_batch_witness :
  (on_wakeup (fun _ => []) (defer_all [1; 2; 3; 4; 5]%Z (set_max_deferred_per_round 2 create))).2
  = take (if 0 <? 2 then Z.to_nat 2 else 5) [1; 2; 3; 4; 5].
Proof.
  pose proof (round_batch (fun _ => [])
    (defer_all [1; 2; 3; 4; 5]%Z (set_max_deferred_per_round 2 create))) as H.
  cbv zeta in H. destruct (on_wakeup _ _) as [s' now].
  destruct H as [H _]; [vm_compute; discriminate|vm_compute; discriminate|]. exact H.
Defined.

(** ** The epoll timeout *)

(** [timer] is the answer of [next_timeout_ms], [None] without a timer. *)
Definition compute_timeout_ms (default_ms : Z) (timer : option Z) : Z :=
  match timer with
  | None => default_ms
  | Some timer_timeout =>
      if timer_timeout <? 0 then default_ms
      else
        let effective := if timer_timeout <? default_ms then timer_timeout else default_ms in
        if 0 <? effective then effective else 1
  end.

(** ** Descriptors *)

(** The callback table and the events each descriptor is registered for; the
    argument [ok] is whether [epoll_ctl] succeeded. *)
Record fd_table (C : Type) := mkTable { callbacks : gmap Z C; registrations : gmap Z Z }.
Arguments mkTable {C} _ _.
Arguments callbacks {C} _.
Arguments registrations {C} _.

Section Table.
Context {C : Type}.

Definition add_fd (fd events : Z) (ok : bool) (s : fd_table C) : fd_table C :=
  let r := <[fd := events]> (registrations s) in
  mkTable (callbacks s) (if ok then r else delete fd r).

Definition mod_fd (fd events : Z) (ok : bool) (s : fd_table C) : fd_table C :=
  let r := <[fd := events]> (registrations s) in
  mkTable (callbacks s) (if ok then r else delete fd r).

Definition del_fd (fd : Z) (s : fd_table C) : fd_table C :=
  mkTable (delete fd (callbacks s)) (delete fd (registrations s)).

Definition set_callback (fd : Z) (cb : C) (s : fd_table C) : fd_table C :=
  mkTable (<[fd := cb]> (callbacks s)) (registrations s).

Definition remove_callback (fd : Z) (s : fd_table C) : fd_table C :=
  mkTable (delete fd (callbacks s)) (registrations s).

(** The dispatch of one [epoll_wait] result: [invoke] is what a callback does to
    the table; the trace lists the callbacks that were called. *)
Fixpoint dispatch (invoke : C -> Z -> Z -> fd_table C -> fd_table C) (events : list (Z * Z))
    (s : fd_table C) : fd_table C * list (C * Z * Z) :=
  match events with
  | [] => (s, [])
  | (fd, ev) :: events' =>
      match callbacks s !! fd with
      | Some cb =>
          let '(s', tr) := dispatch invoke events' (invoke cb fd ev s) in (s', (cb, fd, ev) :: tr)
      | None => dispatch invoke events' s
      end
  end.

(** A descriptor no callback is registered for stays that way while callbacks do
    not register one for it. *)
Lemma dispatch_removed invoke events s fd :
  (forall cb f ev s, callbacks s !! fd = None -> callbacks (invoke cb f ev s) !! fd = None) ->
  callbacks s !! fd = None ->
  Forall (fun x => x.1.2 <> fd) (dispatch invoke events s).2.
Proof.
  intros Hinv. revert s; induction events as [|[f ev] events IH]; intros s Hs; simpl; [constructor|].
  destruct (callbacks s !! f) as [cb|] eqn:Ef; [|by apply IH].
  specialize (IH (invoke cb f ev s) (Hinv cb f ev s Hs)).
  destruct (dispatch invoke events (invoke cb f ev s)) as [s' tr]. simpl in *.
  constructor; [|done]. simpl. intros ->. congruence.
Qed.

End Table.

(** No callback runs for a closed descriptor: when the callback of one event
    removes another descriptor ([del_fd], as [Connection::close_internal] does),
    the events of that descriptor still waiting in the same [epoll_wait] result
    are dropped. *)
Theorem closed_fd_not_dispatched {C : Type} (invoke : C -> Z -> Z -> fd_table C -> fd_table C)
    (cb : C) (f ev fd : Z) (events : list (Z * Z)) (s s1 : fd_table C) :
  (forall cb f ev s, callbacks s !! fd = None -> callbacks (invoke cb f ev s) !! fd = None) ->
  callbacks s !! f = Some cb -> invoke cb f ev s = del_fd fd s1 ->
  exists s' tr, dispatch invoke ((f, ev) :: events) s = (s', (cb, f, ev) :: tr) /\
    Forall (fun x => x.1.2 <> fd) tr.
Proof.
  intros Hinv Hf Hi. simpl. rewrite Hf, Hi.
  pose proof (dispatch_removed invoke events (del_fd fd s1) fd Hinv) as H.
  destruct (dispatch invoke events (del_fd fd s1)) as [s' tr]. exists s', tr. split; [done|].
  apply H. simpl. apply lookup_delete_eq.
Qed.

(** Applied to a callback on descriptor 1 that closes descriptor 2. *)
Lemma closed_fd_not_dispatched_witness :
  exists s' tr, dispatch (fun _ _ _ s => del_fd 2 s) [(1, 1); (2, 1)]
    (set_callback 2 (lit "b") (set_callback 1 (lit "a") (mkTable ∅ ∅))) = (s', (lit "a", 1, 1) :: tr) /\
    Forall (fun x => x.1.2 <> 2) tr.
Proof.
  apply (closed_fd_not_dispatched (fun _ _ _ s => del_fd 2 s) (lit "a") 1 1 2 [(2, 1)]
    (set_callback 2 (lit "b") (set_callback 1 (lit "a") (mkTable ∅ ∅)))
    (set_callback 2 (lit "b") (set_callback 1 (lit "a") (mkTable ∅ ∅)))).
  - intros _ _ _ s _. simpl. apply lookup_delete_eq.
  - vm_compute. reflexivity.
  - reflexivity.
Defined.

(** The loop sleeps no longer than the caller's bound nor past the earliest timer
    it was told about, and at least one millisecond when a timer is set. *)
Lemma compute_timeout_bounds default_ms timer :
  0 < default_ms ->
  let r := compute_timeout_ms default_ms timer in
  1 <= r <= default_ms /\
  match timer with Some w => 0 <= w -> r <= Z.max 1 w | None => True end.
Proof.
  intros Hd. unfold compute_timeout_ms. destruct timer as [w|]; [|lia].
  repeat split_if; lia.
Qed.

(** A sleeping loop never oversleeps a live earliest timer: when the front of
    the heap is not cancelled, the computed timeout is within one millisecond of
    the earliest expiry of all timers. *)
Theorem loop_wakes_for_timer (now default_ms n : Z) (e : Timer.TimerEntry) (h : list Timer.TimerEntry) :
  0 < default_ms -> Timer.is_heap (e :: h) -> Timer.cancelled e = false ->
  let r := compute_timeout_ms default_ms (Some (Timer.next_timeout_ms now (Timer.mk (e :: h) n))) in
  forall x, x ∈ e :: h -> now + (r - 1) * Timer.ms <= Z.max now (Timer.expire_time x).
Proof.
  intros Hd Hh Hc r x Hx.
  assert (Timer.expire_time e <= Timer.expire_time x) as Hmin.
  { apply elem_of_cons in Hx as [->|Hx]; [lia|]. by apply (Timer.heap_front_min e h). }
  set (rem := (Timer.expire_time e - now) ÷ Timer.ms).
  assert (r = compute_timeout_ms default_ms (Some (if rem <? 0 then 0 else rem))) as ->.
  { unfold r, Timer.next_timeout_ms. cbn [Timer.heap Timer.next_timeout_go]. by rewrite Hc. }
  pose proof (compute_timeout_bounds default_ms (Some (if rem <? 0 then 0 else rem)) Hd) as [Hb1 Hb2].
  set (r' := compute_timeout_ms _ _) in *.
  assert (r' <= Z.max 1 (Z.max 0 rem)) as Hr by (destruct (Z.ltb_spec rem 0); lia).
  destruct (Z.le_gt_cases rem 1) as [Hle|Hgt].
  - assert (r' = 1) as -> by lia. lia.
  - pose proof (Z.quot_rem' (Timer.expire_time e - now) Timer.ms) as Hq.
    pose proof (Z.rem_sign_mul (Timer.expire_time e - now) Timer.ms ltac:(done)) as Hsg.
    pose proof (Z.rem_bound_abs (Timer.expire_time e - now) Timer.ms ltac:(done)) as Hab.
    fold rem in Hq. unfold Timer.ms in *.
    assert (0 <= Timer.expire_time e - now) by lia.
    assert (0 <= Z.rem (Timer.expire_time e - now) 1000000) by nia. lia.
Qed.

(** Applied to a timer due in 30 ms. *)
Lemma loop_wakes_for_timer_witness :
  compute_timeout_ms 1000 (Some (Timer.next_timeout_ms 0
    (Timer.mk [Timer.mkEntry 1 (30 * Timer.ms) 0 (Some 1) false] 2))) = 30 /\
  0 + (30 - 1) * Timer.ms <= Z.max 0 (30 * Timer.ms).
Proof.
  split; [reflexivity|].
  apply (loop_wakes_for_timer 0 1000 2 (Timer.mkEntry 1 (30 * Timer.ms) 0 (Some 1) false) []) with
    (x := Timer.mkEntry 1 (30 * Timer.ms) 0 (Some 1) false).
  - lia.
  - intros [|i] a b Hi _ Hb; [lia|]. destruct i; discriminate Hb.
  - reflexivity.
  - constructor.
Defined.

(** ** Construction *)

Record ctor_env := { epoll_ret : Z; eventfd_ret : Z; ctl_ok : bool }.

(** A loop with its descriptors, or an exception and the descriptors closed before
    it; [wake] is the handler of the eventfd. *)
Inductive constructed (C : Type) := Loop (epfd wakeup_fd : Z) (s : fd_table C) | Throws (closed : list Z).
Arguments Loop {C} _ _ _. Arguments Throws {C} _.

Definition construct {C} (wake : C) (e : ctor_env) (max_events : Z) : constructed C :=
  if epoll_ret e <? 0 then Throws []
  else if max_events <? 0 then Throws []        (* events_.resize throws *)
  else if eventfd_ret e <? 0 then Throws [epoll_ret e]
  else Loop (epoll_ret e) (eventfd_ret e)
         (set_callback (eventfd_ret e) wake (add_fd (eventfd_ret e) (Z.lor 1 (2 ^ 31)) (ctl_ok e) (mkTable ∅ ∅))).

(** The descriptors the destructor closes. *)
Definition destruct_loop (epfd wakeup_fd : Z) : list Z :=
  (if 0 <=? wakeup_fd then [wakeup_fd] else []) ++ (if 0 <=? epfd then [epfd] else []).

(** A failing construction closes what it opened, except that a negative event count
    leaves the epoll descriptor open. *)
Lemma construct_closes {C} (wake : C) e max_events closed :
  construct wake e max_events = Throws closed -> 0 <= max_events ->
  closed = (if epoll_ret e <? 0 then [] else [epoll_ret e]).
Proof.
  unfold construct. intros H Hm. destruct (epoll_ret e <? 0); [by injection H as <-|].
  rewrite (proj2 (Z.ltb_ge max_events 0) Hm) in H. destruct (eventfd_ret e <? 0); [by injection H as <-|done].
Qed.

(** ** The loop *)

Section Loop.
Context {C : Type} (invoke : C -> Z -> Z -> fd_table C -> fd_table C) (has_idle : bool).

Record loop_state := mkLoop { running : bool; table : fd_table C }.

(** [stop] clears the flag; its write to the eventfd only shortens the wait. *)
Definition stop (s : loop_state) : loop_state := mkLoop false (table s).

(** What [epoll_wait] answers, and whether some thread called [stop] before the loop
    tested its flag for this turn. *)
Inductive wait_result := Ready (events : list (Z * Z)) | Interrupted | Failed.
Record turn := mkTurn { stop_requested : bool; result : wait_result }.

Inductive action := Call (c : C) (fd ev : Z) | Idle.

(** What was called, the state, and whether the loop has been left. *)
Fixpoint loop (turns : list turn) (s : loop_state) : list action * loop_state * bool :=
  match turns with
  | [] => ([], s, false)
  | u :: turns' =>
      let s := if stop_requested u then stop s else s in
      if negb (running s) then ([], s, true)
      else
        match result u with
        | Interrupted => loop turns' s
        | Failed => ([], s, true)
        | Ready events =>
            let '(tb, tr) := dispatch invoke events (table s) in
            let '(acts, s', left_) := loop turns' (mkLoop (running s) tb) in
            (((fun x => Call x.1.1 x.1.2 x.2) <$> tr) ++ (if has_idle then [Idle] else []) ++ acts, s', left_)
        end
  end.

Definition run_loop (turns : list turn) (s : loop_state) : list action * loop_state * bool :=
  loop turns (mkLoop true (table s)).

Definition undisturbed (u : turn) : bool :=
  negb (stop_requested u) && match result u with Failed => false | _ => true end.

Lemma loop_app pre post s :
  forallb undisturbed pre = true -> running s = true ->
  exists s1, running s1 = true /\ (loop pre s).1.2 = s1 /\ (loop pre s).2 = false /\
    loop (pre ++ post) s = ((loop pre s).1.1 ++ (loop post s1).1.1, (loop post s1).1.2, (loop post s1).2).
Proof.
  revert s; induction pre as [|u pre IH]; intros s Hp Hs.
  { exists s. split_and!; [done..|]. simpl. by destruct (loop post s) as [[? ?] ?]. }
  apply andb_true_iff in Hp as [Hu Hp]. apply andb_true_iff in Hu as [Hu1 Hu2]. apply negb_true_iff in Hu1.
  cbn [loop app]. rewrite Hu1, Hs. cbn [negb]. destruct (result u) as [events| |]; [|by apply IH|done].
  destruct (dispatch invoke events (table s)) as [tb tr].
  destruct (IH (mkLoop true tb) Hp eq_refl) as (s1 & H1 & H2 & H3 & H4). exists s1.
  destruct (loop pre (mkLoop true tb)) as [[acts s2] lf]. cbn [fst snd] in *. subst.
  rewrite H4. split_and!; [done..|]. by rewrite <- !app_assoc.
Qed.

(** [stop] takes effect at the next turn: the loop handles the events of the turns
    before the request, each followed by the idle callback, and nothing of what the
    kernel reports afterwards; EINTR is retried and does not end the loop. *)
Theorem stop_ends_loop pre r post s :
  forallb undisturbed pre = true ->
  run_loop (pre ++ mkTurn true r :: post) s =
    ((run_loop pre s).1.1, stop (run_loop pre s).1.2, true) /\ (run_loop pre s).2 = false.
Proof.
  intros Hp. unfold run_loop.
  destruct (loop_app pre (mkTurn true r :: post) (mkLoop true (table s)) Hp eq_refl) as (s1 & _ & H2 & H3 & ->).
  rewrite H3, H2. cbn [loop stop_requested stop running negb fst snd]. by rewrite app_nil_r.
Qed.

(** A [stop] that comes before [run] is lost: [run] sets the flag again. *)
Theorem stop_before_run_lost turns s : run_loop turns (stop s) = run_loop turns s.
Proof. done. Qed.

End Loop.

(** Applied to two turns before a stop. *)
Lemma stop_ends_loop_witness :
  run_loop (fun _ _ _ s => s) true
    ([mkTurn false (Ready [(1, 1)]); mkTurn false Interrupted] ++ mkTurn true (Ready [(1, 1)]) :: [])
    (mkLoop false (set_callback 1 (lit "a") (mkTable ∅ ∅)))
  = ([Call (lit "a") 1 1; Idle], mkLoop false (set_callback 1 (lit "a") (mkTable ∅ ∅)), true).
Proof.
  destruct (stop_ends_loop (fun _ _ _ s => s) true [mkTurn false (Ready [(1, 1)]); mkTurn false Interrupted]
    (Ready [(1, 1)]) [] (mkLoop false (set_callback 1 (lit "a") (mkTable ∅ ∅))) eq_refl) as [H _].
  rewrite H. by vm_compute.
Defined.

End EventLoop.
