(* ===== verification/Stats.v ===== *)
(** * Stats: src/monitor/stats.cpp

    The per-route counters and the global ones, all [uint64_t].  Every update is
    an atomic read-modify-write, so an execution is a sequence of updates (the
    unlocked lookup of [get_or_create] is taken to be atomic).  The
    average latency of a snapshot, a [double] quotient in the code, is kept as
    the pair of the numbers that are divided, [None] where the code leaves 0.0. *)

From S2P Require Import Prelude.

Module Stats.
Open Scope Z_scope.

Record RouteStats := mkRoute {
  total_requests : Z;
  success_count : Z;
  error_count : Z;
  latency_sum_ms : Z;
  latency_max_ms : Z;
  in_flight : Z
}.

Definition route_init : RouteStats := mkRoute 0 0 0 0 0 0.

Record t := mk {
  routes : gmap bytes RouteStats;
  upstream_errors : Z;
  cb_trips : Z;
  rate_limited : Z
}.

Definition create : t := mk ∅ 0 0 0.

(** [get_or_create]: [try_emplace] of a zeroed entry. *)
Definition get_or_create (route : bytes) (s : t) : RouteStats := default route_init (routes s !! route).

Definition update (route : bytes) (f : RouteStats -> RouteStats) (s : t) : t :=
  mk (<[route := f (get_or_create route s)]> (routes s)) (upstream_errors s) (cb_trips s) (rate_limited s).

Definition record_request (route : bytes) (latency_ms : Z) (s : t) : t :=
  update route
    (fun r =>
       mkRoute (u64 (total_requests r + 1)) (success_count r) (error_count r)
         (u64 (latency_sum_ms r + u64 latency_ms))
         (if latency_max_ms r <? u64 latency_ms then u64 latency_ms else latency_max_ms r)
         (if 0 <? in_flight r then u64 (in_flight r - 1) else in_flight r)) s.

Definition record_success (route : bytes) (s : t) : t :=
  update route
    (fun r => mkRoute (total_requests r) (u64 (success_count r + 1)) (error_count r)
                (latency_sum_ms r) (latency_max_ms r) (in_flight r)) s.

Definition record_error (route : bytes) (s : t) : t :=
  update route
    (fun r => mkRoute (total_requests r) (success_count r) (u64 (error_count r + 1))
                (latency_sum_ms r) (latency_max_ms r) (in_flight r)) s.

Definition inc_upstream_errors (s : t) : t :=
  mk (routes s) (u64 (upstream_errors s + 1)) (cb_trips s) (rate_limited s).
Definition inc_circuit_breaker_trips (s : t) : t :=
  mk (routes s) (upstream_errors s) (u64 (cb_trips s + 1)) (rate_limited s).
Definition inc_rate_limited (s : t) : t :=
  mk (routes s) (upstream_errors s) (cb_trips s) (u64 (rate_limited s + 1)).

Definition reset_all (s : t) : t := create.

(** ** Snapshots *)

Record Snapshot := mkSnapshot {
  s_requests : Z; s_success : Z; s_errors : Z;
  s_avg : option (Z * Z);
  s_max_latency : Z; s_in_flight : Z;
  s_upstream_errors : Z; s_cb_trips : Z; s_rate_limited : Z
}.

(** The sums wrap like the counters. *)
Definition sum_routes (f : RouteStats -> Z) (s : t) : Z :=
  map_fold (fun _ r acc => u64 (acc + f r)) 0 (routes s).

Definition max_routes (f : RouteStats -> Z) (s : t) : Z :=
  map_fold (fun _ r acc => if acc <? f r then f r else acc) 0 (routes s).

Definition global_snapshot (s : t) : Snapshot :=
  let total := sum_routes total_requests s in
  mkSnapshot total (sum_routes success_count s) (sum_routes error_count s)
    (if 0 <? total then Some (sum_routes latency_sum_ms s, total) else None)
    (max_routes latency_max_ms s) (sum_routes in_flight s)
    (upstream_errors s) (cb_trips s) (rate_limited s).

Record RouteSnapshot := mkRouteSnapshot { r_stats : RouteStats; r_avg : option (Z * Z) }.

Definition route_snapshot (s : t) : gmap bytes RouteSnapshot :=
  (fun r => mkRouteSnapshot r
      (if 0 <? total_requests r then Some (latency_sum_ms r, total_requests r) else None)) <$> routes s.

(** ** Executions *)

Inductive op :=
  | RecordRequest (route : bytes) (latency : Z) | RecordSuccess (route : bytes)
  | RecordError (route : bytes) | IncUpstream | IncTrips | IncLimited.

Definition exec (o : op) (s : t) : t :=
  match o with
  | RecordRequest r l => record_request r l s
  | RecordSuccess r => record_success r s
  | RecordError r => record_error r s
  | IncUpstream => inc_upstream_errors s
  | IncTrips => inc_circuit_breaker_trips s
  | IncLimited => inc_rate_limited s
  end.

Definition run (os : list op) (s : t) : t := foldl (fun s o => exec o s) s os.

(** ** Sums over routes *)

Lemma sum_step_comm (f : RouteStats -> Z) a b acc :
  u64 (u64 (acc + f a) + f b) = u64 (u64 (acc + f b) + f a).
Proof. rewrite !u64_idemp_add_l. f_equal. lia. Qed.

Lemma sum_routes_insert_new f k r m e1 e2 e3 :
  m !! k = None ->
  sum_routes f (mk (<[k := r]> m) e1 e2 e3) = u64 (sum_routes f (mk m e1 e2 e3) + f r).
Proof.
  intros Hk. unfold sum_routes. simpl.
  rewrite (map_fold_insert_L (fun _ r acc => u64 (acc + f r)) 0 k r m); [done| |done].
  intros. apply sum_step_comm.
Qed.

Lemma sum_routes_range f s : 0 <= sum_routes f s < two64.
Proof.
  unfold sum_routes. apply (map_fold_weak_ind (fun acc _ => 0 <= acc < two64)).
  - unfold two64. lia.
  - intros. apply u64_range.
Qed.

(** The sum after an update of one route changes by the change of that route. *)
Lemma sum_routes_update f k g s :
  f route_init = 0 -> sum_routes f (update k g s)
  = u64 (sum_routes f s + (f (g (get_or_create k s)) - f (get_or_create k s))).
Proof.
  intros H0. unfold update, get_or_create. destruct s as [m e1 e2 e3]. cbn [routes upstream_errors cb_trips rate_limited].
  destruct (m !! k) as [r|] eqn:E; cbn [default from_option id].
  - rewrite <- (insert_delete_id m k r E) at 2. rewrite <- (insert_delete_eq m k).
    rewrite !sum_routes_insert_new by apply lookup_delete_eq. rewrite u64_idemp_add_l. f_equal. lia.
  - rewrite sum_routes_insert_new by done. unfold id. rewrite H0. f_equal. lia.
Qed.

(** ** Properties *)

(** The number of operations that satisfy a test. *)
Definition count (p : op -> bool) (os : list op) : Z := zlen (filter (fun o => p o = true) os).
Definition is_request (o : op) : bool := match o with RecordRequest _ _ => true | _ => false end.
Definition is_success (o : op) : bool := match o with RecordSuccess _ => true | _ => false end.
Definition is_error (o : op) : bool := match o with RecordError _ => true | _ => false end.

Lemma count_snoc p os o : count p (os ++ [o]) = count p os + (if p o then 1 else 0).
Proof.
  unfold count. rewrite filter_app, zlen_app. f_equal. rewrite filter_cons.
  destruct (p o); [by rewrite decide_True|by rewrite decide_False].
Qed.

Lemma run_snoc os o s : run (os ++ [o]) s = exec o (run os s).
Proof. unfold run. by rewrite foldl_app. Qed.

Lemma u64_delta a x d : u64 (a + (u64 (x + d) - x)) = u64 (a + d).
Proof.
  replace (a + (u64 (x + d) - x)) with (u64 (x + d) + (a - x)) by lia.
  rewrite u64_idemp_add_l. f_equal. lia.
Qed.

Lemma u64_same a x : u64 (u64 a + (x - x)) = u64 a.
Proof. rewrite Z.sub_diag, Z.add_0_r. unfold u64. by rewrite Zmod_mod. Qed.

(** The global snapshot counts what was recorded: over any sequence of updates
    on any routes, its request, success and error totals are the numbers of the
    corresponding calls (modulo 2^64). *)
Theorem snapshot_counts (os : list op) :
  let snap := global_snapshot (run os create) in
  s_requests snap = u64 (count is_request os) /\
  s_success snap = u64 (count is_success os) /\
  s_errors snap = u64 (count is_error os).
Proof.
  cbv zeta. cbn [global_snapshot s_requests s_success s_errors].
  induction os as [|o os IH] using rev_ind; [done|].
  destruct IH as (I1 & I2 & I3). rewrite run_snoc, !count_snoc.
  destruct o as [r l|r|r| | |]; cbn [exec is_request is_success is_error];
    rewrite ?Z.add_0_r; try (by repeat split).
  all: unfold record_request, record_success, record_error; rewrite !sum_routes_update by done;
    cbn [total_requests success_count error_count]; rewrite I1, I2, I3, u64_delta, !u64_same;
    by rewrite u64_idemp_add_l.
Qed.

(** Two figures of the statistics page are dead: no call raises [in_flight], so
    it is 0 in every snapshot, and the trip counter counts only calls that the
    gateway never makes. *)
Theorem in_flight_always_zero (os : list op) :
  let snap := global_snapshot (run os create) in
  s_in_flight snap = 0 /\
  (Forall (fun o => o <> IncTrips) os -> s_cb_trips snap = 0).
Proof.
  cbv zeta. cbn [global_snapshot s_in_flight s_cb_trips].
  assert (map_Forall (fun _ r => in_flight r = 0) (routes (run os create)) /\
          (Forall (fun o => o <> IncTrips) os -> cb_trips (run os create) = 0)) as [H1 H2].
  { induction os as [|o os IH] using rev_ind; [split; [apply map_Forall_empty|done]|].
    destruct IH as [H1 H2]. rewrite run_snoc.
    assert (forall k, in_flight (get_or_create k (run os create)) = 0) as Hg.
    { intros k. unfold get_or_create. destruct (routes (run os create) !! k) as [r|] eqn:E; [|done].
      simpl. by apply (H1 k). }
    split.
    - destruct o as [r l|r|r| | |]; cbn [exec]; try done;
        apply map_Forall_insert_2; try done; cbn [in_flight]; rewrite ?Hg; done.
    - intros Ho. apply Forall_app in Ho as [Ho Ho'].
      apply Forall_cons in Ho' as [Ho' _].
      destruct o; try done; by apply H2. }
  split; [|done]. unfold sum_routes. revert H1. generalize (routes (run os create)). intros m Hm.
  induction m as [|k r m Hk IH] using map_ind; [done|].
  apply map_Forall_insert in Hm as [Hr Hm]; [|done].
  rewrite map_fold_insert_L; [|intros; apply sum_step_comm|done]. by rewrite IH, Hr.
Qed.

End Stats.
