(* ===== verification/ThreadPool.v ===== *)
(** * ThreadPool: src/utils/thread_pool.cpp

    The pool as a machine of threads: the workers, the threads that are inside
    [submit], [try_submit] or [enqueue], and the destructor.  A step is one
    critical section under [mutex_] or one notification, so a run of labels is an
    interleaving.  A thread that waits on a condition variable sleeps until a
    notification picks it or it wakes up spuriously; it then takes the lock and
    tests its predicate again.  The lists [accepted], [started] and [finished]
    record what happened to the tasks and are not part of the class. *)

From S2P Require Import Prelude.

Module ThreadPool.

Section Pool.
Context {T : Type}.

(** A worker thread: about to lock and test its predicate, asleep on [cv_], with
    a task in hand and about to notify [cv_not_full_], running it, returned. *)
Inductive worker := WCheck | WSleep | WNotify (x : T) | WRun (x : T) | WExit.

(** A client thread inside a call. *)
Inductive client :=
  | CSubmit (x : T)       (* submit, about to lock and test *)
  | CSleep (x : T)        (* submit, asleep on cv_not_full_ *)
  | CTry (x : T)          (* try_submit *)
  | CEnqueue (x : T)      (* enqueue *)
  | CNotify               (* its job is queued, about to notify cv_ *)
  | CDone (ok : bool)     (* returned *)
  | CThrow.               (* threw "... on stopped ThreadPool" *)

Inductive phase := Alive | Stopping | Joining | Joined.

Record t := mk {
  tasks : list T;
  stop : bool;
  max_queue_size : nat;
  workers : list worker;
  clients : list client;
  dtor : phase;
  accepted : list T;
  started : list T;
  finished : list T
}.

(** The constructor. *)
Definition create (num_threads max_size : nat) : t :=
  mk [] false max_size (replicate num_threads WCheck) [] Alive [] [] [].

(** ** Condition variables *)

(** [notify_one] wakes some sleeping thread, here the [k]-th, if there is one. *)
Definition notify_one {A} (asleep : A -> bool) (wake : A -> A) (k : nat) (l : list A) : option (list A) :=
  if existsb asleep l then
    a ← l !! k;
    if asleep a then Some (<[k := wake a]> l) else None
  else Some l.

Definition w_asleep (w : worker) : bool := match w with WSleep => true | _ => false end.
Definition w_wake (w : worker) : worker := match w with WSleep => WCheck | _ => w end.
Definition c_asleep (c : client) : bool := match c with CSleep _ => true | _ => false end.
Definition c_wake (c : client) : client := match c with CSleep x => CSubmit x | _ => c end.

(** ** Critical sections *)

Definition full (s : t) : bool := (0 <? max_queue_size s) && (max_queue_size s <=? length (tasks s)).

Definition set_client (i : nat) (c : client) (s : t) : t :=
  mk (tasks s) (stop s) (max_queue_size s) (workers s) (<[i := c]> (clients s)) (dtor s)
     (accepted s) (started s) (finished s).

Definition set_workers (ws : list worker) (s : t) : t :=
  mk (tasks s) (stop s) (max_queue_size s) ws (clients s) (dtor s) (accepted s) (started s) (finished s).

Definition set_clients (cs : list client) (s : t) : t :=
  mk (tasks s) (stop s) (max_queue_size s) (workers s) cs (dtor s) (accepted s) (started s) (finished s).

(** [tasks_.emplace(job)] *)
Definition emplace (x : T) (s : t) : t :=
  mk (tasks s ++ [x]) (stop s) (max_queue_size s) (workers s) (clients s) (dtor s)
     (accepted s ++ [x]) (started s) (finished s).

(** The locked part of [submit], which is also what a woken submitter does. *)
Definition submit (i : nat) (x : T) (s : t) : t :=
  if stop s then set_client i CThrow s
  else if full s then set_client i (CSleep x) s
  else set_client i CNotify (emplace x s).

Definition try_submit (i : nat) (x : T) (s : t) : t :=
  if stop s then set_client i CThrow s
  else if full s then set_client i (CDone false) s
  else set_client i CNotify (emplace x s).

Definition enqueue (i : nat) (x : T) (s : t) : t :=
  if stop s then set_client i CThrow s else set_client i CNotify (emplace x s).

(** One step of client thread [i]. *)
Definition client_step (i k : nat) (s : t) : option t :=
  c ← clients s !! i;
  match c with
  | CSubmit x => Some (submit i x s)
  | CTry x => Some (try_submit i x s)
  | CEnqueue x => Some (enqueue i x s)
  | CNotify =>
      ws ← notify_one w_asleep w_wake k (workers s);
      Some (set_client i (CDone true) (set_workers ws s))
  | CSleep _ | CDone _ | CThrow => None
  end.

(** The locked part of the worker loop: return, take a task, or wait. *)
Definition take_task (i : nat) (s : t) : t :=
  match tasks s with
  | x :: rest =>
      mk rest (stop s) (max_queue_size s) (<[i := WNotify x]> (workers s)) (clients s) (dtor s)
         (accepted s) (started s ++ [x]) (finished s)
  | [] => set_workers (<[i := if stop s then WExit else WSleep]> (workers s)) s
  end.

Definition worker_step (i k : nat) (s : t) : option t :=
  w ← workers s !! i;
  match w with
  | WCheck => Some (take_task i s)
  | WNotify x =>
      cs ← notify_one c_asleep c_wake k (clients s);
      Some (set_workers (<[i := WRun x]> (workers s)) (set_clients cs s))
  | WRun x =>
      Some (mk (tasks s) (stop s) (max_queue_size s) (<[i := WCheck]> (workers s)) (clients s) (dtor s)
               (accepted s) (started s) (finished s ++ [x]))
  | WSleep | WExit => None
  end.

(** The destructor: set the flag, notify the workers, join them. *)
Definition set_dtor (b : bool) (d : phase) (s : t) : t :=
  mk (tasks s) b (max_queue_size s) (workers s) (clients s) d (accepted s) (started s) (finished s).

Definition w_exited (w : worker) : bool := match w with WExit => true | _ => false end.

Definition destroy_step (s : t) : option t :=
  match dtor s with
  | Alive => Some (set_dtor true Stopping s)
  | Stopping => Some (set_dtor (stop s) Joining (set_workers (w_wake <$> workers s) s))
  | Joining => if forallb w_exited (workers s) then Some (set_dtor (stop s) Joined s) else None
  | Joined => None
  end.

(** ** Runs *)

Inductive label :=
  | Call (c : client)            (* a thread calls submit, try_submit or enqueue *)
  | Client (i k : nat)
  | Worker (i k : nat)
  | SpuriousWorker (i : nat)
  | SpuriousClient (i : nat)
  | Destroy.

Definition is_call (c : client) : bool :=
  match c with CSubmit _ | CTry _ | CEnqueue _ => true | _ => false end.

Definition exec (l : label) (s : t) : option t :=
  match l with
  | Call c => if is_call c then Some (set_clients (clients s ++ [c]) s) else None
  | Client i k => client_step i k s
  | Worker i k => worker_step i k s
  | SpuriousWorker i =>
      w ← workers s !! i; if w_asleep w then Some (set_workers (<[i := w_wake w]> (workers s)) s) else None
  | SpuriousClient i =>
      c ← clients s !! i; if c_asleep c then Some (set_clients (<[i := c_wake c]> (clients s)) s) else None
  | Destroy => destroy_step s
  end.

Fixpoint run (ls : list label) (s : t) : option t :=
  match ls with [] => Some s | l :: ls' => s ← exec l s; run ls' s end.

(** ** Counting threads *)

Definition cnt {A} (p : A -> bool) (l : list A) : nat := sum_list_with (fun a => if p a then 1 else 0) l.
#[local] Arguments cnt : simpl never.

Lemma cnt_zero {A} (p : A -> bool) l : cnt p l = 0 <-> forall a, a ∈ l -> p a = false.
Proof.
  unfold cnt. rewrite sum_zero. split; intros H a Ha; specialize (H a Ha); by destruct (p a).
Qed.

Lemma cnt_pos {A} (p : A -> bool) l i a : l !! i = Some a -> p a = true -> 0 < cnt p l.
Proof.
  intros Hi Ha. destruct (decide (cnt p l = 0)) as [E|]; [|lia].
  apply (proj1 (cnt_zero p l)) with a in E; [congruence|]. by eapply list_elem_of_lookup_2.
Qed.

(** What a notification does: nothing when nobody sleeps, otherwise it wakes one. *)
Lemma notify_one_spec {A} (asleep : A -> bool) wake k l l' :
  notify_one asleep wake k l = Some l' ->
  (cnt asleep l = 0 /\ l' = l) \/
  (exists a, l !! k = Some a /\ asleep a = true /\ l' = <[k := wake a]> l).
Proof.
  unfold notify_one. destruct (existsb asleep l) eqn:E.
  - destruct (l !! k) as [a|] eqn:Ek; cbn [mbind option_bind]; [|done].
    destruct (asleep a) eqn:Ea; [|done]. intros [= <-]. right. by exists a.
  - intros [= <-]. left. split; [|done]. apply cnt_zero. intros a Ha.
    destruct (asleep a) eqn:Ea; [|done]. apply not_true_iff_false in E. destruct E.
    apply existsb_exists. exists a. split; [|done]. by apply list_elem_of_In.
Qed.

(** A notification is never refused for every choice of [k]. *)
Lemma notify_one_enabled {A} (asleep : A -> bool) wake l : exists k, is_Some (notify_one asleep wake k l).
Proof.
  unfold notify_one. destruct (existsb asleep l) eqn:E; [|by exists 0].
  apply existsb_exists in E as (a & Ha & Hs). apply list_elem_of_In, list_elem_of_lookup_1 in Ha as [k Hk].
  exists k. rewrite Hk; cbn [mbind option_bind]. by rewrite Hs.
Qed.

(** ** The machine as a step relation *)

Definition job (c : client) : option T :=
  match c with CSubmit x | CTry x | CEnqueue x => Some x | _ => None end.

Definition w_checks (w : worker) : bool := match w with WCheck => true | _ => false end.
Definition w_notifies (w : worker) : bool := match w with WNotify _ => true | _ => false end.
Definition c_submits (c : client) : bool := match c with CSubmit _ => true | _ => false end.
Definition c_notifies (c : client) : bool := match c with CNotify => true | _ => false end.

Inductive step (s : t) : label -> t -> Prop :=
  | S_call c : is_call c = true -> step s (Call c) (set_clients (clients s ++ [c]) s)
  | S_throw i k c x :
      clients s !! i = Some c -> job c = Some x -> stop s = true -> step s (Client i k) (set_client i CThrow s)
  | S_wait i k x :
      clients s !! i = Some (CSubmit x) -> stop s = false -> full s = true ->
      step s (Client i k) (set_client i (CSleep x) s)
  | S_refuse i k x :
      clients s !! i = Some (CTry x) -> stop s = false -> full s = true ->
      step s (Client i k) (set_client i (CDone false) s)
  | S_emplace i k c x :
      clients s !! i = Some c -> job c = Some x -> stop s = false ->
      (full s = false \/ c = CEnqueue x) -> step s (Client i k) (set_client i CNotify (emplace x s))
  | S_signal_none i k :
      clients s !! i = Some CNotify -> cnt w_asleep (workers s) = 0 ->
      step s (Client i k) (set_client i (CDone true) (set_workers (workers s) s))
  | S_signal i k :
      clients s !! i = Some CNotify -> workers s !! k = Some WSleep ->
      step s (Client i k) (set_client i (CDone true) (set_workers (<[k := WCheck]> (workers s)) s))
  | S_take i k x rest :
      workers s !! i = Some WCheck -> tasks s = x :: rest -> step s (Worker i k) (take_task i s)
  | S_idle i k :
      workers s !! i = Some WCheck -> tasks s = [] -> step s (Worker i k) (take_task i s)
  | S_room_none i k x :
      workers s !! i = Some (WNotify x) -> cnt c_asleep (clients s) = 0 ->
      step s (Worker i k) (set_workers (<[i := WRun x]> (workers s)) (set_clients (clients s) s))
  | S_room i k x y :
      workers s !! i = Some (WNotify x) -> clients s !! k = Some (CSleep y) ->
      step s (Worker i k)
        (set_workers (<[i := WRun x]> (workers s)) (set_clients (<[k := CSubmit y]> (clients s)) s))
  | S_finish i k x :
      workers s !! i = Some (WRun x) ->
      step s (Worker i k)
        (mk (tasks s) (stop s) (max_queue_size s) (<[i := WCheck]> (workers s)) (clients s) (dtor s)
            (accepted s) (started s) (finished s ++ [x]))
  | S_spurious_worker i :
      workers s !! i = Some WSleep ->
      step s (SpuriousWorker i) (set_workers (<[i := WCheck]> (workers s)) s)
  | S_spurious_client i x :
      clients s !! i = Some (CSleep x) ->
      step s (SpuriousClient i) (set_clients (<[i := CSubmit x]> (clients s)) s)
  | S_stop : dtor s = Alive -> step s Destroy (set_dtor true Stopping s)
  | S_wake : dtor s = Stopping -> step s Destroy (set_dtor (stop s) Joining (set_workers (w_wake <$> workers s) s))
  | S_join :
      dtor s = Joining -> forallb w_exited (workers s) = true -> step s Destroy (set_dtor (stop s) Joined s).

Lemma exec_step l s s' : exec l s = Some s' -> step s l s'.
Proof.
  destruct l as [c|i k|i k|i|i|]; simpl.
  - destruct (is_call c) eqn:E; [|done]. intros [= <-]. by constructor.
  - unfold client_step. destruct (clients s !! i) as [c|] eqn:Ei; cbn [mbind option_bind]; [|done].
    destruct c as [x|x|x|x| |ok|]; try done; unfold submit, try_submit, enqueue.
    + destruct (stop s) eqn:Es, (full s) eqn:Ef; intros [= <-]; eauto using step.
    + destruct (stop s) eqn:Es, (full s) eqn:Ef; intros [= <-]; eauto using step.
    + destruct (stop s) eqn:Es; intros [= <-]; eauto using step.
    + destruct (notify_one _ _ _ _) as [ws|] eqn:En; cbn [mbind option_bind]; [|done]. intros [= <-].
      apply notify_one_spec in En as [[H ->]|(w & Hk & Hw & ->)]; [eauto using step|].
      destruct w; try done. eauto using step.
  - unfold worker_step. destruct (workers s !! i) as [w|] eqn:Ei; cbn [mbind option_bind]; [|done].
    destruct w as [| |x|x|]; try done.
    + intros [= <-]. destruct (tasks s) eqn:Et; eauto using step.
    + destruct (notify_one _ _ _ _) as [cs|] eqn:En; cbn [mbind option_bind]; [|done]. intros [= <-].
      apply notify_one_spec in En as [[H ->]|(c & Hk & Hc & ->)]; [eauto using step|].
      destruct c; try done. eauto using step.
    + intros [= <-]. eauto using step.
  - destruct (workers s !! i) as [w|] eqn:Ei; cbn [mbind option_bind]; [|done].
    destruct w; try done. intros [= <-]. eauto using step.
  - destruct (clients s !! i) as [c|] eqn:Ei; cbn [mbind option_bind]; [|done].
    destruct c; try done. intros [= <-]. eauto using step.
  - unfold destroy_step. destruct (dtor s) eqn:Ed; try (intros [= <-]; eauto using step).
    destruct (forallb w_exited (workers s)) eqn:E; [|done]. intros [= <-]. eauto using step.
Qed.

(** ** Invariant *)

Definition held (w : worker) : list T := match w with WNotify x | WRun x => [x] | _ => [] end.

(** Every task is queued, in the hands of one worker or finished; tasks leave the
    queue in the order they entered it. *)
Record tasks_inv (s : t) : Prop := {
  inv_fifo : accepted s = started s ++ tasks s;
  inv_held : started s ≡ₚ finished s ++ (workers s ≫= held)
}.

(** A worker sleeps only if enough threads are about to look after the queue; a
    submitter sleeps only if the queue is full or enough threads look after it. *)
Record wakeup_inv (s : t) : Prop := {
  inv_workers : 0 < cnt w_asleep (workers s) ->
    length (tasks s) <= cnt w_checks (workers s) + cnt c_notifies (clients s);
  inv_clients : stop s = false -> 0 < cnt c_asleep (clients s) ->
    0 < max_queue_size s <= length (tasks s) + cnt c_submits (clients s) + cnt w_notifies (workers s)
}.

(** What the stages of the destructor say about the workers. *)
Record shutdown_inv (s : t) : Prop := {
  inv_stop : stop s = false <-> dtor s = Alive;
  inv_exit : 0 < cnt w_exited (workers s) -> stop s = true /\ tasks s = [];
  inv_awake : dtor s = Joining \/ dtor s = Joined -> cnt w_asleep (workers s) = 0;
  inv_joined : dtor s = Joined -> forallb w_exited (workers s) = true
}.

Lemma held_insert ws i w w' :
  ws !! i = Some w -> (<[i := w']> ws ≫= held) ++ held w ≡ₚ (ws ≫= held) ++ held w'.
Proof.
  revert i; induction ws as [|v ws IH]; intros [|i]; simpl; [done|done|..].
  - intros [= ->]. change (list_bind _ _ held ws) with (ws ≫= held). solve_Permutation.
  - intros Hi. change (list_bind _ _ held ?l) with (l ≫= held). rewrite <- !app_assoc, (IH i Hi). done.
Qed.

Lemma all_exited ws i w : forallb w_exited ws = true -> ws !! i = Some w -> w = WExit.
Proof.
  rewrite forallb_forall. intros H Hi. apply list_elem_of_lookup_2, list_elem_of_In, H in Hi. by destruct w.
Qed.

Lemma cnt_wake ws : cnt w_asleep (w_wake <$> ws) = 0.
Proof. apply cnt_zero. intros w (v & -> & _)%list_elem_of_fmap. by destruct v. Qed.

Lemma cnt_wake_other (p : worker -> bool) ws : p WSleep = p WCheck -> cnt p (w_wake <$> ws) = cnt p ws.
Proof.
  intros Hp. unfold cnt. induction ws as [|w ws IH]; [done|]. rewrite fmap_cons. cbn [sum_list_with].
  rewrite IH. destruct w; simpl; by rewrite ?Hp.
Qed.

Lemma held_wake ws : (w_wake <$> ws) ≫= held = ws ≫= held.
Proof.
  induction ws as [|w ws IH]; [done|]. rewrite fmap_cons, !bind_cons, IH. by destruct w.
Qed.

(** The counts of a list after one of its threads moved. *)
Lemma cnt_insert {A} (p : A -> bool) l i a b :
  l !! i = Some a ->
  cnt p (<[i := b]> l) + (if p a then 1 else 0) = cnt p l + (if p b then 1 else 0).
Proof. apply (sum_insert (fun a => if p a then 1 else 0)). Qed.

Lemma cnt_snoc {A} (p : A -> bool) l a : cnt p (l ++ [a]) = cnt p l + (if p a then 1 else 0).
Proof. unfold cnt. rewrite sum_list_with_app. simpl. lia. Qed.

(** Replaces the counts of changed lists by the counts of the old ones. *)
Ltac count :=
  repeat match goal with
  | H : ?l !! ?i = Some ?a |- context [cnt ?p (<[?i := ?b]> ?l)] =>
      let E := fresh "E" in
      pose proof (cnt_insert p l i a b H) as E; cbn in E;
      let n := fresh "n" in set (n := cnt p (<[i := b]> l)) in *; clearbody n
  end;
  rewrite ?cnt_snoc, ?cnt_wake, ?(cnt_wake_other w_notifies), ?(cnt_wake_other w_exited), ?length_app by done;
  cbn [length].

Ltac step_cases H :=
  destruct H as [c Hc|i k c x Hi Hj Hst|i k x Hi Hst Hf|i k x Hi Hst Hf|i k c x Hi Hj Hst Hf|i k Hi H0|i k Hi Hk
    |i k x rest Hi Ht|i k Hi Ht|i k x Hi H0|i k x y Hi Hk|i k x Hi|i Hi|i x Hi|Hd|Hd|Hd Ha];
  unfold take_task; try rewrite Ht; cbn.

Lemma full_room s : full s = true -> 0 < max_queue_size s <= length (tasks s).
Proof. unfold full. rewrite andb_true_iff, Nat.ltb_lt, Nat.leb_le. lia. Qed.

Lemma not_full s : full s = false -> max_queue_size s = 0 \/ length (tasks s) < max_queue_size s.
Proof. unfold full. rewrite andb_false_iff, Nat.ltb_ge, Nat.leb_gt. lia. Qed.

Lemma tasks_inv_step l s s' : tasks_inv s -> step s l s' -> tasks_inv s'.
Proof.
  intros [I1 I2] Hs. step_cases Hs; split; cbn; try assumption.
  all: try (rewrite I1; try rewrite Ht; by rewrite <- ?app_assoc).
  all: try (rewrite held_wake; assumption).
  all: match goal with
       | H : workers _ !! ?i = Some _ |- context [<[?i := ?w']> _] => pose proof (held_insert _ _ _ w' H) as E
       end; cbn in E; rewrite ?app_nil_r in E.
  all: try (apply Permutation_app_inv_r in E).
  all: try (rewrite E; assumption).
  - by rewrite E, app_assoc, I2.
  - by destruct (stop s); cbn in E; rewrite ?app_nil_r in E; rewrite E.
  - by rewrite I2, <- app_assoc, <- E, (Permutation_app_comm [x]).
Qed.

Lemma wakeup_inv_step l s s' : wakeup_inv s -> step s l s' -> wakeup_inv s'.
Proof.
  intros [I3 I4] Hs. step_cases Hs; split; cbn; try assumption.
  all: try (destruct c; try done); try apply full_room in Hf; count; try rewrite Ht in *; cbn in *; try lia.
  all: intros Hst'; specialize (I4 Hst'); first [lia|congruence].
Qed.

Lemma shutdown_inv_step l s s' : shutdown_inv s -> step s l s' -> shutdown_inv s'.
Proof.
  intros [I5 I6 I7 I8] Hs. step_cases Hs; split; cbn; try assumption; try destruct (stop s) eqn:Est; try by intuition.
  all: try (intros Hj'; specialize (I8 Hj'); by eapply all_exited in I8; [|eassumption]).
  all: count.
  all: try (intros Hn; destruct I6 as [? ?]; [lia|congruence]).
  all: try (intros Hn; destruct I6 as [? ?]; [lia|split; congruence]).
  all: try (intros Hn; specialize (I7 Hn); lia).
  all: try done; destruct I5 as [I5 _]; specialize (I5 eq_refl); intuition congruence.
Qed.

Lemma created_inv n m : let s := create n m in tasks_inv s /\ wakeup_inv s /\ shutdown_inv s.
Proof.
  assert (Hz : forall p : worker -> bool, p WCheck = false -> cnt p (replicate n WCheck) = 0)
    by (intros p Hp; apply cnt_zero; intros w ->%elem_of_replicate_inv; done).
  assert (Hh : replicate n WCheck ≫= held = []).
  { clear. induction n as [|n IH]; [done|]. cbn [replicate]. rewrite bind_cons. exact IH. }
  split_and!; split; cbn; rewrite ?Hz, ?Hh by done; try done; try lia. unfold cnt; simpl; lia.
Qed.

Lemma threads_run_inv ls n m s : run ls (create n m) = Some s -> tasks_inv s /\ wakeup_inv s /\ shutdown_inv s.
Proof.
  destruct (created_inv n m) as (H1 & H2 & H3). revert H1 H2 H3. generalize (create n m).
  induction ls as [|l ls IH]; intros s0 H1 H2 H3; cbn [run]; [by intros [= ->]|].
  destruct (exec l s0) as [s1|] eqn:E; cbn [mbind option_bind]; [|done]. apply exec_step in E.
  apply IH; eauto using tasks_inv_step, wakeup_inv_step, shutdown_inv_step.
Qed.

(** ** Termination *)

Definition w_weight (w : worker) : nat :=
  match w with WNotify _ => 4 | WRun _ => 2 | WCheck => 1 | WSleep | WExit => 0 end.
Definition c_weight (c : client) : nat :=
  match c with CSubmit _ | CTry _ | CEnqueue _ => 7 | CSleep _ => 6 | CNotify => 2 | CDone _ | CThrow => 0 end.
Definition d_weight (n : nat) (d : phase) : nat :=
  match d with Alive => n + 3 | Stopping => n + 2 | Joining => 1 | Joined => 0 end.

Definition measure (s : t) : nat :=
  4 * length (tasks s) + sum_list_with w_weight (workers s) + sum_list_with c_weight (clients s)
  + d_weight (length (workers s)) (dtor s).

(** A step the threads inside the pool take by themselves: no new call and no
    spurious wake-up. *)
Definition internal (l : label) : bool :=
  match l with Client _ _ | Worker _ _ | Destroy => true | _ => false end.

Lemma wake_weight ws : sum_list_with w_weight (w_wake <$> ws) <= sum_list_with w_weight ws + length ws.
Proof.
  induction ws as [|w ws IH]; [done|]. rewrite fmap_cons. cbn [sum_list_with length]. destruct w; cbn; lia.
Qed.

Ltac weigh :=
  repeat match goal with
  | H : ?l !! ?i = Some ?a |- context [sum_list_with ?f (<[?i := ?b]> ?l)] =>
      let E := fresh "E" in
      pose proof (sum_insert f l i a b H) as E; cbn in E;
      let n := fresh "n" in set (n := sum_list_with f (<[i := b]> l)) in *; clearbody n
  end.

Lemma step_decreases l s s' : step s l s' -> internal l = true -> measure s' < measure s.
Proof.
  intros Hs. step_cases Hs; try done; intros _; unfold measure; cbn; rewrite ?length_insert, ?length_app.
  all: try (destruct c; try done).
  all: try rewrite Ht; weigh; try rewrite Hd; cbn; try lia.
  - destruct (stop s); cbn in *; lia.
  - pose proof (wake_weight (workers s)). lia.
Qed.

Definition thread_step (l : label) : bool := match l with Client _ _ | Worker _ _ => true | _ => false end.

Definition stuck (p : label -> bool) (s : t) : Prop := forall l, p l = true -> exec l s = None.

Lemma pool_run_app ls1 ls2 s : run (ls1 ++ ls2) s = s' ← run ls1 s; run ls2 s'.
Proof.
  revert s; induction ls1 as [|l ls1 IH]; intros s; cbn; [done|].
  destruct (exec l s); cbn; [apply IH|done].
Qed.

Lemma run_bounded ls s s' :
  run ls s = Some s' -> Forall (fun l => internal l = true) ls -> length ls + measure s' <= measure s.
Proof.
  revert s; induction ls as [|l ls IH]; intros s; cbn [run]; [intros [= ->]; simpl; lia|].
  destruct (exec l s) as [s1|] eqn:E; cbn [mbind option_bind]; [|done]. intros Hr [Hl Hls]%Forall_cons.
  apply exec_step, step_decreases in E; [|done]. specialize (IH s1 Hr Hls). simpl. lia.
Qed.

Lemma run_workers ls s s' : run ls s = Some s' -> length (workers s') = length (workers s).
Proof.
  revert s; induction ls as [|l ls IH]; intros s; cbn [run]; [by intros [= ->]|].
  destruct (exec l s) as [s1|] eqn:E; cbn [mbind option_bind]; [|done]. intros ->%IH.
  apply exec_step in E. step_cases E; by rewrite ?length_insert, ?length_fmap.
Qed.

(** Without workers no task is ever taken. *)
Lemma no_workers_idle ls s s' : run ls s = Some s' -> workers s = [] -> started s' = started s.
Proof.
  revert s; induction ls as [|l ls IH]; intros s; cbn [run]; [by intros [= ->]|].
  destruct (exec l s) as [s1|] eqn:E; cbn [mbind option_bind]; [|done]. intros Hr Hw.
  assert (Hw1 : workers s1 = []).
  { assert (Hr1 : run [l] s = Some s1) by (cbn; by rewrite E). apply run_workers in Hr1.
    rewrite Hw in Hr1. by apply length_zero_iff_nil. }
  rewrite (IH s1 Hr Hw1). apply exec_step in E. step_cases E; try done; rewrite Hw in *; done.
Qed.

Lemma stuck_worker s i w : stuck thread_step s -> workers s !! i = Some w -> w = WSleep \/ w = WExit.
Proof.
  intros Hs Hi. destruct w as [| |x|x|]; auto; exfalso.
  - specialize (Hs (Worker i 0) eq_refl). cbn in Hs. unfold worker_step in Hs. by rewrite Hi in Hs.
  - destruct (notify_one_enabled c_asleep c_wake (clients s)) as (k & cs & Hk).
    specialize (Hs (Worker i k) eq_refl). cbn in Hs. unfold worker_step in Hs. rewrite Hi in Hs.
    cbn [mbind option_bind] in Hs. by rewrite Hk in Hs.
  - specialize (Hs (Worker i 0) eq_refl). cbn in Hs. unfold worker_step in Hs. by rewrite Hi in Hs.
Qed.

Lemma stuck_client s i c :
  stuck thread_step s -> clients s !! i = Some c -> (exists x, c = CSleep x) \/ (exists ok, c = CDone ok) \/ c = CThrow.
Proof.
  intros Hs Hi. destruct c as [x|x|x|x| |ok|]; eauto; exfalso.
  4: { destruct (notify_one_enabled w_asleep w_wake (workers s)) as (k & ws & Hk).
    specialize (Hs (Client i k) eq_refl). cbn in Hs. unfold client_step in Hs. rewrite Hi in Hs.
    cbn [mbind option_bind] in Hs. by rewrite Hk in Hs. }
  all: specialize (Hs (Client i 0) eq_refl); cbn in Hs; unfold client_step in Hs; by rewrite Hi in Hs.
Qed.

Lemma stuck_no_worker p s : stuck thread_step s -> p WSleep = false -> p WExit = false -> cnt p (workers s) = 0.
Proof.
  intros Hs H1 H2. apply cnt_zero. intros w [i Hi]%list_elem_of_lookup_1.
  by destruct (stuck_worker _ _ _ Hs Hi) as [-> | ->].
Qed.

Lemma stuck_no_client p s :
  stuck thread_step s -> (forall x, p (CSleep x) = false) -> (forall ok, p (CDone ok) = false) -> p CThrow = false ->
  cnt p (clients s) = 0.
Proof.
  intros Hs H1 H2 H3. apply cnt_zero. intros c [i Hi]%list_elem_of_lookup_1.
  destruct (stuck_client _ _ _ Hs Hi) as [[x ->]|[[ok ->]| ->]]; auto.
Qed.

Lemma stuck_held s : stuck thread_step s -> workers s ≫= held = [].
Proof.
  intros Hs. assert (H : forall w, w ∈ workers s -> held w = []).
  { intros w [i Hi]%list_elem_of_lookup_1. by destruct (stuck_worker _ _ _ Hs Hi) as [-> | ->]. }
  revert H. generalize (workers s) as ws. induction ws as [|w ws IH]; intros H; [done|].
  rewrite bind_cons, IH by set_solver. rewrite (H w) by set_solver. done.
Qed.

Lemma stuck_done s : tasks_inv s -> stuck thread_step s -> tasks s = [] -> finished s ≡ₚ accepted s.
Proof.
  intros [I1 I2] Hs Ht. rewrite Ht, app_nil_r in I1. rewrite (stuck_held s Hs), app_nil_r in I2. by rewrite I1.
Qed.

Definition no_enqueue (c : client) : bool := match c with CEnqueue _ => false | _ => true end.

Definition bounded (s : t) : Prop := length (tasks s) <= max_queue_size s /\ cnt (negb ∘ no_enqueue) (clients s) = 0.

Lemma bounded_step l s s' :
  bounded s -> 0 < max_queue_size s -> step s l s' ->
  match l with Call c => no_enqueue c = true | _ => True end -> bounded s' /\ max_queue_size s' = max_queue_size s.
Proof.
  intros [H1 H2] Hm Hs Hl. split; [|by step_cases Hs].
  assert (Hn : forall i x, clients s !! i = Some (CEnqueue x) -> False).
  { intros i x Hi. by apply (cnt_pos (negb ∘ no_enqueue)) in Hi; [lia|]. }
  step_cases Hs; split; cbn; try assumption; try destruct c; try done; count; try lia; try rewrite Ht in *; cbn in *; try lia.
  all: destruct Hf as [Hf|Hf]; [|first [discriminate Hf|destruct (Hn i x); congruence]].
  all: apply not_full in Hf; lia.
Qed.

Lemma asleep_stays l s s' j z :
  step s l s' -> dtor s = Joined -> forallb w_exited (workers s) = true -> clients s !! j = Some (CSleep z) ->
  l <> SpuriousClient j ->
  dtor s' = Joined /\ forallb w_exited (workers s') = true /\ clients s' !! j = Some (CSleep z).
Proof.
  intros Hs Hd' Hw Hj' Hl. step_cases Hs; try congruence; try (by eapply all_exited in Hw; [|eassumption]).
  all: split_and!; try done.
  all: try (rewrite list_lookup_insert_ne; [done|intros ->; congruence]).
  - by apply lookup_app_l_Some.
  - rewrite list_lookup_insert_ne; [done|intros ->]. simplify_eq.
  - rewrite list_lookup_insert_ne; [done|intros ->]. simplify_eq.
Qed.

(** A pool at rest has nothing left to do. *)
Lemma at_rest ls n m s :
  0 < n -> run ls (create n m) = Some s -> stop s = false -> stuck thread_step s ->
  tasks s = [] /\ finished s ≡ₚ accepted s /\
  forall c, c ∈ clients s -> (exists ok, c = CDone ok) \/ c = CThrow.
Proof.
  intros Hn Hr2 Hst Hs.
  pose proof (run_workers _ _ _ Hr2) as Hlen. cbn in Hlen. rewrite length_replicate in Hlen.
  apply threads_run_inv in Hr2 as (It & [Iw Ic] & [_ Ie _ _]).
  assert (Ht : tasks s = []).
  { destruct (workers s) as [|w ws] eqn:Ews; [simpl in Hlen; lia|].
    assert (H0 : workers s !! 0 = Some w) by (by rewrite Ews). rewrite <- Ews in *.
    destruct (stuck_worker _ _ _ Hs H0) as [-> | ->].
    - apply (cnt_pos w_asleep) in H0; [|done]. specialize (Iw H0).
      rewrite (stuck_no_worker w_checks), (stuck_no_client c_notifies) in Iw by done.
      by apply length_zero_iff_nil; lia.
    - apply (cnt_pos w_exited) in H0; [|done]. by destruct (Ie H0). }
  split_and!; [done|by apply stuck_done|]. intros c [i Hi]%list_elem_of_lookup_1.
  destruct (stuck_client _ _ _ Hs Hi) as [[x ->]|[[ok ->]| ->]]; [|by eauto..]. exfalso.
  apply (cnt_pos c_asleep) in Hi; [|done]. specialize (Ic Hst Hi).
  rewrite Ht, (stuck_no_worker w_notifies), (stuck_no_client c_submits) in Ic by done. simpl in Ic. lia.
Qed.

(** Whatever the threads do and in whatever order, the tasks that were accepted are
    the ones a worker has taken followed by the ones still queued: tasks are taken
    in submission order, none is lost and none is taken twice.  A task that was taken
    has run to its end or is in the hands of exactly one worker. *)
Theorem tasks_run_once_in_order ls n m s :
  run ls (create n m) = Some s ->
  accepted s = started s ++ tasks s /\ started s ≡ₚ finished s ++ (workers s ≫= held).
Proof. intros H. apply threads_run_inv in H as ([I1 I2] & _). done. Qed.

(** C36. No wake-up is lost while the pool is alive.  From every reachable state the threads
    inside the pool can only take [measure s] more steps, and when they have come
    to rest every accepted task has run, the queue is empty and every call has
    returned: no worker and no blocked submitter sleeps on work it should see. *)
Theorem tasks_complete ls n m s ls' s' :
  0 < n -> run ls (create n m) = Some s -> Forall (fun l => thread_step l = true) ls' -> run ls' s = Some s' ->
  length ls' <= measure s /\
  (stop s' = false -> stuck thread_step s' ->
   tasks s' = [] /\ finished s' ≡ₚ accepted s' /\
   forall c, c ∈ clients s' -> (exists ok, c = CDone ok) \/ c = CThrow).
Proof.
  intros Hn Hr Hf Hr'. split.
  { enough (length ls' + measure s' <= measure s) by lia. apply run_bounded; [done|].
    eapply Forall_impl; [exact Hf|]. by intros []. }
  intros Hst Hs. apply (at_rest (ls ++ ls') n m); try done. by rewrite pool_run_app, Hr.
Qed.

(** C37. The destructor drains the pool.  Once it has started, every run of the threads
    and of the destructor has at most [measure s] steps, and when nothing can move
    any more the workers have been joined, the queue is empty and every task that
    was accepted before the flag was set has run. *)
Theorem destructor_drains ls n m s ls' s' :
  0 < n -> run ls (create n m) = Some s -> Forall (fun l => internal l = true) ls' -> run ls' s = Some s' ->
  length ls' <= measure s /\
  (stuck internal s' -> dtor s' = Joined /\ tasks s' = [] /\ finished s' ≡ₚ accepted s').
Proof.
  intros Hn Hr Hf Hr'. split; [by pose proof (run_bounded _ _ _ Hr' Hf); lia|]. intros Hs.
  assert (Hs' : stuck thread_step s') by (intros l Hl; apply Hs; by destruct l).
  assert (Hr2 : run (ls ++ ls') (create n m) = Some s') by (rewrite pool_run_app, Hr; done).
  pose proof (run_workers _ _ _ Hr2) as Hlen. cbn in Hlen. rewrite length_replicate in Hlen.
  apply threads_run_inv in Hr2 as (It & _ & [Ist Ie Ia Ij]).
  specialize (Hs Destroy eq_refl). cbn in Hs. unfold destroy_step in Hs.
  assert (Hd : dtor s' = Joined).
  { destruct (dtor s') eqn:Ed; try done. destruct (forallb w_exited (workers s')) eqn:Ew; [done|]. exfalso.
    apply not_true_iff_false in Ew. apply Ew, forallb_forall. intros w [i Hi]%list_elem_of_In%list_elem_of_lookup_1.
    destruct (stuck_worker _ _ _ Hs' Hi) as [-> | ->]; [|done].
    apply (cnt_pos w_asleep) in Hi; [|done]. rewrite Ia in Hi by auto. lia. }
  assert (Ht : tasks s' = []).
  { destruct (workers s') as [|w ws] eqn:Ews; [simpl in Hlen; lia|]. specialize (Ij Hd).
    assert (w = WExit) as -> by (eapply all_exited; [exact Ij|by instantiate (1 := 0)]).
    apply Ie. unfold cnt; simpl; lia. }
  split_and!; [done..|by apply stuck_done].
Qed.

(** With a positive [max_queue_size] the queue never holds more than that many tasks,
    as long as nobody calls [enqueue], which does not look at the limit. *)
Theorem queue_bounded ls n m s :
  0 < m -> Forall (fun l => match l with Call c => no_enqueue c = true | _ => True end) ls ->
  run ls (create n m) = Some s -> length (tasks s) <= m.
Proof.
  intros Hm Hf Hr. assert (H0 : bounded (create n m)) by (split; cbn; [lia|done]).
  enough (bounded s /\ max_queue_size s = m) as [[H _] <-] by done.
  assert (Hm0 : max_queue_size (create n m) = m) by done.
  revert H0 Hm0 Hr. generalize (create n m). induction Hf as [|l ls Hl _ IH]; intros s0 H0 Hm0; cbn [run].
  { by intros [= ->]. }
  destruct (exec l s0) as [s1|] eqn:E; cbn [mbind option_bind]; [|done]. apply exec_step in E.
  destruct (bounded_step _ _ _ H0 ltac:(lia) E Hl) as [H1 Hm1]. apply IH; [done|congruence].
Qed.

(** The destructor notifies only [cv_]: a submitter that is still blocked on the full
    queue when the workers are gone is never woken, neither by a later call nor by
    any thread of the pool, although its predicate [stop_ || ...] holds. *)
Theorem blocked_submitter_stranded ls n m s ls' s' i x :
  run ls (create n m) = Some s -> dtor s = Joined -> clients s !! i = Some (CSleep x) ->
  Forall (fun l => l <> SpuriousClient i) ls' -> run ls' s = Some s' ->
  stop s' = true /\ clients s' !! i = Some (CSleep x).
Proof.
  intros Hr Hd Hi Hf Hr'.
  assert (Hr2 : run (ls ++ ls') (create n m) = Some s') by (rewrite pool_run_app, Hr; done).
  apply threads_run_inv in Hr2 as (_ & _ & [Ist _ _ _]). apply threads_run_inv in Hr as (_ & _ & [_ _ _ Ij]).
  specialize (Ij Hd).
  enough (dtor s' = Joined /\ clients s' !! i = Some (CSleep x)) as [Hd' ?].
  { split; [|done]. destruct (stop s'); [done|]. destruct Ist as [Ist _]. by rewrite Ist in Hd' by done. }
  revert Hd Ij Hi Hr'. clear Ist. revert s. induction Hf as [|l ls' Hl _ IH]; intros s0 Hd Ij Hi; cbn [run].
  { by intros [= ->]. }
  destruct (exec l s0) as [s1|] eqn:E; cbn [mbind option_bind]; [|done].
  destruct (asleep_stays _ _ _ _ _ (exec_step _ _ _ E) Hd Ij Hi Hl) as (? & ? & ?). by apply IH.
Qed.

End Pool.

Arguments worker : clear implicits.
Arguments client : clear implicits.
Arguments t : clear implicits.
Arguments label : clear implicits.

(** ** Runs of a pool with one worker and one queue slot *)

(** Two tasks are accepted; two more submitters block; the pool is destroyed. *)
Definition blocked_run : list (label nat) :=
  [Call (CSubmit 1); Client 0 0; Client 0 0; Worker 0 0; Worker 0 0;
   Call (CSubmit 2); Client 1 0; Client 1 0; Call (CSubmit 3); Client 2 0; Call (CSubmit 4); Client 3 0].
Definition teardown : list (label nat) :=
  [Destroy; Destroy; Worker 0 0; Worker 0 0; Worker 0 2; Client 2 0; Worker 0 0; Worker 0 0; Destroy].
Definition settle : list (label nat) :=
  [Worker 0 0; Worker 0 0; Worker 0 2; Client 2 0; Client 2 0; Worker 0 0; Worker 0 0; Worker 0 3; Client 3 0; Client 3 0;
   Worker 0 0; Worker 0 0; Worker 0 0; Worker 0 0; Worker 0 0].

Definition at_run (ls : list (label nat)) : t nat := default (create 1 1) (run ls (create 1 1)).

(** Applied to a run with a blocked submitter. *)
Lemma tasks_run_once_in_order_witness :
  accepted (at_run blocked_run) = started (at_run blocked_run) ++ tasks (at_run blocked_run) /\
  accepted (at_run blocked_run) = [1; 2].
Proof.
  split; [|by vm_compute]. apply (tasks_run_once_in_order blocked_run 1 1). by vm_compute.
Defined.

(** C36 applied to the two blocked submitters: both get through and all four tasks run. *)
Lemma tasks_complete_witness :
  finished (at_run (blocked_run ++ settle)) ≡ₚ accepted (at_run (blocked_run ++ settle)) /\
  accepted (at_run (blocked_run ++ settle)) = [1; 2; 3; 4].
Proof.
  split; [|by vm_compute].
  apply (tasks_complete blocked_run 1 1 (at_run blocked_run) settle); [lia|by vm_compute|repeat constructor|by vm_compute..|].
  intros [|i k|i k|i|i|] Hl; try discriminate Hl; [|by destruct i; vm_compute].
  by do 4 (destruct i as [|i]; [by vm_compute|]); vm_compute.
Defined.

(** C37 applied to the destruction of that pool. *)
Lemma destructor_drains_witness :
  let s' := at_run (blocked_run ++ teardown) in
  dtor s' = Joined /\ finished s' ≡ₚ accepted s' /\ accepted s' = [1; 2].
Proof.
  intros s'.
  destruct (destructor_drains blocked_run 1 1 (at_run blocked_run) teardown s') as [_ H];
    [lia|by vm_compute|repeat constructor|by vm_compute|].
  destruct H as (H1 & _ & H2); [|split_and!; [done..|by vm_compute]].
  intros [|i k|i k|i|i|] Hl; try discriminate Hl; [|by destruct i; vm_compute|by vm_compute].
  by do 4 (destruct i as [|i]; [by vm_compute|]); vm_compute.
Defined.

(** Applied to the run whose submitters block. *)
Lemma queue_bounded_witness : length (tasks (at_run blocked_run)) <= 1 /\ length (tasks (at_run blocked_run)) = 1.
Proof.
  split; [|by vm_compute]. apply (queue_bounded blocked_run 1 1); [lia|repeat constructor|by vm_compute].
Defined.

(** Applied to the fourth submitter of that pool. *)
Lemma blocked_submitter_stranded_witness :
  let s' := at_run (blocked_run ++ teardown ++ [Call (CTry 5); Client 4 0]) in
  stop s' = true /\ clients s' !! 3 = Some (CSleep 4).
Proof.
  apply (blocked_submitter_stranded (blocked_run ++ teardown) 1 1 (at_run (blocked_run ++ teardown))
           [Call (CTry 5); Client 4 0]); [by vm_compute..|repeat constructor; discriminate|by vm_compute].
Defined.

(** [enqueue] ignores the limit. *)
Lemma enqueue_ignores_limit :
  length (tasks (at_run (blocked_run ++ [Call (CEnqueue 5); Client 4 0]))) = 2.
Proof. by vm_compute. Qed.

End ThreadPool.
