(* ===== verification/MockBackend.v ===== *)
(** * MockBackend: the echo servers of src/backend

    [handle_client_keepalive] over a script of what [recv] answers, with the gateway's
    own receive loop on the other end of the connection, and the worker pool of
    backend_worker.h as interleaved threads, simulated step by step by the gateway's
    [ThreadPool]. *)

From S2P Require Import Prelude Utils HttpGrammar BackendConnection ThreadPool.

(** ** The connection handler *)

Module MockBackend.
Import BackendConnection.
Open Scope Z_scope.

Definition q : bytes := ["034"%char].

Definition contains (needle hay : bytes) : bool :=
  match find_sub needle hay with Some _ => true | None => false end.

Definition client_close (req_buf : bytes) : bool :=
  contains (CRLF ++ lit "Connection: close") req_buf || contains (CRLF ++ lit "connection: close") req_buf.

Definition request_body (req_buf : bytes) : bytes :=
  match find_sub CRLFCRLF req_buf with Some pos => drop (pos + 4) req_buf | None => [] end.

Definition resp_body (service_name body : bytes) : bytes :=
  lit "{" ++ q ++ lit "service" ++ q ++ lit ":" ++ q ++ service_name ++ q ++ lit "," ++ q ++ lit "body" ++ q ++ lit ":" ++ q ++ body ++ q ++ lit "}".

Definition conn_header (close : bool) : bytes :=
  if close then lit "Connection: close" else lit "Connection: keep-alive".

Definition resp_head (close : bool) (length : Z) : bytes :=
  lit "HTTP/1.1 200 OK" ++ CRLF ++ lit "Content-Type: application/json" ++ CRLF ++
  conn_header close ++ CRLF ++ lit "Content-Length: " ++ Utils.to_string length.

Definition reply (service_name req_buf : bytes) : bytes :=
  let b := resp_body service_name (request_body req_buf) in
  resp_head (client_close req_buf) (zlen b) ++ CRLFCRLF ++ b.

(** What the handler does to the socket; [LogError] is the line on stderr. *)
Inductive event := Send (data : bytes) | LogError (errno : Z) | Close.

(** Both loops: what happens on the answers of [recv], and whether the handler has
    returned or waits for the next answer. *)
Fixpoint handle_loop (service_name : bytes) (script : list recv_result) (req_buf : bytes) : list event * bool :=
  match script with
  | [] => ([], false)
  | RData d :: script' =>
      let req_buf := req_buf ++ d in
      match find_sub CRLFCRLF req_buf with
      | None => handle_loop service_name script' req_buf
      | Some _ =>
          if client_close req_buf then ([Send (reply service_name req_buf); Close], true)
          else let '(evs, returned) := handle_loop service_name script' [] in
               (Send (reply service_name req_buf) :: evs, returned)
      end
  | REof :: _ => ([Close], true)
  | RErr errno :: _ => ([LogError errno; Close], true)
  end.

Definition handle_client_keepalive (service_name : bytes) (script : list recv_result) : list event * bool :=
  handle_loop service_name script [].

(** ** The accept loop and the two servers *)

(** [main]: descriptors accepted, in order; a failed accept is skipped. *)
Definition accept_loop (answers : list Z) : list Z := filter (fun cfd => 0 <= cfd) answers.

(** [std::max(4u, hw * 2)] converted to [int]. *)
Definition worker_count (hw : Z) : Z := i32 (Z.max 4 ((hw * 2) mod 4294967296)).

Record server := mkServer { service : bytes; listen_port : Z }.
Definition user_server : server := mkServer (lit "user") 9001.
Definition order_server : server := mkServer (lit "order") 9002.

(** ** The replies are sized *)

Lemma skip_sp_digits s : Forall (fun c => Utils.isdigit c = true) s -> skip_sp s = s.
Proof.
  intros [|c s' Hc _]; [done|]. cbn. destruct (Ascii.eqb_spec c SP) as [->|]; done.
Qed.

Lemma resp_head_length close n : 0 <= n <= LONG_MAX -> head_content_length (resp_head close n) = n.
Proof.
  intros [Hn Hmax]. unfold resp_head. rewrite Utils.to_string_nonneg by done.
  pose proof (Utils.dec_nonneg_isdigit n Hn) as Hd. pose proof (Utils.dec_nonneg_value n Hn) as Hv.
  set (ds := Utils.dec_nonneg n) in *. clearbody ds. rewrite !app_assoc.
  set (fixed := (_ ++ lit "Content-Length: ")). unfold head_content_length.
  assert (Hf : exists i, find_sub (CRLF ++ lit "Content-Length:") fixed = Some i /\
    (i + 17 <= length fixed)%nat /\ drop (i + 17) fixed = [SP]).
  { exists (if close then 66 else 71)%nat. destruct close; split_and!; vm_compute; reflexivity || lia. }
  destruct Hf as (i & Hi & Hl & Hr). rewrite (find_sub_app_l _ _ ds i Hi).
  rewrite drop_app_le, Hr by done. change (skip_sp ([SP] ++ ds)) with (skip_sp ds).
  rewrite skip_sp_digits by done. change 0 with (i64 0). rewrite <- (app_nil_r ds), read_digits_over, Hv by done.
  apply i64_small. unfold LONG_MIN. lia.
Qed.

Lemma digits_no_cr s : Forall (fun c => Utils.isdigit c = true) s -> CR ∉ s.
Proof. intros Hs Hc. rewrite Forall_forall in Hs. by specialize (Hs _ Hc). Qed.

Lemma resp_head_end close n b :
  0 <= n -> find_sub CRLFCRLF (resp_head close n ++ CRLFCRLF ++ b) = Some (length (resp_head close n)).
Proof.
  intros Hn. set (last := lit "Content-Length: " ++ Utils.to_string n).
  assert (Hl : HttpGrammar.line_ok last).
  { split; [done|]. unfold last. rewrite Utils.to_string_nonneg, elem_of_app by done.
    intros [H|H]; [revert H; apply (bool_decide_unpack (CR ∉ _)); by vm_compute|].
    by apply (digits_no_cr _ (Utils.dec_nonneg_isdigit n Hn)). }
  pose proof (HttpGrammar.find_head_end (lit "HTTP/1.1 200 OK")
    [lit "Content-Type: application/json"; conn_header close; last] b) as H.
  assert (E : resp_head close n ++ CRLF = HttpGrammar.crlf_lines
    [lit "HTTP/1.1 200 OK"; lit "Content-Type: application/json"; conn_header close; last]).
  { unfold resp_head, last. cbn [HttpGrammar.crlf_lines]. by rewrite <- !app_assoc, app_nil_r. }
  rewrite <- E, <- app_assoc in H. change CRLFCRLF with (CRLF ++ CRLF) at 2. rewrite <- app_assoc, H.
  - rewrite length_app. cbn. f_equal. lia.
  - apply (bool_decide_unpack (CR ∉ _)); by vm_compute.
  - apply Forall_cons; split; [|apply Forall_cons; split; [|by apply Forall_singleton]].
    all: split; [by destruct close|]; apply (bool_decide_unpack (CR ∉ _)); destruct close; by vm_compute.
Qed.

Lemma reply_sized service_name req_buf :
  zlen (reply service_name req_buf) <= LONG_MAX ->
  exists he, sized_response (reply service_name req_buf) he /\
    drop (he + 4) (reply service_name req_buf) = resp_body service_name (request_body req_buf).
Proof.
  intros Hb. unfold reply in *. set (b := resp_body _ _) in *. set (h := resp_head _ _) in *.
  exists (length h). assert (Hn : 0 <= zlen b) by apply zlen_nonneg. split.
  - split; [by apply resp_head_end|]. split; [|unfold LONG_MAX, two64 in *; lia]. rewrite take_app_length.
    assert (Hm : 0 <= zlen b <= LONG_MAX) by (rewrite !zlen_app in Hb; zlen_facts; lia).
    rewrite (resp_head_length _ (zlen b) Hm : head_content_length h = _), !zlen_app. unfold zlen. cbn. lia.
  - by rewrite <- drop_drop, drop_app_length.
Qed.

(** ** Requests *)

(** The reads of one request: the last one completes the head. *)
Definition request_reads (ds : list bytes) : Prop :=
  find_sub CRLFCRLF (concat ds) <> None /\ find_sub CRLFCRLF (concat (removelast ds)) = None.

Lemma find_sub_prefix_None needle a b : find_sub needle (a ++ b) = None -> find_sub needle a = None.
Proof. destruct (find_sub needle a) as [i|] eqn:E; [|done]. by rewrite (find_sub_app_l _ _ b i E). Qed.

Lemma handle_loop_reads service_name ds rest buf :
  ds <> [] -> find_sub CRLFCRLF (buf ++ concat ds) <> None ->
  find_sub CRLFCRLF (buf ++ concat (removelast ds)) = None ->
  handle_loop service_name ((RData <$> ds) ++ rest) buf =
  if client_close (buf ++ concat ds) then ([Send (reply service_name (buf ++ concat ds)); Close], true)
  else let '(evs, returned) := handle_loop service_name rest [] in
       (Send (reply service_name (buf ++ concat ds)) :: evs, returned).
Proof.
  revert buf. induction ds as [|d [|d' ds] IH]; intros buf Hne Hs Hn; [done| |].
  - cbn [fmap list_fmap app handle_loop concat] in *. rewrite app_nil_r in *.
    destruct (find_sub CRLFCRLF (buf ++ d)); [|done]. by destruct (client_close _).
  - cbn [concat] in Hs |- *. rewrite fmap_cons. cbn [app handle_loop].
    change (removelast (d :: d' :: ds)) with (d :: removelast (d' :: ds)) in Hn. cbn [concat] in Hn.
    rewrite app_assoc in Hs, Hn. rewrite (find_sub_prefix_None _ _ _ Hn).
    rewrite (IH (buf ++ d)) by done. cbn [concat]. by rewrite <- !app_assoc.
Qed.

Lemma request_reads_cons ds : request_reads ds -> ds <> [].
Proof. by intros [H _] ->. Qed.

Lemma handle_requests service_name dss rest :
  Forall request_reads dss -> Forall (fun ds => client_close (concat ds) = false) dss ->
  handle_client_keepalive service_name ((RData <$> concat dss) ++ rest) =
  let '(evs, returned) := handle_client_keepalive service_name rest in
  (((fun ds => Send (reply service_name (concat ds))) <$> dss) ++ evs, returned).
Proof.
  unfold handle_client_keepalive. induction dss as [|ds dss IH]; intros Hr Hc; cbn [concat].
  { cbn [fmap list_fmap app]. by destruct (handle_loop service_name rest []). }
  apply Forall_cons in Hr as [Hd Hr]. apply Forall_cons in Hc as [Hcd Hc].
  pose proof (request_reads_cons ds Hd) as Hne. destruct Hd as [H1 H2].
  rewrite fmap_app, <- app_assoc, handle_loop_reads by done.
  cbn [app]. rewrite Hcd, IH by done. by destruct (handle_loop service_name rest []).
Qed.

(** The echo server and the gateway understand each other.  On a kept connection a
    series of requests, each cut into reads of which the last one completes its head,
    gets one reply each and in order, and the descriptor is closed once, when the
    gateway closes its end.  The gateway's receive loop takes every one of these replies
    whole, however it is cut into reads, leaves nothing of it behind and keeps the
    connection; the reply carries the body of the request. *)
Theorem echo_exchange service_name dss :
  Forall request_reads dss -> Forall (fun ds => client_close (concat ds) = false) dss ->
  Forall (fun ds => zlen (reply service_name (concat ds)) <= LONG_MAX) dss ->
  handle_client_keepalive service_name ((RData <$> concat dss) ++ [REof]) =
    (((fun ds => Send (reply service_name (concat ds))) <$> dss) ++ [Close], true) /\
  forall ds, ds ∈ dss -> exists he,
    drop (he + 4) (reply service_name (concat ds)) = resp_body service_name (request_body (concat ds)) /\
    forall cut rest now c, 0 <= fd c -> Forall (.≠ []) cut -> concat cut = reply service_name (concat ds) ->
      recv_all (data_events cut ++ rest) now c = Some (reply service_name (concat ds), touch now c).
Proof.
  intros Hr Hc Hl. split; [by rewrite handle_requests|]. intros ds Hds.
  rewrite Forall_forall in Hl. destruct (reply_sized _ _ (Hl ds Hds)) as (he & Hs & Hb).
  exists he. split; [done|]. intros cut rest now c Hfd Hcut Hcat. by apply (recv_all_sized _ _ _ he).
Qed.

(** The handler closes the descriptor exactly when it returns, as the last thing it
    does, and once. *)
Theorem handler_closes_once service_name script :
  let '(evs, returned) := handle_client_keepalive service_name script in
  if returned then exists evs', evs = evs' ++ [Close] /\ Close ∉ evs' else Close ∉ evs.
Proof.
  unfold handle_client_keepalive. generalize (@nil ascii) as buf.
  induction script as [|[d| |e] script IH]; intros buf; cbn [handle_loop].
  - set_solver.
  - destruct (find_sub _ _); [|apply IH]. destruct (client_close _).
    + by exists [Send (reply service_name (buf ++ d))]; split; [|set_solver].
    + specialize (IH []). destruct (handle_loop service_name script []) as [evs []]; [|set_solver].
      destruct IH as (evs' & -> & H). eexists (_ :: evs'). split; [done|set_solver].
  - exists []. split; [done|set_solver].
  - exists [LogError e]. split; [done|set_solver].
Qed.

(** The reply depends on how the request is cut into reads: the server does not look
    at Content-Length.  Body bytes that come after the read with the end of the head are
    not part of the request; they start the next one, and when they hold a blank line
    they get a reply of their own, so that one request has two replies. *)
Theorem late_body_misread service_name head body script :
  find_sub CRLFCRLF head = Some (length head - 4)%nat -> client_close (head ++ body) = false ->
  client_close head = false -> client_close body = false -> find_sub CRLFCRLF body <> None ->
  handle_client_keepalive service_name (RData head :: RData body :: script) =
    (let '(evs, returned) := handle_client_keepalive service_name script in
     (Send (reply service_name head) :: Send (reply service_name body) :: evs, returned)) /\
  handle_client_keepalive service_name (RData (head ++ body) :: script) =
    (let '(evs, returned) := handle_client_keepalive service_name script in
     (Send (reply service_name (head ++ body)) :: evs, returned)) /\
  request_body head = [] /\ request_body (head ++ body) = body.
Proof.
  intros Hh Hc1 Hc2 Hc3 Hb. unfold handle_client_keepalive. cbn [handle_loop app].
  pose proof (find_sub_app_l _ _ body _ Hh) as Hhb. rewrite Hh, Hhb, Hc1, Hc2.
  destruct (find_sub CRLFCRLF body); [|done]. rewrite Hc3. unfold request_body. rewrite Hh, Hhb.
  destruct (handle_loop service_name script []) as [evs returned]. split_and!; try done.
  - apply drop_ge. lia.
  - apply find_sub_Some in Hh as [[t Ht] _]. apply (f_equal length) in Ht.
    rewrite !length_app, length_take in Ht. cbn in Ht.
    replace (length head - 4 + 4)%nat with (length head) by lia. by rewrite drop_app_length.
Qed.

(** ** Concrete connections *)

Definition get_reads : list bytes :=
  [lit "GET /api/user/1 HTTP/1.1" ++ CRLF ++ lit "Host"; lit ": a" ++ CRLFCRLF].
Definition post_reads : list bytes :=
  [lit "POST /api/user HTTP/1.1" ++ CRLF ++ lit "Content-Length: 2" ++ CRLFCRLF ++ lit "hi"].

(** Applied to a GET in two reads and a POST in one. *)
Lemma echo_exchange_witness :
  handle_client_keepalive (lit "user") ((RData <$> concat [get_reads; post_reads]) ++ [REof]) =
  ([Send (reply (lit "user") (concat get_reads)); Send (reply (lit "user") (concat post_reads)); Close], true) /\
  resp_body (lit "user") (request_body (concat post_reads)) =
    lit "{" ++ q ++ lit "service" ++ q ++ lit ":" ++ q ++ lit "user" ++ q ++ lit "," ++ q ++ lit "body" ++ q ++
    lit ":" ++ q ++ lit "hi" ++ q ++ lit "}".
Proof.
  split; [|by vm_compute]. apply (echo_exchange (lit "user") [get_reads; post_reads]).
  - repeat constructor; by vm_compute.
  - by repeat constructor.
  - by repeat constructor.
Defined.

(** Applied to a POST whose body, a text with a blank line, comes in a second read. *)
Lemma late_body_misread_witness :
  handle_client_keepalive (lit "user")
    [RData (lit "POST /api/user HTTP/1.1" ++ CRLF ++ lit "Content-Length: 6" ++ CRLFCRLF); RData (lit "a" ++ CRLFCRLF ++ lit "b")] =
  ([Send (reply (lit "user") (lit "POST /api/user HTTP/1.1" ++ CRLF ++ lit "Content-Length: 6" ++ CRLFCRLF));
    Send (reply (lit "user") (lit "a" ++ CRLFCRLF ++ lit "b"))], false).
Proof.
  apply (late_body_misread (lit "user") (lit "POST /api/user HTTP/1.1" ++ CRLF ++ lit "Content-Length: 6" ++ CRLFCRLF)
    (lit "a" ++ CRLFCRLF ++ lit "b") []); by vm_compute.
Defined.

End MockBackend.

(** ** The worker pool of backend_worker.h *)

Module WorkerPool.

(** A worker is about to lock and test, asleep on [cv_], inside the handler, or gone. *)
Inductive worker := WCheck | WSleep | WRun (fd : Z) | WExit.

(** A thread inside [submit]: about to push, about to notify, returned. *)
Inductive submitter := SPush (fd : Z) | SNotify | SDone.

(** The lists [accepted], [started] and [finished] record what happened to the
    descriptors and are not part of the class. *)
Record t := mk {
  queue : list Z;
  stop : bool;
  workers : list worker;
  submitters : list submitter;
  dtor : ThreadPool.phase;
  accepted : list Z;
  started : list Z;
  finished : list Z
}.

Definition create (num_workers : nat) : t :=
  mk [] false (replicate num_workers WCheck) [] ThreadPool.Alive [] [] [].

Definition queue_size (s : t) : nat := length (queue s).

Definition asleep (w : worker) : bool := match w with WSleep => true | _ => false end.
Definition wake (w : worker) : worker := match w with WSleep => WCheck | _ => w end.
Definition exited (w : worker) : bool := match w with WExit => true | _ => false end.

Definition set_workers (ws : list worker) (s : t) : t :=
  mk (queue s) (stop s) ws (submitters s) (dtor s) (accepted s) (started s) (finished s).

Definition set_submitters (ss : list submitter) (s : t) : t :=
  mk (queue s) (stop s) (workers s) ss (dtor s) (accepted s) (started s) (finished s).

(** [submit]: push under the lock, then [notify_one], which wakes the [k]-th worker if
    any sleeps.  Submitting to a pool that is being destroyed is undefined. *)
Definition submit_step (i k : nat) (s : t) : option t :=
  c ← submitters s !! i;
  match c with
  | SPush fd =>
      match dtor s with
      | ThreadPool.Alive =>
          Some (mk (queue s ++ [fd]) (stop s) (workers s) (<[i := SNotify]> (submitters s)) (dtor s)
                   (accepted s ++ [fd]) (started s) (finished s))
      | _ => None
      end
  | SNotify =>
      ws ← ThreadPool.notify_one asleep wake k (workers s);
      Some (set_submitters (<[i := SDone]> (submitters s)) (set_workers ws s))
  | SDone => None
  end.

(** [run]: the locked part, and the return of the handler. *)
Definition run_step (i : nat) (s : t) : option t :=
  w ← workers s !! i;
  match w with
  | WCheck =>
      Some match queue s with
           | fd :: rest =>
               mk rest (stop s) (<[i := WRun fd]> (workers s)) (submitters s) (dtor s)
                  (accepted s) (started s ++ [fd]) (finished s)
           | [] => set_workers (<[i := if stop s then WExit else WSleep]> (workers s)) s
           end
  | WRun fd =>
      Some (mk (queue s) (stop s) (<[i := WCheck]> (workers s)) (submitters s) (dtor s)
               (accepted s) (started s) (finished s ++ [fd]))
  | WSleep | WExit => None
  end.

Definition set_dtor (b : bool) (d : ThreadPool.phase) (s : t) : t :=
  mk (queue s) b (workers s) (submitters s) d (accepted s) (started s) (finished s).

Definition destroy_step (s : t) : option t :=
  match dtor s with
  | ThreadPool.Alive => Some (set_dtor true ThreadPool.Stopping s)
  | ThreadPool.Stopping => Some (set_dtor (stop s) ThreadPool.Joining (set_workers (wake <$> workers s) s))
  | ThreadPool.Joining => if forallb exited (workers s) then Some (set_dtor (stop s) ThreadPool.Joined s) else None
  | ThreadPool.Joined => None
  end.

Inductive label :=
  | Submit (fd : Z)            (* a thread calls submit *)
  | Submitter (i k : nat)
  | Worker (i : nat)
  | Spurious (i : nat)
  | Destroy.

Definition exec (l : label) (s : t) : option t :=
  match l with
  | Submit fd => Some (set_submitters (submitters s ++ [SPush fd]) s)
  | Submitter i k => submit_step i k s
  | Worker i => run_step i s
  | Spurious i =>
      w ← workers s !! i; if asleep w then Some (set_workers (<[i := wake w]> (workers s)) s) else None
  | Destroy => destroy_step s
  end.

Fixpoint run (ls : list label) (s : t) : option t :=
  match ls with [] => Some s | l :: ls' => s ← exec l s; run ls' s end.

(** ** The same state as a pool of the gateway *)

Definition embed_worker (w : worker) : ThreadPool.worker Z :=
  match w with
  | WCheck => ThreadPool.WCheck
  | WSleep => ThreadPool.WSleep
  | WRun fd => ThreadPool.WRun fd
  | WExit => ThreadPool.WExit
  end.

Definition embed_submitter (c : submitter) : ThreadPool.client Z :=
  match c with
  | SPush fd => ThreadPool.CEnqueue fd
  | SNotify => ThreadPool.CNotify
  | SDone => ThreadPool.CDone true
  end.

Definition embed (s : t) : ThreadPool.t Z :=
  ThreadPool.mk (queue s) (stop s) 0 (embed_worker <$> workers s) (embed_submitter <$> submitters s) (dtor s)
    (accepted s) (started s) (finished s).

Lemma embed_notify k ws ws' :
  ThreadPool.notify_one asleep wake k ws = Some ws' ->
  ThreadPool.notify_one ThreadPool.w_asleep ThreadPool.w_wake k (embed_worker <$> ws) = Some (embed_worker <$> ws').
Proof.
  unfold ThreadPool.notify_one.
  assert (He : existsb ThreadPool.w_asleep (embed_worker <$> ws) = existsb asleep ws).
  { induction ws as [|w ws IH]; [done|]. cbn. rewrite <- IH. by destruct w. }
  rewrite He. destruct (existsb asleep ws); [|by intros [= ->]].
  rewrite list_lookup_fmap. destruct (ws !! k) as [w|]; [|done]. cbn.
  destruct w; cbn; try done. intros [= <-]. by rewrite list_fmap_insert.
Qed.

Lemma no_client_asleep k ss :
  ThreadPool.notify_one ThreadPool.c_asleep ThreadPool.c_wake k (embed_submitter <$> ss) = Some (embed_submitter <$> ss).
Proof.
  unfold ThreadPool.notify_one.
  assert (existsb ThreadPool.c_asleep (embed_submitter <$> ss) = false) as ->; [|done].
  induction ss as [|c ss IH]; [done|]. cbn. rewrite IH. by destruct c.
Qed.

Definition alive_flag (s : t) : Prop := stop s = false <-> dtor s = ThreadPool.Alive.

Lemma run_two (a b : ThreadPool.label Z) s s1 s2 :
  ThreadPool.exec a s = Some s1 -> ThreadPool.exec b s1 = Some s2 -> ThreadPool.run [a; b] s = Some s2.
Proof. intros H1 H2. cbn. rewrite H1. cbn. by rewrite H2. Qed.

(** A step here is one or two steps of the gateway's pool: the worker that takes a
    descriptor also notifies [cv_not_full_] there, where nobody waits. *)
Lemma embed_step l s s' :
  alive_flag s -> exec l s = Some s' ->
  alive_flag s' /\ exists ls, ThreadPool.run ls (embed s) = Some (embed s').
Proof.
  intros Ha. unfold alive_flag in *. destruct l as [fd|i k|i|i|]; cbn [exec].
  - intros [= <-]. split; [done|]. exists [ThreadPool.Call (ThreadPool.CEnqueue fd)].
    cbn. unfold embed, ThreadPool.set_clients. cbn. by rewrite fmap_app.
  - unfold submit_step. destruct (submitters s !! i) as [[fd| |]|] eqn:Ei; cbn [mbind option_bind]; try done.
    + destruct (dtor s) eqn:Ed; try done. intros [= <-]. cbn. split; [done|]. exists [ThreadPool.Client i 0].
      cbn. unfold ThreadPool.client_step. cbn. rewrite list_lookup_fmap, Ei. cbn. unfold ThreadPool.enqueue. cbn.
      rewrite (proj2 Ha) by done. unfold embed, ThreadPool.set_client. cbn. by rewrite list_fmap_insert, (proj2 Ha), Ed.
    + destruct (ThreadPool.notify_one asleep wake k (workers s)) as [ws|] eqn:En; cbn [mbind option_bind]; [|done].
      intros [= <-]. split; [done|]. exists [ThreadPool.Client i k].
      cbn. unfold ThreadPool.client_step. cbn. rewrite list_lookup_fmap, Ei. cbn. rewrite (embed_notify _ _ _ En). cbn.
      unfold embed. cbn. by rewrite list_fmap_insert.
  - unfold run_step. destruct (workers s !! i) as [[| |fd|]|] eqn:Ei; cbn [mbind option_bind]; try done.
    + assert (Hl : (i < length (workers s))%nat) by (by eapply lookup_lt_Some).
      destruct (queue s) as [|fd rest] eqn:Eq; intros [= <-]; (split; [done|]).
      * exists [ThreadPool.Worker i 0]. cbn. unfold ThreadPool.worker_step. cbn. rewrite list_lookup_fmap, Ei. cbn.
        unfold ThreadPool.take_task, embed. cbn. rewrite Eq. cbn. rewrite list_fmap_insert. by destruct (stop s).
      * exists [ThreadPool.Worker i 0; ThreadPool.Worker i 0]. eapply run_two; cbn; unfold ThreadPool.worker_step.
        -- cbn. rewrite list_lookup_fmap, Ei. cbn. unfold ThreadPool.take_task, embed. cbn. by rewrite Eq.
        -- cbn. rewrite list_lookup_insert_eq by (by rewrite length_fmap). cbn.
           rewrite no_client_asleep. cbn. unfold embed. cbn. by rewrite list_insert_insert_eq, list_fmap_insert.
    + intros [= <-]. split; [done|]. exists [ThreadPool.Worker i 0]. cbn. unfold ThreadPool.worker_step. cbn.
      rewrite list_lookup_fmap, Ei. cbn. unfold embed. cbn. by rewrite list_fmap_insert.
  - destruct (workers s !! i) as [[| |fd|]|] eqn:Ei; cbn; try done. intros [= <-]. split; [done|].
    exists [ThreadPool.SpuriousWorker i]. cbn. rewrite list_lookup_fmap, Ei. cbn. unfold embed. cbn. by rewrite list_fmap_insert.
  - unfold destroy_step. destruct (dtor s) eqn:Ed; try done.
    + intros [= <-]. split; [done|]. exists [ThreadPool.Destroy]. cbn. unfold ThreadPool.destroy_step. cbn. by rewrite Ed.
    + intros [= <-]. cbn. split; [rewrite Ha; naive_solver|]. exists [ThreadPool.Destroy]. cbn.
      unfold ThreadPool.destroy_step. cbn. rewrite Ed. unfold embed. cbn.
      assert (ThreadPool.w_wake <$> (embed_worker <$> workers s) = embed_worker <$> (wake <$> workers s)) as ->; [|done].
      rewrite <- !list_fmap_compose. apply list_fmap_ext. by intros ? [].
    + destruct (forallb exited (workers s)) eqn:Ef; [|done]. intros [= <-]. cbn. split; [rewrite Ha; naive_solver|].
      exists [ThreadPool.Destroy]. cbn. unfold ThreadPool.destroy_step. cbn. rewrite Ed.
      assert (forallb ThreadPool.w_exited (embed_worker <$> workers s) = true) as ->; [|done].
      revert Ef. clear. generalize (workers s) as ws. induction ws as [|w ws IH]; [done|]. cbn.
      intros [H1 H2]%andb_true_iff. rewrite IH by done. by destruct w.
Qed.

Lemma embed_run ls s s' :
  alive_flag s -> run ls s = Some s' ->
  alive_flag s' /\ exists ls', ThreadPool.run ls' (embed s) = Some (embed s').
Proof.
  revert s. induction ls as [|l ls IH]; intros s Ha; cbn [run]; [intros [= ->]; by split; [|exists []]|].
  destruct (exec l s) as [s1|] eqn:E; cbn [mbind option_bind]; [|done]. intros Hr.
  destruct (embed_step l s s1 Ha E) as (Ha1 & ls1 & H1). destruct (IH s1 Ha1 Hr) as (Ha' & ls2 & H2).
  split; [done|]. exists (ls1 ++ ls2). by rewrite ThreadPool.pool_run_app, H1.
Qed.

Lemma embed_create n : embed (create n) = ThreadPool.create n 0.
Proof. unfold embed, create, ThreadPool.create. cbn. by rewrite fmap_replicate. Qed.

Lemma embed_reachable ls n s :
  run ls (create n) = Some s ->
  alive_flag s /\ exists ls', ThreadPool.run ls' (ThreadPool.create n 0) = Some (embed s).
Proof. rewrite <- embed_create. by apply embed_run. Qed.

(** No thread of the pool can move: the workers sleep, all handlers have returned and
    every [submit] has. *)
Definition at_rest (s : t) : Prop := (forall i k, submit_step i k s = None) /\ forall i, run_step i s = None.

Lemma embed_at_rest s :
  alive_flag s -> stop s = false -> at_rest s -> ThreadPool.stuck ThreadPool.thread_step (embed s).
Proof.
  intros Ha Hst [Hs Hw] l Hl. destruct l as [|i k|i k|i|i|]; try done; cbn.
  - unfold ThreadPool.client_step. cbn. rewrite list_lookup_fmap. specialize (Hs i k). unfold submit_step in Hs.
    destruct (submitters s !! i) as [[fd| |]|]; cbn in *; try done; [by rewrite (proj1 Ha Hst) in Hs|].
    destruct (ThreadPool.notify_one ThreadPool.w_asleep _ k _) as [ws|] eqn:En; [exfalso|done].
    revert Hs En. unfold ThreadPool.notify_one.
    assert (existsb ThreadPool.w_asleep (embed_worker <$> workers s) = existsb asleep (workers s)) as ->.
    { generalize (workers s) as l. induction l as [|w l IH]; [done|]. cbn. rewrite IH. by destruct w. }
    destruct (existsb asleep (workers s)); [|done]. rewrite list_lookup_fmap.
    destruct (workers s !! k) as [[]|]; done.
  - unfold ThreadPool.worker_step. cbn. rewrite list_lookup_fmap. specialize (Hw i). unfold run_step in Hw.
    by destruct (workers s !! i) as [[]|].
Qed.

(** The worker pool of the echo servers refines the thread pool of the gateway: every
    interleaving of submitters, workers, spurious wake-ups and destructor is one of
    [ThreadPool] with only [enqueue] called.  So descriptors are handed to the handler
    once and in the order they were accepted, and when the threads have come to rest
    every accepted connection has been served. *)
Theorem worker_pool_refines ls n s :
  0 < n -> run ls (create n) = Some s ->
  (exists ls', ThreadPool.run ls' (ThreadPool.create n 0) = Some (embed s)) /\
  accepted s = started s ++ queue s /\
  (stop s = false -> at_rest s -> queue s = [] /\ finished s ≡ₚ accepted s).
Proof.
  intros Hn Hr. destruct (embed_reachable ls n s Hr) as (Ha & ls' & H'). split; [by exists ls'|].
  destruct (ThreadPool.threads_run_inv _ _ _ _ H') as ([I1 _] & _). split; [done|]. intros Hst Hq.
  destruct (ThreadPool.at_rest _ _ _ _ Hn H' Hst (embed_at_rest s Ha Hst Hq)) as (H1 & H2 & _). done.
Qed.

(** Connections that stay open starve the others: while every worker is inside a handler
    that does not return, whatever else happens, no further descriptor is handed to a
    handler and the queue only grows. *)
Theorem open_connections_starve ls s s' :
  Forall (fun w => exists fd, w = WRun fd) (workers s) ->
  Forall (fun l => match l with Worker _ | Destroy => False | _ => True end) ls ->
  run ls s = Some s' ->
  started s' = started s /\ workers s' = workers s /\ exists more, queue s' = queue s ++ more.
Proof.
  intros Hw Hl. revert s Hw. induction Hl as [|l ls Hl _ IH]; intros s Hw; cbn [run].
  { intros [= ->]. split_and!; [done..|]. exists []. by rewrite app_nil_r. }
  destruct (exec l s) as [s1|] eqn:E; cbn [mbind option_bind]; [|done]. intros Hr.
  assert (started s1 = started s /\ workers s1 = workers s /\ exists more, queue s1 = queue s ++ more) as (E1 & E2 & m1 & E3).
  { assert (Hex : existsb asleep (workers s) = false).
    { induction Hw as [|w ws [fd ->] _ IHw]; [done|]. exact IHw. }
    assert (Hnil : exists more, queue s = queue s ++ more) by (exists []; by rewrite app_nil_r).
    destruct l as [fd|i k|i|i|]; try done; cbn [exec] in E.
    - by injection E as <-.
    - unfold submit_step in E. destruct (submitters s !! i) as [[fd| |]|]; cbn [mbind option_bind] in E; try done.
      + destruct (dtor s); try done. injection E as <-. cbn. eauto.
      + unfold ThreadPool.notify_one in E. rewrite Hex in E. by injection E as <-.
    - destruct (workers s !! i) as [w|] eqn:Ei; [|done]. rewrite Forall_lookup in Hw.
      by destruct (Hw _ _ Ei) as [fd ->]. }
  destruct (IH s1) as (H1 & H2 & m2 & H3); [by rewrite E2|done|].
  split_and!; [congruence..|]. exists (m1 ++ m2). by rewrite H3, E3, app_assoc.
Qed.

(** ** Concrete runs *)

Definition serve_run : list label :=
  [Worker 0; Submit 7; Submitter 0 0; Submitter 0 0; Worker 0; Submit 8; Submitter 1 0; Submitter 1 0; Worker 1].

Definition state_after (ls : list label) : t := default (create 2) (run ls (create 2)).

(** Applied to two connections, the second one after the workers were woken. *)
Lemma worker_pool_refines_witness :
  let s := state_after (serve_run ++ [Worker 0; Worker 1; Worker 0; Worker 1]) in
  queue s = [] /\ finished s ≡ₚ accepted s /\ accepted s = [7; 8]%Z.
Proof.
  intros s. destruct (worker_pool_refines (serve_run ++ [Worker 0; Worker 1; Worker 0; Worker 1]) 2 s) as (_ & _ & H);
    [lia|by vm_compute|]. destruct H as [H1 H2]; [by vm_compute| |split; [exact H1|split; [exact H2|by vm_compute]]].
  split; [intros [|[|i]] k; by vm_compute|intros [|[|i]]; by vm_compute].
Defined.

(** Applied to a pool whose two workers both hold a connection. *)
Lemma open_connections_starve_witness :
  let s := state_after serve_run in
  let s' := state_after (serve_run ++ [Submit 9; Submitter 2 0; Submitter 2 0]) in
  started s' = [7; 8]%Z /\ queue s' = [9]%Z.
Proof.
  intros s s'. assert (H : started s' = started s); [|split; [rewrite H|]; by vm_compute].
  apply (open_connections_starve [Submit 9; Submitter 2 0; Submitter 2 0] s s').
  - vm_compute. repeat constructor; eauto.
  - by repeat constructor.
  - by vm_compute.
Defined.

End WorkerPool.
