(* ===== verification/RecvRequest.v ===== *)
(** * RecvRequest: recv_all_request of src/utils/utils.cpp

    The blocking reader over a script of what [recv] answers.  It searches the
    Content-Length header with the three-argument [std::string::find], whose last
    argument is the length of the needle: the code passes the end of the head, so
    that the call reads behind the string literal for every head of more than
    sixteen bytes. *)

From S2P Require Import Prelude Utils BackendConnection.

Module RecvRequest.
Import BackendConnection.
Open Scope Z_scope.

Definition buf_size : Z := 4096.

Definition effective_max (max_size : Z) : Z := if 0 <? max_size then max_size else 2147483647.

(** The array behind the literal, with its NUL. *)
Definition content_length_literal : bytes := lit "Content-Length:" ++ ["000"%char].

(** [data.find("Content-Length:", 0, n)]: [None] when the first [n] bytes are not all
    there. *)
Definition find_content_length (data : bytes) (n : nat) : option (option nat) :=
  if (n <=? length content_length_literal)%nat then Some (find_sub (take n content_length_literal) data) else None.

Fixpoint blanks (s : bytes) : nat :=
  match s with
  | c :: s' => if Ascii.eqb c SP || Ascii.eqb c TAB then S (blanks s') else 0%nat
  | [] => 0%nat
  end.

(** [content_length] after the head that ends at [header_end] was looked at. *)
Definition head_length (data : bytes) (header_end : nat) : option Z :=
  found ← find_content_length data header_end;
  Some match found with
       | None => -1
       | Some i =>
           let cl_pos := (i + 15)%nat in
           let cl_pos := (cl_pos + blanks (slice cl_pos (header_end - cl_pos) data))%nat in
           let cl_end :=
             match find_sub_from CRLF data cl_pos with
             | Some e => if (header_end <? e)%nat then header_end else e
             | None => header_end
             end in
           default (-1) (Utils.parse_int_safe (drop cl_pos data) (cl_end - cl_pos))
       end.

Inductive outcome := Returned (data : bytes) | Undefined.

(** The end of a turn: return, or read on. *)
Definition turn (n : Z) (data : bytes) (content_length : Z) (headers_complete : bool) : option bytes :=
  if headers_complete then
    if 0 <=? content_length then
      let body_start := default 0%nat ((fun i => i + 4)%nat <$> find_sub CRLFCRLF data) in
      if content_length <=? zlen data - Z.of_nat body_start
      then Some (take (body_start + Z.to_nat content_length) data) else None
    else Some data
  else if n <? buf_size then Some data else None.

(** [None] when the script is used up and the call waits in [recv]. *)
Fixpoint recv_loop (max : Z) (script : list recv_result) (data : bytes) (content_length : Z)
    (headers_complete : bool) : option outcome :=
  match script with
  | [] => None
  | RData d :: script' =>
      let data := data ++ d in
      if max <? i32 (zlen data) then Some (Returned [])
      else
        let go content_length headers_complete :=
          match turn (zlen d) data content_length headers_complete with
          | Some r => Some (Returned r)
          | None => recv_loop max script' data content_length headers_complete
          end in
        if headers_complete then go content_length true
        else
          match find_sub CRLFCRLF data with
          | None => go content_length false
          | Some header_end =>
              match head_length data header_end with
              | None => Some Undefined
              | Some n => if max <? n then Some (Returned []) else go n true
              end
          end
  | REof :: _ | RErr _ :: _ => Some (Returned data)
  end.

Definition recv_all_request (max_size : Z) (script : list recv_result) : option outcome :=
  recv_loop (effective_max max_size) script [] (-1) false.

(** ** Properties *)

(** The bytes of the reads in a script. *)
Fixpoint stream (script : list recv_result) : bytes :=
  match script with RData d :: script' => d ++ stream script' | _ => [] end.

Lemma turn_prefix n data cl hc r : turn n data cl hc = Some r -> exists k, r = take k data.
Proof.
  unfold turn. assert (Hall : exists k, data = take k data) by (exists (length data); by rewrite take_ge).
  destruct hc; repeat split_if; intros [= <-]; eauto.
Qed.

Lemma recv_loop_bounded max script data cl hc r :
  0 <= max -> zlen data + zlen (stream script) <= INT_MAX -> zlen data <= max ->
  recv_loop max script data cl hc = Some (Returned r) ->
  zlen r <= max /\ exists k, r = take k (data ++ stream script).
Proof.
  intros Hm. revert data cl hc. induction script as [|[d| |e] script IH]; intros data cl hc Hs Hd; cbn [recv_loop stream] in *.
  - done.
  - rewrite zlen_app in Hs. pose proof (zlen_nonneg d). pose proof (zlen_nonneg (stream script)).
    pose proof (zlen_nonneg data).
    rewrite i32_small by (rewrite zlen_app; unfold INT_MAX in *; lia).
    destruct (Z.ltb_spec max (zlen (data ++ d))) as [_|Hle].
    { intros [= <-]. split; [done|]. by exists 0%nat. }
    assert (Hgo : forall cl hc, match turn (zlen d) (data ++ d) cl hc with
       | Some r => Some (Returned r) | None => recv_loop max script (data ++ d) cl hc end = Some (Returned r) ->
       zlen r <= max /\ exists k, r = take k (data ++ d ++ stream script)).
    { intros cl' hc'. destruct (turn _ _ cl' hc') as [r'|] eqn:Et.
      - intros [= ->]. apply turn_prefix in Et as [k ->]. split.
        + unfold zlen in *. rewrite length_take. lia.
        + exists (k `min` length (data ++ d))%nat. rewrite app_assoc, (take_app_le (data ++ d)) by lia.
          by rewrite <- take_take, (take_ge (data ++ d) (length (data ++ d))).
      - rewrite app_assoc. apply IH; [rewrite zlen_app; lia|done]. }
    destruct hc; [apply Hgo|]. destruct (find_sub CRLFCRLF (data ++ d)) as [he|]; [|apply Hgo].
    destruct (head_length (data ++ d) he) as [n|]; [|done]. destruct (max <? n); [|apply Hgo].
    intros [= <-]. split; [done|]. by exists 0%nat.
  - intros [= <-]. split; [done|]. exists (length data). by rewrite app_nil_r, take_ge.
  - intros [= <-]. split; [done|]. exists (length data). by rewrite app_nil_r, take_ge.
Qed.

(** What is returned is a prefix of what arrived and never longer than the limit, as
    long as less than 2 GiB arrive. *)
Theorem returned_within_limit max_size script r :
  zlen (stream script) <= INT_MAX -> recv_all_request max_size script = Some (Returned r) ->
  zlen r <= effective_max max_size /\ exists k, r = take k (stream script).
Proof.
  intros Hs Hr. assert (0 <= effective_max max_size) by (unfold effective_max; split_if; lia).
  apply (recv_loop_bounded _ _ [] _ _ r) in Hr; rewrite ?zlen_nil; [done|lia..].
Qed.

(** Every real request is undefined behaviour: when a head of more than sixteen bytes
    is complete within the limit, [find] is told to compare more bytes than the literal
    has, however the head was cut into full reads and one last read.  A request line
    with a Host header is already longer. *)
Theorem long_head_undefined max_size ds d he script :
  Forall (fun x => zlen x = buf_size) ds -> find_sub CRLFCRLF (concat ds) = None ->
  find_sub CRLFCRLF (concat ds ++ d) = Some he -> (16 < he)%nat ->
  zlen (concat ds ++ d) <= effective_max max_size <= INT_MAX ->
  recv_all_request max_size ((RData <$> ds) ++ RData d :: script) = Some Undefined.
Proof.
  intros Hf Hn Hh Hhe Hl. unfold recv_all_request.
  assert (Hgen : forall buf, find_sub CRLFCRLF (buf ++ concat ds) = None ->
    find_sub CRLFCRLF (buf ++ concat ds ++ d) = Some he ->
    zlen (buf ++ concat ds ++ d) <= effective_max max_size <= INT_MAX ->
    recv_loop (effective_max max_size) ((RData <$> ds) ++ RData d :: script) buf (-1) false = Some Undefined);
    [|by apply Hgen].
  clear Hn Hh Hl. induction Hf as [|x ds Hx _ IH]; intros buf Hn Hh Hl.
  all: assert (Hsz : forall a b, buf ++ a ++ b = (buf ++ a) ++ b) by (intros; apply app_assoc).
  - cbn [fmap list_fmap app recv_loop concat] in *. pose proof (zlen_nonneg (buf ++ d)).
    rewrite i32_small by (unfold INT_MAX in *; lia). destruct (Z.ltb_spec (effective_max max_size) (zlen (buf ++ d))); [lia|].
    rewrite Hh. unfold head_length, find_content_length.
    destruct (Nat.leb_spec he (length content_length_literal)) as [Hc|_]; [|done].
    change (length content_length_literal) with 16%nat in Hc. lia.
  - cbn [concat] in *. rewrite <- app_assoc in Hh, Hl. rewrite Hsz in Hn, Hh, Hl. rewrite fmap_cons. cbn [app recv_loop].
    rewrite zlen_app in Hl. pose proof (zlen_nonneg (buf ++ x)). pose proof (zlen_nonneg (concat ds ++ d)).
    rewrite i32_small by (unfold INT_MAX in *; lia). destruct (Z.ltb_spec (effective_max max_size) (zlen (buf ++ x))); [lia|].
    destruct (find_sub CRLFCRLF (buf ++ x)) as [i|] eqn:E; [by rewrite (find_sub_app_l _ _ (concat ds) i E) in Hn|].
    unfold turn. rewrite Hx. apply IH; [done..|by rewrite zlen_app].
Qed.

(** A head that does not arrive with the first read is cut short: a read of less than the
    buffer without the blank line ends the call with what there is. *)
Theorem short_read_ends max_size d script :
  zlen d < buf_size -> buf_size <= effective_max max_size -> find_sub CRLFCRLF d = None ->
  recv_all_request max_size (RData d :: script) = Some (Returned d).
Proof.
  intros Hl Hm Hd. unfold recv_all_request. cbn [recv_loop app]. pose proof (zlen_nonneg d).
  rewrite i32_small by (unfold INT_MAX, buf_size in *; lia).
  destruct (Z.ltb_spec (effective_max max_size) (zlen d)); [lia|]. rewrite Hd. unfold turn.
  by rewrite (proj2 (Z.ltb_lt _ _) Hl).
Qed.

(** ** Concrete reads *)

Definition hosted_request : bytes := lit "GET / HTTP/1.1" ++ CRLF ++ lit "Host: a" ++ CRLFCRLF.

(** Applied to a small request. *)
Lemma long_head_undefined_witness : recv_all_request 65536 [RData hosted_request] = Some Undefined.
Proof. apply (long_head_undefined 65536 [] hosted_request 23 []); [constructor|..]; vm_compute; by try lia. Defined.

(** Applied to a request line without headers, whose needle is cut to fourteen bytes. *)
Lemma returned_within_limit_witness :
  recv_all_request 65536 [RData (lit "GET / HTTP/1.1" ++ CRLFCRLF)] = Some (Returned (lit "GET / HTTP/1.1" ++ CRLFCRLF)) /\
  zlen (lit "GET / HTTP/1.1" ++ CRLFCRLF) <= effective_max 65536.
Proof.
  split; [by vm_compute|].
  apply (returned_within_limit 65536 [RData (lit "GET / HTTP/1.1" ++ CRLFCRLF)] (lit "GET / HTTP/1.1" ++ CRLFCRLF));
    by vm_compute.
Defined.

(** Applied to half a request line. *)
Lemma short_read_ends_witness :
  recv_all_request 0 [RData (lit "GET / HT"); RData (lit "TP/1.1" ++ CRLFCRLF)] = Some (Returned (lit "GET / HT")).
Proof. apply (short_read_ends 0 (lit "GET / HT") [RData (lit "TP/1.1" ++ CRLFCRLF)]); by vm_compute. Defined.

End RecvRequest.
