(* ===== verification/Stdio.v ===== *)
(** * Stdio: the C streams the logger uses

    [FILE*] streams with their open and closed state, over files and stderr.
    Closing a stream twice or writing to a closed one is undefined and yields
    [None]; a write to an open stream is complete. *)

From S2P Require Import Prelude.

Module Stdio.

(** A [FILE*]. *)
Inductive file := Null | Stderr | Stream (n : nat).

#[global] Instance file_eq_dec : EqDecision file.
Proof. solve_decision. Defined.

(** Open streams with the path they were opened on, contents of files, what stderr got. *)
Record t := mk {
  live : gmap nat bytes;
  next : nat;
  disk : gmap bytes bytes;
  err : bytes;
  err_open : bool
}.

(** [fopen(path, "a")], whose success the system decides. *)
Definition fopen_append (path : bytes) (ok : bool) (w : t) : file * t :=
  if ok then
    (Stream (next w),
     mk (<[next w := path]> (live w)) (S (next w))
        (<[path := default [] (disk w !! path)]> (disk w)) (err w) (err_open w))
  else (Null, w).

Definition fclose (f : file) (w : t) : option t :=
  match f with
  | Null => None
  | Stderr => if err_open w then Some (mk (live w) (next w) (disk w) (err w) false) else None
  | Stream n =>
      match live w !! n with
      | Some _ => Some (mk (delete n (live w)) (next w) (disk w) (err w) (err_open w))
      | None => None
      end
  end.

Definition fwrite (s : bytes) (f : file) (w : t) : option t :=
  match f with
  | Null => None
  | Stderr => if err_open w then Some (mk (live w) (next w) (disk w) (err w ++ s) (err_open w)) else None
  | Stream n =>
      path ← live w !! n;
      Some (mk (live w) (next w) (<[path := default [] (disk w !! path) ++ s]> (disk w)) (err w) (err_open w))
  end.

(** [rename] replaces what the new name stood for; a failure changes nothing. *)
Definition rename (old new : bytes) (w : t) : t :=
  match disk w !! old with
  | Some c => mk (live w) (next w) (<[new := c]> (delete old (disk w))) (err w) (err_open w)
  | None => w
  end.

End Stdio.
