(* ===== verification/AsyncLogger.v ===== *)
(** * AsyncLogger: src/logger/async_logger.cpp

    The double-buffered file logger as a machine of the appending threads, its
    background thread and [stop].  A step is one critical section or one flush;
    [None] is undefined behaviour. *)

From S2P Require Import Prelude Stdio.

Module AsyncLogger.
Import Stdio.
Open Scope Z_scope.

(** Where the background thread is. *)
Inductive backend := Idle | Test | Wait | Flush | LastSwap | LastFlush | Done.
Inductive stopping := Running | Joining | Stopped.

Record t := mk {
  filepath : bytes;
  roll_size : Z;
  cur_buf : list bytes;
  next_buf : list bytes;
  running : bool;
  thread : backend;
  stopper : stopping;
  fp : file;
  written_bytes : Z;
  io : Stdio.t;
  appended : list bytes        (* every line given to [append], for the statements *)
}.

Definition create (path : bytes) (roll : Z) (w : Stdio.t) : t :=
  mk path roll [] [] false Idle Running Null 0 w [].

Definition set_io (f : file) (n : Z) (w : Stdio.t) (s : t) : t :=
  mk (filepath s) (roll_size s) (cur_buf s) (next_buf s) (running s) (thread s) (stopper s) f n w (appended s).
Definition set_bufs (cur next : list bytes) (b : backend) (s : t) : t :=
  mk (filepath s) (roll_size s) cur next (running s) b (stopper s) (fp s) (written_bytes s) (io s) (appended s).
Definition set_running (r : bool) (b : backend) (p : stopping) (s : t) : t :=
  mk (filepath s) (roll_size s) (cur_buf s) (next_buf s) r b p (fp s) (written_bytes s) (io s) (appended s).

Definition append (line : bytes) (s : t) : t :=
  mk (filepath s) (roll_size s) (cur_buf s ++ [line]) (next_buf s) (running s) (thread s) (stopper s) (fp s)
     (written_bytes s) (io s) (appended s ++ [line]).

(** [ok] is the success of [fopen]. *)
Definition open_file (ok : bool) (s : t) : option t :=
  w ← (if decide (fp s = Null) then Some (io s) else fclose (fp s) (io s));
  let '(f, w) := fopen_append (filepath s) ok w in
  if decide (f = Null) then
    w ← fwrite (lit "AsyncLogger: failed to open " ++ filepath s ++ [LF]) Stderr w;
    Some (set_io Stderr (written_bytes s) w s)
  else Some (set_io f 0 w s).

(** [time_buf] is the formatted local time. *)
Definition roll_file (time_buf : bytes) (ok : bool) (s : t) : option t :=
  if decide (fp s = Null \/ fp s = Stderr) then Some s
  else
    w ← fclose (fp s) (io s);
    let w := rename (filepath s) (filepath s ++ lit "." ++ time_buf) w in
    open_file ok (set_io (fp s) (written_bytes s) w s).

Definition flush_line (time_buf : bytes) (ok : bool) (line : bytes) (s : t) : option t :=
  let len := zlen line in
  s ← (if (0 <? roll_size s) && (roll_size s <? u64 (written_bytes s + len)) then roll_file time_buf ok s
       else Some s);
  w ← fwrite line (fp s) (io s);
  w ← fwrite ([LF]) (fp s) w;
  Some (set_io (fp s) (u64 (written_bytes s + (len + 1))) w s).

Fixpoint flush_buf (time_buf : bytes) (ok : bool) (buf : list bytes) (s : t) : option t :=
  match buf with [] => Some s | line :: buf' => s ← flush_line time_buf ok line s; flush_buf time_buf ok buf' s end.

Definition start (ok : bool) (s : t) : option t :=
  match thread s with
  | Idle => s ← open_file ok s; Some (set_running true Test (stopper s) s)
  | _ => None
  end.

(** One step of [backend_loop]; the wait of [Wait] ends by its timeout at the latest.
    A thread that does not run or has to wait stays where it is. *)
Definition backend_step (time_buf : bytes) (ok : bool) (s : t) : option t :=
  match thread s with
  | Idle | Done => Some s
  | Test => Some (set_bufs (cur_buf s) (next_buf s) (if running s then Wait else LastSwap) s)
  | Wait => Some (set_bufs (next_buf s) (cur_buf s) Flush s)
  | Flush =>
      match next_buf s with
      | [] => Some (set_bufs (cur_buf s) [] Test s)
      | buf => s ← flush_buf time_buf ok buf s; Some (set_bufs (cur_buf s) [] Test s)
      end
  | LastSwap =>
      Some (match cur_buf s with
            | [] => set_bufs [] (next_buf s) LastFlush s
            | cur => set_bufs (next_buf s) cur LastFlush s
            end)
  | LastFlush =>
      match next_buf s with
      | [] => Some (set_bufs (cur_buf s) [] Done s)
      | buf => s ← flush_buf time_buf ok buf s; Some (set_bufs (cur_buf s) [] Done s)
      end
  end.

(** [stop]: clear the flag, then wait for the thread and close the stream. *)
Definition stop_step (s : t) : option t :=
  match stopper s with
  | Running => Some (if running s then set_running false (thread s) Joining s else s)
  | Joining =>
      match thread s with
      | Done =>
          w ← (if decide (fp s = Null) then Some (io s) else fclose (fp s) (io s));
          Some (set_running false Done Stopped (set_io Null (written_bytes s) w s))
      | _ => Some s
      end
  | Stopped => Some s
  end.

Inductive label := Append (line : bytes) | Start (ok : bool) | Backend (time_buf : bytes) (ok : bool) | Stop.

Definition exec (l : label) (s : t) : option t :=
  match l with
  | Append line => Some (append line s)
  | Start ok => start ok s
  | Backend time_buf ok => backend_step time_buf ok s
  | Stop => stop_step s
  end.

Fixpoint run (ls : list label) (s : t) : option t :=
  match ls with [] => Some s | l :: ls' => s ← exec l s; run ls' s end.

(** ** Streams that are open *)

(** What the stream [f] has received. *)
Definition sink (f : file) (w : Stdio.t) : bytes :=
  match f with
  | Null => []
  | Stderr => err w
  | Stream n => match live w !! n with Some path => default [] (disk w !! path) | None => [] end
  end.

Definition opened (f : file) (w : Stdio.t) : Prop :=
  match f with Null => False | Stderr => err_open w = true | Stream n => is_Some (live w !! n) end.

(** Two worlds in which the same streams are open. *)
Definition same_streams (w w' : Stdio.t) : Prop := live w' = live w /\ err_open w' = err_open w.

Lemma fwrite_opened x f w :
  opened f w -> exists w', fwrite x f w = Some w' /\ same_streams w w' /\ sink f w' = sink f w ++ x.
Proof.
  destruct f as [| |n]; simpl; [done|..].
  - intros E. rewrite E. by eexists.
  - intros [path E]. rewrite E. simpl. eexists. split; [done|]. split; [done|]. simpl. rewrite E. by rewrite lookup_insert_eq.
Qed.

Lemma same_opened f w w' : same_streams w w' -> opened f w -> opened f w'.
Proof. intros [H1 H2]. destruct f; simpl; rewrite ?H1, ?H2; done. Qed.

Definition unlines (l : list bytes) : bytes := l ≫= fun x => x ++ [LF].

(** Bytes a list of lines takes in the file. *)
Definition volume (l : list bytes) : Z := zlen (unlines l).

Lemma volume_cons x l : volume (x :: l) = zlen x + 1 + volume l.
Proof. unfold volume, unlines. rewrite bind_cons, !zlen_app. change (zlen [LF]) with 1. lia. Qed.

Lemma volume_app l1 l2 : volume (l1 ++ l2) = volume l1 + volume l2.
Proof. unfold volume, unlines. by rewrite bind_app, zlen_app. Qed.

Lemma volume_nonneg l : 0 <= volume l.
Proof. apply zlen_nonneg. Qed.

(** The file stays below the limit at which it would be rolled. *)
Definition fits (roll : Z) (n : Z) : Prop := n < two64 /\ (roll = 0 \/ n <= roll).

Lemma flush_buf_spec tb ok buf s :
  opened (fp s) (io s) -> 0 <= written_bytes s -> fits (roll_size s) (written_bytes s + volume buf) ->
  exists w, flush_buf tb ok buf s = Some (set_io (fp s) (written_bytes s + volume buf) w s) /\
    same_streams (io s) w /\ sink (fp s) w = sink (fp s) (io s) ++ unlines buf.
Proof.
  revert s; induction buf as [|x buf IH]; intros s Ho Hw Hf.
  { exists (io s). change (volume []) with 0. rewrite app_nil_r, Z.add_0_r. by destruct s. }
  rewrite volume_cons in *. pose proof (volume_nonneg buf). pose proof (zlen_nonneg x). destruct Hf as [Hf64 Hfr].
  cbn [flush_buf]. unfold flush_line.
  assert (Hno : (0 <? roll_size s) && (roll_size s <? u64 (written_bytes s + zlen x)) = false).
  { rewrite u64_small by lia. apply andb_false_iff. rewrite Z.ltb_ge, Z.ltb_ge. lia. }
  rewrite Hno. cbn [mbind option_bind].
  destruct (fwrite_opened x _ _ Ho) as (w1 & -> & Hm1 & Hs1). cbn [mbind option_bind].
  pose proof (same_opened _ _ _ Hm1 Ho) as Ho1.
  destruct (fwrite_opened [LF] _ _ Ho1) as (w2 & -> & Hm2 & Hs2). cbn [mbind option_bind].
  rewrite u64_small by lia.
  destruct (IH (set_io (fp s) (written_bytes s + (zlen x + 1)) w2 s)) as (w & -> & Hm & Hs').
  - by eapply same_opened.
  - cbn. lia.
  - cbn. split; lia.
  - exists w. rewrite (Z.add_assoc (written_bytes s) (zlen x + 1)). split; [done|]. cbn in Hs', Hm. split.
    + destruct Hm1, Hm2, Hm. split; congruence.
    + rewrite Hs', Hs2, Hs1. unfold unlines. by rewrite bind_cons, <- !app_assoc.
Qed.

(** ** Invariant of a started logger *)

(** Where the lines go: the log file, or stderr when it could not be opened. *)
Definition output (to_file : bool) (s : t) : bytes :=
  if to_file then default [] (disk (io s) !! filepath s) else err (io s).

Definition attached (to_file : bool) (s : t) : Prop :=
  if to_file then exists n, fp s = Stream n /\ live (io s) !! n = Some (filepath s)
  else fp s = Stderr /\ err_open (io s) = true.

(** The background thread is past its loop. *)
Definition leaving (b : backend) : bool := match b with LastSwap | LastFlush | Done => true | _ => false end.

Record good (to_file : bool) (base : bytes) (s : t) : Prop := {
  good_attached : stopper s <> Stopped -> attached to_file s;
  good_lines : exists flushed, appended s = flushed ++ next_buf s ++ cur_buf s /\
    output to_file s = base ++ unlines flushed /\ written_bytes s = volume flushed;
  good_next : thread s <> Flush -> thread s <> LastFlush -> next_buf s = [];
  good_running : running s = true <-> stopper s = Running;
  good_leaving : leaving (thread s) = true -> running s = false;
  good_stopped : stopper s = Stopped -> thread s = Done;
  good_started : thread s <> Idle
}.

Lemma attached_opened f s : attached f s -> opened (fp s) (io s).
Proof. destruct f; simpl; [intros (n & -> & E); by exists (filepath s)|intros [-> E]; done]. Qed.

Lemma attached_sink f s : attached f s -> sink (fp s) (io s) = output f s.
Proof. destruct f; simpl; [intros (n & -> & E)|intros [-> E]]; simpl; [by rewrite E|done]. Qed.

Lemma flush_attached f tb ok s :
  attached f s -> 0 <= written_bytes s -> fits (roll_size s) (written_bytes s + volume (next_buf s)) ->
  exists w, let s' := set_io (fp s) (written_bytes s + volume (next_buf s)) w s in
    flush_buf tb ok (next_buf s) s = Some s' /\ attached f s' /\ output f s' = output f s ++ unlines (next_buf s).
Proof.
  intros Ha Hw Hf.
  destruct (flush_buf_spec tb ok (next_buf s) s (attached_opened f s Ha) Hw Hf) as (w & Hb & [Hm1 Hm2] & Hs).
  exists w. intros s'. assert (Ha' : attached f s').
  { destruct f; simpl in *; [|by rewrite Hm2]. destruct Ha as (n & H1 & H2). exists n. by rewrite Hm1. }
  split; [done|]. split; [done|]. rewrite <- (attached_sink f s' Ha'), <- (attached_sink f s Ha). exact Hs.
Qed.

(** The lines of the background thread's buffer reach the output. *)
Lemma flush_good f base tb ok s b :
  good f base s -> stopper s <> Stopped -> fits (roll_size s) (volume (appended s)) ->
  (thread s = Flush /\ b = Test) \/ (thread s = LastFlush /\ b = Done) ->
  exists s1, flush_buf tb ok (next_buf s) s = Some s1 /\ good f base (set_bufs (cur_buf s1) [] b s1) /\
    roll_size s1 = roll_size s /\ appended s1 = appended s /\ cur_buf s1 = cur_buf s /\ stopper s1 = stopper s.
Proof.
  intros [Ha (fl & Hl & Ho & Hw) Hn Hr Hlv Hst _] Hns [Hf1 Hf2] Hb. specialize (Ha Hns).
  rewrite Hl, !volume_app in Hf1, Hf2. pose proof (volume_nonneg (cur_buf s)). pose proof (volume_nonneg fl).
  destruct (flush_attached f tb ok s Ha) as (w & Hfl & Ha' & Ho'); [lia|rewrite Hw; split; lia|].
  eexists. split; [exact Hfl|]. split; [|done]. split; cbn in *; try done.
  - exists (fl ++ next_buf s). rewrite Hl, <- app_assoc. split_and!; [done|..].
    + unfold output in *. cbn in *. rewrite Ho', Ho. unfold unlines. by rewrite bind_app, <- app_assoc.
    + rewrite Hw, volume_app. done.
  - intros Hlv'. apply Hlv. by destruct Hb as [[-> ->]|[-> ->]].
  - by destruct Hb as [[_ ->]|[_ ->]].
Qed.

Definition no_start (l : label) : bool := match l with Start _ => false | _ => true end.
Definition line_of (l : label) : list bytes := match l with Append x => [x] | _ => [] end.

(** Testing the buffer first makes no difference. *)
Lemma match_buf tb ok s b :
  match next_buf s with
  | [] => Some (set_bufs (cur_buf s) [] b s)
  | buf => s ← flush_buf tb ok buf s; Some (set_bufs (cur_buf s) [] b s)
  end = s ← flush_buf tb ok (next_buf s) s; Some (set_bufs (cur_buf s) [] b s).
Proof. by destruct (next_buf s). Qed.

Lemma attached_close f s :
  attached f s -> exists w, (if decide (fp s = Null) then Some (io s) else fclose (fp s) (io s)) = Some w /\
    disk w = disk (io s) /\ err w = err (io s).
Proof.
  destruct f; simpl; [intros (n & -> & E)|intros [-> E]]; rewrite decide_False by done; simpl; rewrite E; by eexists.
Qed.

Lemma good_step f base l s :
  good f base s -> no_start l = true -> fits (roll_size s) (volume (appended s)) ->
  exists s', exec l s = Some s' /\ good f base s' /\ roll_size s' = roll_size s /\
    appended s' = appended s ++ line_of l.
Proof.
  intros Hg Hl Hf. destruct l as [x|ok|tb ok|]; [|done|..]; cbn [exec line_of]; rewrite ?app_nil_r.
  - destruct Hg as [Ha (fl & Hl' & Ho & Hw) Hn Hr Hlv Hst Hsd]. eexists. split; [done|]. split; [|done].
    split; cbn; try done. exists fl. rewrite Hl', <- !app_assoc. done.
  - unfold backend_step. destruct (thread s) eqn:Et.
    + by destruct (good_started _ _ _ Hg).
    + eexists. split; [done|]. split; [|done]. destruct Hg as [Ha Hl' Hn Hr Hlv Hst Hsd]. rewrite Et in *.
      specialize (Hn ltac:(done) ltac:(done)). split; cbn; try done; destruct (running s); intuition (cbn in *; congruence).
    + eexists. split; [done|]. split; [|done]. destruct Hg as [Ha (fl & Hl' & Ho & Hw) Hn Hr Hlv Hst Hsd]. rewrite Et in *.
      specialize (Hn ltac:(done) ltac:(done)). rewrite Hn in *. split; cbn; try done; try by intuition congruence.
      exists fl. rewrite Hl', app_nil_r. done.
    + assert (Hns : stopper s <> Stopped) by (intros E%(good_stopped _ _ _ Hg); congruence).
      destruct (flush_good f base tb ok s Test Hg Hns Hf ltac:(by left)) as (s1 & Hfl & Hg1 & E1 & E2 & _).
      rewrite match_buf, Hfl. by eexists.
    + eexists. split; [done|]. destruct Hg as [Ha (fl & Hl' & Ho & Hw) Hn Hr Hlv Hst Hsd]. rewrite Et in *.
      specialize (Hn ltac:(done) ltac:(done)). rewrite Hn in *.
      split; [|by destruct (cur_buf s)]. destruct (cur_buf s) eqn:Ec; split; cbn; try done; try by intuition congruence.
      all: exists fl; rewrite Hl', ?app_nil_r; done.
    + assert (Hns : stopper s <> Stopped) by (intros E%(good_stopped _ _ _ Hg); congruence).
      destruct (flush_good f base tb ok s Done Hg Hns Hf ltac:(by right)) as (s1 & Hfl & Hg1 & E1 & E2 & _).
      rewrite match_buf, Hfl. by eexists.
    + by exists s.
  - unfold stop_step. destruct (stopper s) eqn:Es.
    + destruct (running s) eqn:Er; [|by exists s]. eexists. split; [done|]. split; [|done].
      destruct Hg as [Ha Hl' Hn Hr Hlv Hst Hsd]. split; cbn; try done; try by intuition congruence.
    + destruct (thread s) eqn:Et; try by exists s.
      destruct Hg as [Ha (fl & Hl' & Ho & Hw) Hn Hr Hlv Hst Hsd]. specialize (Ha ltac:(congruence)).
      destruct (attached_close f s Ha) as (w & -> & Hd & He). cbn [mbind option_bind]. eexists. split; [done|].
      split; [|done]. split; cbn; try done; try by intuition congruence.
      exists fl. split_and!; [done| |done]. unfold output in *. cbn. by rewrite Hd, He.
    + by exists s.
Qed.

Lemma logger_run_app ls1 ls2 s : run (ls1 ++ ls2) s = s' ← run ls1 s; run ls2 s'.
Proof.
  revert s; induction ls1 as [|l ls1 IH]; intros s; cbn [run app mbind option_bind]; [done|].
  destruct (exec l s); cbn [mbind option_bind]; [apply IH|done].
Qed.

Lemma fits_le roll m n : 0 <= m <= n -> fits roll n -> fits roll m.
Proof. intros Hm [H1 H2]. split; lia. Qed.

Lemma good_run f base ls s :
  good f base s -> forallb no_start ls = true -> fits (roll_size s) (volume (appended s ++ (ls ≫= line_of))) ->
  exists s', run ls s = Some s' /\ good f base s' /\ roll_size s' = roll_size s /\
    appended s' = appended s ++ (ls ≫= line_of).
Proof.
  revert s; induction ls as [|l ls IH]; intros s Hg Hl Hf; cbn [run].
  { exists s. rewrite app_nil_r. done. }
  apply andb_true_iff in Hl as [Hl Hls]. rewrite bind_cons in *.
  pose proof (volume_nonneg (appended s)). pose proof (volume_nonneg (line_of l ++ (ls ≫= line_of))).
  destruct (good_step f base l s Hg Hl) as (s1 & -> & Hg1 & Hr1 & Ha1).
  { eapply fits_le; [|exact Hf]. rewrite volume_app. lia. }
  cbn [mbind option_bind]. destruct (IH s1 Hg1 Hls) as (s2 & H2 & Hg2 & Hr2 & Ha2).
  { by rewrite Hr1, Ha1, <- app_assoc. }
  exists s2. rewrite Ha2, Ha1, <- app_assoc. split_and!; [done|done|congruence|done].
Qed.

(** What the output holds when the logger starts. *)
Definition base_of (ok : bool) (path : bytes) (w : Stdio.t) : bytes :=
  if ok then default [] (disk w !! path) else err w ++ lit "AsyncLogger: failed to open " ++ path ++ [LF].

Lemma run_appends xs s : run (Append <$> xs) s =
  Some (mk (filepath s) (roll_size s) (cur_buf s ++ xs) (next_buf s) (running s) (thread s) (stopper s) (fp s)
     (written_bytes s) (io s) (appended s ++ xs)).
Proof.
  revert s; induction xs as [|x xs IH]; intros s.
  - rewrite !app_nil_r. by destruct s.
  - rewrite fmap_cons. cbn [run exec mbind option_bind]. rewrite IH. cbn. by rewrite <- !app_assoc.
Qed.

(** The state after some appends and [start]. *)
Lemma started_good xs ok path roll w :
  err_open w = true ->
  exists s, run ((Append <$> xs) ++ [Start ok]) (create path roll w) = Some s /\
    good ok (base_of ok path w) s /\ roll_size s = roll /\ appended s = xs /\ running s = true /\ filepath s = path.
Proof.
  intros Hw. rewrite logger_run_app, run_appends. cbn [mbind option_bind run exec start create thread].
  unfold open_file. cbn [create fp io]. rewrite decide_True by done. cbn [mbind option_bind]. unfold fopen_append.
  destruct ok; cbn -[lit].
  - eexists. split; [done|]. split_and!; try done. split; cbn; try done.
    + intros _. exists (next w). by rewrite lookup_insert_eq.
    + exists []. split; [done|]. rewrite lookup_insert_eq, app_nil_r. done.
  - rewrite Hw. cbn -[lit]. eexists. split; [done|]. split_and!; try done. split; cbn -[lit]; try done.
    exists []. split; [done|]. by rewrite app_nil_r.
Qed.

(** ** Stopping *)

(** Steps the background thread has left once the flag is clear. *)
Definition rank (b : backend) : nat :=
  match b with Wait => 5 | Flush => 4 | Test => 3 | LastSwap => 2 | LastFlush => 1 | Idle | Done => 0 end.

(** Nothing is left behind in the buffer of the appenders. *)
Definition swept (s : t) : Prop := (rank (thread s) <= 1)%nat -> cur_buf s = [].

(** File operations change nothing but the streams and the byte count. *)
Lemma open_file_frame ok s s' : open_file ok s = Some s' -> exists f n w, s' = set_io f n w s.
Proof.
  unfold open_file. destruct (if decide (fp s = Null) then _ else _) as [w|]; cbn [mbind option_bind]; [|done].
  destruct (fopen_append _ _ _) as [f w1]. destruct (decide (f = Null)).
  - destruct (fwrite _ _ _) as [w2|]; cbn [mbind option_bind]; [|done]. intros [= <-]. eauto.
  - intros [= <-]. eauto.
Qed.

Lemma flush_buf_frame tb ok buf s s' : flush_buf tb ok buf s = Some s' -> exists f n w, s' = set_io f n w s.
Proof.
  revert s; induction buf as [|x buf IH]; intros s; cbn [flush_buf].
  { intros [= <-]. exists (fp s), (written_bytes s), (io s). by destruct s. }
  destruct (flush_line tb ok x s) as [s1|] eqn:E; cbn [mbind option_bind]; [|done]. intros (f & n & w & ->)%IH.
  enough (exists f n w, s1 = set_io f n w s) as (? & ? & ? & ->) by eauto.
  unfold flush_line in E. destruct (if _ && _ then _ else _) as [s2|] eqn:E2; cbn [mbind option_bind] in E; [|done].
  assert (exists f n w, s2 = set_io f n w s) as (f2 & n2 & w2 & ->).
  { destruct (_ && _); [|injection E2 as <-; exists (fp s), (written_bytes s), (io s); by destruct s].
    unfold roll_file in E2. destruct (decide _); [injection E2 as <-; exists (fp s), (written_bytes s), (io s); by destruct s|].
    destruct (fclose _ _) as [w3|]; cbn [mbind option_bind] in E2; [|done].
    apply open_file_frame in E2 as (? & ? & ? & ->). cbn. eauto. }
  destruct (fwrite _ _ _) as [w3|]; cbn [mbind option_bind] in E; [|done].
  destruct (fwrite _ _ _) as [w4|]; cbn [mbind option_bind] in E; [|done]. injection E as <-. eauto.
Qed.

Lemma backend_rank f base tb ok s s' :
  good f base s -> running s = false -> swept s -> backend_step tb ok s = Some s' ->
  rank (thread s') = pred (rank (thread s)) /\ running s' = false /\ stopper s' = stopper s /\ swept s'.
Proof.
  intros Hg Hr Hs. pose proof (good_next _ _ _ Hg) as Hn. unfold backend_step, swept in *.
  destruct (thread s) eqn:Et; rewrite ?match_buf; cbn [rank] in *.
  - by destruct (good_started _ _ _ Hg).
  - intros [= <-]. rewrite Hr. cbn. split_and!; [done..|lia].
  - intros [= <-]. cbn. split_and!; [done..|lia].
  - destruct (flush_buf _ _ _ _) as [s1|] eqn:E; cbn [mbind option_bind]; [|done]. intros [= <-].
    apply flush_buf_frame in E as (? & ? & ? & ->). cbn. split_and!; [done..|lia].
  - specialize (Hn ltac:(done) ltac:(done)). intros [= <-]. by destruct (cur_buf s).
  - destruct (flush_buf _ _ _ _) as [s1|] eqn:E; cbn [mbind option_bind]; [|done]. intros [= <-].
    apply flush_buf_frame in E as (? & ? & ? & ->). cbn. split_and!; [done..|]. intros _. apply Hs. lia.
  - intros [= <-]. rewrite Et. done.
Qed.

(** The background thread left to itself after the flag was cleared. *)
Lemma drain f base tb ok n s :
  good f base s -> running s = false -> swept s -> fits (roll_size s) (volume (appended s)) -> (rank (thread s) <= n)%nat ->
  exists s', run (replicate n (Backend tb ok)) s = Some s' /\ good f base s' /\ appended s' = appended s /\
    thread s' = Done /\ cur_buf s' = [] /\ stopper s' = stopper s.
Proof.
  revert s; induction n as [|n IH]; intros s Hg Hr Hs Hf Hk; cbn [replicate run].
  - exists s. split_and!; try done; [|apply Hs; lia].
    pose proof (good_started _ _ _ Hg). destruct (thread s); cbn [rank] in Hk; try lia; done.
  - destruct (good_step f base (Backend tb ok) s Hg eq_refl Hf) as (s1 & He & Hg1 & Hr1 & Ha1).
    cbn [line_of] in Ha1. rewrite app_nil_r in Ha1. pose proof He as He'. cbn [exec] in He'. rewrite He. cbn [mbind option_bind].
    destruct (backend_rank f base tb ok s s1 Hg Hr Hs He') as (Hk1 & Hrun1 & Hst1 & Hs1).
    destruct (IH s1 Hg1 Hrun1 Hs1) as (s2 & H2 & Hg2 & Ha2 & Ht2 & Hc2 & Hst2); [by rewrite Hr1, Ha1|lia|].
    exists s2. split_and!; try done; congruence.
Qed.

(** No line is lost, duplicated or reordered.  Whatever threads append while the
    background thread swaps and writes, as long as the file does not reach the size at
    which it is rolled every step is defined, the output is what it held at the
    start followed by the lines written so far, and those together with the two
    buffers are exactly the lines appended, in order. *)
Theorem lines_in_order xs ok path roll w ls :
  err_open w = true -> forallb no_start ls = true -> fits roll (volume (xs ++ (ls ≫= line_of))) ->
  exists s flushed, run ((Append <$> xs) ++ [Start ok] ++ ls) (create path roll w) = Some s /\
    xs ++ (ls ≫= line_of) = flushed ++ next_buf s ++ cur_buf s /\
    output ok s = base_of ok path w ++ unlines flushed.
Proof.
  intros Hw Hl Hf. destruct (started_good xs ok path roll w Hw) as (s0 & H0 & Hg0 & Hr0 & Ha0 & _).
  destruct (good_run ok _ ls s0 Hg0 Hl) as (s & Hs & Hg & _ & Ha); [by rewrite Hr0, Ha0|].
  destruct Hg as [_ (fl & Hfl & Ho & _) _ _ _ _ _]. exists s, fl. split_and!; [|congruence|done].
  rewrite app_assoc, logger_run_app, H0. done.
Qed.

Definition work (l : label) : bool := match l with Append _ | Backend _ _ => true | _ => false end.

Lemma running_kept ls s s' : forallb work ls = true -> run ls s = Some s' -> running s' = running s.
Proof.
  revert s; induction ls as [|l ls IH]; intros s Hl; cbn [run]; [by intros [= <-]|].
  apply andb_true_iff in Hl as [Hl Hls]. destruct (exec l s) as [s1|] eqn:E; cbn [mbind option_bind]; [|done].
  intros ->%IH; [|done]. destruct l as [x| |tb ok|]; try done; cbn [exec] in E; [by injection E as <-|].
  unfold backend_step in E. rewrite !match_buf in E.
  destruct (thread s); try (injection E as <-; done).
  2: injection E as <-; by destruct (cur_buf s).
  all: destruct (flush_buf _ _ _ _) as [s2|] eqn:E2; cbn [mbind option_bind] in E; [|done]; injection E as <-;
    by apply flush_buf_frame in E2 as (? & ? & ? & ->).
Qed.

(** The shutdown of a running logger. *)
Lemma stop_good f base s tb ok :
  good f base s -> running s = true -> fits (roll_size s) (volume (appended s)) ->
  exists s', run ([Stop] ++ replicate 5 (Backend tb ok) ++ [Stop]) s = Some s' /\
    stopper s' = Stopped /\ fp s' = Null /\ next_buf s' = [] /\ cur_buf s' = [] /\
    output f s' = base ++ unlines (appended s).
Proof.
  intros Hg Hr Hf. pose proof (proj1 (good_running _ _ _ Hg) Hr) as Hst.
  assert (Hlv : leaving (thread s) = false).
  { destruct (leaving (thread s)) eqn:E; [|done]. apply (good_leaving _ _ _ Hg) in E. congruence. }
  destruct (good_step f base Stop s Hg eq_refl Hf) as (s2 & He2 & Hg2 & Hr2 & Ha2).
  cbn [line_of] in Ha2. rewrite app_nil_r in Ha2. rewrite logger_run_app. cbn [run]. rewrite He2. cbn [mbind option_bind].
  cbn [exec] in He2. unfold stop_step in He2. rewrite Hst, Hr in He2. injection He2 as He2. rewrite logger_run_app.
  destruct (drain f base tb ok 5 s2 Hg2) as (s3 & -> & Hg3 & Ha3 & Ht3 & Hc3 & Hst3).
  - by rewrite <- He2.
  - unfold swept. rewrite <- He2. cbn. pose proof (good_started _ _ _ Hg). destruct (thread s); try done; cbn; lia.
  - by rewrite Hr2, Ha2.
  - rewrite <- He2. cbn. destruct (thread s); cbn; lia.
  - cbn [mbind option_bind run exec]. unfold stop_step. rewrite Hst3, <- He2. cbn [set_running stopper]. rewrite Ht3.
    pose proof (good_attached _ _ _ Hg3) as Hat. rewrite Hst3, <- He2 in Hat. specialize (Hat ltac:(done)).
    destruct (attached_close f s3 Hat) as (w3 & -> & Hd & Her). cbn [mbind option_bind]. eexists. split; [done|].
    destruct Hg3 as [_ (fl & Hfl & Ho & _) Hn _ _ _ _]. rewrite Hn, Hc3, !app_nil_r in Hfl by (by rewrite Ht3).
    cbn. split_and!; [done|done|apply Hn; by rewrite Ht3|done|].
    rewrite <- Ha2, <- Ha3, Hfl, <- Ho. unfold output. cbn. by rewrite Hd, Her.
Qed.

(** [stop] flushes everything.  From any state of a running logger, once the flag is
    cleared five steps of the background thread and the join end the shutdown: the
    output then holds every line appended before, and both buffers are empty. *)
Theorem stop_flushes xs ok path roll w ls s tb ok' :
  err_open w = true -> forallb no_start ls = true -> fits roll (volume (xs ++ (ls ≫= line_of))) ->
  run ((Append <$> xs) ++ [Start ok] ++ ls) (create path roll w) = Some s -> running s = true ->
  exists s', run ([Stop] ++ replicate 5 (Backend tb ok') ++ [Stop]) s = Some s' /\
    stopper s' = Stopped /\ fp s' = Null /\ next_buf s' = [] /\ cur_buf s' = [] /\
    output ok s' = base_of ok path w ++ unlines (xs ++ (ls ≫= line_of)).
Proof.
  intros Hw Hl Hf Hrun Hr. destruct (started_good xs ok path roll w Hw) as (s0 & H0 & Hg0 & Hr0 & Ha0 & _).
  destruct (good_run ok _ ls s0 Hg0 Hl) as (s1 & Hs & Hg & Hr1 & Ha); [by rewrite Hr0, Ha0|].
  rewrite app_assoc, logger_run_app, H0 in Hrun. cbn [mbind option_bind] in Hrun. assert (s1 = s) as -> by congruence.
  rewrite Ha0 in Ha. rewrite Hr0 in Hr1. rewrite <- Ha in *. rewrite <- Hr1 in Hf. by apply stop_good.
Qed.

(** Rolling the file is undefined behaviour.  [roll_file] closes the stream and leaves
    [fp_] as it is; [open_file] then closes it again before it opens the new file.
    So the first line that does not fit makes the program undefined, whatever the
    clock says and whether or not the new file could be opened. *)
Theorem rolling_is_undefined s n path tb ok line :
  fp s = Stream n -> live (io s) !! n = Some path ->
  0 < roll_size s < u64 (written_bytes s + zlen line) -> flush_line tb ok line s = None.
Proof.
  intros Hf Hn Hr. unfold flush_line.
  assert ((0 <? roll_size s) && (roll_size s <? u64 (written_bytes s + zlen line)) = true) as ->.
  { apply andb_true_iff. rewrite !Z.ltb_lt. lia. }
  unfold roll_file. rewrite decide_False by (intros [|]; congruence). rewrite Hf. cbn [fclose]. rewrite Hn.
  cbn [mbind option_bind]. unfold open_file. cbn [set_io fp io]. rewrite decide_False by done.
  set (w := rename _ _ _). assert (live w !! n = None) as E.
  { unfold w, rename. cbn [disk]. destruct (disk (io s) !! filepath s); cbn [live]; apply lookup_delete_eq. }
  cbn [fclose]. by rewrite E.
Qed.

(** ** A small log *)

Definition tty : Stdio.t := Stdio.mk ∅ 0 ∅ [] true.
Definition steps (n : nat) : list label := replicate n (Backend (lit "20240101_000000") true).

(** Applied while lines arrive between the steps of the background thread. *)
Lemma lines_in_order_witness :
  exists s flushed,
    run ((Append <$> [lit "a"]) ++ [Start true] ++ steps 2 ++ [Append (lit "b")] ++ steps 2)
      (create (lit "log") 100 tty) = Some s /\
    [lit "a"; lit "b"] = flushed ++ next_buf s ++ cur_buf s /\ output true s = unlines flushed /\ flushed = [lit "a"].
Proof.
  destruct (lines_in_order [lit "a"] true (lit "log") 100 tty (steps 2 ++ [Append (lit "b")] ++ steps 2))
    as (s & fl & Hr & Hl & Ho); [done|done|split; [done|by right]|].
  exists s, fl. vm_compute in Hr. injection Hr as <-. split; [by vm_compute|]. split; [done|]. split; [done|].
  by apply (app_inv_tail [lit "b"]).
Defined.

(** Applied to that log. *)
Lemma stop_flushes_witness :
  exists s', run ((Append <$> [lit "a"]) ++ [Start true] ++ (steps 2 ++ [Append (lit "b")] ++ steps 2)
                    ++ [Stop] ++ steps 5 ++ [Stop]) (create (lit "log") 100 tty) = Some s' /\
    output true s' = unlines [lit "a"; lit "b"].
Proof.
  destruct (run ((Append <$> [lit "a"]) ++ [Start true] ++ (steps 2 ++ [Append (lit "b")] ++ steps 2))
    (create (lit "log") 100 tty)) as [s|] eqn:E; [|by vm_compute in E].
  destruct (stop_flushes [lit "a"] true (lit "log") 100 tty (steps 2 ++ [Append (lit "b")] ++ steps 2) s
    (lit "20240101_000000") true) as (s' & H1 & _ & _ & _ & _ & H2); [done|done|split; [done|by right]|done| |].
  { vm_compute in E. by injection E as <-. }
  exists s'. split; [|exact H2].
  rewrite (app_assoc [Start true]), (app_assoc (Append <$> _)), logger_run_app, E. exact H1.
Defined.

(** Applied to a file of at most three bytes that holds two. *)
Lemma rolling_is_undefined_witness :
  run ((Append <$> [lit "a"; lit "bc"]) ++ [Start true] ++ steps 2) (create (lit "log") 3 tty) <> None /\
  run ((Append <$> [lit "a"; lit "bc"]) ++ [Start true] ++ steps 3) (create (lit "log") 3 tty) = None /\
  flush_line [] true (lit "bc")
    (mk (lit "log") 3 [] [] true Flush Running (Stream 0) 2 (Stdio.mk {[0%nat := lit "log"]} 1 ∅ [] true) []) = None.
Proof.
  split; [by vm_compute|]. split; [by vm_compute|].
  by apply (rolling_is_undefined _ 0 (lit "log")).
Defined.

(** When the log file cannot be opened the lines go to stderr, and [stop] closes it. *)
Lemma stop_closes_stderr :
  option_map (fun s => err_open (io s))
    (run ((Append <$> [lit "a"]) ++ [Start false] ++ [Stop] ++ steps 5 ++ [Stop]) (create (lit "log") 0 tty))
  = Some false.
Proof. by vm_compute. Qed.

End AsyncLogger.
