(* ===== verification/Logger.v ===== *)
(** * Logger: src/logger/logger.cpp

    The front end: the level test, the rendering of a line and its way to the
    background logger or to stderr. *)

From S2P Require Import Prelude Utils Stdio AsyncLogger.

Module Logger.
Open Scope Z_scope.

Inductive LogLevel := TRACE | DEBUG | INFO | WARN | ERROR | FATAL.

Definition rank (l : LogLevel) : Z :=
  match l with TRACE => 0 | DEBUG => 1 | INFO => 2 | WARN => 3 | ERROR => 4 | FATAL => 5 end.

Definition level_str (l : LogLevel) : bytes :=
  match l with
  | TRACE => lit "TRACE" | DEBUG => lit "DEBUG" | INFO => lit "INFO "
  | WARN => lit "WARN " | ERROR => lit "ERROR" | FATAL => lit "FATAL"
  end.

(** [date] is the formatted local time, [ms] the milliseconds. *)
Definition timestamp (date : bytes) (ms : Z) : bytes :=
  let d := Utils.to_string ms in date ++ lit "." ++ replicate (3 - length d) "0"%char ++ d.

(** The part of the path after the last slash. *)
Fixpoint filename_go (p filename : bytes) : bytes :=
  match p with [] => filename | c :: p' => filename_go p' (if Ascii.eqb c "/" then p' else filename) end.
Definition filename (file : bytes) : bytes := filename_go file file.

(** One call of [log]; [message] is the formatted text, which the 4096-byte buffer cuts. *)
Record call := mkCall { level : LogLevel; file : bytes; line : Z; message : bytes; date : bytes; ms : Z }.

Definition render (c : call) : bytes :=
  timestamp (date c) (ms c) ++ lit " [" ++ level_str (level c) ++ lit "] "
    ++ filename (file c) ++ lit ":" ++ Utils.to_string (line c) ++ lit " " ++ take 4095 (message c).

Record t := mk { min_level : LogLevel; async_logger : option AsyncLogger.t; console : Stdio.t }.

Definition create (w : Stdio.t) : t := mk INFO None w.

Definition set_level (l : LogLevel) (s : t) : t := mk l (async_logger s) (console s).

(** [set_async_logger] with a background logger, which it starts; [ok] is the success of
    its [fopen]. *)
Definition set_async_logger (ok : bool) (a : AsyncLogger.t) (s : t) : option t :=
  a ← AsyncLogger.start ok a; Some (mk (min_level s) (Some a) (console s)).

Definition log (c : call) (s : t) : option t :=
  if rank (level c) <? rank (min_level s) then Some s
  else
    match async_logger s with
    | Some a => Some (mk (min_level s) (Some (AsyncLogger.append (render c) a)) (console s))
    | None =>
        w ← Stdio.fwrite (render c) Stdio.Stderr (console s);
        w ← Stdio.fwrite [LF] Stdio.Stderr w;
        Some (mk (min_level s) None w)
    end.

(** An event at a logger with a background thread: a call of [log] or a step of that thread. *)
Definition event : Type := call + bytes * bool.

Definition exec (e : event) (s : t) : option t :=
  match e, async_logger s with
  | inl c, _ => log c s
  | inr (time_buf, ok), Some a =>
      a ← AsyncLogger.backend_step time_buf ok a; Some (mk (min_level s) (Some a) (console s))
  | inr _, None => Some s
  end.

Fixpoint run (es : list event) (s : t) : option t :=
  match es with [] => Some s | e :: es' => s ← exec e s; run es' s end.

(** ** Properties *)

Lemma filename_go_spec p f :
  ("/"%char ∉ p /\ filename_go p f = f) \/
  (exists dir, p = dir ++ "/"%char :: filename_go p f /\ "/"%char ∉ filename_go p f).
Proof.
  revert f; induction p as [|c p IH]; intros f; cbn [filename_go]; [left; set_solver|].
  destruct (Ascii.eqb_spec c "/") as [->|Hc].
  - destruct (IH p) as [[Hn ->]|(dir & E & Hn)]; right; [by exists []|].
    exists ("/"%char :: dir). split; [|done]. simpl. by f_equal.
  - destruct (IH f) as [[Hn ->]|(dir & E & Hn)]; [left; split; [set_solver|done]|right].
    exists (c :: dir). split; [|done]. simpl. by f_equal.
Qed.

(** The name printed is the path without its directories. *)
Lemma filename_spec f :
  "/"%char ∉ filename f /\ (filename f = f \/ exists dir, f = dir ++ "/"%char :: filename f).
Proof. unfold filename. destruct (filename_go_spec f f) as [[Hn ->]|(dir & E & Hn)]; eauto. Qed.

(** The calls that pass the level. *)
Definition passes (l : LogLevel) (e : event) : list AsyncLogger.label :=
  match e with
  | inl c => if rank (level c) <? rank l then [] else [AsyncLogger.Append (render c)]
  | inr (tb, ok) => [AsyncLogger.Backend tb ok]
  end.

Definition rendered (l : LogLevel) (es : list event) : list bytes :=
  es ≫= fun e => match e with
                 | inl c => if rank (level c) <? rank l then [] else [render c]
                 | inr _ => []
                 end.

Lemma run_refines es l a w :
  run es (mk l (Some a) w) = option_map (fun a => mk l (Some a) w) (AsyncLogger.run (es ≫= passes l) a).
Proof.
  revert a; induction es as [|[c|[tb ok]] es IH]; intros a; [done|..]; cbn [run exec async_logger]; rewrite bind_cons.
  - unfold log. cbn [min_level passes]. destruct (_ <? _); cbn [app mbind option_bind AsyncLogger.run AsyncLogger.exec]; apply IH.
  - cbn [passes app AsyncLogger.run AsyncLogger.exec min_level console].
    destruct (AsyncLogger.backend_step tb ok a); cbn [mbind option_bind]; [apply IH|done].
Qed.

Lemma passes_no_start l es : forallb AsyncLogger.no_start (es ≫= passes l) = true.
Proof.
  induction es as [|[c|[tb ok]] es IH]; [done|..]; rewrite bind_cons, forallb_app, IH; cbn [passes]; [|done].
  by destruct (_ <? _).
Qed.

Lemma passes_work l es : forallb AsyncLogger.work (es ≫= passes l) = true.
Proof.
  induction es as [|[c|[tb ok]] es IH]; [done|..]; rewrite bind_cons, forallb_app, IH; cbn [passes]; [|done].
  by destruct (_ <? _).
Qed.

Lemma passes_lines l es : (es ≫= passes l) ≫= AsyncLogger.line_of = rendered l es.
Proof.
  unfold rendered. induction es as [|[c|[tb ok]] es IH]; [done|..]; rewrite !bind_cons, bind_app, IH; cbn [passes]; [|done].
  by destruct (_ <? _).
Qed.

(** C39. The log is complete and in order: with a background logger on a file that does not
    reach its roll size, after any sequence of calls and background steps the
    shutdown leaves in the file exactly the rendered lines of the calls whose level is
    at least the configured one, in call order, after what was there before. *)
Theorem log_reaches_file l path roll w es tb ok' :
  Stdio.err_open w = true -> AsyncLogger.fits roll (AsyncLogger.volume (rendered l es)) ->
  exists a s a', AsyncLogger.start true (AsyncLogger.create path roll w) = Some a /\
    run es (mk l (Some a) w) = Some s /\ async_logger s = Some a' /\
    option_map (AsyncLogger.output true)
      (AsyncLogger.run ([AsyncLogger.Stop] ++ replicate 5 (AsyncLogger.Backend tb ok') ++ [AsyncLogger.Stop]) a')
    = Some (default [] (Stdio.disk w !! path) ++ AsyncLogger.unlines (rendered l es)).
Proof.
  intros Hw Hf.
  destruct (AsyncLogger.started_good [] true path roll w Hw) as (a & Ha & Hg & Hr & Hap & Hrun & _).
  rewrite fmap_nil in Ha. cbn [app AsyncLogger.run AsyncLogger.exec] in Ha. rewrite <- (passes_lines l es) in Hf |- *.
  destruct (AsyncLogger.good_run true _ (es ≫= passes l) a Hg (passes_no_start l es)) as (a' & Ha' & Hg' & Hr' & Hap').
  { by rewrite Hr, Hap. }
  exists a, (mk l (Some a') w), a'. split; [|split; [by rewrite run_refines, Ha'|split; [done|]]].
  - destruct (AsyncLogger.start _ _); cbn [mbind option_bind] in Ha; congruence.
  - rewrite Hap in Hap'. rewrite Hr in Hr'.
    destruct (AsyncLogger.stop_good true _ a' tb ok' Hg') as (a2 & -> & _ & _ & _ & _ & Ho).
    + rewrite <- Hrun. apply (AsyncLogger.running_kept (es ≫= passes l)); [apply passes_work|done].
    + by rewrite Hr', Hap'.
    + cbn [option_map]. by rewrite Ho, Hap'.
Qed.

(** ** A call *)

Definition sample (l : LogLevel) : call :=
  mkCall l (lit "/src/main.cpp") 7 (lit "up") (lit "2024-01-01 00:00:00") 5.

Example render_sample : render (sample WARN) = lit "2024-01-01 00:00:00.005 [WARN ] main.cpp:7 up".
Proof. by vm_compute. Qed.

(** C39 applied to a call below the level and one above it. *)
Lemma log_reaches_file_witness :
  exists a s a', AsyncLogger.start true (AsyncLogger.create (lit "log") 0 AsyncLogger.tty) = Some a /\
    run [inl (sample DEBUG); inl (sample ERROR)] (mk INFO (Some a) AsyncLogger.tty) = Some s /\
    async_logger s = Some a' /\
    option_map (AsyncLogger.output true)
      (AsyncLogger.run ([AsyncLogger.Stop] ++ replicate 5 (AsyncLogger.Backend [] true) ++ [AsyncLogger.Stop]) a')
    = Some (render (sample ERROR) ++ [LF]).
Proof.
  destruct (log_reaches_file INFO (lit "log") 0 AsyncLogger.tty [inl (sample DEBUG); inl (sample ERROR)] [] true)
    as (a & s & a' & H1 & H2 & H3 & H4); [done|split; [done|by left]|].
  exists a, s, a'. split_and!; [done..|]. rewrite H4. by vm_compute.
Defined.

End Logger.
