(* ===== verification/Double.v ===== *)
(** * Double: the [double] arithmetic and printing the gateway uses

    IEEE binary64 values are [spec_float]s of the Standard Library's reference
    semantics with a 53-bit significand; [operator<<] prints like "%g" with six
    significant digits, rounding the exact binary value half to even as the C
    library does. *)

From Stdlib Require Import SpecFloat.
From S2P Require Import Prelude Utils.

Module Double.
Open Scope Z_scope.

Abbreviation double := spec_float.

(** [static_cast<double>(n)], also as the implicit conversion of an [int], and [a / b]. *)
Definition of_int (n : Z) : double := binary_normalize 53 1024 n 0 false.
Definition div (a b : double) : double := SFdiv 53 1024 a b.

(** [a + b], [a - b], [a * b], [a > b] and [a >= b]; an unordered comparison is false. *)
Definition add (a b : double) : double := SFadd 53 1024 a b.
Definition sub (a b : double) : double := SFsub 53 1024 a b.
Definition mul (a b : double) : double := SFmul 53 1024 a b.
Definition gtb (a b : double) : bool := SFltb b a.
Definition geb (a b : double) : bool := SFleb b a.

(** ** Printing *)

(** A positive value is a fraction [num / den]. *)
Definition fraction (m : positive) (e : Z) : Z * Z :=
  if 0 <=? e then (Zpos m * 2 ^ e, 1) else (Zpos m, 2 ^ (- e)).

(** [10^x <= num / den] for a possibly negative [x]. *)
Definition at_least_pow10 (num den x : Z) : bool :=
  if 0 <=? x then den * 10 ^ x <=? num else den <=? num * 10 ^ (- x).

(** The decimal exponent: the largest [x] with [10^x <= num / den], searched
    downwards from [x]; a binary64 value lies between 10^-324 and 10^309. *)
Fixpoint exponent_go (fuel : nat) (num den x : Z) : Z :=
  match fuel with
  | O => x
  | S fuel' => if at_least_pow10 num den x then x else exponent_go fuel' num den (x - 1)
  end.
Definition exponent (num den : Z) : Z := exponent_go 640 num den 309.

Definition round_half_even (a b : Z) : Z :=
  let q := a / b in
  let r := a mod b in
  if 2 * r <? b then q else if b <? 2 * r then q + 1 else if Z.even q then q else q + 1.

(** Six significant digits and their exponent. *)
Definition six_digits (num den : Z) : Z * Z :=
  let x := exponent num den in
  let s := 5 - x in
  let d := if 0 <=? s then round_half_even (num * 10 ^ s) den
           else round_half_even num (den * 10 ^ (- s)) in
  if d =? 1000000 then (100000, x + 1) else (d, x).

Fixpoint strip_zeros (s : bytes) : bytes :=
  match s with
  | [] => []
  | c :: s' =>
      match strip_zeros s' with
      | [] => if Ascii.eqb c "0" then [] else [c]
      | s'' => c :: s''
      end
  end.

Definition with_fraction (int_part frac : bytes) : bytes :=
  match strip_zeros frac with [] => int_part | f => int_part ++ lit "." ++ f end.

(** At least two digits, with a sign. *)
Definition print_exponent (x : Z) : bytes :=
  lit "e" ++ (if x <? 0 then lit "-" else lit "+")
    ++ (if Z.abs x <? 10 then lit "0" else []) ++ Utils.to_string (Z.abs x).

Definition print_positive (m : positive) (e : Z) : bytes :=
  let '(num, den) := fraction m e in
  let '(d, x) := six_digits num den in
  let ds := Utils.to_string d in
  if (x <? -4) || (6 <=? x) then with_fraction (take 1 ds) (drop 1 ds) ++ print_exponent x
  else if 0 <=? x then with_fraction (take (Z.to_nat x + 1) ds) (drop (Z.to_nat x + 1) ds)
  else with_fraction (lit "0") (replicate (Z.to_nat (- x - 1)) "0"%char ++ ds).

(** [operator<<(ostream&, double)] *)
Definition print (x : double) : bytes :=
  match x with
  | S754_zero s => if s then lit "-0" else lit "0"
  | S754_infinity s => if s then lit "-inf" else lit "inf"
  | S754_nan => lit "nan"
  | S754_finite s m e => (if s then lit "-" else []) ++ print_positive m e
  end.

Example print_third : print (div (of_int 10) (of_int 3)) = lit "3.33333".
Proof. vm_compute. reflexivity. Qed.
Example print_half : print (div (of_int 7) (of_int 2)) = lit "3.5".
Proof. vm_compute. reflexivity. Qed.
Example print_large : print (div (of_int 1234567) (of_int 1)) = lit "1.23457e+06".
Proof. vm_compute. reflexivity. Qed.
Example print_small : print (div (of_int 1) (of_int 80000)) = lit "1.25e-05".
Proof. vm_compute. reflexivity. Qed.
Example print_carry : print (div (of_int 9999996) (of_int 10)) = lit "1e+06".
Proof. vm_compute. reflexivity. Qed.

End Double.
