(* ===== verification/Float64.v ===== *)
(** * Float64: rounding of the [double] operations

    The Standard Library's [SpecFloat] gives the result of an operation by shifting
    a significand and rounding it to the nearest even.  Here: the result of an
    addition, subtraction, multiplication or division of non-negative numbers lies
    on the same side of every representable number as the exact result, and is
    within one part in 2^52 of it.  Values are integers scaled by 2^[K]. *)

From Stdlib Require Import SpecFloat.
From S2P Require Import Prelude Double.

Module Float64.
Import Double.
Open Scope Z_scope.

Notation fexp := (SpecFloat.fexp 53 1024).
Notation round_aux := (binary_round_aux 53 1024 false).

Lemma fexp_eq e : fexp e = Z.max (e - 53) (-1074).
Proof. reflexivity. Qed.

(** ** Digits *)

Lemma digits2_pos_bounds m : 2 ^ (Zpos (digits2_pos m) - 1) <= Zpos m < 2 ^ Zpos (digits2_pos m).
Proof.
  induction m as [m IH|m IH|]; cbn [digits2_pos]; [..|done].
  all: rewrite Pos2Z.inj_succ.
  all: replace (Z.succ (Zpos (digits2_pos m)) - 1) with (Z.succ (Zpos (digits2_pos m) - 1)) by lia.
  all: rewrite !Z.pow_succ_r by lia.
  - rewrite (Pos2Z.inj_xI m). lia.
  - rewrite (Pos2Z.inj_xO m). lia.
Qed.

Lemma Zdigits2_bounds m : 0 < m -> 2 ^ (Zdigits2 m - 1) <= m < 2 ^ Zdigits2 m /\ 0 < Zdigits2 m.
Proof. destruct m as [|m|m]; try lia. intros _. split; [apply digits2_pos_bounds|done]. Qed.

Lemma Zdigits2_unique m d : 0 < d -> 2 ^ (d - 1) <= m < 2 ^ d -> Zdigits2 m = d.
Proof.
  intros Hd [H1 H2]. assert (0 < 2 ^ (d - 1)) by (apply Z.pow_pos_nonneg; lia).
  destruct (Zdigits2_bounds m ltac:(lia)) as [[H3 H4] H5].
  destruct (Z.lt_trichotomy (Zdigits2 m) d) as [Hl|[|Hl]]; [exfalso|done|exfalso].
  - assert (2 ^ Zdigits2 m <= 2 ^ (d - 1)) by (apply Z.pow_le_mono_r; lia). lia.
  - assert (2 ^ d <= 2 ^ (Zdigits2 m - 1)) by (apply Z.pow_le_mono_r; lia). lia.
Qed.

Lemma Zdigits2_le m d : 0 < m -> m < 2 ^ d -> Zdigits2 m <= d.
Proof.
  intros Hm Hd. destruct (Zdigits2_bounds m Hm) as [[H1 H2] H3].
  destruct (Z.le_gt_cases (Zdigits2 m) d); [done|exfalso].
  assert (2 ^ d <= 2 ^ (Zdigits2 m - 1)) by (apply Z.pow_le_mono_r; lia). lia.
Qed.

(** ** Shifting right *)

Definition inexact (x : shr_record) : bool := shr_r x || shr_s x.

Definition inexact_loc (l : location) : bool := match l with loc_Exact => false | _ => true end.

Lemma shr_1_spec x :
  0 <= shr_m x ->
  shr_m (shr_1 x) = shr_m x / 2 /\ inexact (shr_1 x) = Z.odd (shr_m x) || inexact x.
Proof.
  destruct x as [m r s]. simpl. intros Hm. rewrite <- Z.div2_div.
  destruct m as [|[p|p|]|p]; simpl; try lia; split; try done.
Qed.

Lemma iter_pos_nat {A} (f : A -> A) p x : SpecFloat.iter_pos f p x = Nat.iter (Pos.to_nat p) f x.
Proof.
  revert x; induction p as [p IH|p IH|]; intros x; cbn [SpecFloat.iter_pos]; [..|done].
  - replace (Pos.to_nat p~1) with (S (Pos.to_nat p + Pos.to_nat p)) by lia.
    by rewrite !IH, Nat.iter_succ_r, Nat.iter_add.
  - replace (Pos.to_nat p~0) with (Pos.to_nat p + Pos.to_nat p)%nat by lia. by rewrite !IH, Nat.iter_add.
Qed.

Lemma shr_iter k x :
  0 <= shr_m x ->
  shr_m (Nat.iter k shr_1 x) = shr_m x / 2 ^ Z.of_nat k /\
  inexact (Nat.iter k shr_1 x) = inexact x || negb (shr_m x mod 2 ^ Z.of_nat k =? 0).
Proof.
  intros Hx. induction k as [|k IH].
  - simpl. rewrite Z.div_1_r, Z.mod_1_r. by rewrite orb_false_r.
  - destruct IH as [IH1 IH2].
    assert (Hp : 0 < 2 ^ Z.of_nat k) by (apply Z.pow_pos_nonneg; lia).
    change (Nat.iter (S k) shr_1 x) with (shr_1 (Nat.iter k shr_1 x)).
    destruct (shr_1_spec (Nat.iter k shr_1 x)) as [H1 H2].
    { rewrite IH1. by apply Z.div_pos. }
    rewrite Nat2Z.inj_succ, Z.pow_succ_r, (Z.mul_comm 2) by lia. split.
    + rewrite H1, IH1. by rewrite Z.div_div by lia.
    + rewrite H2, IH1, IH2. rewrite Z.rem_mul_r by lia. rewrite Zmod_odd.
      destruct (inexact x); [by rewrite orb_true_r|]. simpl.
      pose proof (Z.mod_pos_bound (shr_m x) (2 ^ Z.of_nat k) Hp).
      destruct (Z.odd (shr_m x / 2 ^ Z.of_nat k)); simpl.
      * symmetry. apply negb_true_iff, Z.eqb_neq. lia.
      * by rewrite Z.mul_0_r, Z.add_0_r.
Qed.

Lemma shr_fexp_spec m e l :
  0 <= m -> e <= fexp (Zdigits2 m + e) ->
  exists y, shr_fexp 53 1024 m e l = (y, fexp (Zdigits2 m + e)) /\
    let n := fexp (Zdigits2 m + e) - e in
    shr_m y = m / 2 ^ n /\ inexact y = inexact_loc l || negb (m mod 2 ^ n =? 0).
Proof.
  intros Hm He. unfold shr_fexp, shr.
  assert (Hrec : shr_m (shr_record_of_loc m l) = m /\ inexact (shr_record_of_loc m l) = inexact_loc l)
    by (destruct l as [|[]]; done).
  destruct Hrec as [Hr1 Hr2].
  destruct (fexp (Zdigits2 m + e) - e) as [|p|p] eqn:En; [..|lia].
  - exists (shr_record_of_loc m l). rewrite Z.div_1_r, Z.mod_1_r, Hr1, Hr2, orb_false_r.
    split; [f_equal; lia|done].
  - eexists. split; [f_equal; lia|]. rewrite iter_pos_nat.
    destruct (shr_iter (Pos.to_nat p) (shr_record_of_loc m l)) as [H1 H2]; [by rewrite Hr1|].
    rewrite positive_nat_Z, Hr1 in H1. rewrite positive_nat_Z, Hr1, Hr2 in H2. done.
Qed.

Lemma round_nearest_even_spec y :
  let m := round_nearest_even (shr_m y) (loc_of_shr_record y) in
  shr_m y <= m <= shr_m y + 1 /\ (inexact y = false -> m = shr_m y).
Proof.
  destruct y as [m [] []]; simpl; split; try done; try lia.
  all: destruct (Z.even m); lia.
Qed.

(** ** Rounding *)

Definition canonical (p : positive) (x : Z) : Prop := fexp (Zpos (digits2_pos p) + x) = x.

Lemma quotient_bounds m e :
  0 < m -> e <= fexp (Zdigits2 m + e) ->
  let E := fexp (Zdigits2 m + e) in
  let q := m / 2 ^ (E - e) in
  0 <= q < 2 ^ 53 /\ (-1074 < E -> 2 ^ 52 <= q /\ E = Zdigits2 m + e - 53).
Proof.
  intros Hm He E q. assert (Hp : 0 < 2 ^ (E - e)) by (apply Z.pow_pos_nonneg; unfold E; lia).
  destruct (Zdigits2_bounds m Hm) as [[H1 H2] H3].
  assert (HE : E = Z.max (Zdigits2 m + e - 53) (-1074)) by done.
  split; [split|].
  - apply Z.div_pos; lia.
  - apply Z.div_lt_upper_bound; [done|]. rewrite <- Z.pow_add_r by lia.
    eapply Z.lt_le_trans; [exact H2|]. apply Z.pow_le_mono_r; lia.
  - intros HE'. split; [|lia]. apply Z.div_le_lower_bound; [done|].
    rewrite <- Z.pow_add_r by lia. replace (E - e + 52) with (Zdigits2 m - 1) by lia. done.
Qed.

Lemma canonical_digits p x : canonical p x -> -1074 <= x /\ Zpos p < 2 ^ 53 /\ (-1074 < x -> 2 ^ 52 <= Zpos p).
Proof.
  unfold canonical. rewrite fexp_eq. intros Hx. destruct (digits2_pos_bounds p) as [H1 H2]. split_and!; [lia|..].
  - eapply Z.lt_le_trans; [exact H2|]. apply Z.pow_le_mono_r; lia.
  - intros Hx'. replace (Zpos (digits2_pos p) - 1) with 52 in H1 by lia. done.
Qed.

Lemma round_aux_spec m e l :
  0 < m -> e <= fexp (Zdigits2 m + e) ->
  let E := fexp (Zdigits2 m + e) in
  let q := m / 2 ^ (E - e) in
  exists mr, q <= mr <= q + 1 /\ (inexact_loc l = false -> m mod 2 ^ (E - e) = 0 -> mr = q) /\
    ((mr = 0 /\ round_aux m e l = S754_zero false) \/
     exists p x, canonical p x /\ E <= x /\ Zpos p * 2 ^ (x - E) = mr /\
       round_aux m e l = if x <=? 971 then S754_finite false p x else S754_infinity false).
Proof.
  intros Hm He E q. unfold binary_round_aux.
  destruct (shr_fexp_spec m e l ltac:(lia) He) as (y & -> & Hy1 & Hy2). fold E in Hy1, Hy2 |- *. fold q in Hy1.
  destruct (round_nearest_even_spec y) as [Hr1 Hr2].
  set (mr := round_nearest_even (shr_m y) (loc_of_shr_record y)) in *. rewrite Hy1 in Hr1, Hr2.
  destruct (quotient_bounds m e Hm He) as [Hq Hq']. fold E in Hq, Hq'. fold q in Hq, Hq'.
  exists mr. split; [done|]. split.
  { intros Hl Hz. apply Hr2. rewrite Hy2, Hl, Hz. done. }
  assert (HE : -1074 <= E) by (unfold E; rewrite fexp_eq; lia).
  assert (Hd : mr < 2 ^ 53 -> fexp (Zdigits2 mr + E) = E).
  { intros Hlt. rewrite fexp_eq. destruct (Z.eq_dec mr 0) as [Hz|Hz].
    - assert (E = -1074) as -> by (destruct (Z.eq_dec E (-1074)); [done|]; lia). by rewrite Hz.
    - assert (Zdigits2 mr <= 53) by (apply Zdigits2_le; lia).
      destruct (Z.eq_dec E (-1074)) as [->|Hne]; [lia|].
      assert (Zdigits2 mr = 53) as -> by (apply Zdigits2_unique; lia). lia. }
  destruct (Z.eq_dec mr (2 ^ 53)) as [Ht|Ht].
  - rewrite Ht. right. exists (2 ^ 52)%positive, (E + 1).
    assert (HE1 : fexp (Zdigits2 (2 ^ 53) + E) = E + 1) by (rewrite fexp_eq; change (Zdigits2 (2 ^ 53)) with 54; lia).
    destruct (shr_fexp_spec (2 ^ 53) E loc_Exact ltac:(lia) ltac:(lia)) as (y2 & -> & Hy3 & _).
    rewrite HE1 in *. replace (E + 1 - E) with 1 in * by lia.
    change (2 ^ 53 / 2 ^ 1) with (Zpos (2 ^ 52)) in Hy3. rewrite Hy3.
    split_and!; [|lia|done|done]. unfold canonical. rewrite fexp_eq.
    change (Zpos (digits2_pos (2 ^ 52))) with 53. lia.
  - specialize (Hd ltac:(lia)).
    destruct (shr_fexp_spec mr E loc_Exact ltac:(lia) ltac:(lia)) as (y2 & -> & Hy3 & _).
    rewrite Hd in *. rewrite Z.sub_diag, Z.div_1_r in Hy3. rewrite Hy3.
    destruct mr as [|p|p] eqn:Emr; [by left| |lia]. right. exists p, E.
    split_and!; [done|lia|by rewrite Z.sub_diag, Z.mul_1_r|done].
Qed.

(** ** Non-negative numbers and their scaled values *)

Definition K : Z := 3000.

(** Zero or a positive finite number in canonical form. *)
Definition nonneg (x : double) : bool :=
  match x with S754_zero s => negb s | S754_finite s p e => negb s && bounded 53 1024 p e | _ => false end.

Definition val (x : double) : Z := match x with S754_finite _ p e => Zpos p * 2 ^ (e + K) | _ => 0 end.

Lemma nonneg_inv x :
  nonneg x = true -> x = S754_zero false \/ exists p e, x = S754_finite false p e /\ canonical p e /\ e <= 971.
Proof.
  destruct x as [[]|[]| |[] p e]; simpl; try done; [by left|]. intros [H1%Z.eqb_eq H2%Z.leb_le]%andb_true_iff.
  right. by exists p, e.
Qed.

Lemma nonneg_finite p e : nonneg (S754_finite false p e) = true <-> canonical p e /\ e <= 971.
Proof. simpl. unfold bounded, canonical_mantissa, canonical. rewrite andb_true_iff, Z.eqb_eq, Z.leb_le. done. Qed.

Lemma val_nonneg x : 0 <= val x.
Proof. destruct x; simpl; lia. Qed.

Lemma pow_pos z : 0 <= z -> 0 < 2 ^ z.
Proof. intros. by apply Z.pow_pos_nonneg. Qed.

Lemma pow_split a b : 0 <= b <= a -> 2 ^ a = 2 ^ (a - b) * 2 ^ b.
Proof. intros. rewrite <- Z.pow_add_r by lia. f_equal. lia. Qed.

(** A canonical number below another one's exponent is smaller. *)
Lemma canonical_lt p e q x : canonical p e -> 2 ^ 52 <= q -> e < x -> Zpos p * 2 ^ (e + K) < q * 2 ^ (x + K).
Proof.
  unfold K. intros Hp Hq Hx. destruct (canonical_digits p e Hp) as (He & Hlt & _).
  assert (0 < 2 ^ (e + 3000)) by (apply pow_pos; lia).
  assert (2 ^ (e + 3000 + 1) <= 2 ^ (x + 3000)) by (apply Z.pow_le_mono_r; lia).
  rewrite Z.pow_add_r in * by lia. nia.
Qed.

Section Round.
Context (m e : Z) (l : location) (Hm : 0 < m) (He : e <= fexp (Zdigits2 m + e)) (HK : -K <= e).

Let E := fexp (Zdigits2 m + e).
Let q := m / 2 ^ (E - e).
Let exact := m * 2 ^ (e + K).

Lemma scale_E : 2 ^ (E + K) = 2 ^ (E - e) * 2 ^ (e + K).
Proof. unfold E, K in *. rewrite <- Z.pow_add_r by lia. f_equal. lia. Qed.

Lemma quotient_scaled : q * 2 ^ (E + K) <= exact /\ (m + 1) * 2 ^ (e + K) <= (q + 1) * 2 ^ (E + K).
Proof.
  unfold exact. rewrite scale_E.
  assert (0 < 2 ^ (E - e)) by (apply pow_pos; unfold E; lia).
  assert (0 < 2 ^ (e + K)) by (apply pow_pos; lia).
  pose proof (Z.div_mod m (2 ^ (E - e)) ltac:(lia)) as Hdm. pose proof (Z.mod_pos_bound m (2 ^ (E - e)) ltac:(lia)).
  fold q in Hdm. nia.
Qed.

(** Where the result lies: at the quotient or one above. *)
Lemma round_value :
  exists mr, q <= mr <= q + 1 /\ (inexact_loc l = false -> m mod 2 ^ (E - e) = 0 -> mr = q) /\
    ((nonneg (round_aux m e l) = true /\ val (round_aux m e l) = mr * 2 ^ (E + K)) \/
     (exists p x, canonical p x /\ 971 < x /\ Zpos p * 2 ^ (x + K) = mr * 2 ^ (E + K) /\
        round_aux m e l = S754_infinity false)).
Proof.
  destruct (round_aux_spec m e l Hm He) as (mr & H1 & H2 & H3). exists mr. split; [exact H1|split; [exact H2|]].
  destruct H3 as [[-> ->]|(p & x & Hc & Hx & <- & ->)]; [by left|].
  assert (HE : -1074 <= E) by (unfold E; rewrite fexp_eq; lia).
  assert (Hv : Zpos p * 2 ^ (x + K) = Zpos p * 2 ^ (x - E) * 2 ^ (E + K)).
  { unfold K. rewrite (pow_split (x + 3000) (E + 3000)) by (unfold E in *; lia).
    replace (x + 3000 - (E + 3000)) with (x - E) by lia. lia. }
  destruct (Z.leb_spec x 971); [left|right].
  - rewrite nonneg_finite. split; [done|]. exact Hv.
  - by exists p, x.
Qed.

(** A representable number at or above the exact result is at or above the rounded one. *)
Lemma round_upper z :
  nonneg z = true -> (if inexact_loc l then exact < val z else exact <= val z) ->
  nonneg (round_aux m e l) = true /\ val (round_aux m e l) <= val z.
Proof.
  intros Hz Hle. destruct (nonneg_inv z Hz) as [->|(pz & ez & -> & Hcz & Hez)]; simpl in Hle |- *.
  { assert (0 < 2 ^ (e + K)) by (apply pow_pos; lia). unfold exact in Hle. destruct (inexact_loc l); nia. }
  destruct round_value as (mr & H1 & H2 & H3).
  assert (Hmr : mr * 2 ^ (E + K) <= Zpos pz * 2 ^ (ez + K)).
  { destruct (Z.le_gt_cases E ez) as [Hge|Hlt].
    - assert (HE : -1074 <= E) by (unfold E; rewrite fexp_eq; lia).
      assert (Hs : Zpos pz * 2 ^ (ez + K) = Zpos pz * 2 ^ (ez - E) * 2 ^ (E + K)).
      { unfold K. rewrite (pow_split (ez + 3000) (E + 3000)) by lia.
        replace (ez + 3000 - (E + 3000)) with (ez - E) by lia. lia. }
      rewrite Hs in *. set (c := Zpos pz * 2 ^ (ez - E)) in *. clearbody c.
      assert (HP : 0 < 2 ^ (e + K)) by (apply pow_pos; lia).
      assert (HN : 0 < 2 ^ (E - e)) by (apply pow_pos; unfold E; lia).
      unfold exact in Hle. rewrite scale_E in Hle |- *.
      assert (Hle' : m + (if inexact_loc l then 1 else 0) <= c * 2 ^ (E - e)) by (destruct (inexact_loc l); nia).
      apply Z.mul_le_mono_nonneg_r; [nia|]. destruct (Z.le_gt_cases mr c) as [|Hgt]; [done|exfalso].
      pose proof (Z.div_mod m (2 ^ (E - e)) ltac:(lia)) as Hdm. fold q in Hdm.
      pose proof (Z.mod_pos_bound m (2 ^ (E - e)) ltac:(lia)).
      destruct (inexact_loc l); [nia|]. assert (m mod 2 ^ (E - e) = 0) by nia.
      rewrite H2 in Hgt by done. nia.
    - destruct (quotient_bounds m e Hm He) as [_ Hq]. fold E in Hq. fold q in Hq.
      destruct (canonical_digits pz ez Hcz) as [Hez' _]. destruct Hq as [Hq _]; [lia|].
      pose proof (canonical_lt pz ez q E Hcz Hq Hlt). destruct quotient_scaled as [Hqs _]. unfold exact in Hqs.
      assert (0 < 2 ^ (e + K)) by (apply pow_pos; lia). destruct (inexact_loc l); lia. }
  destruct H3 as [[Hn Hv]|(p & x & Hc & Hx & Hv & Hr)]; [split; [done|lia]|exfalso].
  destruct (canonical_digits p x Hc) as (_ & _ & Hp). specialize (Hp ltac:(lia)).
  pose proof (canonical_lt pz ez (Zpos p) x Hcz Hp ltac:(lia)). lia.
Qed.

(** A representable number at or below the exact result is at or below the rounded one. *)
Lemma round_lower z :
  nonneg z = true -> nonneg (round_aux m e l) = true -> val z < (m + 1) * 2 ^ (e + K) ->
  val z <= val (round_aux m e l).
Proof.
  intros Hz Hr Hle. destruct (nonneg_inv z Hz) as [->|(pz & ez & -> & Hcz & Hez)]; [apply val_nonneg|].
  simpl in Hle |- *. destruct round_value as (mr & H1 & H2 & H3).
  destruct H3 as [[Hn ->]|(p & x & _ & _ & _ & Hi)]; [|by rewrite Hi in Hr].
  assert (HE : -1074 <= E) by (unfold E; rewrite fexp_eq; lia).
  destruct (Z.le_gt_cases E ez) as [Hge|Hlt].
  - assert (HP : 0 < 2 ^ (e + K)) by (apply pow_pos; lia).
    assert (HN : 0 < 2 ^ (E - e)) by (apply pow_pos; unfold E; lia).
    assert (Hs : 2 ^ (ez + K) = 2 ^ (ez - E) * 2 ^ (E + K)).
    { unfold K. rewrite (pow_split (ez + 3000) (E + 3000)) by lia. do 2 f_equal. lia. }
    rewrite Hs, scale_E in *. set (c := 2 ^ (ez - E)) in *.
    assert (Zpos pz * c <= q); [|nia]. apply Z.div_le_lower_bound; [done|]. nia.
  - destruct (quotient_bounds m e Hm He) as [_ Hq]. fold E in Hq. fold q in Hq.
    destruct (canonical_digits pz ez Hcz) as [Hez' _]. destruct Hq as [Hq _]; [lia|].
    pose proof (canonical_lt pz ez q E Hcz Hq Hlt).
    assert (0 < 2 ^ (E + K)) by (apply pow_pos; unfold K; lia). nia.
Qed.

(** The relative error of a result in the normal range. *)
Lemma round_error :
  nonneg (round_aux m e l) = true -> 2 ^ (K - 1022) <= exact ->
  2 ^ 52 * val (round_aux m e l) <= (2 ^ 52 + 1) * exact /\
  2 ^ 52 * ((m + 1) * 2 ^ (e + K)) - exact <= 2 ^ 52 * val (round_aux m e l).
Proof.
  intros Hr Hn. destruct round_value as (mr & H1 & H2 & H3).
  destruct H3 as [[_ ->]|(p & x & _ & _ & _ & Hi)]; [|by rewrite Hi in Hr].
  destruct quotient_scaled as [Hq1 Hq2]. destruct (quotient_bounds m e Hm He) as [Hq Hq'].
  fold E in Hq, Hq'. fold q in Hq, Hq'.
  assert (HE : -1074 <= E) by (unfold E; rewrite fexp_eq; lia).
  assert (HEK : 0 < 2 ^ (E + K)) by (apply pow_pos; unfold K; lia).
  assert (Hbig : 2 ^ 52 <= q).
  { destruct (Z.eq_dec E (-1074)) as [HE'|]; [|apply Hq'; lia].
    destruct (Z.le_gt_cases (2 ^ 52) q) as [|Hlt]; [done|exfalso].
    assert (2 ^ (K - 1022) = 2 ^ 52 * 2 ^ (E + K)) by (rewrite HE'; unfold K; by rewrite <- Z.pow_add_r by lia).
    assert ((q + 1) * 2 ^ (E + K) <= 2 ^ 52 * 2 ^ (E + K)) by nia.
    assert (0 < 2 ^ (e + K)) by (apply pow_pos; lia). unfold exact in Hn. nia. }
  nia.
Qed.

End Round.

(** ** Faithful results *)

(** [x] is a faithful rounding of the exact value [num / den], scaled. *)
Record rounds (num den : Z) (x : double) : Prop := {
  rounds_upper z : nonneg z = true -> num <= val z * den -> nonneg x = true /\ val x <= val z;
  rounds_lower z : nonneg z = true -> nonneg x = true -> val z * den <= num -> val z <= val x;
  rounds_error : nonneg x = true -> 2 ^ (K - 1022) * den <= num ->
    2 ^ 52 * (val x * den) <= (2 ^ 52 + 1) * num /\ (2 ^ 52 - 1) * num <= 2 ^ 52 * (val x * den)
}.

Lemma rounds_exact x num den : nonneg x = true -> 0 < den -> num = val x * den -> rounds num den x.
Proof.
  intros Hx Hd ->. split.
  - intros z Hz Hle. split; [done|]. nia.
  - intros z Hz _ Hle. nia.
  - intros _ _. pose proof (val_nonneg x). nia.
Qed.

(** A faithful rounding of a representable value is that value. *)
Lemma rounds_representable x z den : 0 < den -> nonneg z = true -> rounds (val z * den) den x -> nonneg x = true /\ val x = val z.
Proof.
  intros Hd Hz [Hu Hl _]. destruct (Hu z Hz ltac:(lia)) as [Hx H1]. split; [done|].
  specialize (Hl z Hz Hx ltac:(lia)). lia.
Qed.

Lemma rounds_round_aux m e num den :
  0 < m -> e <= fexp (Zdigits2 m + e) -> -K <= e -> 0 < den -> num = m * 2 ^ (e + K) * den ->
  rounds num den (round_aux m e loc_Exact).
Proof.
  intros Hm He HK Hd ->. assert (HP : 0 < 2 ^ (e + K)) by (apply pow_pos; lia). split.
  - intros z Hz Hle. apply round_upper; try done. simpl. nia.
  - intros z Hz Hx Hle. apply round_lower; try done. nia.
  - intros Hx Hn. destruct (round_error m e loc_Exact Hm He HK Hx) as [H1 H2]; [nia|].
    set (r := val _) in *. set (P := 2 ^ (e + K)) in *. set (B := 2 ^ 52) in *. assert (0 < B) by done. nia.
Qed.

Lemma iter_xO p d : Zpos (Pos.iter xO p d) = Zpos p * 2 ^ Zpos d.
Proof.
  induction d as [|d IH] using Pos.peano_ind; [simpl; lia|].
  rewrite Pos.iter_succ, (Pos2Z.inj_xO (Pos.iter _ _ _)), IH, Pos2Z.inj_succ, Z.pow_succ_r by lia. lia.
Qed.

Lemma shl_align_spec p e e' :
  let '(pz, ez) := shl_align p e e' in ez = Z.min e e' /\ Zpos pz = Zpos p * 2 ^ (e - ez).
Proof.
  unfold shl_align. destruct (e' - e) as [|d|d] eqn:Ed.
  - split; [lia|]. rewrite Z.sub_diag. lia.
  - split; [lia|]. rewrite Z.sub_diag. lia.
  - split; [lia|]. rewrite iter_xO. do 2 f_equal. lia.
Qed.

Lemma Zdigits2_shift m k : 0 < m -> 0 <= k -> Zdigits2 (m * 2 ^ k) = Zdigits2 m + k.
Proof.
  intros Hm Hk. destruct (Zdigits2_bounds m Hm) as [[H1 H2] H3]. assert (0 < 2 ^ k) by (by apply pow_pos).
  apply Zdigits2_unique; [lia|]. replace (Zdigits2 m + k - 1) with (Zdigits2 m - 1 + k) by lia.
  rewrite !Z.pow_add_r by lia. nia.
Qed.

Lemma rounds_normalize m e num den :
  0 < m -> -K <= e -> 0 < den -> num = m * 2 ^ (e + K) * den ->
  rounds num den (binary_normalize 53 1024 m e false).
Proof.
  intros Hm He Hd ->. destruct m as [|m|m]; try lia. simpl. unfold binary_round.
  pose proof (shl_align_spec m e (fexp (Zpos (digits2_pos m) + e))) as Ha.
  destruct (shl_align _ _ _) as [pz ez]. destruct Ha as [-> Hz].
  set (ez := Z.min _ _) in *. assert (-K <= ez) by (unfold ez, K in *; rewrite fexp_eq; lia).
  apply rounds_round_aux; [done| |done|done|].
  - rewrite Hz, Zdigits2_shift by (unfold ez; lia). simpl Zdigits2.
    replace (Zpos (digits2_pos m) + (e - ez) + ez) with (Zpos (digits2_pos m) + e) by lia. unfold ez. lia.
  - rewrite Hz. rewrite (pow_split (e + K) (ez + K)) by (unfold ez in *; lia).
    replace (e + K - (ez + K)) with (e - ez) by lia. lia.
Qed.

(** ** The operations *)

Lemma of_int_rounds n : 0 <= n -> rounds (n * 2 ^ K) 1 (of_int n).
Proof.
  intros Hn. destruct (Z.eq_dec n 0) as [->|]; [by apply rounds_exact|].
  apply rounds_normalize; unfold K; lia.
Qed.

(** The significands of two numbers brought to the smaller exponent. *)
Lemma aligned p e e' :
  canonical p e -> -1074 <= e' ->
  Zpos (shl_align p e (Z.min e e')).1 * 2 ^ (Z.min e e' + K) = Zpos p * 2 ^ (e + K).
Proof.
  intros Hc He'. destruct (canonical_digits p e Hc) as [He _].
  pose proof (shl_align_spec p e (Z.min e e')) as Ha. destruct (shl_align _ _ _) as [pz ez].
  destruct Ha as [Hez Hz]. simpl. rewrite Hz. replace ez with (Z.min e e') by lia. unfold K.
  rewrite (pow_split (e + 3000) (Z.min e e' + 3000)) by lia.
  replace (e + 3000 - (Z.min e e' + 3000)) with (e - Z.min e e') by lia. lia.
Qed.

Lemma add_rounds x y : nonneg x = true -> nonneg y = true -> rounds (val x + val y) 1 (add x y).
Proof.
  intros Hx Hy.
  destruct (nonneg_inv x Hx) as [->|(p & e & -> & Hp & He)]; destruct (nonneg_inv y Hy) as [->|(q & f & -> & Hq & Hf)].
  1-3: apply rounds_exact; simpl; try done; simpl; lia.
  destruct (canonical_digits p e Hp) as [He' _], (canonical_digits q f Hq) as [Hf' _].
  pose proof (aligned p e f Hp Hf') as H1. pose proof (aligned q f e Hq He') as H2. rewrite (Z.min_comm f e) in H2.
  unfold add. cbn [SFadd cond_Zopp val]. apply rounds_normalize; unfold K in *; lia.
Qed.

Lemma sub_rounds x y :
  nonneg x = true -> nonneg y = true -> val y <= val x -> rounds (val x - val y) 1 (sub x y).
Proof.
  intros Hx Hy Hle.
  destruct (nonneg_inv x Hx) as [->|(p & e & -> & Hp & He)]; destruct (nonneg_inv y Hy) as [->|(q & f & -> & Hq & Hf)].
  1,3: apply rounds_exact; simpl; try done; simpl; lia.
  { exfalso. destruct (canonical_digits q f Hq) as [Hf' _]. simpl in Hle.
    assert (0 < 2 ^ (f + K)) by (apply pow_pos; unfold K; lia). lia. }
  destruct (canonical_digits p e Hp) as [He' _], (canonical_digits q f Hq) as [Hf' _].
  pose proof (aligned p e f Hp Hf') as H1. pose proof (aligned q f e Hq He') as H2. rewrite (Z.min_comm f e) in H2.
  unfold sub. cbn [SFsub cond_Zopp val] in Hle |- *. set (a := (shl_align p e (Z.min e f)).1) in *. set (b := (shl_align q f (Z.min e f)).1) in *.
  assert (HP : 0 < 2 ^ (Z.min e f + K)) by (apply pow_pos; unfold K; lia).
  destruct (Z.eq_dec (Zpos a - Zpos b) 0) as [Hz|Hz].
  - rewrite Hz. apply rounds_exact; [done|done|]. simpl. nia.
  - apply rounds_normalize; [nia|unfold K in *; lia|done|]. nia.
Qed.

Lemma mul_rounds x y : nonneg x = true -> nonneg y = true -> rounds (val x * val y) (2 ^ K) (mul x y).
Proof.
  intros Hx Hy.
  destruct (nonneg_inv x Hx) as [->|(p & e & -> & Hp & He)]; destruct (nonneg_inv y Hy) as [->|(q & f & -> & Hq & Hf)].
  1-3: apply rounds_exact; [done|done|cbn [val mul SFmul]; lia].
  destruct (canonical_digits p e Hp) as (He' & _ & Hp'), (canonical_digits q f Hq) as (Hf' & _ & Hq').
  unfold mul. cbn [SFmul xorb]. apply rounds_round_aux; [done| |unfold K; lia|by apply pow_pos|].
  - rewrite fexp_eq. destruct (Z.eq_dec e (-1074)) as [->|He1], (Z.eq_dec f (-1074)) as [->|Hf1]; try lia.
    all: enough (53 <= Zdigits2 (Zpos (p * q))) by lia.
    all: destruct (Z.le_gt_cases 53 (Zdigits2 (Zpos (p * q)))) as [|Hlt]; [done|exfalso].
    all: destruct (Zdigits2_bounds (Zpos (p * q)) ltac:(lia)) as [[_ Hb] _].
    all: assert (2 ^ Zdigits2 (Zpos (p * q)) <= 2 ^ 52) by (apply Z.pow_le_mono_r; lia).
    all: assert (2 ^ 52 <= Zpos (p * q)) by (rewrite Pos2Z.inj_mul; first [specialize (Hp' ltac:(lia)); nia|specialize (Hq' ltac:(lia)); nia]).
    all: lia.
  - cbn [val]. rewrite Pos2Z.inj_mul.
    assert (Hk : 2 ^ (e + K) * 2 ^ (f + K) = 2 ^ (e + f + K) * 2 ^ K).
    { rewrite <- !Z.pow_add_r by (unfold K; lia). f_equal. lia. }
    replace (Zpos p * 2 ^ (e + K) * (Zpos q * 2 ^ (f + K))) with (Zpos p * Zpos q * (2 ^ (e + K) * 2 ^ (f + K))) by lia.
    rewrite Hk. lia.
Qed.

(** Comparisons look at the values. *)
Lemma compare_val x y : nonneg x = true -> nonneg y = true -> SFcompare x y = Some (val x ?= val y).
Proof.
  intros Hx Hy.
  destruct (nonneg_inv x Hx) as [->|(p & e & -> & Hp & He)]; destruct (nonneg_inv y Hy) as [->|(q & f & -> & Hq & Hf)].
  - done.
  - cbn [SFcompare val]. destruct (canonical_digits q f Hq) as (Hf' & _ & _).
    assert (0 < 2 ^ (f + K)) by (apply pow_pos; unfold K; lia). symmetry. f_equal. apply Z.compare_lt_iff. lia.
  - cbn [SFcompare val]. destruct (canonical_digits p e Hp) as (Hf' & _ & _).
    assert (0 < 2 ^ (e + K)) by (apply pow_pos; unfold K; lia). symmetry. f_equal. apply Z.compare_gt_iff. lia.
  - destruct (canonical_digits p e Hp) as (He' & _ & Hp'), (canonical_digits q f Hq) as (Hf' & _ & Hq').
    cbn [SFcompare val]. f_equal. destruct (Z.compare_spec e f) as [->|Hlt|Hgt].
    + change (Pos.compare_cont Eq p q) with (Zpos p ?= Zpos q).
      apply Zmult_compare_compat_r. apply Z.lt_gt, pow_pos. unfold K. lia.
    + symmetry. apply Z.compare_lt_iff. apply canonical_lt; [done|apply Hq'; lia|done].
    + symmetry. apply Z.compare_gt_iff. apply canonical_lt; [done|apply Hp'; lia|done].
Qed.

Lemma gtb_val x y : nonneg x = true -> nonneg y = true -> gtb x y = (val y <? val x).
Proof. intros Hx Hy. unfold gtb, SFltb, Z.ltb. by rewrite compare_val. Qed.

Lemma geb_val x y : nonneg x = true -> nonneg y = true -> geb x y = (val y <=? val x).
Proof. intros Hx Hy. unfold geb, SFleb, Z.leb. rewrite compare_val by done. by destruct (val y ?= val x). Qed.

(** ** Division *)

Lemma new_location_inexact n k : inexact_loc (new_location n k) = negb (k =? 0).
Proof. unfold new_location, new_location_even, new_location_odd. by destruct (Z.even n), (k =? 0). Qed.

(** The significand a division hands to the rounding. *)
Lemma div_core p e q f :
  -1021 <= Zpos (digits2_pos p) + e - (Zpos (digits2_pos q) + f) -> -1200 <= e - f ->
  exists m x r, SFdiv_core_binary 53 1024 (Zpos p) e (Zpos q) f = (m, x, new_location (Zpos q) r) /\
    0 < m /\ x <= fexp (Zdigits2 m + x) /\ -1200 <= x <= e - f /\ 0 <= r < Zpos q /\
    Zpos p * 2 ^ (e - f - x) = Zpos q * m + r.
Proof.
  intros Hd Hef. unfold SFdiv_core_binary. cbn [Zdigits2].
  set (dp := Zpos (digits2_pos p)) in *. set (dq := Zpos (digits2_pos q)) in *.
  set (x := Z.min _ _). assert (Hx : x = Z.min (Z.max (dp + e - (dq + f) - 53) (-1074)) (e - f)) by done. clearbody x.
  set (s := e - f - x) in *. assert (Hs : 0 <= s) by (unfold s; lia).
  assert (Hm' : match s with 0 => Zpos p | Zpos _ => Z.shiftl (Zpos p) s | Zneg _ => 0 end = Zpos p * 2 ^ s).
  { destruct s as [|k|k] eqn:Es; [simpl; lia|by rewrite Z.shiftl_mul_pow2 by lia|lia]. }
  rewrite Hm'. pose proof (Z_div_mod (Zpos p * 2 ^ s) (Zpos q) ltac:(lia)) as Hdm.
  destruct (Z.div_eucl _ _) as [m r]. destruct Hdm as [Hdm Hr].
  destruct (digits2_pos_bounds p) as [Hp _], (digits2_pos_bounds q) as [_ Hq]. fold dp in Hp. fold dq in Hq.
  assert (Hbig : 2 ^ 52 <= m).
  { destruct (Z.le_gt_cases (2 ^ 52) m) as [|Hlt]; [done|exfalso].
    assert (Zpos p * 2 ^ s < Zpos q * 2 ^ 52) by nia.
    assert (2 ^ (dq + 52) <= 2 ^ (dp - 1 + s)) by (apply Z.pow_le_mono_r; lia).
    rewrite !Z.pow_add_r in * by lia. assert (0 < 2 ^ s) by (by apply pow_pos). nia. }
  assert (53 <= Zdigits2 m).
  { destruct (Z.le_gt_cases 53 (Zdigits2 m)) as [|Hlt]; [done|exfalso].
    destruct (Zdigits2_bounds m ltac:(lia)) as [[_ Hb] _].
    assert (2 ^ Zdigits2 m <= 2 ^ 52) by (apply Z.pow_le_mono_r; lia). lia. }
  exists m, x, r. split_and!; try done; try lia. rewrite fexp_eq. lia.
Qed.

Lemma rounds_inexact m x l num den :
  0 < m -> x <= fexp (Zdigits2 m + x) -> -K <= x -> 0 < den -> 2 ^ (K - 1000) * den <= num ->
  (if inexact_loc l then m * 2 ^ (x + K) * den < num else m * 2 ^ (x + K) * den = num) ->
  num < (m + 1) * 2 ^ (x + K) * den -> rounds num den (round_aux m x l).
Proof.
  intros Hm Hx HK Hd Hn Hlo Hhi. assert (HP : 0 < 2 ^ (x + K)) by (apply pow_pos; lia).
  set (P := 2 ^ (x + K)) in *. split.
  - intros z Hz Hle. apply round_upper; try done. fold P. destruct (inexact_loc l); nia.
  - intros z Hz Hr Hle. apply round_lower; try done. fold P. nia.
  - intros Hr _. assert (Hn' : 2 ^ (K - 1022) <= m * P).
    { assert (2 ^ (K - 1000) = 2 ^ 22 * 2 ^ (K - 1022)) by done.
      assert (0 < 2 ^ (K - 1022)) by done. set (B := 2 ^ (K - 1022)) in *. set (A := 2 ^ (K - 1000)) in *.
      assert (A < (m + 1) * P) by nia. nia. }
    destruct (round_error m x l Hm Hx HK Hr Hn') as [H1 H2]. fold P in H1, H2.
    assert (Hle : m * P * den <= num) by (destruct (inexact_loc l); lia).
    set (r := val _) in *. set (B := 2 ^ 52) in *. assert (0 < B) by done. split; nia.
Qed.

Lemma div_rounds x y :
  nonneg x = true -> nonneg y = true -> 0 < val y < 2 ^ (K + 100) -> val y * 2 ^ (K - 1000) <= val x * 2 ^ K ->
  rounds (val x * 2 ^ K) (val y) (div x y).
Proof.
  intros Hx Hy Hy0 Hle.
  destruct (nonneg_inv y Hy) as [->|(q & f & -> & Hq & Hf)]; [simpl in Hy0; lia|].
  destruct (nonneg_inv x Hx) as [->|(p & e & -> & Hp & He)].
  { change (val (S754_zero false)) with 0 in Hle. assert (0 < 2 ^ (K - 1000)) by done. nia. }
  destruct (canonical_digits p e Hp) as (He' & _ & _), (canonical_digits q f Hq) as (Hf' & _ & _).
  cbn [val] in *. destruct (digits2_pos_bounds p) as [_ Hdp], (digits2_pos_bounds q) as [Hdq _].
  set (dp := Zpos (digits2_pos p)) in *. set (dq := Zpos (digits2_pos q)) in *.
  assert (Hf100 : f < 100).
  { destruct (Z.lt_ge_cases f 100) as [|Hge]; [done|exfalso].
    assert (2 ^ (K + 100) <= 2 ^ (f + K)) by (apply Z.pow_le_mono_r; lia). nia. }
  assert (Hdiff : -1021 <= dp + e - (dq + f)).
  { destruct (Z.le_gt_cases (-1021) (dp + e - (dq + f))) as [|Hlt]; [done|exfalso].
    assert (HK1 : 2 ^ (dp + (e + K + K)) <= 2 ^ (dq - 1 + (f + K + (K - 1000)))) by (apply Z.pow_le_mono_r; lia).
    assert (0 < dp /\ 0 < dq) as [? ?] by (unfold dp, dq; lia).
    rewrite !(Z.pow_add_r 2 dp), !(Z.pow_add_r 2 (dq - 1)) in HK1 by (unfold K; lia).
    assert (0 < 2 ^ (e + K + K)) by (apply pow_pos; unfold K; lia).
    assert (0 < 2 ^ (f + K + (K - 1000))) by (apply pow_pos; unfold K; lia).
    rewrite <- !Z.mul_assoc, <- !Z.pow_add_r in Hle by (unfold K; lia). nia. }
  destruct (div_core p e q f Hdiff ltac:(lia)) as (m & x & r & Hc & Hm & Hx' & Hxr & Hr & Hpm).
  unfold div. cbn [SFdiv xorb]. rewrite Hc.
  assert (HP : Zpos p * 2 ^ (e + K) * 2 ^ K = (Zpos q * m + r) * 2 ^ (x + f + 2 * K)).
  { rewrite <- Hpm, <- !Z.mul_assoc, <- !Z.pow_add_r by (unfold K; lia). do 2 f_equal. lia. }
  assert (HQ : forall n, n * 2 ^ (x + K) * (Zpos q * 2 ^ (f + K)) = n * Zpos q * 2 ^ (x + f + 2 * K)).
  { intros n. replace (x + f + 2 * K) with (x + K + (f + K)) by lia. rewrite (Z.pow_add_r 2 (x + K)) by (unfold K; lia). lia. }
  assert (0 < 2 ^ (x + f + 2 * K)) by (apply pow_pos; unfold K; lia).
  apply rounds_inexact; [done|done|unfold K; lia|lia|lia|..].
  - rewrite new_location_inexact, HQ, HP. destruct (Z.eqb_spec r 0) as [->|]; cbn [negb].
    + f_equal. lia.
    + apply Z.mul_lt_mono_pos_r; lia.
  - rewrite HQ, HP. apply Z.mul_lt_mono_pos_r; lia.
Qed.

(** ** Representable values *)

Lemma representable m e :
  0 <= m < 2 ^ 53 -> -1074 <= e <= 900 -> exists z, nonneg z = true /\ val z = m * 2 ^ (e + K).
Proof.
  intros Hm He. destruct m as [|m|m]; [by exists (S754_zero false)| |lia].
  assert (Hd : Zdigits2 (Zpos m) <= 53) by (apply Zdigits2_le; lia).
  set (x := fexp (Zdigits2 (Zpos m) + e)). assert (Hx : x = Z.max (Zdigits2 (Zpos m) + e - 53) (-1074)) by done.
  assert (0 < 2 ^ (e - x)) by (apply pow_pos; lia).
  assert (Hp : Zpos (Z.to_pos (Zpos m * 2 ^ (e - x))) = Zpos m * 2 ^ (e - x)) by (apply Z2Pos.id; lia).
  exists (S754_finite false (Z.to_pos (Zpos m * 2 ^ (e - x))) x). rewrite nonneg_finite. split_and!.
  - unfold canonical. change (Zpos (digits2_pos ?p)) with (Zdigits2 (Zpos p)).
    rewrite Hp, Zdigits2_shift by lia. replace (Zdigits2 (Zpos m) + (e - x) + x) with (Zdigits2 (Zpos m) + e) by lia.
    done.
  - lia.
  - cbn [val]. rewrite Hp, <- Z.mul_assoc, <- Z.pow_add_r by (unfold K; lia). do 2 f_equal. lia.
Qed.

(** Equal values have equal representations. *)
Lemma val_inj x y : nonneg x = true -> nonneg y = true -> val x = val y -> x = y.
Proof.
  intros Hx Hy E. pose proof (compare_val x y Hx Hy) as Hc. rewrite E, Z.compare_refl in Hc.
  destruct (nonneg_inv x Hx) as [->|(p & e & -> & _)], (nonneg_inv y Hy) as [->|(q & f & -> & _)]; try done.
  simpl in Hc. destruct (Z.compare_spec e f) as [->|?|?]; try done.
  injection Hc as Hc. apply Pos.compare_eq in Hc. by subst.
Qed.

(** Whole numbers below 2^53 are represented exactly. *)
Lemma of_int_exact n : 0 <= n < 2 ^ 53 -> nonneg (of_int n) = true /\ val (of_int n) = n * 2 ^ K.
Proof.
  intros Hn. destruct (representable n 0 Hn ltac:(lia)) as (z & Hz & Hv). rewrite Z.add_0_l in Hv.
  rewrite <- Hv. apply (rounds_representable _ _ 1); [done|done|]. rewrite Hv, Z.mul_1_r. apply of_int_rounds. lia.
Qed.

(** Taking one from a number between 1 and 2^53 is exact. *)
Lemma sub_one_exact x :
  nonneg x = true -> 2 ^ K <= val x < 2 ^ (K + 53) ->
  nonneg (sub x (of_int 1)) = true /\ val (sub x (of_int 1)) = val x - 2 ^ K.
Proof.
  intros Hx Hv. destruct (of_int_exact 1 ltac:(lia)) as [H1 Hv1]. rewrite Z.mul_1_l in Hv1.
  destruct (nonneg_inv x Hx) as [->|(p & e & -> & Hp & He)].
  { cbn [val] in Hv. assert (0 < 2 ^ K) by (by apply pow_pos). lia. }
  destruct (canonical_digits p e Hp) as (He' & Hlt & Hbig).
  assert (He0 : e <= 0).
  { destruct (Z.le_gt_cases e 0) as [|Hgt]; [done|exfalso]. specialize (Hbig ltac:(lia)).
    cbn [val] in Hv. assert (2 ^ (K + 1) <= 2 ^ (e + K)) by (apply Z.pow_le_mono_r; lia).
    rewrite !Z.pow_add_r in * by (unfold K; lia). nia. }
  assert (HeK : 2 ^ K = 2 ^ (- e) * 2 ^ (e + K)) by (rewrite <- Z.pow_add_r by (unfold K; lia); f_equal; lia).
  assert (0 < 2 ^ (e + K)) by (apply pow_pos; unfold K; lia). assert (0 < 2 ^ (- e)) by (apply pow_pos; lia).
  cbn [val] in Hv. assert (Hge : 2 ^ (- e) <= Zpos p) by nia.
  destruct (representable (Zpos p - 2 ^ (- e)) e ltac:(lia) ltac:(lia)) as (z & Hz & Hvz).
  assert (Hvz' : val z = val (S754_finite false p e) - 2 ^ K) by (rewrite Hvz, HeK; cbn [val]; lia).
  rewrite <- Hvz'. apply (rounds_representable _ _ 1); [done|done|]. rewrite Hvz', Z.mul_1_r.
  rewrite <- Hv1 at 1. apply sub_rounds; [done|done|]. cbn [val]. lia.
Qed.

Lemma mul_zero_l x : nonneg x = true -> mul (of_int 0) x = of_int 0.
Proof. intros Hx. by destruct (nonneg_inv x Hx) as [->|(p & e & -> & _)]. Qed.

Lemma add_zero_r x : nonneg x = true -> add x (of_int 0) = x.
Proof. intros Hx. by destruct (nonneg_inv x Hx) as [->|(p & e & -> & _)]. Qed.

End Float64.
