(* ===== verification/Filters.v ===== *)
(** * Filters: src/filter and include/gateway/filter

    The filter interface as a record of its two virtual methods, the request
    identifier and the logging filter, and the client address the rate limiter
    counts by.  A filter works on the context of its request and on a world [W]
    that holds what lies outside: [Env] names the parts the filters use, the
    clock, the log and the random draws.  A method yields [None] when it
    dereferences a null request. *)

From S2P Require Import Prelude Utils StdMap Http.

Module Filters.
Import Http.
Open Scope Z_scope.

(** ** The interface *)

Record FilterContext := mkContext {
  req : option HttpRequest;
  resp : option HttpResponse;
  request_id : bytes;
  start_time : Z
}.

Definition context_init : FilterContext := mkContext None None [] 0.

Record Filter (W : Type) := mkFilter {
  on_request : FilterContext -> W -> option (bool * FilterContext * W);
  on_response : FilterContext -> W -> option (FilterContext * W)
}.
Arguments mkFilter {W} _ _.
Arguments on_request {W} _ _ _.
Arguments on_response {W} _ _ _.

(** The bodies of the base class. *)
Definition default_filter {W} : Filter W :=
  mkFilter (fun ctx w => Some (true, ctx, w)) (fun ctx w => Some (ctx, w)).

(** What the request pipeline relies on: with a request in the context a filter
    is defined, and it leaves the request alone; the response phase leaves the
    status and the presence of the response alone. *)
Class FilterOk {W} (f : Filter W) := {
  request_defined : forall ctx w r, req ctx = Some r ->
    exists ok ctx' w', on_request f ctx w = Some (ok, ctx', w') /\ req ctx' = Some r;
  response_defined : forall ctx w r p, req ctx = Some r -> resp ctx = Some p ->
    exists ctx' w' p', on_response f ctx w = Some (ctx', w') /\
      req ctx' = Some r /\ resp ctx' = Some p'
}.

#[global] Instance default_filter_ok {W} : FilterOk (@default_filter W).
Proof. split; intros; simpl; eauto 10. Qed.

(** ** The outside *)

Class Env (W : Type) := {
  time_now : W -> Z * W;              (* std::time(nullptr) *)
  log_info : bytes -> W -> W;         (* LOG_INFO *)
  draw : W -> Z * W;                  (* uniform_int_distribution<int>(0, 15) *)
  draw_range : forall w, 0 <= (draw w).1 <= 15
}.

(** A "%s" conversion prints up to the first NUL. *)
Definition c_str (s : bytes) : bytes :=
  match find_char "000" s with Some i => take i s | None => s end.

Section Shipped.
Context {W : Type} `{Env W}.

(** ** RequestIdFilter *)

Definition hex_char (d : Z) : ascii :=
  ascii_of_N (Z.to_N (if d <? 10 then 48 + d else 87 + d)).

Fixpoint generate_go (n : nat) (w : W) : bytes * W :=
  match n with
  | O => ([], w)
  | S n' =>
      let '(d, w) := draw w in
      let '(s, w) := generate_go n' w in
      (hex_char d :: s, w)
  end.

Definition generate_id (w : W) : bytes * W := generate_go 8 w.

Definition set_request_id (id : bytes) (ctx : FilterContext) : FilterContext :=
  mkContext (req ctx) (resp ctx) id (start_time ctx).

Definition request_id_on_request (ctx : FilterContext) (w : W) : option (bool * FilterContext * W) :=
  r ← req ctx;
  match StdMap.find (lit "x-request-id") (headers r) with
  | Some v => Some (true, set_request_id v ctx, w)
  | None => let '(id, w) := generate_id w in Some (true, set_request_id id ctx, w)
  end.

Definition set_header (k v : bytes) (p : HttpResponse) : HttpResponse :=
  mkResponse (status_code p) (status_text p) (StdMap.set k v (resp_headers p)) (resp_body p).

Definition request_id_on_response (ctx : FilterContext) (w : W) : option (FilterContext * W) :=
  Some (match resp ctx with
        | Some p =>
            mkContext (req ctx) (Some (set_header (lit "X-Request-Id") (request_id ctx) p))
              (request_id ctx) (start_time ctx)
        | None => ctx
        end, w).

Definition RequestIdFilter : Filter W := mkFilter request_id_on_request request_id_on_response.

(** ** LoggingFilter *)

Definition logging_on_request (ctx : FilterContext) (w : W) : option (bool * FilterContext * W) :=
  let '(now, w) := time_now w in
  let ctx := mkContext (req ctx) (resp ctx) (request_id ctx) now in
  r ← req ctx;
  Some (true, ctx,
        log_info (c_str (request_id ctx) ++ lit " -> " ++ c_str (method r) ++ lit " " ++ c_str (path r)) w).

(** "%.1f" of a whole number of seconds. *)
Definition logging_on_response (ctx : FilterContext) (w : W) : option (FilterContext * W) :=
  let '(now, w) := time_now w in
  let elapsed := now - start_time ctx in
  r ← req ctx;
  let status := match resp ctx with Some p => status_code p | None => 0 end in
  Some (ctx,
        log_info (c_str (request_id ctx) ++ lit " <- " ++ c_str (method r) ++ lit " " ++ c_str (path r)
                  ++ lit " " ++ Utils.to_string status
                  ++ lit " (" ++ Utils.to_string elapsed ++ lit ".0s)") w).

Definition LoggingFilter : Filter W := mkFilter logging_on_request logging_on_response.

#[global] Instance RequestIdFilter_ok : FilterOk RequestIdFilter.
Proof.
  split; intros ctx w r.
  - intros Hr. simpl. unfold request_id_on_request. rewrite Hr. simpl.
    destruct (StdMap.find _ _); [|destruct (generate_id w)]; simpl; eauto 10.
  - intros p Hr Hp. simpl. unfold request_id_on_response. rewrite Hp. simpl. eauto 10.
Qed.

#[global] Instance LoggingFilter_ok : FilterOk LoggingFilter.
Proof.
  split; intros ctx w r.
  - intros Hr. simpl. unfold logging_on_request. destruct (time_now w) as [now w']. simpl.
    rewrite Hr. simpl. eauto 10.
  - intros p Hr Hp. simpl. unfold logging_on_response. destruct (time_now w) as [now w'].
    rewrite Hr. simpl. eauto 10.
Qed.

(** ** The identifier of a request *)

Definition is_hex (c : ascii) : bool :=
  ((48 <=? code c) && (code c <=? 57)) || ((97 <=? code c) && (code c <=? 102)).

Lemma hex_char_is_hex d : 0 <= d <= 15 -> is_hex (hex_char d) = true.
Proof.
  intros Hd. unfold is_hex, hex_char, code. split_if; rewrite N_ascii_embedding by lia;
    rewrite Z2N.id by lia; apply orb_true_iff; [left|right]; apply andb_true_iff; split;
    apply Z.leb_le; lia.
Qed.

Lemma generate_go_spec n w :
  length (generate_go n w).1 = n /\ Forall (fun c => is_hex c = true) (generate_go n w).1.
Proof.
  revert w; induction n as [|n IH]; intros w; simpl; [by split|].
  pose proof (draw_range w) as Hd. destruct (draw w) as [d w1]. simpl in Hd.
  destruct (IH w1) as [Hl Hf]. destruct (generate_go n w1) as [s w2]. simpl in *.
  split; [by rewrite Hl|]. constructor; [by apply hex_char_is_hex|done].
Qed.

(** The identifier of a request reaches its response: whatever the filters
    between the two phases do to other fields, the X-Request-Id header of the
    response is the identifier the client sent, or, when it sent none, eight
    lower-case hexadecimal digits drawn for this request; the header replaces one
    the response already had under that name and no other header changes. *)
Theorem request_id_end_to_end (ctx : FilterContext) (w : W) (r : HttpRequest) (p : HttpResponse) :
  req ctx = Some r ->
  exists ctx1 w1, on_request RequestIdFilter ctx w = Some (true, ctx1, w1) /\
  (match StdMap.find (lit "x-request-id") (headers r) with
   | Some v => request_id ctx1 = v /\ w1 = w
   | None => length (request_id ctx1) = 8%nat /\
             Forall (fun c => is_hex c = true) (request_id ctx1)
   end) /\
  forall ctx2 w2, resp ctx2 = Some p -> request_id ctx2 = request_id ctx1 ->
  exists ctx3 p3, on_response RequestIdFilter ctx2 w2 = Some (ctx3, w2) /\ resp ctx3 = Some p3 /\
    StdMap.find (lit "X-Request-Id") (resp_headers p3) = Some (request_id ctx1) /\
    (forall k, k <> lit "X-Request-Id" ->
       StdMap.find k (resp_headers p3) = StdMap.find k (resp_headers p)).
Proof.
  intros Hr. cbn [RequestIdFilter on_request on_response]. unfold request_id_on_request.
  rewrite Hr. cbn [mbind option_bind].
  assert (forall id ctx2 w2, resp ctx2 = Some p -> request_id ctx2 = id ->
    exists ctx3 p3, request_id_on_response ctx2 w2 = Some (ctx3, w2) /\ resp ctx3 = Some p3 /\
    StdMap.find (lit "X-Request-Id") (resp_headers p3) = Some id /\
    (forall k, k <> lit "X-Request-Id" ->
       StdMap.find k (resp_headers p3) = StdMap.find k (resp_headers p))) as Hresp.
  { intros id ctx2 w2 Hp <-. unfold request_id_on_response. rewrite Hp. do 2 eexists.
    split; [done|]. split; [done|]. cbn [set_header resp_headers].
    split; [apply StdMap.find_set_eq|]. intros k Hk. by apply StdMap.find_set_ne. }
  destruct (StdMap.find (lit "x-request-id") (headers r)) as [v|].
  - exists (set_request_id v ctx), w. split; [done|]. split; [done|]. apply Hresp.
  - unfold generate_id. pose proof (generate_go_spec 8 w) as Hg.
    destruct (generate_go 8 w) as [id w1]. exists (set_request_id id ctx), w1.
    split; [done|]. split; [exact Hg|]. apply Hresp.
Qed.

End Shipped.

(** ** The client address of the rate limiter *)

Definition blank (c : ascii) : bool := Ascii.eqb c SP || Ascii.eqb c TAB.

(** [find_first_not_of] and [find_last_not_of] for a blank set. *)
Fixpoint find_first_not_blank (s : bytes) : option nat :=
  match s with
  | [] => None
  | c :: s' => if blank c then S <$> find_first_not_blank s' else Some 0%nat
  end.

Fixpoint find_last_not_blank (s : bytes) : option nat :=
  match s with
  | [] => None
  | c :: s' =>
      match find_last_not_blank s' with
      | Some i => Some (S i)
      | None => if blank c then None else Some 0%nat
      end
  end.

Definition extract_client_ip (ctx : FilterContext) : bytes :=
  match req ctx with
  | None => []
  | Some r =>
      match StdMap.find (lit "x-forwarded-for") (headers r) with
      | Some val =>
          let ip := match find_char "," val with Some comma => take comma val | None => val end in
          match find_first_not_blank ip, find_last_not_blank ip with
          | Some start, Some end_ => slice start (end_ - start + 1) ip
          | _, _ => ip
          end
      | None =>
          match StdMap.find (lit "x-real-ip") (headers r) with
          | Some v => v
          | None => []
          end
      end
  end.

Lemma find_first_not_blank_app ws c s :
  Forall (fun c => blank c = true) ws -> blank c = false ->
  find_first_not_blank (ws ++ c :: s) = Some (length ws).
Proof.
  induction 1 as [|a ws Ha Hws IH]; intros Hc; simpl; [by rewrite Hc|]. by rewrite Ha, IH.
Qed.

Lemma find_last_not_blank_blanks ws :
  Forall (fun c => blank c = true) ws -> find_last_not_blank ws = None.
Proof. induction 1 as [|a ws Ha _ IH]; simpl; [done|]. by rewrite IH, Ha. Qed.

Lemma find_last_not_blank_app s c ws :
  blank c = false -> Forall (fun c => blank c = true) ws ->
  find_last_not_blank (s ++ c :: ws) = Some (length s).
Proof.
  intros Hc Hws. induction s as [|a s IH]; simpl; [by rewrite (find_last_not_blank_blanks ws), Hc|].
  by rewrite IH.
Qed.

Definition no_blank_ends (ip : bytes) : Prop :=
  exists a b, head ip = Some a /\ last ip = Some b /\ blank a = false /\ blank b = false.

Lemma trim_spec ws1 ip ws2 :
  Forall (fun c => blank c = true) ws1 -> Forall (fun c => blank c = true) ws2 -> no_blank_ends ip ->
  let s := ws1 ++ ip ++ ws2 in
  exists i j, find_first_not_blank s = Some i /\ find_last_not_blank s = Some j /\
    slice i (j - i + 1) s = ip.
Proof.
  intros H1 H2 (a & b & Ha & Hb & Na & Nb) s.
  destruct ip as [|x ip]; [done|]. injection Ha as ->.
  exists (length ws1), (length ws1 + length ip)%nat. split; [by apply find_first_not_blank_app|].
  split.
  - apply last_Some in Hb as [l Hl]. unfold s. rewrite Hl.
    assert (length l = length ip) as El.
    { apply (f_equal length) in Hl. rewrite length_app in Hl. simpl in Hl. lia. }
    rewrite <- (app_assoc l), app_assoc. cbn [app]. rewrite find_last_not_blank_app by done.
    by rewrite length_app, El.
  - unfold slice, s. rewrite drop_app_length.
    replace (length ws1 + length ip - length ws1 + 1)%nat with (length (a :: ip)) by (simpl; lia).
    by rewrite take_app_length.
Qed.

(** The rate limiter counts by the first address of X-Forwarded-For, without
    the blanks around it and whatever addresses follow it; without that header by
    the value of X-Real-IP; without both the key is empty, which turns the limiter
    off for the request. *)
Theorem client_ip_spec (ctx : FilterContext) (r : HttpRequest) :
  req ctx = Some r ->
  (forall ws1 ip ws2 others,
     Forall (fun c => blank c = true) ws1 -> Forall (fun c => blank c = true) ws2 ->
     no_blank_ends ip -> ","%char ∉ ip ->
     others = [] \/ head others = Some ","%char ->
     StdMap.find (lit "x-forwarded-for") (headers r) = Some ((ws1 ++ ip ++ ws2) ++ others) ->
     extract_client_ip ctx = ip) /\
  (StdMap.find (lit "x-forwarded-for") (headers r) = None ->
   extract_client_ip ctx = default [] (StdMap.find (lit "x-real-ip") (headers r))).
Proof.
  intros Hr. unfold extract_client_ip. rewrite Hr. split.
  - intros ws1 ip ws2 others H1 H2 Hip Hc Ho ->.
    assert (","%char ∉ ws1 ++ ip ++ ws2) as Hn.
    { assert (forall ws, Forall (fun c => blank c = true) ws -> ","%char ∉ ws) as Hb.
      { intros ws Hws Hin. rewrite Forall_forall in Hws. by specialize (Hws _ Hin). }
      rewrite !not_elem_of_app. auto. }
    destruct (trim_spec ws1 ip ws2 H1 H2 Hip) as (i & j & E1 & E2 & E3).
    assert (match find_char "," ((ws1 ++ ip ++ ws2) ++ others) with
            | Some comma => take comma ((ws1 ++ ip ++ ws2) ++ others)
            | None => (ws1 ++ ip ++ ws2) ++ others end = ws1 ++ ip ++ ws2) as ->.
    { destruct others as [|o others].
      - rewrite app_nil_r. by rewrite (proj2 (find_char_None _ _) Hn).
      - destruct Ho as [|[= ->]]; [done|]. by rewrite find_char_app, take_app_length. }
    by rewrite E1, E2.
  - intros ->. by destruct (StdMap.find (lit "x-real-ip") (headers r)).
Qed.

(** ** Evaluated examples *)

(** A world with a fixed clock, the log and a counter as the source of draws. *)
Record World := mkWorld { clock : Z; log : list bytes; draws : Z }.

#[global] Instance World_env : Env World.
Proof.
  refine {| time_now w := (clock w, w);
            log_info s w := mkWorld (clock w) (log w ++ [s]) (draws w);
            draw w := (draws w mod 16, mkWorld (clock w) (log w) (draws w + 7)) |}.
  intros w. simpl. pose proof (Z.mod_pos_bound (draws w) 16). lia.
Defined.

Definition sample_request (h : StdMap.t) : HttpRequest :=
  mkRequest (lit "GET") (lit "/api/user") (lit "HTTP/1.1") h [].

(** Applied to a request without an identifier. *)
Lemma request_id_end_to_end_witness :
  exists ctx1 w1,
    on_request RequestIdFilter (mkContext (Some (sample_request [])) None [] 0) (mkWorld 5 [] 3)
    = Some (true, ctx1, w1) /\ length (request_id ctx1) = 8%nat.
Proof.
  destruct (request_id_end_to_end (mkContext (Some (sample_request [])) None [] 0) (mkWorld 5 [] 3)
              (sample_request []) default_response eq_refl) as (ctx1 & w1 & E & Hid & _).
  exists ctx1, w1. split; [exact E|]. exact (proj1 Hid).
Defined.

(** Applied to a forwarded request with two addresses. *)
Lemma client_ip_spec_witness :
  extract_client_ip
    (mkContext (Some (sample_request [(lit "x-forwarded-for", lit " 10.0.0.7 , 10.0.0.1")])) None [] 0)
  = lit "10.0.0.7".
Proof.
  apply (proj1 (client_ip_spec
    (mkContext (Some (sample_request [(lit "x-forwarded-for", lit " 10.0.0.7 , 10.0.0.1")])) None [] 0)
    (sample_request [(lit "x-forwarded-for", lit " 10.0.0.7 , 10.0.0.1")]) eq_refl)
    (lit " ") (lit "10.0.0.7") (lit " ") (lit ", 10.0.0.1")).
  - by repeat constructor.
  - by repeat constructor.
  - exists "1"%char, "7"%char. by vm_compute.
  - vm_compute. set_solver.
  - by right.
  - reflexivity.
Defined.

End Filters.
