(* ===== verification/RateLimit.v ===== *)
(** * RateLimit: src/filter/rate_limit_filter.cpp

    The token-bucket filter.  Token counts are the [double]s of the code; a bucket is
    refilled from the nanoseconds since its last refill.  The clock is an argument of
    the operations and a part of the world of the filter, as are the buckets. *)

From S2P Require Import Prelude StdMap Http Filters Double Float64.

Module RateLimit.
Import Http Filters.
Open Scope Z_scope.

Record TokenBucket := mkBucket { tokens : Double.double; last_fill_time : Z }.

Record t := mk {
  rate : Z;
  burst : Z;
  token_per_ns : Double.double;
  token_buckets : gmap bytes TokenBucket;
  key_extractor : option (FilterContext -> bytes)
}.

Definition create (rate_per_second burst : Z) : t :=
  mk rate_per_second burst (Double.div (Double.of_int rate_per_second) (Double.of_int 1000000000)) ∅
    (Some extract_client_ip).

Definition set_key_extractor (x : option (FilterContext -> bytes)) (s : t) : t :=
  mk (rate s) (burst s) (token_per_ns s) (token_buckets s) x.

Definition set_buckets (m : gmap bytes TokenBucket) (s : t) : t :=
  mk (rate s) (burst s) (token_per_ns s) m (key_extractor s).

(** The refill: tokens for the elapsed time, at most [burst_]. *)
Definition refill (s : t) (now : Z) (b : TokenBucket) : Double.double :=
  let elapsed_ns := Double.of_int (now - last_fill_time b) in
  let tokens := Double.add (tokens b) (Double.mul elapsed_ns (token_per_ns s)) in
  if Double.gtb tokens (Double.of_int (burst s)) then Double.of_int (burst s) else tokens.

Definition consume (s : t) (now : Z) (b : TokenBucket) : bool * TokenBucket :=
  let tokens := refill s now b in
  if Double.geb tokens (Double.of_int 1) then (true, mkBucket (Double.sub tokens (Double.of_int 1)) now)
  else (false, mkBucket tokens now).

(** The part of [on_request] under the lock. *)
Definition take_token (key : bytes) (now : Z) (s : t) : bool * t :=
  let bucket := default (mkBucket (Double.of_int (burst s)) now) (token_buckets s !! key) in
  let '(ok, bucket) := consume s now bucket in
  (ok, set_buckets (<[key := bucket]> (token_buckets s)) s).

Definition limit_key (ctx : FilterContext) (s : t) : bytes :=
  match key_extractor s with Some x => x ctx | None => [] end.

(** The bucket a request is counted in, if it is limited at all. *)
Definition limited (ctx : FilterContext) (s : t) : option bytes :=
  if rate s <=? 0 then None else match limit_key ctx s with [] => None | key => Some key end.

Definition on_request (ctx : FilterContext) (now : Z) (s : t) : bool * t :=
  match limited ctx s with None => (true, s) | Some key => take_token key now s end.

Definition cleanup_expired_buckets (idle_sec now : Z) (s : t) : t :=
  set_buckets (filter (fun kb => ~ (idle_sec * 1000000000 < now - last_fill_time kb.2)) (token_buckets s)) s.

Definition active_buckets (s : t) : Z := Z.of_nat (size (token_buckets s)).

(** ** The filter *)

(** Where the world keeps the limiter and its clock. *)
Class Limiter (W : Type) := {
  limiter : W -> t;
  put_limiter : t -> W -> W;
  steady_now : W -> Z * W;
  limiter_put : forall s w, limiter (put_limiter s w) = s
}.

Definition RateLimitFilter {W} `{Limiter W} : Filter W :=
  mkFilter
    (fun ctx w =>
       match limited ctx (limiter w) with
       | None => Some (true, ctx, w)
       | Some key =>
           let '(now, w) := steady_now w in
           let '(ok, s) := take_token key now (limiter w) in Some (ok, ctx, put_limiter s w)
       end)
    (fun ctx w => Some (ctx, w)).

#[global] Instance RateLimitFilter_ok {W} `{Limiter W} : FilterOk RateLimitFilter.
Proof.
  split; intros ctx w r Hr; [|intros Hp; simpl; eauto 10].
  simpl. destruct (limited ctx (limiter w)); [|eauto 10].
  destruct (steady_now w) as [now w']. destruct (take_token _ now (limiter w')). eauto 10.
Qed.

(** ** Token arithmetic *)

Import Double Float64.

(** One token, scaled. *)
Notation unit := (2 ^ K).

Lemma unit_pos : 0 < unit.
Proof. by apply pow_pos. Qed.

(** The precision of a [double]: one part in [B]. *)
Notation B := (2 ^ 52).

(** The error of three roundings in a row, from above and from below. *)
Lemma product_upper C E T G u v d r :
  4 <= C -> 0 < u -> 0 <= E -> 0 <= T -> 0 <= G -> 0 <= d -> 0 <= r ->
  C * E <= (C + 1) * (d * u) -> C * (T * G) <= (C + 1) * (r * u) -> C * (v * u) <= (C + 1) * (E * T) ->
  C * (v * G) <= (C + 4) * (d * r * u).
Proof.
  intros HC Hu HE HT HG Hd Hr H1 H2 H3.
  assert (H4 : (C * E) * (C * (T * G)) <= ((C + 1) * (d * u)) * ((C + 1) * (r * u)))
    by (apply Z.mul_le_mono_nonneg; nia).
  assert (H5 : (C * (v * u)) * (C * C * G) <= (C + 1) * (E * T) * (C * C * G))
    by (apply Z.mul_le_mono_nonneg_r; nia).
  assert (H6 : (C + 1) * ((C * E) * (C * (T * G))) <= (C + 1) * (((C + 1) * (d * u)) * ((C + 1) * (r * u))))
    by (apply Z.mul_le_mono_nonneg_l; lia).
  assert (H7 : (C * (v * G)) * (C * C * u) <= ((C + 4) * (d * r * u)) * (C * C * u)).
  { assert ((C + 1) * (C + 1) * (C + 1) <= C * C * (C + 4)) by nia.
    assert (0 <= d * r * (u * u)) by nia.
    assert ((C + 1) * (C + 1) * (C + 1) * (d * r * (u * u)) <= C * C * (C + 4) * (d * r * (u * u)))
      by (by apply Z.mul_le_mono_nonneg_r). lia. }
  apply Z.mul_le_mono_pos_r in H7; [done|nia].
Qed.

Lemma product_lower C E T G u v d r :
  4 <= C -> 0 < u -> 0 <= E -> 0 <= T -> 0 <= G -> 0 <= d -> 0 <= r ->
  (C - 1) * (d * u) <= C * E -> (C - 1) * (r * u) <= C * (T * G) -> (C - 1) * (E * T) <= C * (v * u) ->
  (C - 3) * (d * r * u) <= C * (v * G).
Proof.
  intros HC Hu HE HT HG Hd Hr H1 H2 H3.
  assert (H4 : ((C - 1) * (d * u)) * ((C - 1) * (r * u)) <= (C * E) * (C * (T * G)))
    by (apply Z.mul_le_mono_nonneg; nia).
  assert (H5 : (C - 1) * (E * T) * (C * C * G) <= (C * (v * u)) * (C * C * G))
    by (apply Z.mul_le_mono_nonneg_r; nia).
  assert (H6 : (C - 1) * (((C - 1) * (d * u)) * ((C - 1) * (r * u))) <= (C - 1) * ((C * E) * (C * (T * G))))
    by (apply Z.mul_le_mono_nonneg_l; lia).
  assert (H7 : ((C - 3) * (d * r * u)) * (C * C * u) <= (C * (v * G)) * (C * C * u)).
  { assert (C * C * (C - 3) <= (C - 1) * (C - 1) * (C - 1)) by nia.
    assert (0 <= d * r * (u * u)) by nia.
    assert (C * C * (C - 3) * (d * r * (u * u)) <= (C - 1) * (C - 1) * (C - 1) * (d * r * (u * u)))
      by (by apply Z.mul_le_mono_nonneg_r). lia. }
  apply Z.mul_le_mono_pos_r in H7; [done|nia].
Qed.

Lemma normal_product C A A' u v x :
  4 <= C -> 0 < u -> 0 < A' -> 2 * A' <= A -> A * u <= x -> (C - 1) * x <= C * (v * u) -> A' <= v.
Proof.
  intros HC Hu HA' HA Hx Hv.
  assert ((C - 1) * (A * u) <= C * (v * u)) by nia.
  assert (((C - 1) * A) * u <= (C * v) * u) as Hc by lia.
  apply Z.mul_le_mono_pos_r in Hc; [|done]. nia.
Qed.

Section Arithmetic.
Context (r b : Z) (Hr : 1 <= r <= INT_MAX) (Hb : 1 <= b <= INT_MAX).

Let tpn := div (of_int r) (of_int 1000000000).

Lemma token_per_ns_bounds :
  nonneg tpn = true /\ val tpn <= 2 ^ 31 * unit /\
  B * (val tpn * 1000000000) <= (B + 1) * (r * unit) /\ (B - 1) * (r * unit) <= B * (val tpn * 1000000000).
Proof.
  unfold INT_MAX in *. destruct (of_int_exact r ltac:(lia)) as [Hr1 Hr2].
  destruct (of_int_exact 1000000000 ltac:(lia)) as [Hg1 Hg2]. pose proof unit_pos as Hu.
  assert (Hdiv : rounds (val (of_int r) * unit) (val (of_int 1000000000)) tpn).
  { apply div_rounds; [done|done|..].
    - rewrite Hg2. split; [lia|]. rewrite Z.pow_add_r by done. lia.
    - rewrite Hr2, Hg2. assert (Hs : unit = 2 ^ 1000 * 2 ^ (K - 1000)) by (by rewrite <- Z.pow_add_r).
      assert (2 ^ 30 <= 2 ^ 1000) by (by apply Z.pow_le_mono_r).
      assert (0 < 2 ^ (K - 1000)) by (by apply pow_pos).
      set (A := 2 ^ (K - 1000)) in *. set (D := 2 ^ 1000) in *. set (u := unit) in *. clearbody A D u. nia. }
  rewrite Hr2, Hg2 in Hdiv. destruct Hdiv as [Hup _ Herr].
  destruct (representable 1 31 ltac:(lia) ltac:(lia)) as (z & Hz & Hvz).
  rewrite Z.pow_add_r in Hvz by done.
  destruct (Hup z Hz) as [Hn Hle]; [set (u := unit) in *; clearbody u; nia|].
  split; [done|]. split; [lia|].
  destruct (Herr Hn) as [H1 H2].
  { assert (Hs : unit = 2 ^ 1022 * 2 ^ (K - 1022)) by (by rewrite <- Z.pow_add_r).
    assert (2 ^ 30 <= 2 ^ 1022) by (by apply Z.pow_le_mono_r).
    assert (0 < 2 ^ (K - 1022)) by (by apply pow_pos).
    set (A := 2 ^ (K - 1022)) in *. set (D := 2 ^ 1022) in *. set (u := unit) in *. clearbody A D u. nia. }
  set (u := unit) in *. set (v := val tpn) in *. set (C := B) in *. clearbody u v C. nia.
Qed.

Lemma elapsed_bounds d :
  1 <= d <= 2 ^ 63 ->
  nonneg (of_int d) = true /\ unit <= val (of_int d) <= 2 ^ 63 * unit /\
  B * val (of_int d) <= (B + 1) * (d * unit) /\ (B - 1) * (d * unit) <= B * val (of_int d).
Proof.
  intros Hd. destruct (of_int_rounds d ltac:(lia)) as [Hup Hlo Herr]. pose proof unit_pos as Hu.
  destruct (representable 1 63 ltac:(lia) ltac:(lia)) as (z & Hz & Hvz). rewrite Z.pow_add_r in Hvz by done.
  destruct (Hup z Hz) as [Hn Hle]; [nia|].
  destruct (of_int_exact 1 ltac:(lia)) as [H1 Hv1]. specialize (Hlo _ H1 Hn ltac:(nia)).
  destruct (Herr Hn) as [He1 He2].
  { assert (2 ^ (K - 1022) <= unit) by (by apply Z.pow_le_mono_r). nia. }
  split_and!; [done|lia|lia|lia|lia].
Qed.

(** The tokens gained in [d] nanoseconds. *)
Lemma gain_bounds d :
  0 <= d <= 2 ^ 63 ->
  let g := mul (of_int d) tpn in
  nonneg g = true /\ val g <= 2 ^ 94 * unit /\ (0 < d -> 2 ^ (K - 1022) <= val g) /\
  B * (val g * 1000000000) <= (B + 4) * (d * r * unit) /\ (B - 3) * (d * r * unit) <= B * (val g * 1000000000).
Proof.
  intros Hd g. destruct token_per_ns_bounds as (Ht & Htu & Ht1 & Ht2). pose proof unit_pos as Hu.
  destruct (Z.eq_dec d 0) as [->|Hd0].
  { assert (g = of_int 0) as -> by (by apply mul_zero_l). change (val (of_int 0)) with 0.
    split_and!; [done|nia|lia|lia|lia]. }
  destruct (elapsed_bounds d ltac:(lia)) as (He & Heu & He1 & He2).
  destruct (mul_rounds _ _ He Ht) as [Hup Hlo Herr]. fold g in Hup, Hlo, Herr.
  destruct (representable 1 94 ltac:(lia) ltac:(lia)) as (z & Hz & Hvz). rewrite Z.pow_add_r in Hvz by done.
  set (E := val (of_int d)) in *. set (T := val tpn) in *. clearbody E T.
  destruct (Hup z Hz) as [Hg Hgu].
  { rewrite Hvz. change (2 ^ 94) with (2 ^ 63 * 2 ^ 31). set (u := unit) in *. clearbody u. nia. }
  assert (Hsmall : 2 ^ (K - 1000) * unit <= E * T).
  { assert (Hs : unit = 2 ^ 1000 * 2 ^ (K - 1000)) by (by rewrite <- Z.pow_add_r).
    assert (2 ^ 31 <= 2 ^ 1000) by (by apply Z.pow_le_mono_r). assert (0 < 2 ^ (K - 1000)) by (by apply pow_pos).
    set (A := 2 ^ (K - 1000)) in *. set (D := 2 ^ 1000) in *. set (u := unit) in *. clearbody A D u.
    assert (A <= T) by nia. nia. }
  assert (HA : 2 ^ (K - 1000) = 2 ^ 22 * 2 ^ (K - 1022)) by (by rewrite <- Z.pow_add_r).
  assert (Hpos : 0 < 2 ^ (K - 1022)) by (by apply pow_pos).
  destruct (Herr Hg) as [H1 H2].
  { assert (Hle : 2 ^ (K - 1022) <= 2 ^ (K - 1000)) by (by apply Z.pow_le_mono_r). clear - Hle Hsmall Hu.
    set (u := unit) in *. clearbody u. nia. }
  assert (HB : 4 <= B) by done.
  split; [done|]. split; [lia|]. split; [intros _|split].
  - eapply (normal_product B (2 ^ (K - 1000)) _ unit _ (E * T)); try done; lia.
  - eapply (product_upper B E T); try done; lia.
  - eapply (product_lower B E T); try done; lia.
Qed.

(** ** Refilling and taking a token *)

Definition configured (s : t) : Prop := burst s = b /\ token_per_ns s = tpn.

(** A bucket holds a valid count between 0 and [burst]. *)
Definition bucket_ok (k : TokenBucket) : Prop := nonneg (tokens k) = true /\ val (tokens k) <= b * unit.

Lemma burst_exact : nonneg (of_int b) = true /\ val (of_int b) = b * unit.
Proof. apply of_int_exact. unfold INT_MAX in *. lia. Qed.

Lemma refill_bounds s now k :
  configured s -> bucket_ok k -> 0 <= now - last_fill_time k <= 2 ^ 63 ->
  let R := refill s now k in
  let g := mul (of_int (now - last_fill_time k)) tpn in
  nonneg R = true /\ val R <= b * unit /\
  B * val R <= B * (val (tokens k) + val g) + b * unit /\
  (forall c, 0 <= c <= b -> c * unit <= val (tokens k) + val g -> c * unit <= val R).
Proof.
  intros [Hsb Hst] [Hk Hkb] Hd R g. pose proof unit_pos as Hu. destruct burst_exact as [Hbn Hbv].
  destruct (gain_bounds _ Hd) as (Hg & Hgu & Hgn & _). fold g in Hg, Hgu, Hgn.
  set (x := val (tokens k)) in *. set (S := add (tokens k) g).
  assert (Hadd : rounds (x + val g) 1 S) by (by apply add_rounds). destruct Hadd as [Hup Hlo Herr].
  assert (HS : nonneg S = true).
  { destruct (representable 1 95 ltac:(lia) ltac:(lia)) as (z & Hz & Hvz). rewrite Z.pow_add_r in Hvz by done.
    apply (Hup z Hz). unfold INT_MAX in *. rewrite Hvz. nia. }
  assert (Hclose : x + val g <= b * unit -> B * val S <= B * (x + val g) + b * unit).
  { intros Hle. destruct (Z.eq_dec (now - last_fill_time k) 0) as [Hz|Hz].
    - assert (Hg0 : g = of_int 0) by (unfold g; rewrite Hz; apply mul_zero_l, token_per_ns_bounds).
      unfold S. rewrite Hg0, add_zero_r by done. fold x. change (val (of_int 0)) with 0. nia.
    - destruct (Herr HS) as [H1 _]; [|lia]. specialize (Hgn ltac:(lia)). pose proof (val_nonneg (tokens k)). lia. }
  assert (HR : R = if b * unit <? val S then of_int b else S).
  { unfold R, refill. rewrite Hst, Hsb. fold g S. rewrite gtb_val, Hbv by done. done. }
  rewrite HR. destruct (Z.ltb_spec (b * unit) (val S)) as [Hgt|Hle].
  - assert (b * unit < x + val g).
    { destruct (Z.lt_ge_cases (b * unit) (x + val g)) as [|Hge]; [done|exfalso].
      destruct (Hup _ Hbn) as [_ ?]; lia. }
    rewrite Hbv. split_and!; [done|lia|lia|]. intros c Hc _. nia.
  - split_and!; [done|lia|..].
    + destruct (Z.le_gt_cases (x + val g) (b * unit)) as [|Hgt]; [auto|]. lia.
    + intros c Hc Hcx. destruct (of_int_exact c) as [Hcn Hcv]; [unfold INT_MAX in *; lia|].
      rewrite <- Hcv. apply Hlo; [done|done|lia].
Qed.

Lemma consume_spec s now k :
  configured s -> bucket_ok k -> 0 <= now - last_fill_time k <= 2 ^ 63 ->
  let '(ok, k') := consume s now k in
  bucket_ok k' /\ last_fill_time k' = now /\
  ok = (unit <=? val (refill s now k)) /\
  val (tokens k') + (if ok then unit else 0) = val (refill s now k).
Proof.
  intros Hs Hk Hd. destruct (refill_bounds s now k Hs Hk Hd) as (HR & HRb & _).
  destruct (of_int_exact 1 ltac:(lia)) as [H1 Hv1]. pose proof unit_pos as Hu.
  unfold consume. rewrite geb_val, Hv1, Z.mul_1_l by done.
  destruct (Z.leb_spec unit (val (refill s now k))) as [Hle|Hlt].
  - destruct (sub_one_exact (refill s now k) HR) as [Hn Hv].
    { split; [done|]. rewrite Z.pow_add_r by done. unfold INT_MAX in *. nia. }
    unfold bucket_ok. cbn [tokens last_fill_time]. rewrite Hv. split_and!; [done|lia|done|done|lia].
  - unfold bucket_ok. cbn [tokens last_fill_time]. split_and!; [done|lia|done|done|lia].
Qed.

(** ** A private bucket *)

Definition fresh (now : Z) : TokenBucket := mkBucket (of_int b) now.

(** The decisions for one client that has the bucket [o], if any. *)
Fixpoint serve (s : t) (o : option TokenBucket) (ts : list Z) : list bool :=
  match ts with
  | [] => []
  | now :: ts' => let '(ok, k) := consume s now (match o with Some k => k | None => fresh now end) in ok :: serve s (Some k) ts'
  end.

Definition admitted (l : list bool) : Z := Z.of_nat (length (filter (fun x => x = true) l)).

(** Clock readings do not decrease and are signed 64-bit nanosecond counts. *)
Fixpoint clocked (now : Z) (ts : list Z) : Prop :=
  match ts with [] => True | u :: ts' => 0 <= now <= u /\ u < 2 ^ 63 /\ clocked u ts' end.

Lemma fresh_ok now : bucket_ok (fresh now).
Proof. unfold bucket_ok. cbn [fresh tokens]. destruct burst_exact as [H1 H2]. rewrite H2. split; [done|lia]. Qed.

(** An elapsed time long enough fills the bucket up to [c]. *)
Lemma refill_reaches s now k c :
  configured s -> bucket_ok k -> 0 <= now - last_fill_time k <= 2 ^ 63 -> 0 <= c <= b ->
  c * 1000000000 * B <= (now - last_fill_time k) * r * (B - 3) -> c * unit <= val (refill s now k).
Proof.
  intros Hs Hk Hd Hc Hle. destruct (refill_bounds s now k Hs Hk Hd) as (_ & _ & _ & Hlo). apply Hlo; [done|].
  destruct (gain_bounds _ Hd) as (_ & _ & _ & _ & Hg). pose proof (val_nonneg (tokens k)). pose proof unit_pos as Hu.
  set (g := val (mul _ _)) in *. set (d := now - last_fill_time k) in *. set (u := unit) in *. clearbody g d u.
  assert (Hm : c * 1000000000 * B * u <= d * r * (B - 3) * u) by (apply Z.mul_le_mono_nonneg_r; lia).
  lia.
Qed.

(** A bucket that had time to fill up is as good as a fresh one. *)
Lemma consume_full s now k :
  configured s -> bucket_ok k -> 0 <= now - last_fill_time k <= 2 ^ 63 ->
  (b + 1) * 1000000000 <= (now - last_fill_time k) * r -> consume s now k = consume s now (fresh now).
Proof.
  intros Hs Hk Hd Hle. enough (E : refill s now k = refill s now (fresh now)) by (unfold consume; by rewrite E).
  destruct (refill_bounds s now k Hs Hk Hd) as (HR & HRb & _).
  assert (Hd0 : 0 <= now - last_fill_time (fresh now) <= 2 ^ 63) by (cbn [fresh last_fill_time]; lia).
  destruct (refill_bounds s now (fresh now) Hs (fresh_ok now) Hd0) as (HF & HFb & _ & HFlo).
  destruct burst_exact as [Hbn Hbv].
  assert (H1 : b * unit <= val (refill s now k)).
  { apply refill_reaches; [done..|lia|]. unfold INT_MAX in *. lia. }
  assert (H2 : b * unit <= val (refill s now (fresh now))).
  { apply HFlo; [lia|]. cbn [fresh tokens]. rewrite Hbv. pose proof (val_nonneg (mul (of_int (now - last_fill_time (fresh now))) tpn)). lia. }
  apply val_inj; [done|done|lia].
Qed.

Lemma refill_instant s now k :
  configured s -> bucket_ok k -> last_fill_time k = now -> refill s now k = tokens k.
Proof.
  intros [Hsb Hst] [Hk Hkb] <-. unfold refill. rewrite Z.sub_diag, Hst, Hsb. destruct burst_exact as [Hbn Hbv].
  rewrite mul_zero_l by apply token_per_ns_bounds. rewrite add_zero_r by done.
  rewrite gtb_val, Hbv by done. destruct (Z.ltb_spec (b * unit) (val (tokens k))); [lia|done].
Qed.

Lemma serve_instant s now n k (c : nat) :
  configured s -> bucket_ok k -> last_fill_time k = now -> val (tokens k) = Z.of_nat c * unit ->
  serve s (Some k) (replicate n now) = replicate (n `min` c) true ++ replicate (n - c) false.
Proof.
  intros Hs. pose proof unit_pos as Hu. revert k c; induction n as [|n IH]; intros k c Hk Hl Hv; [done|].
  cbn [replicate serve]. pose proof (consume_spec s now k Hs Hk ltac:(lia)) as Hc.
  destruct (consume s now k) as [ok k']. destruct Hc as (Hk' & Hl' & Hok & Hv').
  rewrite (refill_instant s now k Hs Hk Hl), Hv in Hok, Hv'. destruct c as [|c].
  - assert (ok = false) as -> by (rewrite Hok; apply Z.leb_gt; lia). rewrite (IH k' 0%nat Hk' Hl') by lia.
    rewrite Nat.min_0_r, Nat.sub_0_r. done.
  - assert (ok = true) as -> by (rewrite Hok; apply Z.leb_le; lia). rewrite (IH k' c Hk' Hl') by lia. done.
Qed.

Lemma admitted_cons (x : bool) l : admitted (x :: l) = (if x then 1 else 0) + admitted l.
Proof.
  unfold admitted. rewrite filter_cons.
  destruct x; [rewrite decide_True by done|rewrite decide_False by done]; simpl length; lia.
Qed.

(** The count of admissions against the tokens that came in. *)
Lemma serve_bound s ts now k :
  configured s -> bucket_ok k -> last_fill_time k = now -> clocked now ts ->
  B * 1000000000 * unit * admitted (serve s (Some k) ts) <=
  B * 1000000000 * val (tokens k) + (B + 4) * ((List.last ts now - now) * r * unit)
    + zlen ts * b * 1000000000 * unit.
Proof.
  intros Hs. pose proof unit_pos as Hu. revert now k; induction ts as [|u ts IH]; intros now k Hk Hl Hc.
  { cbn [serve List.last]. change (admitted []) with 0. rewrite Z.sub_diag, (@zlen_nil Z).
    pose proof (val_nonneg (tokens k)). lia. }
  destruct Hc as (Hnu & Hu63 & Hc). cbn [serve].
  assert (Hd : 0 <= u - last_fill_time k <= 2 ^ 63) by lia.
  pose proof (consume_spec s u k Hs Hk Hd) as Hcs. destruct (refill_bounds s u k Hs Hk Hd) as (_ & _ & HR & _).
  destruct (gain_bounds _ Hd) as (_ & _ & _ & Hg & _).
  destruct (consume s u k) as [ok k']. destruct Hcs as (Hk' & Hl' & Hok & Hv'). specialize (IH u k' Hk' Hl' Hc).
  assert (Hlast : List.last (u :: ts) now = List.last ts u).
  { destruct ts as [|v ts]; [done|]. cbn [List.last]. clear. revert v. induction ts as [|w ts IH]; intros v; [done|]. apply IH. }
  rewrite Hlast, zlen_cons. rewrite Hl in *.
  rewrite admitted_cons. destruct ok; lia.
Qed.

End Arithmetic.

(** ** Many clients and the periodic cleanup *)

Inductive op := Request (key : bytes) (now : Z) | Cleanup (idle_sec now : Z).

Definition time (o : op) : Z := match o with Request _ now | Cleanup _ now => now end.

(** The decisions with the key they were made for. *)
Fixpoint run (os : list op) (s : t) : list (bytes * bool) * t :=
  match os with
  | [] => ([], s)
  | Request key now :: os' => let '(ok, s) := take_token key now s in let '(l, s) := run os' s in ((key, ok) :: l, s)
  | Cleanup idle_sec now :: os' => run os' (cleanup_expired_buckets idle_sec now s)
  end.

Definition decisions (key : bytes) (l : list (bytes * bool)) : list bool := (filter (fun x => x.1 = key) l).*2.

Definition times_of (key : bytes) (os : list op) : list Z :=
  os ≫= fun o => match o with Request k now => if decide (k = key) then [now] else [] | _ => [] end.

(** Every cleanup leaves a bucket the time to fill up. *)
Definition patient (r b : Z) (o : op) : Prop :=
  match o with Cleanup idle_sec _ => b + 1 <= idle_sec * r | Request _ _ => True end.

Section Clients.
Context (r b : Z) (Hr : 1 <= r <= INT_MAX) (Hb : 1 <= b <= INT_MAX).

Definition stamped (now : Z) (k : TokenBucket) : Prop := bucket_ok b k /\ 0 <= last_fill_time k <= now.

Definition inv (now : Z) (s : t) : Prop :=
  configured r b s /\ map_Forall (fun _ k => stamped now k) (token_buckets s).

Lemma stamped_later now u k : now <= u -> stamped now k -> stamped u k.
Proof. intros Hu [H1 H2]. split; [done|lia]. Qed.

Lemma stamped_fresh now : 0 <= now -> stamped now (fresh b now).
Proof. intros Hn. split; [by apply fresh_ok|]. cbn [fresh last_fill_time]. lia. Qed.

Lemma inv_later now u s : now <= u -> inv now s -> inv u s.
Proof.
  intros Hu [H1 H2]. split; [done|]. eapply map_Forall_impl; [exact H2|]. intros key k. by apply stamped_later.
Qed.

Lemma consume_stamped s now u k :
  configured r b s -> stamped now k -> now <= u < 2 ^ 63 -> stamped u (consume s u k).2.
Proof.
  intros Hs [Hk Hl] Hu. pose proof (consume_spec r b Hr Hb s u k Hs Hk ltac:(lia)) as Hc.
  destruct (consume s u k) as [ok k']. destruct Hc as (Hk' & Hl' & _). split; [done|]. simpl. lia.
Qed.

Lemma bucket_stamped now s key :
  0 <= now -> inv now s -> stamped now (default (mkBucket (of_int (burst s)) now) (token_buckets s !! key)).
Proof.
  intros Hn [[Hsb _] Hm]. destruct (token_buckets s !! key) as [k|] eqn:E; [by eapply Hm|].
  rewrite Hsb. by apply stamped_fresh.
Qed.

Lemma take_token_inv key now s : 0 <= now < 2 ^ 63 -> inv now s -> inv now (take_token key now s).2.
Proof.
  intros Hn Hi. pose proof (bucket_stamped now s key ltac:(lia) Hi) as Hk. destruct Hi as [Hs Hm]. unfold take_token.
  pose proof (consume_stamped s now now _ Hs Hk ltac:(lia)) as Hc. destruct (consume s now _) as [ok k'].
  split; [done|]. by apply map_Forall_insert_2.
Qed.

Lemma cleanup_inv idle_sec now s : inv now s -> inv now (cleanup_expired_buckets idle_sec now s).
Proof.
  intros [H1 H2]. split; [done|]. intros key k [Hk _]%map_lookup_filter_Some. by eapply H2.
Qed.

Lemma limiter_run_inv now os s :
  inv now s -> clocked now (time <$> os) -> exists u, now <= u /\ inv u (run os s).2.
Proof.
  revert now s; induction os as [|o os IH]; intros now s Hi Hc; [by exists now|].
  rewrite fmap_cons in Hc. destruct Hc as (Hn & Hu & Hc). destruct o as [key u|idle_sec u]; cbn [time run] in *.
  - pose proof (take_token_inv key u s ltac:(lia) (inv_later now u s ltac:(lia) Hi)) as Hi'.
    destruct (take_token key u s) as [ok s']. destruct (IH u s' Hi' Hc) as (v & Hv & Hi2).
    destruct (run os s') as [l s2]. exists v. split; [lia|done].
  - destruct (IH u _ (cleanup_inv idle_sec u s (inv_later now u s ltac:(lia) Hi)) Hc) as (v & Hv & Hi2).
    exists v. split; [lia|done].
Qed.

Lemma limiter_create_inv : inv 0 (create r b).
Proof. split; [done|]. by apply map_Forall_empty. Qed.

(** The shared table against a private bucket: the same bucket, or one that was
    evicted and has had the time to fill up. *)
Definition matches (now : Z) (shared private : option TokenBucket) : Prop :=
  match shared, private with
  | Some x, Some y => x = y
  | None, Some y => stamped now y /\ (b + 1) * 1000000000 <= (now - last_fill_time y) * r
  | None, None => True
  | Some _, None => False
  end.

Lemma matches_later now u shared private : now <= u -> matches now shared private -> matches u shared private.
Proof.
  intros Hu. destruct shared, private; simpl; try done. intros [Hs Hl]. split; [by eapply stamped_later|nia].
Qed.

Lemma matches_consume s now shared private :
  configured r b s -> 0 <= now < 2 ^ 63 -> matches now shared private ->
  consume s now (default (mkBucket (of_int b) now) shared) =
  consume s now (match private with Some k => k | None => fresh b now end).
Proof.
  intros Hs Hn Hm. destruct shared as [x|], private as [y|]; simpl in *; try done; [by subst|].
  destruct Hm as [[Hk Hl] Hle]. symmetry. apply (consume_full r b); try done. lia.
Qed.

Lemma matches_cleanup s idle_sec now key private :
  b + 1 <= idle_sec * r -> inv now s -> matches now (token_buckets s !! key) private ->
  matches now (token_buckets (cleanup_expired_buckets idle_sec now s) !! key) private.
Proof.
  intros Hp [_ Hm] Hk. cbn [cleanup_expired_buckets set_buckets token_buckets]. rewrite map_lookup_filter.
  destruct (token_buckets s !! key) as [x|] eqn:E; [|done]. cbn [mbind option_bind].
  case_guard as Hg; cbn [option_bind]; [done|]. simpl in Hk. destruct private as [y|]; [subst|done]. simpl.
  split; [by eapply Hm|]. simpl in Hg. nia.
Qed.

(** A private bucket does not look at the table. *)
Lemma serve_set_buckets m s o ts : serve b (set_buckets m s) o ts = serve b s o ts.
Proof.
  revert o; induction ts as [|now ts IH]; intros o; [done|]. cbn [serve].
  change (consume (set_buckets m s)) with (consume s). destruct (consume s now _) as [ok k]. by rewrite IH.
Qed.

Lemma run_private key now os s private :
  inv now s -> clocked now (time <$> os) -> Forall (patient r b) os ->
  matches now (token_buckets s !! key) private ->
  decisions key (run os s).1 = serve b s private (times_of key os).
Proof.
  revert now s private; induction os as [|o os IH]; intros now s private Hi Hc Hp Hm; [done|].
  rewrite fmap_cons in Hc. destruct Hc as (Hn & Hu & Hc). apply Forall_cons in Hp as [Hpo Hp].
  destruct o as [k u|idle_sec u]; cbn [time] in *; unfold times_of; rewrite bind_cons.
  - apply (inv_later now u) in Hi; [|lia]. apply (matches_later now u) in Hm; [|lia].
    cbn [run]. pose proof (take_token_inv k u s ltac:(lia) Hi) as Hi'.
    destruct (decide (k = key)) as [->|Hne].
    + pose proof (matches_consume s u _ _ (proj1 Hi) ltac:(lia) Hm) as Hcons.
      unfold take_token in *. destruct Hi as [[Hsb Hst] _]. rewrite Hsb in *.
      destruct (consume s u (default _ _)) as [ok k'] eqn:Ek. cbn [app serve]. rewrite <- Hcons.
      set (s' := set_buckets _ s) in *. specialize (IH u s' (Some k') Hi' Hc Hp).
      destruct (run os s') as [l s2]. unfold decisions in *. cbn [fst] in *. rewrite filter_cons, decide_True by done.
      rewrite fmap_cons, IH; [by unfold s'; rewrite serve_set_buckets|]. cbn [s' set_buckets token_buckets]. by rewrite lookup_insert_eq.
    + unfold take_token in *. destruct (consume s u (default _ _)) as [ok k'].
      set (s' := set_buckets _ s) in *. specialize (IH u s' private Hi' Hc Hp).
      destruct (run os s') as [l s2]. unfold decisions in *. cbn [fst] in *. rewrite filter_cons, decide_False by done.
      rewrite IH; [by unfold s'; rewrite serve_set_buckets|]. cbn [s' set_buckets token_buckets]. by rewrite lookup_insert_ne.
  - apply (inv_later now u) in Hi; [|lia]. apply (matches_later now u) in Hm; [|lia]. cbn [run app].
    rewrite <- (serve_set_buckets (token_buckets (cleanup_expired_buckets idle_sec u s)) s).
    apply (IH u (cleanup_expired_buckets idle_sec u s)); [by apply cleanup_inv|done|done|by apply matches_cleanup].
Qed.

(** ** Windows of the decisions for one client *)

Lemma clocked_weaken now u ts : 0 <= u <= now -> clocked now ts -> clocked u ts.
Proof. destruct ts as [|v ts]; [done|]. intros Hu (H1 & H2 & H3). split_and!; [lia|lia|done|done]. Qed.

Lemma times_clocked key now os : 0 <= now -> clocked now (time <$> os) -> clocked now (times_of key os).
Proof.
  revert now; induction os as [|o os IH]; intros now Hn Hc; [done|].
  rewrite fmap_cons in Hc. destruct Hc as (H1 & H2 & Hc). unfold times_of. rewrite bind_cons.
  specialize (IH (time o) ltac:(lia) Hc). destruct o as [k u|idle_sec u]; cbn [time] in *.
  - destruct (decide (k = key)); [by split; [lia|]|]. eapply clocked_weaken; [|exact IH]. lia.
  - eapply clocked_weaken; [|exact IH]. lia.
Qed.

(** A client's decisions from its [n]-th request on start from a good bucket. *)
Lemma serve_drop s n now o ts t ts' :
  configured r b s -> clocked now ts -> match o with Some k => stamped now k | None => True end ->
  drop n ts = t :: ts' ->
  exists k, stamped t k /\ clocked t ts' /\ t < 2 ^ 63 /\ drop n (serve b s o ts) = serve b s (Some k) (t :: ts').
Proof.
  intros Hs. revert now o ts; induction n as [|n IH]; intros now o [|u ts] Hc Ho; try done.
  - rewrite !drop_0. intros [= -> ->]. destruct Hc as (H1 & H2 & H3).
    exists (match o with Some k => k | None => fresh b t end). split_and!; [|done|done|by destruct o].
    destruct o; [by eapply stamped_later; [|exact Ho]; lia|by apply stamped_fresh; lia].
  - destruct Hc as (H1 & H2 & H3). cbn [serve]. intros Hd.
    assert (Hk : stamped u (match o with Some k => k | None => fresh b u end))
      by (destruct o; [by eapply stamped_later; [|exact Ho]; lia|by apply stamped_fresh; lia]).
    pose proof (consume_stamped s u u _ Hs Hk ltac:(lia)) as Hk'. destruct (consume s u _) as [ok k'].
    apply (IH u (Some k') ts H3 Hk' Hd).
Qed.

Lemma window_bound s k t ts :
  configured r b s -> stamped t k -> t < 2 ^ 63 -> clocked t ts ->
  B * 1000000000 * admitted (serve b s (Some k) (t :: ts)) <=
  B * 1000000000 * b + (B + 4) * ((List.last ts t - t) * r) + zlen ts * b * 1000000000.
Proof.
  intros Hs [Hk Hl] Ht Hc. pose proof unit_pos as Hu. cbn [serve].
  assert (Hd : 0 <= t - last_fill_time k <= 2 ^ 63) by lia.
  pose proof (consume_spec r b Hr Hb s t k Hs Hk Hd) as Hcs.
  destruct (refill_bounds r b Hr Hb s t k Hs Hk Hd) as (_ & HRb & _).
  destruct (consume s t k) as [ok k']. destruct Hcs as (Hk' & Hl' & _ & Hv').
  pose proof (serve_bound r b Hr Hb s ts t k' Hs Hk' Hl' Hc) as Hb'.
  rewrite admitted_cons. apply (Z.mul_le_mono_pos_r _ _ unit Hu). destruct ok; lia.
Qed.

(** Gaps of a whole token, and one nanosecond for the rounding. *)
Fixpoint paced (now : Z) (ts : list Z) : Prop :=
  match ts with [] => True | u :: ts' => 1000000000 + r <= (u - now) * r /\ paced u ts' end.

Lemma serve_paced s k now ts :
  configured r b s -> bucket_ok b k -> last_fill_time k = now -> clocked now ts -> paced now ts ->
  serve b s (Some k) ts = replicate (length ts) true.
Proof.
  intros Hs. revert k now; induction ts as [|u ts IH]; intros k now Hk Hl Hc Hp; [done|].
  destruct Hc as (H1 & H2 & Hc), Hp as [Hp1 Hp]. cbn [serve].
  assert (Hd : 0 <= u - last_fill_time k <= 2 ^ 63) by lia.
  pose proof (consume_spec r b Hr Hb s u k Hs Hk Hd) as Hcs.
  assert (Hge : 1 * unit <= val (refill s u k)).
  { apply (refill_reaches r b Hr Hb); [done..|lia|]. rewrite Hl. unfold INT_MAX in *. lia. }
  destruct (consume s u k) as [ok k']. destruct Hcs as (Hk' & Hl' & -> & _).
  rewrite (IH k' u Hk' Hl' Hc Hp). rewrite (proj2 (Z.leb_le unit _)) by lia. done.
Qed.

End Clients.

(** ** The limiter *)

(** C35. Token counts stay well typed.  Whatever clients ask and whenever buckets are cleaned
    up, with a clock that does not run backwards every bucket holds a valid, finite,
    non-negative [double] (no NaN, no infinity, no negative zero) that does not
    exceed [burst_]. *)
Theorem tokens_well_typed r b os :
  1 <= r <= INT_MAX -> 1 <= b <= INT_MAX -> clocked 0 (time <$> os) ->
  map_Forall (fun _ k => nonneg (tokens k) = true /\ gtb (tokens k) (of_int b) = false)
    (token_buckets (run os (create r b)).2).
Proof.
  intros Hr Hb Hc. destruct (limiter_run_inv r b Hr Hb 0 os _ (limiter_create_inv r b) Hc) as (u & _ & _ & Hm).
  eapply map_Forall_impl; [exact Hm|]. intros key k [[Hk Hv] _]. destruct (burst_exact b Hb) as [Hbn Hbv].
  split; [done|]. rewrite gtb_val, Hbv by done. by apply Z.ltb_ge.
Qed.

(** Clients do not share tokens and cleanup is invisible.  If no bucket is dropped
    before it had time to fill up ([idle_sec * rate >= burst + 1]), the decisions for
    one client, in any interleaving with other clients and with cleanups, are those
    of a token bucket of its own. *)
Theorem private_buckets r b os key :
  1 <= r <= INT_MAX -> 1 <= b <= INT_MAX -> clocked 0 (time <$> os) -> Forall (patient r b) os ->
  decisions key (run os (create r b)).1 = serve b (create r b) None (times_of key os).
Proof. intros Hr Hb Hc Hp. by apply (run_private r b Hr Hb key 0); [apply limiter_create_inv|..]. Qed.

Lemma window_respected r b os key n t ts :
  1 <= r <= INT_MAX -> 1 <= b <= INT_MAX -> clocked 0 (time <$> os) -> Forall (patient r b) os ->
  drop n (times_of key os) = t :: ts ->
  zlen ts * b <= 2 ^ 51 -> r * (List.last ts t - t) <= 2 ^ 48 * 1000000000 ->
  admitted (drop n (decisions key (run os (create r b)).1)) * 1000000000 <=
  (b + 1) * 1000000000 + r * (List.last ts t - t).
Proof.
  intros Hr Hb Hc Hp Hd Hn Ht. rewrite (run_private r b Hr Hb key 0 os _ None (limiter_create_inv r b) Hc Hp I).
  pose proof (times_clocked key 0 os ltac:(lia) Hc) as Htc. assert (Hs : configured r b (create r b)) by done.
  destruct (serve_drop r b Hr Hb (create r b) n 0 None _ t ts Hs Htc I Hd) as (k & Hk & Hct & Ht63 & ->).
  pose proof (window_bound r b Hr Hb (create r b) k t ts Hs Hk Ht63 Hct) as Hw. lia.
Qed.

(** The rate is enforced.  In any execution and for any client, in every window that
    starts at one of its requests the number of admitted requests is at most [burst]
    plus [rate] per second of the window plus one for the rounding of the [double]s,
    provided the window has at most 2^51 / [burst] requests and is shorter than
    2^48 / [rate] seconds. *)
Theorem rate_limit_respected r b os key n t ts :
  1 <= r <= INT_MAX -> 1 <= b <= INT_MAX -> clocked 0 (time <$> os) -> Forall (patient r b) os ->
  drop n (times_of key os) = t :: ts ->
  zlen ts * b <= 2 ^ 51 -> r * (List.last ts t - t) <= 2 ^ 48 * 1000000000 ->
  admitted (drop n (decisions key (run os (create r b)).1)) * 1000000000 <=
  (b + 1) * 1000000000 + r * (List.last ts t - t).
Proof. apply window_respected. Qed.

(** A client that keeps to the rate is never refused: if each of its requests comes
    at least [1 / rate] seconds and one nanosecond after the one before, all are
    admitted. *)
Theorem paced_client_admitted r b os key t ts :
  1 <= r <= INT_MAX -> 1 <= b <= INT_MAX -> clocked 0 (time <$> os) -> Forall (patient r b) os ->
  times_of key os = t :: ts -> paced r t ts ->
  decisions key (run os (create r b)).1 = replicate (length (t :: ts)) true.
Proof.
  intros Hr Hb Hc Hp Hts Hpa. rewrite (run_private r b Hr Hb key 0 os _ None (limiter_create_inv r b) Hc Hp I), Hts.
  pose proof (times_clocked key 0 os ltac:(lia) Hc) as Htc. rewrite Hts in Htc. destruct Htc as (H1 & H2 & H3).
  assert (Hs : configured r b (create r b)) by done. cbn [serve length replicate].
  pose proof (fresh_ok b Hb t) as Hf.
  pose proof (consume_spec r b Hr Hb (create r b) t (fresh b t) Hs Hf ltac:(cbn [fresh last_fill_time]; lia)) as Hcs.
  rewrite (refill_instant r b Hr Hb (create r b) t (fresh b t) Hs Hf eq_refl) in Hcs.
  destruct (consume _ t _) as [ok k']. destruct Hcs as (Hk' & Hl' & -> & _).
  cbn [fresh tokens]. rewrite (proj2 (burst_exact b Hb)).
  rewrite (proj2 (Z.leb_le _ _)) by (pose proof unit_pos; nia).
  by rewrite (serve_paced r b Hr Hb (create r b) k' t ts Hs Hk' Hl' H3 Hpa).
Qed.

(** A burst at one instant from a client not seen before is admitted up to exactly
    [burst] requests and refused from there on, without any rounding error. *)
Theorem burst_admitted r b key now n :
  1 <= r <= INT_MAX -> 1 <= b <= INT_MAX -> 0 <= now < 2 ^ 63 ->
  decisions key (run (replicate n (Request key now)) (create r b)).1 =
  replicate (n `min` Z.to_nat b) true ++ replicate (n - Z.to_nat b) false.
Proof.
  intros Hr Hb Hn. assert (Hs : configured r b (create r b)) by done.
  assert (Ht : times_of key (replicate n (Request key now)) = replicate n now).
  { induction n as [|n IH]; [done|]. cbn [replicate]. unfold times_of. rewrite bind_cons, decide_True by done. by f_equal. }
  rewrite (run_private r b Hr Hb key 0 _ _ None (limiter_create_inv r b)), Ht.
  - destruct n as [|n]; [done|]. 
    change (serve b (create r b) None (replicate (S n) now)) with (serve b (create r b) (Some (fresh b now)) (replicate (S n) now)).
    apply (serve_instant r b); try done; [by apply fresh_ok|]. rewrite Z2Nat.id by lia. by apply burst_exact.
  - rewrite fmap_replicate. cbn [time]. clear Ht.
    assert (forall u, 0 <= u <= now -> clocked u (replicate n now)) as Hcl; [|apply Hcl; lia].
    induction n as [|n IH]; intros u Hu; [done|]. cbn [replicate clocked]. split_and!; [lia..|]. apply IH. lia.
  - apply Forall_replicate. done.
  - done.
Qed.

(** Requests the limiter cannot attribute pass: with a non-positive rate, without a key
    extractor, or when neither X-Forwarded-For nor X-Real-IP gives an address, the
    request is admitted and no bucket changes.  Otherwise the request is counted in
    the bucket of its key. *)
Theorem unattributed_requests_pass ctx now s :
  on_request ctx now s =
  if (rate s <=? 0) || bool_decide (limit_key ctx s = []) then (true, s) else take_token (limit_key ctx s) now s.
Proof.
  unfold on_request, limited. destruct (rate s <=? 0); [done|]. by destruct (limit_key ctx s).
Qed.

(** ** A limiter of one request per second and a burst of two *)

Definition alice : bytes := lit "10.0.0.1".
Definition bob : bytes := lit "10.0.0.2".
Definition second : Z := 1000000000.

(** Two clients, a cleanup of buckets idle for three seconds, and a late request. *)
Definition session : list op :=
  [Request alice 0; Request bob 0; Request alice 1; Request alice 2; Cleanup 3 second;
   Request alice (2 * second); Cleanup 3 (6 * second); Request alice (7 * second)].

(** C35 applied to that session. *)
Lemma tokens_well_typed_witness :
  map_Forall (fun _ k => nonneg (tokens k) = true /\ gtb (tokens k) (of_int 2) = false)
    (token_buckets (run session (create 1 2)).2).
Proof. apply tokens_well_typed; [done|done|]. by repeat split; vm_compute. Defined.

(** Applied to the first client of the session. *)
Lemma private_buckets_witness :
  decisions alice (run session (create 1 2)).1 = serve 2 (create 1 2) None (times_of alice session) /\
  decisions alice (run session (create 1 2)).1 = [true; true; false; true; true].
Proof.
  split; [|by vm_compute]. apply private_buckets; [done|done|by repeat split; vm_compute|].
  by repeat constructor; vm_compute.
Defined.

(** Applied to all requests of that client. *)
Lemma rate_limit_respected_witness :
  admitted (drop 0 (decisions alice (run session (create 1 2)).1)) * 1000000000 <= (2 + 1) * 1000000000 + 1 * (7 * second - 0).
Proof.
  apply (rate_limit_respected 1 2 session alice 0 0 [1; 2; 2 * second; 7 * second]); try done.
  by repeat constructor; vm_compute.
Defined.

(** Applied to a client that asks every two seconds. *)
Lemma paced_client_admitted_witness :
  decisions alice (run [Request alice 0; Request bob 1; Request alice (2 * second)] (create 1 2)).1 = [true; true].
Proof.
  apply (paced_client_admitted 1 2 _ alice 0 [2 * second]); try done.
  by repeat constructor.
Defined.

(** Applied to three requests at once. *)
Lemma burst_admitted_witness :
  decisions alice (run (replicate 3 (Request alice 5)) (create 1 2)).1 = [true; true; false].
Proof. by apply (burst_admitted 1 2 alice 5 3). Defined.

End RateLimit.
