(* ===== verification/Gateway.v ===== *)
(** * Gateway: src/core/gateway.cpp

    The request pipeline: parse, internal endpoints, request filters, routing,
    load balancing, circuit breaker, forwarding, statistics, response headers,
    keep-alive decision.  [process_request] is the body one worker runs for one
    request; what it does to the outside is a list of effects.  The clock values,
    the balancer's draw and the kernel's answers during the call are an argument.
    [None] is a forward that still waits or a filter that is undefined. *)

From S2P Require Import Prelude StdSort StdMap Utils Config Router Http HttpParser LoadBalancer CircuitBreaker BackendConnection BackendPool Proxy Stats Double Filters.

Module Gateway.
Import Config Http Filters.
Module CB := CircuitBreaker.
Module LB := LoadBalancer.
Open Scope Z_scope.

(** ** State *)

Record t (W : Type) := mk {
  config : GatewayConfig;
  router : list Route;
  proxy : Proxy.t;
  load_balancer : LB.t;
  circuit_breakers : gmap bytes CB.t;
  stats : Stats.t;
  filters : list (Filter W);
  world : W
}.
Arguments mk {W} _ _ _ _ _ _ _ _.
Arguments config {W} _. Arguments router {W} _. Arguments proxy {W} _.
Arguments load_balancer {W} _. Arguments circuit_breakers {W} _. Arguments stats {W} _.
Arguments filters {W} _. Arguments world {W} _.

Section Definitions.
Context {W : Type} `{StdSort} `{HashOrder}.

Definition create (c : GatewayConfig) (st : Stats.t) (w : W) : t W :=
  mk c (Router.create (routes c))
    (Proxy.set_pool (BackendPool.create (pool_max_idle_per_host c) (pool_idle_timeout_sec c))
       (Proxy.create (backend_timeout_ms c)))
    (LB.create LB.RoundRobin) ∅ st [] w.

Definition add_filter (f : Filter W) (g : t W) : t W :=
  mk (config g) (router g) (proxy g) (load_balancer g) (circuit_breakers g) (stats g)
    (filters g ++ [f]) (world g).

(** ** Internal endpoints *)

Definition print_average (a : option (Z * Z)) : bytes :=
  match a with
  | Some (sum, total) => Double.print (Double.div (Double.of_int sum) (Double.of_int total))
  | None => Double.print (Double.of_int 0)
  end.

Definition q : bytes := ["034"%char].
Definition field (name : string) (v : bytes) : bytes := q ++ lit name ++ q ++ lit ":" ++ v.

Definition route_json (name : bytes) (rs : Stats.RouteSnapshot) : bytes :=
  q ++ name ++ q ++ lit ":{"
    ++ field "requests" (Utils.to_string (Stats.total_requests (Stats.r_stats rs))) ++ lit ","
    ++ field "success" (Utils.to_string (Stats.success_count (Stats.r_stats rs))) ++ lit ","
    ++ field "errors" (Utils.to_string (Stats.error_count (Stats.r_stats rs))) ++ lit ","
    ++ field "avg_ms" (print_average (Stats.r_avg rs)) ++ lit "}".

(** The loop over the routes with its [first] flag. *)
Fixpoint routes_json (first : bool) (l : list (bytes * Stats.RouteSnapshot)) : bytes :=
  match l with
  | [] => []
  | (name, rs) :: l' => (if first then [] else lit ",") ++ route_json name rs ++ routes_json false l'
  end.

Definition stats_json (st : Stats.t) : bytes :=
  let snap := Stats.global_snapshot st in
  lit "{" ++ field "total_requests" (Utils.to_string (Stats.s_requests snap)) ++ lit ","
    ++ field "total_success" (Utils.to_string (Stats.s_success snap)) ++ lit ","
    ++ field "total_errors" (Utils.to_string (Stats.s_errors snap)) ++ lit ","
    ++ field "avg_latency_ms" (print_average (Stats.s_avg snap)) ++ lit ","
    ++ field "max_latency_ms" (Utils.to_string (Stats.s_max_latency snap)) ++ lit ","
    ++ field "in_flight" (Utils.to_string (Stats.s_in_flight snap)) ++ lit ","
    ++ field "upstream_errors" (Utils.to_string (Stats.s_upstream_errors snap)) ++ lit ","
    ++ field "circuit_breaker_trips" (Utils.to_string (Stats.s_cb_trips snap)) ++ lit ","
    ++ field "rate_limited" (Utils.to_string (Stats.s_rate_limited snap))
    ++ (let route_stats := iterate (Stats.route_snapshot st) in
        if bool_decide (route_stats = []) then []
        else lit "," ++ q ++ lit "routes" ++ q ++ lit ":{" ++ routes_json true route_stats ++ lit "}")
    ++ lit "}".

Definition handle_internal_endpoint (path : bytes) (st : Stats.t) : option bytes :=
  if bool_decide (path = lit "/stats") || bool_decide (path = lit "/stats/") then
    Some (lit "HTTP/1.1 200 OK" ++ CRLF ++ lit "Content-Type: application/json" ++ CRLF
            ++ lit "Connection: close" ++ CRLF ++ CRLF ++ stats_json st)
  else if bool_decide (path = lit "/health") || bool_decide (path = lit "/health/") then
    Some (lit "HTTP/1.1 200 OK" ++ CRLF ++ lit "Content-Length: 2" ++ CRLF
            ++ lit "Connection: close" ++ CRLF ++ CRLF ++ lit "OK")
  else None.

(** ** Circuit breakers *)

Definition set_breakers (m : gmap bytes CB.t) (g : t W) : t W :=
  mk (config g) (router g) (proxy g) (load_balancer g) m (stats g) (filters g) (world g).

(** [backend_timeout_ms * 2] as an [int]: the two's complement product where C++ leaves the
    overflow undefined. *)
Definition breaker_timeout_ms (c : GatewayConfig) : Z := i32 (backend_timeout_ms c * 2).

(** The breaker of a backend, created on first use. *)
Definition get_circuit_breaker (b : Backend) (g : t W) : CB.t * t W :=
  let key := LB.make_key b in
  match circuit_breakers g !! key with
  | Some cb => (cb, g)
  | None =>
      let cb := CB.create 5 (breaker_timeout_ms (config g)) 3 in
      (cb, set_breakers (<[key := cb]> (circuit_breakers g)) g)
  end.

(** A method call through the reference [cb]. *)
Definition put_breaker (b : Backend) (cb : CB.t) (g : t W) : t W :=
  set_breakers (<[LB.make_key b := cb]> (circuit_breakers g)) g.

(** ** Response headers *)

(** [s.insert(pos, x)], which throws beyond the end. *)
Definition string_insert (pos : nat) (x s : bytes) : option bytes :=
  if (pos <=? length s)%nat then Some (take pos s ++ x ++ drop pos s) else None.

Definition contains (needle s : bytes) : bool := bool_decide (find_sub needle s <> None).

(** Lines 122-137: the response and the cached end of its head. *)
Definition add_connection_header (raw_resp : bytes) : option (bytes * option nat) :=
  match find_sub CRLFCRLF raw_resp with
  | None => Some (raw_resp, None)
  | Some hdr_end =>
      let head := take (hdr_end + 2) raw_resp in
      let has_conn := contains (CRLF ++ lit "Connection:") head in
      let has_conn := if negb has_conn then contains (CRLF ++ lit "connection:") head else has_conn in
      if negb has_conn then
        out ← string_insert hdr_end (CRLF ++ lit "Connection: close") raw_resp;
        Some (out, Some (hdr_end + 21)%nat)
      else Some (raw_resp, Some hdr_end)
  end.

(** The status the response filters see. *)
Definition parse_status (out : bytes) : HttpResponse :=
  let parsed :=
    sp1 ← find_char SP out;
    sp2 ← find_char_from SP out (sp1 + 1);
    Utils.parse_int_safe (drop (sp1 + 1) out) (sp2 - (sp1 + 1)) in
  mkResponse (default 200 parsed) (status_text default_response) [] [].

(** The headers the filters added that the head does not have. *)
Fixpoint extra_headers (head : bytes) (hs : StdMap.t) : bytes :=
  match hs with
  | [] => []
  | (k, v) :: hs' =>
      let tag := CRLF ++ k ++ lit ":" in
      (if contains tag head then [] else CRLF ++ k ++ lit ": " ++ v) ++ extra_headers head hs'
  end.

Definition add_filter_headers (hdr_end : option nat) (hs : StdMap.t) (out : bytes) : option bytes :=
  match hdr_end with
  | None => Some out
  | Some pos =>
      if bool_decide (hs = []) then Some out
      else
        let extra := extra_headers (take pos out) hs in
        if bool_decide (extra = []) then Some out else string_insert pos extra out
  end.

(** Lines 180-185. *)
Definition keep_client (r : HttpRequest) (out : bytes) : bool :=
  let ka := request_keep_alive r in
  if ka && (contains (CRLF ++ lit "Connection: close") out
            || contains (CRLF ++ lit "connection: close") out)
  then false else ka.

(** ** The pipeline *)

Record env := mkEnv {
  allow_time : Z;
  begin_time : Z;
  end_time : Z;
  report_time : Z;
  lb_draw : nat;
  proxy_env : Proxy.env
}.

Inductive effect :=
  | Forward (b : Backend) (raw : bytes)
  | Send (out : bytes) (keep_alive : bool).

#[global] Instance effect_eq_dec : EqDecision effect.
Proof. solve_decision. Defined.

Definition resp503 : bytes :=
  lit "HTTP/1.1 503 Service Unavailable" ++ CRLF ++ lit "Content-Length: 19" ++ CRLF
    ++ lit "Connection: close" ++ CRLF ++ CRLF ++ lit "Service Unavailable".

Definition send_error_and_close (r : bytes) : list effect := [Send r false].

Definition set_proxy (p : Proxy.t) (g : t W) : t W :=
  mk (config g) (router g) p (load_balancer g) (circuit_breakers g) (stats g) (filters g) (world g).
Definition set_balancer (l : LB.t) (g : t W) : t W :=
  mk (config g) (router g) (proxy g) l (circuit_breakers g) (stats g) (filters g) (world g).
Definition set_stats (st : Stats.t) (g : t W) : t W :=
  mk (config g) (router g) (proxy g) (load_balancer g) (circuit_breakers g) st (filters g) (world g).
Definition set_world (w : W) (g : t W) : t W :=
  mk (config g) (router g) (proxy g) (load_balancer g) (circuit_breakers g) (stats g) (filters g) w.

(** Lines 68-74: the chain stops at the first filter that refuses. *)
Fixpoint run_request_filters (fs : list (Filter W)) (ctx : FilterContext) (w : W) :
    option (bool * FilterContext * W) :=
  match fs with
  | [] => Some (true, ctx, w)
  | f :: fs' =>
      '(ok, ctx, w) ← on_request f ctx w;
      if negb ok then Some (false, ctx, w) else run_request_filters fs' ctx w
  end.

(** Lines 154-156. *)
Fixpoint run_response_filters (fs : list (Filter W)) (ctx : FilterContext) (w : W) :
    option (FilterContext * W) :=
  match fs with
  | [] => Some (ctx, w)
  | f :: fs' => '(ctx, w) ← on_response f ctx w; run_response_filters fs' ctx w
  end.

(** [req] after filters have run: they may change it through [ctx.req]. *)
Definition request_of (r : HttpRequest) (ctx : FilterContext) : HttpRequest := default r (req ctx).

(** Lines 107-120. *)
Definition is_success (raw_resp : bytes) : bool :=
  negb (bool_decide (raw_resp = []))
    && negb (bool_decide (find_sub (lit "HTTP/1.1 5") raw_resp = Some 0%nat)).

Definition report (e : env) (r : HttpRequest) (b : Backend) (raw_resp : bytes) (g : t W) : t W :=
  let elapsed := Z.quot (end_time e - begin_time e) 1000000 in
  let g := set_stats (Stats.record_request (path r) elapsed (stats g)) g in
  let cb := (get_circuit_breaker b g).1 in
  if is_success raw_resp then
    put_breaker b (CB.on_success cb) (set_stats (Stats.record_success (path r) (stats g)) g)
  else
    put_breaker b (CB.on_failure (report_time e) cb)
      (set_stats (Stats.inc_upstream_errors (Stats.record_error (path r) (stats g))) g).

(** Lines 122-186: from the raw response to the bytes sent. *)
Definition respond (r : HttpRequest) (ctx : FilterContext) (raw_resp : bytes) (g : t W) :
    option (t W * effect) :=
  '(out, hdr_end) ← add_connection_header raw_resp;
  let ctx := mkContext (req ctx) (Some (parse_status out)) (request_id ctx) (start_time ctx) in
  '(ctx, w) ← run_response_filters (filters g) ctx (world g);
  let g := set_world w g in
  let hs := match resp ctx with Some p => resp_headers p | None => [] end in
  out ← add_filter_headers hdr_end hs out;
  Some (g, Send out (keep_client (request_of r ctx) out)).

Definition process_request (e : env) (raw : bytes) (g : t W) : option (t W * list effect) :=
  let '(ok, r) := HttpParser.parse_http_request raw empty_request in
  if negb ok then Some (g, send_error_and_close (Http.to_string (make_400 false)))
  else
    match handle_internal_endpoint (path r) (stats g) with
    | Some internal_resp => Some (g, [Send internal_resp false])
    | None =>
        '(accepted, ctx, w) ←
          run_request_filters (filters g) (mkContext (Some r) None [] 0) (world g);
        let g := set_world w g in
        if negb accepted then
          Some (set_stats (Stats.inc_rate_limited (stats g)) g,
                send_error_and_close (Http.to_string (make_400 false)))
        else
          let r := request_of r ctx in
          match Router.match_ (router g) (path r) with
          | None => Some (g, send_error_and_close (Http.to_string (make_404 false)))
          | Some bs =>
              let '(target, lb) := LB.select (lb_draw e) bs (load_balancer g) in
              let g := set_balancer lb g in
              let '(cb, g) := get_circuit_breaker target g in
              let '(allowed, cb) := CB.allow_request (allow_time e) cb in
              let g := put_breaker target cb g in
              if negb allowed then Some (g, send_error_and_close resp503)
              else
                let g := set_balancer (LB.on_connect target (load_balancer g)) g in
                '(raw_resp, px) ← Proxy.forward (proxy_env e) target raw (proxy g);
                let g := set_balancer (LB.on_disconnect target (load_balancer g)) (set_proxy px g) in
                let g := report e r target raw_resp g in
                '(g, sent) ← respond r ctx raw_resp g;
                Some (g, [Forward target raw; sent])
          end
    end.

(** ** Response headers *)

(** [head] is what stands before the first blank line of [raw]. *)
Definition splits (raw head body : bytes) : Prop :=
  raw = head ++ CRLFCRLF ++ body /\ find_sub CRLFCRLF raw = Some (length head).

Definition names_connection (head : bytes) : bool :=
  contains (CRLF ++ lit "Connection:") (head ++ CRLF)
    || contains (CRLF ++ lit "connection:") (head ++ CRLF).

Definition connection_close : bytes := CRLF ++ lit "Connection: close".

Lemma contains_app needle a b : contains needle (a ++ needle ++ b) = true.
Proof.
  unfold contains. apply bool_decide_eq_true. destruct (find_sub_least needle a b) as (i & -> & _).
  done.
Qed.

Lemma string_insert_app a x b : string_insert (length a) x (a ++ b) = Some (a ++ x ++ b).
Proof.
  unfold string_insert. destruct (Nat.leb_spec (length a) (length (a ++ b))) as [|Hl].
  - by rewrite take_app_length, drop_app_length.
  - rewrite length_app in Hl. lia.
Qed.

Lemma split_head head body : take (length head + 2) (head ++ CRLFCRLF ++ body) = head ++ CRLF.
Proof. by rewrite take_app_add. Qed.

Lemma add_connection_present raw head body :
  splits raw head body -> names_connection head = true ->
  add_connection_header raw = Some (raw, Some (length head)).
Proof.
  intros [-> Hf] Hc. unfold add_connection_header. rewrite Hf, split_head.
  unfold names_connection in Hc. cbv zeta.
  destruct (contains (CRLF ++ lit "Connection:") _); [done|]. cbn [orb] in Hc. by rewrite Hc.
Qed.

Lemma add_connection_missing raw head body :
  splits raw head body -> names_connection head = false ->
  add_connection_header raw
  = Some (head ++ connection_close ++ CRLFCRLF ++ body, Some (length head + 21)%nat).
Proof.
  intros [-> Hf] Hc. unfold add_connection_header. rewrite Hf, split_head.
  unfold names_connection in Hc. apply orb_false_iff in Hc as [H1 H2].
  cbv zeta. rewrite H1. cbn [negb]. rewrite H2. cbn [negb].
  by rewrite string_insert_app.
Qed.

Lemma add_filter_headers_at hs a b :
  add_filter_headers (Some (length a)) hs (a ++ b) = Some (a ++ extra_headers a hs ++ b).
Proof.
  unfold add_filter_headers. split_if; [by subst|]. rewrite take_app_length. split_if.
  - by match goal with E : extra_headers _ _ = [] |- _ => rewrite E end.
  - apply string_insert_app.
Qed.

Lemma extra_headers_crlf head hs :
  extra_headers head hs = [] \/ exists x, extra_headers head hs = CRLF ++ x.
Proof.
  induction hs as [|[k v] hs IH]; simpl; [by left|]. destruct (contains _ head); [done|].
  right. by eexists.
Qed.

Lemma prefixb_take p u : prefixb p (take (length p) u) = prefixb p u.
Proof.
  revert u; induction p as [|a p IH]; intros [|b u]; simpl; try done. by rewrite IH.
Qed.

Lemma prefixb_window p a b j :
  (j + length p <= length a)%nat -> prefixb p (drop j (a ++ b)) = prefixb p (drop j a).
Proof.
  intros Hl. rewrite <- (prefixb_take p (drop j (a ++ b))), <- (prefixb_take p (drop j a)).
  by rewrite drop_app_le, take_app_le by (rewrite ?length_drop; lia).
Qed.

(** The first blank line of a response whose Connection header was inserted. *)
Lemma blank_line_after_insert head body rest :
  find_sub CRLFCRLF (head ++ CRLFCRLF ++ body) = Some (length head) ->
  find_sub CRLFCRLF (head ++ connection_close ++ CRLFCRLF ++ rest) = Some (length head + 19)%nat.
Proof.
  rewrite !find_sub_Some_iff. intros (_ & _ & Hbefore). split.
  { rewrite !length_app. change (length connection_close) with 19%nat. lia. }
  split.
  { rewrite drop_app_add. done. }
  intros j Hj. destruct (decide (j + 4 <= length head + 2)%nat) as [Hin|Hout].
  - specialize (Hbefore j ltac:(lia)).
    assert (j + length CRLFCRLF <= length (head ++ CRLF))%nat as Hw by (rewrite length_app; simpl; lia).
    change (head ++ connection_close ++ CRLFCRLF ++ rest)
      with (head ++ CRLF ++ (lit "Connection: close" ++ CRLFCRLF ++ rest)).
    change (head ++ CRLFCRLF ++ body) with (head ++ CRLF ++ (CRLF ++ body)) in Hbefore.
    rewrite app_assoc, prefixb_window in Hbefore by done.
    by rewrite app_assoc, prefixb_window.
  - destruct (decide (j < length head)%nat) as [Hlt|Hge].
    + assert (exists c, drop j head = [c]) as [c Hc].
      { assert (length (drop j head) = 1)%nat as Hl by (rewrite length_drop; lia).
        destruct (drop j head) as [|c [|]]; try done. by exists c. }
      rewrite drop_app_le by lia. rewrite Hc. simpl. by rewrite andb_false_r.
    + replace j with (length head + (j - length head))%nat by lia. rewrite drop_app_add.
      remember (j - length head)%nat as k eqn:Ek. assert (k < 19)%nat as Hk by lia. clear - Hk.
      do 19 (destruct k as [|k]; [done|]). lia.
Qed.

(** What the response filters see for the response [out]. *)
Definition response_context (ctx : FilterContext) (out : bytes) : FilterContext :=
  mkContext (req ctx) (Some (parse_status out)) (request_id ctx) (start_time ctx).

Definition filter_headers (ctx : FilterContext) : StdMap.t :=
  match resp ctx with Some p => resp_headers p | None => [] end.

(** A backend response that names a Connection header reaches the client
    unchanged but for the headers the filters add: they stand after the head and
    before the blank line, none of them repeats a header the head has, and the
    body is untouched. *)
Theorem response_relayed (r : HttpRequest) (ctx ctx' : FilterContext) (raw head body : bytes)
    (g : t W) (w' : W) :
  splits raw head body -> names_connection head = true ->
  run_response_filters (filters g) (response_context ctx raw) (world g) = Some (ctx', w') ->
  exists out, respond r ctx raw g = Some (set_world w' g, Send out (keep_client (request_of r ctx') out)) /\
    out = head ++ extra_headers head (filter_headers ctx') ++ CRLFCRLF ++ body.
Proof.
  intros Hs Hc Hf. unfold respond. rewrite (add_connection_present raw head body) by done.
  cbn [mbind option_bind]. cbv zeta. unfold response_context in Hf. rewrite Hf. cbn [mbind option_bind].
  destruct Hs as [-> _]. fold (filter_headers ctx'). rewrite add_filter_headers_at. by eexists.
Qed.

(** C22. A backend response without a Connection header gets one that closes the
    connection, whatever the client asked for.  When a filter has a header to add
    as well, that header lands behind the blank line: the client finds the end of
    the head right after the inserted line and reads the filter's header as the
    first bytes of the body. *)
Theorem filter_header_lands_in_body (r : HttpRequest) (ctx ctx' : FilterContext)
    (raw head body : bytes) (g : t W) (w' : W) :
  splits raw head body -> names_connection head = false ->
  let closing := head ++ connection_close ++ CRLFCRLF ++ body in
  let extra := extra_headers (head ++ connection_close ++ CRLF) (filter_headers ctx') in
  run_response_filters (filters g) (response_context ctx closing) (world g) = Some (ctx', w') ->
  exists out, respond r ctx raw g = Some (set_world w' g, Send out false) /\
    (extra = [] -> out = closing) /\
    (extra <> [] -> exists line, extra = CRLF ++ line /\
       splits out (head ++ connection_close) (line ++ CRLF ++ body)).
Proof.
  intros Hs Hc closing extra Hf. unfold respond. rewrite (add_connection_missing raw head body) by done.
  cbn [mbind option_bind]. cbv zeta. fold closing. fold (response_context ctx closing). rewrite Hf. cbn [mbind option_bind].
  fold (filter_headers ctx').
  assert (closing = (head ++ connection_close ++ CRLF) ++ CRLF ++ body) as Ec.
  { unfold closing. by rewrite <- !app_assoc. }
  assert (length head + 21 = length (head ++ connection_close ++ CRLF))%nat as El
    by (rewrite length_app; done).
  rewrite Ec, El, add_filter_headers_at. cbn [mbind option_bind]. fold extra.
  set (out := (head ++ connection_close ++ CRLF) ++ extra ++ CRLF ++ body).
  assert (keep_client (request_of r ctx') out = false) as ->.
  { unfold keep_client. split_if; [done|]. destruct (request_keep_alive _); [|done].
    assert (contains (CRLF ++ lit "Connection: close") out = true) as Hk; [|by rewrite Hk in *].
    unfold out. rewrite <- !app_assoc. fold connection_close. apply contains_app. }
  exists out. split; [done|]. split.
  - intros He. unfold out. by rewrite He.
  - intros He. destruct (extra_headers_crlf (head ++ connection_close ++ CRLF) (filter_headers ctx'))
      as [?|[line Hline]]; [done|]. fold extra in Hline. exists line. split; [done|].
    assert (out = (head ++ connection_close) ++ CRLFCRLF ++ line ++ CRLF ++ body) as Eo.
    { unfold out. rewrite Hline, <- !app_assoc. done. }
    split; [done|]. rewrite Eo, <- app_assoc, length_app.
    apply (blank_line_after_insert head body). destruct Hs as [-> Hs]. exact Hs.
Qed.

(** ** The pipeline *)

Lemma request_filters_defined fs ctx w r :
  Forall FilterOk fs -> req ctx = Some r ->
  exists ok ctx' w', run_request_filters fs ctx w = Some (ok, ctx', w') /\ req ctx' = Some r.
Proof.
  intros Hfs. revert ctx w; induction Hfs as [|f fs Hf _ IH]; intros ctx w Hr; simpl; [by eauto|].
  destruct (request_defined ctx w r Hr) as (ok & ctx' & w' & -> & Hr'). simpl.
  destruct ok; simpl; eauto.
Qed.

Lemma response_filters_defined fs ctx w r p :
  Forall FilterOk fs -> req ctx = Some r -> resp ctx = Some p ->
  exists ctx' w', run_response_filters fs ctx w = Some (ctx', w').
Proof.
  intros Hfs. revert ctx w p; induction Hfs as [|f fs Hf _ IH]; intros ctx w p Hr Hp; simpl; [by eauto|].
  destruct (response_defined ctx w r p Hr Hp) as (ctx' & w' & p' & -> & Hr' & Hp'). simpl. eauto.
Qed.

Lemma respond_defined r ctx raw g :
  Forall FilterOk (filters g) -> is_Some (req ctx) ->
  exists g' out ka, respond r ctx raw g = Some (g', Send out ka).
Proof.
  intros Hfs [rq Hr].
  assert (forall out, exists ctx' w',
    run_response_filters (filters g) (response_context ctx out) (world g) = Some (ctx', w')) as Hrun.
  { intros out. by apply (response_filters_defined _ _ _ rq (parse_status out)). }
  destruct (find_sub CRLFCRLF raw) as [i|] eqn:E.
  - assert (splits raw (take i raw) (drop (i + 4) raw)) as Hs.
    { apply find_sub_Some in E as E'. destruct E' as [[b Hb] Hl].
      assert (length (take i raw) = i) as Et by (rewrite length_take; lia).
      split; [|by rewrite Et]. rewrite Hb at 1. f_equal. f_equal. rewrite Hb, app_assoc, drop_app_ge;
      rewrite length_app, Et; simpl; [|lia]. by replace (i + 4 - (i + 4))%nat with 0%nat by lia. }
    destruct (names_connection (take i raw)) eqn:Hc.
    + destruct (Hrun raw) as (ctx' & w' & Hf). unfold respond.
      rewrite (add_connection_present raw _ _ Hs Hc). cbn [mbind option_bind]. cbv zeta.
      unfold response_context in Hf. rewrite Hf. cbn [mbind option_bind]. destruct Hs as [Hraw _].
      remember (take i raw) as head eqn:Eh. clear Eh. rewrite Hraw, add_filter_headers_at. simpl. eauto.
    + unfold respond. rewrite (add_connection_missing raw _ _ Hs Hc). cbn [mbind option_bind]. cbv zeta.
      set (head := take i raw). set (body := drop (i + 4) raw).
      destruct (Hrun (head ++ connection_close ++ CRLFCRLF ++ body)) as (ctx' & w' & Hf).
      unfold response_context in Hf. rewrite Hf. cbn [mbind option_bind].
      replace (head ++ connection_close ++ CRLFCRLF ++ body)
        with ((head ++ connection_close ++ CRLF) ++ CRLF ++ body) by (by rewrite <- !app_assoc).
      replace (length head + 21)%nat with (length (head ++ connection_close ++ CRLF))
        by (rewrite length_app; done).
      rewrite add_filter_headers_at. simpl. eauto.
  - unfold respond, add_connection_header. rewrite E. cbn [mbind option_bind]. cbv zeta.
    destruct (Hrun raw) as (ctx' & w' & Hf). unfold response_context in Hf. rewrite Hf. simpl. eauto.
Qed.

(** C5. Every request is answered exactly once: with filters that keep their
    contract and a forward that returns, the pipeline neither throws nor stops; it
    sends one response, forwards at most once and before it responds, and a
    request that was not forwarded is answered with a closing response and leaves
    the backend connections as they were. *)
Theorem every_request_answered (e : env) (raw : bytes) (g : t W) :
  Forall FilterOk (filters g) ->
  (forall b px, is_Some (Proxy.forward (proxy_env e) b raw px)) ->
  exists g' out, 
    (process_request e raw g = Some (g', [Send out false]) /\ proxy g' = proxy g) \/
    (exists b ka, process_request e raw g = Some (g', [Forward b raw; Send out ka])).
Proof.
  intros Hfs Hfw. unfold process_request, send_error_and_close.
  destruct (HttpParser.parse_http_request raw empty_request) as [[] r]; cbn [negb]; [|by eauto].
  destruct (handle_internal_endpoint (path r) (stats g)); [by eauto|].
  destruct (request_filters_defined (filters g) (mkContext (Some r) None [] 0) (world g) r Hfs eq_refl)
    as (ok & ctx & w & -> & Hr). cbn [mbind option_bind].
  destruct ok; cbn [negb]; [|by eauto].
  destruct (Router.match_ _ _) as [bs|]; [|by eauto].
  destruct (LB.select _ _ _) as [b lb]. 
  destruct (get_circuit_breaker b _) as [cb g1] eqn:Eg.
  assert (proxy g1 = proxy g /\ filters g1 = filters g) as [Hp Hg1].
  { unfold get_circuit_breaker in Eg. destruct (circuit_breakers _ !! _); by injection Eg as <- <-. }
  destruct (CB.allow_request _ _) as [[] cb']; cbn [negb]; [|by do 2 eexists; left; split; [done|exact Hp]].
  destruct (Hfw b (proxy (set_balancer (LB.on_connect b (load_balancer (put_breaker b cb' g1)))
                            (put_breaker b cb' g1)))) as [[resp px] ->]. cbn [mbind option_bind].
  cbv zeta. 
  match goal with |- context [respond _ ctx resp ?g0] =>
    destruct (respond_defined (request_of r ctx) ctx resp g0) as (g2 & out & ka & ->) end.
  - unfold report. cbv zeta. destruct (is_success resp); simpl; by rewrite Hg1.
  - by rewrite Hr.
  - cbn [mbind option_bind]. do 2 eexists. right. by do 2 eexists.
Qed.

(** The breaker a request for [b] meets. *)
Definition breaker (b : Backend) (g : t W) : CB.t := (get_circuit_breaker b g).1.

Lemma breaker_default b g :
  breaker b g = default (CB.create 5 (breaker_timeout_ms (config g)) 3)
                  (circuit_breakers g !! LB.make_key b).
Proof. unfold breaker, get_circuit_breaker. by destruct (circuit_breakers g !! _). Qed.

Lemma breaker_put b cb g : breaker b (put_breaker b cb g) = cb.
Proof. rewrite breaker_default. simpl. by rewrite lookup_insert_eq. Qed.

Lemma respond_state r ctx raw g g' x :
  respond r ctx raw g = Some (g', x) ->
  exists w out ka, g' = set_world w g /\ x = Send out ka.
Proof.
  unfold respond. destruct (add_connection_header _) as [[o h]|]; cbn [mbind option_bind]; [|done].
  destruct (run_response_filters _ _ _) as [[? w]|]; cbn [mbind option_bind]; [|done].
  destruct (add_filter_headers _ _ _) as [out|]; cbn [mbind option_bind]; [|done].
  intros [= <- <-]. by eexists w, out, _.
Qed.

Lemma report_state e r b resp g :
  breaker b (report e r b resp g)
    = (if is_success resp then CB.on_success else CB.on_failure (report_time e)) (breaker b g) /\
  config (report e r b resp g) = config g /\ router (report e r b resp g) = router g /\
  filters (report e r b resp g) = filters g.
Proof.
  unfold report. cbv zeta. destruct (is_success resp); rewrite breaker_put; repeat split;
    match goal with |- context [(get_circuit_breaker b ?g0).1] =>
      change (get_circuit_breaker b g0).1 with (breaker b g0) end;
    by rewrite !breaker_default.
Qed.

(** All that can happen before a forward, and the state it starts from. *)
Lemma process_request_forward e raw raw' g g' effs b :
  process_request e raw g = Some (g', effs) -> Forward b raw' ∈ effs ->
  raw' = raw /\ exists r ctx w bs lb resp px,
    HttpParser.parse_http_request raw empty_request = (true, r) /\
    handle_internal_endpoint (path r) (stats g) = None /\
    run_request_filters (filters g) (mkContext (Some r) None [] 0) (world g) = Some (true, ctx, w) /\
    Router.match_ (router g) (path (request_of r ctx)) = Some bs /\
    LB.select (lb_draw e) bs (load_balancer g) = (b, lb) /\
    fst (CB.allow_request (allow_time e) (breaker b g)) = true /\
    Proxy.forward (proxy_env e) b raw (proxy g) = Some (resp, px) /\
    config g' = config g /\ router g' = router g /\ filters g' = filters g /\
    breaker b g' =
      (if is_success resp then CB.on_success else CB.on_failure (report_time e))
        (snd (CB.allow_request (allow_time e) (breaker b g))).
Proof.
  intros Hp Hin. revert Hp. unfold process_request, send_error_and_close.
  destruct (HttpParser.parse_http_request raw empty_request) as [[] r]; cbn [negb];
    [|intros [= <- <-]; set_solver].
  destruct (handle_internal_endpoint (path r) (stats g)) eqn:Ei; [intros [= <- <-]; set_solver|].
  destruct (run_request_filters _ _ _) as [[[[] ctx] w]|] eqn:Ef; cbn [mbind option_bind negb]; [|
    intros [= <- <-]; set_solver|done].
  cbn [router set_world]. destruct (Router.match_ _ _) as [bs|] eqn:Em; [|intros [= <- <-]; set_solver].
  cbn [load_balancer set_world]. destruct (LB.select _ _ _) as [target lb] eqn:Es.
  destruct (get_circuit_breaker target _) as [cb g1] eqn:Eg.
  assert (cb = breaker target g /\ proxy g1 = proxy g /\ config g1 = config g /\ router g1 = router g
    /\ filters g1 = filters g) as (Ecb & Hpx & Hcf & Hrt & Hfl).
  { rewrite breaker_default. revert Eg. unfold get_circuit_breaker. cbn [circuit_breakers set_balancer set_world config].
    destruct (circuit_breakers g !! _); by intros [= <- <-]. }
  destruct (CB.allow_request (allow_time e) cb) as [[] cb'] eqn:Ea; cbn [negb]; [|intros [= <- <-]; set_solver].
  destruct (Proxy.forward _ _ _ _) as [[resp px]|] eqn:Ew; cbn [mbind option_bind]; [|done].
  destruct (respond _ _ _ _) as [[g2 sent]|] eqn:Er; cbn [mbind option_bind]; [|done].
  intros [= <- <-].
  destruct (respond_state _ _ _ _ _ _ Er) as (w2 & out & ka & -> & ->).
  assert (target = b /\ raw' = raw) as [-> ->] by set_solver. split; [done|].
  exists r, ctx, w, bs, lb, resp, px. rewrite <- Ecb, Ea. cbn [fst snd].
  repeat (split; [done|]).
  match goal with |- context [report e ?r1 b resp ?g0] =>
    destruct (report_state e r1 b resp g0) as (Hb & Hc & Ho & Hl) end.
  cbn [config router filters set_world]. rewrite Hc, Ho, Hl. cbn [set_balancer set_proxy config router filters].
  split; [by rewrite <- Hpx|]. repeat (split; [done|]).
  etransitivity; [etransitivity; [|exact Hb]|].
  - by rewrite !breaker_default.
  - rewrite breaker_default. cbn [circuit_breakers set_balancer set_proxy put_breaker set_breakers].
    by rewrite lookup_insert_eq.
Qed.

(** C6. A request is forwarded only when everything in front of the backend let it
    through: it parsed, its path is not an internal endpoint, every filter
    accepted it, a route matches its path, and the backend it goes to is one of
    that route's backends whose circuit breaker admits it.  The bytes forwarded
    are the bytes received. *)
Theorem forward_only_when_admitted (e : env) (raw raw' : bytes) (g g' : t W) (effs : list effect)
    (b : Backend) :
  process_request e raw g = Some (g', effs) -> Forward b raw' ∈ effs ->
  raw' = raw /\
  exists r ctx w bs,
    HttpParser.parse_http_request raw empty_request = (true, r) /\
    handle_internal_endpoint (path r) (stats g) = None /\
    run_request_filters (filters g) (mkContext (Some r) None [] 0) (world g) = Some (true, ctx, w) /\
    Router.match_ (router g) (path (request_of r ctx)) = Some bs /\
    (bs <> [] -> (lb_draw e < length bs)%nat -> b ∈ bs) /\
    fst (CB.allow_request (allow_time e) (breaker b g)) = true.
Proof.
  intros Hp Hin. destruct (process_request_forward _ _ _ _ _ _ _ Hp Hin)
    as (-> & r & ctx & w & bs & lb & resp & px & H1 & H2 & H3 & H4 & H5 & H6 & _).
  split; [done|]. exists r, ctx, w, bs. repeat (split; [done|]). split; [|done].
  intros Hne Hd. change b with (b, lb).1. rewrite <- H5. by apply LB.select_member.
Qed.

(** ** Isolation of a failing backend *)

(** A backend timeout above 2^30 ms, which the loader accepts, turns the breaker off: twice
    the timeout does not fit an [int], the wrapped product is negative, and a breaker made
    with it lets every request through although it is open. *)
Theorem long_timeout_disables_breaker (b : Backend) (g : t W) (cs : list CB.call) (now : Z) :
  circuit_breakers g !! LB.make_key b = None -> INT_MAX < backend_timeout_ms (config g) * 2 <= 2 * INT_MAX ->
  CB.state (CB.run cs (breaker b g)) = CB.Open -> CB.opened_at (CB.run cs (breaker b g)) <= now ->
  (CB.allow_request now (CB.run cs (breaker b g))).1 = true.
Proof.
  intros Hn Ht Ho Hle. rewrite breaker_default, Hn in *. cbn [default] in *.
  unfold CB.allow_request, CB.reset_timeout_ns. rewrite Ho, CB.run_reset_timeout. cbn [CB.reset_timeout_ms CB.create].
  assert (breaker_timeout_ms (config g) < 0).
  { unfold breaker_timeout_ms, i32, INT_MAX in *. set (x := backend_timeout_ms (config g) * 2) in *.
    rewrite <- (Z.mod_unique (x + 2147483648) 4294967296 1 (x - 2147483648)); lia. }
  split_if; [done|lia].
Qed.

(** A run of requests that were all forwarded to [b] and all failed there. *)
Inductive failing (b : Backend) : list (env * bytes) -> t W -> t W -> Prop :=
  | failing_nil g : failing b [] g g
  | failing_cons e raw g g1 g2 effs resp px l :
      process_request e raw g = Some (g1, effs) -> Forward b raw ∈ effs ->
      Proxy.forward (proxy_env e) b raw (proxy g) = Some (resp, px) -> is_success resp = false ->
      failing b l g1 g2 -> failing b ((e, raw) :: l) g g2.

Lemma failing_breaker b l g g' :
  failing b l g g' -> CB.state (breaker b g) = CB.Closed -> 0 <= CB.failure_count (breaker b g) ->
  CB.failure_count (breaker b g) + zlen l <= CB.failure_threshold (breaker b g) ->
  breaker b g' = CB.run (CB.Failure <$> ((fun x => report_time x.1) <$> l)) (breaker b g).
Proof.
  induction 1 as [|e raw g g1 g2 effs resp px l Hp Hin Hw Hs Hl IH]; intros Hc H0' Hle; [done|].
  destruct (process_request_forward _ _ _ _ _ _ _ Hp Hin)
    as (_ & r & ctx & w & bs & lb & resp' & px' & _ & _ & _ & _ & _ & _ & Hw' & _ & _ & _ & Hb).
  rewrite Hw in Hw'. injection Hw' as <- <-. rewrite Hs in Hb.
  assert (CB.allow_request (allow_time e) (breaker b g) = (true, breaker b g)) as Ha
    by (unfold CB.allow_request; by rewrite Hc).
  rewrite Ha in Hb. cbn [snd] in Hb. rewrite !fmap_cons, CB.run_cons. cbn [CB.exec fst].
  rewrite <- Hb. rewrite zlen_cons in Hle. pose proof (zlen_nonneg l).
  destruct l as [|x l]; [by inversion Hl; subst|]. rewrite zlen_cons in *. pose proof (zlen_nonneg l).
  apply IH; rewrite Hb; unfold CB.on_failure; cbn -[Z.add Z.leb]; rewrite Hc; split_if; simpl; try done; lia.
Qed.

(** Five consecutive failures isolate a backend: when the first five requests
    forwarded to it have all failed (a 5xx answer, or the gateway's own 502 for a
    refused connection), every later request balanced to it within the
    breaker timeout of the fifth failure is answered 503 at once; nothing is
    forwarded and no connection is opened. *)
Theorem failing_backend_isolated (b : Backend) (reqs : list (env * bytes)) (last : env * bytes)
    (g0 g : t W) (e : env) (raw : bytes) (r : HttpRequest) (ctx : FilterContext) (w : W)
    (bs : list Backend) (lb : LB.t) :
  circuit_breakers g0 !! LB.make_key b = None ->
  length reqs = 4%nat -> failing b (reqs ++ [last]) g0 g ->
  HttpParser.parse_http_request raw empty_request = (true, r) ->
  handle_internal_endpoint (path r) (stats g) = None ->
  run_request_filters (filters g) (mkContext (Some r) None [] 0) (world g) = Some (true, ctx, w) ->
  Router.match_ (router g) (path (request_of r ctx)) = Some bs ->
  LB.select (lb_draw e) bs (load_balancer g) = (b, lb) ->
  allow_time e - report_time last.1 < breaker_timeout_ms (config g0) * 1000000 ->
  exists g', process_request e raw g = Some (g', [Send resp503 false]) /\ proxy g' = proxy g.
Proof.
  intros Hnew Hlen Hfail Hparse Hint Hfilt Hroute Hsel Htime.
  assert (breaker b g0 = CB.create 5 (breaker_timeout_ms (config g0)) 3) as H0'
    by (by rewrite breaker_default, Hnew).
  assert (zlen reqs = 4) as Hz by (unfold zlen; lia).
  assert (breaker b g = CB.run (CB.Failure <$> ((fun x => report_time x.1) <$> (reqs ++ [last])))
            (breaker b g0)) as Hb.
  { apply failing_breaker; [done| | |]; rewrite H0'; simpl; [done|lia|].
    rewrite zlen_app, Hz. done. }
  rewrite H0', !fmap_app, CB.run_app in Hb.
  set (cb4 := CB.run _ (CB.create _ _ _)) in Hb.
  destruct (CB.closed_failures ((fun x => report_time x.1) <$> reqs)
              (CB.create 5 (breaker_timeout_ms (config g0)) 3)) as (C1 & C2 & C3);
    [done|done|simpl; unfold zlen; rewrite length_fmap; lia|].
  fold cb4 in C1, C2, C3. simpl in C2, C3.
  assert (zlen ((fun x : env * bytes => report_time x.1) <$> reqs) = 4) as Hz'
    by (unfold zlen in *; by rewrite length_fmap).
  assert (CB.reset_timeout_ms cb4 = breaker_timeout_ms (config g0)) as Hr
    by (unfold cb4; by rewrite CB.run_reset_timeout).
  assert (fst (CB.allow_request (allow_time e) (breaker b g)) = false /\
          snd (CB.allow_request (allow_time e) (breaker b g)) = breaker b g) as [Ha _].
  { rewrite Hb. cbn [fmap list_fmap CB.run fold_left CB.exec].
    unfold CB.on_failure. cbn -[Z.add Z.leb]. rewrite C1. split_if; [|lia].
    unfold CB.allow_request, CB.reset_timeout_ns. cbn -[Z.mul Z.leb Z.sub]. rewrite Hr.
    split_if; [lia|done]. }
  unfold process_request, send_error_and_close. rewrite Hparse. cbn [negb]. rewrite Hint, Hfilt.
  cbn [mbind option_bind negb router set_world load_balancer]. rewrite Hroute, Hsel.
  destruct (get_circuit_breaker b _) as [cb g1] eqn:Eg.
  assert (cb = breaker b g /\ proxy g1 = proxy g) as [-> Hpx].
  { rewrite breaker_default. revert Eg. unfold get_circuit_breaker.
    cbn [circuit_breakers set_balancer set_world config].
    destruct (circuit_breakers g !! _); by intros [= <- <-]. }
  destruct (CB.allow_request (allow_time e) (breaker b g)) as [ok cb']. simpl in Ha. subst ok.
  cbn [negb]. eexists. split; [done|]. exact Hpx.
Qed.

End Definitions.

(** ** Evaluated examples *)

(** A backend that refuses connections and whose pooled ones are closed. *)
Definition down : Proxy.env :=
  let dead := BackendConnection.Build_alive_env 0 0 0 0 in
  Proxy.Build_env (fun _ => dead) 0 (BackendConnection.Build_connect_env 7 1 (-1) 111 0 0 0 0)
    [] [] 0 (fun _ => dead).

Lemma pop_alive_dead now q :
  (BackendPool.pop_alive (fun _ => BackendConnection.Build_alive_env 0 0 0 0) now q).1 = None.
Proof.
  induction q as [|c q IH]; simpl; [done|]. unfold BackendConnection.is_alive. simpl.
  by destruct (BackendConnection.fd c <? 0).
Qed.

Lemma forward_down b raw px :
  exists px', Proxy.forward down b raw px = Some (Proxy.make_502_response, px').
Proof.
  unfold Proxy.forward. destruct (Proxy.pool px) as [p|]; [|by eexists].
  unfold Proxy.forward_pooled, BackendPool.acquire, BackendPool.acquire_idle.
  cbn [Proxy.alive_at_acquire Proxy.acquire_time Proxy.conn_env down].
  pose proof (pop_alive_dead 0 (BackendPool.idle (BackendPool.entry (BackendPool.make_key b) p))) as Hd.
  destruct (BackendPool.pop_alive _ _ _) as [c q']. simpl in Hd. subst c. simpl. by eexists.
Qed.

Definition sample_raw : bytes :=
  lit "GET /api/user/7 HTTP/1.1" ++ CRLF ++ lit "Host: a" ++ CRLFCRLF.
Definition sample_gateway : t World :=
  add_filter LoggingFilter (add_filter RequestIdFilter
    (create load_default_config Stats.create (mkWorld 5 [] 3))).
Definition sample_backend : Backend := mkBackend (lit "127.0.0.1") 9001.

(** A failing request at time [now]. *)
Definition down_at (now : Z) : env := mkEnv now now now now 0 down.

(** C5 applied to the default configuration with its filters and a dead backend. *)
Lemma every_request_answered_witness :
  exists g' out,
    (process_request (down_at 9) sample_raw sample_gateway = Some (g', [Send out false]) /\
     proxy g' = proxy sample_gateway) \/
    (exists b ka, process_request (down_at 9) sample_raw sample_gateway
                  = Some (g', [Forward b sample_raw; Send out ka])).
Proof.
  apply (every_request_answered (down_at 9) sample_raw sample_gateway).
  - repeat (apply Forall_cons; split; [apply _|]). apply Forall_nil_2.
  - intros b px. destruct (forward_down b sample_raw px) as [px' E]. cbn [proxy_env down_at].
    rewrite E. by eexists.
Defined.

(** The state after [n] failing requests, and what each of them does. *)
Fixpoint after (n : nat) : t World :=
  match n with
  | O => sample_gateway
  | S n' => match process_request (down_at (Z.of_nat n)) sample_raw (after n') with
            | Some (g, _) => g
            | None => after n'
            end
  end.

Definition effects_of (n : nat) : list effect :=
  match process_request (down_at (Z.of_nat (S n))) sample_raw (after n) with
  | Some (_, effs) => effs
  | None => []
  end.

Lemma after_step n :
  bool_decide (Forward sample_backend sample_raw ∈ effects_of n) = true ->
  process_request (down_at (Z.of_nat (S n))) sample_raw (after n) = Some (after (S n), effects_of n).
Proof.
  unfold effects_of. cbn [after]. destruct (process_request _ _ _) as [[g effs]|]; [done|].
  rewrite bool_decide_eq_true. set_solver.
Qed.

Lemma sample_failing : failing sample_backend
  ((fun n : nat => (down_at (Z.of_nat n), sample_raw)) <$> [1; 2; 3; 4; 5]%nat)
  sample_gateway (after 5).
Proof.
  change sample_gateway with (after 0).
  assert (forall n l g2, bool_decide (Forward sample_backend sample_raw ∈ effects_of n) = true ->
    failing sample_backend l (after (S n)) g2 ->
    failing sample_backend ((down_at (Z.of_nat (S n)), sample_raw) :: l) (after n) g2) as Hstep.
  { intros n l g2 Hn Hl. destruct (forward_down sample_backend sample_raw (proxy (after n))) as [px Hpx].
    eapply (failing_cons sample_backend _ _ _ (after (S n)) _ (effects_of n) Proxy.make_502_response px);
      [by apply after_step|by eapply bool_decide_eq_true|exact Hpx|done|done]. }
  cbn [fmap list_fmap].
  do 5 (apply Hstep; [vm_compute; reflexivity|]). constructor.
Qed.

(** C6 applied to the first of these requests. *)
Lemma forward_only_when_admitted_witness :
  exists r ctx w, HttpParser.parse_http_request sample_raw empty_request = (true, r) /\
    run_request_filters (filters sample_gateway) (mkContext (Some r) None [] 0) (world sample_gateway) = Some (true, ctx, w) /\
    Router.match_ (router sample_gateway) (path (request_of r ctx)) = Some [sample_backend].
Proof.
  destruct (forward_only_when_admitted (down_at 1) sample_raw sample_raw sample_gateway (after 1)
              (effects_of 0) sample_backend) as (_ & r & ctx & w & bs & Hp & _ & Hf & Hm & _).
  - exact (after_step 0 ltac:(vm_compute; reflexivity)).
  - eapply bool_decide_eq_true. vm_compute. reflexivity.
  - exists r, ctx, w. split; [exact Hp|]. split; [exact Hf|]. rewrite Hm. revert Hp Hf Hm. vm_compute.
    by intros [= <-] [= <- _] [= <-].
Defined.

(** Applied to a sixth request six nanoseconds later. *)
Lemma failing_backend_isolated_witness :
  exists g', process_request (down_at 11) sample_raw (after 5) = Some (g', [Send resp503 false]) /\
    proxy g' = proxy (after 5).
Proof.
  destruct (HttpParser.parse_http_request sample_raw empty_request) as [ok r] eqn:Hp.
  destruct (run_request_filters (filters (after 5)) (mkContext (Some r) None [] 0) (world (after 5)))
    as [[[acc ctx] w]|] eqn:Hf; [|exfalso; revert Hp Hf; vm_compute; by intros [= <- <-]].
  destruct (LB.select 0 [sample_backend] (load_balancer (after 5))) as [b lb] eqn:Hs.
  assert (ok = true /\ acc = true /\ b = sample_backend) as (-> & -> & ->).
  { revert Hp Hf Hs. vm_compute. intros [= <- <-] [= <- _ _] [= <- _]. done. }
  apply (failing_backend_isolated sample_backend
           ((fun n : nat => (down_at (Z.of_nat n), sample_raw)) <$> [1; 2; 3; 4]%nat)
           (down_at 5, sample_raw) sample_gateway (after 5) (down_at 11) sample_raw r ctx w
           [sample_backend] lb).
  - reflexivity.
  - reflexivity.
  - exact sample_failing.
  - exact Hp.
  - revert Hp. vm_compute. by intros [= <-].
  - exact Hf.
  - revert Hp Hf. vm_compute. by intros [= <-] [= <- _].
  - exact Hs.
  - reflexivity.
Defined.

(** A response with a Connection header and one without. *)
Definition kept : bytes := lit "HTTP/1.1 200 OK" ++ CRLF ++ lit "Connection: keep-alive".
Definition bare : bytes := lit "HTTP/1.1 200 OK" ++ CRLF ++ lit "Content-Length: 2".
Definition sample_context : FilterContext :=
  mkContext (Some (sample_request [])) None (lit "a1") 0.
Definition id_gateway : t World :=
  add_filter RequestIdFilter (create load_default_config Stats.create (mkWorld 5 [] 3)).

(** Applied to a kept-alive response. *)
Lemma response_relayed_witness :
  exists out, respond (sample_request []) sample_context (kept ++ CRLFCRLF ++ lit "hi") id_gateway
    = Some (id_gateway, Send out (keep_client (sample_request []) out)) /\
    out = kept ++ (CRLF ++ lit "X-Request-Id: a1") ++ CRLFCRLF ++ lit "hi".
Proof.
  destruct (response_relayed (sample_request []) sample_context
    (default sample_context (fst <$> run_response_filters (filters id_gateway)
       (response_context sample_context (kept ++ CRLFCRLF ++ lit "hi")) (world id_gateway)))
    (kept ++ CRLFCRLF ++ lit "hi") kept (lit "hi") id_gateway (mkWorld 5 [] 3))
    as (out & E & Eo); [by split|reflexivity|reflexivity|].
  exists out. split; [exact E|]. rewrite Eo. reflexivity.
Defined.

(** C22 applied to a response without one: the client reads the identifier as the
    body. *)
Lemma filter_header_lands_in_body_witness :
  exists out, respond (sample_request []) sample_context (bare ++ CRLFCRLF ++ lit "hi") id_gateway
    = Some (id_gateway, Send out false) /\
    splits out (bare ++ connection_close) (lit "X-Request-Id: a1" ++ CRLF ++ lit "hi").
Proof.
  destruct (filter_header_lands_in_body (sample_request []) sample_context
    (default sample_context (fst <$> run_response_filters (filters id_gateway)
       (response_context sample_context (bare ++ connection_close ++ CRLFCRLF ++ lit "hi"))
       (world id_gateway)))
    (bare ++ CRLFCRLF ++ lit "hi") bare (lit "hi") id_gateway (mkWorld 5 [] 3))
    as (out & E & _ & Hx); [by split|reflexivity|reflexivity|].
  exists out. split; [exact E|].
  destruct Hx as (line & El & Hs); [vm_compute; discriminate|].
  assert (line = lit "X-Request-Id: a1") as <- by (injection El as <-; reflexivity).
  exact Hs.
Defined.

End Gateway.
