(* ===== verification/Workers.v ===== *)
(** * Workers: process_request interleaved with itself

    The worker threads run [Gateway::process_request] at the same time on shared
    state: the load balancer, the breakers, the connection pool, the statistics and the
    filters.  Each of these protects itself with its own lock or atomics, and
    [process_request] holds no lock between two calls.  So a thread is a program counter
    with its locals, a step is one such call (for the pool, one critical section), and a
    run is any interleaving of the threads with the pool cleanup of the event loop.
    [Gateway.process_request] is what one thread does when no other thread interferes. *)

From S2P Require Import Prelude StdSort StdMap Utils Config Router Http HttpParser LoadBalancer CircuitBreaker BackendConnection BackendPool Proxy Stats Filters Gateway.

Module Workers.
Import Config Http Filters.
Module CB := CircuitBreaker.
Module LB := LoadBalancer.
Module Conn := BackendConnection.
Module Pool := BackendPool.
Module G := Gateway.
Open Scope Z_scope.

(** The locals of a request that has been routed. *)
Record job := mkJob { raw : bytes; request : HttpRequest; ctx : FilterContext; target : Backend }.

Section Threads.
Context {W : Type} `{StdSort} `{HashOrder}.

(** Where a thread is: about to do what the constructor names. *)
Inductive pc :=
  | Start (raw : bytes)
  | RequestFilters (raw : bytes) (r : HttpRequest) (fs : list (Filter W)) (c : FilterContext)
  | Limited                                          (* inc_rate_limited *)
  | Select (raw : bytes) (r : HttpRequest) (c : FilterContext) (bs : list Backend)
  | FindBreaker (j : job)                            (* the lookup without the lock *)
  | EmplaceBreaker (j : job)                         (* try_emplace under the lock *)
  | Allow (j : job)
  | Connect (j : job)
  | Acquire (j : job)                                (* first section of BackendPool::acquire *)
  | Dial (j : job)                                   (* connect, outside the lock *)
  | Rollback (j : job)                               (* the count is taken back *)
  | Exchange (j : job) (conn : Conn.t)               (* send_all and recv_all *)
  | Evict (j : job)
  | Release (j : job) (conn : Conn.t) (resp : bytes)
  | Direct (j : job)                                 (* forward_direct *)
  | Disconnect (j : job) (resp : bytes)
  | Record_ (j : job) (resp : bytes)                 (* record_request *)
  | Outcome (j : job) (resp : bytes)                 (* record_success or record_error *)
  | Upstream (j : job) (resp : bytes)                (* inc_upstream_errors *)
  | Report (j : job) (resp : bytes)                  (* on_success or on_failure *)
  | Headers (j : job) (resp : bytes)
  | ResponseFilters (j : job) (fs : list (Filter W)) (c : FilterContext) (out : bytes) (hdr_end : option nat)
  | Sent (out : bytes) (ka : bool).

Definition reject : pc := Sent (Http.to_string (make_400 false)) false.

(** A call on the pool of the proxy. *)
Definition set_pool (p : Pool.t) (g : G.t W) : G.t W := G.set_proxy (Proxy.set_pool p (G.proxy g)) g.

Definition with_pool (f : Pool.t -> Pool.t) (g : G.t W) : G.t W :=
  match Proxy.pool (G.proxy g) with Some p => set_pool (f p) g | None => g end.

Definition breaker_key (j : job) : bytes := LB.make_key (target j).

Definition elapsed (e : G.env) : Z := Z.quot (G.end_time e - G.begin_time e) 1000000.

(** The next call of a thread; [e] is what the kernel, the clock and the random generator
    answer this thread. *)
Definition step (e : G.env) (p : pc) (g : G.t W) : option (pc * G.t W) :=
  match p with
  | Start raw =>
      let '(ok, r) := HttpParser.parse_http_request raw empty_request in
      if negb ok then Some (reject, g)
      else
        match G.handle_internal_endpoint (path r) (G.stats g) with
        | Some internal_resp => Some (Sent internal_resp false, g)
        | None => Some (RequestFilters raw r (G.filters g) (mkContext (Some r) None [] 0), g)
        end
  | RequestFilters raw r [] c =>
      let r := G.request_of r c in
      match Router.match_ (G.router g) (path r) with
      | None => Some (Sent (Http.to_string (make_404 false)) false, g)
      | Some bs => Some (Select raw r c bs, g)
      end
  | RequestFilters raw r (f :: fs) c =>
      '(ok, c, w) ← on_request f c (G.world g);
      let g := G.set_world w g in
      if negb ok then Some (Limited, g) else Some (RequestFilters raw r fs c, g)
  | Limited => Some (reject, G.set_stats (Stats.inc_rate_limited (G.stats g)) g)
  | Select raw r c bs =>
      let '(b, lb) := LB.select (G.lb_draw e) bs (G.load_balancer g) in
      Some (FindBreaker (mkJob raw r c b), G.set_balancer lb g)
  | FindBreaker j =>
      match G.circuit_breakers g !! breaker_key j with
      | Some _ => Some (Allow j, g)
      | None => Some (EmplaceBreaker j, g)
      end
  | EmplaceBreaker j => Some (Allow j, (G.get_circuit_breaker (target j) g).2)
  | Allow j =>
      cb ← G.circuit_breakers g !! breaker_key j;
      let '(allowed, cb) := CB.allow_request (G.allow_time e) cb in
      let g := G.put_breaker (target j) cb g in
      if negb allowed then Some (Sent G.resp503 false, g) else Some (Connect j, g)
  | Connect j =>
      let g := G.set_balancer (LB.on_connect (target j) (G.load_balancer g)) g in
      match Proxy.pool (G.proxy g) with
      | Some _ => Some (Acquire j, g)
      | None => Some (Direct j, g)
      end
  | Acquire j =>
      p ← Proxy.pool (G.proxy g);
      let x := G.proxy_env e in
      let '(c, p) := Pool.acquire_idle (target j) (Proxy.alive_at_acquire x) (Proxy.acquire_time x) p in
      let g := set_pool p g in
      match c with
      | Some conn => Some (Exchange j conn, g)
      | None => Some (Dial j, g)
      end
  | Dial j =>
      let '(ok, conn) :=
        Conn.connect (Proxy.conn_env (G.proxy_env e)) (Conn.create (host (target j)) (port (target j))) in
      if ok then Some (Exchange j conn, g) else Some (Rollback j, g)
  | Rollback j => Some (Disconnect j Proxy.make_502_response, with_pool (Pool.decrement (target j)) g)
  | Exchange j conn =>
      let x := G.proxy_env e in
      '(ok, _) ← Conn.send_all (Proxy.sends x) (raw j) conn;
      if negb ok then Some (Evict j, g)
      else
        '(resp, conn) ← Conn.recv_all (Proxy.recvs x) (Proxy.recv_time x) conn;
        if bool_decide (resp = []) then Some (Evict j, g) else Some (Release j conn resp, g)
  | Evict j => Some (Disconnect j Proxy.make_502_response, with_pool (Pool.decrement (target j)) g)
  | Release j conn resp =>
      Some (Disconnect j resp,
            with_pool (Pool.release (target j) (Proxy.alive_at_release (G.proxy_env e)) (Some conn)) g)
  | Direct j =>
      resp ← Proxy.forward_direct (G.proxy_env e) (raw j);
      Some (Disconnect j resp, g)
  | Disconnect j resp =>
      Some (Record_ j resp, G.set_balancer (LB.on_disconnect (target j) (G.load_balancer g)) g)
  | Record_ j resp =>
      Some (Outcome j resp, G.set_stats (Stats.record_request (path (request j)) (elapsed e) (G.stats g)) g)
  | Outcome j resp =>
      if G.is_success resp
      then Some (Report j resp, G.set_stats (Stats.record_success (path (request j)) (G.stats g)) g)
      else Some (Upstream j resp, G.set_stats (Stats.record_error (path (request j)) (G.stats g)) g)
  | Upstream j resp => Some (Report j resp, G.set_stats (Stats.inc_upstream_errors (G.stats g)) g)
  | Report j resp =>
      cb ← G.circuit_breakers g !! breaker_key j;
      let cb := if G.is_success resp then CB.on_success cb else CB.on_failure (G.report_time e) cb in
      Some (Headers j resp, G.put_breaker (target j) cb g)
  | Headers j resp =>
      '(out, hdr_end) ← G.add_connection_header resp;
      let c := mkContext (req (ctx j)) (Some (G.parse_status out)) (request_id (ctx j)) (start_time (ctx j)) in
      Some (ResponseFilters j (G.filters g) c out hdr_end, g)
  | ResponseFilters j (f :: fs) c out hdr_end =>
      '(c, w) ← on_response f c (G.world g);
      Some (ResponseFilters j fs c out hdr_end, G.set_world w g)
  | ResponseFilters j [] c out hdr_end =>
      let hs := match resp c with Some x => resp_headers x | None => [] end in
      out ← G.add_filter_headers hdr_end hs out;
      Some (Sent out (G.keep_client (G.request_of (request j) c) out), g)
  | Sent _ _ => None
  end.

(** ** Runs *)

Record t := mk { shared : G.t W; threads : list (G.env * pc) }.

Inductive label :=
  | Spawn (e : G.env) (raw : bytes)     (* a worker starts on a request *)
  | Step (i : nat)
  | Cleanup (now : Z).                  (* proxy_->cleanup_pool() of the event loop *)

Definition exec (l : label) (s : t) : option t :=
  match l with
  | Spawn e raw => Some (mk (shared s) (threads s ++ [(e, Start raw)]))
  | Step i =>
      '(e, p) ← threads s !! i;
      '(p, g) ← step e p (shared s);
      Some (mk g (<[i := (e, p)]> (threads s)))
  | Cleanup now => Some (mk (G.set_proxy (Proxy.cleanup_pool now (G.proxy (shared s))) (shared s)) (threads s))
  end.

Fixpoint run (ls : list label) (s : t) : option t :=
  match ls with [] => Some s | l :: ls' => s ← exec l s; run ls' s end.

Lemma workers_run_app ls1 ls2 s : run (ls1 ++ ls2) s = s' ← run ls1 s; run ls2 s'.
Proof.
  revert s; induction ls1 as [|l ls1 IH]; intros s; cbn; [done|]. destruct (exec l s); cbn; [apply IH|done].
Qed.

Definition init (g : G.t W) : t := mk g [].

(** A thread that no other thread disturbs. *)
Fixpoint solo (n : nat) (e : G.env) (p : pc) (g : G.t W) : option (pc * G.t W) :=
  match n with
  | O => Some (p, g)
  | S n' => match p with Sent _ _ => Some (p, g) | _ => '(p, g) ← step e p g; solo n' e p g end
  end.

(** ** One thread alone *)

Definition is_sent (p : pc) : bool := match p with Sent _ _ => true | _ => false end.

(** Within [n] steps the thread has answered, or does not return from a call. *)
Inductive ends (e : G.env) : nat -> pc -> G.t W -> option (pc * G.t W) -> Prop :=
  | ends_sent n out ka g : ends e n (Sent out ka) g (Some (Sent out ka, g))
  | ends_stuck n p g : is_sent p = false -> step e p g = None -> ends e (S n) p g None
  | ends_step n p g p' g' o : step e p g = Some (p', g') -> ends e n p' g' o -> ends e (S n) p g o.

Lemma ends_solo e n m p g o : ends e n p g o -> (n <= m)%nat -> solo m e p g = o.
Proof.
  intros He. revert m. induction He as [n out ka g|n p g Hp Hs|n p g p' g' o Hs _ IH]; intros [|m] Hm; try lia; try done.
  - cbn [solo]. destruct p; try done; by rewrite Hs.
  - cbn [solo]. specialize (IH m ltac:(lia)). destruct p; try done; rewrite Hs; exact IH.
Qed.

Lemma ends_le e n m p g o : ends e n p g o -> (n <= m)%nat -> ends e m p g o.
Proof.
  intros He. revert m. induction He as [n out ka g|n p g Hp Hs|n p g p' g' o Hs He IH]; intros m Hm.
  - constructor.
  - destruct m as [|m]; [lia|]. by constructor.
  - destruct m as [|m]; [lia|]. econstructor; [done|]. apply IH. lia.
Qed.

Lemma ends_request_filters e n raw r fs c g o :
  match G.run_request_filters fs c (G.world g) with
  | None => o = None
  | Some (true, c, w) => ends e n (RequestFilters raw r [] c) (G.set_world w g) o
  | Some (false, c, w) =>
      o = Some (reject, G.set_stats (Stats.inc_rate_limited (G.stats g)) (G.set_world w g))
  end ->
  (2 <= n)%nat -> ends e (length fs + n) (RequestFilters raw r fs c) g o.
Proof.
  intros Hm Hn. revert c g Hm. induction fs as [|f fs IH]; intros c g; cbn [G.run_request_filters].
  { intros Hm. replace (G.set_world (G.world g) g) with g in Hm by by destruct g. exact Hm. }
  destruct (on_request f c (G.world g)) as [[[[] c'] w]|] eqn:Ef; cbn [mbind option_bind negb length Nat.add].
  - intros Hm. eapply ends_step; [cbn [step]; rewrite Ef; done|]. apply IH. exact Hm.
  - intros ->. eapply ends_step; [cbn [step]; rewrite Ef; done|].
    destruct (length fs + n)%nat as [|k] eqn:Ek; [lia|]. eapply ends_step; [done|]. apply ends_sent.
  - intros ->. apply ends_stuck; [done|]. cbn [step]. by rewrite Ef.
Qed.

Lemma ends_response_filters e n j fs c out hdr_end g o :
  match G.run_response_filters fs c (G.world g) with
  | None => o = None
  | Some (c, w) => ends e n (ResponseFilters j [] c out hdr_end) (G.set_world w g) o
  end ->
  ends e (length fs + S n) (ResponseFilters j fs c out hdr_end) g o.
Proof.
  revert c g. induction fs as [|f fs IH]; intros c g; cbn [G.run_response_filters].
  { intros Hm. replace (G.set_world (G.world g) g) with g in Hm by by destruct g. eapply ends_le; [exact Hm|cbn; lia]. }
  destruct (on_response f c (G.world g)) as [[c' w]|] eqn:Ef; cbn [mbind option_bind length Nat.add].
  - intros Hm. eapply ends_step; [cbn [step]; rewrite Ef; done|]. apply IH. exact Hm.
  - intros ->. apply ends_stuck; [done|]. cbn [step]. by rewrite Ef.
Qed.

(** The answer in the effects of [process_request]. *)
Definition answer (x : G.t W * G.effect) : option (pc * G.t W) :=
  match x with (g, G.Send out ka) => Some (Sent out ka, g) | _ => None end.

Lemma ends_report e j resp g cb :
  G.circuit_breakers g !! breaker_key j = Some cb ->
  ends e (9 + length (G.filters g)) (Record_ j resp) g
    (G.respond (request j) (ctx j) resp (G.report e (request j) (target j) resp g) ≫= answer).
Proof.
  intros Hcb. eapply (ends_step e (8 + length (G.filters g))); [done|].
  assert (Hr : forall n g', G.circuit_breakers g' = G.circuit_breakers g -> G.filters g' = G.filters g ->
    G.put_breaker (target j) (if G.is_success resp then CB.on_success cb else CB.on_failure (G.report_time e) cb) g'
      = G.report e (request j) (target j) resp g -> n = (4 + length (G.filters g))%nat ->
    ends e (2 + n) (Report j resp) g'
      (G.respond (request j) (ctx j) resp (G.report e (request j) (target j) resp g) ≫= answer)).
  { intros n g' Hb Hf Heq ->. eapply ends_step; [cbn [step]; rewrite Hb, Hcb; cbn [mbind option_bind]; rewrite Heq; done|].
    unfold G.respond. destruct (G.add_connection_header resp) as [[out hdr_end]|] eqn:Ea; cbn [mbind option_bind].
    2: { apply (ends_stuck e (4 + length (G.filters g))); [done|]. cbn [step]. by rewrite Ea. }
    eapply (ends_step e (4 + length (G.filters g))); [cbn [step]; rewrite Ea; done|].
    destruct (G.report_state e (request j) (target j) resp g) as (_ & _ & _ & ->).
    apply (ends_le e (length (G.filters g) + 2)); [|lia]. apply ends_response_filters.
    assert (Hfl : G.filters (G.report e (request j) (target j) resp g) = G.filters g) by apply G.report_state.
    destruct (G.run_response_filters _ _ _) as [[c w]|]; cbn [mbind option_bind]; [|done].
    destruct (G.add_filter_headers hdr_end _ out) as [out'|] eqn:Eh; cbn [mbind option_bind answer].
    - eapply ends_step; [cbn [step]; rewrite Eh; done|apply ends_sent].
    - apply ends_stuck; [done|]. cbn [step]. by rewrite Eh. }
  assert (Hg : (G.get_circuit_breaker (target j) (G.set_stats
    (Stats.record_request (path (request j)) (elapsed e) (G.stats g)) g)).1 = cb).
  { unfold G.get_circuit_breaker. cbn [G.circuit_breakers G.set_stats].
    unfold breaker_key in Hcb. by rewrite Hcb. }
  unfold G.report in Hr |- *. unfold elapsed in *. cbv zeta in Hr |- *. rewrite Hg in Hr |- *.
  destruct (G.is_success resp) eqn:Es.
  - eapply (ends_step e (7 + length (G.filters g))); [cbn [step]; rewrite Es; done|].
    apply (ends_le e (6 + length (G.filters g))); [|lia]. by apply Hr.
  - eapply (ends_step e (7 + length (G.filters g))); [cbn [step]; rewrite Es; done|].
    eapply (ends_step e (6 + length (G.filters g))); [done|]. by apply Hr.
Qed.

Lemma ends_forward e n j g o :
  match Proxy.forward (G.proxy_env e) (target j) (raw j) (G.proxy g) with
  | None => o = None
  | Some (resp, px) =>
      ends e n (Disconnect j resp) (G.set_proxy px (G.set_balancer (LB.on_connect (target j) (G.load_balancer g)) g)) o
  end ->
  ends e (6 + n) (Connect j) g o.
Proof.
  intros Ho. set (g1 := G.set_balancer (LB.on_connect (target j) (G.load_balancer g)) g) in *.
  unfold Proxy.forward in Ho. destruct (Proxy.pool (G.proxy g)) as [p|] eqn:Ep.
  2: { eapply (ends_step e (5 + n)); [cbn [step G.proxy G.set_balancer]; rewrite Ep; done|].
    destruct (Proxy.forward_direct _ _) as [resp|] eqn:Ed; cbn [mbind option_bind] in Ho.
    - eapply (ends_step e (4 + n)); [cbn [step]; rewrite Ed; done|]. eapply ends_le; [|instantiate (1 := n); lia].
      replace (G.set_proxy (G.proxy g) g1) with g1 in Ho by by destruct g. exact Ho.
    - subst o. apply (ends_stuck e (4 + n)); [done|]. cbn [step]. by rewrite Ed. }
  eapply (ends_step e (5 + n)); [cbn [step G.proxy G.set_balancer]; rewrite Ep; done|]. fold g1.
  assert (Hex : forall conn p1,
    match ('(resp, p) ←
       ('(ok, _) ← Conn.send_all (Proxy.sends (G.proxy_env e)) (raw j) conn;
        if negb ok then Some (Proxy.make_502_response, Pool.evict (target j) (Some conn) p1)
        else '(resp, conn) ← Conn.recv_all (Proxy.recvs (G.proxy_env e)) (Proxy.recv_time (G.proxy_env e)) conn;
          if bool_decide (resp = []) then Some (Proxy.make_502_response, Pool.evict (target j) (Some conn) p1)
          else Some (resp, Pool.release (target j) (Proxy.alive_at_release (G.proxy_env e)) (Some conn) p1));
       Some (resp, Proxy.set_pool p (G.proxy g))) with
    | None => o = None
    | Some (resp, px) => ends e n (Disconnect j resp) (G.set_proxy px g1) o
    end -> ends e (2 + n) (Exchange j conn) (set_pool p1 g1) o).
  { clear Ho. intros conn p1 Ho.
    destruct (Conn.send_all _ _ conn) as [[[] w]|] eqn:E1; cbn [mbind option_bind negb] in Ho.
    - destruct (Conn.recv_all _ _ conn) as [[resp conn']|] eqn:E2; cbn [mbind option_bind] in Ho.
      + destruct (bool_decide (resp = [])) eqn:E3; cbn [mbind option_bind] in Ho.
        * eapply ends_step; [cbn [step]; rewrite E1; cbn [mbind option_bind negb]; rewrite E2; cbn [mbind option_bind]; rewrite E3; done|].
          eapply ends_step; [done|]. exact Ho.
        * eapply ends_step; [cbn [step]; rewrite E1; cbn [mbind option_bind negb]; rewrite E2; cbn [mbind option_bind]; rewrite E3; done|].
          eapply ends_step; [done|]. exact Ho.
      + subst o. apply ends_stuck; [done|]. cbn [step]. rewrite E1. cbn [mbind option_bind negb]. by rewrite E2.
    - eapply ends_step; [cbn [step]; rewrite E1; done|]. eapply ends_step; [done|]. exact Ho.
    - subst o. apply ends_stuck; [done|]. cbn [step]. by rewrite E1. }
  unfold Proxy.forward_pooled, Pool.acquire in Ho.
  destruct (Pool.acquire_idle (target j) _ _ p) as [[conn|] p1] eqn:E0.
  - eapply (ends_step e (4 + n)); [cbn [step]; change (Proxy.pool (G.proxy g1)) with (Proxy.pool (G.proxy g)); rewrite Ep; cbn [mbind option_bind]; rewrite E0; done|].
    apply (ends_le e (2 + n)); [|lia]. apply Hex, Ho.
  - eapply (ends_step e (4 + n)); [cbn [step]; change (Proxy.pool (G.proxy g1)) with (Proxy.pool (G.proxy g)); rewrite Ep; cbn [mbind option_bind]; rewrite E0; done|].
    destruct (Conn.connect _ _) as [[] conn] eqn:Ec.
    + eapply (ends_step e (3 + n)); [cbn [step]; rewrite Ec; done|].
      apply (ends_le e (2 + n)); [|lia]. apply Hex, Ho.
    + eapply (ends_step e (3 + n)); [cbn [step]; rewrite Ec; done|].
      eapply (ends_step e (2 + n)); [done|]. cbn [mbind option_bind] in Ho.
      apply (ends_le e n); [|lia]. exact Ho.
Qed.

(** What [process_request] does once it has the breaker. *)
Definition admitted (e : G.env) (j : job) (cb : CB.t) (g : G.t W) : option (G.t W * list G.effect) :=
  let '(allowed, cb) := CB.allow_request (G.allow_time e) cb in
  let g := G.put_breaker (target j) cb g in
  if negb allowed then Some (g, G.send_error_and_close G.resp503)
  else
    let g := G.set_balancer (LB.on_connect (target j) (G.load_balancer g)) g in
    '(raw_resp, px) ← Proxy.forward (G.proxy_env e) (target j) (raw j) (G.proxy g);
    let g := G.set_balancer (LB.on_disconnect (target j) (G.load_balancer g)) (G.set_proxy px g) in
    let g := G.report e (request j) (target j) raw_resp g in
    '(g, sent) ← G.respond (request j) (ctx j) raw_resp g;
    Some (g, [G.Forward (target j) (raw j); sent]).

Lemma ends_admitted e j g cb :
  G.circuit_breakers g !! breaker_key j = Some cb ->
  ends e (17 + length (G.filters g)) (Allow j) g ('(g', effs) ← admitted e j cb g; last effs ≫= fun x => answer (g', x)).
Proof.
  intros Hcb. unfold admitted. destruct (CB.allow_request (G.allow_time e) cb) as [[] cb'] eqn:Ec; cbn [negb].
  2: { eapply ends_step; [cbn [step]; rewrite Hcb; cbn [mbind option_bind]; rewrite Ec; done|]. apply ends_sent. }
  eapply ends_step; [cbn [step]; rewrite Hcb; cbn [mbind option_bind]; rewrite Ec; done|].
  set (g3 := G.put_breaker (target j) cb' g). apply (ends_forward e (10 + length (G.filters g))).
  change (G.proxy (G.set_balancer _ g3)) with (G.proxy g3).
  destruct (Proxy.forward (G.proxy_env e) (target j) (raw j) (G.proxy g3)) as [[resp px]|]; cbn [mbind option_bind]; [|done].
  eapply ends_step; [done|]. set (g4 := G.set_balancer (LB.on_disconnect (target j) _) _).
  assert (Hfl4 : G.filters g4 = G.filters g) by done. rewrite <- Hfl4.
  match goal with |- ends _ _ _ _ ?o =>
    enough (o = G.respond (request j) (ctx j) resp (G.report e (request j) (target j) resp g4) ≫= answer) as -> end.
  - apply (ends_report e j resp g4 cb'). unfold g4, g3. cbn. unfold breaker_key. cbn. by rewrite lookup_insert_eq.
  - unfold g4, g3. cbn [G.load_balancer G.set_balancer G.set_proxy].
    destruct (G.respond (request j) (ctx j) resp _) as [[g' sent]|]; done.
Qed.

(** A thread that runs alone is [process_request]: it answers what the pipeline
    answers and leaves the shared state the pipeline leaves, within a bounded number of
    calls, and it fails to return exactly when the pipeline does. *)
Theorem undisturbed_thread_is_process_request e bytes_in g m :
  (22 + 2 * length (G.filters g) <= m)%nat ->
  solo m e (Start bytes_in) g = '(g', effs) ← G.process_request e bytes_in g; last effs ≫= fun x => answer (g', x).
Proof.
  intros Hm. apply (ends_solo e (22 + 2 * length (G.filters g))); [|done]. unfold G.process_request.
  destruct (HttpParser.parse_http_request bytes_in empty_request) as [[] r] eqn:Ep; cbn [negb].
  2: { eapply ends_step; [cbn [step]; rewrite Ep; done|]. apply ends_sent. }
  destruct (G.handle_internal_endpoint (path r) (G.stats g)) eqn:Ei.
  { eapply ends_step; [cbn [step]; rewrite Ep; cbn [negb]; rewrite Ei; done|]. apply ends_sent. }
  eapply ends_step; [cbn [step]; rewrite Ep; cbn [negb]; rewrite Ei; done|].
  apply (ends_le e (length (G.filters g) + (21 + length (G.filters g)))); [|lia].
  apply ends_request_filters; [|lia].
  destruct (G.run_request_filters _ _ _) as [[[[] c] w]|]; cbn [mbind option_bind negb]; [|done|done].
  change (G.router (G.set_world w g)) with (G.router g).
  destruct (Router.match_ (G.router g) (path (G.request_of r c))) as [bs|] eqn:Er.
  2: { eapply ends_step; [cbn [step G.router G.set_world]; rewrite Er; done|]. apply ends_sent. }
  eapply ends_step; [cbn [step G.router G.set_world]; rewrite Er; done|].
  destruct (LB.select (G.lb_draw e) bs (G.load_balancer (G.set_world w g))) as [b lb] eqn:El.
  eapply ends_step; [cbn [step]; rewrite El; done|].
  set (g1 := G.set_balancer lb (G.set_world w g)). set (j := mkJob bytes_in (G.request_of r c) c b).
  destruct (G.get_circuit_breaker b g1) as [cb g2] eqn:Eg.
  assert (H2 : G.circuit_breakers g2 !! breaker_key j = Some cb /\ G.filters g2 = G.filters g).
  { revert Eg. unfold G.get_circuit_breaker, breaker_key. cbn [target j].
    destruct (G.circuit_breakers g1 !! LB.make_key b) eqn:E; intros [= <- <-]; [done|]. cbn.
    by rewrite lookup_insert_eq. }
  destruct H2 as [Hcb Hfl].
  pose proof (ends_admitted e j g2 cb Hcb) as Ha. rewrite Hfl in Ha. cbn [target raw request ctx j] in Ha.
  destruct (G.circuit_breakers g1 !! breaker_key j) as [cb0|] eqn:Eb.
  - assert (g2 = g1) as -> by (revert Eg; unfold G.get_circuit_breaker; change (breaker_key j) with (LB.make_key b) in Eb; rewrite Eb; by intros [= _ <-]).
    eapply ends_step; [cbn [step]; fold j; rewrite Eb; done|]. eapply ends_le; [exact Ha|lia].
  - eapply ends_step; [cbn [step]; fold j; rewrite Eb; done|]. eapply ends_step; [done|]. cbn [target j]. rewrite Eg. exact Ha.
Qed.

End Threads.

(** Split a step into the branches of the code. *)
Ltac step_cases Hs p :=
  destruct p; cbn [step] in Hs;
  repeat first
    [ progress simplify_eq/=
    | match type of Hs with
      | (_ ≫= _) = Some _ => apply bind_Some in Hs as (? & ? & Hs)
      | context [match ?x with _ => _ end] => destruct x eqn:?
      end ].

(** Applied to the default configuration with its two filters and a dead backend. *)
Lemma undisturbed_thread_is_process_request_witness :
  solo 26 (G.down_at 9) (Start G.sample_raw) G.sample_gateway
  = '(g', effs) ← G.process_request (G.down_at 9) G.sample_raw G.sample_gateway; last effs ≫= fun x => answer (g', x).
Proof. apply (undisturbed_thread_is_process_request (G.down_at 9) G.sample_raw G.sample_gateway). apply Nat.le_refl. Defined.

End Workers.
