(* ===== verification/Accounting.v ===== *)
(** * Accounting: what holds while the workers interleave

    Invariants of [Workers] over every interleaving: the connection counts of the
    balancer and of the pool are the numbers of threads that hold a connection, the
    statistics add up but for the threads between two of their updates, every breaker a
    thread refers to exists and is in a consistent state.  A thread always has a next
    step and needs a bounded number of them, so every request is answered. *)

From S2P Require Import Prelude StdSort StdMap Utils Config Router Http HttpParser LoadBalancer CircuitBreaker BackendConnection BackendPool Proxy Stats Filters Gateway Workers.

Module Accounting.
Import Config Http Filters Workers.
Open Scope Z_scope.

Section Accounting.
Context {W : Type} `{StdSort} `{HashOrder}.

Notation pc := (@Workers.pc W).
Notation t := (@Workers.t W).

(** ** What a thread holds *)

Definition at_backend (b : Backend) (j : job) : nat := if decide (target j = b) then 1 else 0.

(** Counted by the balancer: between [on_connect] and [on_disconnect]. *)
Definition connected (b : Backend) (p : pc) : nat :=
  match p with
  | Acquire j | Dial j | Rollback j | Exchange j _ | Evict j | Release j _ _ | Direct j | Disconnect j _ => at_backend b j
  | _ => 0
  end.

(** Counted by the pool. *)
Definition holding (b : Backend) (p : pc) : nat :=
  match p with
  | Dial j | Rollback j | Exchange j _ | Evict j | Release j _ _ => at_backend b j
  | _ => 0
  end.

(** Between [record_request] and [record_success] or [record_error]. *)
Definition undecided (route : bytes) (p : pc) : nat :=
  match p with Outcome j _ => if decide (path (request j) = route) then 1 else 0 | _ => 0 end.

(** Between [record_error] and [inc_upstream_errors]. *)
Definition unreported (p : pc) : nat := match p with Upstream _ _ => 1 | _ => 0 end.

(** The threads that hold a reference to a breaker. *)
Definition breaker_ref (p : pc) : option Backend :=
  match p with
  | Allow j | Connect j | Acquire j | Dial j | Rollback j | Exchange j _ | Evict j | Release j _ _ | Direct j
  | Disconnect j _ | Record_ j _ | Outcome j _ | Upstream j _ | Report j _ => Some (target j)
  | _ => None
  end.

Definition total (f : pc -> nat) (ts : list (G.env * pc)) : Z := Z.of_nat (sum_list_with (fun t => f t.2) ts).

(** ** One step *)

(** The operation a step performs on the pool, on the statistics and on a breaker. *)
Definition pool_op (e : G.env) (p : pc) : option Pool.op :=
  let x := G.proxy_env e in
  match p with
  | Acquire j => Some (Pool.AcquireIdle (target j) (Proxy.alive_at_acquire x) (Proxy.acquire_time x))
  | Rollback j | Evict j => Some (Pool.Decrement (target j))
  | Release j conn _ =>
      Some (if Conn.is_alive (Proxy.alive_at_release x conn) conn
            then Pool.ReleaseLive (target j) conn else Pool.Decrement (target j))
  | _ => None
  end.

Definition stats_op (e : G.env) (p : pc) : option Stats.op :=
  match p with
  | Limited => Some Stats.IncLimited
  | Record_ j _ => Some (Stats.RecordRequest (path (request j)) (elapsed e))
  | Outcome j resp =>
      Some (if G.is_success resp then Stats.RecordSuccess (path (request j)) else Stats.RecordError (path (request j)))
  | Upstream _ _ => Some Stats.IncUpstream
  | _ => None
  end.

Definition breaker_call (e : G.env) (p : pc) : option (Backend * CB.call) :=
  match p with
  | Allow j => Some (target j, CB.Allow (G.allow_time e))
  | Report j resp => Some (target j, if G.is_success resp then CB.Success else CB.Failure (G.report_time e))
  | _ => None
  end.

Lemma get_breaker_frame b (g : G.t W) :
  G.load_balancer (G.get_circuit_breaker b g).2 = G.load_balancer g /\
  G.proxy (G.get_circuit_breaker b g).2 = G.proxy g /\
  G.stats (G.get_circuit_breaker b g).2 = G.stats g /\
  G.config (G.get_circuit_breaker b g).2 = G.config g /\
  G.router (G.get_circuit_breaker b g).2 = G.router g /\
  G.filters (G.get_circuit_breaker b g).2 = G.filters g /\
  G.world (G.get_circuit_breaker b g).2 = G.world g.
Proof. unfold G.get_circuit_breaker. by destruct (G.circuit_breakers g !! LB.make_key b). Qed.

Lemma with_pool_frame f (g : G.t W) :
  G.load_balancer (with_pool f g) = G.load_balancer g /\
  Proxy.pool (G.proxy (with_pool f g)) = f <$> Proxy.pool (G.proxy g) /\
  G.stats (with_pool f g) = G.stats g /\
  G.config (with_pool f g) = G.config g /\
  G.router (with_pool f g) = G.router g /\
  G.filters (with_pool f g) = G.filters g /\
  G.world (with_pool f g) = G.world g /\
  G.circuit_breakers (with_pool f g) = G.circuit_breakers g.
Proof. unfold with_pool. destruct (Proxy.pool (G.proxy g)) eqn:E; [done|]. by rewrite E. Qed.

Ltac frames := first [done | apply get_breaker_frame | apply with_pool_frame].

(** Which component a step changes, and how. *)
Lemma step_balancer e (p : pc) g p' g' :
  step e p g = Some (p', g') ->
  G.load_balancer g' =
  match p with
  | Select _ _ _ bs => (LB.select (G.lb_draw e) bs (G.load_balancer g)).2
  | Connect j => LB.on_connect (target j) (G.load_balancer g)
  | Disconnect j _ => LB.on_disconnect (target j) (G.load_balancer g)
  | _ => G.load_balancer g
  end.
Proof. intros Hs. step_cases Hs p; frames. Qed.

Lemma step_pool e (p : pc) g p' g' :
  step e p g = Some (p', g') ->
  Proxy.pool (G.proxy g') =
  match pool_op e p with
  | Some o => Pool.exec o <$> Proxy.pool (G.proxy g)
  | None => Proxy.pool (G.proxy g)
  end.
Proof.
  intros Hs. step_cases Hs p; try frames.
  - by destruct (get_breaker_frame (target j) g) as (_ & -> & _).
  - match goal with Hp : Proxy.pool _ = Some _, Ha : Pool.acquire_idle _ _ _ _ = _ |- _ => rewrite Hp; cbn [fmap option_fmap option_map Pool.exec]; by rewrite Ha end.
  - match goal with Hp : Proxy.pool _ = Some _, Ha : Pool.acquire_idle _ _ _ _ = _ |- _ => rewrite Hp; cbn [fmap option_fmap option_map Pool.exec]; by rewrite Ha end.
  - destruct (with_pool_frame (Pool.release (target j) (Proxy.alive_at_release (G.proxy_env e)) (Some conn)) g)
      as (_ & -> & _). destruct (Proxy.pool (G.proxy g)); [|done]. cbn [fmap option_fmap option_map Pool.release].
    by split_if.
Qed.

Lemma step_stats e (p : pc) g p' g' :
  step e p g = Some (p', g') ->
  G.stats g' = match stats_op e p with Some o => Stats.exec o (G.stats g) | None => G.stats g end.
Proof. intros Hs. step_cases Hs p; try frames. Qed.

Lemma step_static e (p : pc) g p' g' :
  step e p g = Some (p', g') ->
  G.filters g' = G.filters g /\ G.config g' = G.config g /\ G.router g' = G.router g.
Proof. intros Hs. step_cases Hs p; repeat split; frames. Qed.

Lemma step_breakers e (p : pc) g p' g' :
  step e p g = Some (p', g') ->
  G.circuit_breakers g' =
  match p with
  | EmplaceBreaker j => G.circuit_breakers (G.get_circuit_breaker (target j) g).2
  | _ =>
      match breaker_call e p with
      | Some (b, c) => alter (CB.exec c) (LB.make_key b) (G.circuit_breakers g)
      | None => G.circuit_breakers g
      end
  end.
Proof.
  assert (Ha : forall k c cb, G.circuit_breakers g !! k = Some cb ->
    <[k := CB.exec c cb]> (G.circuit_breakers g) = alter (CB.exec c) k (G.circuit_breakers g)).
  { intros k c cb Hk. apply map_eq. intros i. destruct (decide (k = i)) as [<-|Hne].
    - by rewrite lookup_insert_eq, lookup_alter_eq, Hk.
    - by rewrite lookup_insert_ne, lookup_alter_ne. }
  intros Hs. step_cases Hs p; try frames.
  all: match goal with Hb : G.circuit_breakers _ !! breaker_key _ = Some _ |- _ => etransitivity; [|exact (Ha _ _ _ Hb)] end.
  all: cbn [CB.exec]; try match goal with Hr : CB.allow_request _ _ = _ |- _ => by rewrite Hr end.
  by destruct (G.is_success _).
Qed.

(** How a step changes what its thread holds. *)
Lemma step_connected e (p : pc) g p' g' b :
  step e p g = Some (p', g') ->
  (connected b p' + (match p with Disconnect j _ => at_backend b j | _ => 0 end)
   = connected b p + (match p with Connect j => at_backend b j | _ => 0 end))%nat.
Proof. intros Hs. step_cases Hs p; cbn [connected reject]; lia. Qed.

Lemma step_holding e (p : pc) g p' g' b :
  step e p g = Some (p', g') ->
  Z.of_nat (holding b p') =
  Z.of_nat (holding b p) + match pool_op e p with Some o => Pool.delta (Pool.make_key b) o | None => 0 end.
Proof.
  assert (Hb : forall j, Z.of_nat (at_backend b j)
    = if decide (Pool.make_key (target j) = Pool.make_key b) then 1 else 0).
  { intros j. unfold at_backend. destruct (decide (target j = b)) as [->|Hne]; [by rewrite decide_True|].
    rewrite decide_False; [done|]. intros E. by apply LB.make_key_inj_backend in E. }
  intros Hs. step_cases Hs p; cbn [holding reject pool_op Pool.delta]; rewrite ?Hb; try lia.
  all: try (destruct (Conn.is_alive _ _); cbn [Pool.delta]); destruct (decide _); lia.
Qed.

Lemma total_insert f ts i e (p p' : pc) :
  ts !! i = Some (e, p) -> total f (<[i := (e, p')]> ts) = total f ts - Z.of_nat (f p) + Z.of_nat (f p').
Proof.
  intros Hi. unfold total. pose proof (sum_insert (fun t : G.env * pc => f t.2) ts i (e, p) (e, p') Hi) as E.
  cbn [snd] in E. lia.
Qed.

Lemma total_spawn f ts (x : G.env * pc) : total f (ts ++ [x]) = total f ts + Z.of_nat (f x.2).
Proof. unfold total. rewrite sum_list_with_app. cbn [sum_list_with]. lia. Qed.

Lemma total_elem f ts i e (p : pc) : ts !! i = Some (e, p) -> Z.of_nat (f p) <= total f ts.
Proof.
  unfold total. revert i; induction ts as [|x ts IH]; intros [|i]; cbn [sum_list_with]; [done|done|..].
  - intros [= ->]. cbn [snd]. lia.
  - intros Hi. specialize (IH i Hi). lia.
Qed.

Lemma total_bound f ts : (forall p : pc, f p <= 1)%nat -> 0 <= total f ts <= zlen ts.
Proof.
  intros Hf. unfold total, zlen. induction ts as [|x ts IH]; cbn [sum_list_with length]; [lia|].
  specialize (Hf x.2). lia.
Qed.

(** ** The books *)

Definition route_stats (route : bytes) (g : G.t W) : Stats.RouteStats := Stats.get_or_create route (G.stats g).

Lemma at_backend_le b j : (at_backend b j <= 1)%nat.
Proof. unfold at_backend. destruct (decide _); lia. Qed.
Lemma connected_le b p : (connected b p <= 1)%nat.
Proof. destruct p; cbn [connected]; try apply at_backend_le; lia. Qed.
Lemma holding_le b p : (holding b p <= 1)%nat.
Proof. destruct p; cbn [holding]; try apply at_backend_le; lia. Qed.

Lemma select_conns draw bs l b :
  LB.algo l <> LB.LeastConnections -> LB.conns b (LB.select draw bs l).2 = LB.conns b l.
Proof. intros Ha. destruct bs as [|? [|? bs]]; [done..|]. cbn [LB.select]. by destruct (LB.algo l). Qed.

Lemma select_algo draw bs l : LB.algo (LB.select draw bs l).2 = LB.algo l.
Proof.
  destruct bs as [|? [|? bs]]; [done..|]. cbn [LB.select]. destruct (LB.algo l) eqn:E; [done..|].
  unfold LB.select_leastConnections. by destruct (LB.least_go _ _ _ _).
Qed.

Lemma step_algo e (p : pc) g p' g' :
  step e p g = Some (p', g') -> LB.algo (G.load_balancer g') = LB.algo (G.load_balancer g).
Proof. intros ->%step_balancer. destruct p; try done. apply select_algo. Qed.

Lemma step_conns e (p : pc) g p' g' b n :
  step e p g = Some (p', g') -> LB.algo (G.load_balancer g) <> LB.LeastConnections ->
  Z.of_nat (connected b p) <= LB.conns b (G.load_balancer g) -> LB.conns b (G.load_balancer g) + 1 < two64 ->
  LB.conns b (G.load_balancer g) = n ->
  LB.conns b (G.load_balancer g') = n - Z.of_nat (connected b p) + Z.of_nat (connected b p').
Proof.
  intros Hs Ha Hlo Hhi <-. pose proof (step_connected e p g p' g' b Hs) as Hc.
  rewrite (step_balancer e p g p' g' Hs). destruct p; try lia; clear Hs.
  - rewrite select_conns by done. lia.
  - rewrite LB.conns_on_connect. cbn [connected] in *. unfold at_backend in *.
    destruct (decide (target j = b)) as [->|]; [rewrite decide_True by done|rewrite decide_False by done; lia].
    rewrite u64_small; lia.
  - rewrite LB.conns_on_disconnect. cbn [connected] in *. unfold at_backend in *.
    destruct (decide (target j = b)) as [->|]; [rewrite decide_True by done|rewrite decide_False by done; lia].
    destruct (Z.ltb_spec 0 (LB.conns b (G.load_balancer g))); [rewrite u64_small|]; lia.
Qed.

Lemma step_active e (p : pc) g p' g' b q n :
  step e p g = Some (p', g') -> Proxy.pool (G.proxy g') = Some q ->
  (forall q0, Proxy.pool (G.proxy g) = Some q0 -> Pool.active_of (Pool.make_key b) q0 = n) ->
  Z.of_nat (holding b p) <= n -> n + 1 < two64 ->
  Pool.active_of (Pool.make_key b) q = n - Z.of_nat (holding b p) + Z.of_nat (holding b p').
Proof.
  intros Hs Hq Ha Hlo Hhi. pose proof (step_holding e p g p' g' b Hs) as Hh.
  rewrite (step_pool e p g p' g' Hs) in Hq.
  destruct (pool_op e p) as [o|]; [|rewrite (Ha q Hq); lia].
  destruct (Proxy.pool (G.proxy g)) as [q0|] eqn:E; [|done]. injection Hq as <-.
  rewrite Pool.exec_active; rewrite ?(Ha q0 eq_refl); lia.
Qed.

Lemma step_idle e (p : pc) g p' g' q :
  step e p g = Some (p', g') ->
  (forall q0, Proxy.pool (G.proxy g) = Some q0 ->
     Pool.inv q0 /\ Pool.max_idle_per_host q0 = u64 (pool_max_idle_per_host (G.config g))) ->
  Proxy.pool (G.proxy g') = Some q -> Pool.inv q /\ Pool.max_idle_per_host q = u64 (pool_max_idle_per_host (G.config g')).
Proof.
  intros Hs Hi. destruct (step_static e p g p' g' Hs) as (_ & -> & _).
  rewrite (step_pool e p g p' g' Hs). destruct (pool_op e p) as [o|]; [|apply Hi].
  destruct (Proxy.pool (G.proxy g)) as [q0|]; [|done]. intros [= <-].
  destruct (Hi q0 eq_refl) as [H1 <-]. by apply Pool.pool_exec_inv.
Qed.

Lemma stats_total k f (st : Stats.t) route :
  Stats.get_or_create route (Stats.update k f st)
  = if decide (k = route) then f (Stats.get_or_create k st) else Stats.get_or_create route st.
Proof.
  unfold Stats.get_or_create at 1, Stats.update. cbn [Stats.routes].
  destruct (decide (k = route)) as [<-|]; [by rewrite lookup_insert_eq|by rewrite lookup_insert_ne].
Qed.

(** The balance of one route: what is not yet decided. *)
Definition balance (r : Stats.RouteStats) : Z :=
  Stats.total_requests r - Stats.success_count r - Stats.error_count r.

Lemma u64_eq_iff a b : 0 <= a < two64 -> a = u64 b <-> u64 (a - b) = 0.
Proof.
  intros Ha. unfold u64. split.
  - intros ->. rewrite Zminus_mod_idemp_l, Z.sub_diag. done.
  - intros E. apply Z.mod_divide in E as [q Hq]; [|done].
    replace b with (a + (- q) * two64) by lia. by rewrite Z_mod_plus_full, Z.mod_small.
Qed.

Lemma u64_shift a : exists q, u64 a = a + q * two64.
Proof. exists (- (a / two64)). unfold u64. pose proof (Z.div_mod a two64 ltac:(done)). lia. Qed.

Lemma u64_plus a q : u64 (a + q * two64) = u64 a.
Proof. unfold u64. apply Z_mod_plus_full. Qed.

(** One step of the statistics, on the balance of a route and on the errors not yet
    counted as upstream errors. *)
Definition balance_delta (route : bytes) (o : Stats.op) : Z :=
  match o with
  | Stats.RecordRequest r _ => if decide (r = route) then 1 else 0
  | Stats.RecordSuccess r | Stats.RecordError r => if decide (r = route) then -1 else 0
  | _ => 0
  end.

Lemma balance_exec route o st :
  u64 (balance (Stats.get_or_create route (Stats.exec o st)))
  = u64 (balance (Stats.get_or_create route st) + balance_delta route o).
Proof.
  destruct o as [r l|r|r| | |]; cbn [Stats.exec balance_delta]; rewrite ?Z.add_0_r; try done.
  all: unfold Stats.record_request, Stats.record_success, Stats.record_error; rewrite stats_total;
    destruct (decide (r = route)) as [->|]; [|by rewrite Z.add_0_r]; unfold balance;
    cbn [Stats.total_requests Stats.success_count Stats.error_count].
  - destruct (u64_shift (Stats.total_requests (Stats.get_or_create route st) + 1)) as [q ->].
    symmetry. rewrite <- (u64_plus _ q). f_equal. lia.
  - destruct (u64_shift (Stats.success_count (Stats.get_or_create route st) + 1)) as [q ->].
    symmetry. rewrite <- (u64_plus _ (- q)). f_equal. lia.
  - destruct (u64_shift (Stats.error_count (Stats.get_or_create route st) + 1)) as [q ->].
    symmetry. rewrite <- (u64_plus _ (- q)). f_equal. lia.
Qed.

Definition uncounted (st : Stats.t) : Z := Stats.s_errors (Stats.global_snapshot st) - Stats.upstream_errors st.

Definition error_delta (o : Stats.op) : Z :=
  match o with Stats.RecordError _ => 1 | Stats.IncUpstream => -1 | _ => 0 end.

Lemma uncounted_exec o st :
  u64 (uncounted (Stats.exec o st))
  = u64 (uncounted st + error_delta o).
Proof.
  unfold uncounted. cbn [Stats.global_snapshot Stats.s_errors].
  pose proof (Stats.sum_routes_range Stats.error_count st) as Hr.
  destruct o as [r l|r|r| | |]; cbn [Stats.exec error_delta]; rewrite ?Z.add_0_r; try done.
  1-3: unfold Stats.record_request, Stats.record_success, Stats.record_error; rewrite Stats.sum_routes_update by done;
    cbn [Stats.error_count Stats.upstream_errors Stats.update]; rewrite ?Z.sub_diag, ?Z.add_0_r, ?Stats.u64_delta.
  - by rewrite (u64_small (Stats.sum_routes _ _) Hr).
  - by rewrite (u64_small (Stats.sum_routes _ _) Hr).
  - destruct (u64_shift (Stats.sum_routes Stats.error_count st + 1)) as [q ->].
    symmetry. rewrite <- (u64_plus _ q). f_equal. lia.
  - cbn [Stats.inc_upstream_errors Stats.upstream_errors].
    change (Stats.sum_routes Stats.error_count (Stats.inc_upstream_errors st)) with (Stats.sum_routes Stats.error_count st).
    destruct (u64_shift (Stats.upstream_errors st + 1)) as [q ->].
    symmetry. rewrite <- (u64_plus _ (- q)). f_equal. lia.
Qed.

Lemma step_undecided e (p : pc) g p' g' route :
  step e p g = Some (p', g') ->
  Z.of_nat (undecided route p') = Z.of_nat (undecided route p) + from_option (balance_delta route) 0 (stats_op e p).
Proof. intros Hs. step_cases Hs p; try lia; try destruct (decide _); try lia. Qed.

Lemma step_unreported e (p : pc) g p' g' :
  step e p g = Some (p', g') ->
  Z.of_nat (unreported p') = Z.of_nat (unreported p) + from_option error_delta 0 (stats_op e p).
Proof. intros Hs. step_cases Hs p; lia. Qed.

Lemma step_route e (p : pc) g p' g' route :
  step e p g = Some (p', g') ->
  u64 (balance (route_stats route g')) =
  u64 (balance (route_stats route g) - Z.of_nat (undecided route p) + Z.of_nat (undecided route p')).
Proof.
  intros Hs. unfold route_stats. rewrite (step_stats e p g p' g' Hs), (step_undecided e p g p' g' route Hs).
  destruct (stats_op e p) as [o|]; cbn [from_option]; [rewrite balance_exec|]; apply (f_equal u64); lia.
Qed.

Lemma step_errors e (p : pc) g p' g' :
  step e p g = Some (p', g') ->
  u64 (uncounted (G.stats g')) =
  u64 (uncounted (G.stats g) - Z.of_nat (unreported p) + Z.of_nat (unreported p')).
Proof.
  intros Hs. rewrite (step_stats e p g p' g' Hs), (step_unreported e p g p' g' Hs).
  destruct (stats_op e p) as [o|]; cbn [from_option]; [rewrite uncounted_exec|]; apply (f_equal u64); lia.
Qed.

Lemma step_breaker_grows e (p : pc) g p' g' k :
  step e p g = Some (p', g') -> is_Some (G.circuit_breakers g !! k) -> is_Some (G.circuit_breakers g' !! k).
Proof.
  intros Hs Hk. rewrite (step_breakers e p g p' g' Hs). clear Hs.
  assert (Ha : forall b c, is_Some (alter (CB.exec c) (LB.make_key b) (G.circuit_breakers g) !! k)).
  { intros b c. by apply lookup_alter_is_Some. }
  destruct p; cbn [breaker_call]; try done.
  unfold G.get_circuit_breaker. destruct (G.circuit_breakers g !! LB.make_key (target j)); [done|].
  cbn. apply lookup_insert_is_Some'. by right.
Qed.

Lemma step_breaker_ref e (p : pc) g p' g' b :
  step e p g = Some (p', g') -> breaker_ref p' = Some b ->
  breaker_ref p = Some b \/ is_Some (G.circuit_breakers g' !! LB.make_key b).
Proof.
  intros Hs. step_cases Hs p; cbn [breaker_ref reject]; try (by left); try done.
  - intros [= <-]. right. by eexists.
  - intros [= <-]. right. unfold G.get_circuit_breaker.
    destruct (G.circuit_breakers g !! LB.make_key (target j)) eqn:E; cbn; [by rewrite E|by rewrite lookup_insert_eq].
Qed.

Lemma step_breaker_inv e (p : pc) g p' g' :
  step e p g = Some (p', g') ->
  map_Forall (fun _ cb => 1 <= CB.failure_threshold cb /\ CB.inv cb) (G.circuit_breakers g) ->
  map_Forall (fun _ cb => 1 <= CB.failure_threshold cb /\ CB.inv cb) (G.circuit_breakers g').
Proof.
  intros Hs Hm. rewrite (step_breakers e p g p' g' Hs). clear Hs.
  assert (Ha : forall b c, map_Forall (fun _ cb => 1 <= CB.failure_threshold cb /\ CB.inv cb)
    (alter (CB.exec c) (LB.make_key b) (G.circuit_breakers g))).
  { intros b c k cb Hl. apply lookup_alter_Some in Hl. destruct Hl as [(_ & cb0 & H1 & ->)|[_ H1]]; [|by apply (Hm k)].
    destruct (Hm _ _ H1). split; [by rewrite CB.exec_threshold|by apply CB.exec_inv]. }
  destruct p; cbn [breaker_call]; try done.
  unfold G.get_circuit_breaker. destruct (G.circuit_breakers g !! LB.make_key (target j)); [done|].
  cbn. apply map_Forall_insert_2; [|done]. split; [cbn; lia|apply CB.create_inv; lia].
Qed.

Lemma step_range e (p : pc) g p' g' route :
  step e p g = Some (p', g') -> 0 <= Stats.total_requests (route_stats route g) < two64 ->
  0 <= Stats.total_requests (route_stats route g') < two64.
Proof.
  intros Hs Hr. unfold route_stats in *. rewrite (step_stats e p g p' g' Hs). clear Hs.
  destruct (stats_op e p) as [o|]; [|done]. destruct o as [r l|r|r| | |]; cbn [Stats.exec]; try done.
  all: unfold Stats.record_request, Stats.record_success, Stats.record_error; rewrite stats_total;
    destruct (decide _) as [->|]; [|done]; cbn [Stats.total_requests]; try done. apply u64_range.
Qed.

(** What the shared counters say of the threads. *)
Record accounts (g : G.t W) (ts : list (G.env * pc)) : Prop := {
  acc_conns b : LB.conns b (G.load_balancer g) = total (connected b) ts;
  acc_active b p : Proxy.pool (G.proxy g) = Some p -> Pool.active_of (Pool.make_key b) p = total (holding b) ts;
  acc_idle p :
    Proxy.pool (G.proxy g) = Some p ->
    Pool.inv p /\ Pool.max_idle_per_host p = u64 (pool_max_idle_per_host (G.config g));
  acc_route route : u64 (balance (route_stats route g)) = u64 (total (undecided route) ts);
  acc_range route : 0 <= Stats.total_requests (route_stats route g) < two64;
  acc_errors : u64 (uncounted (G.stats g)) = u64 (total unreported ts);
  acc_breakers : map_Forall (fun _ cb => 1 <= CB.failure_threshold cb /\ CB.inv cb) (G.circuit_breakers g);
  acc_refs i e p b :
    ts !! i = Some (e, p) -> breaker_ref p = Some b -> is_Some (G.circuit_breakers g !! LB.make_key b)
}.

Lemma accounts_step e (p : pc) g p' g' ts i :
  accounts g ts -> LB.algo (G.load_balancer g) <> LB.LeastConnections -> zlen ts + 1 < two64 ->
  ts !! i = Some (e, p) -> step e p g = Some (p', g') -> accounts g' (<[i := (e, p')]> ts).
Proof.
  intros Ha Hal Hlen Hi Hs. constructor.
  - intros b. rewrite (total_insert _ _ _ _ _ p' Hi), <- (acc_conns _ _ Ha b).
    pose proof (total_bound (connected b) ts (connected_le b)). pose proof (total_elem (connected b) ts i e p Hi).
    apply (step_conns e p g p' g'); rewrite ?(acc_conns _ _ Ha b); done || lia.
  - intros b q Hq. rewrite (total_insert _ _ _ _ _ p' Hi).
    pose proof (total_bound (holding b) ts (holding_le b)). pose proof (total_elem (holding b) ts i e p Hi).
    apply (step_active e p g p' g' b q); try done; try lia. intros q0. apply (acc_active _ _ Ha b).
  - intros q. apply (step_idle e p g p' g' q Hs), (acc_idle _ _ Ha).
  - intros route. rewrite (step_route e p g p' g' route Hs), (total_insert _ _ _ _ _ p' Hi).
    unfold u64. rewrite <- Zplus_mod_idemp_l, <- Zminus_mod_idemp_l. fold (u64 (balance (route_stats route g))).
    rewrite (acc_route _ _ Ha route). unfold u64. by rewrite Zminus_mod_idemp_l, Zplus_mod_idemp_l.
  - intros route. apply (step_range e p g p' g' route Hs), (acc_range _ _ Ha).
  - rewrite (step_errors e p g p' g' Hs), (total_insert _ _ _ _ _ p' Hi).
    unfold u64. rewrite <- Zplus_mod_idemp_l, <- Zminus_mod_idemp_l. fold (u64 (uncounted (G.stats g))).
    rewrite (acc_errors _ _ Ha). unfold u64. by rewrite Zminus_mod_idemp_l, Zplus_mod_idemp_l.
  - apply (step_breaker_inv e p g p' g' Hs), (acc_breakers _ _ Ha).
  - intros k ek pk b Hk Hb. destruct (decide (i = k)) as [<-|Hne].
    + rewrite list_lookup_insert_eq in Hk by by eapply lookup_lt_Some. injection Hk as <- <-.
      destruct (step_breaker_ref e p g p' g' b Hs Hb) as [Hr|Hr]; [|done].
      apply (step_breaker_grows e p g p' g' _ Hs), (acc_refs _ _ Ha i e p b Hi Hr).
    + rewrite list_lookup_insert_ne in Hk by done.
      apply (step_breaker_grows e p g p' g' _ Hs), (acc_refs _ _ Ha k ek pk b Hk Hb).
Qed.

Lemma accounts_spawn g ts e raw : accounts g ts -> accounts g (ts ++ [(e, Start raw)]).
Proof.
  intros [A1 A2 A3 A4 A5 A6 A7 A8].
  constructor; intros; rewrite ?total_spawn, ?Z.add_0_r; cbn [snd connected holding undecided unreported]; rewrite ?Z.add_0_r; eauto.
  rewrite lookup_snoc_Some in *. naive_solver.
Qed.

Lemma accounts_cleanup now g ts :
  accounts g ts -> accounts (G.set_proxy (Proxy.cleanup_pool now (G.proxy g)) g) ts.
Proof.
  intros [A1 A2 A3 A4 A5 A6 A7 A8]. constructor; try done.
  - intros b q. cbn. unfold Proxy.cleanup_pool. destruct (Proxy.pool (G.proxy g)) as [q0|] eqn:E; [|by rewrite E]. intros [= <-].
    rewrite <- (A2 b q0) by done. apply Pool.cleanup_idle_exact.
  - intros q. cbn. unfold Proxy.cleanup_pool. destruct (Proxy.pool (G.proxy g)) as [q0|] eqn:E; [|by rewrite E]. intros [= <-].
    destruct (A3 q0 eq_refl) as [H1 <-]. by apply (Pool.pool_exec_inv (Pool.CleanupIdle now)).
Qed.

Lemma exec_accounts l (s s' : t) :
  exec l s = Some s' -> accounts (shared s) (threads s) -> LB.algo (G.load_balancer (shared s)) <> LB.LeastConnections ->
  zlen (threads s) + 1 < two64 ->
  accounts (shared s') (threads s') /\ LB.algo (G.load_balancer (shared s')) <> LB.LeastConnections.
Proof.
  intros He Ha Hl Hn. destruct l as [e raw|i|now]; cbn [exec] in He.
  - injection He as <-. split; [by apply accounts_spawn|done].
  - apply bind_Some in He as ([e p] & Hi & He). apply bind_Some in He as ([p' g'] & Hs & He). injection He as <-.
    split; [by apply (accounts_step e p (shared s))|]. cbn [shared]. by rewrite (step_algo e p _ p' g' Hs).
  - injection He as <-. split; [by apply accounts_cleanup|done].
Qed.

Lemma exec_threads l (s s' : t) : exec l s = Some s' -> zlen (threads s) <= zlen (threads s').
Proof.
  destruct l as [e raw|i|now]; cbn [exec]; intros He.
  - injection He as <-. cbn [threads]. rewrite zlen_app. pose proof (zlen_nonneg [(e, Start (W := W) raw)]). lia.
  - apply bind_Some in He as ([e p] & Hi & He). apply bind_Some in He as ([p' g'] & Hs & He). injection He as <-.
    cbn [threads]. unfold zlen. rewrite length_insert. lia.
  - by injection He as <-.
Qed.

Lemma run_threads ls (s s' : t) : run ls s = Some s' -> zlen (threads s) <= zlen (threads s').
Proof.
  revert s; induction ls as [|l ls IH]; intros s; cbn [run]; [by intros [= ->]|].
  intros (s1 & He & Hr)%bind_Some. apply exec_threads in He. apply IH in Hr. lia.
Qed.

Lemma run_accounts ls (s s' : t) :
  run ls s = Some s' -> accounts (shared s) (threads s) -> LB.algo (G.load_balancer (shared s)) <> LB.LeastConnections ->
  zlen (threads s') + 1 < two64 -> accounts (shared s') (threads s').
Proof.
  revert s; induction ls as [|l ls IH]; intros s; cbn [run]; [by intros [= ->]|].
  intros (s1 & He & Hr)%bind_Some Ha Hl Hn. pose proof (exec_threads _ _ _ He). pose proof (run_threads _ _ _ Hr).
  destruct (exec_accounts l s s1 He Ha Hl ltac:(lia)) as [Ha1 Hl1]. by apply (IH s1).
Qed.

(** The gateway as it is before its first request. *)
Definition start (c : GatewayConfig) (w : W) (fs : list (Filter W)) : G.t W :=
  foldl (fun g f => G.add_filter f g) (G.create c Stats.create w) fs.

Lemma start_eq c w fs :
  start c w fs =
  G.mk c (Router.create (routes c))
    (Proxy.set_pool (Pool.create (pool_max_idle_per_host c) (pool_idle_timeout_sec c)) (Proxy.create (backend_timeout_ms c)))
    (LB.create LB.RoundRobin) ∅ Stats.create fs w.
Proof.
  unfold start. assert (Hf : forall fs0, foldl (fun g f => G.add_filter f g) (G.mk c (Router.create (routes c))
    (Proxy.set_pool (Pool.create (pool_max_idle_per_host c) (pool_idle_timeout_sec c)) (Proxy.create (backend_timeout_ms c)))
    (LB.create LB.RoundRobin) ∅ Stats.create fs0 w) fs = G.mk c (Router.create (routes c))
    (Proxy.set_pool (Pool.create (pool_max_idle_per_host c) (pool_idle_timeout_sec c)) (Proxy.create (backend_timeout_ms c)))
    (LB.create LB.RoundRobin) ∅ Stats.create (fs0 ++ fs) w).
  { induction fs as [|f fs IH]; intros fs0; [by rewrite app_nil_r|].
    cbn [foldl]. etransitivity; [apply (IH (fs0 ++ [f]))|]. by rewrite <- app_assoc. }
  apply (Hf []).
Qed.

Lemma start_accounts c w fs : accounts (start c w fs) [].
Proof.
  rewrite start_eq. constructor; try done.
  - intros b q [= <-]. unfold Pool.active_of, Pool.entry. cbn. by rewrite lookup_empty.
  - intros q [= <-]. split; [|done]. apply Pool.pool_create_inv.
Qed.

(** C14. The books balance in every interleaving of the workers with each other and with the
    pool cleanup: the balancer counts exactly the requests between [on_connect] and
    [on_disconnect], the pool counts exactly the connections handed out and keeps no more
    idle ones per backend than configured (the setting converted to [size_t], so a negative
    one is no limit), a route's total is its successes, its errors and the
    requests between two updates, the error total is the upstream errors and the requests
    about to report one, and every breaker is in a state of its diagram and exists for
    each thread that holds a reference to it. *)
Theorem books_balance (c : GatewayConfig) (w : W) (fs : list (Filter W)) (ls : list label) (s : t) :
  run ls (init (start c w fs)) = Some s -> zlen (threads s) + 1 < two64 ->
  let g := shared s in
  let ts := threads s in
  (forall b, LB.conns b (G.load_balancer g) = total (connected b) ts) /\
  (forall p, Proxy.pool (G.proxy g) = Some p -> forall b,
     Pool.active_of (Pool.make_key b) p = total (holding b) ts /\
     zlen (Pool.idle_of (Pool.make_key b) p) <= u64 (pool_max_idle_per_host (G.config g))) /\
  (forall route, let r := route_stats route g in
     Stats.total_requests r = u64 (Stats.success_count r + Stats.error_count r + total (undecided route) ts)) /\
  Stats.s_errors (Stats.global_snapshot (G.stats g)) = u64 (Stats.upstream_errors (G.stats g) + total unreported ts) /\
  map_Forall (fun _ cb => CB.inv cb) (G.circuit_breakers g) /\
  (forall i e p b, ts !! i = Some (e, p) -> breaker_ref p = Some b ->
     is_Some (G.circuit_breakers g !! LB.make_key b)).
Proof.
  intros Hr Hn. destruct (run_accounts ls _ s Hr) as [A1 A2 A3 A4 A5 A6 A7 A8]; [apply start_accounts| |done|].
  { cbn [shared init]. by rewrite start_eq. }
  assert (Hd : forall a x, u64 a = u64 x -> u64 (a - x) = 0).
  { intros a x E. unfold u64 in *. by rewrite Zminus_mod, E, Z.sub_diag. }
  repeat split; try done.
  - by apply A2.
  - destruct (A3 p) as [Hi <-]; [done|]. apply Hi.
  - intros route r. apply u64_eq_iff; [apply A5|]. specialize (Hd _ _ (A4 route)). unfold balance in Hd. fold r in Hd.
    rewrite <- Hd. f_equal. lia.
  - apply u64_eq_iff; [apply Stats.sum_routes_range|]. specialize (Hd _ _ A6). unfold uncounted in Hd.
    rewrite <- Hd. f_equal. lia.
  - intros k cb Hk. by destruct (A7 k cb Hk).
Qed.

(** ** Progress *)

(** The kernel's answers let the calls of the forward return. *)
Definition kernel_returns (e : G.env) (raw : bytes) : Prop :=
  let x := G.proxy_env e in
  (forall conn, is_Some (Conn.send_all (Proxy.sends x) raw conn)) /\
  (forall conn, is_Some (Conn.recv_all (Proxy.recvs x) (Proxy.recv_time x) conn)) /\
  is_Some (Proxy.forward_direct x raw).

Definition sane_job (e : G.env) (j : job) : Prop := is_Some (req (ctx j)) /\ kernel_returns e (raw j).

(** What a thread has established where it is. *)
Definition sane (n : nat) (e : G.env) (p : pc) (g : G.t W) : Prop :=
  match p with
  | Start raw => kernel_returns e raw
  | RequestFilters raw r fs c => Forall FilterOk fs /\ (length fs <= n)%nat /\ is_Some (req c) /\ kernel_returns e raw
  | Select raw r c _ => is_Some (req c) /\ kernel_returns e raw
  | Acquire j => sane_job e j /\ is_Some (Proxy.pool (G.proxy g))
  | FindBreaker j | EmplaceBreaker j | Allow j | Connect j | Dial j | Rollback j | Exchange j _ | Evict j
  | Release j _ _ | Direct j | Disconnect j _ | Record_ j _ | Outcome j _ | Upstream j _ | Report j _ | Headers j _ =>
      sane_job e j
  | ResponseFilters j fs c out hdr_end =>
      Forall FilterOk fs /\ (length fs <= n)%nat /\ is_Some (req c) /\ is_Some (resp c) /\
      from_option (fun pos => pos <= length out)%nat True hdr_end
  | Limited | Sent _ _ => True
  end.

(** The calls a thread has left, for a chain of [n] filters. *)
Definition weight (n : nat) (p : pc) : nat :=
  match p with
  | Start _ => 18 + 2 * n
  | RequestFilters _ _ fs _ => 17 + n + length fs
  | Select _ _ _ _ => 16 + n
  | FindBreaker _ => 15 + n
  | EmplaceBreaker _ => 14 + n
  | Allow _ => 13 + n
  | Connect _ => 12 + n
  | Acquire _ => 11 + n
  | Dial _ => 10 + n
  | Exchange _ _ => 9 + n
  | Rollback _ | Evict _ | Release _ _ _ | Direct _ => 8 + n
  | Disconnect _ _ => 7 + n
  | Record_ _ _ => 6 + n
  | Outcome _ _ => 5 + n
  | Upstream _ _ => 4 + n
  | Report _ _ => 3 + n
  | Headers _ _ => 2 + n
  | ResponseFilters _ fs _ _ _ => 1 + length fs
  | Limited => 1
  | Sent _ _ => 0
  end.

Lemma step_weight e (p : pc) g p' g' :
  step e p g = Some (p', g') -> (weight (length (G.filters g)) p' < weight (length (G.filters g)) p)%nat.
Proof. intros Hs. step_cases Hs p; cbn [weight reject length]; lia. Qed.

Lemma string_insert_defined pos x (y : bytes) : (pos <= length y)%nat -> is_Some (G.string_insert pos x y).
Proof. intros Hp. unfold G.string_insert. destruct (Nat.leb_spec pos (length y)); [done|lia]. Qed.

Lemma string_insert_length pos x (y z : bytes) : G.string_insert pos x y = Some z -> length z = (length x + length y)%nat.
Proof.
  unfold G.string_insert. destruct (Nat.leb_spec pos (length y)); [|done]. intros E. apply (inj Some) in E as <-.
  rewrite !length_app, length_take, length_drop. lia.
Qed.

Lemma connection_header_defined raw :
  exists out hdr_end, G.add_connection_header raw = Some (out, hdr_end) /\
    from_option (fun pos => pos <= length out)%nat True hdr_end.
Proof.
  unfold G.add_connection_header. destruct (find_sub CRLFCRLF raw) as [i|] eqn:E; [|by do 2 eexists].
  apply find_sub_Some in E as [[b Hb] Hl]. cbv zeta. split_if; [|do 2 eexists; split; [done|]; cbn [from_option]; lia].
  destruct (string_insert_defined i (CRLF ++ lit "Connection: close") raw ltac:(lia)) as [out Ho]. rewrite Ho.
  do 2 eexists. split; [done|]. cbn [from_option]. rewrite (string_insert_length _ _ _ _ Ho), length_app.
  apply (f_equal length) in Hb. rewrite !length_app, length_take in Hb. change (length CRLFCRLF) with 4%nat in Hb.
  change (length CRLF) with 2%nat. change (length (lit "Connection: close")) with 17%nat. lia.
Qed.

Lemma filter_headers_defined hdr_end hs out :
  from_option (fun pos => pos <= length out)%nat True hdr_end -> is_Some (G.add_filter_headers hdr_end hs out).
Proof.
  intros Hh. unfold G.add_filter_headers. destruct hdr_end as [pos|]; [|done]. repeat (split_if; [done|]).
  by apply string_insert_defined.
Qed.

(** A thread that has not answered has a next step. *)
Lemma step_defined e (p : pc) g :
  sane (length (G.filters g)) e p g -> is_sent p = false ->
  (forall b, breaker_ref p = Some b -> is_Some (G.circuit_breakers g !! LB.make_key b)) ->
  is_Some (step e p g).
Proof.
  intros Hp Hn Hb. destruct p; cbn [step sane is_sent breaker_ref] in *; try done.
  - destruct (HttpParser.parse_http_request _ _) as [[] r]; [cbn [negb]|done]. by destruct (G.handle_internal_endpoint _ _).
  - destruct fs as [|f fs]; [by destruct (Router.match_ _ _)|]. destruct Hp as (Hf & _ & [rq Hrq] & _).
    apply Forall_cons in Hf as [Hf _]. destruct (request_defined c (G.world g) rq Hrq) as ([] & c' & w & -> & _); done.
  - by destruct (LB.select _ _ _).
  - by destruct (_ !! _).
  - destruct (Hb _ eq_refl) as [cb Hcb]. unfold breaker_key. rewrite Hcb. cbn [mbind option_bind].
    by destruct (CB.allow_request _ _) as [[] ?].
  - by destruct (Proxy.pool _).
  - destruct Hp as [_ [q ->]]. cbn [mbind option_bind]. by destruct (Pool.acquire_idle _ _ _ _) as [[] ?].
  - by destruct (Conn.connect _ _) as [[] ?].
  - destruct Hp as [_ (Hs & Hr & _)]. destruct (Hs conn) as [[[] ?] ->]; cbn [mbind option_bind negb]; [|done].
    destruct (Hr conn) as [[? ?] ->]. cbn [mbind option_bind]. by destruct (bool_decide _).
  - destruct Hp as [_ (_ & _ & [? ->])]. done.
  - by destruct (G.is_success _).
  - destruct (Hb _ eq_refl) as [cb Hcb]. unfold breaker_key. by rewrite Hcb.
  - destruct (connection_header_defined resp0) as (out & h & -> & _). done.
  - destruct Hp as (Hf & _ & [rq Hrq] & [rp Hrp] & Hh). destruct fs as [|f fs].
    + rewrite Hrp. by destruct (filter_headers_defined hdr_end (resp_headers rp) out Hh) as [? ->].
    + apply Forall_cons in Hf as [Hf _].
      by destruct (response_defined c (G.world g) rq rp Hrq Hrp) as (? & ? & ? & -> & _).
Qed.

Lemma step_pool_some e (p : pc) g p' g' :
  step e p g = Some (p', g') -> is_Some (Proxy.pool (G.proxy g)) -> is_Some (Proxy.pool (G.proxy g')).
Proof.
  intros Hs [q Hq]. rewrite (step_pool e p g p' g' Hs), Hq. by destruct (pool_op e p).
Qed.

Lemma step_sane e (p : pc) g p' g' :
  Forall FilterOk (G.filters g) -> step e p g = Some (p', g') ->
  sane (length (G.filters g)) e p g -> sane (length (G.filters g)) e p' g'.
Proof.
  intros Hf Hs Hp. step_cases Hs p; cbn [sane reject] in *; try done; try tauto.
  - destruct Hp as (Hfs & Hl & [rq Hrq] & Hk). apply Forall_cons in Hfs as [Hf1 Hfs]. split; [done|]. split; [lia|]. split; [|done].
    destruct (request_defined c (G.world g) rq Hrq) as (ok & c' & w' & E & Hc'). rewrite E in H1. injection H1 as -> -> ->. done.
  - destruct Hp as [Hq _]. destruct (connection_header_defined resp0) as (out & h & E & Hh). rewrite E in H1.
    injection H1 as -> ->. done.
  - destruct Hp as (Hfs & Hl & [rq Hrq] & [rp Hrp] & Hh). apply Forall_cons in Hfs as [Hf1 Hfs]. split; [done|]. split; [lia|].
    destruct (response_defined c (G.world g) rq rp Hrq Hrp) as (c' & w' & rp' & E & Hc' & Hr'). rewrite E in H1. injection H1 as -> ->.
    done.
Qed.

(** The turns thread [i] has had. *)
Definition turns (i : nat) (ls : list label) : nat :=
  sum_list_with (fun l => match l with Step k => if decide (k = i) then 1 else 0 | _ => 0 end)%nat ls.

Definition spawn_returns (l : label) : Prop := match l with Spawn e raw => kernel_returns e raw | _ => True end.

(** Every thread has a next step and the pool exists. *)
Record live (fs : list (Filter W)) (s : t) : Prop := {
  live_filters : G.filters (shared s) = fs;
  live_pool : is_Some (Proxy.pool (G.proxy (shared s)));
  live_threads i e p : threads s !! i = Some (e, p) -> sane (length fs) e p (shared s)
}.

Lemma sane_frame n e (p : pc) g g' :
  (is_Some (Proxy.pool (G.proxy g)) -> is_Some (Proxy.pool (G.proxy g'))) -> sane n e p g -> sane n e p g'.
Proof. intros Hg. destruct p; cbn [sane]; try done. naive_solver. Qed.

(** The calls thread [i] has left, those of a request not yet accepted included. *)
Definition remaining (n i : nat) (s : t) : nat :=
  match threads s !! i with Some (_, p) => weight n p | None => 18 + 2 * n end.

Lemma exec_live fs l (s s' : t) i :
  Forall FilterOk fs -> spawn_returns l -> live fs s -> exec l s = Some s' ->
  live fs s' /\ (remaining (length fs) i s' + turns i [l] <= remaining (length fs) i s)%nat.
Proof.
  intros Hok Hl [Hf Hp Ht] He. unfold remaining. destruct l as [e raw|k|now]; cbn [exec turns sum_list_with] in *.
  - injection He as <-. split.
    + constructor; [done..|]. intros j e' p Hj. cbn [threads shared] in *.
      apply lookup_snoc_Some in Hj as [[_ Hj]|[_ Hj]]; [by apply (Ht j)|by injection Hj as <- <-].
    + cbn [threads]. destruct (threads s !! i) as [[e' p]|] eqn:E.
      * rewrite (lookup_app_l_Some _ _ _ _ E). lia.
      * destruct ((threads s ++ [(e, Start raw)]) !! i) as [[e' p]|] eqn:E'; [|lia].
        apply lookup_snoc_Some in E' as [[_ E']|[_ E']]; [congruence|]. injection E' as <- <-. cbn [weight]. lia.
  - apply bind_Some in He as ([e p] & Hk & He). apply bind_Some in He as ([p' g'] & Hs & He). injection He as <-.
    destruct (step_static e p _ p' g' Hs) as (Hf' & _). split.
    + constructor; cbn [shared threads]; [congruence|by apply (step_pool_some e p _ p' g' Hs)|].
      intros j e' q Hj. destruct (decide (k = j)) as [<-|Hne].
      * rewrite list_lookup_insert_eq in Hj by by eapply lookup_lt_Some. injection Hj as <- <-.
        rewrite <- Hf. apply (step_sane e p _ p' g'); rewrite ?Hf; [done|done|by apply (Ht k)].
      * rewrite list_lookup_insert_ne in Hj by done. apply (sane_frame _ _ _ (shared s)); [|by apply (Ht j)].
        apply (step_pool_some e p _ p' g' Hs).
    + cbn [threads]. pose proof (step_weight e p _ p' g' Hs) as Hw. rewrite Hf in Hw. destruct (decide (k = i)) as [<-|Hne].
      * rewrite list_lookup_insert_eq by by eapply lookup_lt_Some. rewrite Hk. lia.
      * rewrite list_lookup_insert_ne by done. lia.
  - injection He as <-. split; [|cbn [threads]; lia]. constructor; cbn [shared threads]; [done|..].
    + destruct Hp as [q Hq]. cbn. unfold Proxy.cleanup_pool. by rewrite Hq.
    + intros j e p Hj. apply (sane_frame _ _ _ (shared s)); [|by apply (Ht j)].
      intros [q Hq]. cbn. unfold Proxy.cleanup_pool. by rewrite Hq.
Qed.

Lemma run_live fs ls (s s' : t) i :
  Forall FilterOk fs -> Forall spawn_returns ls -> live fs s -> run ls s = Some s' ->
  live fs s' /\ (remaining (length fs) i s' + turns i ls <= remaining (length fs) i s)%nat.
Proof.
  intros Hok. revert s; induction ls as [|l ls IH]; intros s Hls Hs Hr; cbn [run] in Hr.
  { injection Hr as <-. split; [done|]. cbn. lia. }
  apply Forall_cons in Hls as [Hl Hls]. apply bind_Some in Hr as (s1 & He & Hr).
  destruct (exec_live fs l s s1 i Hok Hl Hs He) as [Hs1 Hb]. destruct (IH s1 Hls Hs1 Hr) as [Hs' Hb']. split; [done|].
  unfold turns in *. cbn [sum_list_with] in *. lia.
Qed.

Lemma start_live c w fs : live fs (init (start c w fs)).
Proof. constructor; cbn [shared init threads]; [by rewrite start_eq|by rewrite start_eq|done]. Qed.

Lemma worker_progress (c : GatewayConfig) (w : W) (fs : list (Filter W)) (ls : list label) (s : t) i e p :
  Forall FilterOk fs -> Forall spawn_returns ls ->
  run ls (init (start c w fs)) = Some s -> zlen (threads s) + 1 < two64 -> threads s !! i = Some (e, p) ->
  is_sent p = true \/ is_Some (exec (Step i) s).
Proof.
  intros Hok Hls Hr Hn Hi. destruct (run_live fs ls _ s i Hok Hls (start_live c w fs) Hr) as [[Hf Hp Ht] _].
  destruct (run_accounts ls _ s Hr (start_accounts c w fs)) as [_ _ _ _ _ _ _ A8]; [by cbn [shared init]; rewrite start_eq|done|].
  destruct (is_sent p) eqn:Es; [by left|right].
  destruct (step_defined e p (shared s)) as [[p' g'] Hs]; [rewrite Hf; by apply (Ht i)|done| |].
  - intros b. apply (A8 i e p b Hi).
  - cbn [exec]. rewrite Hi. cbn [mbind option_bind]. by rewrite Hs.
Qed.

(** C15. Every worker answers, however the threads interleave: with filters that keep their
    contract and a kernel that lets every call return, a thread that has not sent its
    response can take its next step in every reachable state, and a thread takes at most
    18 steps and two for each filter.  So a schedule that never forgets a thread ends with
    every request answered; no thread waits for another. *)
Theorem every_worker_answers (c : GatewayConfig) (w : W) (fs : list (Filter W)) (ls : list label) (s : t) :
  Forall FilterOk fs -> Forall spawn_returns ls ->
  run ls (init (start c w fs)) = Some s -> zlen (threads s) + 1 < two64 ->
  forall i e p, threads s !! i = Some (e, p) ->
    (is_sent p = true \/ is_Some (exec (Step i) s)) /\
    (turns i ls <= 18 + 2 * length fs)%nat /\
    (turns i ls = 18 + 2 * length fs -> is_sent p = true)%nat.
Proof.
  intros Hok Hls Hr Hn i e p Hi. split; [by eapply worker_progress|].
  destruct (run_live fs ls _ s i Hok Hls (start_live c w fs) Hr) as [_ Hb].
  unfold remaining in Hb. rewrite Hi in Hb. cbn [threads init] in Hb. rewrite lookup_nil in Hb. split; [lia|].
  intros Ht18. destruct p; cbn [weight] in Hb; try lia. done.
Qed.

End Accounting.

(** ** Evaluated runs *)

(** A backend that answers. *)
Definition up : Proxy.env :=
  Proxy.Build_env (fun _ => Conn.Build_alive_env 0 0 (-1) 11) 0
    (Conn.Build_connect_env 7 1 0 0 0 0 0 0) [Conn.Build_send_event 1 (zlen G.sample_raw) 0]
    (Conn.data_events [lit "HTTP/1.1 200 OK" ++ CRLF ++ lit "Content-Length: 0" ++ CRLFCRLF]
       ++ [Conn.Build_recv_event 1 Conn.REof]) 4
    (fun _ => Conn.Build_alive_env 0 0 (-1) 11).

Definition sample_start : G.t World :=
  start load_default_config (mkWorld 5 [] 3) [RequestIdFilter; LoggingFilter].

(** Two requests, the first of which is forwarding while the second is selected. *)
Definition overlap : list label :=
  [Spawn (G.down_at 1) G.sample_raw; Spawn (G.down_at 2) G.sample_raw]
    ++ replicate 9 (Step 0) ++ replicate 5 (Step 1).

Definition state_after (ls : list label) : Workers.t :=
  match run ls (init sample_start) with Some s => s | None => init sample_start end.

Definition runs (ls : list label) : bool := match run ls (init sample_start) with Some _ => true | None => false end.

Lemma runs_to ls : runs ls = true -> run ls (init sample_start) = Some (state_after ls).
Proof. unfold runs, state_after. by destruct (run ls (init sample_start)). Qed.

(** C14 applied to two overlapping requests: one connection is counted while it is dialled. *)
Lemma books_balance_witness :
  LB.conns G.sample_backend (G.load_balancer (shared (state_after overlap))) = 1 /\
  total (connected G.sample_backend) (threads (state_after overlap)) = 1.
Proof.
  destruct (books_balance load_default_config (mkWorld 5 [] 3) [RequestIdFilter; LoggingFilter] overlap (state_after overlap))
    as [Hc _].
  - exact (runs_to overlap ltac:(vm_compute; reflexivity)).
  - vm_compute. reflexivity.
  - rewrite Hc. split; vm_compute; reflexivity.
Defined.

Definition up_at (now : Z) : G.env := G.mkEnv now now now now 0 up.

Lemma up_returns now : kernel_returns (up_at now) G.sample_raw.
Proof.
  split; [|split].
  - intros conn. unfold Conn.send_all. destruct (Conn.fd conn <? 0); [by eexists|]. vm_compute. by eexists.
  - intros conn. unfold Conn.recv_all. destruct (Conn.fd conn <? 0); [by eexists|]. vm_compute. by eexists.
  - vm_compute. by eexists.
Qed.

Definition served : list label := [Spawn (up_at 1) G.sample_raw; Spawn (up_at 2) G.sample_raw] ++ replicate 9 (Step 0) ++ replicate 5 (Step 1).

(** C15 applied to two overlapping requests to a backend that answers. *)
Lemma every_worker_answers_witness :
  is_Some (exec (Step 0) (state_after served)) /\ is_Some (exec (Step 1) (state_after served)).
Proof.
  assert (Hw : forall i e p, threads (state_after served) !! i = Some (e, p) ->
    is_sent p = true \/ is_Some (exec (Step i) (state_after served))).
  { intros i e p Hi.
    destruct (every_worker_answers load_default_config (mkWorld 5 [] 3) [RequestIdFilter; LoggingFilter] served (state_after served))
      with (i := i) (e := e) (p := p) as [Hd _]; try exact Hi; try exact Hd.
    - repeat (apply Forall_cons; split; [apply _|]). apply Forall_nil_2.
    - repeat (apply Forall_cons; split; [first [exact I|apply up_returns]|]). apply Forall_nil_2.
    - exact (runs_to served ltac:(vm_compute; reflexivity)).
    - vm_compute. reflexivity. }
  split.
  - destruct (threads (state_after served) !! 0%nat) as [[e p]|] eqn:E; [|vm_compute in E; discriminate E].
    destruct (Hw 0%nat e p E) as [Hs|Hs]; [|exact Hs]. exfalso. vm_compute in E. injection E as _ <-. discriminate Hs.
  - destruct (threads (state_after served) !! 1%nat) as [[e p]|] eqn:E; [|vm_compute in E; discriminate E].
    destruct (Hw 1%nat e p E) as [Hs|Hs]; [|exact Hs]. exfalso. vm_compute in E. injection E as _ <-. discriminate Hs.
Defined.

(** ** Where the workers do collide *)

(** One thread looks [circuit_breakers_] up without the lock while another is about to
    insert into it. *)
Definition races (p q : @Workers.pc World) : bool :=
  match p, q with FindBreaker _, EmplaceBreaker _ => true | _, _ => false end.

Definition colliding : list label :=
  [Spawn (up_at 1) G.sample_raw; Spawn (up_at 2) G.sample_raw] ++ replicate 6 (Step 0) ++ replicate 5 (Step 1).

(** The unlocked fast path of [get_circuit_breaker] races with the locked slow path: two
    first requests for a backend reach the unlocked lookup and the insertion at the same
    time. *)
Theorem unlocked_lookup_races :
  exists ls s e0 e1 p0 p1,
    run ls (init sample_start) = Some s /\ threads s = [(e0, p0); (e1, p1)] /\ races p1 p0 = true.
Proof.
  exists colliding, (state_after colliding).
  destruct (threads (state_after colliding)) as [|[e0 p0] [|[e1 p1] [|]]] eqn:E; try (vm_compute in E; discriminate E).
  exists e0, e1, p0, p1. split; [exact (runs_to colliding ltac:(vm_compute; reflexivity))|]. split; [done|].
  vm_compute in E. injection E as _ <- _ <-. reflexivity.
Qed.

(** A request admitted before the breaker trips and answered after it has half opened. *)
Definition slow : G.env := G.mkEnv 1 1 30000000000 30000000000 0 up.
Definition probe : G.env := G.mkEnv 20000000000 20000000000 20000000000 20000000000 0 G.down.

Definition failures : list label :=
  concat (map (fun n : nat => Spawn (G.down_at (Z.of_nat (S n))) G.sample_raw :: replicate 19 (Step n)) [1; 2; 3; 4; 5]%nat).

Definition admitted_slow : list label := Spawn slow G.sample_raw :: replicate 8 (Step 0).
Definition probing : list label := admitted_slow ++ failures ++ Spawn probe G.sample_raw :: replicate 7 (Step 6).
Definition reported : list label := probing ++ replicate 9 (Step 0).

Definition breaker_state (s : @Workers.t World) : option CB.State :=
  CB.state <$> G.circuit_breakers (shared s) !! LB.make_key G.sample_backend.

Definition at_connect (i : nat) (s : @Workers.t World) : bool :=
  match threads s !! i with Some (_, Connect _) => true | _ => false end.

(** A stale result decides a half-open breaker: a request admitted while the breaker was
    closed reports its success after five failures have opened the breaker and a probe
    has half opened it; the breaker closes although the probe has not even been sent. *)
Theorem stale_success_closes_breaker :
  Forall (fun ls => run ls (init sample_start) = Some (state_after ls)) [admitted_slow; admitted_slow ++ failures; probing; reported] /\
  breaker_state (state_after admitted_slow) = Some CB.Closed /\ at_connect 0 (state_after admitted_slow) = true /\
  breaker_state (state_after (admitted_slow ++ failures)) = Some CB.Open /\
  breaker_state (state_after probing) = Some CB.HalfOpen /\ at_connect 6 (state_after probing) = true /\
  breaker_state (state_after reported) = Some CB.Closed /\ at_connect 6 (state_after reported) = true.
Proof.
  split; [repeat (apply Forall_cons; split; [apply runs_to; vm_compute; reflexivity|]); apply Forall_nil_2|].
  repeat split; vm_compute; reflexivity.
Qed.

End Accounting.
