(* ===== verification/Provenance.v ===== *)
(** * Provenance: what a response is made of

    [answers] says what [Gateway::process_request] may send for a request, from nothing
    but the request, the filter chain, the route table, what the kernel answered the
    thread and when the breakers refused; the rest of the shared state does not occur in it.  Whatever the other workers do, a
    thread of [Workers] sends one of these answers for the request it was started on, and
    sends its request only over a connection to the backend it has selected. *)

From S2P Require Import Prelude StdSort StdMap Utils Config Router Http HttpParser LoadBalancer CircuitBreaker BackendConnection BackendPool Proxy Stats Filters Gateway Workers Accounting.

Module Provenance.
Import Config Http Filters Workers.
Module A := Accounting.
Open Scope Z_scope.

(** ** Connections know their backend *)

Definition conn_for (b : Backend) (c : Conn.t) : Prop := Conn.host c = host b /\ Conn.port c = port b.

(** Every idle connection leads to the backend it is filed under. *)
Definition keyed (p : Pool.t) : Prop :=
  forall b c, c ∈ Pool.idle_of (Pool.make_key b) p -> conn_for b c.

Lemma key_inj a b : Pool.make_key a = Pool.make_key b -> a = b.
Proof. apply LB.make_key_inj_backend. Qed.

Lemma keyed_create n m : keyed (Pool.create n m).
Proof. intros b c. unfold Pool.idle_of, Pool.entry. cbn. rewrite lookup_empty. cbn. by intros ?%not_elem_of_nil. Qed.

Lemma keyed_set b e p : keyed p -> (forall c, c ∈ Pool.idle e -> conn_for b c) -> keyed (Pool.set_entry (Pool.make_key b) e p).
Proof.
  intros Hp He b' c. unfold Pool.idle_of. rewrite Pool.entry_set. destruct (decide _) as [->%key_inj|]; [apply He|apply Hp].
Qed.

Lemma pop_alive_elem env now q c q' :
  Pool.pop_alive env now q = (Some c, q') -> exists c0, c0 ∈ q /\ c = Conn.touch now c0.
Proof.
  revert q'; induction q as [|x q IH]; intros q'; cbn; [done|].
  destruct (Conn.is_alive (env x) x); [intros [= <- <-]; exists x; set_solver|].
  intros (c0 & ? & ->)%IH. exists c0. set_solver.
Qed.

Lemma pop_alive_rest env now q c q' x : Pool.pop_alive env now q = (c, q') -> x ∈ q' -> x ∈ q.
Proof.
  revert q'; induction q as [|y q IH]; intros q'; cbn; [by intros [= _ <-]|].
  destruct (Conn.is_alive (env y) y); [intros [= _ <-]; set_solver|]. intros E Hx. specialize (IH q' E Hx). set_solver.
Qed.

Lemma keyed_acquire b env now p c p' :
  Pool.acquire_idle b env now p = (c, p') -> keyed p -> keyed p' /\ from_option (conn_for b) True c.
Proof.
  unfold Pool.acquire_idle. destruct (Pool.pop_alive env now _) as [c0 q] eqn:E. intros [= <- <-] Hp. split.
  - apply keyed_set; [done|]. intros x Hx. apply (Hp b). by eapply pop_alive_rest.
  - destruct c0 as [c0|]; [|done]. apply pop_alive_elem in E as (c1 & H1 & ->). exact (Hp b c1 H1).
Qed.

Lemma keyed_decrement b p : keyed p -> keyed (Pool.decrement b p).
Proof.
  intros Hp b' c. unfold Pool.idle_of. rewrite Pool.entry_decrement. destruct (decide _); [|apply Hp]. apply Hp.
Qed.

Lemma keyed_release_live b conn p : conn_for b conn -> keyed p -> keyed (Pool.release_live b conn p).
Proof.
  intros Hc Hp. unfold Pool.release_live. apply keyed_set; [done|]. cbn.
  intros x. split_if; [|apply Hp]. rewrite elem_of_app, list_elem_of_singleton. intros [Hx| ->]; [by apply (Hp b)|done].
Qed.

Lemma keyed_release b env conn p : conn_for b conn -> keyed p -> keyed (Pool.release b env (Some conn) p).
Proof. intros Hc Hp. cbn. split_if; [by apply keyed_release_live|by apply keyed_decrement]. Qed.

Lemma keyed_cleanup now p : keyed p -> keyed (Pool.cleanup_idle now p).
Proof.
  intros Hp b c. unfold Pool.idle_of. rewrite Pool.entry_cleanup. cbn. rewrite list_elem_of_filter. intros [_ Hc]. by apply Hp.
Qed.

Lemma connect_conn ce h p : Conn.host (Conn.connect ce (Conn.create h p)).2 = h /\ Conn.port (Conn.connect ce (Conn.create h p)).2 = p.
Proof. unfold Conn.connect, Conn.close. repeat (split_if; try done). Qed.

(** A pool warmed up before the first request is in order, too. *)
Lemma keyed_warm b tries p : keyed p -> keyed (Pool.warm_backend b tries p).
Proof.
  revert p; induction tries as [|[ce env] tries IH]; intros p Hp; [done|]. cbn [Pool.warm_backend].
  pose proof (connect_conn ce (host b) (port b)) as Hc. destruct (Conn.connect _ _) as [ok c]. cbn [snd] in Hc.
  apply IH. destruct ok; [|done]. by apply keyed_release.
Qed.

Section Provenance.
Context {W : Type} `{StdSort} `{HashOrder}.

Notation pc := (@Workers.pc W).
Notation t := (@Workers.t W).

(** ** The specification *)

(** A chain of filters, each in whatever world it finds. *)
Inductive through (R : Filter W -> FilterContext -> FilterContext -> Prop) : list (Filter W) -> FilterContext -> FilterContext -> Prop :=
  | through_nil c : through R [] c c
  | through_snoc fs f c c1 c2 : through R fs c c1 -> R f c1 c2 -> through R (fs ++ [f]) c c2.

Definition accepts (f : Filter W) (c c' : FilterContext) : Prop := exists w w', on_request f c w = Some (true, c', w').
Definition refuses (f : Filter W) (c : FilterContext) : Prop := exists w c' w', on_request f c w = Some (false, c', w').
Definition edits (f : Filter W) (c c' : FilterContext) : Prop := exists w w', on_response f c w = Some (c', w').

Definition first_context (r : HttpRequest) : FilterContext := mkContext (Some r) None [] 0.

Section Spec.
Context (fs : list (Filter W)) (rt : list Route) (e : G.env) (bytes_in : bytes).

(** [shut b now]: the breaker of [b] has refused a request at time [now]. *)
Context (shut : Backend -> Z -> Prop).

(** The request parses as [r], and [r] is not for the gateway itself. *)
Definition public (r : HttpRequest) : Prop :=
  HttpParser.parse_http_request bytes_in empty_request = (true, r) /\
  forall st, G.handle_internal_endpoint (path r) st = None.

Definition choice (r : HttpRequest) (b : Backend) : Prop :=
  exists bs lb, Router.match_ rt (path r) = Some bs /\ b = (LB.select (G.lb_draw e) bs lb).1.

Definition routed (j : job) : Prop :=
  raw j = bytes_in /\ (exists r, public r /\ through accepts fs (first_context r) (ctx j) /\ request j = G.request_of r (ctx j)) /\
  choice (request j) (target j).

(** Where the bytes of a response come from. *)
Inductive obtained (b : Backend) : bytes -> Prop :=
  | obtained_pooled conn wire conn' resp :
      conn_for b conn -> Conn.send_all (Proxy.sends (G.proxy_env e)) bytes_in conn = Some (true, wire) ->
      Conn.recv_all (Proxy.recvs (G.proxy_env e)) (Proxy.recv_time (G.proxy_env e)) conn = Some (resp, conn') ->
      resp <> [] -> obtained b resp
  | obtained_direct resp : Proxy.forward_direct (G.proxy_env e) bytes_in = Some resp -> obtained b resp
  | obtained_none : obtained b Proxy.make_502_response.

Definition reply_context (j : job) (out : bytes) : FilterContext :=
  mkContext (req (ctx j)) (Some (G.parse_status out)) (request_id (ctx j)) (start_time (ctx j)).

Definition headers_of (c : FilterContext) : StdMap.t := match resp c with Some x => resp_headers x | None => [] end.

Inductive answers : bytes -> bool -> Prop :=
  | unparsable r :
      HttpParser.parse_http_request bytes_in empty_request = (false, r) ->
      answers (Http.to_string (make_400 false)) false
  | internal r st out :
      HttpParser.parse_http_request bytes_in empty_request = (true, r) ->
      G.handle_internal_endpoint (path r) st = Some out -> answers out false
  | refused r fs1 f fs2 c :
      public r -> fs = fs1 ++ f :: fs2 -> through accepts fs1 (first_context r) c -> refuses f c ->
      answers (Http.to_string (make_400 false)) false
  | unrouted r c :
      public r -> through accepts fs (first_context r) c -> Router.match_ rt (path (G.request_of r c)) = None ->
      answers (Http.to_string (make_404 false)) false
  | isolated j : routed j -> shut (target j) (G.allow_time e) -> answers G.resp503 false
  | relayed j resp out hdr_end c out' :
      routed j -> obtained (target j) resp -> G.add_connection_header resp = Some (out, hdr_end) ->
      through edits fs (reply_context j out) c -> G.add_filter_headers hdr_end (headers_of c) out = Some out' ->
      answers out' (G.keep_client (G.request_of (request j) c) out').

(** ** What a thread knows *)

Definition knows (p : pc) : Prop :=
  match p with
  | Start raw => raw = bytes_in
  | RequestFilters raw r rest c =>
      raw = bytes_in /\ public r /\ exists done, fs = done ++ rest /\ through accepts done (first_context r) c
  | Limited => answers (Http.to_string (make_400 false)) false
  | Select raw r c bs =>
      raw = bytes_in /\ (exists r0, public r0 /\ through accepts fs (first_context r0) c /\ r = G.request_of r0 c) /\
      Router.match_ rt (path r) = Some bs
  | FindBreaker j | EmplaceBreaker j | Allow j | Connect j | Acquire j | Dial j | Rollback j | Evict j | Direct j => routed j
  | Exchange j conn => routed j /\ conn_for (target j) conn
  | Release j conn resp => routed j /\ conn_for (target j) conn /\ obtained (target j) resp
  | Disconnect j resp | Record_ j resp | Outcome j resp | Upstream j resp | Report j resp | Headers j resp =>
      routed j /\ obtained (target j) resp
  | ResponseFilters j rest c out hdr_end =>
      routed j /\ exists resp done, obtained (target j) resp /\ G.add_connection_header resp = Some (out, hdr_end) /\
        fs = done ++ rest /\ through edits done (reply_context j out) c
  | Sent out ka => answers out ka
  end.

Lemma internal_none p st st' :
  G.handle_internal_endpoint p st = None -> G.handle_internal_endpoint p st' = None.
Proof. unfold G.handle_internal_endpoint. by repeat split_if. Qed.

Lemma recv_conn_for b script now conn r conn' :
  Conn.recv_all script now conn = Some (r, conn') -> conn_for b conn -> conn_for b conn'.
Proof.
  unfold Conn.recv_all. split_if; [by intros [= _ <-]|]. intros (x & _ & Hr)%bind_Some Hc. revert Hr. unfold Conn.close.
  repeat split_if; by intros [= _ <-].
Qed.

(** A step keeps the pool in order. *)
Lemma knows_keyed p g p' g' :
  step e p g = Some (p', g') -> knows p ->
  from_option keyed True (Proxy.pool (G.proxy g)) -> from_option keyed True (Proxy.pool (G.proxy g')).
Proof.
  intros Hs Hk. rewrite (A.step_pool e p g p' g' Hs). destruct (Proxy.pool (G.proxy g)) as [q|]; [|by destruct (A.pool_op e p)].
  destruct (A.pool_op e p) as [o|] eqn:E; [|done]. cbn. intros Hq.
  destruct p; try done; cbn in E, Hk; injection E as <-; cbn [Pool.exec].
  - destruct (Pool.acquire_idle _ _ _ q) as [c q'] eqn:Ea. by apply keyed_acquire in Ea as [? _].
  - by apply keyed_decrement.
  - by apply keyed_decrement.
  - destruct Hk as (_ & Hc & _). split_if; [by apply keyed_release_live|by apply keyed_decrement].
Qed.

End Spec.

Lemma through_rest (fs : list (Filter W)) R f rest c c' c1 :
  (exists done, fs = done ++ f :: rest /\ through R done c c') -> R f c' c1 ->
  exists done, fs = done ++ rest /\ through R done c c1.
Proof.
  intros (done & E & Hd) Hf. exists (done ++ [f]). split; [by rewrite <- app_assoc|]. by econstructor.
Qed.

Lemma through_all (fs : list (Filter W)) R c c' : (exists done, fs = done ++ [] /\ through R done c c') -> through R fs c c'.
Proof. intros (done & -> & Hd). by rewrite app_nil_r. Qed.

(** The breakers of a state refuse nobody but those [shut] tells of. *)
Definition refusals (shut : Backend -> Z -> Prop) (g : G.t W) : Prop :=
  forall b now, (CB.allow_request now (G.breaker b g)).1 = false -> shut b now.

Lemma knows_step e raw shut p (g : G.t W) p' g' :
  from_option keyed True (Proxy.pool (G.proxy g)) -> refusals shut g -> step e p g = Some (p', g') ->
  knows (G.filters g) (G.router g) e raw shut p -> knows (G.filters g) (G.router g) e raw shut p'.
Proof.
  intros Hp Hsh Hs Hk. step_cases Hs p; cbn [knows] in *; try done;
    try (destruct Hk; split; [done|]; by constructor).
  - subst. eapply unparsable. rewrite Heqp. by destruct b.
  - subst. eapply internal; [|done]. rewrite Heqp. by destruct b.
  - subst. split; [done|]. split; [split; [rewrite Heqp; by destruct b|intros st; by eapply internal_none]|].
    exists []. split; [done|constructor].
  - destruct Hk as (-> & Hpub & Hd). split; [done|]. split; [|done]. exists r. eauto using through_all.
  - destruct Hk as (-> & Hpub & Hd). eapply unrouted; eauto using through_all.
  - destruct Hk as (-> & Hpub & done & E & Hd). eapply refused; [done|exact E|done|].
    destruct b; [done|]. by do 3 eexists.
  - destruct Hk as (-> & Hpub & Hd). split; [done|]. split; [done|]. eapply through_rest; [done|].
    destruct b; [|done]. by do 2 eexists.
  - destruct Hk as (-> & Hpub & Hm). do 2 (split; [done|]). exists bs, (G.load_balancer g). by rewrite Heqp.
  - eapply isolated; [done|]. apply Hsh. rewrite G.breaker_default. change (G.LB.make_key (target j)) with (breaker_key j).
    match goal with Hl : G.circuit_breakers g !! _ = Some _ |- _ => rewrite Hl end. cbn [from_option]. unfold id.
    rewrite Heqp. by destruct b.
  - match goal with Ha : Pool.acquire_idle _ _ _ _ = _, Hq : Proxy.pool (G.proxy g) = Some _ |- _ => rewrite Hq in Hp; apply keyed_acquire in Ha; [|done]; by destruct Ha end.
  - pose proof (connect_conn (Proxy.conn_env (G.proxy_env e)) (host (target j)) (port (target j))) as Hc.
    by rewrite Heqp in Hc.
  - by destruct Hk.
  - by destruct Hk.
  - destruct Hk as [Hj Hc]. split; [done|]. split; [by eapply recv_conn_for|]. destruct Hj as [<- _].
    destruct b; [|done]. eapply obtained_pooled; [exact Hc|done|done|by case_bool_decide].
  - by destruct Hk as (? & _ & ?).
  - split; [done|]. apply obtained_direct. by destruct Hk as [<- _].
  - destruct Hk as [Hj Ho]. split; [done|]. exists resp0, []. do 2 (split; [done|]). split; [done|constructor].
  - destruct Hk as (Hj & resp1 & done & Ho & Ha & Hd). eapply relayed; eauto using through_all.
  - destruct Hk as (Hj & resp1 & Hd). destruct Hd as (done & Ho & Ha & Hd). split; [done|].
    destruct (through_rest (G.filters g) edits f l (reply_context j out) c f0) as (done' & E & Hd'); [by exists done|by do 2 eexists|].
    by exists resp1, done'.
Qed.

(** ** Every run *)

(** The requests the threads were started on, in order. *)
Definition spawned (ls : list (@label)) : list bytes := omap (fun l => match l with Spawn _ raw => Some raw | _ => None end) ls.

Record known (fs : list (Filter W)) (rt : list Route) (shut : Backend -> Z -> Prop) (s : t) (raws : list bytes) : Prop := {
  known_filters : G.filters (shared s) = fs;
  known_router : G.router (shared s) = rt;
  known_pool : from_option keyed True (Proxy.pool (G.proxy (shared s)));
  known_length : length raws = length (threads s);
  known_threads i e p : threads s !! i = Some (e, p) -> exists raw, raws !! i = Some raw /\ knows fs rt e raw shut p
}.

Lemma exec_known fs rt shut l s s' raws :
  exec l s = Some s' -> refusals shut (shared s) -> known fs rt shut s raws -> known fs rt shut s' (raws ++ spawned [l]).
Proof.
  intros He Hsh [Hf Hr Hp Hl Ht]. destruct l as [e raw|k|now]; cbn [exec spawned omap list_omap] in *; rewrite ?app_nil_r.
  - injection He as <-. constructor; cbn; [done..|rewrite !length_app; cbn; lia|].
    intros i e' p [[_ Hi]|[-> [= <- <-]]]%lookup_snoc_Some.
    + destruct (Ht i e' p Hi) as (raw' & H1 & H2). exists raw'. split; [by apply lookup_app_l_Some|done].
    + exists raw. rewrite <- Hl, lookup_app_r, Nat.sub_diag by lia. done.
  - apply bind_Some in He as ([e p] & Hk & He). apply bind_Some in He as ([p' g'] & Hs & [= <-]).
    destruct (Ht k e p Hk) as (raw & Hraw & Hkn). destruct (A.step_static e p _ p' g' Hs) as (Ef & _ & Er).
    constructor; cbn; [congruence|congruence|by eapply knows_keyed|by rewrite length_insert|].
    intros i e' q Hi. destruct (decide (k = i)) as [<-|Hne].
    + rewrite list_lookup_insert_eq in Hi by by eapply lookup_lt_Some. injection Hi as <- <-. exists raw. split; [done|].
      subst fs rt. by eapply knows_step.
    + rewrite list_lookup_insert_ne in Hi by done. by apply Ht.
  - injection He as <-. constructor; cbn; try done. unfold Proxy.cleanup_pool.
    destruct (Proxy.pool (G.proxy (shared s))) as [q|] eqn:E; [by apply keyed_cleanup|by rewrite E].
Qed.

(** Nothing is said of the breakers. *)
Definition unsaid (b : Backend) (now : Z) : Prop := True.

Lemma run_known fs rt ls s s' raws :
  run ls s = Some s' -> known fs rt unsaid s raws -> known fs rt unsaid s' (raws ++ spawned ls).
Proof.
  revert s raws; induction ls as [|l ls IH]; intros s raws; cbn [run]; [intros [= <-]; by rewrite app_nil_r|].
  intros (s1 & He & Hr)%bind_Some Hk. apply (exec_known _ _ _ _ _ _ _ He) in Hk; [|done]. apply (IH _ _ Hr) in Hk.
  rewrite <- app_assoc in Hk. unfold spawned in *. by rewrite <- omap_app in Hk.
Qed.

Lemma start_known c w fs shut : known fs (Router.create (routes c)) shut (init (A.start c w fs)) [].
Proof. rewrite A.start_eq. constructor; cbn; try done. apply keyed_create. Qed.

End Provenance.
End Provenance.
