(* ===== verification/Leases.v ===== *)
(** * Leases: a backend connection is used by one worker at a time

    The connections to the backends are shared by [shared_ptr] and pass from the pool to a
    worker and back without a lock held in between.  In every interleaving of [Workers]
    with the pool cleanup an open connection is idle in one queue or in the hands of one
    thread, never both and never twice, and it leads to the backend it is used for. *)

From S2P Require Import Prelude StdSort StdMap Utils Config Router Http HttpParser LoadBalancer CircuitBreaker BackendConnection BackendPool Proxy Stats Filters Gateway Workers Accounting Provenance.

Module Leases.
Import Config Http Filters Workers.
Module A := Accounting.
Module P := Provenance.
Open Scope Z_scope.

(** The descriptors that are open among these connections; [close] leaves -1. *)
Definition descriptors (l : list Conn.t) : list Z := filter (fun d => 0 <= d) (Conn.fd <$> l).

Definition idle_conns (p : Pool.t) : list Conn.t := map_to_list (Pool.pools p) ≫= fun x => Pool.idle x.2.

(** The queues of the other backends. *)
Definition others (k : bytes) (p : Pool.t) : list Conn.t := map_to_list (delete k (Pool.pools p)) ≫= fun x => Pool.idle x.2.

Lemma descriptors_app l1 l2 : descriptors (l1 ++ l2) = descriptors l1 ++ descriptors l2.
Proof. unfold descriptors. by rewrite fmap_app, filter_app. Qed.

#[export] Instance descriptors_perm : Proper ((≡ₚ) ==> (≡ₚ)) descriptors.
Proof. intros l1 l2 E. unfold descriptors. by rewrite E. Qed.

Lemma idle_split k p : idle_conns p ≡ₚ Pool.idle_of k p ++ others k p.
Proof.
  unfold idle_conns, others, Pool.idle_of, Pool.entry. destruct (Pool.pools p !! k) as [e|] eqn:E; cbn.
  - by rewrite <- (map_to_list_delete _ _ _ E).
  - by rewrite delete_id.
Qed.

Lemma others_set k e p : others k (Pool.set_entry k e p) = others k p.
Proof. unfold others, Pool.set_entry. cbn. by rewrite delete_insert_eq. Qed.

Lemma idle_set k e p : idle_conns (Pool.set_entry k e p) ≡ₚ Pool.idle e ++ others k p.
Proof.
  rewrite (idle_split k), others_set. unfold Pool.idle_of. rewrite Pool.entry_set, decide_True by done. done.
Qed.

Lemma submseteq_nodup {B} (l1 l2 : list B) : l1 ⊆+ l2 -> NoDup l2 -> NoDup l1.
Proof. intros [k ->]%submseteq_Permutation Hn. by apply NoDup_app in Hn as [? _]. Qed.

Lemma pop_alive_descriptors env now q c q' :
  Pool.pop_alive env now q = (c, q') -> descriptors (option_list c ++ q') ⊆+ descriptors q.
Proof.
  revert q'; induction q as [|x q IH]; intros q'; cbn [Pool.pop_alive]; [by intros [= <- <-]|].
  destruct (Conn.is_alive (env x) x); [intros [= <- <-]; done|]. intros Hp%IH. etransitivity; [exact Hp|].
  change (x :: q) with ([x] ++ q). rewrite descriptors_app. apply submseteq_inserts_l. done.
Qed.

Lemma acquire_descriptors b env now p c p' :
  Pool.acquire_idle b env now p = (c, p') -> descriptors (idle_conns p' ++ option_list c) ⊆+ descriptors (idle_conns p).
Proof.
  unfold Pool.acquire_idle. destruct (Pool.pop_alive env now _) as [c0 q] eqn:E. intros [= <- <-].
  rewrite idle_set, (idle_split (Pool.make_key b) p). cbn [Pool.idle]. rewrite (Permutation_app_comm _ (option_list _)), app_assoc.
  rewrite !descriptors_app. apply submseteq_app; [|done]. rewrite <- descriptors_app. by eapply pop_alive_descriptors.
Qed.

Lemma decrement_idle b p : idle_conns (Pool.decrement b p) ≡ₚ idle_conns p.
Proof.
  unfold Pool.decrement. destruct (Pool.pools p !! Pool.make_key b) as [e|] eqn:E; [|done]. split_if; [|done].
  rewrite idle_set, (idle_split (Pool.make_key b) p). unfold Pool.idle_of, Pool.entry. by rewrite E.
Qed.

Lemma release_descriptors b env conn p :
  descriptors (idle_conns (Pool.release b env (Some conn) p)) ⊆+ descriptors (idle_conns p ++ [conn]).
Proof.
  cbn [Pool.release Pool.evict]. rewrite descriptors_app. split_if.
  2: { rewrite decrement_idle. by apply submseteq_inserts_r. }
  unfold Pool.release_live. rewrite idle_set, (idle_split (Pool.make_key b) p). cbn [Pool.idle].
  rewrite !descriptors_app. fold (Pool.idle_of (Pool.make_key b) p). split_if.
  - rewrite !descriptors_app, <- !app_assoc. apply submseteq_app; [done|]. by rewrite Permutation_app_comm.
  - by apply submseteq_inserts_r.
Qed.

Lemma cleanup_descriptors now p : descriptors (idle_conns (Pool.cleanup_idle now p)) ⊆+ descriptors (idle_conns p).
Proof.
  unfold idle_conns, Pool.cleanup_idle. cbn. rewrite map_to_list_fmap.
  induction (map_to_list (Pool.pools p)) as [|[k e] l IH]; [done|]. cbn [fmap list_fmap mbind list_bind].
  rewrite !descriptors_app. apply submseteq_app; [|exact IH]. cbn.
  rewrite <- (app_nil_r (Pool.idle e)) at 2. rewrite Pool.rotate_filter by done. cbn.
  unfold descriptors. induction (Pool.idle e) as [|c q IHq]; [done|]. cbn [fmap list_fmap]. rewrite !filter_cons.
  destruct (decide (now - _ < _)); cbn [fmap list_fmap]; rewrite ?filter_cons; destruct (decide (0 <= _)); try done.
  - by apply submseteq_skip.
  - by apply submseteq_cons.
Qed.

Section Leases.
Context {W : Type} `{StdSort} `{HashOrder}.

Notation pc := (@Workers.pc W).
Notation t := (@Workers.t W).

(** The connection in the hands of a thread. *)
Definition held (p : pc) : list Conn.t :=
  match p with Exchange _ conn | Release _ conn _ => [conn] | _ => [] end.

Definition pooled (g : G.t W) : list Conn.t := from_option idle_conns [] (Proxy.pool (G.proxy g)).

Definition open_conns (s : t) : list Conn.t := pooled (shared s) ++ (threads s ≫= fun x => held x.2).

(** The descriptor a thread gets from [socket]. *)
Definition dialled (e : G.env) (p : pc) : list Z :=
  match p with
  | Dial _ => filter (fun d => 0 <= d) [Conn.socket_ret (Proxy.conn_env (G.proxy_env e))]
  | _ => []
  end.

(** [socket] never answers a descriptor that is open. *)
Definition fresh_socket (l : label) (s : t) : bool :=
  match l with
  | Step i =>
      match threads s !! i with
      | Some (e, p) => bool_decide (Forall (fun d => d ∉ descriptors (open_conns s)) (dialled e p))
      | None => true
      end
  | _ => true
  end.

Fixpoint fresh_sockets (ls : list label) (s : t) : bool :=
  match ls with
  | [] => true
  | l :: ls' => fresh_socket l s && match exec l s with Some s' => fresh_sockets ls' s' | None => true end
  end.

Lemma connect_descriptors ce h p : descriptors [(Conn.connect ce (Conn.create h p)).2] ⊆+ filter (fun d => 0 <= d) [Conn.socket_ret ce].
Proof.
  unfold Conn.connect, Conn.close. cbn [Conn.fd Conn.create Conn.host Conn.port Conn.last_activity].
  repeat (split_if; cbn [snd Conn.touch Conn.fd]); try done; unfold descriptors; cbn [fmap list_fmap Conn.fd Conn.touch]; try done; apply submseteq_nil_l.
Qed.

Lemma recv_descriptors script now conn r conn' :
  Conn.recv_all script now conn = Some (r, conn') -> descriptors [conn'] ⊆+ descriptors [conn].
Proof.
  unfold Conn.recv_all. split_if; [by intros [= _ <-]|]. intros (x & _ & Hr)%bind_Some. revert Hr. unfold Conn.close.
  repeat split_if; intros [= _ <-]; try done; apply submseteq_nil_l.
Qed.

Lemma with_pool_pooled f (g : G.t W) : pooled (with_pool f g) = from_option (idle_conns ∘ f) [] (Proxy.pool (G.proxy g)).
Proof. unfold pooled. destruct (A.with_pool_frame f g) as (_ & -> & _). by destruct (Proxy.pool _). Qed.

(** What a step does to the connections its thread and the pool have. *)
Lemma step_leases e p (g : G.t W) p' g' :
  step e p g = Some (p', g') ->
  descriptors (pooled g' ++ held p') ⊆+ dialled e p ++ descriptors (pooled g ++ held p).
Proof.
  intros Hs.
  assert (Hbr : forall b, pooled (G.get_circuit_breaker b g).2 = pooled g).
  { intros b. unfold pooled. by destruct (A.get_breaker_frame b g) as (_ & -> & _). }
  assert (Hdec : forall b, descriptors (pooled (with_pool (Pool.decrement b) g) ++ []) ≡ₚ descriptors (pooled g)).
  { intros b. rewrite app_nil_r, with_pool_pooled. unfold pooled. destruct (Proxy.pool _); [|done]. cbn [from_option compose].
    by rewrite decrement_idle. }
  step_cases Hs p; cbn [held dialled reject]; try done.
  - by rewrite Hbr.
  - rewrite (app_nil_r (pooled g)). unfold pooled at 2.
    match goal with Hq : Proxy.pool _ = Some _, Ha : Pool.acquire_idle _ _ _ _ = _ |- _ => rewrite Hq; apply acquire_descriptors in Ha; exact Ha end.
  - rewrite (app_nil_r (pooled g)). unfold pooled at 2.
    match goal with Hq : Proxy.pool _ = Some _, Ha : Pool.acquire_idle _ _ _ _ = _ |- _ => rewrite Hq; apply acquire_descriptors in Ha; exact Ha end.
  - pose proof (connect_descriptors (Proxy.conn_env (G.proxy_env e)) (host (target j)) (port (target j))) as Hc. rewrite Heqp in Hc.
    rewrite descriptors_app, Permutation_app_comm, app_nil_r. by apply submseteq_app.
  - by apply submseteq_inserts_l.
  - by rewrite Hdec, app_nil_r.
  - rewrite !descriptors_app. by apply submseteq_app; [|apply submseteq_nil_l].
  - rewrite !descriptors_app. by apply submseteq_app; [|apply submseteq_nil_l].
  - rewrite !descriptors_app. apply submseteq_app; [done|]. by eapply recv_descriptors.
  - by rewrite Hdec, app_nil_r.
  - rewrite app_nil_r, with_pool_pooled. unfold pooled. destruct (Proxy.pool _) as [q|]; [apply release_descriptors|apply submseteq_nil_l].
Qed.

Lemma bind_split (ts : list (G.env * pc)) i e p p' :
  ts !! i = Some (e, p) ->
  exists rest, (ts ≫= fun x => held x.2) ≡ₚ held p ++ rest /\ (<[i := (e, p')]> ts ≫= fun x => held x.2) ≡ₚ held p' ++ rest.
Proof.
  intros Hi. exists ((take i ts ≫= fun x => held x.2) ++ (drop (S i) ts ≫= fun x => held x.2)). split.
  - rewrite <- (take_drop_middle ts i (e, p) Hi) at 1. rewrite bind_app. cbn [mbind list_bind snd].
    by rewrite !app_assoc, (Permutation_app_comm (held p)).
  - rewrite insert_take_drop by by eapply lookup_lt_Some. rewrite bind_app. cbn [mbind list_bind snd].
    by rewrite !app_assoc, (Permutation_app_comm (held p')).
Qed.

Lemma exec_leases l s s' :
  fresh_socket l s = true -> exec l s = Some s' -> NoDup (descriptors (open_conns s)) -> NoDup (descriptors (open_conns s')).
Proof.
  unfold fresh_socket. intros Hfr He Hn. destruct l as [e raw|i|now]; cbn [exec] in He.
  - injection He as <-. unfold open_conns in *. cbn [shared threads]. rewrite bind_app. cbn [mbind list_bind snd held app].
    by rewrite app_nil_r.
  - apply bind_Some in He as ([e p] & Hi & He). apply bind_Some in He as ([p' g'] & Hs & [= <-]). rewrite Hi in Hfr. apply bool_decide_eq_true in Hfr.
    destruct (bind_split (threads s) i e p p' Hi) as (rest & E1 & E2). apply step_leases in Hs.
    apply (submseteq_nodup _ (dialled e p ++ descriptors (open_conns s))).
    + unfold open_conns. cbn [shared threads]. rewrite E1, E2, !app_assoc, !(descriptors_app _ rest), app_assoc. by apply submseteq_app.
    + apply NoDup_app. split; [|split; [|done]].
      * destruct p; cbn [dialled]; try constructor. apply NoDup_filter, NoDup_singleton.
      * rewrite Forall_forall in Hfr. exact Hfr.
  - injection He as <-. eapply submseteq_nodup; [|exact Hn]. unfold open_conns, pooled. cbn [shared threads].
    rewrite !descriptors_app. apply submseteq_app; [|done]. cbn. unfold Proxy.cleanup_pool.
    destruct (Proxy.pool (G.proxy (shared s))) as [q|] eqn:E; [apply cleanup_descriptors|by rewrite E].
Qed.

Lemma run_leases ls s s' :
  fresh_sockets ls s = true -> run ls s = Some s' -> NoDup (descriptors (open_conns s)) -> NoDup (descriptors (open_conns s')).
Proof.
  revert s; induction ls as [|l ls IH]; intros s Hf; cbn [run]; [by intros [= <-]|].
  intros (s1 & He & Hr)%bind_Some Hn. cbn [fresh_sockets] in Hf. apply andb_true_iff in Hf as [Hl Hf]. rewrite He in Hf.
  apply (IH s1 Hf Hr). by apply (exec_leases l s s1).
Qed.

(** C13. However the workers and the pool cleanup interleave, no backend connection is in two
    places: when the kernel never answers [socket] with a descriptor that is open, every
    open connection is idle in one queue or in the hands of one worker.  Every connection
    a worker sends a request over or gives back leads to the backend it has selected for
    that request, and so does every idle connection to the backend it is filed under. *)
Theorem connections_exclusive (c : GatewayConfig) (w : W) (fs : list (Filter W)) (ls : list label) (s : t) :
  run ls (init (A.start c w fs)) = Some s -> fresh_sockets ls (init (A.start c w fs)) = true ->
  NoDup (descriptors (open_conns s)) /\
  (forall p, Proxy.pool (G.proxy (shared s)) = Some p -> P.keyed p) /\
  (forall i e j conn, threads s !! i = Some (e, Exchange j conn) -> P.conn_for (target j) conn) /\
  (forall i e j conn resp, threads s !! i = Some (e, Release j conn resp) -> P.conn_for (target j) conn).
Proof.
  intros Hr Hf. pose proof (P.run_known _ _ _ _ _ _ Hr (P.start_known c w fs _)) as [_ _ Hp _ Ht]. split; [|split; [|split]].
  - apply (run_leases ls _ s Hf Hr). rewrite A.start_eq. vm_compute. constructor.
  - intros p E. by rewrite E in Hp.
  - intros i e j conn Hi. by destruct (Ht i e _ Hi) as (raw & _ & _ & Hc).
  - intros i e j conn resp Hi. by destruct (Ht i e _ Hi) as (raw & _ & _ & Hc & _).
Qed.

End Leases.

(** ** Evaluated runs *)

(** The kernel's answers with another descriptor. *)
Definition up_with (d : Z) : Proxy.env :=
  Proxy.Build_env (Proxy.alive_at_acquire A.up) (Proxy.acquire_time A.up) (Conn.Build_connect_env d 1 0 0 0 0 0 0)
    (Proxy.sends A.up) (Proxy.recvs A.up) (Proxy.recv_time A.up) (Proxy.alive_at_release A.up).

Definition at_fd (now d : Z) : G.env := G.mkEnv now now now now 0 (up_with d).

(** Two workers that both hold a connection to the one backend. *)
Definition both : list (@label) :=
  [Spawn (at_fd 1 7) G.sample_raw; Spawn (at_fd 2 8) G.sample_raw] ++ replicate 11 (Step 0) ++ replicate 10 (Step 1).

(** C13 applied to two workers that forward at the same time. *)
Lemma connections_exclusive_witness :
  NoDup (descriptors (open_conns (A.state_after both))) /\ descriptors (open_conns (A.state_after both)) = [7; 8].
Proof.
  split; [|vm_compute; reflexivity].
  apply (connections_exclusive load_default_config (mkWorld 5 [] 3) [RequestIdFilter; LoggingFilter] both (A.state_after both)).
  - exact (A.runs_to both ltac:(vm_compute; reflexivity)).
  - vm_compute. reflexivity.
Defined.

End Leases.
