(* ===== verification/Isolation.v ===== *)
(** * Isolation: a failing backend while the workers interleave

    Every breaker sees exactly the calls the threads of [Workers] make on it, in the order
    of the run.  So the guarantee of the breaker holds of the whole: once the results
    reported for a backend have tripped its breaker, no further request sets out for that
    backend until the reset timeout, whatever the workers are doing at the time. *)

From S2P Require Import Prelude StdSort StdMap Utils Config Router Http HttpParser LoadBalancer CircuitBreaker BackendConnection BackendPool Proxy Stats Filters Gateway Workers Accounting.

Module Isolation.
Import Config Http Filters Workers.
Module A := Accounting.
Open Scope Z_scope.

(** ** Breakers *)

(** The failures among calls that report no success. *)
Fixpoint failures_in (cs : list CB.call) : option Z :=
  match cs with
  | [] => Some 0
  | CB.Allow _ :: cs' => failures_in cs'
  | CB.Failure _ :: cs' => n ← failures_in cs'; Some (n + 1)
  | _ :: _ => None
  end.

Lemma failures_in_nonneg cs n : failures_in cs = Some n -> 0 <= n.
Proof.
  revert n; induction cs as [|[now| |now|] cs IH]; intros n; cbn; try done; [by intros [= <-]|by apply IH|].
  intros (m & Hm & [= <-])%bind_Some. specialize (IH m Hm). lia.
Qed.

Lemma closed_calls cs b n :
  CB.state b = CB.Closed -> failures_in cs = Some n -> CB.failure_count b + n < CB.failure_threshold b ->
  CB.state (CB.run cs b) = CB.Closed /\ CB.failure_count (CB.run cs b) = CB.failure_count b + n.
Proof.
  revert b n; induction cs as [|[now| |now|] cs IH]; intros b n Hc Hn Hl; cbn in Hn; try done.
  - injection Hn as <-. split; [done|cbn; lia].
  - rewrite CB.run_cons. assert (CB.exec (CB.Allow now) b = b) as -> by (cbn; unfold CB.allow_request; by rewrite Hc). by apply IH.
  - apply bind_Some in Hn as (m & Hm & [= <-]). pose proof (failures_in_nonneg cs m Hm). rewrite CB.run_cons.
    assert (E : CB.exec (CB.Failure now) b = CB.mk (CB.failure_threshold b) (CB.reset_timeout_ms b) (CB.half_open_max_requests b)
      CB.Closed (CB.failure_count b + 1) (CB.consecutive_failures b + 1) (CB.half_open_successes b) (CB.half_open_requests b) (CB.opened_at b)).
    { cbn. unfold CB.on_failure. cbn -[Z.add Z.leb]. rewrite Hc. split_if; [lia|done]. }
    rewrite E. destruct (IH (CB.exec (CB.Failure now) b) m) as [H1 H2]; rewrite ?E; cbn; try done; try lia.
    rewrite E in H1, H2. split; [done|]. rewrite H2. cbn. lia.
Qed.

Lemma tripped b now :
  CB.state b = CB.Closed -> CB.failure_count b + 1 = CB.failure_threshold b ->
  CB.state (CB.on_failure now b) = CB.Open /\ CB.opened_at (CB.on_failure now b) = now.
Proof. intros Hc Hn. unfold CB.on_failure. cbn -[Z.add Z.leb]. rewrite Hc. split_if; [done|lia]. Qed.

(** Open since [t0] or later, and not yet due. *)
Definition shut (t0 reset_ms : Z) (b : CB.t) : Prop :=
  CB.state b = CB.Open /\ t0 <= CB.opened_at b /\ CB.reset_timeout_ms b = reset_ms.

Definition early (t0 reset_ms : Z) (c : CB.call) : Prop :=
  match c with CB.Allow now => now - t0 < reset_ms * 1000000 | CB.Failure now => t0 <= now | CB.Success => True | CB.Reset => False end.

Lemma shut_exec t0 r c b :
  shut t0 r b -> early t0 r c ->
  shut t0 r (CB.exec c b) /\ match c with CB.Allow now => (CB.allow_request now b).1 = false | _ => True end.
Proof.
  intros (Ho & Ht & Hr) He. unfold shut. destruct c as [now| |now|]; cbn in *; try done.
  - unfold CB.allow_request, CB.reset_timeout_ns. rewrite Ho. split_if; [lia|]. done.
  - unfold CB.on_success. by rewrite Ho.
  - unfold CB.on_failure. cbn. rewrite Ho. by cbn.
Qed.

Section Isolation.
Context {W : Type} `{StdSort} `{HashOrder}.

Notation pc := (@Workers.pc W).
Notation t := (@Workers.t W).

(** ** The calls of a run *)

Definition call_of (l : label) (s : t) : option (Backend * CB.call) :=
  match l with Step i => '(e, p) ← threads s !! i; A.breaker_call e p | _ => None end.

Fixpoint calls (ls : list label) (s : t) : list (Backend * CB.call) :=
  match ls with
  | [] => []
  | l :: ls' => option_list (call_of l s) ++ match exec l s with Some s' => calls ls' s' | None => [] end
  end.

Definition to (b : Backend) (l : list (Backend * CB.call)) : list CB.call := (filter (fun x => x.1 = b) l).*2.

Definition calls_to (b : Backend) (ls : list label) (s : t) : list CB.call := to b (calls ls s).

Lemma to_app b l1 l2 : to b (l1 ++ l2) = to b l1 ++ to b l2.
Proof. unfold to. by rewrite filter_app, fmap_app. Qed.

Lemma to_one b b' c : to b [(b', c)] = if decide (b' = b) then [c] else [].
Proof. unfold to. cbn. by destruct (decide (b' = b)). Qed.

Lemma step_breaker e (p : pc) g p' g' b :
  step e p g = Some (p', g') ->
  G.breaker b g' = CB.run (to b (option_list (A.breaker_call e p))) (G.breaker b g).
Proof.
  intros Hs. pose proof (A.step_breakers e p g p' g' Hs) as Hb. destruct (A.step_static e p g p' g' Hs) as (_ & Hc & _).
  rewrite !G.breaker_default, Hc, Hb.
  assert (Hcall : forall j c, A.breaker_call e p = Some (target j, c) -> is_Some (G.circuit_breakers g !! LB.make_key (target j)) ->
    default (CB.create 5 (G.breaker_timeout_ms (G.config g)) 3) (alter (CB.exec c) (LB.make_key (target j)) (G.circuit_breakers g) !! LB.make_key b)
    = CB.run (to b [(target j, c)]) (default (CB.create 5 (G.breaker_timeout_ms (G.config g)) 3) (G.circuit_breakers g !! LB.make_key b))).
  { intros j c _ [cb Hcb]. rewrite to_one. destruct (decide (target j = b)) as [<-|Hne].
    - rewrite lookup_alter_eq, Hcb. done.
    - rewrite lookup_alter_ne; [done|]. intros E%LB.make_key_inj_backend. done. }
  clear Hc Hb. step_cases Hs p; cbn [A.breaker_call option_list]; try done; try (apply Hcall; [done|by eexists]).
  unfold G.get_circuit_breaker. destruct (G.circuit_breakers g !! LB.make_key (target j)) as [cb|] eqn:E; [done|]. cbn.
  destruct (decide (target j = b)) as [<-|Hne]; [by rewrite lookup_insert_eq, E|].
  rewrite lookup_insert_ne; [done|]. by intros ?%LB.make_key_inj_backend.
Qed.

Lemma exec_breaker l (s s' : t) b :
  exec l s = Some s' ->
  G.breaker b (shared s') = CB.run (to b (option_list (call_of l s))) (G.breaker b (shared s)).
Proof.
  intros He. destruct l as [e raw|i|now]; cbn [exec call_of] in *; [by injection He as <-| |].
  - apply bind_Some in He as ([e p] & Hi & He). apply bind_Some in He as ([p' g'] & Hs & [= <-]).
    rewrite Hi. cbn [mbind option_bind shared]. by eapply step_breaker.
  - injection He as <-. rewrite !G.breaker_default. done.
Qed.

(** The history of a breaker is the calls of the run. *)
Lemma breaker_history ls (s s' : t) b :
  run ls s = Some s' -> G.breaker b (shared s') = CB.run (calls_to b ls s) (G.breaker b (shared s)).
Proof.
  revert s; induction ls as [|l ls IH]; intros s; cbn [run]; [by intros [= <-]|].
  intros (s1 & He & Hr)%bind_Some. unfold calls_to. cbn [calls]. rewrite He, to_app, CB.run_app, <- (exec_breaker l s s1 b He).
  by apply IH.
Qed.

(** ** Who may still contact a backend *)

Definition engaged (b : Backend) (p : pc) : bool :=
  match p with
  | Connect j | Acquire j | Dial j | Exchange j _ | Direct j => bool_decide (target j = b)
  | _ => false
  end.

Lemma step_engaged e (p : pc) g p' g' b :
  step e p g = Some (p', g') -> engaged b p' = true ->
  engaged b p = true \/
  exists now, A.breaker_call e p = Some (b, CB.Allow now) /\ (CB.allow_request now (G.breaker b g)).1 = true.
Proof.
  intros Hs. step_cases Hs p; cbn [engaged reject]; try done; try (by left); intros Hb; right.
  apply bool_decide_eq_true in Hb as <-. exists (G.allow_time e). split; [done|]. rewrite G.breaker_default.
  change (G.LB.make_key (target j)) with (breaker_key j).
  match goal with Hl : G.circuit_breakers g !! _ = Some _ |- _ => rewrite Hl end. cbn [from_option]. unfold id. rewrite Heqp. by destruct b0.
Qed.

(** While the breaker stays shut nobody new sets out for the backend. *)
Lemma shut_run t0 r ls (s s' : t) b :
  run ls s = Some s' -> shut t0 r (G.breaker b (shared s)) -> Forall (early t0 r) (calls_to b ls s) ->
  shut t0 r (G.breaker b (shared s')) /\
  forall i e p, threads s' !! i = Some (e, p) -> engaged b p = true ->
    exists p0, threads s !! i = Some (e, p0) /\ engaged b p0 = true.
Proof.
  revert s; induction ls as [|l ls IH]; intros s; cbn [run]; [intros [= <-] Hs _; split; [done|]; by eauto|].
  intros (s1 & He & Hr)%bind_Some Hs Hc. unfold calls_to in Hc. cbn [calls] in Hc. rewrite He, to_app in Hc.
  apply Forall_app in Hc as [Hc1 Hc2].
  assert (H1 : shut t0 r (G.breaker b (shared s1)) /\ forall now, call_of l s = Some (b, CB.Allow now) ->
    (CB.allow_request now (G.breaker b (shared s))).1 = false).
  { rewrite (exec_breaker l s s1 b He). destruct (call_of l s) as [[b' c]|]; [|done].
    change (option_list (Some (b', c))) with [(b', c)] in *. rewrite to_one in Hc1. rewrite to_one. destruct (decide (b' = b)) as [->|Hne].
    - apply Forall_cons in Hc1 as [Hc1 _]. destruct (shut_exec t0 r c _ Hs Hc1) as [H1 H2]. split; [done|].
      intros now [= ->]. exact H2.
    - split; [done|]. intros now [= -> ->]. done. }
  destruct H1 as [Hs1 Hno]. destruct (IH s1 Hr Hs1 Hc2) as [Hs' Hthr]. split; [done|]. intros i e p Hi Hp.
  destruct (Hthr i e p Hi Hp) as (p1 & Hi1 & Hp1). clear Hthr IH Hr Hc2. destruct l as [e' raw|k|now]; cbn [exec call_of] in *.
  - injection He as <-. apply lookup_snoc_Some in Hi1 as [[_ Hi1]|[_ [= _ <-]]]; [by exists p1|done].
  - apply bind_Some in He as ([e' q] & Hk & He). apply bind_Some in He as ([q' g'] & Hst & [= <-]). cbn [threads] in Hi1.
    destruct (decide (k = i)) as [<-|Hne]; [|rewrite list_lookup_insert_ne in Hi1 by done; by exists p1].
    rewrite list_lookup_insert_eq in Hi1 by by eapply lookup_lt_Some. injection Hi1 as <- <-. exists q. split; [done|].
    destruct (step_engaged e' q _ q' g' b Hst Hp1) as [|(now & Hcall & Hok)]; [done|]. rewrite Hk in Hno. cbn in Hno.
    by rewrite (Hno now Hcall) in Hok.
  - injection He as <-. by exists p1.
Qed.

(** The breakers of the gateway are made for five failures and twice the backend timeout, as
    far as that fits an [int]. *)
Lemma breaker_made c w fs ls (s : t) b :
  run ls (init (A.start c w fs)) = Some s ->
  CB.failure_threshold (G.breaker b (shared s)) = 5 /\
  CB.reset_timeout_ms (G.breaker b (shared s)) = G.breaker_timeout_ms c.
Proof.
  intros Hr. rewrite (breaker_history ls _ s b Hr), CB.run_threshold, CB.run_reset_timeout.
  rewrite G.breaker_default. by rewrite A.start_eq.
Qed.

(** C7. A failing backend is isolated however the workers interleave: when no request to it has
    succeeded since its breaker was closed and the reports that have come in count five
    failures, then for as long as the requests that ask the breaker do so within twice the
    backend timeout of the fifth failure, none of them sets out for the backend: every
    thread that may still contact it was on its way before the fifth failure.  Twice the
    backend timeout must fit an [int]; [Gateway.long_timeout_disables_breaker] says what
    happens otherwise. *)
Theorem failing_backend_isolated_concurrently (c : GatewayConfig) (w : W) (fs : list (Filter W)) (b : Backend)
    (ls0 ls1 ls2 : list label) (s0 s1 s2 : t) (cs : list CB.call) (t0 : Z) :
  0 <= backend_timeout_ms c * 2 <= INT_MAX ->
  run ls0 (init (A.start c w fs)) = Some s0 -> run ls1 s0 = Some s1 -> run ls2 s1 = Some s2 ->
  CB.state (G.breaker b (shared s0)) = CB.Closed -> calls_to b ls1 s0 = cs ++ [CB.Failure t0] ->
  failures_in cs = Some (4 - CB.failure_count (G.breaker b (shared s0))) ->
  Forall (early t0 (backend_timeout_ms c * 2)) (calls_to b ls2 s1) ->
  CB.state (G.breaker b (shared s2)) = CB.Open /\
  forall i e p, threads s2 !! i = Some (e, p) -> engaged b p = true ->
    exists p0, threads s1 !! i = Some (e, p0) /\ engaged b p0 = true.
Proof.
  intros Hfit Hr0 Hr1 Hr2 Hc E Hf He. destruct (breaker_made c w fs ls0 s0 b Hr0) as [Ht Hm].
  unfold G.breaker_timeout_ms in Hm. rewrite i32_small in Hm by lia.
  destruct (closed_calls cs _ _ Hc Hf) as [H1 H2]; [lia|].
  assert (Hs1 : shut t0 (backend_timeout_ms c * 2) (G.breaker b (shared s1))).
  { rewrite (breaker_history ls1 s0 s1 b Hr1), E.
    pose proof (CB.run_reset_timeout (cs ++ [CB.Failure t0]) (G.breaker b (shared s0))) as H5. rewrite CB.run_app in H5 |- *.
    change (CB.run [CB.Failure t0]) with (CB.on_failure t0) in H5 |- *.
    destruct (tripped (CB.run cs (G.breaker b (shared s0))) t0 H1) as [H3 H4]; [rewrite CB.run_threshold; lia|].
    split; [done|]. split; [lia|congruence]. }
  destruct (shut_run t0 _ ls2 s1 s2 b Hr2 Hs1 He) as [(Ho & _) Hthr]. done.
Qed.

End Isolation.
(** ** Evaluated runs *)

(** A request is on its way to the backend, five others fail, a seventh comes. *)
Definition later : list (@label) := Spawn (G.down_at 11) G.sample_raw :: replicate 7 (Step 6).

Lemma runs_on ls ls' :
  A.runs ls = true -> A.runs (ls ++ ls') = true -> run ls' (A.state_after ls) = Some (A.state_after (ls ++ ls')).
Proof.
  intros H1%A.runs_to H2%A.runs_to. rewrite workers_run_app, H1 in H2. exact H2.
Qed.

Definition engaged_at (i : nat) (s : @Workers.t World) : bool :=
  match threads s !! i with Some (_, p) => engaged G.sample_backend p | None => false end.

(** C7 applied to these: the seventh gets 503, the first may still contact the backend. *)
Lemma failing_backend_isolated_concurrently_witness :
  CB.state (G.breaker G.sample_backend (shared (A.state_after ((A.admitted_slow ++ A.failures) ++ later)))) = CB.Open /\
  forall i, engaged_at i (A.state_after ((A.admitted_slow ++ A.failures) ++ later)) = true ->
    engaged_at i (A.state_after (A.admitted_slow ++ A.failures)) = true.
Proof.
  destruct (failing_backend_isolated_concurrently load_default_config (mkWorld 5 [] 3) [RequestIdFilter; LoggingFilter] G.sample_backend
    A.admitted_slow A.failures later (A.state_after A.admitted_slow) (A.state_after (A.admitted_slow ++ A.failures))
    (A.state_after ((A.admitted_slow ++ A.failures) ++ later))
    [CB.Allow 2; CB.Failure 2; CB.Allow 3; CB.Failure 3; CB.Allow 4; CB.Failure 4; CB.Allow 5; CB.Failure 5; CB.Allow 6] 6) as [Ho Ht].
  - split; vm_compute; discriminate.
  - exact (A.runs_to A.admitted_slow ltac:(vm_compute; reflexivity)).
  - exact (runs_on A.admitted_slow A.failures ltac:(vm_compute; reflexivity) ltac:(vm_compute; reflexivity)).
  - exact (runs_on (A.admitted_slow ++ A.failures) later ltac:(vm_compute; reflexivity) ltac:(vm_compute; reflexivity)).
  - vm_compute. reflexivity.
  - vm_compute. reflexivity.
  - vm_compute. reflexivity.
  - assert (E : calls_to G.sample_backend later (A.state_after (A.admitted_slow ++ A.failures)) = [CB.Allow 11]) by (vm_compute; reflexivity).
    rewrite E. repeat constructor.
  - split; [exact Ho|]. intros i. unfold engaged_at at 1. destruct (threads _ !! i) as [[e p]|] eqn:E; [|discriminate]. intros Hp.
    destruct (Ht i e p E Hp) as (p0 & E0 & Hp0). unfold engaged_at. rewrite E0. exact Hp0.
Defined.

End Isolation.
