(* ===== verification/Listener.v ===== *)
(** * Listener: the backend inventory and the connection table of src/core/gateway.cpp

    [collect_all_backends] gathers the backends for the health checker, and the
    lambdas of [Gateway::run] accept connections under the connection limit,
    forget them when they close and expire the idle ones.  The table, the counter
    and the connections of the clients are only touched by the event loop, so an
    execution is a sequence of these handlers; a client connection is its
    [Connection.t].  [live] is the set of descriptors whose close callback has
    not run, which the code does not keep. *)

From S2P Require Import Prelude StdSort StdMap Config Connection.

Module Listener.
Import Config.
Open Scope Z_scope.

(** ** All backends, without duplicates *)

Definition backend_before (a b : Backend) : bool :=
  StdMap.bytes_ltb (host a) (host b) || (bool_decide (host a = host b) && (port a <? port b)).

Definition same_backend (a b : Backend) : bool :=
  bool_decide (host a = host b) && (port a =? port b).

(** [std::unique] keeps the first of each run of equal elements. *)
Section Unique.
Context {A : Type} (eq : A -> A -> bool).

Fixpoint unique_go (kept : A) (l : list A) : list A :=
  match l with
  | [] => []
  | y :: l' => if eq kept y then unique_go kept l' else y :: unique_go y l'
  end.

Definition unique (l : list A) : list A :=
  match l with [] => [] | x :: l' => x :: unique_go x l' end.
End Unique.

Definition collect_all_backends `{StdSort} (c : GatewayConfig) : list Backend :=
  let result := routes c ≫= backends in
  unique same_backend (std_sort backend_before result).

Lemma same_backend_eq a b : same_backend a b = true <-> a = b.
Proof.
  unfold same_backend. rewrite andb_true_iff, bool_decide_eq_true, Z.eqb_eq.
  destruct a, b; simpl. split; [by intros [-> ->]|by intros [= -> ->]].
Qed.

Lemma backend_before_irrefl a : backend_before a a = false.
Proof.
  unfold backend_before. rewrite StdMap.bytes_ltb_irrefl, bool_decide_eq_true_2 by done.
  simpl. apply Z.ltb_irrefl.
Qed.

Lemma backend_before_cases a b :
  backend_before a b = true <->
  StdMap.bytes_ltb (host a) (host b) = true \/ host a = host b /\ port a < port b.
Proof.
  unfold backend_before. rewrite orb_true_iff, andb_true_iff, bool_decide_eq_true, Z.ltb_lt. done.
Qed.

Lemma backend_before_trans a b c :
  backend_before a b = true -> backend_before b c = true -> backend_before a c = true.
Proof.
  rewrite !backend_before_cases. intros [H1|[E1 H1]] [H2|[E2 H2]].
  - left. by eapply StdMap.bytes_ltb_trans.
  - left. by rewrite <- E2.
  - left. by rewrite E1.
  - right. split; [congruence|lia].
Qed.

Lemma backend_before_total a b :
  backend_before a b = false -> backend_before b a = false -> a = b.
Proof.
  intros Ha Hb. apply not_true_iff_false in Ha. apply not_true_iff_false in Hb.
  rewrite backend_before_cases in Ha, Hb.
  assert (host a = host b) as E.
  { apply StdMap.bytes_ltb_total; apply not_true_iff_false; tauto. }
  assert (port a = port b).
  { destruct (Z.lt_total (port a) (port b)) as [|[|]]; [destruct Ha; auto|done|destruct Hb; auto]. }
  destruct a, b; simpl in *; congruence.
Qed.

Lemma backend_before_swo : strict_weak_order backend_before.
Proof.
  split.
  - apply backend_before_irrefl.
  - apply backend_before_trans.
  - intros a b c Hba Hcb. apply not_true_iff_false. intros Hca.
    destruct (backend_before a b) eqn:Hab.
    + rewrite (backend_before_trans c a b) in Hcb by done. done.
    + rewrite (backend_before_total a b Hab Hba) in Hca. congruence.
Qed.

Lemma unique_go_spec x l :
  StronglySorted (fun a b => backend_before b a = false) (x :: l) ->
  StronglySorted (fun a b => backend_before a b = true) (x :: unique_go same_backend x l) /\
  (forall z, z ∈ x :: unique_go same_backend x l <-> z ∈ x :: l).
Proof.
  revert x; induction l as [|y l IH]; intros x Hs; simpl; [split; [repeat constructor|done]|].
  apply StronglySorted_inv in Hs as [Hl Hx]. rewrite Forall_cons in Hx. destruct Hx as [Hxy Hx].
  destruct (same_backend x y) eqn:E.
  - apply same_backend_eq in E as <-. destruct (IH x Hl) as [H1 H2]. split; [done|].
    intros z. rewrite H2. set_solver.
  - destruct (IH y Hl) as [H1 H2].
    assert (backend_before x y = true) as Hlt.
    { destruct (backend_before x y) eqn:F; [done|]. apply not_true_iff_false in E. destruct E.
      apply same_backend_eq. by apply backend_before_total. }
    split.
    + constructor; [done|]. apply Forall_forall. intros z Hz.
      apply StronglySorted_inv in H1 as [_ H1]. rewrite Forall_forall in H1.
      apply elem_of_cons in Hz as [->|Hz]; [done|]. eapply backend_before_trans; [done|by apply H1].
    + intros z. rewrite elem_of_cons, H2. set_solver.
Qed.

(** The health checker gets every backend of every route, each one once, in
    increasing order of host and port. *)
Theorem collect_all_backends_exact `{StdSort} (c : GatewayConfig) :
  NoDup (collect_all_backends c) /\
  StronglySorted (fun a b => backend_before a b = true) (collect_all_backends c) /\
  (forall b, b ∈ collect_all_backends c <-> exists r, r ∈ routes c /\ b ∈ backends r).
Proof.
  assert (StronglySorted (fun a b => backend_before a b = true) (collect_all_backends c) /\
    (forall b, b ∈ collect_all_backends c <-> b ∈ (routes c ≫= backends))) as [Hs Hm].
  { unfold collect_all_backends.
    pose proof (std_sort_perm _ backend_before ((routes c ≫= backends))) as Hp.
    pose proof (std_sort_sorted _ backend_before ((routes c ≫= backends)) backend_before_swo) as Hs.
    destruct (std_sort _ _) as [|x l]; cbn [unique].
    - split; [constructor|]. intros b. by rewrite <- Hp.
    - destruct (unique_go_spec x l Hs) as [H1 H2]. split; [done|]. intros b. by rewrite H2, Hp. }
  split; [|split; [done|]].
  - clear Hm. induction Hs as [|x l Hl IH Hx]; constructor; [|done].
    intros Hin. rewrite Forall_forall in Hx. specialize (Hx x Hin). by rewrite backend_before_irrefl in Hx.
  - intros b. rewrite Hm, list_elem_of_bind. split.
    + intros (r & Hb & Hr). by exists r.
    + intros (r & Hr & Hb). by exists r.
Qed.

(** ** Client connections *)

Record t := mk {
  connections : gmap Z Connection.t;
  connection_count : Z;
  max_connections : Z
}.

Definition create (c : GatewayConfig) : t := mk ∅ 0 (Config.max_connections c).

(** What the handlers do to descriptors. *)
Inductive event := Reject (cfd : Z) | Accept (cfd : Z) | ForceClose (cfd : Z).

#[global] Instance event_eq_dec : EqDecision event.
Proof. solve_decision. Defined.

(** The new-connection callback; [now] is the time the connection is created. *)
Definition on_new_connection (cfd now max_request_size : Z) (s : t) : t * list event :=
  if (0 <? max_connections s) && (max_connections s <=? connection_count s) then (s, [Reject cfd])
  else
    (mk (<[cfd := Connection.create now cfd max_request_size]> (connections s))
        (connection_count s + 1) (max_connections s), [Accept cfd]).

(** The close callback. *)
Definition on_close (cfd : Z) (s : t) : t :=
  mk (delete cfd (connections s)) (connection_count s - 1) (max_connections s).

(** The loop of [cleanup_idle_connections] over the entries of the table. *)
Definition expired (now timeout : Z) (c : Connection.t) : bool :=
  timeout <? now - Connection.last_active_time c.

Definition cleanup_idle_connections (now timeout : Z) (s : t) : t * list event :=
  (mk (filter (fun kc => expired now timeout kc.2 = false) (connections s)) (connection_count s)
      (max_connections s),
   (fun kc => ForceClose kc.1) <$>
     filter (fun kc => expired now timeout kc.2 = true) (map_to_list (connections s))).

(** ** Executions *)

(** A handler runs with the connections of the table in whatever state their own
    handlers have brought them to. *)
Inductive step : t * gset Z -> list event -> t * gset Z -> Prop :=
  | step_accept cfd now size s live :
      cfd ∉ live ->     (* a descriptor that is still open is not handed out again *)
      step (s, live) (on_new_connection cfd now size s).2
        ((on_new_connection cfd now size s).1,
         if bool_decide ((on_new_connection cfd now size s).2 = [Accept cfd]) then {[cfd]} ∪ live else live)
  | step_close cfd s live :
      cfd ∈ live ->     (* the close callback of a connection runs once *)
      step (s, live) [] (on_close cfd s, live ∖ {[cfd]})
  | step_cleanup now timeout s live :
      step (s, live) (cleanup_idle_connections now timeout s).2
        ((cleanup_idle_connections now timeout s).1, live)
  | step_update cfd c s live :
      is_Some (connections s !! cfd) ->
      step (s, live) [] (mk (<[cfd := c]> (connections s)) (connection_count s) (max_connections s), live).

Inductive reachable (cfg : GatewayConfig) : t * gset Z -> Prop :=
  | reach_init : reachable cfg (create cfg, ∅)
  | reach_step x evs y : reachable cfg x -> step x evs y -> reachable cfg y.

Definition inv (cfg : GatewayConfig) (x : t * gset Z) : Prop :=
  connection_count x.1 = Z.of_nat (size x.2) /\
  max_connections x.1 = Config.max_connections cfg /\
  dom (connections x.1) ⊆ x.2 /\
  (0 < Config.max_connections cfg -> connection_count x.1 <= Config.max_connections cfg).

Lemma step_inv cfg x evs y : inv cfg x -> step x evs y -> inv cfg y.
Proof.
  intros (Hc & Hm & Hd & Hl) Hs. destruct Hs as [cfd now sz s live Hn|cfd s live Hin|now tm s live|cfd c s live Hi];
    cbn [fst snd] in *.
  - unfold on_new_connection, inv. split_if; cbn [fst snd].
    + rewrite bool_decide_eq_false_2 by done. done.
    + cbn [connection_count max_connections connections]. rewrite bool_decide_eq_true_2 by done. rewrite size_union by set_solver.
      rewrite size_singleton, dom_insert_L.
      split; [lia|]. split; [done|]. split; [set_solver|]. intros Hp. apply andb_false_iff in Heqb as [Hb|Hb];
        breflect; lia.
  - unfold inv, on_close. simpl. rewrite size_difference by set_solver.
    rewrite size_singleton, dom_delete_L.
    assert (1 <= size live)%nat.
    { rewrite <- (size_singleton (C := gset Z) cfd). apply subseteq_size. set_solver. }
    split; [lia|]. split; [done|]. split; [set_solver|]. intros Hp. specialize (Hl Hp). lia.
  - unfold inv, cleanup_idle_connections. simpl. repeat (split; [done|]). split; [|done].
    etransitivity; [|exact Hd]. apply dom_filter_subseteq.
  - unfold inv. simpl. repeat (split; [done|]). split; [|done]. rewrite dom_insert_L.
    apply elem_of_dom in Hi. set_solver.
Qed.

Lemma reachable_inv cfg x : reachable cfg x -> inv cfg x.
Proof.
  induction 1 as [|x evs y _ IH Hs]; [|by eapply step_inv].
  unfold inv, create. cbn [fst snd connections connection_count max_connections].
  rewrite size_empty, dom_empty_L. repeat (split; [done|]). lia.
Qed.

(** The connection limit holds: in every reachable state the counter is the
    number of connections whose close callback has not run, idle expiry included,
    it never exceeds a positive [max_connections], and a new descriptor is
    refused exactly when the limit is reached. *)
Theorem connection_limit (cfg : GatewayConfig) (s : t) (live : gset Z) (cfd now sz : Z) :
  reachable cfg (s, live) ->
  connection_count s = Z.of_nat (size live) /\
  (0 < Config.max_connections cfg -> connection_count s <= Config.max_connections cfg) /\
  ((on_new_connection cfd now sz s).2 = [Reject cfd] <->
     0 < Config.max_connections cfg /\ Z.of_nat (size live) = Config.max_connections cfg).
Proof.
  intros Hr. apply reachable_inv in Hr as (Hc & Hm & _ & Hl). simpl in *.
  split; [done|]. split; [done|]. unfold on_new_connection. split_if.
  - simpl. rewrite Hm in *. split; [|done]. intros _. split; [done|]. specialize (Hl ltac:(lia)). lia.
  - simpl. split; [done|]. intros [H1 H2]. rewrite Hm in Heqb.
    apply andb_false_iff in Heqb as [Hb|Hb]; breflect; lia.
Qed.

(** Idle expiry closes exactly the connections idle for longer than the
    timeout, each once, and keeps the others in the table unchanged. *)
Theorem cleanup_exact (now timeout : Z) (s : t) :
  let '(s', evs) := cleanup_idle_connections now timeout s in
  NoDup evs /\
  (forall cfd, ForceClose cfd ∈ evs <->
     exists c, connections s !! cfd = Some c /\ timeout < now - Connection.last_active_time c) /\
  (forall cfd c, connections s' !! cfd = Some c <->
     connections s !! cfd = Some c /\ now - Connection.last_active_time c <= timeout) /\
  connection_count s' = connection_count s.
Proof.
  unfold cleanup_idle_connections. split; [|split; [|split; [|done]]].
  - pose proof (NoDup_fst_map_to_list (connections s)) as Hnd.
    induction (map_to_list (connections s)) as [|[k c] l IH]; simpl; [constructor|].
    simpl in Hnd. apply NoDup_cons in Hnd as [Hk Hnd]. rewrite filter_cons. case_decide; [|by apply IH].
    rewrite fmap_cons. constructor; [|by apply IH]. rewrite list_elem_of_fmap.
    intros ([k' c'] & [= <-] & Hin). apply list_elem_of_filter in Hin as [_ Hin].
    apply Hk, list_elem_of_fmap. by exists (k, c').
  - intros cfd. rewrite list_elem_of_fmap. split.
    + intros ([k c] & [= ->] & Hin). apply list_elem_of_filter in Hin as [He Hin].
      apply elem_of_map_to_list in Hin. exists c. split; [done|]. unfold expired in He. simpl in He. lia.
    + intros (c & Hc & He). exists (cfd, c). split; [done|]. apply list_elem_of_filter. split.
      * unfold expired. simpl. lia.
      * by apply elem_of_map_to_list.
  - intros cfd c. simpl. rewrite map_lookup_filter_Some. unfold expired. simpl. rewrite Z.ltb_ge. done.
Qed.

Definition small : GatewayConfig := mkConfig 8080 10 4 3000 65536 512 5 10 60 1 2048 256 [].

(** Applied with a limit of one and one open connection. *)
Lemma connection_limit_witness :
  (on_new_connection 8 0 65536 (on_new_connection 7 0 65536 (create small)).1).2 = [Reject 8].
Proof.
  apply (connection_limit small (on_new_connection 7 0 65536 (create small)).1 {[7]} 8 0 65536).
  - apply (reach_step small (create small, ∅) [Accept 7]); [constructor|].
    pose proof (step_accept 7 0 65536 (create small) ∅ ltac:(set_solver)) as Hs.
    replace ({[7]} : gset Z) with ({[7]} ∪ ∅ : gset Z) by set_solver. exact Hs.
  - split; reflexivity.
Defined.

End Listener.
