(* ===== verification/TcpServer.v ===== *)
(** * TcpServer: src/net/socket.cpp and src/net/tcp_server.cpp

    The socket helpers and the accepting side of the server.  What the kernel
    answers is an argument: a record per call sequence, and for the [accept] loop a
    script with one answer per turn.  A loop whose script is used up is still
    running.  Descriptors passed to [close] and calls of the new-connection callback
    are events of the result; the callback itself is [Listener.on_new_connection]. *)

From S2P Require Import Prelude Config Connection EventLoop Listener.

Module TcpServer.
Open Scope Z_scope.

Definition EAGAIN : Z := 11.
Definition ENFILE : Z := 23.
Definition EMFILE : Z := 24.
Definition ECONNABORTED : Z := 103.
Definition EPOLLIN : Z := 1.
Definition EPOLLET : Z := 2 ^ 31.

(** ** Socket helpers *)

Record fcntl_env := { getfl : Z; setfl : Z }.

Definition set_nonblocking (e : fcntl_env) : Z := if getfl e =? -1 then -1 else setfl e.

Definition set_tcp_nodelay (setsockopt_ret : Z) : Z := setsockopt_ret.

Record listen_env := { socket_ret : Z; bind_ret : Z; listen_ret : Z; fcntl : fcntl_env }.

(** [htons] keeps sixteen bits of the port. *)
Definition bound_port (port : Z) : Z := port mod 2 ^ 16.

(** The result and the descriptors passed to [close]. *)
Definition create_listen_socket (e : listen_env) : Z * list Z :=
  let fd := socket_ret e in
  if fd <? 0 then (-1, [])
  else if bind_ret e <? 0 then (-1, [fd])
  else if listen_ret e <? 0 then (-1, [fd])
  else if set_nonblocking (fcntl e) <? 0 then (-1, [fd])
  else (fd, []).

(** ** The server *)

Record t := mk { listen_fd : Z; port : Z; has_callback : bool }.

Definition create (p : Z) : t := mk (-1) p false.

Definition set_new_connection_callback (s : t) : t := mk (listen_fd s) (port s) true.

(** What the event loop calls for a descriptor: here only the accept handler matters. *)
Inductive handler := OnAccept | OnClient (cfd : Z) | OnWakeup.

Definition start (e : listen_env) (epoll_ok : bool) (s : t) (el : EventLoop.fd_table handler) :
    t * EventLoop.fd_table handler * list Z :=
  let '(fd, closed) := create_listen_socket e in
  let s := mk fd (port s) (has_callback s) in
  if fd <? 0 then (s, el, closed)
  else (s, EventLoop.set_callback fd OnAccept (EventLoop.add_fd fd (Z.lor EPOLLIN EPOLLET) epoll_ok el), closed).

Definition destroy (s : t) (el : EventLoop.fd_table handler) : EventLoop.fd_table handler * list Z :=
  if 0 <=? listen_fd s then
    (EventLoop.remove_callback (listen_fd s) (EventLoop.del_fd (listen_fd s) el), [listen_fd s])
  else (el, []).

(** ** Accepting *)

Inductive answer :=
  | Conn (cfd : Z) (e : fcntl_env) (ip : option bytes) (peer_port : Z)
  | Fail (errno : Z).

Inductive event := Deliver (cfd : Z) (peer_ip : bytes) (peer_port : Z) | CloseFd (cfd : Z).

(** The loop: its events, and the answers left when it was left, if it was. *)
Fixpoint on_accept (cb : bool) (script : list answer) : list event * option (list answer) :=
  match script with
  | [] => ([], None)
  | Fail errno :: rest =>
      if errno =? EAGAIN then ([], Some rest)
      else if (errno =? EMFILE) || (errno =? ENFILE) then on_accept cb rest
      else ([], Some rest)
  | Conn cfd e ip peer_port :: rest =>
      let '(evs, unread) := on_accept cb rest in
      if set_nonblocking e <? 0 then (CloseFd cfd :: evs, unread)
      else
        let peer_ip := default (lit "UNKNOWN") ip in
        if cb then (Deliver cfd peer_ip peer_port :: evs, unread) else (CloseFd cfd :: evs, unread)
  end.

(** ** The accept handler of the gateway *)

(** The connections of one readiness event go to the connection table. *)
Fixpoint deliver (now max_request_size : Z) (evs : list event) (s : Listener.t) : Listener.t * list Listener.event :=
  match evs with
  | [] => (s, [])
  | Deliver cfd _ _ :: evs' =>
      let '(s, e) := Listener.on_new_connection cfd now max_request_size s in
      let '(s, es) := deliver now max_request_size evs' s in (s, e ++ es)
  | CloseFd _ :: evs' => deliver now max_request_size evs' s
  end.

(** ** Properties *)

(** No descriptor leaks when the listening socket cannot be set up: on every error path
    [create_listen_socket] returns -1 and has closed the socket it created, once;
    it returns a descriptor only when every call succeeded, and then closed nothing. *)
Theorem listen_socket_no_leak e :
  let '(fd, closed) := create_listen_socket e in
  (fd = -1 /\ closed = (if socket_ret e <? 0 then [] else [socket_ret e])) \/
  (fd = socket_ret e /\ 0 <= fd /\ closed = [] /\ 0 <= bind_ret e /\ 0 <= listen_ret e /\ 0 <= set_nonblocking (fcntl e)).
Proof.
  unfold create_listen_socket.
  destruct (Z.ltb_spec (socket_ret e) 0), (Z.ltb_spec (bind_ret e) 0), (Z.ltb_spec (listen_ret e) 0),
    (Z.ltb_spec (set_nonblocking (fcntl e)) 0); auto 10.
Qed.

Lemma delete_table fd (el : EventLoop.fd_table handler) ok ev :
  EventLoop.callbacks el !! fd = None -> EventLoop.registrations el !! fd = None ->
  EventLoop.remove_callback fd (EventLoop.del_fd fd (EventLoop.set_callback fd OnAccept (EventLoop.add_fd fd ev ok el))) = el.
Proof.
  intros H1 H2. destruct el as [cbs regs]. unfold EventLoop.remove_callback, EventLoop.del_fd, EventLoop.set_callback, EventLoop.add_fd.
  simpl in *. f_equal.
  - by rewrite delete_insert_eq, (delete_id cbs), delete_id.
  - destruct ok; by rewrite ?delete_insert_eq, (delete_id regs), ?delete_id.
Qed.

(** The server gives back what it takes: whether or not [start] succeeds, after the
    destructor the event loop is as before and the listening socket, if one was
    created, has been closed exactly once. *)
Theorem server_lifecycle e epoll_ok p el :
  EventLoop.callbacks el !! socket_ret e = None -> EventLoop.registrations el !! socket_ret e = None ->
  let '(s, el1, closed1) := start e epoll_ok (create p) el in
  let '(el2, closed2) := destroy s el1 in
  el2 = el /\ closed1 ++ closed2 = (if socket_ret e <? 0 then [] else [socket_ret e]).
Proof.
  intros H1 H2. unfold start, create_listen_socket.
  destruct (Z.ltb_spec (socket_ret e) 0) as [|Hs]; [done|].
  destruct (Z.ltb_spec (bind_ret e) 0); [done|]. destruct (Z.ltb_spec (listen_ret e) 0); [done|].
  destruct (Z.ltb_spec (set_nonblocking (fcntl e)) 0); [done|].
  rewrite (proj2 (Z.ltb_ge (socket_ret e) 0)) by done. unfold destroy. cbn [listen_fd].
  rewrite (proj2 (Z.leb_le 0 (socket_ret e))) by done. split; [by apply delete_table|done].
Qed.

(** Errors after which the loop goes on. *)
Definition retried (errno : Z) : bool := negb (errno =? EAGAIN) && ((errno =? EMFILE) || (errno =? ENFILE)).

Definition leaves (a : answer) : bool := match a with Conn _ _ _ _ => false | Fail errno => negb (retried errno) end.

Definition fd_of (a : answer) : list Z := match a with Conn cfd _ _ _ => [cfd] | Fail _ => [] end.

Definition fate (cb : bool) (a : answer) : list event :=
  match a with
  | Conn cfd e ip p =>
      if (set_nonblocking e <? 0) || negb cb then [CloseFd cfd] else [Deliver cfd (default (lit "UNKNOWN") ip) p]
  | Fail _ => []
  end.

Lemma on_accept_app cb l script :
  forallb (negb ∘ leaves) l = true ->
  on_accept cb (l ++ script) = ((l ≫= fate cb) ++ (on_accept cb script).1, (on_accept cb script).2).
Proof.
  induction l as [|a l IH]; intros Hl; [simpl; by destruct (on_accept cb script)|].
  apply andb_true_iff in Hl as [Ha Hl]. specialize (IH Hl). rewrite bind_cons. cbn [app on_accept].
  destruct a as [cfd e ip p|errno]; cbn [fate].
  - rewrite IH. destruct (set_nonblocking e <? 0), cb; done.
  - cbn in Ha. rewrite negb_involutive in Ha. apply andb_true_iff in Ha as [Ha1 Ha2].
    apply negb_true_iff in Ha1. rewrite Ha1, Ha2, IH. done.
Qed.

Lemma fate_fds cb a : (fate cb a ≫= fun e => match e with Deliver cfd _ _ => [cfd] | CloseFd cfd => [cfd] end) = fd_of a.
Proof. destruct a as [cfd e ip p|]; [|done]. simpl. by destruct (_ || _). Qed.

(** Every accepted descriptor has one fate.  The loop handles the answers up to the
    first error it does not retry and leaves the rest; of the connections accepted so
    far each is handed to the callback in order, or closed when it could not be made
    non-blocking or there is no callback: the events name exactly the accepted
    descriptors, each once and in order. *)
Theorem accepted_handled cb l errno rest :
  forallb (negb ∘ leaves) l = true -> retried errno = false ->
  let '(evs, unread) := on_accept cb (l ++ Fail errno :: rest) in
  unread = Some rest /\ evs = l ≫= fate cb /\
  (evs ≫= fun e => match e with Deliver cfd _ _ => [cfd] | CloseFd cfd => [cfd] end) = l ≫= fd_of.
Proof.
  intros Hl He. rewrite on_accept_app by done. cbn [on_accept].
  assert (Hexit : (if errno =? EAGAIN then ([], Some rest)
    else if (errno =? EMFILE) || (errno =? ENFILE) then on_accept cb rest else ([], Some rest)) = ([], Some rest)).
  { unfold retried in He. destruct (errno =? EAGAIN); [done|]. cbn [negb andb] in He. by rewrite He. }
  rewrite Hexit. cbn [fst snd]. rewrite app_nil_r. split_and!; [done..|].
  clear. induction l as [|a l IH]; [done|]. rewrite !bind_cons, bind_app, fate_fds, IH. done.
Qed.

(** Out of descriptors the server spins.  While [accept] answers EMFILE or ENFILE the
    loop calls it again at once: after any number of such answers it is still running
    and has handled nothing, so the event loop thread does no other work, not even
    the closing of connections that would free a descriptor. *)
Theorem accept_spins cb n errno :
  errno = EMFILE \/ errno = ENFILE -> on_accept cb (replicate n (Fail errno)) = ([], None).
Proof. intros He. induction n as [|n IH]; [done|]. cbn [replicate on_accept]. destruct He as [-> | ->]; exact IH. Qed.

(** An aborted connection at the head of the queue ends the loop: the connections
    behind it are not accepted, although the descriptor is registered edge-triggered
    and no new event will come for them. *)
Theorem aborted_connection_strands cb rest : on_accept cb (Fail ECONNABORTED :: rest) = ([], Some rest).
Proof. done. Qed.

(** ** The connection limit under a burst *)

Definition delivered (evs : list event) : list Z := evs ≫= fun e => match e with Deliver cfd _ _ => [cfd] | CloseFd _ => [] end.

(** A burst of connections respects the limit: of the connections one readiness event
    delivers, the first ones up to the free places are taken and all others are
    closed, in order, and the counter grows by the number taken. *)
Theorem burst_within_limit now sz evs s :
  0 < Listener.max_connections s -> 0 <= Listener.connection_count s <= Listener.max_connections s ->
  let free := Z.to_nat (Listener.max_connections s - Listener.connection_count s) in
  let '(s', out) := deliver now sz evs s in
  out = (Listener.Accept <$> take free (delivered evs)) ++ (Listener.Reject <$> drop free (delivered evs)) /\
  Listener.connection_count s' = Listener.connection_count s + zlen (take free (delivered evs)) /\
  Listener.connection_count s' <= Listener.max_connections s.
Proof.
  revert s; induction evs as [|[cfd ip p|cfd] evs IH]; intros s Hm Hc; cbn [deliver].
  - change (delivered []) with (@nil Z). rewrite take_nil, drop_nil, (@zlen_nil Z). split_and!; [done|lia|lia].
  - unfold Listener.on_new_connection. rewrite (proj2 (Z.ltb_lt _ _) Hm). cbn [andb].
    change (delivered (Deliver cfd ip p :: evs)) with (cfd :: delivered evs).
    destruct (Z.leb_spec (Listener.max_connections s) (Listener.connection_count s)) as [Hfull|Hfree].
    + specialize (IH s Hm Hc). destruct (deliver now sz evs s) as [s' out]. destruct IH as (-> & IH2 & IH3).
      replace (Z.to_nat (Listener.max_connections s - Listener.connection_count s)) with 0%nat in * by lia.
      rewrite !take_0, !drop_0 in *. done.
    + set (s1 := Listener.mk _ _ _) in *. specialize (IH s1 Hm ltac:(unfold s1; cbn; lia)).
      destruct (deliver now sz evs s1) as [s' out]. destruct IH as (-> & IH2 & IH3). unfold s1 in *. cbn in IH2, IH3 |- *.
      replace (Z.to_nat (Listener.max_connections s - Listener.connection_count s))
        with (S (Z.to_nat (Listener.max_connections s - (Listener.connection_count s + 1)))) by lia.
      cbn [take drop]. rewrite zlen_cons. split_and!; [done|lia|lia].
  - apply IH; done.
Qed.

(** ** Concrete answers *)

Definition works : fcntl_env := {| getfl := 2; setfl := 0 |}.
Definition broken : fcntl_env := {| getfl := -1; setfl := 0 |}.
Definition listening : listen_env := {| socket_ret := 5; bind_ret := 0; listen_ret := 0; fcntl := works |}.
Definition port_taken : listen_env := {| socket_ret := 5; bind_ret := -1; listen_ret := 0; fcntl := works |}.
Definition no_fds : EventLoop.fd_table handler := EventLoop.mkTable ∅ ∅.

(** Applied to a socket that works and to a port that is taken. *)
Lemma server_lifecycle_witness :
  (let '(s, el1, closed1) := start listening true (create 80) no_fds in
   let '(el2, closed2) := destroy s el1 in el2 = no_fds /\ closed1 ++ closed2 = [5]) /\
  (let '(s, el1, closed1) := start port_taken true (create 80) no_fds in
   let '(el2, closed2) := destroy s el1 in el2 = no_fds /\ closed1 ++ closed2 = [5]).
Proof. split; [by apply (server_lifecycle listening)|by apply (server_lifecycle port_taken)]. Defined.

(** Applied to three connections, one of which cannot be made non-blocking. *)
Lemma accepted_handled_witness :
  let '(evs, unread) := on_accept true
    ([Conn 7 works (Some (lit "10.0.0.1")) 1; Conn 8 broken None 2; Conn 9 works None 3] ++ [Fail EAGAIN]) in
  unread = Some [] /\ evs = [Deliver 7 (lit "10.0.0.1") 1; CloseFd 8; Deliver 9 (lit "UNKNOWN") 3].
Proof.
  pose proof (accepted_handled true
    [Conn 7 works (Some (lit "10.0.0.1")) 1; Conn 8 broken None 2; Conn 9 works None 3] EAGAIN [] eq_refl eq_refl) as H.
  destruct (on_accept _ _) as [evs unread]. destruct H as (H1 & -> & _). split; [done|]. by vm_compute.
Defined.

(** Applied to a thousand answers. *)
Lemma accept_spins_witness : on_accept true (replicate 1000 (Fail EMFILE)) = ([], None).
Proof. apply accept_spins. by left. Defined.

(** Applied to three connections and one free place. *)
Lemma burst_within_limit_witness :
  let '(s', out) := deliver 0 65536 [Deliver 7 [] 1; Deliver 8 [] 2; Deliver 9 [] 3] (Listener.create Listener.small) in
  out = [Listener.Accept 7; Listener.Reject 8; Listener.Reject 9] /\ Listener.connection_count s' = 1.
Proof.
  pose proof (burst_within_limit 0 65536 [Deliver 7 [] 1; Deliver 8 [] 2; Deliver 9 [] 3] (Listener.create Listener.small)
    eq_refl ltac:(by vm_compute)) as H.
  destruct (deliver _ _ _ _) as [s' out]. destruct H as (-> & -> & _). by vm_compute.
Defined.

End TcpServer.
