(* ===== verification/Reactor.v ===== *)
(** * Reactor: client connections as shared objects of the event loop

    The lambdas of [Gateway::run] share each [Connection] between the table of the
    gateway, the callback table of the event loop, the message callback stored in the
    connection itself, the jobs of the worker pool and the deferred tasks.  Here a
    connection is an object of a heap, named by its position, and the tables hold
    references; descriptors are numbers the kernel gives out again once they are closed.
    [batch] is what is left of the last result of [epoll_wait]; deferred tasks and accepts,
    which are callbacks of other descriptors of the same result, may run between two of
    its events.  Worker answers are arbitrary. *)

From S2P Require Import Prelude Buffer HttpParser HttpGrammar Connection.

Module Reactor.
Open Scope Z_scope.

(** A deferred lambda and the connection it captures. *)
Inductive task := SendTask (i : nat) (out : bytes) (ka : bool) | CloseTask (i : nat).

Definition task_obj (x : task) : nat := match x with SendTask i _ _ => i | CloseTask i => i end.

Record t := mk {
  objs : list Connection.t;
  message_callbacks : list (option nat);   (* what the message callback of each object captures *)
  callbacks : gmap Z nat;                  (* EventLoop::callbacks_ *)
  connections : gmap Z nat;                (* Gateway::connections_ *)
  connection_count : Z;
  open : gset Z;                           (* descriptors of clients the kernel has open *)
  jobs : list nat;                         (* captured by queued and running jobs *)
  tasks : list task;
  batch : list (Z * Z)
}.

Definition create : t := mk [] [] ∅ ∅ 0 ∅ [] [] [].

Definition set_obj (i : nat) (c : Connection.t) (s : t) : t :=
  mk (<[i := c]> (objs s)) (message_callbacks s) (callbacks s) (connections s) (connection_count s) (open s) (jobs s)
     (tasks s) (batch s).

(** What an event of connection [i] does to its surroundings. *)
Definition apply_event (i : nat) (s : t) (ev : Connection.event) : t :=
  match ev with
  | Connection.DelFd fd | Connection.RemoveCallback fd =>
      mk (objs s) (message_callbacks s) (delete fd (callbacks s)) (connections s) (connection_count s) (open s) (jobs s)
         (tasks s) (batch s)
  | Connection.CloseCallback fd =>
      mk (objs s) (message_callbacks s) (callbacks s) (delete fd (connections s)) (connection_count s - 1) (open s) (jobs s)
         (tasks s) (batch s)
  | Connection.CloseFd fd =>
      mk (objs s) (message_callbacks s) (callbacks s) (connections s) (connection_count s) (open s ∖ {[fd]}) (jobs s)
         (tasks s) (batch s)
  | Connection.MessageCallback _ _ =>
      (* the lambda stored in the object copies the pointer it captured into the job *)
      match message_callbacks s !! i with
      | Some (Some k) =>
          mk (objs s) (message_callbacks s) (callbacks s) (connections s) (connection_count s) (open s) (jobs s ++ [k])
             (tasks s) (batch s)
      | _ => s
      end
  | Connection.ModFd _ _ | Connection.ShutdownWr _ => s
  end.

Definition defer (x : task) (s : t) : t :=
  mk (objs s) (message_callbacks s) (callbacks s) (connections s) (connection_count s) (open s) (jobs s) (tasks s ++ [x])
     (batch s).

Definition set_batch (b : list (Z * Z)) (s : t) : t :=
  mk (objs s) (message_callbacks s) (callbacks s) (connections s) (connection_count s) (open s) (jobs s) (tasks s) b.

Definition EPOLLIN : Z := 1.
Definition EPOLLOUT : Z := 4.
Definition EPOLLERR : Z := 8.
Definition EPOLLHUP : Z := 16.
Definition has (flags ev : Z) : bool := negb (Z.land ev flags =? 0).

(** The new-connection callback. *)
Definition on_new_connection (max_connections cfd now size : Z) (s : t) : t :=
  if (0 <? max_connections) && (max_connections <=? connection_count s) then s
  else
    let i := length (objs s) in
    mk (objs s ++ [Connection.create now cfd size]) (message_callbacks s ++ [Some i]) (<[cfd := i]> (callbacks s))
       (<[cfd := i]> (connections s)) (connection_count s + 1) ({[cfd]} ∪ open s) (jobs s) (tasks s) (batch s).

(** [Connection::force_close] *)
Definition force_close (i : nat) (s : t) : t :=
  match objs s !! i with
  | Some c => if Connection.force_close c then defer (CloseTask i) s else s
  | None => s
  end.

(** One entry of [cleanup_idle_connections]. *)
Definition expire (now timeout : Z) (s : t) (e : Z * nat) : t :=
  match objs s !! e.2 with
  | Some c =>
      if timeout <? now - Connection.last_active_time c then
        let s := force_close e.2 s in
        mk (objs s) (message_callbacks s) (callbacks s) (delete e.1 (connections s)) (connection_count s) (open s) (jobs s)
           (tasks s) (batch s)
      else s
  | None => s
  end.

Definition cleanup_idle_connections (now timeout : Z) (s : t) : t :=
  foldl (expire now timeout) s (map_to_list (connections s)).

Section Loop.
Context (max_connections : Z) (rounds fuel : nat).

(** A handler of connection [i]. *)
Definition handle (i : nat) (o : Connection.op) (s : t) : option t :=
  c ← objs s !! i;
  '(c, evs) ← Connection.exec rounds fuel o c;
  Some (foldl (apply_event i) (set_obj i c s) evs).

(** The lambda registered for a client descriptor. *)
Definition on_event (i : nat) (ev now : Z) (reads : list Buffer.io) (writes : list (Z * Z)) (s : t) : option t :=
  s ← (if has EPOLLIN ev then handle i (Connection.OnRead now reads) s else Some s);
  s ← (if has EPOLLOUT ev then handle i (Connection.OnWrite now writes) s else Some s);
  Some (if has (Z.lor EPOLLHUP EPOLLERR) ev then force_close i s else s).

Inductive label :=
  | Wait (events : list (Z * Z))                                          (* epoll_wait returns *)
  | Dispatch (now : Z) (reads : list Buffer.io) (writes : list (Z * Z))   (* the next event of the result *)
  | Accept (cfd now size : Z)
  | RunTask (now : Z) (writes : list (Z * Z))                             (* the next deferred task *)
  | Cleanup (now timeout : Z)
  | Answer (k : nat) (out : bytes) (ka : bool).                           (* a job sends its response and ends *)

Definition exec (l : label) (s : t) : option t :=
  match l with
  | Wait events =>
      (* the kernel reports each open descriptor at most once *)
      if bool_decide (batch s = []) && bool_decide (NoDup events.*1) && forallb (fun e => bool_decide (e.1 ∈ open s)) events
      then Some (set_batch events s) else None
  | Dispatch now reads writes =>
      match batch s with
      | [] => None
      | (fd, ev) :: rest =>
          let s := set_batch rest s in
          match callbacks s !! fd with
          | Some i => on_event i ev now reads writes s
          | None => Some s
          end
      end
  | Accept cfd now size =>
      (* a descriptor that is open is not handed out again *)
      if (0 <=? cfd) && bool_decide (cfd ∉ open s) then Some (on_new_connection max_connections cfd now size s) else None
  | RunTask now writes =>
      match tasks s with
      | [] => None
      | x :: rest =>
          let s := mk (objs s) (message_callbacks s) (callbacks s) (connections s) (connection_count s) (open s) (jobs s)
                     rest (batch s) in
          match x with
          | SendTask i out ka => handle i (Connection.SendInternal now writes out ka) s
          | CloseTask i => handle i Connection.CloseInternal s
          end
      end
  | Cleanup now timeout => Some (cleanup_idle_connections now timeout s)
  | Answer k out ka =>
      i ← jobs s !! k;
      Some (defer (SendTask i out ka)
             (mk (objs s) (message_callbacks s) (callbacks s) (connections s) (connection_count s) (open s) (delete k (jobs s))
                 (tasks s) (batch s)))
  end.

Fixpoint run (ls : list label) (s : t) : option t :=
  match ls with [] => Some s | l :: ls' => s ← exec l s; run ls' s end.

(** ** References *)

(** The objects the strong references of the program point to. *)
Definition refs (s : t) : list nat :=
  omap id (message_callbacks s) ++ (map_to_list (callbacks s)).*2 ++ (map_to_list (connections s)).*2 ++ jobs s
    ++ (task_obj <$> tasks s).

Definition strong_count (s : t) (i : nat) : nat := length (filter (fun k => k = i) (refs s)).

(** ** Invariant *)

Definition is_open (c : Connection.t) : Prop := Connection.state c <> Connection.Closed.

Record inv (s : t) : Prop := {
  inv_callback fd i : callbacks s !! fd = Some i ->
    exists c, objs s !! i = Some c /\ Connection.fd c = fd /\ is_open c;
  inv_open i c : objs s !! i = Some c -> is_open c ->
    callbacks s !! Connection.fd c = Some i /\ Connection.fd c ∈ open s;
  inv_table fd i : connections s !! fd = Some i -> callbacks s !! fd = Some i;
  inv_count : connection_count s = Z.of_nat (size (callbacks s));
  inv_captured : message_callbacks s = Some <$> seq 0 (length (objs s))
}.

(** The tables a closing connection is removed from. *)
Definition tables (s : t) : gmap Z nat * gmap Z nat * Z * gset Z := (callbacks s, connections s, connection_count s, open s).

Lemma apply_event_frame i s ev :
  objs (apply_event i s ev) = objs s /\ message_callbacks (apply_event i s ev) = message_callbacks s.
Proof. destruct ev; try done. cbn. by destruct (message_callbacks s !! i) as [[k|]|]. Qed.

Lemma apply_events_frame i evs s :
  objs (foldl (apply_event i) s evs) = objs s /\ message_callbacks (foldl (apply_event i) s evs) = message_callbacks s.
Proof.
  revert s; induction evs as [|ev evs IH]; intros s; [done|]. cbn [foldl].
  destruct (IH (apply_event i s ev)) as [-> ->]. apply apply_event_frame.
Qed.

(** Only the closing events change the tables. *)
Lemma apply_event_tables i s s' ev :
  tables s = tables s' -> tables (apply_event i s ev) = if Connection.is_close ev then tables (apply_event i s' ev) else tables s'.
Proof.
  intros E. destruct s, s'. unfold tables in E. cbn in E. injection E as -> -> -> ->.
  destruct ev; cbn; try done. by destruct (_ !! i) as [[k|]|].
Qed.

Lemma apply_events_tables i evs s s' :
  tables s = tables s' -> tables (foldl (apply_event i) s evs) = tables (foldl (apply_event i) s' (filter Connection.is_close evs)).
Proof.
  revert s s'; induction evs as [|ev evs IH]; intros s s' E; [done|]. cbn [foldl].
  pose proof (apply_event_tables i s s' ev E) as Ee. rewrite filter_cons.
  destruct (Connection.is_close ev) eqn:Ec; cbn; apply IH; exact Ee.
Qed.

(** A handler leaves the tables alone, or closes its connection and removes it from all of
    them. *)
Lemma handle_cases i o s s' :
  handle i o s = Some s' ->
  exists c c', objs s !! i = Some c /\ objs s' = <[i := c']> (objs s) /\ message_callbacks s' = message_callbacks s /\
    ((is_open c /\ is_open c' /\ Connection.fd c' = Connection.fd c /\ tables s' = tables s) \/
     (~ is_open c /\ c' = c /\ tables s' = tables s) \/
     (is_open c /\ ~ is_open c' /\
      tables s' = (delete (Connection.fd c) (callbacks s), delete (Connection.fd c) (connections s), connection_count s - 1,
                   open s ∖ {[Connection.fd c]}))).
Proof.
  unfold handle. intros (c & Hc & Hh)%bind_Some. apply bind_Some in Hh as ([c' evs] & He & Hh). injection Hh as <-.
  exists c, c'. split; [done|]. destruct (apply_events_frame i evs (set_obj i c' s)) as [-> ->].
  split; [done|]. split; [done|].
  pose proof (apply_events_tables i evs (set_obj i c' s) s eq_refl) as Et.
  apply Connection.exec_wb in He as [_ Hw]. unfold is_open.
  destruct (decide (Connection.state c = Connection.Closed)) as [E|E].
  { rewrite E in Hw. destruct Hw as [-> ->]. right. left. split; [by intros []|]. done. }
  destruct (decide (Connection.state c' = Connection.Closed)) as [E'|E'].
  - right. right. split; [done|]. split; [by intros []|].
    assert (Hf : filter Connection.is_close evs = Connection.closing_events (Connection.fd c)).
    { rewrite E' in Hw. by destruct (Connection.state c), Hw. }
    rewrite Hf in Et. rewrite Et. unfold tables. cbn. by rewrite delete_delete_eq.
  - left. split; [done|]. split; [done|].
    assert (Hf : filter Connection.is_close evs = [] /\ Connection.fd c' = Connection.fd c).
    { destruct (Connection.state c), (Connection.state c'); done. }
    destruct Hf as [Hf ->]. rewrite Hf in Et. done.
Qed.

Lemma reactor_handle_inv i o s s' : handle i o s = Some s' -> inv s -> inv s'.
Proof.
  intros Hh [I1 I2 I3 I4 I5]. destruct (handle_cases i o s s' Hh) as (c & c' & Hc & Ho & Hm & Hcase).
  assert (Hlt : (i < length (objs s))%nat) by by eapply lookup_lt_Some.
  assert (Hcap : message_callbacks s' = Some <$> seq 0 (length (objs s'))) by by rewrite Hm, Ho, length_insert.
  destruct Hcase as [(O1 & O2 & Hfd & Ht)|[(O1 & -> & Ht)|(O1 & O2 & Ht)]]; unfold tables in Ht; injection Ht as T1 T2 T3 T4.
  - constructor; rewrite ?T1, ?T2, ?T3, ?T4, ?Ho; try done.
    + intros fd k Hk. destruct (I1 fd k Hk) as (d & Hd & Hf & Hop). destruct (decide (i = k)) as [<-|Hne].
      * exists c'. rewrite list_lookup_insert_eq by done. split; [done|]. split; [congruence|done].
      * exists d. by rewrite list_lookup_insert_ne.
    + intros k d Hk Hop. destruct (decide (i = k)) as [<-|Hne].
      * rewrite list_lookup_insert_eq in Hk by done. injection Hk as <-. rewrite Hfd. by apply I2.
      * rewrite list_lookup_insert_ne in Hk by done. by apply I2.
    + by rewrite <- Ho.
  - rewrite (list_insert_id _ _ _ Hc) in Ho. constructor; rewrite ?T1, ?T2, ?T3, ?T4, ?Ho; try done. by rewrite <- Ho.
  - destruct (I2 i c Hc O1) as [Hcb Hop]. constructor; rewrite ?T1, ?T2, ?T3, ?T4, ?Ho; try done.
    + intros fd k [Hne Hk]%lookup_delete_Some. destruct (I1 fd k Hk) as (d & Hd & Hf & Hd').
      exists d. rewrite list_lookup_insert_ne; [done|]. intros ->. congruence.
    + intros k d Hk Hd. destruct (decide (i = k)) as [<-|Hne].
      * rewrite list_lookup_insert_eq in Hk by done. injection Hk as <-. done.
      * rewrite list_lookup_insert_ne in Hk by done. destruct (I2 k d Hk Hd) as [Hk' Hop'].
        assert (Connection.fd c <> Connection.fd d) by congruence. rewrite lookup_delete_ne by done. set_solver.
    + intros fd k [Hne Hk]%lookup_delete_Some. rewrite lookup_delete_ne by done. by apply I3.
    + rewrite I4, map_size_delete, Hcb. assert (size (callbacks s) <> 0)%nat; [|lia].
      intros E%map_size_empty_inv. by rewrite E in Hcb.
    + by rewrite <- Ho.
Qed.

(** The invariant does not look at jobs, tasks and events, and entries of the gateway's
    table may go. *)
Lemma inv_weaken s s' :
  inv s -> objs s' = objs s -> message_callbacks s' = message_callbacks s -> callbacks s' = callbacks s ->
  connection_count s' = connection_count s -> open s' = open s -> connections s' ⊆ connections s -> inv s'.
Proof.
  intros [I1 I2 I3 I4 I5] E1 E2 E3 E4 E5 Hsub. constructor; rewrite ?E1, ?E2, ?E3, ?E4, ?E5; try done.
  intros fd i Hi. by apply I3, (lookup_weaken _ _ _ _ Hi).
Qed.

Lemma force_close_frame i s :
  objs (force_close i s) = objs s /\ message_callbacks (force_close i s) = message_callbacks s /\ tables (force_close i s) = tables s.
Proof. unfold force_close. destruct (objs s !! i) as [c|]; [|done]. by destruct (Connection.force_close c). Qed.

Lemma force_close_inv i s : inv s -> inv (force_close i s).
Proof.
  intros Hi. destruct (force_close_frame i s) as (E1 & E2 & E3). unfold tables in E3. injection E3 as T1 T2 T3 T4.
  by apply (inv_weaken s); rewrite ?T2.
Qed.

Lemma expire_inv now timeout s e : inv s -> inv (expire now timeout s e).
Proof.
  intros Hi. unfold expire. destruct (objs s !! e.2) as [c|]; [|done]. destruct (_ <? _); [|done].
  apply (force_close_inv e.2) in Hi. apply (inv_weaken (force_close e.2 s)); try done. apply delete_subseteq.
Qed.

Lemma reactor_accept_inv cfd now size s : inv s -> cfd ∉ open s -> inv (on_new_connection max_connections cfd now size s).
Proof.
  intros [I1 I2 I3 I4 I5] Hn. unfold on_new_connection. destruct (_ && _); [done|].
  assert (Hcb : callbacks s !! cfd = None).
  { destruct (callbacks s !! cfd) as [i|] eqn:E; [|done]. destruct (I1 cfd i E) as (c & Hc & <- & Ho).
    by destruct (I2 i c Hc Ho). }
  constructor; cbn.
  - intros fd i [[<- <-]|[Hne Hi]]%lookup_insert_Some.
    + exists (Connection.create now cfd size). by rewrite lookup_app_r, Nat.sub_diag.
    + destruct (I1 fd i Hi) as (c & Hc & Hf). exists c. split; [by apply lookup_app_l_Some|done].
  - intros i c Hi Ho. apply lookup_snoc_Some in Hi as [[_ Hi]|[-> <-]].
    + destruct (I2 i c Hi Ho) as [H1 H2]. split; [|set_solver]. rewrite lookup_insert_ne; [done|]. intros ->. set_solver.
    + cbn. rewrite lookup_insert_eq. split; [done|set_solver].
  - intros fd i [[<- <-]|[Hne Hi]]%lookup_insert_Some; [by rewrite lookup_insert_eq|].
    rewrite lookup_insert_ne by done. by apply I3.
  - rewrite map_size_insert, Hcb. lia.
  - rewrite I5, length_app, seq_app, fmap_app. done.
Qed.

Lemma reactor_exec_inv l s s' : exec l s = Some s' -> inv s -> inv s'.
Proof.
  intros He Hi. destruct l as [events|now reads writes|cfd now size|now writes|now timeout|k out ka]; cbn [exec] in He.
  - destruct (_ && _); [|done]. injection He as <-. by apply (inv_weaken s).
  - destruct (batch s) as [|[fd ev] rest]; [done|]. assert (Hi1 : inv (set_batch rest s)) by by apply (inv_weaken s).
    destruct (callbacks (set_batch rest s) !! fd) as [i|]; [|by injection He as <-]. unfold on_event in He.
    apply bind_Some in He as (s1 & H1 & He). apply bind_Some in He as (s2 & H2 & He). injection He as <-.
    assert (inv s1) by (destruct (has EPOLLIN ev); [by eapply reactor_handle_inv|by injection H1 as <-]).
    assert (inv s2) by (destruct (has EPOLLOUT ev); [by eapply reactor_handle_inv|by injection H2 as <-]).
    destruct (has (Z.lor EPOLLHUP EPOLLERR) ev); [by apply force_close_inv|done].
  - destruct (0 <=? cfd); [|done]. cbn [andb] in He. destruct (bool_decide_reflect (cfd ∉ open s)) as [Hn|]; [|done].
    injection He as <-. by apply reactor_accept_inv.
  - destruct (tasks s) as [|x rest]; [done|]. set (s1 := mk _ _ _ _ _ _ _ rest _) in He.
    assert (Hi1 : inv s1) by by apply (inv_weaken s). destruct x; by eapply reactor_handle_inv.
  - injection He as <-. unfold cleanup_idle_connections. revert Hi. generalize (map_to_list (connections s)) as l.
    intros l. revert s. induction l as [|e l IH]; intros s Hi; [done|]. cbn. by apply IH, expire_inv.
  - apply bind_Some in He as (i & _ & He). injection He as <-. by apply (inv_weaken s).
Qed.

Lemma reactor_run_inv ls s : run ls create = Some s -> inv s.
Proof.
  assert (H0 : inv create) by (constructor; cbn; try done; intros i c Hc; by rewrite lookup_nil in Hc).
  revert H0. generalize create. induction ls as [|l ls IH]; intros s0 H0; cbn [run]; [by intros [= <-]|].
  intros (s1 & He & Hr)%bind_Some. apply (IH s1); [by eapply reactor_exec_inv|done].
Qed.

(** C18. Handlers run on the connection that owns the descriptor: in every reachable state,
    descriptors that were closed and given out again included, the callback table sends a
    descriptor exactly to the open connection that has it, the gateway's table is part of
    it, the counter is the number of open connections, and whatever a handler closes is an
    open descriptor of its own connection, so no descriptor is closed twice or for another. *)
Theorem handlers_own_descriptors ls s :
  run ls create = Some s ->
  (forall fd i, callbacks s !! fd = Some i <->
     exists c, objs s !! i = Some c /\ Connection.fd c = fd /\ Connection.state c <> Connection.Closed) /\
  connections s ⊆ callbacks s /\
  connection_count s = Z.of_nat (size (callbacks s)) /\
  (forall i c o c' evs fd, objs s !! i = Some c -> Connection.exec rounds fuel o c = Some (c', evs) ->
     Connection.CloseFd fd ∈ evs -> fd = Connection.fd c /\ fd ∈ open s).
Proof.
  intros [I1 I2 I3 I4 I5]%reactor_run_inv. split; [|split; [|split; [done|]]].
  - intros fd i. split; [apply I1|]. intros (c & Hc & <- & Ho). by apply (I2 i c).
  - apply map_subseteq_spec. exact I3.
  - intros i c o c' evs fd Hc He Hin. apply Connection.exec_wb in He as [_ Hw].
    assert (Hf : Connection.CloseFd fd ∈ filter Connection.is_close evs) by by apply list_elem_of_filter.
    destruct (decide (Connection.state c = Connection.Closed)) as [E|E].
    { rewrite E in Hw. destruct Hw as [_ ->]. by apply not_elem_of_nil in Hin. }
    destruct (I2 i c Hc E) as [_ Hop].
    assert (Hcl : filter Connection.is_close evs = [] \/ filter Connection.is_close evs = Connection.closing_events (Connection.fd c)).
    { destruct (Connection.state c), (Connection.state c'); destruct Hw; auto; done. }
    destruct Hcl as [Hcl|Hcl]; rewrite Hcl in Hf; [by apply not_elem_of_nil in Hf|].
    assert (fd = Connection.fd c) as -> by (unfold Connection.closing_events in Hf; set_solver). done.
Qed.

(** ** Ownership *)

(** References that are not stored in a connection. *)
Definition roots (s : t) : list nat :=
  (map_to_list (callbacks s)).*2 ++ (map_to_list (connections s)).*2 ++ jobs s ++ (task_obj <$> tasks s).

(** The connections the program can still get at. *)
Inductive reach (s : t) : nat -> Prop :=
  | reach_root i : i ∈ roots s -> reach s i
  | reach_captured k i : reach s k -> message_callbacks s !! k = Some (Some i) -> reach s i.

Lemma filter_unique (l : list nat) i : NoDup l -> i ∈ l -> filter (fun k => k = i) l = [i].
Proof.
  induction 1 as [|x l Hx _ IH]; intros Hi; [by apply not_elem_of_nil in Hi|]. rewrite filter_cons.
  destruct (decide (x = i)) as [->|Hne].
  - f_equal. apply filter_nil_inv'. by intros y Hy ->.
  - apply IH. set_solver.
Qed.

Lemma captured_refs s : inv s -> omap id (message_callbacks s) = seq 0 (length (objs s)).
Proof.
  intros Hi. rewrite (inv_captured _ Hi). generalize 0%nat. induction (length (objs s)) as [|n IH]; intros k; [done|].
  cbn. f_equal. apply IH.
Qed.

Lemma count_split s i :
  inv s -> (i < length (objs s))%nat -> strong_count s i = S (length (filter (fun k => k = i) (roots s))).
Proof.
  intros Hi Hlt. unfold strong_count, refs. rewrite (captured_refs s Hi), filter_app, length_app, filter_unique; [done|apply NoDup_seq|].
  apply elem_of_seq. lia.
Qed.

Lemma closed_not_rooted s i c :
  inv s -> objs s !! i = Some c -> Connection.state c = Connection.Closed -> i ∉ jobs s -> i ∉ (task_obj <$> tasks s) -> i ∉ roots s.
Proof.
  intros Hi Hc Hst Hj Ht. unfold roots. rewrite !elem_of_app. intros [H1|[H1|[H1|H1]]]; [| |done|done].
  all: apply list_elem_of_fmap in H1 as ([fd k] & -> & H1); apply elem_of_map_to_list in H1; cbn in *.
  2: apply (inv_table _ Hi) in H1.
  all: destruct (inv_callback _ Hi fd k H1) as (c' & Hc' & _ & Ho); rewrite Hc in Hc'; injection Hc' as <-; by apply Ho.
Qed.

(** C19. No connection is ever destroyed: the message callback stored in a connection holds a
    reference to that connection and nothing clears it, so every connection that was ever
    accepted still has a strong reference.  Once it is closed and its jobs and tasks are
    done, that reference is the only one and no part of the program can reach the object,
    with its buffers, any more. *)
Theorem connections_never_destroyed ls s i c :
  run ls create = Some s -> objs s !! i = Some c ->
  (1 <= strong_count s i)%nat /\
  (Connection.state c = Connection.Closed -> i ∉ jobs s -> i ∉ (task_obj <$> tasks s) ->
   strong_count s i = 1%nat /\ ~ reach s i).
Proof.
  intros Hr%reactor_run_inv Hc. assert (Hlt : (i < length (objs s))%nat) by by eapply lookup_lt_Some.
  rewrite (count_split s i Hr Hlt). split; [lia|]. intros Hst Hj Ht.
  pose proof (closed_not_rooted s i c Hr Hc Hst Hj Ht) as Hn. split.
  - rewrite filter_nil_inv'; [done|]. by intros x Hx ->.
  - assert (Hrt : forall k, reach s k -> k ∈ roots s); [|by intros H%Hrt].
    induction 1 as [k Hk|k k' _ IH Hk]; [done|]. rewrite (inv_captured _ Hr), list_lookup_fmap in Hk.
    destruct (seq 0 (length (objs s)) !! k) as [x|] eqn:E; [|done]. apply lookup_seq in E as [-> _]. cbn in Hk. by injection Hk as <-.
Qed.

End Loop.

(** ** Evaluated runs *)

(** A client connects, its connection expires and is closed. *)
Definition visit : list label := [Accept 5 0 65536; Cleanup 100 60; RunTask 100 []].

Definition state_after (ls : list label) : t := default create (run 10 100 4 ls create).

(** C18 applied to a descriptor that was closed and given out again. *)
Lemma handlers_own_descriptors_witness :
  callbacks (state_after (visit ++ [Accept 5 101 65536])) !! 5 = Some 1%nat /\
  connection_count (state_after (visit ++ [Accept 5 101 65536])) = 1.
Proof.
  destruct (handlers_own_descriptors 10 100 4 (visit ++ [Accept 5 101 65536]) (state_after (visit ++ [Accept 5 101 65536])))
    as (H1 & _ & H3 & _); [vm_compute; reflexivity|]. split; [|rewrite H3; vm_compute; reflexivity].
  apply H1. exists (Connection.create 101 5 65536). split; [vm_compute; reflexivity|]. split; [reflexivity|discriminate].
Defined.

(** C19 applied to that visit. *)
Lemma connections_never_destroyed_witness :
  strong_count (state_after visit) 0 = 1%nat /\ ~ reach (state_after visit) 0.
Proof.
  destruct (connections_never_destroyed 10 100 4 visit (state_after visit) 0
    (Connection.close_internal (Connection.create 0 5 65536)).1) as [_ H].
  - vm_compute. reflexivity.
  - vm_compute. reflexivity.
  - apply H.
    + vm_compute. reflexivity.
    + assert (E : jobs (state_after visit) = []) by (vm_compute; reflexivity). rewrite E. apply not_elem_of_nil.
    + assert (E : tasks (state_after visit) = []) by (vm_compute; reflexivity). rewrite E. apply not_elem_of_nil.
Defined.

(** The loop expires a connection while its client hangs up; the next result of
    [epoll_wait] has the wake-up for the deferred close, a new client and the hang-up. *)
Definition reused : list label :=
  [Accept 5 0 65536; Cleanup 100 60; Wait [(5, EPOLLHUP)]; RunTask 100 []; Accept 5 100 65536;
   Dispatch 100 [] []; RunTask 100 []].

(** An event that is still waiting in the result of [epoll_wait] when its connection is
    closed hits the next client that gets the same descriptor: the new connection is
    closed because the old one hung up, before its client has sent anything. *)
Theorem stale_event_hits_next_client :
  exists s c0 c1, run 10 100 4 reused create = Some s /\ objs s = [c0; c1] /\
    Connection.last_active_time c1 = 100 /\ Connection.state c1 = Connection.Closed /\ open s = ∅.
Proof.
  exists (state_after reused), (Connection.close_internal (Connection.create 0 5 65536)).1,
    (Connection.close_internal (Connection.create 100 5 65536)).1.
  split_and!; vm_compute; reflexivity.
Qed.

End Reactor.
