(* ===== verification/JsonConfig.v ===== *)
(** * JsonConfig: src/core/config_loader.cpp

    The hand-written JSON lexer and the configuration parser on top of it.  The
    read position is the rest of the input.  The lexer's token type before the
    first [advance] and the port of a default-initialised [Backend] are
    indeterminate in the code: both are arguments.  Loops take fuel; [None] means
    that a loop has not ended within it.  Skipping blanks needs no more steps than
    there are bytes left, so [advance] has its own.  [gap], [spells] and [spelled] are
    the grammar of the texts the round trip is about; [lexes] is what the lexer finds in
    them. *)

From S2P Require Import Prelude Utils Config.

Module JsonConfig.
Import Config.
Open Scope Z_scope.

(** ** The lexer *)

Inductive TokenType :=
  | ObjectStart | ObjectEnd | ArrayStart | ArrayEnd | TString | TNumber | TBoolean
  | Colon | Comma | Null | End_.

#[global] Instance TokenType_eq_dec : EqDecision TokenType.
Proof. solve_decision. Defined.

Record Token := mkToken { type : TokenType; text : bytes }.

Record t := mk {
  rest : bytes;               (* input_ from pos_ on *)
  current : Token;
  error_msg : option bytes;   (* error_ and error_msg_ *)
  container_stack : list TokenType
}.

Definition create (garbage : TokenType) (input : bytes) : t := mk input (mkToken garbage []) None [].

Definition set_rest (r : bytes) (p : t) : t := mk r (current p) (error_msg p) (container_stack p).

Definition token (ty : TokenType) (s r : bytes) (p : t) : t :=
  mk r (mkToken ty s) (error_msg p) (container_stack p).

Definition set_error (msg : bytes) (p : t) : t := mk (rest p) (current p) (Some msg) (container_stack p).

Fixpoint skip_line (r : bytes) : bytes :=
  match r with
  | [] => []
  | c :: r' => if Ascii.eqb c LF then r else skip_line r'
  end.

(** Inside a block comment: the last byte of the input is never consumed. *)
Fixpoint skip_block (r : bytes) : bytes :=
  match r with
  | [] => []
  | c :: r' =>
      match r' with
      | [] => r
      | d :: r'' => if Ascii.eqb c "*" && Ascii.eqb d "/" then r'' else skip_block r'
      end
  end.

(** [skip_comment], called at a slash; it does nothing when no comment starts. *)
Definition skip_comment (r : bytes) : bytes :=
  match r with
  | "/"%char :: "/"%char :: _ => skip_line r
  | "/"%char :: "*"%char :: r' => skip_block r'
  | _ => r
  end.

Definition is_blank (c : ascii) : bool :=
  Ascii.eqb c SP || Ascii.eqb c TAB || Ascii.eqb c LF || Ascii.eqb c CR.

Fixpoint skip_whitespace (fuel : nat) (r : bytes) : option bytes :=
  match fuel with
  | O => None
  | S fuel' =>
      match r with
      | [] => Some []
      | c :: r' =>
          if is_blank c then skip_whitespace fuel' r'
          else if Ascii.eqb c "/" then skip_whitespace fuel' (skip_comment r)
          else Some r
      end
  end.

Definition unescape (c : ascii) : ascii :=
  if Ascii.eqb c "n" then LF else if Ascii.eqb c "t" then TAB else if Ascii.eqb c "r" then CR else c.

(** The characters of a string up to its closing quote or the end of the input. *)
Fixpoint lex_string (r acc : bytes) : bytes * bytes :=
  match r with
  | [] => (acc, [])
  | c :: r' =>
      if Ascii.eqb c "034" then (acc, r')
      else if Ascii.eqb c "\" then
        match r' with
        | [] => (acc, [])
        | e :: r'' => lex_string r'' (acc ++ [unescape e])
        end
      else lex_string r' (acc ++ [c])
  end.

Fixpoint lex_while (p : ascii -> bool) (r acc : bytes) : bytes * bytes :=
  match r with
  | c :: r' => if p c then lex_while p r' (acc ++ [c]) else (acc, r)
  | [] => (acc, [])
  end.

Definition number_char (c : ascii) : bool := Utils.isdigit c || Ascii.eqb c ".".

Definition lex_token (p : t) : t :=
  match rest p with
  | [] => token End_ [] [] p
  | c :: r =>
      if Ascii.eqb c "{" then token ObjectStart [c] r p
      else if Ascii.eqb c "}" then token ObjectEnd [c] r p
      else if Ascii.eqb c "[" then token ArrayStart [c] r p
      else if Ascii.eqb c "]" then token ArrayEnd [c] r p
      else if Ascii.eqb c ":" then token Colon [c] r p
      else if Ascii.eqb c "," then token Comma [c] r p
      else if Ascii.eqb c "034" then let '(s, r) := lex_string r [] in token TString s r p
      else if Utils.isdigit c || Ascii.eqb c "-" then
        let '(s, r) := if Ascii.eqb c "-" then lex_while number_char r [c]
                       else lex_while number_char (c :: r) [] in
        token TNumber s r p
      else if Ascii.eqb c "t" || Ascii.eqb c "f" then
        let '(s, r) := lex_while Utils.isalpha (c :: r) [] in token TBoolean s r p
      else if Ascii.eqb c "n" then
        let '(s, r) := lex_while Utils.isalpha (c :: r) [] in token Null s r p
      else set_error (lit "Unexpected character: '" ++ [c] ++ lit "'") p
  end.

(** [None] when the loop over blanks and comments does not end. *)
Definition advance (p : t) : option t :=
  r ← skip_whitespace (S (length (rest p))) (rest p);
  Some (lex_token (set_rest r p)).

Definition is_type (ty : TokenType) (p : t) : bool := bool_decide (type (current p) = ty).

(** ** Values *)

(** The nesting loop of [skip_value]. *)
Fixpoint skip_nested (n : nat) (open close : TokenType) (depth : Z) (p : t) : option t :=
  match n with
  | O => None
  | S n' =>
      if 0 <? depth then
        p ← advance p;
        if is_type open p then skip_nested n' open close (depth + 1) p
        else if is_type close p then skip_nested n' open close (depth - 1) p
        else if is_type End_ p then Some p
        else skip_nested n' open close depth p
      else Some p
  end.

Definition skip_value (n : nat) (p : t) : option t :=
  match type (current p) with
  | ObjectStart => skip_nested n ObjectStart ObjectEnd 1 p
  | ArrayStart => skip_nested n ArrayStart ArrayEnd 1 p
  | _ => Some p
  end.

Definition read_string (p : t) : bytes := if is_type TString p then text (current p) else [].

(** The conversion to [int] truncates. *)
Definition read_int (default_val : Z) (p : t) : Z :=
  if is_type TNumber p then
    let r := Utils.strtol (text (current p)) in
    if Utils.erange r then default_val else i32 (Utils.val r)
  else default_val.

(** ** Container traversal (not used by the configuration parser) *)

Fixpoint find_key_go (n : nat) (key : bytes) (p : t) : option (bool * t) :=
  match n with
  | O => None
  | S n' =>
      if is_type TString p then
        let cur_key := text (current p) in
        p ← advance p;
        if bool_decide (cur_key = key) then p ← advance p; Some (true, p)
        else
          p ← skip_value n p;
          p ← advance p;
          p ← (if is_type Comma p then advance p else Some p);
          find_key_go n' key p
      else Some (false, p)
  end.

Definition find_key (n : nat) (key : bytes) (p : t) : option (bool * t) :=
  p ← (if is_type ObjectStart p then Some p else advance p);
  if negb (is_type ObjectStart p) then Some (false, p)
  else p ← advance p; find_key_go n key p.

Definition push_container (ty : TokenType) (p : t) : t :=
  mk (rest p) (current p) (error_msg p) (ty :: container_stack p).

Definition enter (ty : TokenType) (p : t) : option (bool * t) :=
  p ← (if is_type ty p then Some p else advance p);
  if negb (is_type ty p) then Some (false, p)
  else p ← advance (push_container ty p); Some (true, p).

Definition enter_object : t -> option (bool * t) := enter ObjectStart.
Definition enter_array : t -> option (bool * t) := enter ArrayStart.

Definition leave_container (p : t) : t :=
  mk (rest p) (current p) (error_msg p) (tail (container_stack p)).

(** ** The configuration *)

(** [if (current is Comma) advance();] *)
Definition skip_comma (p : t) : option t := if is_type Comma p then advance p else Some p.

(** A parse either fails with a message or goes on. *)
Inductive parsed (A : Type) := Failed (msg : bytes) | Parsed (a : A) (p : t).
Arguments Failed {A} _. Arguments Parsed {A} _ _.

(** The integer member a key names: its value and the update. *)
Definition int_setting (key : bytes) (c : GatewayConfig) : option (Z * (Z -> GatewayConfig)) :=
  let '(mkConfig lp ka tc bt rs ee ic pm pi mc mq md ro) := c in
  if bool_decide (key = lit "listen_port") then
    Some (lp, fun v => mkConfig v ka tc bt rs ee ic pm pi mc mq md ro)
  else if bool_decide (key = lit "keep_alive_timeout_sec") then
    Some (ka, fun v => mkConfig lp v tc bt rs ee ic pm pi mc mq md ro)
  else if bool_decide (key = lit "thread_count") then
    Some (tc, fun v => mkConfig lp ka v bt rs ee ic pm pi mc mq md ro)
  else if bool_decide (key = lit "backend_timeout_ms") then
    Some (bt, fun v => mkConfig lp ka tc v rs ee ic pm pi mc mq md ro)
  else if bool_decide (key = lit "max_request_size") then
    Some (rs, fun v => mkConfig lp ka tc bt v ee ic pm pi mc mq md ro)
  else if bool_decide (key = lit "max_epoll_events") then
    Some (ee, fun v => mkConfig lp ka tc bt rs v ic pm pi mc mq md ro)
  else if bool_decide (key = lit "idle_cleanup_interval_sec") then
    Some (ic, fun v => mkConfig lp ka tc bt rs ee v pm pi mc mq md ro)
  else if bool_decide (key = lit "pool_max_idle_per_host") then
    Some (pm, fun v => mkConfig lp ka tc bt rs ee ic v pi mc mq md ro)
  else if bool_decide (key = lit "pool_idle_timeout_sec") then
    Some (pi, fun v => mkConfig lp ka tc bt rs ee ic pm v mc mq md ro)
  else if bool_decide (key = lit "max_connections") then
    Some (mc, fun v => mkConfig lp ka tc bt rs ee ic pm pi v mq md ro)
  else if bool_decide (key = lit "max_queue_size") then
    Some (mq, fun v => mkConfig lp ka tc bt rs ee ic pm pi mc v md ro)
  else if bool_decide (key = lit "max_deferred_per_round") then
    Some (md, fun v => mkConfig lp ka tc bt rs ee ic pm pi mc mq v ro)
  else None.

Section Parser.
Variable fuel : nat.    (* for every loop *)
Variable port0 : Z.     (* the port of a default-initialised Backend *)

(** The members of a backend object (lines 434-453). *)
Fixpoint backend_members (n : nat) (b : Backend) (p : t) : option (Backend * t) :=
  match n with
  | O => None
  | S n' =>
      if is_type TString p then
        let key := text (current p) in
        p ← advance p;
        p ← advance p;
        '(b, p) ←
          (if bool_decide (key = lit "host") then Some (mkBackend (read_string p) (port b), p)
           else if bool_decide (key = lit "port") then Some (mkBackend (host b) (read_int 0 p), p)
           else p ← skip_value fuel p; Some (b, p));
        p ← advance p;
        p ← skip_comma p;
        backend_members n' b p
      else Some (b, p)
  end.

(** The backends of a route (lines 429-463). *)
Fixpoint backends_loop (n : nat) (bs : list Backend) (p : t) : option (list Backend * t) :=
  match n with
  | O => None
  | S n' =>
      if is_type ObjectStart p then
        p ← advance p;
        '(b, p) ← backend_members fuel (mkBackend [] port0) p;
        let bs := if negb (bool_decide (host b = [])) && (0 <? port b) then bs ++ [b] else bs in
        p ← skip_comma p;
        backends_loop n' bs p
      else Some (bs, p)
  end.

(** The members of a route object (lines 412-474). *)
Fixpoint route_members (n : nat) (r : Route) (p : t) : option (parsed Route) :=
  match n with
  | O => None
  | S n' =>
      if is_type TString p then
        let key := text (current p) in
        p ← advance p;
        p ← advance p;
        res ←
          (if bool_decide (key = lit "prefix") then
             Some (Parsed (mkRoute (read_string p) (backends r)) p)
           else if bool_decide (key = lit "backends") then
             if negb (is_type ArrayStart p) then Some (Failed (lit "Expected array for 'backends'"))
             else
               p ← advance p;
               '(bs, p) ← backends_loop fuel (backends r) p;
               Some (Parsed (mkRoute (prefix r) bs) p)
           else p ← skip_value fuel p; Some (Parsed r p));
        match res with
        | Failed msg => Some (Failed msg)
        | Parsed r p =>
            p ← advance p;
            p ← skip_comma p;
            route_members n' r p
        end
      else Some (Parsed r p)
  end.

(** The routes (lines 407-492). *)
Fixpoint routes_loop (n : nat) (rs : list Route) (p : t) : option (parsed (list Route)) :=
  match n with
  | O => None
  | S n' =>
      if is_type ObjectStart p then
        p ← advance p;
        res ← route_members fuel (mkRoute [] []) p;
        match res with
        | Failed msg => Some (Failed msg)
        | Parsed r p =>
            let rs := if negb (bool_decide (prefix r = [])) && negb (bool_decide (backends r = []))
                      then rs ++ [r] else rs in
            p ← advance p;
            p ← (if is_type ObjectEnd p then advance p else Some p);
            p ← skip_comma p;
            routes_loop n' rs p
        end
      else Some (Parsed rs p)
  end.

(** One top-level member, the parser at its value (lines 374-497). *)
Definition config_member (key : bytes) (c : GatewayConfig) (p : t) : option (parsed GatewayConfig) :=
  match int_setting key c with
  | Some (old, set) => Some (Parsed (set (read_int old p)) p)
  | None =>
      if bool_decide (key = lit "routes") then
        if negb (is_type ArrayStart p) then Some (Failed (lit "Expected array for 'routes'"))
        else
          p ← advance p;
          res ← routes_loop fuel (routes c) p;
          Some (match res with
                | Failed msg => Failed msg
                | Parsed rs p => Parsed (with_routes rs c) p
                end)
      else p ← skip_value fuel p; Some (Parsed c p)
  end.

(** The top-level loop (lines 368-509). *)
Fixpoint config_members (n : nat) (c : GatewayConfig) (p : t) : option (parsed GatewayConfig) :=
  match n with
  | O => None
  | S n' =>
      if is_type TString p then
        let key := text (current p) in
        p ← advance p;
        p ← advance p;
        res ← config_member key c p;
        match res with
        | Failed msg => Some (Failed msg)
        | Parsed c p =>
            p ← advance p;
            p ← skip_comma p;
            if negb (is_type TString p) && negb (is_type ObjectEnd p) then Some (Parsed c p)
            else config_members n' c p
        end
      else Some (Parsed c p)
  end.

(** [parse_config]: the configuration or the error message. *)
Definition parse_config (garbage : TokenType) (json : bytes) : option (bytes + GatewayConfig) :=
  p ← advance (create garbage json);
  if negb (is_type ObjectStart p) then Some (inl (lit "Expected root object '{'"))
  else
    p ← advance p;
    res ← config_members fuel GatewayConfig_init p;
    Some (match res with
          | Failed msg => inl msg
          | Parsed c p => match error_msg p with Some msg => inl msg | None => inr c end
          end).

(** [ConfigLoader::load_json]: the configuration and [g_last_error]. *)
Definition load_json (garbage : TokenType) (json : bytes) : option (option GatewayConfig * bytes) :=
  res ← parse_config garbage json;
  Some (match res with
        | inr c => (Some c, [])
        | inl msg => (None, if bool_decide (msg = []) then lit "Unknown parse error" else msg)
        end).

(** [ConfigLoader::load]: [file] is [None] when [fopen] fails, otherwise what [ftell]
    reports and what [fread] delivers. *)
Definition load (garbage : TokenType) (filepath : bytes) (file : option (Z * bytes)) :
    option (option GatewayConfig * bytes) :=
  match file with
  | None => Some (None, lit "Failed to open file: " ++ filepath)
  | Some (fsize, content) =>
      if fsize <=? 0 then Some (None, lit "Empty or unreadable file")
      else if negb (zlen content =? fsize) then Some (None, lit "Failed to read file content")
      else load_json garbage content
  end.

End Parser.

(** ** Texts and their tokens *)

(** The text [r] starts, behind blanks and comments, with token [k]. *)
Definition lexes1 (r : bytes) (k : Token) (r' : bytes) : Prop :=
  forall p, rest p = r -> advance p = Some (token (type k) (text k) r' p).

Inductive lexes : bytes -> list Token -> bytes -> Prop :=
  | lexes_nil r : lexes r [] r
  | lexes_cons r k r1 l r2 : lexes1 r k r1 -> lexes r1 l r2 -> lexes r (k :: l) r2.

Lemma lexes_inv r k l r2 : lexes r (k :: l) r2 -> exists r1, lexes1 r k r1 /\ lexes r1 l r2.
Proof. inversion 1; subst. by eexists. Qed.

Lemma lexes_nil_inv r r' : lexes r [] r' -> r' = r.
Proof. by inversion 1. Qed.

Lemma lexes_app r l1 l2 r2 :
  lexes r (l1 ++ l2) r2 -> exists r1, lexes r l1 r1 /\ lexes r1 l2 r2.
Proof.
  revert r; induction l1 as [|k l1 IH]; intros r; simpl; [intros H; exists r; by split; [constructor|]|].
  inversion 1 as [|? ? r1 ? ? H1 H2]; subst. destruct (IH _ H2) as (r3 & H3 & H4).
  exists r3. split; [by econstructor|done].
Qed.

Definition at_token (k : Token) (r : bytes) : t := mk r k None [].

Lemma advance_at k0 r k r' : lexes1 r k r' -> advance (at_token k0 r) = Some (at_token k r').
Proof. intros H. rewrite (H (at_token k0 r) eq_refl). by destruct k. Qed.

(** The token found does not depend on what the parser read before. *)
Lemma lex_decided r k r' :
  advance (at_token (mkToken End_ []) r) = Some (at_token k r') -> lexes1 r k r'.
Proof.
  intros H [? cur err st] Hp. simpl in Hp. subst. revert H. unfold advance. cbn [rest at_token].
  destruct (skip_whitespace _ _) as [s|]; cbn [mbind option_bind]; [|done].
  unfold lex_token. cbn [rest set_rest]. destruct s as [|c s]; [by intros [= <- <-]|].
  repeat (split_if; [repeat match goal with |- context [let '(_, _) := ?x in _] => destruct x end;
    intros [= <- <-]; done|]).
  by intros [=].
Qed.

(** Tokens of the documented structure. *)
Definition str (s : bytes) : Token := mkToken TString s.
Definition num (n : Z) : Token := mkToken TNumber (Utils.to_string n).
Definition ostart := mkToken ObjectStart (lit "{").
Definition oend := mkToken ObjectEnd (lit "}").
Definition astart := mkToken ArrayStart (lit "[").
Definition aend := mkToken ArrayEnd (lit "]").
Definition colon := mkToken Colon (lit ":").
Definition comma := mkToken Comma (lit ",").

Definition backend_tokens (b : Backend) : list Token :=
  [ostart; str (lit "host"); colon; str (host b); comma; str (lit "port"); colon; num (port b); oend].

(** A route up to its first backend. *)
Definition route_head (pfx : bytes) : list Token :=
  [ostart; str (lit "prefix"); colon; str pfx; comma; str (lit "backends"); colon; astart].

Definition route_tokens (r : bytes * Backend) : list Token :=
  route_head r.1 ++ backend_tokens r.2 ++ [aend; oend].

Fixpoint routes_tokens (rs : list (bytes * Backend)) : list Token :=
  match rs with
  | [] => [aend]
  | x :: rs' => route_tokens x ++ match rs' with [] => [aend] | _ => comma :: routes_tokens rs' end
  end.

Inductive member := Setting (key : bytes) (v : Z) | Routes (rs : list (bytes * Backend)).

Definition member_tokens (m : member) : list Token :=
  match m with
  | Setting k v => [str k; colon; num v]
  | Routes rs => [str (lit "routes"); colon; astart] ++ routes_tokens rs
  end.

Fixpoint members_tokens (ms : list member) : list Token :=
  match ms with
  | [] => [oend]
  | m :: ms' => member_tokens m ++ match ms' with [] => [oend] | _ => comma :: members_tokens ms' end
  end.

(** ** How tokens are spelled

    A grammar of the texts, without reference to the lexer. *)

(** What may stand in front of a token: blanks, comments to the end of the line, and
    block comments, which end with their first asterisk and slash. *)
Inductive gap : bytes -> Prop :=
  | gap_none : gap []
  | gap_blank c g : c ∈ [SP; TAB; LF; CR] -> gap g -> gap (c :: g)
  | gap_line txt g : LF ∉ txt -> gap g -> gap (lit "//" ++ txt ++ LF :: g)
  | gap_block txt g :
      (forall a b, txt ++ lit "*" <> a ++ lit "*/" ++ b) -> gap g -> gap (lit "/*" ++ txt ++ lit "*/" ++ g).

Definition qt : bytes := ["034"%char].

(** One character of a string and the ways to write it. *)
Inductive spells_char : ascii -> bytes -> Prop :=
  | spells_plain c : c ∉ qt ++ lit "\" -> spells_char c [c]
  | spells_quote : spells_char "034" (lit "\" ++ qt)
  | spells_backslash : spells_char "\" (lit "\\")
  | spells_slash : spells_char "/" (lit "\/")
  | spells_newline : spells_char LF (lit "\n")
  | spells_tab : spells_char TAB (lit "\t")
  | spells_return : spells_char CR (lit "\r").

Inductive spells_chars : bytes -> bytes -> Prop :=
  | spells_nil : spells_chars [] []
  | spells_cons c e cs t : spells_char c e -> spells_chars cs t -> spells_chars (c :: cs) (e ++ t).

Inductive spells : Token -> bytes -> Prop :=
  | spells_mark k : k ∈ [ostart; oend; astart; aend; colon; comma] -> spells k (text k)
  | spells_string s t : spells_chars s t -> spells (str s) (qt ++ t ++ qt)
  | spells_number n : 0 <= n -> spells (num n) (Utils.to_string n).

(** A number ends where no digit and no point follows. *)
Definition ends (k : Token) (r : bytes) : Prop :=
  type k = TNumber -> match r with [] => True | c :: _ => c ∉ lit "0123456789." end.

(** The text spells the tokens; what is behind the last one does not matter. *)
Inductive spelled : list Token -> bytes -> Prop :=
  | spelled_nil r : spelled [] r
  | spelled_cons k l g t r : gap g -> spells k t -> ends k r -> spelled l r -> spelled (k :: l) (g ++ t ++ r).

(** *** The lexer finds the tokens *)

Lemma skip_line_over txt g : LF ∉ txt -> skip_line (txt ++ LF :: g) = LF :: g.
Proof.
  induction txt as [|c txt IH]; intros Hn; [done|]. cbn [app skip_line].
  destruct (Ascii.eqb_spec c LF) as [->|Hc]; [destruct Hn; left|]. apply IH. intros H. apply Hn. by right.
Qed.

Lemma skip_block_over txt g :
  (forall a b, txt ++ lit "*" <> a ++ lit "*/" ++ b) -> skip_block (txt ++ lit "*/" ++ g) = g.
Proof.
  induction txt as [|c txt IH]; intros Hn; [done|].
  assert (IH' : skip_block (txt ++ lit "*/" ++ g) = g).
  { apply IH. intros a b E. exact (Hn (c :: a) b (f_equal (cons c) E)). }
  assert (Hd : exists d r, txt ++ lit "*/" ++ g = d :: r /\ (Ascii.eqb c "*" && Ascii.eqb d "/") = false).
  { destruct txt as [|d txt]; [exists "*"%char, ("/"%char :: g); split; [done|apply andb_false_r]|].
    exists d, (txt ++ lit "*/" ++ g). split; [done|]. apply andb_false_iff.
    destruct (Ascii.eqb_spec c "*") as [->|]; [right|by left]. apply Ascii.eqb_neq. intros ->.
    by apply (Hn [] (txt ++ lit "*")). }
  destruct Hd as (d & r & E & Hb). cbn [app]. rewrite E in *. cbn [skip_block]. rewrite Hb. exact IH'.
Qed.

Lemma blank_in c : c ∈ [SP; TAB; LF; CR] -> is_blank c = true.
Proof. intros H. by repeat (apply elem_of_cons in H as [->|H]; [reflexivity|]); apply elem_of_nil in H. Qed.

(** Fuel for every byte of the gap is enough. *)
Lemma skip_gap g c r n :
  gap g -> is_blank c = false -> c <> "/"%char -> (length g < n)%nat ->
  skip_whitespace n (g ++ c :: r) = Some (c :: r).
Proof.
  intros Hg Hc Hs. revert n. induction Hg as [|b g Hb _ IH|txt g Ht _ IH|txt g Ht _ IH]; intros n Hn;
    (destruct n as [|n]; [lia|]).
  - cbn [app skip_whitespace]. rewrite Hc. by rewrite (proj2 (Ascii.eqb_neq c "/") Hs).
  - cbn [app skip_whitespace]. rewrite (blank_in b Hb). apply IH. cbn in Hn. lia.
  - rewrite <- !app_assoc. cbn [app skip_whitespace lit String.list_ascii_of_string].
    change (is_blank "/"%char) with false. change (Ascii.eqb "/"%char "/"%char) with true. cbv iota.
    assert (E : skip_comment ("/"%char :: "/"%char :: txt ++ LF :: g ++ c :: r) = LF :: g ++ c :: r).
    { cbn [skip_comment skip_line]. by apply skip_line_over. }
    rewrite E. rewrite !length_app in Hn. cbn in Hn. destruct n as [|n]; [lia|]. cbn [skip_whitespace].
    change (is_blank LF) with true. cbv iota. apply IH. lia.
  - rewrite <- !app_assoc. cbn [app skip_whitespace lit String.list_ascii_of_string].
    change (is_blank "/"%char) with false. change (Ascii.eqb "/"%char "/"%char) with true. cbv iota.
    assert (E : skip_comment ("/"%char :: "*"%char :: txt ++ "*"%char :: "/"%char :: g ++ c :: r) = g ++ c :: r).
    { cbn [skip_comment]. apply (skip_block_over txt (g ++ c :: r) Ht). }
    rewrite E. apply IH. rewrite !length_app in Hn. cbn in Hn. lia.
Qed.

Lemma lex_string_over s t r acc : spells_chars s t -> lex_string (t ++ qt ++ r) acc = (acc ++ s, r).
Proof.
  intros Hs. revert acc. induction Hs as [|c e cs t He _ IH]; intros acc; [cbn; by rewrite app_nil_r|].
  assert (E : lex_string ((e ++ t) ++ qt ++ r) acc = lex_string (t ++ qt ++ r) (acc ++ [c])).
  { rewrite <- app_assoc. destruct He as [c Hc| | | | | |]; try reflexivity.
    change (c ∉ ["034"%char; "\"%char]) in Hc. rewrite !not_elem_of_cons in Hc. destruct Hc as (H1 & H2 & _).
    apply Ascii.eqb_neq in H1, H2. cbn [app lex_string]. by rewrite H1, H2. }
  rewrite E, IH. by rewrite <- app_assoc.
Qed.

Lemma lex_while_over p d r acc :
  Forall (fun c => p c = true) d -> match r with [] => True | c :: _ => p c = false end ->
  lex_while p (d ++ r) acc = (acc ++ d, r).
Proof.
  intros Hd Hr. revert acc. induction Hd as [|c d Hc _ IH]; intros acc.
  - cbn [app]. rewrite app_nil_r. destruct r as [|c r]; [done|]. cbn. by rewrite Hr.
  - cbn [app lex_while]. rewrite Hc, IH. by rewrite <- app_assoc.
Qed.

Lemma number_char_iff c : number_char c = true <-> c ∈ lit "0123456789.".
Proof.
  split; [|intros H; by repeat (apply elem_of_cons in H as [->|H]; [reflexivity|]); apply elem_of_nil in H].
  intros H. apply (bool_decide_unpack _). revert H. destruct c as [[] [] [] [] [] [] [] []]; vm_compute; done.
Qed.

(** A token is found behind its gap. *)
Lemma advance_over g c r p k r' :
  gap g -> is_blank c = false -> c <> "/"%char ->
  (forall p, rest p = c :: r -> lex_token p = token (type k) (text k) r' p) ->
  rest p = g ++ c :: r -> advance p = Some (token (type k) (text k) r' p).
Proof.
  intros Hg Hc Hs Hk Hp. unfold advance. rewrite Hp, (skip_gap g c r) by (try done; rewrite length_app; lia).
  cbn [mbind option_bind]. by rewrite (Hk (set_rest (c :: r) p) eq_refl).
Qed.

Lemma spells_lexes g k t r : gap g -> spells k t -> ends k r -> lexes1 (g ++ t ++ r) k r.
Proof.
  intros Hg Hk He p Hp. destruct Hk as [k Hm|s t Hs|n Hn].
  - assert (exists c ty, k = mkToken ty [c] /\ is_blank c = false /\ c <> "/"%char /\
      forall p, rest p = c :: r -> lex_token p = token ty [c] r p) as (c & ty & -> & Hb & Hs & Hl).
    { repeat (apply elem_of_cons in Hm as [->|Hm];
        [do 2 eexists; split_and!; [reflexivity|reflexivity|discriminate|]; intros q Hq; unfold lex_token; by rewrite Hq|]).
      by apply elem_of_nil in Hm. }
    by apply (advance_over g c r).
  - apply (advance_over g "034"%char ((t ++ qt) ++ r)); [done|done|done| |done].
    intros q Hq. unfold lex_token. rewrite Hq.
    assert (E : lex_string ((t ++ qt) ++ r) [] = (s, r)) by (rewrite <- app_assoc; by apply (lex_string_over s t r [])).
    rewrite E. reflexivity.
  - rewrite Utils.to_string_nonneg in * by done. pose proof (Utils.dec_nonneg_isdigit n Hn) as Hd.
    pose proof (Utils.dec_nonneg_nonempty n) as Hne. unfold num in *. rewrite Utils.to_string_nonneg in * by done.
    destruct (Utils.dec_nonneg n) as [|c d]; [done|]. apply Forall_cons in Hd as [Hc Hd].
    assert (E : lex_while number_char ((c :: d) ++ r) [] = (c :: d, r)).
    { apply (lex_while_over number_char (c :: d) r []).
      - apply Forall_cons. split; [by unfold number_char; rewrite Hc|]. eapply Forall_impl; [exact Hd|].
        intros x Hx. unfold number_char. by rewrite Hx.
      - specialize (He eq_refl). destruct r as [|x r]; [done|]. apply not_true_iff_false. by rewrite number_char_iff. }
    apply (advance_over g c (d ++ r)); [done| | | |done]; [by destruct c as [[] [] [] [] [] [] [] []]|by intros ->|].
    intros q Hq. unfold lex_token. rewrite Hq. cbn [app] in E. rewrite E, Hc. revert Hc. clear.
    destruct c as [[] [] [] [] [] [] [] []]; try done.
Qed.

Lemma spelled_lexes toks r : spelled toks r -> exists r', lexes r toks r'.
Proof.
  induction 1 as [r|k l g t r Hg Hk He _ [r' IH]]; [exists r; constructor|].
  exists r'. apply lexes_cons with r; [by apply spells_lexes|done].
Qed.

(** *** A text for every list of tokens *)

Definition escape (c : ascii) : bytes :=
  if bool_decide (c ∈ qt ++ lit "\") then lit "\" ++ [c]
  else if bool_decide (c = LF) then lit "\n" else if bool_decide (c = TAB) then lit "\t"
  else if bool_decide (c = CR) then lit "\r" else [c].

Definition render_token (k : Token) : bytes :=
  match type k with TString => qt ++ (text k ≫= escape) ++ qt | _ => text k end.

Definition render (g : bytes) (toks : list Token) : bytes := toks ≫= (fun k => g ++ render_token k).

Definition writable (k : Token) : Prop :=
  k ∈ [ostart; oend; astart; aend; colon; comma] \/ (exists s, k = str s) \/ exists n, 0 <= n /\ k = num n.

Lemma escape_spells s : spells_chars s (s ≫= escape).
Proof.
  induction s as [|c s IH]; [constructor|]. change ((c :: s) ≫= escape) with (escape c ++ (s ≫= escape)).
  constructor; [|done]. unfold escape. repeat split_if; try (subst; constructor; fail); [|by constructor].
  match goal with H : c ∈ _ |- _ => cbn in H; apply elem_of_cons in H as [->|H]; [constructor|];
    apply list_elem_of_singleton in H as ->; constructor end.
Qed.

Lemma render_token_spells k : writable k -> spells k (render_token k).
Proof.
  intros [Hm|[[s ->]|(n & Hn & ->)]]; [|constructor; apply escape_spells|by constructor].
  assert (E : render_token k = text k).
  { repeat (apply elem_of_cons in Hm as [->|Hm]; [reflexivity|]). by apply elem_of_nil in Hm. }
  rewrite E. by constructor.
Qed.

Lemma gap_ends g k r : gap g -> g <> [] -> ends k (g ++ r).
Proof.
  intros Hg Hne _. destruct Hg as [|c g Hc _|txt g _ _|txt g _ _]; cbn; try done.
  - intros H. apply number_char_iff in H. by repeat (apply elem_of_cons in Hc as [->|Hc]; [done|]); apply elem_of_nil in Hc.
  - rewrite <- number_char_iff. done.
  - rewrite <- number_char_iff. done.
Qed.

Lemma render_spelled g toks : gap g -> g <> [] -> Forall writable toks -> spelled toks (render g toks).
Proof.
  intros Hg Hne. induction 1 as [|k toks Hk _ IH]; [constructor|]. unfold render in *. cbn [mbind list_bind].
  rewrite <- app_assoc. constructor; [done|by apply render_token_spells| |done].
  destruct toks as [|k' toks]; [by destruct k as [[] ?]|]. cbn [mbind list_bind]. rewrite <- app_assoc. by apply gap_ends.
Qed.


(** ** Running the parser over tokens *)

Ltac lex_inv :=
  repeat match goal with
  | H : lexes _ (_ :: _) _ |- _ => apply lexes_inv in H as (? & ? & H)
  | H : lexes _ [] ?r' |- _ => apply lexes_nil_inv in H; subst r'
  end.

(** Evaluate the tests of the parser and take the tokens from the hypotheses. *)
Ltac json_step :=
  match goal with
  | |- context [is_type ?ty (at_token ?k ?r)] =>
      let b := eval vm_compute in (is_type ty (at_token k r)) in
      change (is_type ty (at_token k r)) with b
  | |- context [text (current (at_token ?k ?r))] =>
      change (text (current (at_token k r))) with (text k)
  | |- context [text (str ?s)] => change (text (str s)) with s
  | |- context [bool_decide (?a = lit ?b)] =>
      let v := eval vm_compute in (bool_decide (a = lit b)) in
      lazymatch v with
      | true => change (bool_decide (a = lit b)) with true
      | false => change (bool_decide (a = lit b)) with false
      end
  | H : lexes1 ?r ?k ?r' |- context [advance (at_token ?k0 ?r)] => rewrite (advance_at k0 r k r' H)
  | _ => progress cbn [mbind option_bind negb andb]
  | |- context [skip_comma (at_token ?k ?r)] => unfold skip_comma
  end.

Lemma read_string_at s r : read_string (at_token (str s) r) = s.
Proof. done. Qed.

Lemma read_int_at d n r : 0 <= n <= INT_MAX -> read_int d (at_token (num n) r) = n.
Proof.
  intros Hn. unfold read_int. change (is_type TNumber (at_token (num n) r)) with true. cbv iota zeta.
  cbn [text current at_token num]. rewrite Utils.to_string_nonneg by lia.
  rewrite <- (app_nil_r (Utils.dec_nonneg n)).
  rewrite Utils.strtol_dec; [|unfold INT_MAX, LONG_MAX in *; lia|done].
  simpl. apply i32_small. unfold INT_MAX in *. lia.
Qed.

Definition backend_ok (b : Backend) : Prop := host b <> [] /\ 0 < port b <= INT_MAX.

Section Tokens.
Variables (fuel : nat) (port0 : Z).

Lemma backend_members_ok n b b0 r r' :
  (3 <= n)%nat -> 0 <= port b <= INT_MAX ->
  lexes r (drop 2 (backend_tokens b)) r' ->
  backend_members fuel n b0 (at_token (str (lit "host")) r) = Some (b, at_token oend r').
Proof.
  intros Hn Hp Hl. cbn [backend_tokens drop] in Hl. lex_inv.
  destruct n as [|[|[|n]]]; [lia..|]. cbn [backend_members]. repeat json_step.
  rewrite read_string_at, read_int_at by done. cbn [host port]. by destruct b.
Qed.

Lemma backends_loop_ok n b bs r r' :
  (2 <= n)%nat -> (3 <= fuel)%nat -> backend_ok b -> lexes r (drop 1 (backend_tokens b)) r' ->
  backends_loop fuel port0 n bs (at_token ostart r) = Some (bs ++ [b], at_token oend r').
Proof.
  intros Hn Hf [Hh Hp] Hl. apply lexes_inv in Hl as (r1 & H1 & H2).
  destruct n as [|[|n]]; [lia..|]. cbn [backends_loop]. repeat json_step.
  rewrite (backend_members_ok fuel b _ r1 r'); [|lia|lia|done]. repeat json_step.
  rewrite bool_decide_eq_false_2 by done. destruct (Z.ltb_spec 0 (port b)); [|lia].
  by repeat json_step.
Qed.

(** A route object read up to what follows its first backend. *)
Lemma route_members_first n x k r r' more :
  (3 <= n)%nat -> (3 <= fuel)%nat -> backend_ok x.2 ->
  (more = [k] /\ k = aend \/ more = [comma; k] /\ k = ostart) ->
  lexes r (drop 2 (route_head x.1) ++ backend_tokens x.2 ++ more) r' ->
  route_members fuel port0 n (mkRoute [] []) (at_token (str (lit "prefix")) r)
  = Some (Parsed (mkRoute x.1 [x.2]) (at_token k r')).
Proof.
  destruct x as [pfx b]. cbn [fst snd]. intros Hn Hf Hb Hk Hl.
  apply lexes_app in Hl as (r1 & Hh & Hl). apply lexes_app in Hl as (r2 & Hbk & Ha).
  assert (exists r3, lexes1 r1 ostart r3 /\ lexes r3 (drop 1 (backend_tokens b)) r2)
    as (r3 & Hos & Hbk') by (apply lexes_inv in Hbk; exact Hbk).
  clear Hbk. cbn [route_head drop] in Hh.
  destruct Hk as [[-> ->]|[-> ->]]; lex_inv;
    (destruct n as [|[|[|n]]]; [lia..|]); cbn [route_members]; repeat json_step;
    (rewrite (backends_loop_ok fuel b _ r3 r2); [|lia|lia|done|exact Hbk']);
    repeat json_step; by rewrite read_string_at.
Qed.

Definition to_route (x : bytes * Backend) : Route := mkRoute x.1 [x.2].
Definition route_ok (x : bytes * Backend) : Prop := x.1 <> [] /\ backend_ok x.2.

Lemma routes_loop_ok n rs acc k l r r' :
  (S (length rs) <= n)%nat -> (3 <= fuel)%nat -> Forall route_ok rs ->
  routes_tokens rs = k :: l -> lexes r l r' ->
  routes_loop fuel port0 n acc (at_token k r)
  = Some (Parsed (acc ++ (to_route <$> rs)) (at_token aend r')).
Proof.
  revert n acc k l r. induction rs as [|x rs IH]; intros n acc k l r Hn Hf Hok Ht Hl.
  { injection Ht as <- <-. destruct n as [|n]; [simpl in Hn; lia|]. lex_inv.
    cbn [routes_loop]. repeat json_step. by rewrite app_nil_r. }
  apply Forall_cons in Hok as [[Hpx Hb] Hok]. cbn [routes_tokens] in Ht.
  set (after := match rs with [] => [aend] | _ => comma :: routes_tokens rs end) in *.
  assert (k = ostart /\ l = str (lit "prefix") ::
    (drop 2 (route_head x.1) ++ backend_tokens x.2 ++ [aend]) ++ oend :: after) as [-> ->].
  { unfold route_tokens in Ht. cbn [route_head app] in Ht. injection Ht as <- <-. split; [done|].
    by rewrite <- !app_assoc. }
  apply lexes_inv in Hl as (r1 & H1 & Hl').
  apply lexes_app in Hl' as (r2 & Hr & Hl'). apply lexes_inv in Hl' as (r3 & H3 & Hl3).
  destruct n as [|n]; [lia|]. cbn [routes_loop]. repeat json_step.
  rewrite (route_members_first fuel x aend r1 r2 [aend]); [|lia|lia|done|by left|done]. repeat json_step.
  cbn [prefix backends]. rewrite bool_decide_eq_false_2 by done. cbn [negb andb].
  rewrite bool_decide_eq_false_2 by done. cbn [negb].
  change (mkRoute x.1 [x.2]) with (to_route x). rewrite fmap_cons.
  destruct rs as [|y rs].
  - unfold after in Hl3. lex_inv. destruct n as [|n]; [simpl in Hn; lia|]. repeat json_step.
    cbn [routes_loop]. by repeat json_step.
  - unfold after in Hl3. apply lexes_inv in Hl3 as (r4 & H4 & Hl4). repeat json_step.
    destruct (routes_tokens (y :: rs)) as [|k' l'] eqn:Ey; [by cbn in Ey|].
    apply lexes_inv in Hl4 as (r5 & H5 & Hl5). rewrite (advance_at _ _ _ _ H5). cbn [mbind option_bind].
    rewrite (IH n _ k' l' r5); [|simpl in *; lia|done|done|done|done].
    by rewrite <- app_assoc.
Qed.

Definition apply_member (c : GatewayConfig) (m : member) : GatewayConfig :=
  match m with
  | Setting k v => match int_setting k c with Some (_, set) => set v | None => c end
  | Routes rs => with_routes (routes c ++ (to_route <$> rs)) c
  end.

Definition member_ok (m : member) : Prop :=
  match m with
  | Setting k v => is_Some (int_setting k GatewayConfig_init) /\ 0 <= v <= INT_MAX
  | Routes rs => Forall route_ok rs /\ (S (length rs) <= fuel)%nat
  end.

Lemma int_setting_known k c c' : is_Some (int_setting k c) -> is_Some (int_setting k c').
Proof.
  destruct c, c'. unfold int_setting. intros [x Hx].
  repeat (split_if; [by eexists|]). done.
Qed.

Lemma config_members_ok n ms c k l r r' :
  (S (length ms) <= n)%nat -> (3 <= fuel)%nat -> Forall member_ok ms ->
  members_tokens ms = k :: l -> lexes r l r' ->
  config_members fuel port0 n c (at_token k r)
  = Some (Parsed (foldl apply_member c ms) (at_token oend r')).
Proof.
  revert n c k l r. induction ms as [|m ms IH]; intros n c k l r Hn Hf Hok Ht Hl.
  { injection Ht as <- <-. destruct n as [|n]; [simpl in Hn; lia|]. lex_inv.
    cbn [config_members]. by repeat json_step. }
  apply Forall_cons in Hok as [Hm Hok]. cbn [members_tokens] in Ht.
  set (after := match ms with [] => [oend] | _ => comma :: members_tokens ms end) in *.
  destruct n as [|n]; [lia|]. cbn [length] in Hn.
  assert (forall c1 k1 r2, lexes r2 after r' ->
    (p ← advance (at_token k1 r2);
     p ← skip_comma p;
     if negb (is_type TString p) && negb (is_type ObjectEnd p) then Some (Parsed c1 p)
     else config_members fuel port0 n c1 p)
    = Some (Parsed (foldl apply_member c1 ms) (at_token oend r'))) as Hafter.
  { intros c1 k1 r2 Ha. destruct ms as [|m' ms]; unfold after in Ha.
    - destruct n as [|n]; [lia|]. lex_inv. repeat json_step. cbn [config_members]. by repeat json_step.
    - apply lexes_inv in Ha as (r3 & H3 & Ha). repeat json_step.
      destruct (members_tokens (m' :: ms)) as [|k2 l2] eqn:E2; [by destruct m'|].
      apply lexes_inv in Ha as (r4 & H4 & Ha). rewrite (advance_at _ _ _ _ H4). cbn [mbind option_bind].
      assert (is_type TString (at_token k2 r4) = true) as ->
        by (destruct m'; cbn [members_tokens member_tokens app] in E2; injection E2 as <- <-; reflexivity).
      cbn [negb andb]. apply (IH n c1 k2 l2 r4); [lia|done..]. }
  destruct m as [key v|rs]; cbn [member_tokens app] in Ht; injection Ht as <- <-.
  - destruct Hm as [Hk Hv]. lex_inv. cbn [config_members]. repeat json_step.
    unfold config_member. destruct (int_setting_known key _ c Hk) as [[old set] Hs]. rewrite Hs.
    cbn [mbind option_bind]. rewrite read_int_at by done. rewrite Hafter by done.
    cbn [foldl apply_member]. by rewrite Hs.
  - destruct Hm as [Hrs Hlen]. apply lexes_inv in Hl as (r1 & H1 & Hl).
    apply lexes_inv in Hl as (r2 & H2 & Hl). apply lexes_app in Hl as (r3 & Hr & Ha).
    cbn [config_members]. repeat json_step. unfold config_member.
    match goal with |- context [int_setting ?k c] =>
      assert (int_setting k c = None) as -> by (by destruct c) end.
    repeat json_step.
    destruct (routes_tokens rs) as [|k2 l2] eqn:E2; [by destruct rs|].
    apply lexes_inv in Hr as (r4 & H4 & Hr). rewrite (advance_at _ _ _ _ H4). cbn [mbind option_bind].
    rewrite (routes_loop_ok fuel rs _ k2 l2 r4 r3); [|done|done|done|done|done].
    cbn [mbind option_bind]. by rewrite Hafter.
Qed.

Lemma load_json_tokens garbage ms r r' :
  (S (length ms) <= fuel)%nat -> (3 <= fuel)%nat -> Forall member_ok ms ->
  lexes r (ostart :: members_tokens ms) r' ->
  load_json fuel port0 garbage r = Some (Some (foldl apply_member GatewayConfig_init ms), []).
Proof.
  intros Hn Hf Hok Hl. apply lexes_inv in Hl as (r1 & H1 & Hl).
  unfold load_json, parse_config. change (create garbage r) with (at_token (mkToken garbage []) r).
  repeat json_step. destruct (members_tokens ms) as [|k l] eqn:E; [by destruct ms as [|[] ?]|].
  apply lexes_inv in Hl as (r2 & H2 & Hl). rewrite (advance_at _ _ _ _ H2). cbn [mbind option_bind].
  by rewrite (config_members_ok fuel ms _ k l r2 r').
Qed.

(** The configuration in the documented order. *)
Definition members_of (c : GatewayConfig) (rs : list (bytes * Backend)) : list member :=
  [Setting (lit "listen_port") (listen_port c);
   Setting (lit "keep_alive_timeout_sec") (keep_alive_timeout_sec c);
   Setting (lit "thread_count") (thread_count c);
   Setting (lit "backend_timeout_ms") (backend_timeout_ms c);
   Setting (lit "max_request_size") (max_request_size c);
   Setting (lit "max_epoll_events") (max_epoll_events c);
   Setting (lit "idle_cleanup_interval_sec") (idle_cleanup_interval_sec c);
   Setting (lit "pool_max_idle_per_host") (pool_max_idle_per_host c);
   Setting (lit "pool_idle_timeout_sec") (pool_idle_timeout_sec c);
   Setting (lit "max_connections") (max_connections c);
   Setting (lit "max_queue_size") (max_queue_size c);
   Setting (lit "max_deferred_per_round") (max_deferred_per_round c);
   Routes rs].

Definition in_int_range (c : GatewayConfig) : Prop :=
  Forall (fun v => 0 <= v <= INT_MAX)
    [listen_port c; keep_alive_timeout_sec c; thread_count c; backend_timeout_ms c; max_request_size c;
     max_epoll_events c; idle_cleanup_interval_sec c; pool_max_idle_per_host c; pool_idle_timeout_sec c;
     max_connections c; max_queue_size c; max_deferred_per_round c].

(** C33. A configuration whose routes have one backend each round-trips: any text
    that spells its settings and routes in the documented structure loads as exactly that
    configuration, whatever blanks, tabs, line ends, line comments and block comments stand
    between the tokens, however the characters of a string are escaped, and whatever follows
    the closing brace.  [spelled] is the grammar of these texts and does not mention the
    lexer. *)
Theorem config_roundtrip (garbage : TokenType) (c : GatewayConfig) (rs : list (bytes * Backend)) (json : bytes) :
  in_int_range c -> Forall route_ok rs -> routes c = to_route <$> rs ->
  (14 + length rs <= fuel)%nat ->
  spelled (ostart :: members_tokens (members_of c rs)) json ->
  load_json fuel port0 garbage json = Some (Some c, []).
Proof.
  intros Hc Hrs Hr Hf Hl. apply spelled_lexes in Hl as [end_ Hl].
  rewrite (load_json_tokens garbage (members_of c rs) json end_); [| | | |done].
  - destruct c. cbn in Hr. by subst.
  - simpl. lia.
  - lia.
  - unfold in_int_range in Hc. repeat (apply Forall_cons in Hc as [? Hc]).
    repeat (apply Forall_cons; split; [split; [by eexists|done]|]).
    apply Forall_cons. split; [|done]. split; [done|lia].
Qed.

Definition setting_tokens (settings : list (bytes * Z)) : list Token :=
  concat ((fun kv => [str kv.1; colon; num kv.2; comma]) <$> settings).

Definition settings_ok (settings : list (bytes * Z)) : Prop :=
  Forall (fun kv => is_Some (int_setting kv.1 GatewayConfig_init) /\ 0 <= kv.2 <= INT_MAX) settings.

Definition apply_settings (c : GatewayConfig) (settings : list (bytes * Z)) : GatewayConfig :=
  foldl (fun c kv => apply_member c (Setting kv.1 kv.2)) c settings.

Lemma settings_step settings n c s k0 l0 r r2 :
  settings_ok settings -> setting_tokens settings ++ [str s] = k0 :: l0 -> lexes r l0 r2 ->
  config_members fuel port0 (length settings + n) c (at_token k0 r)
  = config_members fuel port0 n (apply_settings c settings) (at_token (str s) r2).
Proof.
  intros Hok. revert c k0 l0 r. induction Hok as [|[key v] settings [Hk Hv] _ IH]; intros c k0 l0 r Ht Hl.
  { injection Ht as <- <-. by lex_inv. }
  cbn [fst snd] in *. unfold setting_tokens in Ht. rewrite fmap_cons in Ht. cbn [concat fst snd app] in Ht.
  injection Ht as <- <-. apply lexes_inv in Hl as (r3 & H3 & Hl). apply lexes_inv in Hl as (r4 & H4 & Hl).
  apply lexes_inv in Hl as (r5 & H5 & Hl). cbn [length Nat.add config_members]. repeat json_step.
  unfold config_member. destruct (int_setting_known key _ c Hk) as [[old set] Hs]. rewrite Hs.
  cbn [mbind option_bind]. rewrite read_int_at by done. repeat json_step.
  fold (setting_tokens settings) in Hl.
  destruct (setting_tokens settings ++ [str s]) as [|k1 l1] eqn:E1; [by destruct (setting_tokens settings)|].
  apply lexes_inv in Hl as (r6 & H6 & Hl). rewrite (advance_at _ _ _ _ H6). cbn [mbind option_bind].
  assert (is_type TString (at_token k1 r6) = true) as ->.
  { destruct settings as [|[? ?] ?]; cbn [setting_tokens concat fmap list_fmap app] in E1;
      injection E1 as <- _; reflexivity. }
  cbn [negb andb]. rewrite (IH _ k1 l1 r6) by done. f_equal. cbn [apply_settings foldl fst snd apply_member].
  unfold apply_settings. cbn [foldl fst snd apply_member]. by rewrite Hs.
Qed.

(** A second backend ends the load early and silently: when a route lists
    another backend behind its first one, the loader succeeds with the settings
    read so far and that route with its first backend alone, whatever the rest of
    the text says; the other backends, the routes and the settings behind it are
    dropped. *)
Theorem second_backend_dropped (garbage : TokenType) (settings : list (bytes * Z)) (pfx : bytes)
    (b : Backend) (key json ignored : bytes) :
  settings_ok settings -> pfx <> [] -> backend_ok b -> (4 + length settings <= fuel)%nat ->
  lexes json
    (ostart :: (setting_tokens settings ++ [str (lit "routes")]) ++ [colon; astart]
       ++ route_head pfx ++ backend_tokens b ++ [comma; ostart; str key; colon]) ignored ->
  load_json fuel port0 garbage json
  = Some (Some (with_routes [mkRoute pfx [b]] (apply_settings GatewayConfig_init settings)), []).
Proof.
  intros Hset Hpx Hb Hf Hl. apply lexes_inv in Hl as (r0 & H0 & Hl).
  unfold load_json, parse_config. change (create garbage json) with (at_token (mkToken garbage []) json).
  repeat json_step. apply lexes_app in Hl as (r1 & Hs & Hl).
  destruct (setting_tokens settings ++ [str (lit "routes")]) as [|k l] eqn:E;
    [by destruct (setting_tokens settings)|].
  apply lexes_inv in Hs as (r2 & H2 & Hs). rewrite (advance_at _ _ _ _ H2). cbn [mbind option_bind].
  destruct (Nat.le_exists_sub (length settings + 1) fuel) as (n & En & _); [lia|].
  assert (fuel = length settings + S n)%nat as En' by lia.
  rewrite En' at 2. rewrite (settings_step settings (S n) _ (lit "routes") k l r2 r1) by done.
  set (c := apply_settings _ _).
  assert (routes c = []) as Hrc.
  { subst c. unfold apply_settings.
    assert (forall c0, routes c0 = [] ->
      routes (foldl (fun c kv => apply_member c (Setting kv.1 kv.2)) c0 settings) = []) as Hg; [|by apply Hg].
    clear. induction settings as [|[ky v] settings IH]; intros c0 H0; [done|]. cbn [foldl]. apply IH.
    cbn [apply_member fst snd]. destruct c0. unfold int_setting. repeat (split_if; [done|]). done. }
  replace ([colon; astart] ++ route_head pfx ++ backend_tokens b ++ [comma; ostart; str key; colon])
    with (colon :: astart :: ostart :: str (lit "prefix") ::
      (drop 2 (route_head pfx) ++ backend_tokens b ++ [comma; ostart]) ++ [str key; colon]) in Hl
    by (cbn [route_head drop app]; by rewrite <- !app_assoc).
  do 4 (apply lexes_inv in Hl as (? & ? & Hl)). apply lexes_app in Hl as (r13 & Hr & Hl). lex_inv.
  cbn [config_members]. repeat json_step. unfold config_member.
  match goal with |- context [int_setting ?k c] =>
    assert (int_setting k c = None) as -> by (by destruct c) end.
  repeat json_step. rewrite Hrc.
  assert (exists f, fuel = S (S f)) as [f Ef] by (exists (fuel - 2)%nat; lia).
  match goal with |- context [routes_loop fuel port0 fuel] => rewrite Ef at 2 end.
  cbn [routes_loop]. repeat json_step.
  erewrite (route_members_first fuel (pfx, b) ostart _ r13 [comma; ostart]);
    [|lia|lia|done|by right|exact Hr].
  repeat json_step. cbn [prefix backends fst snd]. rewrite bool_decide_eq_false_2 by done. cbn [negb andb].
  rewrite bool_decide_eq_false_2 by done. cbn [negb app]. by repeat json_step.
Qed.

End Tokens.

(** ** Texts on which the loader does not return *)

Lemma skip_whitespace_slash fuel x r :
  x <> "/"%char -> x <> "*"%char -> skip_whitespace fuel ("/"%char :: x :: r) = None.
Proof.
  intros H1 H2. induction fuel as [|fuel IH]; [done|]. cbn [skip_whitespace].
  change (is_blank "/"%char) with false. change (Ascii.eqb "/"%char "/"%char) with true. cbv iota.
  assert (skip_comment ("/"%char :: x :: r) = "/"%char :: x :: r) as ->; [|done].
  unfold skip_comment. destruct x as [[] [] [] [] [] [] [] []]; done.
Qed.

Lemma skip_whitespace_blanks fuel ws r :
  Forall (fun c => is_blank c = true) ws -> skip_whitespace fuel r = None ->
  skip_whitespace fuel (ws ++ r) = None.
Proof.
  intros Hws. revert fuel. induction Hws as [|c ws Hc _ IH]; intros fuel Hr; [done|].
  destruct fuel as [|fuel]; [done|]. cbn [app skip_whitespace]. rewrite Hc. apply IH.
  destruct (skip_whitespace fuel r) as [s|] eqn:E; [|done].
  assert (skip_whitespace (S fuel) r = Some s) as F; [|congruence].
  clear - E. revert r E. induction fuel as [|n IH]; intros r E; [done|].
  cbn [skip_whitespace] in E. destruct r as [|c r]; [done|].
  remember (S n) as m. cbn [skip_whitespace]. subst m.
  destruct (is_blank c); [by apply IH|]. destruct (Ascii.eqb c "/"); [by apply IH|done].
Qed.

(** A slash that opens no comment hangs the loader: when a text starts, behind
    blanks, with a slash followed by neither a slash nor an asterisk, skipping
    blanks does not end after any number of steps, and the loader does not return,
    not even with an error. *)
Theorem loader_hangs_on_slash (n fuel : nat) (port0 : Z) (garbage : TokenType) (ws r : bytes) (x : ascii) :
  Forall (fun c => is_blank c = true) ws -> x <> "/"%char -> x <> "*"%char ->
  skip_whitespace n (ws ++ "/"%char :: x :: r) = None /\
  load_json fuel port0 garbage (ws ++ "/"%char :: x :: r) = None.
Proof.
  intros Hws H1 H2.
  assert (forall n, skip_whitespace n (ws ++ "/"%char :: x :: r) = None) as Hn.
  { intros m. apply skip_whitespace_blanks; [done|]. by apply skip_whitespace_slash. }
  split; [apply Hn|]. unfold load_json, parse_config, advance. cbn [rest create]. by rewrite Hn.
Qed.

(** ** Evaluated examples *)

#[global] Instance Token_eq_dec : EqDecision Token.
Proof. solve_decision. Defined.

(** Decide that a text starts with the given tokens. *)
Fixpoint lex_check (toks : list Token) (r : bytes) : option bytes :=
  match toks with
  | [] => Some r
  | k :: toks' =>
      p ← advance (at_token (mkToken End_ []) r);
      if bool_decide (current p = k /\ error_msg p = None) then lex_check toks' (rest p) else None
  end.

Lemma lex_check_sound toks r r' : lex_check toks r = Some r' -> lexes r toks r'.
Proof.
  revert r; induction toks as [|k toks IH]; intros r; cbn [lex_check]; [intros [= ->]; constructor|].
  destruct (advance (at_token (mkToken End_ []) r)) as [p|] eqn:E; cbn [mbind option_bind]; [|done].
  split_if; [|done]. intros Hc. match goal with H : _ /\ _ |- _ => destruct H as [Hk He] end.
  apply lexes_cons with (rest p); [|by apply IH]. apply lex_decided. rewrite E. f_equal.
  assert (container_stack p = []) as Hst.
  { revert E. unfold advance. cbn [rest at_token].
    destruct (skip_whitespace _ _) as [s|]; cbn [mbind option_bind]; [|done]. intros [= <-].
    unfold lex_token. cbn [rest set_rest]. destruct s as [|c s]; [done|].
    repeat (split_if; [by repeat match goal with |- context [let '(_, _) := ?x in _] => destruct x end|]).
    done. }
  destruct p as [rs cur er st]. cbn in *. by subst.
Qed.

Definition quote (s : string) : bytes := qt ++ lit s ++ qt.

Definition backend_text (host port : string) : bytes :=
  lit "{" ++ quote "host" ++ lit ": " ++ quote host ++ lit ", " ++ quote "port" ++ lit ": " ++ lit port ++ lit "}".

Definition setting_text (k v : string) : bytes := quote k ++ lit ": " ++ lit v ++ lit ", ".

Definition sample_routes : list (bytes * Backend) :=
  [(lit "/api/user", mkBackend (lit "127.0.0.1") 9001); (lit "/a\b" ++ qt ++ [TAB], mkBackend (lit "::1") 9002)].
Definition sample_config : GatewayConfig := with_routes (to_route <$> sample_routes) GatewayConfig_init.

(** A comment to the end of the line, a tab, a block comment that contains stars and
    slashes, and a carriage return. *)
Definition sample_gap : bytes := lit " // gateway" ++ [LF; TAB] ++ lit "/* ** / 9 " ++ [LF] ++ lit "/**/" ++ [CR].

Lemma sample_gap_ok : gap sample_gap.
Proof.
  apply (gap_blank SP); [by left|]. apply (gap_line (lit " gateway")).
  { apply (bool_decide_unpack _). vm_compute. exact I. }
  apply (gap_blank TAB); [right; by left|]. apply (gap_block (lit " ** / 9 " ++ [LF] ++ lit "/*") [CR]).
  { intros a b E. assert (F : find_sub (lit "*/") ((lit " ** / 9 " ++ [LF] ++ lit "/*") ++ lit "*") = None) by reflexivity.
    rewrite E in F. destruct (find_sub_least (lit "*/") a b) as (j & Hj & _). congruence. }
  apply (gap_blank CR); [right; right; right; by left|constructor].
Qed.

Definition sample_tokens : list Token := ostart :: members_tokens (members_of sample_config sample_routes).

(** C33 applied to the default settings and two routes, with comments everywhere. *)
Lemma config_roundtrip_witness :
  exists json, spelled sample_tokens json /\ zlen json = 3139 /\ load_json 20 0 Null json = Some (Some sample_config, []).
Proof.
  assert (Hs : spelled sample_tokens (render sample_gap sample_tokens)).
  { apply render_spelled; [apply sample_gap_ok|discriminate|]. unfold sample_tokens, writable.
    repeat (apply Forall_cons; split; [first
      [ left; apply (bool_decide_unpack _); vm_compute; exact I
      | right; left; eexists; reflexivity
      | right; right; eexists; split; [|reflexivity]; vm_compute; discriminate ]|]). apply Forall_nil_2. }
  exists (render sample_gap sample_tokens). split; [exact Hs|]. split; [vm_compute; reflexivity|].
  apply (config_roundtrip 20 0 Null sample_config sample_routes).
  - repeat constructor; simpl; unfold INT_MAX; lia.
  - repeat (apply Forall_cons; split; [split; [discriminate|split; [discriminate|simpl; unfold INT_MAX; lia]]|]). apply Forall_nil_2.
  - reflexivity.
  - simpl. lia.
  - exact Hs.
Defined.

(** The route of the example in config_loader.h: two backends, then another route. *)
Definition documented_text : bytes :=
  lit "{" ++ setting_text "listen_port" "8081" ++ quote "routes" ++ lit ": [{"
    ++ quote "prefix" ++ lit ": " ++ quote "/api/user" ++ lit ", " ++ quote "backends" ++ lit ": ["
    ++ backend_text "127.0.0.1" "9001" ++ lit ", " ++ backend_text "127.0.0.1" "9002" ++ lit "]}, {"
    ++ quote "prefix" ++ lit ": " ++ quote "/b" ++ lit "}], " ++ quote "thread_count" ++ lit ": 9}".

(** Applied to it. *)
Lemma second_backend_dropped_witness :
  load_json 20 0 Null documented_text
  = Some (Some (with_routes [mkRoute (lit "/api/user") [mkBackend (lit "127.0.0.1") 9001]]
      (apply_settings GatewayConfig_init [(lit "listen_port", 8081)])), []).
Proof.
  destruct (lex_check (ostart :: (setting_tokens [(lit "listen_port", 8081)] ++ [str (lit "routes")])
       ++ [colon; astart] ++ route_head (lit "/api/user") ++ backend_tokens (mkBackend (lit "127.0.0.1") 9001)
       ++ [comma; ostart; str (lit "host"); colon]) documented_text) as [ignored|] eqn:E;
    [|vm_compute in E; discriminate E].
  apply (second_backend_dropped 20 0 Null [(lit "listen_port", 8081)] (lit "/api/user")
           (mkBackend (lit "127.0.0.1") 9001) (lit "host") documented_text ignored).
  - constructor; [|constructor]. split; [by eexists|]. simpl. unfold INT_MAX. lia.
  - discriminate.
  - split; [discriminate|]. simpl. unfold INT_MAX. lia.
  - simpl. lia.
  - by apply lex_check_sound.
Defined.

(** Applied to a slash and a brace. *)
Lemma loader_hangs_on_slash_witness :
  load_json 100 0 Null (lit "/{}") = None.
Proof.
  exact (proj2 (loader_hangs_on_slash 1 100 0 Null [] (lit "}") "{"%char (Forall_nil_2 _)
    ltac:(discriminate) ltac:(discriminate))).
Defined.

End JsonConfig.
