(* ===== verification/Main.v ===== *)
(** * Main: src/main.cpp and the wiring of Gateway::run

    The command line, the choice of the configuration, the shipped filter chain and
    the periodic tasks.  Start-up can run, terminate by an uncaught exception of
    [std::stoi], or be undefined: [config_path] points into a string that is gone when
    it is read. *)

From S2P Require Import Prelude StdSort StdMap Utils Config Http HealthChecker Stats Stdio AsyncLogger Logger Filters RateLimit Gateway Listener.

Module Main.
Import Config.
Open Scope Z_scope.

(** ** The command line *)

Definition parse_log_level (s : bytes) : Logger.LogLevel :=
  if Http.str_iequal s (lit "trace") then Logger.TRACE
  else if Http.str_iequal s (lit "debug") then Logger.DEBUG
  else if Http.str_iequal s (lit "info") then Logger.INFO
  else if Http.str_iequal s (lit "warn") || Http.str_iequal s (lit "warning") then Logger.WARN
  else if Http.str_iequal s (lit "error") then Logger.ERROR
  else if Http.str_iequal s (lit "fatal") then Logger.FATAL
  else Logger.INFO.

(** [config_path]: a string literal, or a pointer into the [arg] of a loop iteration
    that has ended. *)
Inductive pointer := Literal (s : bytes) | Dangling.

Definition scan_arg (st : pointer * Logger.LogLevel) (arg : bytes) : pointer * Logger.LogLevel :=
  if prefixb (lit "--config=") arg then (Dangling, st.2)
  else if prefixb (lit "--log-level=") arg then (st.1, parse_log_level (drop 12 arg))
  else st.

Definition scan_args (args : list bytes) : pointer * Logger.LogLevel :=
  foldl scan_arg (Literal (lit "config.json"), Logger.INFO) args.

(** [std::stoi]: [None] when it throws. *)
Definition stoi (s : bytes) : option Z :=
  let r := Utils.strtol s in
  if (Utils.last r =? 0)%nat then None
  else if Utils.erange r || (Utils.val r <? -2147483648) || (INT_MAX <? Utils.val r) then None
  else Some (Utils.val r).

Definition set_port (v : Z) (c : GatewayConfig) : GatewayConfig :=
  mkConfig v (keep_alive_timeout_sec c) (thread_count c) (backend_timeout_ms c) (max_request_size c) (max_epoll_events c)
    (idle_cleanup_interval_sec c) (pool_max_idle_per_host c) (pool_idle_timeout_sec c) (max_connections c)
    (max_queue_size c) (max_deferred_per_round c) (routes c).
Definition set_threads (v : Z) (c : GatewayConfig) : GatewayConfig :=
  mkConfig (listen_port c) (keep_alive_timeout_sec c) v (backend_timeout_ms c) (max_request_size c) (max_epoll_events c)
    (idle_cleanup_interval_sec c) (pool_max_idle_per_host c) (pool_idle_timeout_sec c) (max_connections c)
    (max_queue_size c) (max_deferred_per_round c) (routes c).
Definition set_timeout (v : Z) (c : GatewayConfig) : GatewayConfig :=
  mkConfig (listen_port c) (keep_alive_timeout_sec c) (thread_count c) v (max_request_size c) (max_epoll_events c)
    (idle_cleanup_interval_sec c) (pool_max_idle_per_host c) (pool_idle_timeout_sec c) (max_connections c)
    (max_queue_size c) (max_deferred_per_round c) (routes c).

Definition override (c : GatewayConfig) (arg : bytes) : option GatewayConfig :=
  if prefixb (lit "--port=") arg then v ← stoi (drop 7 arg); Some (set_port v c)
  else if prefixb (lit "--threads=") arg then v ← stoi (drop 10 arg); Some (set_threads v c)
  else if prefixb (lit "--timeout=") arg then v ← stoi (drop 10 arg); Some (set_timeout v c)
  else Some c.

Fixpoint overrides (args : list bytes) (c : GatewayConfig) : option GatewayConfig :=
  match args with [] => Some c | arg :: args' => c ← override c arg; overrides args' c end.

Inductive outcome := Runs (c : GatewayConfig) (l : Logger.LogLevel) | Terminated | Undefined.

(** Start-up with [load] the result of [ConfigLoader::load] for a path. *)
Definition startup (load : bytes -> option GatewayConfig) (args : list bytes) : outcome :=
  let '(config_path, log_level) := scan_args args in
  match config_path with
  | Dangling => Undefined
  | Literal path =>
      let cfg := default load_default_config (load path) in
      match overrides args cfg with Some c => Runs c log_level | None => Terminated end
  end.

(** ** The logger *)

Definition log_path : bytes := lit "/home/lin/API_gateway/logs/gateway.log".

Definition setup_logger (log_level : Logger.LogLevel) (opened : bool) (w : Stdio.t) : option Logger.t :=
  Logger.set_async_logger opened (AsyncLogger.create log_path (1024 * 1024 * 100) w)
    (Logger.set_level log_level (Logger.create w)).

(** The program starts with its background logger running at the chosen level, also when
    the log file cannot be opened, in which case the lines go to stderr. *)
Theorem logger_set_up log_level opened w :
  Stdio.err_open w = true ->
  exists a s, setup_logger log_level opened w = Some s /\ Logger.min_level s = log_level /\
    Logger.async_logger s = Some a /\ AsyncLogger.running a = true /\
    (AsyncLogger.fp a = Stdio.Stderr <-> opened = false).
Proof.
  intros Hw. unfold setup_logger, Logger.set_async_logger, AsyncLogger.start, AsyncLogger.open_file.
  destruct opened; cbn; [by eexists _, _|]. destruct w as [lv nx dk er op]. cbn in Hw. subst op. cbn. by eexists _, _.
Qed.

(** Applied to a directory that does not exist. *)
Lemma logger_set_up_witness :
  exists a s, setup_logger Logger.WARN false AsyncLogger.tty = Some s /\ Logger.async_logger s = Some a /\
    AsyncLogger.running a = true.
Proof.
  destruct (logger_set_up Logger.WARN false AsyncLogger.tty) as (a & s & H1 & _ & H2 & H3 & _); [by vm_compute|].
  exists a, s. split; [exact H1|]. split; [exact H2|exact H3].
Defined.

(** ** The filters *)

Section Chain.
Context {W : Type} `{Filters.Env W} `{RateLimit.Limiter W} `{StdSort} `{HashOrder}.

(** The limiter main constructs. *)
Definition limiter0 : RateLimit.t := RateLimit.create 100 200.

Definition gateway (cfg : GatewayConfig) (st : Stats.t) (w : W) : Gateway.t W :=
  Gateway.add_filter Filters.LoggingFilter
    (Gateway.add_filter RateLimit.RateLimitFilter
      (Gateway.add_filter Filters.RequestIdFilter
        (Gateway.create cfg st (RateLimit.put_limiter limiter0 w)))).

End Chain.

(** ** The periodic tasks of Gateway::run *)

(** [idle_cleanup_interval_sec * 1000] as an [int]; [None] when it overflows. *)
Definition cleanup_ms (c : GatewayConfig) : option Z :=
  let ms := idle_cleanup_interval_sec c * 1000 in
  if (-2147483648 <=? ms) && (ms <=? INT_MAX) then Some ms else None.

(** The limiter's part of the cleanup task. *)
Definition limiter_cleanup (now : Z) : RateLimit.op := RateLimit.Cleanup 300 now.

(** The health checker as [run] sets it up. *)
Definition health_checker `{StdSort} (c : GatewayConfig) : HealthChecker.t :=
  foldl (fun s b => HealthChecker.add_backend b s)
    (HealthChecker.set_on_status_change
      (HealthChecker.set_connect_timeout_ms (backend_timeout_ms c)
        (HealthChecker.set_interval_ms 5000 HealthChecker.create)))
    (Listener.collect_all_backends c).

(** ** Options as the usage prints them *)

Inductive opt := Port (n : Z) | Threads (n : Z) | Timeout (n : Z) | Level (s : bytes).

Definition print_opt (o : opt) : bytes :=
  match o with
  | Port n => lit "--port=" ++ Utils.to_string n
  | Threads n => lit "--threads=" ++ Utils.to_string n
  | Timeout n => lit "--timeout=" ++ Utils.to_string n
  | Level s => lit "--log-level=" ++ s
  end.

Definition opt_ok (o : opt) : Prop :=
  match o with Port n | Threads n | Timeout n => 0 <= n <= INT_MAX | Level _ => True end.

Definition apply_opt (c : GatewayConfig) (o : opt) : GatewayConfig :=
  match o with Port n => set_port n c | Threads n => set_threads n c | Timeout n => set_timeout n c | Level _ => c end.

Definition level_of (l : Logger.LogLevel) (o : opt) : Logger.LogLevel :=
  match o with Level s => parse_log_level s | _ => l end.

Lemma stoi_to_string n : 0 <= n <= INT_MAX -> stoi (Utils.to_string n) = Some n.
Proof.
  intros Hn. rewrite Utils.to_string_nonneg by lia. unfold stoi.
  rewrite <- (app_nil_r (Utils.dec_nonneg n)), Utils.strtol_dec by (unfold INT_MAX, LONG_MAX in *; done || lia).
  cbn [Utils.last Utils.val Utils.erange]. rewrite app_nil_r || idtac.
  assert (length (Utils.dec_nonneg n) <> 0%nat).
  { pose proof (Utils.dec_nonneg_nonempty n). by destruct (Utils.dec_nonneg n). }
  destruct (Nat.eqb_spec (length (Utils.dec_nonneg n)) 0); [done|].
  unfold INT_MAX in *. destruct (Z.ltb_spec n (-2147483648)); [lia|]. destruct (Z.ltb_spec 2147483647 n); [lia|done].
Qed.

Lemma override_print c o : opt_ok o -> override c (print_opt o) = Some (apply_opt c o).
Proof.
  destruct o as [n|n|n|s]; intros Ho; unfold override; cbn [print_opt apply_opt].
  - change (drop 7 (lit "--port=" ++ Utils.to_string n)) with (Utils.to_string n). by rewrite stoi_to_string.
  - change (drop 10 (lit "--threads=" ++ Utils.to_string n)) with (Utils.to_string n). by rewrite stoi_to_string.
  - change (drop 10 (lit "--timeout=" ++ Utils.to_string n)) with (Utils.to_string n). by rewrite stoi_to_string.
  - done.
Qed.

Lemma overrides_print os c : Forall opt_ok os -> overrides (print_opt <$> os) c = Some (foldl apply_opt c os).
Proof.
  intros Ho. revert c. induction Ho as [|o os Ho _ IH]; intros c; [done|].
  rewrite fmap_cons. cbn [overrides]. rewrite override_print by done. apply IH.
Qed.

Lemma scan_print os p l : foldl scan_arg (p, l) (print_opt <$> os) = (p, foldl level_of l os).
Proof.
  revert l; induction os as [|o os IH]; intros l; [done|]. rewrite fmap_cons. cbn [foldl].
  replace (scan_arg (p, l) (print_opt o)) with (p, level_of l o); [apply IH|]. by destruct o.
Qed.

(** The command line is applied as printed: with any sequence of --port, --threads,
    --timeout and --log-level options in decimal the program runs with the loaded
    configuration, or the built-in one when loading fails, changed by the options in
    order, so that the last one of a kind wins. *)
Theorem options_applied load os :
  Forall opt_ok os ->
  startup load (print_opt <$> os) =
  Runs (foldl apply_opt (default load_default_config (load (lit "config.json"))) os) (foldl level_of Logger.INFO os).
Proof.
  intros Ho. unfold startup, scan_args. rewrite scan_print. cbn [snd]. by rewrite overrides_print.
Qed.

Lemma scan_dangling args l : (foldl scan_arg (Dangling, l) args).1 = Dangling.
Proof.
  revert l; induction args as [|arg args IH]; intros l; [done|]. cbn [foldl]. unfold scan_arg at 2. cbn [fst snd].
  destruct (prefixb _ arg); [apply IH|]. destruct (prefixb _ arg); apply IH.
Qed.

(** Every use of --config is undefined behaviour: [config_path] keeps the characters of
    a string that ends with its loop iteration, and [ConfigLoader::load] reads them
    afterwards, whatever the other arguments are. *)
Theorem config_option_undefined load pre path post :
  startup load (pre ++ (lit "--config=" ++ path) :: post) = Undefined.
Proof.
  unfold startup, scan_args. rewrite foldl_app. cbn [foldl].
  destruct (foldl scan_arg _ pre) as [p l]. unfold scan_arg at 2.
  change (prefixb (lit "--config=") (lit "--config=" ++ path)) with true. cbn [snd].
  pose proof (scan_dangling post l) as Hd. destruct (foldl scan_arg (Dangling, l) post) as [q l']. cbn in Hd. by subst q.
Qed.

Lemma scan_keeps p l arg : prefixb (lit "--config=") arg = false -> (scan_arg (p, l) arg).1 = p.
Proof. intros Ha. unfold scan_arg. rewrite Ha. by destruct (prefixb (lit "--log-level=") arg). Qed.

(** A numeric option whose value [std::stoi] does not accept ends the program with an
    uncaught exception. *)
Theorem malformed_option_terminates load os s post :
  Forall opt_ok os -> stoi s = None -> Forall (fun arg => prefixb (lit "--config=") arg = false) post ->
  startup load ((print_opt <$> os) ++ (lit "--port=" ++ s) :: post) = Terminated.
Proof.
  intros Ho Hs Hp. unfold startup, scan_args. rewrite foldl_app, scan_print. cbn [foldl].
  assert (Hscan : forall l, (foldl scan_arg (Literal (lit "config.json"), l) post).1 = Literal (lit "config.json")).
  { induction Hp as [|arg post Ha _ IH]; intros l; [done|]. cbn [foldl].
    pose proof (scan_keeps (Literal (lit "config.json")) l arg Ha) as Hk. destruct (scan_arg _ arg) as [p' l'].
    cbn in Hk. subst p'. apply IH. }
  change (scan_arg ?st (lit "--port=" ++ s)) with st.
  specialize (Hscan (foldl level_of Logger.INFO os)).
  destruct (foldl scan_arg _ post) as [p l]. cbn in Hscan. subst p.
  assert (Happ : forall a b c, overrides (a ++ b) c = c ← overrides a c; overrides b c).
  { induction a as [|arg a IH]; intros b c; [done|]. cbn [app overrides].
    destruct (override c arg); cbn [mbind option_bind]; [apply IH|done]. }
  rewrite Happ, overrides_print by done. cbn [mbind option_bind overrides]. unfold override.
  change (prefixb (lit "--port=") (lit "--port=" ++ s)) with true.
  change (drop 7 (lit "--port=" ++ s)) with s. by rewrite Hs.
Qed.

(** ** The parts main puts together *)

(** The shipped filters keep the contract the request pipeline relies on. *)
Theorem shipped_filters_ok {W} `{Filters.Env W} `{RateLimit.Limiter W} `{StdSort} cfg st (w : W) :
  Forall Filters.FilterOk (Gateway.filters (gateway cfg st w)) /\
  RateLimit.limiter (Gateway.world (gateway cfg st w)) = limiter0.
Proof.
  split; [|apply RateLimit.limiter_put]. cbn [gateway Gateway.add_filter Gateway.filters Gateway.create app].
  repeat (constructor; [typeclasses eauto|]). constructor.
Qed.

(** The periodic cleanup leaves the shipped limiter's buckets the time to fill up, so
    it never gives a client more than its rate. *)
Lemma shipped_cleanup_patient now : RateLimit.patient 100 200 (limiter_cleanup now).
Proof. by vm_compute. Qed.

Lemma knows_foldl b bs s :
  HealthChecker.knows b (foldl (fun s b => HealthChecker.add_backend b s) s bs) =
  bool_decide (b ∈ bs) || HealthChecker.knows b s.
Proof.
  revert s; induction bs as [|b' bs IH]; intros s; cbn [foldl].
  - rewrite bool_decide_eq_false_2 by set_solver. done.
  - rewrite IH, HealthChecker.knows_add, orb_assoc. f_equal.
    destruct (decide (b' = b)) as [->|Hne].
    + rewrite (bool_decide_eq_true_2 (b = b)), (bool_decide_eq_true_2 (b ∈ b :: bs)) by set_solver. apply orb_true_r.
    + rewrite (bool_decide_eq_false_2 (b' = b)), orb_false_r by done.
      apply bool_decide_ext. set_solver.
Qed.

(** The health checker watches exactly the configured backends: after the set-up of
    [run] a backend is in its table if and only if some route names it, every entry
    stands under its own key, and none counts as healthy before it was probed. *)
Theorem health_checker_watches `{StdSort} c b :
  (HealthChecker.knows b (health_checker c) = true <-> exists r, r ∈ routes c /\ b ∈ backends r) /\
  HealthChecker.inv (health_checker c) /\ HealthChecker.has_callback (health_checker c) = true /\
  HealthChecker.is_healthy b (health_checker c) = false.
Proof.
  destruct (Listener.collect_all_backends_exact c) as (_ & _ & Hm). unfold health_checker.
  set (s0 := HealthChecker.set_on_status_change _).
  assert (Hall : forall bs s, HealthChecker.inv s -> HealthChecker.has_callback s = true ->
    (forall b, HealthChecker.is_healthy b s = false) ->
    let s' := foldl (fun s b => HealthChecker.add_backend b s) s bs in
    HealthChecker.inv s' /\ HealthChecker.has_callback s' = true /\ forall b, HealthChecker.is_healthy b s' = false).
  { induction bs as [|b' bs IH]; intros s Hi Hc Hh; [done|]. cbn [foldl]. apply IH.
    - by apply HealthChecker.add_backend_inv.
    - unfold HealthChecker.add_backend. by destruct (HealthChecker.backends s !! _).
    - intros b1. specialize (Hh b1). unfold HealthChecker.is_healthy, HealthChecker.add_backend in *.
      destruct (HealthChecker.backends s !! HealthChecker.make_key b') eqn:E; [done|].
      cbn [HealthChecker.set_backends HealthChecker.backends].
      destruct (decide (HealthChecker.make_key b' = HealthChecker.make_key b1)) as [->|Hne];
        [by rewrite lookup_insert_eq|by rewrite lookup_insert_ne]. }
  destruct (Hall (Listener.collect_all_backends c) s0) as (H1 & H2 & H3); [done|done|done|].
  split; [|by split_and!]. rewrite knows_foldl, orb_false_r, bool_decide_eq_true. apply Hm.
Qed.

(** ** Concrete command lines *)

(** Applied to a command line that sets the port twice. *)
Lemma options_applied_witness :
  startup (fun _ => None) (print_opt <$> [Port 80; Level (lit "WARN"); Port 8081]) =
  Runs (set_port 8081 load_default_config) Logger.WARN.
Proof. apply (options_applied (fun _ => None) [Port 80; Level (lit "WARN"); Port 8081]). by repeat constructor. Defined.

(** Applied to a word. *)
Lemma malformed_option_terminates_witness :
  startup (fun _ => None) [lit "--threads=2"; lit "--port=http"; lit "--log-level=info"] = Terminated.
Proof.
  apply (malformed_option_terminates (fun _ => None) [Threads 2] (lit "http") [lit "--log-level=info"]);
    by repeat constructor.
Defined.

End Main.
