(* ===== verification/Admission.v ===== *)
(** * Admission: the rate limit of the shipped gateway

    [main] installs a [RateLimitFilter(100, 200)] between the request-id and the logging
    filter; the workers share it, and the idle task of the event loop drops its old
    buckets.  The machine of [Workers] with that task: whatever the interleaving, the calls
    on the limiter are an execution of [RateLimit], so the bound it enforces on its
    decisions is a bound on the requests that reach the backends. *)

From S2P Require Import Prelude StdSort StdMap Utils Config Router Http HttpParser LoadBalancer CircuitBreaker BackendConnection BackendPool Proxy Stats Filters RateLimit Gateway Workers Accounting Provenance Main.

Module Admission.
Import Config Http Filters Workers.
Module A := Accounting.
Module P := Provenance.
Module RL := RateLimit.
Open Scope Z_scope.

(** The other filters have no access to the limiter. *)
Class Separate (W : Type) `{Env W} `{RL.Limiter W} := {
  draw_limiter (w : W) : RL.limiter (draw w).2 = RL.limiter w;
  time_limiter (w : W) : RL.limiter (time_now w).2 = RL.limiter w;
  log_limiter m (w : W) : RL.limiter (log_info m w) = RL.limiter w;
  clock_limiter (w : W) : RL.limiter (RL.steady_now w).2 = RL.limiter w
}.

Section Admission.
Context {W : Type} `{StdSort} `{HashOrder} `{Env W} `{!RL.Limiter W} `{!Separate W}.

Notation pc := (@Workers.pc W).
Notation t := (@Workers.t W).

(** The chain of [main]. *)
Definition chain : list (Filter W) := [RequestIdFilter; RL.RateLimitFilter; LoggingFilter].

(** ** The machine *)

Inductive label := Pipeline (l : Workers.label) | CleanBuckets (now : Z).

Definition clean (now : Z) (g : G.t W) : G.t W :=
  G.set_world (RL.put_limiter (RL.cleanup_expired_buckets 300 now (RL.limiter (G.world g))) (G.world g)) g.

Definition exec (l : label) (s : t) : option t :=
  match l with
  | Pipeline l => Workers.exec l s
  | CleanBuckets now => Some (Workers.mk (clean now (shared s)) (threads s))
  end.

Fixpoint run (ls : list label) (s : t) : option t :=
  match ls with [] => Some s | l :: ls' => s ← exec l s; run ls' s end.

(** ** What it does to the limiter *)

Definition client (r : HttpRequest) : bytes := extract_client_ip (P.first_context r).

Definition limiter_of (s : t) : RL.t := RL.limiter (G.world (shared s)).

(** The next call of a thread is that of the limiter. *)
Definition at_limiter (p : pc) : option (HttpRequest * FilterContext) :=
  match p with RequestFilters _ r rest c => if (length rest =? 2)%nat then Some (r, c) else None | _ => None end.

Definition call (p : pc) (g : G.t W) : option RL.op :=
  '(_, c) ← at_limiter p;
  key ← RL.limited c (RL.limiter (G.world g));
  Some (RL.Request key (RL.steady_now (G.world g)).1).

Definition op_of (l : label) (s : t) : option RL.op :=
  match l with
  | Pipeline (Step i) => '(_, p) ← threads s !! i; call p (shared s)
  | Pipeline _ => None
  | CleanBuckets now => Some (Main.limiter_cleanup now)
  end.

Fixpoint ops (ls : list label) (s : t) : list RL.op :=
  match ls with
  | [] => []
  | l :: ls' => option_list (op_of l s) ++ match exec l s with Some s' => ops ls' s' | None => [] end
  end.

(** A request of the client is let through. *)
Definition passes (key : bytes) (e : G.env) (p : pc) (g : G.t W) : bool :=
  match at_limiter p with
  | Some (r, _) =>
      bool_decide (client r = key) && match step e p g with Some (RequestFilters _ _ _ _, _) => true | _ => false end
  | None => false
  end.

(** A request of the client sets out for a backend. *)
Definition sets_out (key : bytes) (p : pc) : bool :=
  match p with Connect j => bool_decide (client (request j) = key) | _ => false end.

(** Between the limiter and the backend. *)
Definition waiting (key : bytes) (p : pc) : bool :=
  match p with
  | RequestFilters _ r rest _ => (length rest <=? 1)%nat && bool_decide (client r = key)
  | Select _ r _ _ => bool_decide (client r = key)
  | FindBreaker j | EmplaceBreaker j | Allow j | Connect j => bool_decide (client (request j) = key)
  | _ => false
  end.

Definition count (b : bool) : Z := if b then 1 else 0.

(** The requests of a client that set out for a backend during a run. *)
Fixpoint forwards (key : bytes) (ls : list label) (s : t) : Z :=
  match ls with
  | [] => 0
  | l :: ls' =>
      match l with
      | Pipeline (Step i) => match threads s !! i with Some (_, p) => count (sets_out key p) | None => 0 end
      | _ => 0
      end + match exec l s with Some s' => forwards key ls' s' | None => 0 end
  end.

(** ** Steps *)

(** The limiter as [main] made it, whatever its buckets. *)
Definition shipped (s : RL.t) : Prop := RL.rate s = 100 /\ RL.key_extractor s = Some extract_client_ip.

Definition quiet (f : Filter W) : Prop :=
  (forall c w x, on_request f c w = Some x -> RL.limiter x.2 = RL.limiter w) /\
  (forall c w x, on_response f c w = Some x -> RL.limiter x.2 = RL.limiter w).

Lemma generate_limiter n w : RL.limiter (generate_go n w).2 = RL.limiter w.
Proof.
  revert w; induction n as [|n IH]; intros w; [done|]. cbn. pose proof (draw_limiter w) as Hd. destruct (draw w) as [d w1].
  specialize (IH w1). destruct (generate_go n w1) as [x w2]. cbn in *. congruence.
Qed.

Lemma request_id_quiet : quiet RequestIdFilter.
Proof.
  split; intros c w x; cbn; [|by intros [= <-]]. unfold request_id_on_request. intros (r & _ & Hx)%bind_Some.
  destruct (StdMap.find _ _); [by injection Hx as <-|]. pose proof (generate_limiter 8 w) as Hg. unfold generate_id in Hx.
  destruct (generate_go 8 w) as [y w']. by injection Hx as <-.
Qed.

Lemma logging_quiet : quiet LoggingFilter.
Proof.
  split; intros c w x; cbn; unfold logging_on_request, logging_on_response; pose proof (time_limiter w) as Ht;
    destruct (time_now w) as [now w']; intros (r & _ & [= <-])%bind_Some; cbn; by rewrite log_limiter.
Qed.

Lemma request_kept (f : Filter W) c c' r : FilterOk f -> P.accepts f c c' -> req c = Some r -> req c' = Some r.
Proof.
  intros Hf (w & w' & E) Hr. destruct (request_defined c w r Hr) as (ok & c1 & w1 & E1 & H1'). rewrite E in E1. by injection E1 as _ <- _.
Qed.

Lemma chain_ok : Forall FilterOk chain.
Proof. repeat (apply Forall_cons; split; [apply _|]). apply Forall_nil_2. Qed.

Lemma through_kept (fs : list (Filter W)) c c' r : Forall FilterOk fs -> P.through P.accepts fs c c' -> req c = Some r -> req c' = Some r.
Proof.
  intros Hf Ht. revert Hf. induction Ht as [c|fs f c c1 c2 _ IH Hf]; intros Hok Hr; [done|].
  apply Forall_app in Hok as [H1' H2']. apply Forall_cons in H2' as [H2' _]. eapply request_kept; eauto.
Qed.

(** Where a thread is in the chain. *)
Lemma chain_position done rest :
  chain = done ++ rest ->
  match length rest with
  | 0%nat => rest = [] | 1%nat => rest = [LoggingFilter] | 2%nat => rest = [RL.RateLimitFilter; LoggingFilter] | _ => rest = chain
  end.
Proof.
  unfold chain. intros E. destruct done as [|? [|? [|? [|]]]]; cbn in E; try (by subst); injection E as; by subst.
Qed.

(** Only the filters touch the world. *)
Lemma step_world e (p : pc) g p' g' :
  step e p g = Some (p', g') ->
  match p with
  | RequestFilters _ _ (f :: _) c => exists ok c', on_request f c (G.world g) = Some (ok, c', G.world g')
  | ResponseFilters _ (f :: _) c _ _ => exists c', on_response f c (G.world g) = Some (c', G.world g')
  | _ => G.world g' = G.world g
  end.
Proof.
  intros Hs. step_cases Hs p; try done; try apply A.get_breaker_frame; try apply A.with_pool_frame; by eauto.
Qed.

Lemma known_position rt e raw (p : pc) :
  P.knows chain rt e raw P.unsaid p ->
  match p with
  | RequestFilters _ r rest c => (exists done, chain = done ++ rest) /\ req c = Some r
  | ResponseFilters _ rest _ _ _ => exists done, chain = done ++ rest
  | _ => True
  end.
Proof.
  destruct p; try done; cbn [P.knows].
  - intros (_ & _ & done & E & Ht). split; [by exists done|]. eapply (through_kept done); [|exact Ht|done].
    pose proof chain_ok as Hok. rewrite E in Hok. by apply Forall_app in Hok as [? _].
  - intros (_ & resp & done & _ & _ & E & _). by exists done.
Qed.

Lemma client_key (c : FilterContext) r : req c = Some r -> extract_client_ip c = client r.
Proof. intros Hr. unfold client, extract_client_ip, P.first_context. cbn [req]. by rewrite Hr. Qed.

Lemma limited_key s c r : shipped s -> req c = Some r -> RL.limited c s = match client r with [] => None | key => Some key end.
Proof. intros [Hrate Hx] Hr. unfold RL.limited, RL.limit_key. rewrite Hrate, Hx, (client_key c r Hr). done. Qed.

Lemma run_one key now s : RL.run [RL.Request key now] s = ([(key, (RL.take_token key now s).1)], (RL.take_token key now s).2).
Proof. cbn. by destruct (RL.take_token key now s). Qed.

(** The call of a thread on the limiter is the one operation of its step. *)
Lemma step_limiter rt e raw (p : pc) g p' g' :
  P.knows chain rt e raw P.unsaid p -> step e p g = Some (p', g') ->
  RL.limiter (G.world g') = (RL.run (option_list (call p g)) (RL.limiter (G.world g))).2.
Proof.
  intros Hk Hs. pose proof (step_world e p g p' g' Hs) as Hw. apply known_position in Hk. unfold call.
  destruct p; cbn [at_limiter mbind option_bind option_list]; try by rewrite Hw.
  - destruct Hk as [[done E] _]. apply chain_position in E. destruct fs as [|f [|f' [|f'' fs]]]; cbn [length Nat.eqb mbind option_bind option_list] in *.
    + by rewrite Hw.
    + injection E as ->. destruct Hw as (ok & c' & Hw). exact (proj1 logging_quiet c _ _ Hw).
    + injection E as -> _. destruct Hw as (ok & c' & Hw). cbn in Hw. destruct (RL.limited c _) as [key|]; cbn [mbind option_bind option_list].
      * match goal with |- context [option_list (Some ?o)] => change (option_list (Some o)) with [o] end.
        rewrite run_one. cbn [snd]. pose proof (clock_limiter (G.world g)) as Hc. destruct (RL.steady_now (G.world g)) as [now w]. cbn [fst snd] in *.
        rewrite Hc in Hw. destruct (RL.take_token key now _) as [ok' s']. injection Hw as _ _ <-. apply RL.limiter_put.
      * injection Hw as _ _ <-. done.
    + injection E as -> _ _ _. destruct Hw as (ok & c' & Hw). exact (proj1 request_id_quiet c _ _ Hw).
  - destruct Hk as [done E]. destruct fs as [|f fs]; [by rewrite Hw|]. destruct Hw as [c' Hw].
    assert (Hq : quiet f \/ f = RL.RateLimitFilter).
    { apply chain_position in E. destruct fs as [|f' [|f'' fs]]; cbn [length] in E; injection E as -> ; auto using logging_quiet, request_id_quiet. }
    destruct Hq as [[_ Hq]| ->]; [exact (Hq c _ _ Hw)|]. cbn in Hw. by injection Hw as _ <-.
Qed.

(** What passes is what the limiter admits. *)
Lemma step_passes rt e raw key (p : pc) g p' g' :
  key <> [] -> shipped (RL.limiter (G.world g)) -> P.knows chain rt e raw P.unsaid p -> step e p g = Some (p', g') ->
  count (passes key e p g) = RL.admitted (RL.decisions key (RL.run (option_list (call p g)) (RL.limiter (G.world g))).1).
Proof.
  intros Hkey Hsh Hk Hs. apply known_position in Hk. unfold call, passes. destruct p; cbn [at_limiter mbind option_bind]; try done.
  destruct Hk as [[done E] Hr]. apply chain_position in E.
  destruct fs as [|f [|f' [|f'' fs]]]; cbn [length Nat.eqb mbind option_bind] in *; try done.
  injection E as -> ->. cbn [step] in Hs |- *. cbn [on_request RL.RateLimitFilter] in *.
  rewrite (limited_key _ c r Hsh Hr) in *. destruct (client r) as [|a k] eqn:Ek; cbn [mbind option_bind negb] in *.
  - by rewrite bool_decide_eq_false_2 by congruence.
  - match goal with |- context [option_list (Some ?o)] => change (option_list (Some o)) with [o] end. rewrite run_one. cbn [fst].
    pose proof (clock_limiter (G.world g)) as Hc. destruct (RL.steady_now (G.world g)) as [now w]. cbn [fst snd] in *. rewrite Hc in *.
    destruct (RL.take_token (a :: k) now _) as [ok s']. cbn [mbind option_bind fst]. unfold RL.decisions. rewrite filter_cons. cbn [fst].
    case_bool_decide; [rewrite decide_True by done|rewrite decide_False by done; done]. by destruct ok.
Qed.

Lemma step_waiting rt raw e key (p : pc) g p' g' :
  G.filters g = chain -> P.knows chain rt e raw P.unsaid p -> step e p g = Some (p', g') ->
  count (waiting key p') + count (sets_out key p) <= count (waiting key p) + count (passes key e p g).
Proof.
  assert (Hc : forall b, 0 <= count b <= 1) by (intros []; cbn; lia).
  intros Hf Hk Hs. apply known_position in Hk. pose proof (Hc (passes key e p g)) as Hp. pose proof (Hc (waiting key p)) as Hw.
  step_cases Hs p; cbn [waiting sets_out reject andb] in *; try (cbn [count]; lia).
  - rewrite Hf. cbn [count chain length Nat.leb andb]. lia.
  - destruct Hk as [_ Hr]. assert (G.request_of r c = r) as -> by (unfold G.request_of; by rewrite Hr). lia.
  - destruct l as [|f1 [|f2 l]]; cbn [length Nat.leb Nat.eqb andb] in *; [cbn [count]; lia| |cbn [count]; lia].
    unfold passes in *. cbn [at_limiter length Nat.eqb step] in *.
    match goal with Ho : on_request _ _ _ = Some _ |- _ => rewrite Ho in * end. cbn [mbind option_bind negb] in *.
    match goal with Hb : negb ?b = false |- _ => rewrite Hb in * end. rewrite andb_true_r. cbn [count]. lia.
Qed.

(** ** Runs *)

Definition in_progress (key : bytes) (s : t) : Z := A.total (fun p => if waiting key p then 1 else 0)%nat (threads s).

Definition good (s : t) : Prop := shipped (limiter_of s) /\ exists rt raws, P.known chain rt P.unsaid s raws.

Lemma run_shipped os s : shipped s -> shipped (RL.run os s).2.
Proof.
  revert s; induction os as [|[key now|idle now] os IH]; intros s Hs; cbn [RL.run]; [done| |].
  - destruct (RL.take_token key now s) as [ok s'] eqn:E. assert (Hs' : shipped s').
    { unfold RL.take_token in E. destruct (RL.consume s now _). by injection E as _ <-. }
    specialize (IH s' Hs'). by destruct (RL.run os s').
  - by apply IH.
Qed.

Lemma of_nat_if (b : bool) : Z.of_nat (if b then 1 else 0)%nat = count b.
Proof. by destruct b. Qed.

Lemma exec_admission l (s s' : t) key :
  key <> [] -> good s -> exec l s = Some s' ->
  good s' /\ limiter_of s' = (RL.run (option_list (op_of l s)) (limiter_of s)).2 /\
  forwards key [l] s + in_progress key s' <=
  in_progress key s + RL.admitted (RL.decisions key (RL.run (option_list (op_of l s)) (limiter_of s)).1).
Proof.
  intros Hkey [Hsh (rt & raws & Hkn)] He. destruct l as [l|now]; cbn [exec] in He.
  2: { injection He as <-. unfold limiter_of, clean, in_progress. cbn [op_of forwards exec shared threads G.world G.set_world].
    rewrite RL.limiter_put. split; [|split; [done|apply Z.eq_le_incl; symmetry; apply Z.add_0_r]]. split.
    - unfold limiter_of, clean. cbn. by rewrite RL.limiter_put.
    - exists rt, raws. by destruct Hkn. }
  assert (Hgood : forall os, limiter_of s' = (RL.run os (limiter_of s)).2 -> good s').
  { intros os E. split; [rewrite E; by apply run_shipped|]. exists rt. eexists. by eapply P.exec_known. }
  cbn [forwards exec]. rewrite He. destruct l as [e raw|i|now]; cbn [Workers.exec op_of option_list] in *.
  - injection He as <-. split; [by apply (Hgood [])|]. split; [done|]. unfold in_progress. cbn [threads].
    rewrite A.total_spawn. cbn [snd waiting]. apply Z.eq_le_incl. rewrite !Z.add_0_r. reflexivity.
  - apply bind_Some in He as ([e p] & Hi & He). apply bind_Some in He as ([p' g'] & Hs & [= <-]).
    destruct (P.known_threads _ _ _ _ _ Hkn i e p Hi) as (raw & _ & Hk). rewrite Hi. cbn [mbind option_bind].
    pose proof (step_limiter rt e raw p _ p' g' Hk Hs) as Hl. split; [exact (Hgood _ Hl)|]. split; [exact Hl|].
    unfold in_progress, limiter_of. cbn [threads]. rewrite (A.total_insert _ _ _ _ _ p' Hi), !of_nat_if.
    rewrite <- (step_passes rt e raw key p _ p' g' Hkey Hsh Hk Hs).
    pose proof (step_waiting rt raw e key p _ p' g' (P.known_filters _ _ _ _ _ Hkn) Hk Hs). lia.
  - injection He as <-. split; [by apply (Hgood [])|]. split; [done|apply Z.eq_le_incl; symmetry; apply Z.add_0_r].
Qed.

Lemma limiter_run_app os1 os2 s :
  RL.run (os1 ++ os2) s =
  ((RL.run os1 s).1 ++ (RL.run os2 (RL.run os1 s).2).1, (RL.run os2 (RL.run os1 s).2).2).
Proof.
  revert s; induction os1 as [|[key now|idle now] os1 IH]; intros s; cbn [RL.run app]; cbn [fst snd app]; [by destruct (RL.run os2 s)| |apply IH].
  destruct (RL.take_token key now s) as [ok s']. rewrite IH. by destruct (RL.run os1 s').
Qed.

Lemma admitted_decisions key l1 l2 :
  RL.admitted (RL.decisions key (l1 ++ l2)) = RL.admitted (RL.decisions key l1) + RL.admitted (RL.decisions key l2).
Proof. unfold RL.decisions, RL.admitted. rewrite filter_app, fmap_app, filter_app, length_app. lia. Qed.

Lemma run_admission ls (s s' : t) key :
  key <> [] -> good s -> run ls s = Some s' ->
  good s' /\ limiter_of s' = (RL.run (ops ls s) (limiter_of s)).2 /\
  forwards key ls s + in_progress key s' <=
  in_progress key s + RL.admitted (RL.decisions key (RL.run (ops ls s) (limiter_of s)).1).
Proof.
  intros Hkey. revert s; induction ls as [|l ls IH]; intros s Hg; cbn [run]; [intros [= <-]; split; [done|split; [done|apply Z.eq_le_incl; symmetry; apply Z.add_0_r]]|].
  intros (s1 & He & Hr)%bind_Some. destruct (exec_admission l s s1 key Hkey Hg He) as (Hg1 & Hl1 & Hb1).
  destruct (IH s1 Hg1 Hr) as (Hg' & Hl' & Hb'). split; [done|]. cbn [ops forwards] in *. rewrite He in *.
  rewrite limiter_run_app. cbn [fst snd]. rewrite <- Hl1, admitted_decisions. split; [done|]. lia.
Qed.

Lemma admission_run_app ls1 ls2 s : run (ls1 ++ ls2) s = s' ← run ls1 s; run ls2 s'.
Proof.
  revert s; induction ls1 as [|l ls1 IH]; intros s; cbn; [done|]. destruct (exec l s); cbn; [apply IH|done].
Qed.

Lemma ops_app ls1 ls2 s s1 : run ls1 s = Some s1 -> ops (ls1 ++ ls2) s = ops ls1 s ++ ops ls2 s1.
Proof.
  revert s; induction ls1 as [|l ls1 IH]; intros s; cbn [run app ops]; [by intros [= <-]|].
  intros (s2 & He & Hr)%bind_Some. rewrite He, <- app_assoc. f_equal. by apply IH.
Qed.

Lemma ops_patient ls s : Forall (RL.patient 100 200) (ops ls s).
Proof.
  revert s; induction ls as [|l ls IH]; intros s; cbn [ops]; [constructor|]. apply Forall_app. split.
  - destruct (op_of l s) as [o|] eqn:E; [|constructor]. apply Forall_cons. split; [|constructor].
    destruct l as [[e raw|i|now]|now]; cbn in E; try done; [|injection E as <-; apply Main.shipped_cleanup_patient].
    apply bind_Some in E as ([e p] & _ & E). unfold call in E. apply bind_Some in E as ([r c] & _ & E).
    by apply bind_Some in E as (key & _ & [= <-]).
  - destruct (exec l s); [apply IH|constructor].
Qed.

Lemma decisions_length key os s : length (RL.decisions key (RL.run os s).1) = length (RL.times_of key os).
Proof.
  revert s; induction os as [|[k now|idle now] os IH]; intros s; cbn [RL.run]; [done| |].
  - destruct (RL.take_token k now s) as [ok s']. specialize (IH s'). destruct (RL.run os s') as [l s2]. cbn [fst] in *.
    unfold RL.decisions, RL.times_of in *. rewrite filter_cons, bind_cons. cbn [fst].
    destruct (decide (k = key)); cbn [fmap list_fmap length app]; by rewrite IH.
  - rewrite IH. done.
Qed.

Lemma main_good cfg (w : W) : good (init (Main.gateway cfg Stats.create w)).
Proof.
  split; [unfold limiter_of; cbn; by rewrite RL.limiter_put|].
  exists (Router.create (routes cfg)), []. exact (P.start_known cfg (RL.put_limiter Main.limiter0 w) chain P.unsaid).
Qed.

(** C34. The gateway that [main] builds limits what a client can send to the backends, however
    the workers and the cleanup of the buckets interleave: in any part [ls2] of any run, the
    requests of one client that set out for a backend are at most the 200 of the burst and
    one for the rounding, 100 for each second between the client's first and last call on
    the limiter in that part, and those that the limiter had let through before.  A client is a
    non-empty key of [extract_client_ip]; a request without such a header is not limited. *)
Theorem shipped_gateway_rate_limited (cfg : GatewayConfig) (w : W) (key : bytes) ls1 ls2 s1 s2 now nows :
  key <> [] -> run ls1 (init (Main.gateway cfg Stats.create w)) = Some s1 -> run ls2 s1 = Some s2 ->
  RL.clocked 0 (RL.time <$> ops (ls1 ++ ls2) (init (Main.gateway cfg Stats.create w))) ->
  RL.times_of key (ops ls2 s1) = now :: nows ->
  zlen nows * 200 <= 2 ^ 51 -> 100 * (List.last nows now - now) <= 2 ^ 48 * 1000000000 ->
  forwards key ls2 s1 * 1000000000 <=
  in_progress key s1 * 1000000000 + 201 * 1000000000 + 100 * (List.last nows now - now).
Proof.
  intros Hkey Hr1 Hr2 Hc Hts Hn Ht. destruct (run_admission ls1 _ s1 key Hkey (main_good cfg w) Hr1) as (Hg1 & Hl1 & _).
  destruct (run_admission ls2 s1 s2 key Hkey Hg1 Hr2) as (_ & _ & Hb).
  assert (Hl0 : limiter_of (init (Main.gateway cfg Stats.create w)) = RL.create 100 200) by apply RL.limiter_put.
  rewrite Hl0 in Hl1. rewrite (ops_app ls1 ls2 _ s1 Hr1) in Hc. set (os1 := ops ls1 _) in *.
  assert (Hdrop : RL.decisions key (RL.run (ops ls2 s1) (limiter_of s1)).1 =
    drop (length (RL.times_of key os1)) (RL.decisions key (RL.run (os1 ++ ops ls2 s1) (RL.create 100 200)).1)).
  { rewrite limiter_run_app, <- Hl1. cbn [fst]. unfold RL.decisions at 2. rewrite filter_app, fmap_app.
    rewrite <- (decisions_length key os1 (RL.create 100 200)). by rewrite drop_app_length. }
  pose proof (RL.window_respected 100 200 (os1 ++ ops ls2 s1) key (length (RL.times_of key os1)) now nows) as Hw.
  rewrite <- Hdrop in Hw. unfold INT_MAX in Hw.
  assert (0 <= in_progress key s2) by (unfold in_progress, A.total; lia).
  assert (RL.admitted (RL.decisions key (RL.run (ops ls2 s1) (limiter_of s1)).1) * 1000000000 <=
    (200 + 1) * 1000000000 + 100 * (List.last nows now - now)); [|lia].
  apply Hw; try done; try lia.
  - apply Forall_app. split; apply ops_patient.
  - unfold RL.times_of in *. by rewrite bind_app, drop_app_length.
Qed.

End Admission.

(** ** A sample host *)

Record Host := mkHost { base : World; buckets : RL.t; ticks : Z }.

#[export] Instance Host_env : Env Host.
Proof.
  refine {| time_now h := ((time_now (base h)).1, h);
            log_info m h := mkHost (log_info m (base h)) (buckets h) (ticks h);
            draw h := ((draw (base h)).1, mkHost (draw (base h)).2 (buckets h) (ticks h)) |}.
  intros h. apply draw_range.
Defined.

(** A steady clock that advances a second at each reading. *)
#[export] Instance Host_limiter : RL.Limiter Host.
Proof.
  refine {| RL.limiter := buckets; RL.put_limiter s h := mkHost (base h) s (ticks h);
            RL.steady_now h := (ticks h, mkHost (base h) (buckets h) (ticks h + 1000000000)) |}.
  done.
Defined.

#[export] Instance Host_separate : Separate Host.
Proof. by split. Qed.

Definition from (ip : bytes) : bytes :=
  lit "GET /api/user/7 HTTP/1.1" ++ CRLF ++ lit "Host: a" ++ CRLF ++ lit "X-Forwarded-For: " ++ ip ++ CRLFCRLF.

Definition first_state : @Workers.t Host :=
  init (Main.gateway load_default_config Stats.create (mkHost (mkWorld 5 [] 3) (RL.create 1 1) 0)).

(** A client's first request sets out, then two others. *)
Definition earlier : list label := Pipeline <$> Spawn (G.down_at 1) (from (lit "10.0.0.1")) :: replicate 10 (Step 0).
Definition window : list label :=
  Pipeline <$> [Spawn (G.down_at 2) (from (lit "10.0.0.1")); Spawn (G.down_at 3) (from (lit "10.0.0.1"))]
    ++ replicate 9 (Step 1) ++ replicate 9 (Step 2).

Definition after (ls : list label) : @Workers.t Host := match run ls first_state with Some s => s | None => first_state end.
Definition possible (ls : list label) : bool := match run ls first_state with Some _ => true | None => false end.

Lemma possible_run ls : possible ls = true -> run ls first_state = Some (after ls).
Proof. unfold possible, after. by destruct (run ls first_state). Qed.

Lemma possible_on ls ls' : possible ls = true -> possible (ls ++ ls') = true -> run ls' (after ls) = Some (after (ls ++ ls')).
Proof. intros H1%possible_run H2%possible_run. rewrite admission_run_app, H1 in H2. exact H2. Qed.

(** C34 applied to the two later requests, a second apart. *)
Lemma shipped_gateway_rate_limited_witness :
  forwards (lit "10.0.0.1") window (after earlier) = 2 /\
  forwards (lit "10.0.0.1") window (after earlier) * 1000000000 <= 0 * 1000000000 + 201 * 1000000000 + 100 * (2000000000 - 1000000000).
Proof.
  split; [vm_compute; reflexivity|].
  apply (shipped_gateway_rate_limited load_default_config (mkHost (mkWorld 5 [] 3) (RL.create 1 1) 0) (lit "10.0.0.1") earlier window
    (after earlier) (after (earlier ++ window)) 1000000000 [2000000000]).
  - discriminate.
  - exact (possible_run earlier ltac:(vm_compute; reflexivity)).
  - exact (possible_on earlier window ltac:(vm_compute; reflexivity) ltac:(vm_compute; reflexivity)).
  - assert (E : ops (earlier ++ window) first_state =
      [RL.Request (lit "10.0.0.1") 0; RL.Request (lit "10.0.0.1") 1000000000; RL.Request (lit "10.0.0.1") 2000000000]) by (vm_compute; reflexivity).
    change (RL.clocked 0 (RL.time <$> ops (earlier ++ window) first_state)). rewrite E. repeat split; vm_compute; congruence.
  - vm_compute. reflexivity.
  - vm_compute. discriminate.
  - vm_compute. discriminate.
Defined.

End Admission.
