(* ===== verification/Startup.v ===== *)
(** * Startup: Gateway::run of src/core/gateway.cpp

    How [run] puts the parts together: the event loop, the timer, the thread pool, the
    server, the health checker and the two periodic tasks, and what the idle callback of
    the loop then makes of the timer.  The answers of the kernel and the times at which
    the timers are set are arguments. *)

From S2P Require Import Prelude StdSort Config Timer EventLoop ThreadPool HealthChecker Listener TcpServer Main.

Module Startup.
Import Config.
Open Scope Z_scope.

(** The callbacks of the two periodic timers. *)
Definition cleanup_task : Z := 0.
Definition health_task : Z := 1.

Record env := mkEnv {
  loop_env : EventLoop.ctor_env;
  listen_env : TcpServer.listen_env;
  epoll_ok : bool;
  cleanup_set : Z;      (* steady_clock when each timer is registered *)
  health_set : Z
}.

(** A job of the pool is the connection and the raw request its lambda captures. *)
Definition job : Type := Z * bytes.

Record t := mk {
  epfd : Z;
  wakeup_fd : Z;
  table : EventLoop.fd_table TcpServer.handler;
  deferred : @EventLoop.defer_state job;
  timer : Timer.t;
  pool : ThreadPool.t job;
  tcp_server : TcpServer.t;
  health_checker : HealthChecker.t
}.

(** [run] returns early when the event loop cannot be constructed, computes the cleanup
    interval in [int], and otherwise enters the loop. *)
Inductive result := InitFailed (closed : list Z) | Undefined | Looping (s : t).

Section Run.
Context `{Timer.StdHeap} `{StdSort}.

Definition run (e : env) (c : GatewayConfig) : result :=
  match EventLoop.construct TcpServer.OnWakeup (loop_env e) (max_epoll_events c) with
  | EventLoop.Throws closed => InitFailed closed
  | EventLoop.Loop epfd wakeup_fd table =>
      let deferred := EventLoop.set_max_deferred_per_round (max_deferred_per_round c) EventLoop.create in
      let pool := ThreadPool.create (Z.to_nat (u64 (thread_count c))) (Z.to_nat (u64 (max_queue_size c))) in
      let server := TcpServer.set_new_connection_callback (TcpServer.create (listen_port c)) in
      let '(server, table, _) := TcpServer.start (listen_env e) (epoll_ok e) server table in
      match Main.cleanup_ms c with
      | None => Undefined
      | Some ms =>
          let '(_, timer) := Timer.run_every ms (Some cleanup_task) (cleanup_set e) Timer.create in
          let checker := Main.health_checker c in
          let '(_, timer) := Timer.run_every 5000 (Some health_task) (health_set e) timer in
          Looping (mk epfd wakeup_fd table deferred timer pool server checker)
      end
  end.

(** ** The periodic tasks *)

(** The idle callback at the times [ts]: the tasks each call of [tick] runs. *)
Fixpoint ticks (ts : list Z) (tm : Timer.t) : option (list (list Z)) :=
  match ts with
  | [] => Some []
  | now :: ts' =>
      '(tm, fired) ← Timer.tick (S (length (Timer.heap tm))) now tm;
      fs ← ticks ts' tm;
      Some (fired :: fs)
  end.

(** When a task that is next due at [x], if at all, runs: at the first tick at or after
    [x], and then again one interval after that tick; an interval that is not positive
    makes it a single shot. *)
Definition next_due (interval now x : Z) : option Z :=
  if x <=? now then if 0 <? interval then Some (now + interval * Timer.ms) else None else Some x.

Definition is_due (now : Z) (x : option Z) : bool := match x with Some x => x <=? now | None => false end.

Fixpoint schedule (interval : Z) (x : option Z) (ts : list Z) : list bool :=
  match ts with
  | [] => []
  | now :: ts' => is_due now x :: schedule interval (x ≫= next_due interval now) ts'
  end.

Definition due (cb : Z) (b : bool) : list Z := if b then [cb] else [].

(** The tasks of each tick. *)
Definition due_tasks (cleanup health : bool) : list Z := due cleanup_task cleanup ++ due health_task health.

Definition entries (i interval cb : Z) (x : option Z) : list Timer.TimerEntry :=
  match x with Some x => [Timer.mkEntry i x interval (Some cb) false] | None => [] end.

Lemma tick_entries now i interval cb x :
  omap Timer.callback (filter (Timer.fires now) (entries i interval cb x)) = due cb (is_due now x) /\
  Timer.waiting now (entries i interval cb x) ++ Timer.next_rounds now (filter (Timer.fires now) (entries i interval cb x))
  = entries i interval cb (x ≫= next_due interval now).
Proof.
  destruct x as [x|]; [|done]. cbn [entries is_due mbind option_bind]. unfold Timer.waiting, next_due, Timer.fires.
  rewrite !filter_cons, !filter_nil. cbn [Timer.expire_time Timer.cancelled].
  destruct (Z.leb_spec x now).
  - rewrite decide_True, decide_False by (done || lia). split; [done|]. unfold Timer.next_rounds.
    rewrite filter_cons, filter_nil. cbn [Timer.interval_ms]. destruct (Z.ltb_spec 0 interval).
    + by rewrite decide_True.
    + by rewrite decide_False by lia.
  - rewrite decide_False, decide_True by lia. done.
Qed.

Definition two_tasks (i1 i2 : Z) (x1 x2 : option Z) : list Timer.TimerEntry :=
  entries 1 i1 cleanup_task x1 ++ entries 2 i2 health_task x2.

Lemma tick_tasks now i1 i2 x1 x2 tm :
  Timer.is_heap (Timer.heap tm) -> Timer.heap tm ≡ₚ two_tasks i1 i2 x1 x2 ->
  exists tm' fired, Timer.tick (S (length (Timer.heap tm))) now tm = Some (tm', fired) /\
    fired ≡ₚ due_tasks (is_due now x1) (is_due now x2) /\ Timer.is_heap (Timer.heap tm') /\
    Timer.heap tm' ≡ₚ two_tasks i1 i2 (x1 ≫= next_due i1 now) (x2 ≫= next_due i2 now).
Proof.
  intros Hh Hp. destruct (Timer.tick_spec now tm Hh) as (tm' & es & E & He & _ & Hh' & Hheap & _).
  exists tm', (omap Timer.callback es). split; [done|].
  destruct (tick_entries now 1 i1 cleanup_task x1) as [F1 N1].
  destruct (tick_entries now 2 i2 health_task x2) as [F2 N2].
  rewrite Hp in He. unfold two_tasks in *. rewrite filter_app in He. split_and!; [|done|].
  - rewrite He, omap_app. unfold due_tasks. by rewrite F1, F2.
  - rewrite Hh'. rewrite <- N1, <- N2. unfold Timer.waiting, Timer.next_rounds in *.
    rewrite He, Hp, !filter_app, fmap_app. solve_Permutation.
Qed.

Lemma ticks_tasks i1 i2 ts x1 x2 tm :
  Timer.is_heap (Timer.heap tm) -> Timer.heap tm ≡ₚ two_tasks i1 i2 x1 x2 ->
  exists fs, ticks ts tm = Some fs /\
    Forall2 (≡ₚ) fs (zip_with due_tasks (schedule i1 x1 ts) (schedule i2 x2 ts)).
Proof.
  revert x1 x2 tm. induction ts as [|now ts IH]; intros x1 x2 tm Hh Hp; cbn [ticks schedule zip_with].
  { by exists []. }
  destruct (tick_tasks now i1 i2 x1 x2 tm Hh Hp) as (tm' & fired & -> & Hf & Hh' & Hp').
  destruct (IH _ _ tm' Hh' Hp') as (fs & E & Hfs). exists (fired :: fs). cbn [mbind option_bind]. rewrite E. by split; [|constructor].
Qed.

Lemma run_timer e c s :
  run e c = Looping s -> exists ms, Main.cleanup_ms c = Some ms /\ Timer.is_heap (Timer.heap (timer s)) /\
  Timer.heap (timer s) ≡ₚ two_tasks ms 5000 (Some (cleanup_set e + ms * Timer.ms)) (Some (health_set e + 5000 * Timer.ms)).
Proof.
  unfold run. destruct (EventLoop.construct _ _ _); [|done]. destruct (TcpServer.start _ _ _ _) as [[server tb] closed].
  destruct (Main.cleanup_ms c) as [ms|]; [|done]. cbn. intros [= <-]. exists ms. split; [done|]. cbn.
  assert (Hnil : Timer.is_heap []) by (by intros i a b _ ?).
  split; [apply Timer.push_heap_heap, (Timer.push_heap_heap [] _ Hnil)|].
  rewrite !Timer.push_heap_perm. done.
Qed.

(** C40. The periodic tasks run on schedule.  Once [run] has entered the loop, whatever the
    times at which the loop calls its idle callback, the cleanup and the health check
    run exactly at the ticks of their own schedules, at most once per tick and without
    disturbing each other: the first tick at or after the due time, and then one
    interval after that tick.  The health check has the interval of five seconds, the
    cleanup the configured one. *)
Theorem periodic_tasks_on_schedule e c s ts :
  run e c = Looping s ->
  exists fs ms, Main.cleanup_ms c = Some ms /\ ticks ts (timer s) = Some fs /\
    Forall2 (≡ₚ) fs
      (zip_with due_tasks (schedule ms (Some (cleanup_set e + ms * Timer.ms)) ts)
         (schedule 5000 (Some (health_set e + 5000 * Timer.ms)) ts)).
Proof.
  intros Hr. destruct (run_timer e c s Hr) as (ms & Hms & Hh & Hp).
  destruct (ticks_tasks ms 5000 ts _ _ _ Hh Hp) as (fs & E & Hfs). by exists fs, ms.
Qed.

Lemma schedule_none interval ts : schedule interval None ts = replicate (length ts) false.
Proof. induction ts as [|now ts IH]; [done|]. cbn. by rewrite IH. Qed.

(** A configured interval of zero does not run the cleanup continuously and does not
    disable it either: the task is due at once, runs at the first tick and never again. *)
Theorem zero_cleanup_interval_runs_once e c s now ts :
  idle_cleanup_interval_sec c = 0 -> cleanup_set e <= now -> run e c = Looping s ->
  exists f fs, ticks (now :: ts) (timer s) = Some (f :: fs) /\ cleanup_task ∈ f /\ Forall (fun g => cleanup_task ∉ g) fs.
Proof.
  intros Hz Hn Hr. destruct (run_timer e c s Hr) as (ms & Hms & Hh & Hp).
  assert (ms = 0) as -> by (unfold Main.cleanup_ms in Hms; rewrite Hz in Hms; by injection Hms).
  destruct (ticks_tasks 0 5000 (now :: ts) _ _ _ Hh Hp) as (fs & E & Hfs). cbn [schedule zip_with] in Hfs.
  rewrite Z.mul_0_l, Z.add_0_r in Hfs. cbn [is_due mbind option_bind] in Hfs. unfold next_due in Hfs at 1.
  rewrite (proj2 (Z.leb_le _ _) Hn) in Hfs. cbn [Z.ltb Z.compare] in Hfs. rewrite schedule_none in Hfs.
  apply Forall2_cons_inv_r in Hfs as (f & fs' & Hf & Hfs & ->). exists f, fs'. split_and!; [done| |].
  - rewrite Hf. unfold due_tasks. set_solver.
  - revert Hfs. generalize (schedule 5000 (next_due 5000 now (health_set e + 5000 * Timer.ms)) ts).
    clear. revert fs'. induction ts as [|now ts IH]; intros fs [|b bs] H; cbn in H; try by inversion H.
    apply Forall2_cons_inv_r in H as (g & gs & Hg & Hgs & ->). constructor; [|by eapply IH].
    rewrite Hg. unfold due_tasks, due. cbn [app]. destruct b; [|set_solver].
    intros Hin%list_elem_of_singleton. discriminate Hin.
Qed.

(** ** What [run] does not check *)

(** A gateway that cannot bind its port keeps running: [start] reports nothing, [run]
    goes on and enters a loop whose only descriptor is its own eventfd, so that no
    client is ever accepted. *)
Theorem runs_without_listener e c s :
  run e c = Looping s -> TcpServer.bind_ret (listen_env e) < 0 ->
  TcpServer.listen_fd (tcp_server s) = -1 /\
  EventLoop.callbacks (table s) = {[wakeup_fd s := TcpServer.OnWakeup]}.
Proof.
  unfold run. destruct (EventLoop.construct _ _ _) as [ep wf tb|] eqn:Ec; [|done].
  intros Hr Hb. unfold TcpServer.start, TcpServer.create_listen_socket in Hr.
  destruct (TcpServer.socket_ret (listen_env e) <? 0); [|rewrite (proj2 (Z.ltb_lt _ _) Hb) in Hr].
  all: cbn [Z.ltb Z.compare] in Hr; destruct (Main.cleanup_ms c); [|done]; injection Hr as <-; split; [done|].
  all: revert Ec; unfold EventLoop.construct; repeat (destruct (_ <? 0); [done|]); intros [= <- <- <-]; cbn.
  all: by rewrite insert_empty.
Qed.

(** With no worker threads no request is ever processed: every job that is submitted
    stays in the queue. *)
Theorem zero_threads_serve_nothing e c s ls p :
  thread_count c = 0 -> run e c = Looping s -> ThreadPool.run ls (pool s) = Some p ->
  ThreadPool.started p = [] /\ ThreadPool.tasks p = ThreadPool.accepted p.
Proof.
  intros Hc Hr Hp.
  assert (Hpool : pool s = ThreadPool.create 0 (Z.to_nat (u64 (max_queue_size c)))).
  { unfold run in Hr. destruct (EventLoop.construct _ _ _); [|done].
    destruct (TcpServer.start _ _ _ _) as [[server tb] closed]. destruct (Main.cleanup_ms c); [|done].
    injection Hr as <-. cbn. by rewrite Hc. }
  rewrite Hpool in Hp. pose proof (ThreadPool.threads_run_inv _ _ _ _ Hp) as ([I1 _] & _).
  assert (Hs : ThreadPool.started p = []) by (by apply (ThreadPool.no_workers_idle _ _ _ Hp)).
  rewrite Hs in I1. by split.
Qed.

End Run.

(** ** Concrete starts *)

Definition good_env : env :=
  mkEnv (EventLoop.Build_ctor_env 3 4 true) (TcpServer.Build_listen_env 5 0 0 (TcpServer.Build_fcntl_env 0 0)) true 0 0.
Definition busy_port : env :=
  mkEnv (EventLoop.Build_ctor_env 3 4 true) (TcpServer.Build_listen_env 5 (-1) 0 (TcpServer.Build_fcntl_env 0 0)) true 0 0.

Definition config (cleanup_sec threads : Z) : GatewayConfig :=
  mkConfig 8080 10 threads 3000 65536 512 cleanup_sec 10 60 1 2048 256 [].

Definition started_with (e : env) (c : GatewayConfig) : t :=
  match run e c with
  | Looping s => s
  | _ => mk 0 0 (EventLoop.mkTable ∅ ∅) EventLoop.create Timer.create (ThreadPool.create 0 0) (TcpServer.create 0) HealthChecker.create
  end.

Definition sec : Z := 1000 * Timer.ms.

(** C40 applied with a cleanup every three seconds: ticks after 1, 4, 6, 7 and 12 s. *)
Lemma periodic_tasks_on_schedule_witness :
  exists fs, ticks [sec; 4 * sec; 6 * sec; 7 * sec; 12 * sec] (timer (started_with good_env (config 3 4))) = Some fs /\
    Forall2 (≡ₚ) fs [[]; [cleanup_task]; [health_task]; [cleanup_task]; [cleanup_task; health_task]].
Proof.
  destruct (periodic_tasks_on_schedule good_env (config 3 4) (started_with good_env (config 3 4))
    [sec; 4 * sec; 6 * sec; 7 * sec; 12 * sec]) as (fs & ms & Hms & H1 & H2); [by vm_compute|].
  injection Hms as <-. exists fs. split; [exact H1|exact H2].
Defined.

(** Applied with an interval of zero. *)
Lemma zero_cleanup_interval_runs_once_witness :
  exists f fs, ticks [1; sec; 4 * sec] (timer (started_with good_env (config 0 4))) = Some (f :: fs) /\
    cleanup_task ∈ f /\ Forall (fun g => cleanup_task ∉ g) fs.
Proof.
  apply (zero_cleanup_interval_runs_once good_env (config 0 4) (started_with good_env (config 0 4)) 1 [sec; 4 * sec]);
    by vm_compute.
Defined.

(** Applied to a port that is taken. *)
Lemma runs_without_listener_witness :
  EventLoop.callbacks (table (started_with busy_port (config 5 4))) = {[4 := TcpServer.OnWakeup]}.
Proof.
  apply (runs_without_listener busy_port (config 5 4) (started_with busy_port (config 5 4))); by vm_compute.
Defined.

(** Applied to a request submitted to a pool without threads. *)
Lemma zero_threads_serve_nothing_witness :
  let ls := [ThreadPool.Call (ThreadPool.CSubmit (7, lit "GET")); ThreadPool.Client 0 0; ThreadPool.Client 0 0] in
  exists p, ThreadPool.run ls (pool (started_with good_env (config 5 0))) = Some p /\ ThreadPool.started p = [] /\
    ThreadPool.tasks p = [(7, lit "GET")].
Proof.
  intros ls. eexists. split; [by vm_compute|].
  apply (zero_threads_serve_nothing good_env (config 5 0) (started_with good_env (config 5 0)) ls); by vm_compute.
Defined.

End Startup.
