(* ===== verification/Server.v ===== *)
(** * Server: the path of a request through loop, pool and workers

    The composition the lambdas of [Gateway::run] set up: handlers of the event loop run
    the client connections; a complete message is submitted to the worker pool, which
    blocks the loop while the queue is full; a worker runs the pipeline and hands the
    response back with [Connection::send], which defers [send_internal] to the loop.
    A step is one handler, one transfer into or out of the queue, the end of a worker's
    job or one deferred task, so a run is an interleaving of the threads.  Connections are
    objects (the lambdas capture the [shared_ptr]), named by their position; what the
    pipeline answers is arbitrary here ([System] puts the pipeline in).  [delivered] and [answered] record what happened
    and are not part of the program. *)

From S2P Require Import Prelude Http Buffer HttpParser HttpParserProps HttpGrammar Connection.

(** ** What a handler does to the messages *)

Module Handlers.
Import Connection.
Open Scope Z_scope.

(** The messages a handler passes to the message callback. *)
Definition messages (evs : list event) : list bytes :=
  omap (fun e => match e with MessageCallback _ raw => Some raw | _ => None end) evs.

Definition is_handler (o : op) : bool :=
  match o with SendInternal _ _ _ _ => false | _ => true end.

Section Messages.
Context (rounds fuel : nat).

(** Either nothing is delivered and the connection does not wait for an answer, or one
    message is and it does. *)
Definition settled (c : t) (evs : list event) : Prop :=
  (messages evs = [] /\ state c <> Processing) \/ (exists raw, messages evs = [raw] /\ state c = Processing).

Lemma close_settled c : settled (close_internal c).1 (close_internal c).2 /\
  state (close_internal c).1 = Closed /\ messages (close_internal c).2 = [].
Proof.
  assert (H : state (close_internal c).1 = Closed /\ messages (close_internal c).2 = []).
  { unfold close_internal. destruct (bool_decide_reflect (state c = Closed)); done. }
  split; [|done]. left. destruct H as [-> ->]. done.
Qed.

Lemma try_parse_settled n c c' evs :
  state c = Reading -> try_parse_message n fuel c = Some (c', evs) -> settled c' evs.
Proof.
  revert c. induction n as [|n IH]; intros c Hs; cbn [try_parse_message]; [done|].
  assert (Hq : forall c0, state c0 = Reading -> settled c0 []) by (intros c0 H0; left; by rewrite H0).
  destruct (negb _ || _); [|intros [= <- <-]; by apply Hq].
  destruct (Buffer.read_as_string (read_buf c)) as [d|]; cbn [mbind option_bind]; [|done].
  destruct (Parser.parse fuel d (parser c)) as [[k p]|]; cbn [mbind option_bind]; [|done].
  destruct (Parser.has_error p).
  { intros [= H]. pose proof (close_settled (set_read_buf (Buffer.consume k (read_buf c)) (set_parser p c))) as [Hc _].
    by rewrite H in Hc. }
  destruct (Parser.complete p); [intros [= <- <-]; right; by exists (Parser.raw p)|].
  destruct (k =? 0); [intros [= <- <-]; by apply Hq|by apply IH].
Qed.

Lemma read_loop_settled reads c r :
  state c = Reading -> read_loop reads c = Some r ->
  match r with inl c' => state c' = Reading | inr (c', evs) => settled c' evs end.
Proof.
  revert c. induction reads as [|x reads IH]; intros c Hs; cbn [read_loop]; [done|].
  destruct (Buffer.read_from_fd x (read_buf c)) as [[n b]|]; cbn [mbind option_bind]; [|done].
  assert (Hcl : forall r, Some (inr (close_internal (set_read_buf b c))) = Some r ->
    match r with inl c' => state c' = Reading | inr (c', evs) => settled c' evs end).
  { intros r' [= <-]. pose proof (close_settled (set_read_buf b c)) as [H _]. by destruct (close_internal _). }
  destruct (n =? 0); [apply Hcl|]. destruct (n <? 0).
  { destruct x as [e|]; [|done]. destruct (e =? 11); [by intros [= <-]|apply Hcl]. }
  destruct (_ <? _); [apply Hcl|by apply IH].
Qed.

Lemma finish_settled c c' evs :
  finish_response rounds fuel c = Some (c', evs) -> settled c' evs.
Proof.
  unfold finish_response. destruct (keep_alive c); [|intros [= <- <-]; by left].
  destruct (0 <? _); [|intros [= <- <-]; by left].
  destruct (try_parse_message _ _ _) as [[c1 e1]|] eqn:E; cbn [mbind option_bind]; [|done].
  apply try_parse_settled in E; [|done]. intros [= <- <-]. exact E.
Qed.

Lemma on_write_settled now writes c c' evs :
  state c = Writing -> on_write rounds fuel now writes c = Some (c', evs) -> settled c' evs.
Proof.
  intros Hs. unfold on_write. rewrite bool_decide_eq_true_2 by done. cbn [negb].
  assert (Hs' : state (set_time now c) = Writing) by done. revert Hs'. generalize (set_time now c). clear c Hs.
  induction writes as [|[ret errno] writes IH]; intros c Hs; cbn [on_write_loop].
  all: destruct (Buffer.empty (write_buf c)); [by apply finish_settled|try done].
  destruct (Buffer.write_to_fd ret (write_buf c)) as [n b].
  assert (Hq : settled (set_write_buf b c) []) by (left; split; [done|]; cbn; by rewrite Hs).
  destruct (n <? 0).
  - destruct (errno =? 11); [by intros [= <- <-]|]. intros [= H].
    pose proof (close_settled (set_write_buf b c)) as [Hc _]. by rewrite H in Hc.
  - destruct (n =? 0); [by intros [= <- <-]|by apply IH].
Qed.

(** A handler other than [send_internal] leaves a waiting connection waiting unless it
    closes it, and no message is delivered while one is being processed. *)
Lemma handler_messages o c c' evs :
  is_handler o = true -> exec rounds fuel o c = Some (c', evs) ->
  if bool_decide (state c = Processing) then messages evs = [] /\ (state c' = Processing \/ state c' = Closed)
  else settled c' evs.
Proof.
  destruct o as [now reads|now writes|now writes d k|]; try done; intros _; cbn [exec].
  - unfold on_read. destruct (bool_decide_reflect (state c = Closing)) as [E|E].
    { intros [= H]. pose proof (close_settled c) as [Hc _]. rewrite H in Hc. by rewrite E. }
    destruct (bool_decide_reflect (state c = Reading)) as [E2|E2]; cbn [negb].
    + destruct (read_loop reads (set_time now c)) as [r|] eqn:Er; cbn [mbind option_bind]; [|done].
      apply read_loop_settled in Er; [|done]. rewrite E2. destruct r as [c1|[c1 e1]]; [by apply try_parse_settled|].
      by intros [= <- <-].
    + intros [= <- <-]. destruct (bool_decide_reflect (state c = Processing)); [by auto|by left].
  - destruct (decide (state c = Writing)) as [E|E].
    + intros H. rewrite E. by eapply on_write_settled.
    + unfold on_write. rewrite bool_decide_eq_false_2 by done. intros [= <- <-].
      destruct (bool_decide_reflect (state c = Processing)); [by auto|by left].
  - intros [= H]. pose proof (close_settled c) as (H1 & H2 & H3). rewrite H in *.
    destruct (bool_decide_reflect (state c = Processing)); [by auto|done].
Qed.

(** [send_internal] ends the wait of a connection that was not closed meanwhile. *)
Lemma send_messages now writes d k c c' evs :
  exec rounds fuel (SendInternal now writes d k) c = Some (c', evs) ->
  state c = Processing -> settled c' evs.
Proof.
  cbn [exec]. unfold send_internal. intros H E. rewrite bool_decide_eq_true_2 in H by done. cbn [negb andb] in H.
  destruct (Buffer.append d (write_buf c)) as [b|]; cbn [mbind option_bind] in H; [|done].
  destruct (on_write rounds fuel now writes _) as [[c1 e1]|] eqn:Ew; cbn [mbind option_bind] in H; [|done].
  apply on_write_settled in Ew; [|done]. by injection H as <- <-.
Qed.

Lemma closed_inert o c c' evs :
  exec rounds fuel o c = Some (c', evs) -> state c = Closed -> c' = c /\ evs = [].
Proof. intros H E. apply exec_wb in H as [_ H]. by rewrite E in H. Qed.

End Messages.
End Handlers.

(** ** The composition *)

Module Server.
Import Handlers.
Open Scope Z_scope.

(** A job: the connection and the raw request. *)
Definition job : Type := nat * bytes.

(** A deferred [send_internal], with the request it answers. *)
Record reply := mkReply { request : job; out : bytes; ka : bool }.

Record t := mk {
  conns : list Connection.t;
  submitting : list job;         (* the loop is inside pool_->submit *)
  queue : list job;
  workers : list (option job);
  deferred : list reply;
  delivered : list job;
  answered : list (reply * bool)  (* with whether the connection took the response *)
}.

Definition create (threads : nat) : t := mk [] [] [] (replicate threads None) [] [] [].

(** Store the connection a handler has changed and submit its messages. *)
Definition after_handler (i : nat) (c : Connection.t) (evs : list Connection.event) (s : t) : t :=
  let jobs := pair i <$> messages evs in
  mk (<[i := c]> (conns s)) (submitting s ++ jobs) (queue s) (workers s) (deferred s) (delivered s ++ jobs) (answered s).

(** [Connection::send] *)
Definition send (r : reply) (s : t) : t :=
  mk (conns s) (submitting s) (queue s) (workers s) (deferred s ++ [r]) (delivered s) (answered s).

Inductive label :=
  | Accept (now fd size : Z)
  | Handle (i : nat) (o : Connection.op)
  | Submit
  | Take (w : nat)
  | Finish (w : nat) (out : bytes) (ka : bool)
  | RunDeferred (now : Z) (writes : list (Z * Z)).

Section Flow.
Context (max_queue_size rounds fuel : nat).

Definition full (s : t) : bool := (0 <? max_queue_size)%nat && (max_queue_size <=? length (queue s))%nat.

(** The event loop runs one thing at a time and stands still inside [submit]. *)
Definition loop_free (s : t) : bool := bool_decide (submitting s = []).

Definition exec (l : label) (s : t) : option t :=
  match l with
  | Accept now fd size =>
      if loop_free s then
        Some (mk (conns s ++ [Connection.create now fd size]) (submitting s) (queue s) (workers s) (deferred s)
                 (delivered s) (answered s))
      else None
  | Handle i o =>
      if loop_free s && is_handler o then
        c ← conns s !! i;
        '(c, evs) ← Connection.exec rounds fuel o c;
        Some (after_handler i c evs s)
      else None
  | Submit =>
      match submitting s with
      | [] => None
      | j :: js =>
          if full s then None
          else Some (mk (conns s) js (queue s ++ [j]) (workers s) (deferred s) (delivered s) (answered s))
      end
  | Take w =>
      match queue s, workers s !! w with
      | j :: js, Some None =>
          Some (mk (conns s) (submitting s) js (<[w := Some j]> (workers s)) (deferred s) (delivered s) (answered s))
      | _, _ => None
      end
  | Finish w out ka =>
      match workers s !! w with
      | Some (Some j) =>
          Some (send (mkReply j out ka)
                 (mk (conns s) (submitting s) (queue s) (<[w := None]> (workers s)) (deferred s) (delivered s) (answered s)))
      | _ => None
      end
  | RunDeferred now writes =>
      match deferred s with
      | [] => None
      | r :: rs =>
          if loop_free s then
            c ← conns s !! (request r).1;
            '(c', evs) ← Connection.exec rounds fuel (Connection.SendInternal now writes (out r) (ka r)) c;
            Some (after_handler (request r).1 c' evs
                   (mk (conns s) (submitting s) (queue s) (workers s) rs (delivered s)
                       (answered s ++ [(r, bool_decide (Connection.state c = Connection.Processing))])))
          else None
      end
  end.

Fixpoint run (ls : list label) (s : t) : option t :=
  match ls with [] => Some s | l :: ls' => s ← exec l s; run ls' s end.

(** ** Requests in flight *)

(** The requests of connection [i] among [js]. *)
Definition of_conn (i : nat) (js : list job) : list bytes :=
  omap (fun j : job => if decide (j.1 = i) then Some j.2 else None) js.

(** Submitted, queued, with a worker, or answered but not yet given back. *)
Definition flight (s : t) : list job :=
  submitting s ++ queue s ++ omap id (workers s) ++ (request <$> deferred s).

(** A connection waits for an answer exactly when it is processing; a closed one may
    leave one behind. *)
Definition waits (st : option Connection.State) (l : list bytes) : Prop :=
  match st with
  | Some Connection.Processing => length l = 1%nat
  | Some Connection.Closed => (length l <= 1)%nat
  | _ => l = []
  end.

Definition state_of (i : nat) (s : t) : option Connection.State := Connection.state <$> conns s !! i.

Record inv_at (s : t) (i : nat) : Prop := {
  order : of_conn i (delivered s) = of_conn i (request ∘ fst <$> answered s) ++ of_conn i (flight s);
  waiting : waits (state_of i s) (of_conn i (flight s));
  dropped : forall r, (r, false) ∈ answered s -> (request r).1 = i -> state_of i s = Some Connection.Closed
}.

Lemma waits_short st l : waits st l -> (length l <= 1)%nat.
Proof. destruct st as [[]|]; cbn; try lia; intros ->; cbn; lia. Qed.

Lemma perm_short {A} (l l' : list A) : l ≡ₚ l' -> (length l' <= 1)%nat -> l = l'.
Proof.
  intros Hp Hl. destruct l' as [|x [|]]; cbn in Hl; [by apply Permutation_nil_r in Hp|by apply Permutation_singleton_r in Hp|lia].
Qed.

Lemma of_conn_pair i k l : of_conn i (pair k <$> l) = if decide (k = i) then l else [].
Proof.
  unfold of_conn. induction l as [|x l IH]; [by destruct (decide _)|]. cbn. destruct (decide (k = i)); cbn in *; [by f_equal|done].
Qed.

Lemma of_conn_cons i j js : of_conn i (j :: js) = (if decide (j.1 = i) then [j.2] else []) ++ of_conn i js.
Proof. unfold of_conn. cbn. by destruct (decide (j.1 = i)). Qed.

Lemma of_conn_perm i js js' : js ≡ₚ js' -> of_conn i js ≡ₚ of_conn i js'.
Proof. intros H. unfold of_conn. by rewrite H. Qed.

Lemma worker_insert ws w (a b : option job) :
  ws !! w = Some a -> option_list b ++ omap id ws ≡ₚ option_list a ++ omap id (<[w := b]> ws).
Proof.
  revert w. induction ws as [|x ws IH]; intros [|w]; cbn; [done|done| |].
  - intros [= ->]. destruct a as [a|], b as [b|]; cbn; try done. apply Permutation_swap.
  - intros Hw. specialize (IH w Hw). destruct x as [x|]; cbn; [|done]. rewrite <- !Permutation_middle. by rewrite IH.
Qed.

(** A transfer keeps the invariant. *)
Lemma transfer_inv s s' i :
  inv_at s i -> conns s' = conns s -> delivered s' = delivered s -> answered s' = answered s -> flight s' ≡ₚ flight s ->
  inv_at s' i.
Proof.
  intros [H1 H2 H3] Hc Hd Ha Hf.
  assert (E : of_conn i (flight s') = of_conn i (flight s)).
  { apply perm_short; [by apply of_conn_perm|by eapply waits_short]. }
  split; unfold state_of in *; rewrite ?E, ?Hc, ?Hd, ?Ha; done.
Qed.

Lemma after_handler_other s i k c evs : k <> i -> inv_at s k -> inv_at (after_handler i c evs s) k.
Proof.
  intros Hne [H1 H2 H3].
  assert (E : of_conn k (pair i <$> messages evs) = []) by (rewrite of_conn_pair, decide_False; done).
  assert (Ef : of_conn k (flight (after_handler i c evs s)) = of_conn k (flight s)).
  { unfold flight, after_handler. cbn. unfold of_conn in *. rewrite !omap_app. rewrite E. by rewrite app_nil_r. }
  assert (Es : state_of k (after_handler i c evs s) = state_of k s).
  { unfold state_of, after_handler. cbn. by rewrite list_lookup_insert_ne. }
  split; rewrite ?Ef, ?Es; try done. unfold after_handler. cbn [delivered answered].
  unfold of_conn in *. rewrite omap_app, E, app_nil_r. done.
Qed.

Lemma after_handler_self s i c0 c evs :
  conns s !! i = Some c0 ->
  of_conn i (delivered s) = of_conn i (request ∘ fst <$> answered s) ++ of_conn i (flight s) ->
  (of_conn i (flight s) = [] /\ settled c evs) \/
  (messages evs = [] /\ waits (Some (Connection.state c)) (of_conn i (flight s))) ->
  (forall r, (r, false) ∈ answered s -> (request r).1 = i -> Connection.state c = Connection.Closed) ->
  inv_at (after_handler i c evs s) i.
Proof.
  intros Hc Ho Hs Hd.
  assert (E : of_conn i (pair i <$> messages evs) = messages evs) by (rewrite of_conn_pair, decide_True; done).
  assert (Es : state_of i (after_handler i c evs s) = Some (Connection.state c)).
  { unfold state_of, after_handler. cbn. by rewrite list_lookup_insert_eq by (by eapply lookup_lt_Some). }
  assert (Ef : of_conn i (flight (after_handler i c evs s)) = of_conn i (flight s) ++ messages evs).
  { assert (Hp : of_conn i (flight (after_handler i c evs s)) ≡ₚ of_conn i (flight s) ++ messages evs).
    { transitivity (of_conn i (flight s ++ (pair i <$> messages evs))).
      - apply of_conn_perm. unfold flight, after_handler. cbn. solve_Permutation.
      - unfold of_conn in *. by rewrite omap_app, E. }
    apply perm_short in Hp; [done|]. destruct Hs as [[-> [[-> _]|(raw & -> & _)]]|[-> Hw]]; cbn; [lia..|].
    rewrite app_nil_r. by eapply waits_short. }
  split.
  - rewrite Ef. unfold after_handler. cbn [delivered answered]. unfold of_conn in *. rewrite omap_app, E, Ho.
    by rewrite app_assoc.
  - rewrite Es, Ef. destruct Hs as [[-> Hst]|[-> Hw]]; [|by rewrite app_nil_r].
    destruct Hst as [[-> Hn]|(raw & -> & ->)]; [|done]. cbn. destruct (Connection.state c); try done. cbn. lia.
  - rewrite Es. intros r Hr Hi. f_equal. by apply (Hd r).
Qed.

Lemma accept_inv s now fd size i :
  inv_at s i -> inv_at (mk (conns s ++ [Connection.create now fd size]) (submitting s) (queue s) (workers s) (deferred s)
                           (delivered s) (answered s)) i.
Proof.
  intros [H1 H2 H3].
  assert (Hs : state_of i s <> None -> state_of i (mk (conns s ++ [Connection.create now fd size]) (submitting s) (queue s)
    (workers s) (deferred s) (delivered s) (answered s)) = state_of i s).
  { unfold state_of. cbn. destruct (conns s !! i) as [c|] eqn:E; [|done]. intros _. by rewrite (lookup_app_l_Some _ _ _ _ E). }
  split; [done| |].
  - destruct (state_of i s) as [st|] eqn:E; [by rewrite Hs|]. cbn in H2. cbn [flight submitting queue workers deferred] in *.
    change (flight (mk _ _ _ _ _ _ _)) with (flight s). rewrite H2. unfold state_of. cbn.
    destruct ((conns s ++ [Connection.create now fd size]) !! i) as [c|] eqn:Ec; [|done].
    unfold state_of in E. destruct (conns s !! i) as [c0|] eqn:E0; [done|].
    apply lookup_app_Some in Ec as [Ec|[_ Ec]]; [congruence|]. apply list_lookup_singleton_Some in Ec as [_ <-]. done.
  - intros r Hr Hi. rewrite Hs; [by apply (H3 r)|]. by rewrite (H3 r).
Qed.

Lemma handle_inv s i c c' o evs k :
  conns s !! i = Some c -> is_handler o = true -> Connection.exec rounds fuel o c = Some (c', evs) ->
  inv_at s k -> inv_at (after_handler i c' evs s) k.
Proof.
  intros Hc Ho He Hi. destruct (decide (k = i)) as [->|Hne]; [|by apply after_handler_other].
  pose proof (handler_messages rounds fuel o c c' evs Ho He) as Hm. destruct Hi as [H1 H2 H3].
  unfold state_of in H2, H3. rewrite Hc in H2, H3. cbn [fmap option_fmap option_map] in H2, H3.
  apply (after_handler_self s i c); try done.
  - destruct (decide (Connection.state c = Connection.Closed)) as [E|E].
    { destruct (closed_inert _ _ _ _ _ _ He E) as [-> ->]. by right. }
    destruct (bool_decide_reflect (Connection.state c = Connection.Processing)) as [Ep|Ep].
    + right. destruct Hm as [-> [E'|E']]; split; try done; rewrite E'; rewrite Ep in H2; cbn in *; [done|lia].
    + left. split; [|done]. destruct (Connection.state c); done.
  - intros r Hr Hi. specialize (H3 r Hr Hi). injection H3 as E. by destruct (closed_inert _ _ _ _ _ _ He E) as [-> _].
Qed.

(** A response that is about to be sent finds its connection waiting for it, or closed. *)
Lemma deferred_state s r rs c :
  deferred s = r :: rs -> conns s !! (request r).1 = Some c -> inv_at s (request r).1 ->
  Connection.state c = Connection.Processing \/ Connection.state c = Connection.Closed.
Proof.
  intros Hd Hc [_ H2 _]. unfold state_of in H2. rewrite Hc in H2. cbn [fmap option_fmap option_map] in H2.
  assert (Hin : (request r).2 ∈ of_conn (request r).1 (flight s)).
  { unfold of_conn. apply list_elem_of_omap. exists (request r). split; [|by rewrite decide_True].
    unfold flight. rewrite Hd. set_solver. }
  destruct (Connection.state c); cbn [waits] in H2; auto; rewrite H2 in Hin; by apply not_elem_of_nil in Hin.
Qed.

Lemma deferred_inv s r rs c c' now writes evs k :
  deferred s = r :: rs -> conns s !! (request r).1 = Some c ->
  Connection.exec rounds fuel (Connection.SendInternal now writes (out r) (ka r)) c = Some (c', evs) ->
  (forall k, inv_at s k) ->
  inv_at (after_handler (request r).1 c' evs
    (mk (conns s) (submitting s) (queue s) (workers s) rs (delivered s)
        (answered s ++ [(r, bool_decide (Connection.state c = Connection.Processing))]))) k.
Proof.
  intros Hd Hc He Hi. set (s1 := mk _ _ _ _ _ _ _). set (i := (request r).1) in *.
  assert (Hf : flight s ≡ₚ request r :: flight s1).
  { unfold flight, s1. rewrite Hd. cbn. solve_Permutation. }
  assert (Ha : forall j, of_conn j (request ∘ fst <$> answered s1) =
    of_conn j (request ∘ fst <$> answered s) ++ (if decide (i = j) then [(request r).2] else [])).
  { intros j. unfold s1, of_conn. cbn. rewrite fmap_app, omap_app. cbn. fold i. by destruct (decide (i = j)). }
  assert (Hfj : forall j, of_conn j (flight s) = (if decide (i = j) then [(request r).2] else []) ++ of_conn j (flight s1)).
  { intros j. apply (of_conn_perm j) in Hf. rewrite of_conn_cons in Hf. fold i in Hf. symmetry. apply perm_short; [by rewrite Hf|].
    eapply waits_short, Hi. }
  assert (Ho : of_conn k (delivered s1) = of_conn k (request ∘ fst <$> answered s1) ++ of_conn k (flight s1)).
  { rewrite Ha, <- app_assoc, <- Hfj. apply Hi. }
  destruct (decide (k = i)) as [->|Hne].
  - destruct (Hi i) as [_ H2 H3]. unfold state_of in H2, H3. rewrite Hc in H2, H3.
    cbn [fmap option_fmap option_map] in H2, H3.
    pose proof (deferred_state s r rs c Hd Hc (Hi _)) as Hst.
    rewrite Hfj, decide_True in H2 by done. cbn [app] in H2.
    assert (Hnil : of_conn i (flight s1) = []).
    { apply waits_short in H2. cbn [length] in H2. apply length_zero_iff_nil. lia. }
    apply (after_handler_self s1 i c); try done.
    + rewrite Hnil. destruct Hst as [E|E]; [left; by eauto using send_messages|].
      destruct (closed_inert _ _ _ _ _ _ He E) as [-> ->]. right. split; [done|].
      rewrite E. cbn. lia.
    + intros r' Hr' Hi'. apply elem_of_app in Hr' as [Hr'|Hr'].
      * specialize (H3 r' Hr' Hi'). injection H3 as E. by destruct (closed_inert _ _ _ _ _ _ He E) as [-> _].
      * apply list_elem_of_singleton in Hr'. injection Hr' as -> Hb. symmetry in Hb. apply bool_decide_eq_false in Hb.
        destruct Hst as [E|E]; [done|]. by destruct (closed_inert _ _ _ _ _ _ He E) as [-> _].
  - apply after_handler_other; [done|]. destruct (Hi k) as [H1 H2 H3].
    split; [done| |].
    + rewrite Hfj, decide_False in H2 by done. exact H2.
    + intros r' Hr' Hi'. apply (H3 r'); [|done]. apply elem_of_app in Hr' as [Hr'|Hr']; [done|].
      apply list_elem_of_singleton in Hr'. by injection Hr' as -> _.
Qed.

Lemma flow_exec_inv l s s' : exec l s = Some s' -> (forall i, inv_at s i) -> forall i, inv_at s' i.
Proof.
  intros He Hi k. destruct l as [now fd size|i o| |w|w o b|now writes]; cbn [exec] in He.
  - destruct (loop_free s); [|done]. injection He as <-. by apply accept_inv.
  - destruct (loop_free s && is_handler o) eqn:Eh; [|done]. apply andb_true_iff in Eh as [_ Ho].
    destruct (conns s !! i) as [c|] eqn:Ec; cbn [mbind option_bind] in He; [|done].
    destruct (Connection.exec rounds fuel o c) as [[c' evs]|] eqn:Ee; cbn [mbind option_bind] in He; [|done].
    injection He as <-. by eapply handle_inv.
  - destruct (submitting s) as [|j js] eqn:Es; [done|]. destruct (full s); [done|]. injection He as <-.
    apply (transfer_inv s); try done. unfold flight. cbn. rewrite Es. cbn. solve_Permutation.
  - destruct (queue s) as [|j js] eqn:Eq; [done|]. destruct (workers s !! w) as [[|]|] eqn:Ew; try done. injection He as <-.
    apply (transfer_inv s); try done. unfold flight. cbn. rewrite Eq.
    pose proof (worker_insert _ _ _ (Some j) Ew) as Hp. cbn in Hp. rewrite <- Hp. cbn. solve_Permutation.
  - destruct (workers s !! w) as [[j|]|] eqn:Ew; try done. injection He as <-.
    apply (transfer_inv s); try done. unfold flight, send. cbn. rewrite fmap_app. cbn.
    pose proof (worker_insert _ _ _ None Ew) as Hp. cbn in Hp. rewrite Hp. solve_Permutation.
  - destruct (deferred s) as [|r rs] eqn:Ed; [done|]. destruct (loop_free s); [|done].
    destruct (conns s !! (request r).1) as [c|] eqn:Ec; cbn [mbind option_bind] in He; [|done].
    destruct (Connection.exec rounds fuel _ c) as [[c' evs]|] eqn:Ee; cbn [mbind option_bind] in He; [|done].
    injection He as <-. by eapply deferred_inv.
Qed.

Lemma create_flight n : flight (create n) = [].
Proof. unfold flight. cbn. induction n as [|n IH]; [done|exact IH]. Qed.

Lemma server_run_inv ls n s : run ls (create n) = Some s -> forall i, inv_at s i.
Proof.
  assert (H0 : forall i, inv_at (create n) i).
  { intros i. split; rewrite ?create_flight; try done. intros r Hr. by apply not_elem_of_nil in Hr. }
  revert H0. generalize (create n). induction ls as [|l ls IH]; intros s0 H0; cbn [run]; [by intros [= <-]|].
  destruct (exec l s0) as [s1|] eqn:E; cbn [mbind option_bind]; [|done]. apply IH. by eapply flow_exec_inv.
Qed.

(** Responses go to the connection that asked, in the order of its requests: in every
    interleaving of the loop, the pool and the workers, the requests a connection has
    delivered are those that were answered, in the same order, followed by the one in
    flight, of which there is at most one; it is in flight exactly while the connection
    is processing.  A response is dropped only when its connection has been closed. *)
Theorem responses_in_order ls n s i :
  run ls (create n) = Some s ->
  of_conn i (delivered s) = of_conn i (request ∘ fst <$> answered s) ++ of_conn i (flight s) /\
  (length (of_conn i (flight s)) <= 1)%nat /\
  (state_of i s = Some Connection.Processing -> length (of_conn i (flight s)) = 1%nat) /\
  (forall st, state_of i s = Some st -> st <> Connection.Processing -> st <> Connection.Closed -> of_conn i (flight s) = []) /\
  (forall r, (r, false) ∈ answered s -> (request r).1 = i -> state_of i s = Some Connection.Closed).
Proof.
  intros Hr. destruct (server_run_inv ls n s Hr i) as [H1 H2 H3]. split; [done|]. split; [by eapply waits_short|].
  split; [intros E; by rewrite E in H2|]. split; [|done]. intros [] E; rewrite E in H2; done.
Qed.

(** ** Loop and pool do not wait for each other *)

Definition pool_step (l : label) : bool :=
  match l with Submit | Take _ | Finish _ _ _ => true | _ => false end.

Definition work (s : t) : nat :=
  3 * length (submitting s) + 2 * length (queue s) + length (omap id (workers s)).

Lemma pool_step_works l s s' : pool_step l = true -> exec l s = Some s' -> (work s' < work s)%nat.
Proof.
  destruct l as [| | |w|w o b|]; try done; intros _; cbn [exec]; unfold work.
  - destruct (submitting s) as [|j js]; [done|]. destruct (full s); [done|]. intros [= <-]. cbn. rewrite length_app. cbn. lia.
  - destruct (queue s) as [|j js]; [done|]. destruct (workers s !! w) as [[|]|] eqn:Ew; try done. intros [= <-]. cbn.
    pose proof (worker_insert _ _ _ (Some j) Ew) as Hp. apply Permutation_length in Hp. cbn in Hp. rewrite <- Hp. lia.
  - destruct (workers s !! w) as [[j|]|] eqn:Ew; try done. intros [= <-]. cbn.
    pose proof (worker_insert _ _ _ None Ew) as Hp. apply Permutation_length in Hp. cbn in Hp. rewrite Hp. lia.
Qed.

Lemma exec_workers l s s' : exec l s = Some s' -> length (workers s') = length (workers s).
Proof.
  destruct l as [now fd size|i o| |w|w o b|now writes]; cbn [exec].
  - destruct (loop_free s); [|done]. by intros [= <-].
  - destruct (_ && _); [|done]. destruct (conns s !! i); cbn [mbind option_bind]; [|done].
    destruct (Connection.exec rounds fuel _ _) as [[]|]; [|done]. by intros [= <-].
  - destruct (submitting s); [done|]. destruct (full s); [done|]. by intros [= <-].
  - destruct (queue s); [done|]. destruct (workers s !! w) as [[|]|]; try done. intros [= <-]. cbn. by rewrite length_insert.
  - destruct (workers s !! w) as [[|]|]; try done. intros [= <-]. cbn. by rewrite length_insert.
  - destruct (deferred s); [done|]. destruct (loop_free s); [|done]. destruct (conns s !! _); cbn [mbind option_bind]; [|done].
    destruct (Connection.exec rounds fuel _ _) as [[]|]; [|done]. by intros [= <-].
Qed.

Lemma flow_run_workers ls s s' : run ls s = Some s' -> length (workers s') = length (workers s).
Proof.
  revert s; induction ls as [|l ls IH]; intros s; cbn [run]; [by intros [= <-]|].
  destruct (exec l s) as [s1|] eqn:E; cbn [mbind option_bind]; [|done]. intros ->%IH. by eapply exec_workers.
Qed.

(** The loop that blocks on a full queue is never deadlocked with the workers: from
    every reachable state the pool can take at most [work s] steps on its own, and when
    none is left the queue is empty, every worker is idle, the loop has left [submit]
    and every request in flight has its response waiting in the loop's own list. *)
Theorem loop_and_pool_progress ls n s ls' s' :
  (0 < n)%nat -> run ls (create n) = Some s -> Forall (fun l => pool_step l = true) ls' -> run ls' s = Some s' ->
  (length ls' <= work s)%nat /\
  ((forall l, pool_step l = true -> exec l s' = None) ->
   loop_free s' = true /\ queue s' = [] /\ flight s' = (request <$> deferred s')).
Proof.
  intros Hn Hr Hf Hr'. split.
  { enough (length ls' + work s' <= work s)%nat by lia. clear Hr. revert s Hr'.
    induction Hf as [|l ls' Hl _ IH]; intros s; cbn [run]; [intros [= <-]; cbn [length]; lia|].
    destruct (exec l s) as [s1|] eqn:E; cbn [mbind option_bind]; [|done]. intros H1%IH.
    apply pool_step_works in E; [|done]. cbn [length]. lia. }
  intros Hstuck. assert (Hlen : length (workers s') = n).
  { rewrite (flow_run_workers _ _ _ Hr'), (flow_run_workers _ _ _ Hr). cbn. apply length_replicate. }
  assert (Hidle : forall w j, workers s' !! w = Some (Some j) -> False).
  { intros w j Hw. specialize (Hstuck (Finish w [] true) eq_refl). cbn in Hstuck. by rewrite Hw in Hstuck. }
  assert (Hw0 : workers s' !! 0%nat = Some None).
  { destruct (workers s' !! 0%nat) as [[j|]|] eqn:E; [by destruct (Hidle _ _ E)|done|].
    apply lookup_ge_None in E. lia. }
  assert (Hq : queue s' = []).
  { specialize (Hstuck (Take 0) eq_refl). cbn in Hstuck. rewrite Hw0 in Hstuck. by destruct (queue s'). }
  assert (Hsub : submitting s' = []).
  { specialize (Hstuck Submit eq_refl). cbn in Hstuck. destruct (submitting s') as [|j js]; [done|].
    assert (full s' = false) as Hfull; [|by rewrite Hfull in Hstuck]. unfold full. rewrite Hq. cbn [length].
    destruct max_queue_size; done. }
  split; [unfold loop_free; by rewrite Hsub|]. split; [done|]. unfold flight. rewrite Hsub, Hq. cbn.
  assert (omap id (workers s') = []) as ->; [|done].
  revert Hidle. clear. generalize (workers s') as ws. induction ws as [|[j|] ws IH]; intros H; [done|by destruct (H 0%nat j)|].
  apply IH. intros w j Hw. by apply (H (S w) j).
Qed.

End Flow.

(** ** One request, all the way *)

(** A connection between two requests. *)
Definition ready (c : Connection.t) : Prop :=
  Connection.state c = Connection.Reading /\ Buffer.rep (Connection.read_buf c) [] /\
  Buffer.rep (Connection.write_buf c) [] /\ HttpGrammar.fresh (Connection.parser c) /\
  HttpParser.partial (Connection.parser c) = [].

(** The steps of one request when nothing else happens. *)
Definition round_trip (i w : nat) (now now' : Z) (m out : bytes) (ka : bool) : list label :=
  [Handle i (Connection.OnRead now [Buffer.IoOk m; Buffer.IoErr 11]); Submit; Take w; Finish w out ka;
   RunDeferred now' [(zlen out, 0)]].

Lemma run_step mq rounds fuel l ls s s1 :
  exec mq rounds fuel l s = Some s1 -> run mq rounds fuel (l :: ls) s = run mq rounds fuel ls s1.
Proof. intros H. cbn [run]. by rewrite H. Qed.

(** C16. A request goes all the way: on an idle server a plain request that arrives in one
    read on a ready connection is delivered, queued, taken by a free worker and answered, whatever
    the pipeline answers; the whole response is written at once and recorded for this request,
    loop, pool and workers are idle as before, and the connection is ready for the next
    request, or lingers to be closed when the response ends it. *)
Theorem request_round_trip mq rounds s i c w now now' m out ka :
  submitting s = [] -> queue s = [] -> deferred s = [] -> workers s !! w = Some None ->
  conns s !! i = Some c -> ready c -> m <> [] -> out <> [] ->
  zlen (Buffer.buf (Connection.read_buf c)) + zlen m < Buffer.max_size ->
  zlen (Buffer.buf (Connection.write_buf c)) + zlen out < Buffer.max_size ->
  zlen m <= u64 (Connection.max_request_size c) ->
  (HttpParserProps.rounds_for m (Connection.parser c) <= rounds)%nat ->
  Connection.plain_request (HttpParser.max_size (Connection.parser c)) m ->
  exists s' c', run mq rounds 4 (round_trip i w now now' m out ka) s = Some s' /\
    answered s' = answered s ++ [(mkReply (i, m) out ka, true)] /\ conns s' !! i = Some c' /\
    submitting s' = [] /\ queue s' = [] /\ deferred s' = [] /\ workers s' = workers s /\
    if ka then ready c' else Connection.state c' = Connection.Closing.
Proof.
  intros Hs Hq Hd Hw Hc (R1 & R2 & R3 & R4 & R5) Hm Ho Hz1 Hz2 Hlim Hr Hp.
  destruct (Connection.read_delivers now c m m [] rounds R1 R2 R4 Hm Hz1 Hlim Hr Hp)
    as (c1 & E1 & D1 & D2 & D3 & D4 & D5 & D6); [by rewrite R5, app_nil_r|].
  destruct (Connection.send_completes rounds 4 now' c1 out ka D1) as (c2 & evs & E2 & F1 & F2 & F3 & F4 & F5);
    [by rewrite D6|done|done|done|by rewrite D6|].
  assert (Hmsg : messages evs = []) by (rewrite F2; by destruct ka). clear F2.
  destruct s as [cs sub q ws df dl an]. cbn in Hs, Hq, Hd, Hw, Hc. subst sub q df.
  assert (Hi : (i < length cs)%nat) by (by eapply lookup_lt_Some).
  assert (Hwl : (w < length ws)%nat) by (by eapply lookup_lt_Some).
  exists (mk (<[i := c2]> (<[i := c1]> cs)) [] [] ws [] (dl ++ [(i, m)]) (an ++ [(mkReply (i, m) out ka, true)])), c2.
  unfold round_trip.
  rewrite (run_step _ _ _ _ _ _ (mk (<[i := c1]> cs) [(i, m)] [] ws [] (dl ++ [(i, m)]) an))
    by (cbn; rewrite Hc; cbn [mbind option_bind]; by rewrite E1).
  rewrite (run_step _ _ _ _ _ _ (mk (<[i := c1]> cs) [] [(i, m)] ws [] (dl ++ [(i, m)]) an))
    by (cbn [exec submitting full queue length]; by destruct mq).
  rewrite (run_step _ _ _ _ _ _ (mk (<[i := c1]> cs) [] [] (<[w := Some (i, m)]> ws) [] (dl ++ [(i, m)]) an))
    by (cbn [exec queue workers]; by rewrite Hw).
  rewrite (run_step _ _ _ _ _ _ (mk (<[i := c1]> cs) [] [] ws [mkReply (i, m) out ka] (dl ++ [(i, m)]) an))
    by (cbn [exec workers]; rewrite list_lookup_insert_eq by done; unfold send; cbn;
        by rewrite list_insert_insert_eq, (list_insert_id ws w None Hw)).
  split.
  { cbn [run exec deferred conns request fst]. rewrite list_lookup_insert_eq by done.
    change (loop_free _) with true. cbn [mbind option_bind Connection.exec Server.out Server.ka]. rewrite E2. cbn [mbind option_bind].
    unfold after_handler. rewrite Hmsg. cbn. rewrite app_nil_r. by rewrite bool_decide_eq_true_2. }
  cbn [answered conns submitting queue deferred workers]. split_and!; try done.
  - by rewrite list_lookup_insert_eq by (by rewrite length_insert).
  - destruct ka; [|done]. unfold ready. rewrite F1, F3, F5. by split_and!.
Qed.

(** ** Concrete runs *)

Definition get (p : string) : bytes := lit "GET /" ++ lit p ++ lit " HTTP/1.1" ++ CRLFCRLF.
Definition reads (m : bytes) : Connection.op := Connection.OnRead 1 [Buffer.IoOk m; Buffer.IoErr 11].

(** Two clients, one worker and one queue slot: the loop blocks on a third request. *)
Definition busy_run : list label :=
  [Accept 0 7 65536; Accept 0 8 65536; Accept 0 9 65536; Handle 0 (reads (get "a")); Submit; Take 0;
   Handle 1 (reads (get "b")); Submit; Handle 2 (reads (get "c"))].

Definition drain : list label :=
  [Finish 0 (lit "A") true; Take 0; Submit; Finish 0 (lit "B") true; Take 0; Finish 0 (lit "C") false].

Definition at_ (ls : list label) : t := default (create 1) (run 1 100 4 ls (create 1)).

(** Applied after the first client has been answered. *)
Lemma responses_in_order_witness :
  let s := at_ (busy_run ++ drain ++ [RunDeferred 2 [(1, 0)]]) in
  of_conn 0 (delivered s) = [get "a"] /\ (length (of_conn 0 (flight s)) <= 1)%nat /\ of_conn 0 (flight s) = [].
Proof.
  intros s. destruct (responses_in_order 1 100 4 (busy_run ++ drain ++ [RunDeferred 2 [(1, 0)]]) 1 s 0) as (_ & H & _ & H' & _).
  - by vm_compute.
  - split; [by vm_compute|]. split; [exact H|]. by apply (H' Connection.Reading); vm_compute.
Defined.

(** Applied to the blocked loop: six steps of the pool set it free. *)
Lemma loop_and_pool_progress_witness :
  let s := at_ busy_run in let s' := at_ (busy_run ++ drain) in
  loop_free s = false /\ (length drain <= work s)%nat /\ loop_free s' = true /\
  flight s' = [(0%nat, get "a"); (1%nat, get "b"); (2%nat, get "c")].
Proof.
  intros s s'. destruct (loop_and_pool_progress 1 100 4 busy_run 1 s drain s') as (H1 & H2).
  - lia.
  - by vm_compute.
  - by repeat constructor.
  - by vm_compute.
  - split; [by vm_compute|]. split; [exact H1|]. destruct H2 as (H3 & _ & H4).
    + intros [| | |w|w o b|] Hl; try discriminate Hl; [by vm_compute..|]. destruct w; by vm_compute.
    + split; [exact H3|]. rewrite H4. by vm_compute.
Defined.

(** C16 applied to one client of a fresh server. *)
Lemma request_round_trip_witness :
  exists s' c', run 1 100 4 (round_trip 0 0 1 2 (get "a") (lit "OK") true) (at_ [Accept 0 7 65536]) = Some s' /\
    answered s' = [(mkReply (0%nat, get "a") (lit "OK") true, true)] /\ conns s' !! 0%nat = Some c' /\ ready c'.
Proof.
  destruct (request_round_trip 1 100 (at_ [Accept 0 7 65536]) 0 (Connection.create 0 7 65536) 0 1 2 (get "a") (lit "OK") true)
    as (s' & c' & H1 & H2 & H3 & _ & _ & _ & _ & H4).
  1-5: by vm_compute.
  - split_and!; [done|apply Buffer.create_rep|apply Buffer.create_rep| |done].
    apply (HttpGrammar.reset_fresh (HttpParser.set_max_size 65536 HttpParser.create)).
  - discriminate.
  - discriminate.
  - by vm_compute.
  - by vm_compute.
  - by vm_compute.
  - vm_compute. lia.
  - exists (lit "GET /a HTTP/1.1"), [], [],
      (snd (HttpParser.parse_request_line (lit "GET /a HTTP/1.1") Http.empty_request)).
    split; [by vm_compute|]. split; [split; [done|by apply HttpGrammar.CR_free_dec]|].
    split; [constructor|]. by split_and!; vm_compute.
  - exists s', c'. split; [exact H1|]. split; [exact H2|]. split; [exact H3|exact H4].
Defined.

End Server.
