(* ===== verification/System.v ===== *)
(** * System: loop, thread pool and pipeline together

    The gateway at the granularity of its locks.  The client connections run in the event
    loop as in [Server]; the worker pool is the machine of [ThreadPool], with the loop as
    its only client and each critical section and notification a step; a worker that has
    a job runs the pipeline of [Workers] on it, one call of [process_request] at a time,
    and its [Connection::send] puts the response in the loop's list.  The machine projects
    onto each of the three, so what they promise holds of the whole.  [jobs], [delivered]
    and [answered] record what happened and are not part of the program. *)

From S2P Require Import Prelude StdSort StdMap Utils Config Router Http HttpParser LoadBalancer CircuitBreaker BackendConnection BackendPool Proxy Stats Filters Gateway Workers Accounting Buffer Connection ThreadPool Server.

Module System.
Import Config Filters.
Module TP := ThreadPool.
Module S := Server.
Module A := Accounting.
Module G := Gateway.

Section System.
Context {W : Type} `{StdSort} `{HashOrder} (rounds fuel : nat).

Record t := mk {
  conns : list Connection.t;
  pool : TP.t S.job;
  work : @Workers.t W;
  slots : list (option nat);          (* the pipeline run of each worker, until it has sent *)
  deferred : list S.reply;
  jobs : list S.job;                  (* what each pipeline run was started on *)
  delivered : list S.job;
  answered : list (S.reply * bool)
}.

Definition create (threads max_queue : nat) (g : G.t W) : t :=
  mk [] (TP.create threads max_queue) (Workers.init g) (replicate threads None) [] [] [] [].

Definition returned (c : TP.client S.job) : bool :=
  match c with TP.CDone _ | TP.CThrow => true | _ => false end.

(** The event loop is not inside [submit]. *)
Definition loop_free (s : t) : bool := forallb returned (TP.clients (pool s)).

Definition set_pool (p : TP.t S.job) (s : t) : t :=
  mk (conns s) p (work s) (slots s) (deferred s) (jobs s) (delivered s) (answered s).
Definition set_work (w : @Workers.t W) (s : t) : t :=
  mk (conns s) (pool s) w (slots s) (deferred s) (jobs s) (delivered s) (answered s).

(** The message callback: the loop calls [pool_->submit]. *)
Definition call_submit (js : list S.job) (p : TP.t S.job) : TP.t S.job :=
  TP.set_clients (TP.clients p ++ (TP.CSubmit <$> js)) p.

Definition after_handler (i : nat) (c : Connection.t) (evs : list Connection.event) (s : t) : t :=
  let js := pair i <$> Handlers.messages evs in
  mk (<[i := c]> (conns s)) (call_submit js (pool s)) (work s) (slots s) (deferred s) (jobs s) (delivered s ++ js) (answered s).

Inductive label :=
  | Accept (now fd size : Z)
  | Handle (i : nat) (o : Connection.op)
  | Pool (l : TP.label S.job)                  (* a thread inside the pool, not in a job *)
  | Start (w k : nat) (e : G.env)                     (* a worker notifies and begins its job *)
  | Work (w : nat)                                    (* the next call of its pipeline run *)
  | Send (w : nat)                                    (* conn->send *)
  | Cleanup (now : Z)
  | RunDeferred (now : Z) (writes : list (Z * Z)).

(** What the pool does apart from running jobs. *)
Definition pool_label (l : TP.label S.job) (s : t) : bool :=
  match l with
  | TP.Client _ _ | TP.SpuriousWorker _ | TP.SpuriousClient _ => true
  | TP.Worker w _ =>
      match TP.workers (pool s) !! w, slots s !! w with
      | Some TP.WCheck, _ => true
      | Some (TP.WRun _), Some None => true
      | _, _ => false
      end
  | TP.Call _ | TP.Destroy => false
  end.

Definition exec (l : label) (s : t) : option t :=
  match l with
  | Accept now fd size =>
      if loop_free s then
        Some (mk (conns s ++ [Connection.create now fd size]) (pool s) (work s) (slots s) (deferred s) (jobs s)
                 (delivered s) (answered s))
      else None
  | Handle i o =>
      if loop_free s && Handlers.is_handler o then
        c ← conns s !! i;
        '(c, evs) ← Connection.exec rounds fuel o c;
        Some (after_handler i c evs s)
      else None
  | Pool l => if pool_label l s then p ← TP.exec l (pool s); Some (set_pool p s) else None
  | Start w k e =>
      match TP.workers (pool s) !! w with
      | Some (TP.WNotify j) =>
          p ← TP.exec (TP.Worker w k) (pool s);
          x ← Workers.exec (Workers.Spawn e j.2) (work s);
          Some (mk (conns s) p x (<[w := Some (length (Workers.threads (work s)))]> (slots s)) (deferred s) (jobs s ++ [j])
                   (delivered s) (answered s))
      | _ => None
      end
  | Work w =>
      match slots s !! w with
      | Some (Some i) => x ← Workers.exec (Workers.Step i) (work s); Some (set_work x s)
      | _ => None
      end
  | Send w =>
      match TP.workers (pool s) !! w, slots s !! w with
      | Some (TP.WRun j), Some (Some i) =>
          match Workers.threads (work s) !! i with
          | Some (_, Workers.Sent out ka) =>
              Some (mk (conns s) (pool s) (work s) (<[w := None]> (slots s)) (deferred s ++ [S.mkReply j out ka]) (jobs s)
                       (delivered s) (answered s))
          | _ => None
          end
      | _, _ => None
      end
  | Cleanup now => if loop_free s then x ← Workers.exec (Workers.Cleanup now) (work s); Some (set_work x s) else None
  | RunDeferred now writes =>
      match deferred s with
      | [] => None
      | r :: rs =>
          if loop_free s then
            c ← conns s !! (S.request r).1;
            '(c', evs) ← Connection.exec rounds fuel (Connection.SendInternal now writes (S.out r) (S.ka r)) c;
            Some (after_handler (S.request r).1 c' evs
                   (mk (conns s) (pool s) (work s) (slots s) rs (jobs s) (delivered s)
                       (answered s ++ [(r, bool_decide (Connection.state c = Connection.Processing))])))
          else None
      end
  end.

Fixpoint run (ls : list label) (s : t) : option t :=
  match ls with [] => Some s | l :: ls' => s ← exec l s; run ls' s end.

(** ** Projections *)

(** The request a call of [submit] still carries. *)
Definition pending (c : TP.client S.job) : option S.job :=
  match c with TP.CSubmit j | TP.CSleep j => Some j | _ => None end.

(** The request a worker has not answered yet. *)
Definition busy (w : TP.worker S.job) (sl : option nat) : option S.job :=
  match w, sl with
  | TP.WNotify j, _ => Some j
  | TP.WRun j, Some _ => Some j
  | _, _ => None
  end.

Definition abs (s : t) : S.t :=
  S.mk (conns s) (omap pending (TP.clients (pool s))) (TP.tasks (pool s)) (zip_with busy (TP.workers (pool s)) (slots s))
    (deferred s) (delivered s) (answered s).

(** ** Invariant *)

(** Only the last call of the loop may still be inside [submit]; a pipeline run belongs to
    a worker that is running its job. *)
Record inv (m : nat) (s : t) : Prop := {
  inv_alive : TP.stop (pool s) = false;
  inv_size : TP.max_queue_size (pool s) = m;
  inv_last i c : TP.clients (pool s) !! i = Some c -> returned c = false -> S i = length (TP.clients (pool s));
  inv_calls : Forall (fun c => match c with TP.CTry _ | TP.CEnqueue _ => False | _ => True end) (TP.clients (pool s));
  inv_slots : length (slots s) = length (TP.workers (pool s));
  inv_jobs : length (jobs s) = length (Workers.threads (work s));
  inv_runs w i : slots s !! w = Some (Some i) ->
    exists j, TP.workers (pool s) !! w = Some (TP.WRun j) /\ jobs s !! i = Some j
}.

Lemma messages_le o c c' evs :
  Connection.exec rounds fuel o c = Some (c', evs) -> (length (Handlers.messages evs) <= 1)%nat.
Proof.
  assert (Hst : Handlers.settled c' evs -> (length (Handlers.messages evs) <= 1)%nat).
  { intros [[-> _]|(raw & -> & _)]; cbn; lia. }
  intros He. destruct (Handlers.is_handler o) eqn:Eo.
  - pose proof (Handlers.handler_messages rounds fuel o c c' evs Eo He) as Hm.
    destruct (bool_decide _); [destruct Hm as [-> _]; cbn; lia|by apply Hst].
  - destruct o as [| |now writes d k|]; try done. cbn [Connection.exec] in He. unfold Connection.send_internal in He.
    destruct (negb _ && negb _); [injection He as _ <-; cbn; lia|].
    destruct (Buffer.append d (Connection.write_buf c)) as [b|]; cbn [mbind option_bind] in He; [|done].
    destruct (Connection.on_write rounds fuel now writes _) as [[c1 e1]|] eqn:Ew; cbn [mbind option_bind] in He; [|done].
    apply Handlers.on_write_settled in Ew; [|done]. injection He as <- <-. by apply Hst.
Qed.

Lemma omap_same {A B} (f : A -> option B) (l : list A) (i : nat) a b :
  l !! i = Some a -> f a = f b -> omap f (<[i := b]> l) = omap f l.
Proof.
  revert i; induction l as [|x l IH]; intros [|i]; cbn; [done|done|..].
  - intros [= ->] ->. done.
  - intros Hi Hf. specialize (IH i Hi Hf). destruct (f x); [f_equal|]; exact IH.
Qed.

(** The one call that has not returned is the only one that carries a request. *)
Lemma pending_last (cs : list (TP.client S.job)) (i : nat) (c b : TP.client S.job) :
  (forall k d, cs !! k = Some d -> returned d = false -> S k = length cs) ->
  cs !! i = Some c -> returned c = false ->
  omap pending cs = option_list (pending c) /\ omap pending (<[i := b]> cs) = option_list (pending b).
Proof.
  intros Hl Hi Hc. assert (Hlen := Hl i c Hi Hc).
  assert (E : cs = take i cs ++ [c]).
  { rewrite <- (take_drop i cs) at 1. f_equal. rewrite (drop_S cs c i Hi). f_equal. apply drop_ge. lia. }
  assert (Ht : omap pending (take i cs) = []).
  { assert (Hr : forall k d, take i cs !! k = Some d -> returned d = true).
    { intros k d [Hk Hlt]%lookup_take_Some. destruct (returned d) eqn:Ed; [done|]. specialize (Hl k d Hk Ed). lia. }
    revert Hr. generalize (take i cs) as l. induction l as [|x l IH]; intros Hr; [done|].
    specialize (IH (fun k d Hk => Hr (S k) d Hk)). specialize (Hr 0%nat x eq_refl). destruct x; try done; exact IH. }
  assert (Hti : length (take i cs) = i) by (rewrite length_take; lia).
  split.
  - rewrite E at 1. rewrite omap_app, Ht. cbn. by destruct (pending c).
  - assert (Eb : <[i := b]> cs = take i cs ++ [b]).
    { rewrite E at 1. rewrite insert_app_r_alt by lia. rewrite Hti, Nat.sub_diag. done. }
    rewrite Eb, omap_app, Ht. cbn. by destruct (pending b).
Qed.

Lemma returned_insert (cs : list (TP.client S.job)) (i : nat) (c b : TP.client S.job) :
  (forall k d, cs !! k = Some d -> returned d = false -> S k = length cs) ->
  cs !! i = Some c -> returned c = false ->
  forall k d, <[i := b]> cs !! k = Some d -> returned d = false -> S k = length (<[i := b]> cs).
Proof.
  intros Hl Hi Hc k d Hk Hd. rewrite length_insert. destruct (decide (i = k)) as [<-|Hne]; [by apply (Hl i c)|].
  rewrite list_lookup_insert_ne in Hk by done. by apply (Hl k d).
Qed.

Lemma submit_inv s i c evs m :
  inv m s -> loop_free s = true -> (length (Handlers.messages evs) <= 1)%nat -> inv m (after_handler i c evs s).
Proof.
  intros [I1 I2 I3 I4 I5 I6 I7] Hf Hm. unfold after_handler, call_submit. constructor; cbn; try done.
  - intros k d Hk Hd. rewrite length_app, length_fmap, length_fmap in *. apply lookup_app_Some in Hk as [Hk|[Hge Hk]].
    + exfalso. apply list_elem_of_lookup_2 in Hk. unfold loop_free in Hf. rewrite forallb_forall in Hf.
      specialize (Hf d). rewrite <- list_elem_of_In in Hf. rewrite (Hf Hk) in Hd. done.
    + apply lookup_lt_Some in Hk. rewrite !length_fmap in Hk. lia.
  - apply Forall_app. split; [done|]. apply Forall_fmap, Forall_true. done.
Qed.

Lemma submit_abs i c evs s :
  loop_free s = true -> abs (after_handler i c evs s) = S.after_handler i c evs (abs s).
Proof.
  intros Hf. unfold abs, after_handler, S.after_handler, call_submit. cbn. rewrite omap_app. f_equal. f_equal.
  induction (Handlers.messages evs) as [|x l IH]; [done|]. cbn. f_equal. exact IH.
Qed.

Lemma loop_free_abs s : loop_free s = true -> S.loop_free (abs s) = true.
Proof.
  intros Hf. unfold S.loop_free. apply bool_decide_eq_true. cbn. unfold loop_free in Hf.
  induction (TP.clients (pool s)) as [|c cs IH]; [done|]. cbn in *. apply andb_true_iff in Hf as [Hc Hf].
  specialize (IH Hf). destruct c; try done; exact IH.
Qed.

(** One step of the big machine against the small one. *)
Definition simulates (m : nat) (s s' : t) : Prop :=
  abs s' = abs s \/ exists l, S.exec m rounds fuel l (abs s) = Some (abs s').

Lemma zip_busy_insert (ws : list (TP.worker S.job)) (sls : list (option nat)) w x y sl :
  ws !! w = Some x -> sls !! w = Some sl ->
  zip_with busy (<[w := y]> ws) sls = <[w := busy y sl]> (zip_with busy ws sls) /\
  zip_with busy ws sls !! w = Some (busy x sl).
Proof.
  intros Hw Hs. split; [|by rewrite lookup_zip_with, Hw; cbn; rewrite Hs].
  rewrite insert_zip_with. by rewrite (list_insert_id sls w sl Hs).
Qed.

Lemma zip_busy_same (ws : list (TP.worker S.job)) (sls : list (option nat)) w x y sl :
  ws !! w = Some x -> sls !! w = Some sl -> busy y sl = busy x sl ->
  zip_with busy (<[w := y]> ws) sls = zip_with busy ws sls.
Proof.
  intros Hw Hs E. destruct (zip_busy_insert ws sls w x y sl Hw Hs) as [-> Hl]. rewrite E. by apply list_insert_id.
Qed.

Lemma slot_of m s w x : inv m s -> TP.workers (pool s) !! w = Some x -> exists sl, slots s !! w = Some sl.
Proof.
  intros Hi Hw. apply lookup_lt_Some in Hw. rewrite <- (inv_slots _ _ Hi) in Hw. by apply lookup_lt_is_Some_2.
Qed.

(** A worker that is not running a job has no pipeline run. *)
Lemma no_run m s w x sl :
  inv m s -> TP.workers (pool s) !! w = Some x -> slots s !! w = Some sl ->
  match x with TP.WRun _ => True | _ => sl = None end.
Proof.
  intros Hi Hw Hs. destruct x; try done; destruct sl as [i|]; try done;
    destruct (inv_runs _ _ Hi w i Hs) as (j & E & _); congruence.
Qed.

(** The pool changes a worker's phase. *)
Lemma worker_inv m s w (x y : TP.worker S.job) p :
  inv m s -> TP.workers (pool s) !! w = Some x -> slots s !! w = Some None ->
  TP.stop p = TP.stop (pool s) -> TP.max_queue_size p = TP.max_queue_size (pool s) ->
  TP.clients p = TP.clients (pool s) -> TP.workers p = <[w := y]> (TP.workers (pool s)) ->
  inv m (set_pool p s).
Proof.
  intros [I1 I2 I3 I4 I5 I6 I7] Hw Hs E1 E2 E3 E4. constructor; cbn; rewrite ?E1, ?E2, ?E3, ?E4, ?length_insert; try done.
  intros v i Hv. destruct (decide (w = v)) as [<-|Hne]; [congruence|]. rewrite list_lookup_insert_ne by done. by apply I7.
Qed.

(** The pool changes the loop's call. *)
Lemma client_inv m s i (c b : TP.client S.job) p :
  inv m s -> TP.clients (pool s) !! i = Some c -> returned c = false ->
  match b with TP.CTry _ | TP.CEnqueue _ => False | _ => True end ->
  TP.stop p = TP.stop (pool s) -> TP.max_queue_size p = TP.max_queue_size (pool s) ->
  TP.clients p = <[i := b]> (TP.clients (pool s)) -> TP.workers p = TP.workers (pool s) ->
  inv m (set_pool p s).
Proof.
  intros [I1 I2 I3 I4 I5 I6 I7] Hi Hc Hb E1 E2 E3 E4. constructor; cbn; rewrite ?E1, ?E2, ?E3, ?E4; try done.
  - by eapply returned_insert.
  - by apply Forall_insert.
Qed.

Lemma clients_abs m s i (c b : TP.client S.job) :
  inv m s -> TP.clients (pool s) !! i = Some c -> returned c = false ->
  omap pending (TP.clients (pool s)) = option_list (pending c) /\
  omap pending (<[i := b]> (TP.clients (pool s))) = option_list (pending b).
Proof. intros Hi. apply pending_last, (inv_last _ _ Hi). Qed.

Lemma pool_sim m l s p :
  inv m s -> pool_label l s = true -> TP.exec l (pool s) = Some p ->
  inv m (set_pool p s) /\ simulates m s (set_pool p s).
Proof.
  intros Hi Hl Hp. pose proof (inv_alive _ _ Hi) as Hstop. apply TP.exec_step in Hp.
  destruct Hp as [c Hc|i k c x Hj Hx Hst|i k x Hj Hst Hf|i k x Hj Hst Hf|i k c x Hj Hx Hst Hf|i k Hj H1|i k Hj Hk
    |w k x rest Hw Ht|w k Hw Ht|w k x Hw H1|w k x y Hw Hk|w k x Hw|w Hw|i x Hj|Hd|Hd|Hd Ha]; try done; try congruence.
  - (* waits *) split; [by eapply (client_inv m s i _ (TP.CSleep x))|]. left. unfold abs. cbn.
    destruct (clients_abs m s i _ (TP.CSleep x) Hi Hj eq_refl) as [-> ->]. done.
  - (* try_submit is never called *) apply (Forall_lookup_1 _ _ _ _ (inv_calls _ _ Hi)) in Hj. done.
  - (* emplace *) pose proof (Forall_lookup_1 _ _ _ _ (inv_calls _ _ Hi) Hj) as Hc. destruct c; try done. injection Hx as ->.
    destruct Hf as [Hf|]; [|done]. split; [by eapply (client_inv m s i _ TP.CNotify)|]. right. exists S.Submit.
    assert (Hfull : S.full m (abs s) = false) by (unfold TP.full in Hf; by rewrite (inv_size _ _ Hi) in Hf).
    destruct (clients_abs m s i _ TP.CNotify Hi Hj eq_refl) as [E1 E2]. cbn [S.exec]. rewrite Hfull.
    cbn [abs S.submitting]. rewrite E1. cbn. unfold abs. cbn. by rewrite E2.
  - (* nobody sleeps *) split; [by eapply (client_inv m s i _ (TP.CDone true))|]. left. unfold abs. cbn.
    destruct (clients_abs m s i _ (TP.CDone true) Hi Hj eq_refl) as [-> ->]. done.
  - (* one wakes up *) destruct (slot_of m s k _ Hi Hk) as [sl Hs]. pose proof (no_run m s k _ sl Hi Hk Hs) as ->.
    assert (Hi1 : inv m (set_pool (TP.set_workers (<[k := TP.WCheck]> (TP.workers (pool s))) (pool s)) s))
      by by eapply (worker_inv m s k).
    split; [by eapply (client_inv m _ i _ (TP.CDone true) _ Hi1)|]. left. unfold abs. cbn.
    destruct (clients_abs m s i _ (TP.CDone true) Hi Hj eq_refl) as [-> ->].
    by rewrite (zip_busy_same _ _ k TP.WSleep TP.WCheck None Hk Hs).
  - (* take *) destruct (slot_of m s w _ Hi Hw) as [sl Hs]. pose proof (no_run m s w _ sl Hi Hw Hs) as ->.
    unfold TP.take_task. rewrite Ht. split; [by eapply (worker_inv m s w)|]. right. exists (S.Take w). cbn. rewrite Ht.
    destruct (zip_busy_insert _ _ w _ (TP.WNotify x) None Hw Hs) as [E1 E2]. rewrite E2. cbn. unfold abs. cbn. by rewrite E1.
  - (* idle *) destruct (slot_of m s w _ Hi Hw) as [sl Hs]. pose proof (no_run m s w _ sl Hi Hw Hs) as ->.
    unfold TP.take_task. rewrite Ht, Hstop. split; [by eapply (worker_inv m s w)|]. left. unfold abs. cbn.
    by rewrite (zip_busy_same _ _ w TP.WCheck TP.WSleep None Hw Hs).
  - cbn in Hl. by rewrite Hw in Hl.
  - cbn in Hl. by rewrite Hw in Hl.
  - (* the job has returned *) cbn in Hl. rewrite Hw in Hl. destruct (slots s !! w) as [[|]|] eqn:Hs; try done.
    split; [by eapply (worker_inv m s w)|]. left. unfold abs. cbn. by rewrite (zip_busy_same _ _ w (TP.WRun x) TP.WCheck None Hw Hs).
  - destruct (slot_of m s w _ Hi Hw) as [sl Hs]. pose proof (no_run m s w _ sl Hi Hw Hs) as ->.
    split; [by eapply (worker_inv m s w)|]. left. unfold abs. cbn. by rewrite (zip_busy_same _ _ w TP.WSleep TP.WCheck None Hw Hs).
  - split; [by eapply (client_inv m s i _ (TP.CSubmit x))|]. left. unfold abs. cbn.
    destruct (clients_abs m s i _ (TP.CSubmit x) Hi Hj eq_refl) as [-> ->]. done.
Qed.

(** A worker notifies and begins its job. *)
Lemma start_sim m s w k e (j : S.job) p :
  inv m s -> TP.workers (pool s) !! w = Some (TP.WNotify j) -> TP.exec (TP.Worker w k) (pool s) = Some p ->
  let s' := mk (conns s) p (Workers.mk (Workers.shared (work s)) (Workers.threads (work s) ++ [(e, Workers.Start j.2)]))
              (<[w := Some (length (Workers.threads (work s)))]> (slots s)) (deferred s) (jobs s ++ [j]) (delivered s) (answered s) in
  inv m s' /\ abs s' = abs s.
Proof.
  intros Hi Hw Hp s'. destruct (slot_of m s w _ Hi Hw) as [sl Hs].
  assert (Hc : TP.stop p = TP.stop (pool s) /\ TP.max_queue_size p = TP.max_queue_size (pool s) /\ TP.tasks p = TP.tasks (pool s) /\
    TP.workers p = <[w := TP.WRun j]> (TP.workers (pool s)) /\
    (TP.clients p = TP.clients (pool s) \/ exists i y, TP.clients (pool s) !! i = Some (TP.CSleep y) /\
       TP.clients p = <[i := TP.CSubmit y]> (TP.clients (pool s)))).
  { change (TP.worker_step w k (pool s) = Some p) in Hp. unfold TP.worker_step in Hp. rewrite Hw in Hp. cbn [mbind option_bind] in Hp.
    apply bind_Some in Hp as (cs & Hn & Hp). injection Hp as <-. cbn. split_and!; try done.
    apply TP.notify_one_spec in Hn as [[_ ->]|(c & Hk & Hc & ->)]; [by left|]. right. destruct c; try done. by exists k, x. }
  destruct Hc as (E1 & E2 & E3 & E4 & E5). destruct Hi as [I1 I2 I3 I4 I5 I6 I7]. split.
  - constructor; cbn; rewrite ?E1, ?E2, ?E4, ?length_insert, ?length_app; try done.
    + destruct E5 as [->|(i & y & Hy & ->)]; [done|]. by eapply returned_insert.
    + destruct E5 as [->|(i & y & Hy & ->)]; [done|]. by apply Forall_insert.
    + cbn. lia.
    + intros v i Hv. destruct (decide (w = v)) as [<-|Hne].
      * rewrite list_lookup_insert_eq in Hv by by eapply lookup_lt_Some. injection Hv as <-. exists j.
        rewrite list_lookup_insert_eq by by eapply lookup_lt_Some. split; [done|].
        rewrite <- I6. by rewrite lookup_app_r, Nat.sub_diag.
      * rewrite list_lookup_insert_ne in Hv by done. destruct (I7 v i Hv) as (j' & H1 & H2). exists j'.
        rewrite list_lookup_insert_ne by done. split; [done|]. by apply lookup_app_l_Some.
  - unfold abs. cbn. rewrite E3, E4. f_equal.
    + destruct E5 as [->|(i & y & Hy & ->)]; [done|]. by eapply omap_same.
    + rewrite <- (list_insert_id (zip_with busy (TP.workers (pool s)) (slots s)) w (Some j)).
      * rewrite <- insert_zip_with. done.
      * rewrite lookup_zip_with, Hw. cbn. by rewrite Hs.
Qed.

Lemma inv_work m s x :
  inv m s -> length (Workers.threads x) = length (Workers.threads (work s)) -> inv m (set_work x s).
Proof. intros [I1 I2 I3 I4 I5 I6 I7] E. constructor; cbn; try done. congruence. Qed.

Lemma step_length i (x y : @Workers.t W) :
  Workers.exec (Workers.Step i) x = Some y -> length (Workers.threads y) = length (Workers.threads x).
Proof.
  cbn [Workers.exec]. intros ([e p] & _ & ([p' g] & _ & [= <-])%bind_Some)%bind_Some. cbn. apply length_insert.
Qed.

Lemma exec_sim m l s s' : inv m s -> exec l s = Some s' -> inv m s' /\ simulates m s s'.
Proof.
  intros Hi He. destruct l as [now fd size|i o|l|w k e|w|w|now|now writes]; cbn [exec] in He.
  - destruct (loop_free s) eqn:Ef; [|done]. injection He as <-. split; [by destruct Hi; constructor|].
    right. exists (S.Accept now fd size). cbn. by rewrite (loop_free_abs s Ef).
  - destruct (loop_free s) eqn:Ef; [|done]. destruct (Handlers.is_handler o) eqn:Eo; [|done]. cbn in He.
    apply bind_Some in He as (c & Hc & He). apply bind_Some in He as ([c' evs] & Hx & He). injection He as <-.
    split; [apply submit_inv; [done|done|by eapply messages_le]|]. right. exists (S.Handle i o).
    rewrite submit_abs by done. cbn [S.exec]. rewrite (loop_free_abs s Ef), Eo. cbn [andb abs S.conns]. rewrite Hc.
    cbn [mbind option_bind]. by rewrite Hx.
  - destruct (pool_label l s) eqn:El; [|done]. apply bind_Some in He as (p & Hp & He). injection He as <-. by apply (pool_sim m l).
  - destruct (TP.workers (pool s) !! w) as [[]|] eqn:Ew; try done. apply bind_Some in He as (p & Hp & He). injection He as <-.
    destruct (start_sim m s w k e x p Hi Ew Hp) as [H1 H2]. split; [exact H1|]. left. exact H2.
  - destruct (slots s !! w) as [[i|]|] eqn:Es; try done. apply bind_Some in He as (x & Hx & He). injection He as <-.
    split; [|by left]. apply inv_work; [done|]. by eapply step_length.
  - destruct (TP.workers (pool s) !! w) as [[| | |j|]|] eqn:Ew; try done. destruct (slots s !! w) as [[i|]|] eqn:Es; try done.
    destruct (Workers.threads (work s) !! i) as [[e p]|] eqn:Et; try done. destruct p; try done. injection He as <-. split.
    + destruct Hi as [I1 I2 I3 I4 I5 I6 I7]. constructor; cbn; rewrite ?length_insert; try done.
      intros v n Hv. destruct (decide (w = v)) as [<-|Hne].
      * rewrite list_lookup_insert_eq in Hv by by eapply lookup_lt_Some. done.
      * rewrite list_lookup_insert_ne in Hv by done. by apply I7.
    + right. exists (S.Finish w out ka). cbn. rewrite lookup_zip_with, Ew. cbn. rewrite Es. cbn. unfold S.send, abs. cbn.
      do 2 f_equal.
      pose proof (insert_zip_with busy (TP.workers (pool s)) (slots s) w (TP.WRun j) None) as E. cbn [busy] in E.
      by rewrite E, (list_insert_id _ w _ Ew).
  - destruct (loop_free s) eqn:Ef; [|done]. injection He as <-. split; [by apply inv_work|by left].
  - destruct (deferred s) as [|r rs] eqn:Ed; [done|]. destruct (loop_free s) eqn:Ef; [|done].
    apply bind_Some in He as (c & Hc & He). apply bind_Some in He as ([c' evs] & Hx & He). injection He as <-.
    split; [apply submit_inv; [by destruct Hi; constructor|done|by eapply messages_le]|]. right. exists (S.RunDeferred now writes).
    rewrite submit_abs by done. cbn [S.exec]. change (S.deferred (abs s)) with (deferred s). rewrite Ed, (loop_free_abs s Ef).
    change (S.conns (abs s)) with (conns s). rewrite Hc. cbn [mbind option_bind]. by rewrite Hx.
Qed.

(** ** The three machines inside *)

Lemma create_abs n m g : abs (create n m g) = S.create n.
Proof.
  unfold abs, S.create. cbn. f_equal. induction n as [|n IH]; [done|]. cbn. f_equal. exact IH.
Qed.

Lemma system_create_inv n m g : inv m (create n m g).
Proof.
  constructor; cbn; try done; [by rewrite !length_replicate|].
  intros w i Hw. apply lookup_replicate in Hw as [Hw _]. done.
Qed.

Lemma system_run_inv m ls s s' :
  inv m s -> run ls s = Some s' -> inv m s' /\ exists l, S.run m rounds fuel l (abs s) = Some (abs s').
Proof.
  revert s; induction ls as [|l ls IH]; intros s Hi; cbn [run].
  { intros [= <-]. split; [done|]. by exists []. }
  intros (s1 & He & Hr)%bind_Some. destruct (exec_sim m l s s1 Hi He) as [Hi1 Hs]. destruct (IH s1 Hi1 Hr) as [Hi' [ls' Hl]].
  split; [done|]. destruct Hs as [E|[l' E]]; [rewrite E in Hl; by exists ls'|]. exists (l' :: ls'). cbn. by rewrite E.
Qed.

Lemma call_submit_run js p : TP.run (TP.Call ∘ TP.CSubmit <$> js) p = Some (call_submit js p).
Proof.
  revert p; induction js as [|j js IH]; intros p; cbn [fmap list_fmap TP.run].
  { unfold call_submit. cbn. rewrite app_nil_r. by destruct p. }
  cbn. rewrite IH. unfold call_submit. cbn. by rewrite <- app_assoc.
Qed.

(** The loop never calls [enqueue], which does not look at the limit. *)
Definition limited (l : TP.label S.job) : Prop := match l with TP.Call c => TP.no_enqueue c = true | _ => True end.

Lemma submit_limited js : Forall limited (TP.Call ∘ TP.CSubmit <$> js).
Proof. apply Forall_fmap, Forall_true. done. Qed.

Lemma exec_pool l s s' :
  exec l s = Some s' -> exists ls, TP.run ls (pool s) = Some (pool s') /\ Forall limited ls.
Proof.
  intros He. destruct l as [now fd size|i o|l|w k e|w|w|now|now writes]; cbn [exec] in He.
  - destruct (loop_free s); [|done]. injection He as <-. by exists [].
  - destruct (_ && _); [|done]. apply bind_Some in He as (c & _ & He). apply bind_Some in He as ([c' evs] & _ & He).
    injection He as <-. eexists. split; [apply call_submit_run|apply submit_limited].
  - destruct (pool_label l s) eqn:El; [|done]. apply bind_Some in He as (p & Hp & He). injection He as <-. exists [l].
    split; [cbn; by rewrite Hp|]. apply Forall_singleton. by destruct l.
  - destruct (TP.workers (pool s) !! w) as [[]|]; try done. apply bind_Some in He as (p & Hp & He). injection He as <-.
    exists [TP.Worker w k]. split; [cbn [TP.run]; by rewrite Hp|by apply Forall_singleton].
  - destruct (slots s !! w) as [[i|]|]; try done. apply bind_Some in He as (x & _ & He). injection He as <-. by exists [].
  - destruct (TP.workers (pool s) !! w) as [[| | |j|]|]; try done. destruct (slots s !! w) as [[i|]|]; try done.
    destruct (Workers.threads (work s) !! i) as [[e []]|]; try done. injection He as <-. by exists [].
  - destruct (loop_free s); [|done]. injection He as <-. by exists [].
  - destruct (deferred s) as [|r rs]; [done|]. destruct (loop_free s); [|done].
    apply bind_Some in He as (c & _ & He). apply bind_Some in He as ([c' evs] & _ & He). injection He as <-.
    eexists. split; [apply (call_submit_run _ (pool s))|apply submit_limited].
Qed.

Lemma run_pool ls s s' : run ls s = Some s' -> exists l, TP.run l (pool s) = Some (pool s') /\ Forall limited l.
Proof.
  revert s; induction ls as [|l ls IH]; intros s; cbn [run]; [intros [= <-]; by exists []|].
  intros (s1 & He & Hr)%bind_Some. destruct (exec_pool l s s1 He) as (l1 & H1 & F1). destruct (IH s1 Hr) as (l2 & H2 & F2).
  exists (l1 ++ l2). split; [by rewrite TP.pool_run_app, H1|by apply Forall_app].
Qed.

(** What thread [i] was started on and with which answers of the kernel. *)
Definition thread_of (s : t) (i : nat) (e : G.env) (j : S.job) : Prop :=
  jobs s !! i = Some j /\ exists p, Workers.threads (work s) !! i = Some (e, p).

Lemma exec_work m l s s' :
  inv m s -> exec l s = Some s' ->
  (work s' = work s /\ jobs s' = jobs s) \/
  exists l', Workers.exec l' (work s) = Some (work s') /\
    match l' with Workers.Spawn e raw => exists j, raw = j.2 /\ jobs s' = jobs s ++ [j] | _ => jobs s' = jobs s end.
Proof.
  intros Hi He. destruct l as [now fd size|i o|l|w k e|w|w|now|now writes]; cbn [exec] in He.
  - destruct (loop_free s); [|done]. injection He as <-. by left.
  - destruct (_ && _); [|done]. apply bind_Some in He as (c & _ & He). apply bind_Some in He as ([c' evs] & _ & He).
    injection He as <-. by left.
  - destruct (pool_label l s); [|done]. apply bind_Some in He as (p & Hp & He). injection He as <-. by left.
  - destruct (TP.workers (pool s) !! w) as [[| |j| |]|]; try done. apply bind_Some in He as (p & Hp & He). injection He as <-.
    right. exists (Workers.Spawn e j.2). split; [done|]. by exists j.
  - destruct (slots s !! w) as [[i|]|]; try done. apply bind_Some in He as (x & Hx & He). injection He as <-.
    right. by exists (Workers.Step i).
  - destruct (TP.workers (pool s) !! w) as [[| | |j|]|]; try done. destruct (slots s !! w) as [[i|]|]; try done.
    destruct (Workers.threads (work s) !! i) as [[e []]|]; try done. injection He as <-. by left.
  - destruct (loop_free s); [|done]. injection He as <-. right. by exists (Workers.Cleanup now).
  - destruct (deferred s) as [|r rs]; [done|]. destruct (loop_free s); [|done].
    apply bind_Some in He as (c & _ & He). apply bind_Some in He as ([c' evs] & _ & He). injection He as <-. by left.
Qed.

(** A thread keeps its environment, and once it has sent it stays. *)
Lemma worker_keeps l (x y : @Workers.t W) i e p :
  Workers.exec l x = Some y -> Workers.threads x !! i = Some (e, p) ->
  exists p', Workers.threads y !! i = Some (e, p') /\ (Workers.is_sent p = true -> p' = p).
Proof.
  intros He Hi. destruct l as [e' raw|k|now]; cbn [Workers.exec] in He.
  - injection He as <-. exists p. split; [by apply lookup_app_l_Some|done].
  - apply bind_Some in He as ([e' q] & Hk & He). apply bind_Some in He as ([q' g] & Hs & He). injection He as <-. cbn.
    destruct (decide (k = i)) as [<-|Hne].
    + rewrite list_lookup_insert_eq by by eapply lookup_lt_Some. rewrite Hk in Hi. injection Hi as -> ->.
      exists q'. split; [done|]. by destruct p.
    + rewrite list_lookup_insert_ne by done. by exists p.
  - injection He as <-. by exists p.
Qed.

Lemma exec_keeps m l s s' i e p j :
  inv m s -> exec l s = Some s' -> jobs s !! i = Some j -> Workers.threads (work s) !! i = Some (e, p) ->
  jobs s' !! i = Some j /\ exists p', Workers.threads (work s') !! i = Some (e, p') /\ (Workers.is_sent p = true -> p' = p).
Proof.
  intros Hi He Hj Ht. destruct (exec_work m l s s' Hi He) as [[Ew Ej]|(l' & Hl & Hm)].
  - rewrite Ew, Ej. split; [done|]. by exists p.
  - split; [|by eapply worker_keeps]. destruct l'; [|by rewrite Hm..]. destruct Hm as (j' & _ & ->). by apply lookup_app_l_Some.
Qed.

Lemma run_keeps m ls s s' i e j :
  inv m s -> run ls s = Some s' -> thread_of s i e j -> thread_of s' i e j.
Proof.
  revert s; induction ls as [|l ls IH]; intros s Hi; cbn [run]; [by intros [= <-]|].
  intros (s1 & He & Hr)%bind_Some [Hj [p Hp]]. destruct (exec_sim m l s s1 Hi He) as [Hi1 _].
  destruct (exec_keeps m l s s1 i e p j Hi He Hj Hp) as (Hj1 & p1 & Hp1 & _). apply (IH s1 Hi1 Hr). split; [done|by exists p1].
Qed.

Lemma run_work m ls s s' :
  inv m s -> run ls s = Some s' ->
  exists l, Workers.run l (work s) = Some (work s') /\
    Forall (fun x => match x with Workers.Spawn e raw => exists i j, thread_of s' i e j /\ raw = j.2 | _ => True end) l.
Proof.
  revert s; induction ls as [|l ls IH]; intros s Hi; cbn [run]; [intros [= <-]; by exists []|].
  intros (s1 & He & Hr)%bind_Some. destruct (exec_sim m l s s1 Hi He) as [Hi1 _].
  destruct (IH s1 Hi1 Hr) as (l2 & H2 & F2). destruct (exec_work m l s s1 Hi He) as [[Ew _]|(l1 & H1 & Hm)].
  { exists l2. by rewrite <- Ew. }
  exists (l1 :: l2). split; [cbn; by rewrite H1|]. apply Forall_cons. split; [|done].
  destruct l1 as [e raw|k|now]; try done. destruct Hm as (j & -> & Hj).
  exists (length (Workers.threads (work s))), j. split; [|done]. apply (run_keeps m ls s1 s' _ _ _ Hi1 Hr). split.
  - rewrite Hj, <- (inv_jobs _ _ Hi), lookup_app_r, Nat.sub_diag by lia. done.
  - injection H1 as <-. exists (Workers.Start j.2). cbn. by rewrite lookup_app_r, Nat.sub_diag by lia.
Qed.

(** The response of a request is what the pipeline run started on it computed. *)
Definition computed (s : t) (r : S.reply) : Prop :=
  exists i e, jobs s !! i = Some (S.request r) /\ Workers.threads (work s) !! i = Some (e, Workers.Sent (S.out r) (S.ka r)).

Definition replies (s : t) : list S.reply := deferred s ++ (fst <$> answered s).

Lemma exec_replies m l s s' r :
  inv m s -> exec l s = Some s' -> r ∈ replies s' -> r ∈ replies s \/ computed s' r.
Proof.
  intros Hi He. unfold replies. destruct l as [now fd size|i o|l|w k e|w|w|now|now writes]; cbn [exec] in He.
  - destruct (loop_free s); [|done]. injection He as <-. by left.
  - destruct (_ && _); [|done]. apply bind_Some in He as (c & _ & He). apply bind_Some in He as ([c' evs] & _ & He).
    injection He as <-. by left.
  - destruct (pool_label l s); [|done]. apply bind_Some in He as (p & Hp & He). injection He as <-. by left.
  - destruct (TP.workers (pool s) !! w) as [[]|]; try done. apply bind_Some in He as (p & Hp & He). injection He as <-. by left.
  - destruct (slots s !! w) as [[i|]|]; try done. apply bind_Some in He as (x & Hx & He). injection He as <-. by left.
  - destruct (TP.workers (pool s) !! w) as [[| | |j|]|] eqn:Ew; try done. destruct (slots s !! w) as [[i|]|] eqn:Es; try done.
    destruct (Workers.threads (work s) !! i) as [[e []]|] eqn:Et; try done. injection He as <-. cbn.
    rewrite !elem_of_app, list_elem_of_singleton. intros [[Hr| ->]|Hr]; [by auto| |by auto].
    right. destruct (inv_runs _ _ Hi w i Es) as (j' & Hw & Hj). rewrite Ew in Hw. injection Hw as <-. by exists i, e.
  - destruct (loop_free s); [|done]. injection He as <-. by left.
  - destruct (deferred s) as [|r0 rs]; [done|]. destruct (loop_free s); [|done].
    apply bind_Some in He as (c & _ & He). apply bind_Some in He as ([c' evs] & _ & He). injection He as <-. cbn.
    rewrite fmap_app. cbn. set_solver.
Qed.

Lemma run_computed m ls s s' :
  inv m s -> run ls s = Some s' -> (forall r, r ∈ replies s -> computed s r) -> forall r, r ∈ replies s' -> computed s' r.
Proof.
  revert s; induction ls as [|l ls IH]; intros s Hi; cbn [run]; [by intros [= <-]|].
  intros (s1 & He & Hr)%bind_Some Hc. destruct (exec_sim m l s s1 Hi He) as [Hi1 _]. apply (IH s1 Hi1 Hr).
  intros r Hin. destruct (exec_replies m l s s1 r Hi He Hin) as [Hin'|Hin']; [|done].
  destruct (Hc r Hin') as (i & e & Hj & Ht). destruct (exec_keeps m l s s1 i e _ _ Hi He Hj Ht) as (Hj' & p & Hp & Hs).
  rewrite (Hs eq_refl) in Hp. by exists i, e.
Qed.

(** The gateway at the granularity of its locks and notifications is the composition the
    coarser models describe: every run of it is a run of the request flow of [Server] on
    the same connections, queue and workers, its pool makes a run of [ThreadPool] and its
    pipelines make a run of [Workers]. *)
Theorem system_refines ls n m g s :
  run ls (create n m g) = Some s ->
  (exists l, S.run m rounds fuel l (S.create n) = Some (abs s)) /\
  (exists l, TP.run l (TP.create n m) = Some (pool s)) /\
  (exists l, Workers.run l (Workers.init g) = Some (work s)).
Proof.
  intros Hr. split; [|split].
  - rewrite <- (create_abs n m g). by apply (system_run_inv m ls _ s (system_create_inv n m g)).
  - apply run_pool in Hr as (l & Hl & _). by exists l.
  - destruct (run_work m ls _ s (system_create_inv n m g) Hr) as (l & Hl & _). by exists l.
Qed.

(** C8. A client gets the answers to its own requests in the order it sent them, computed by
    the pipeline from those requests, however loop, pool and workers interleave: for each
    connection the delivered requests are the answered ones followed by the one in flight,
    of which there is at most one, and every response that was handed to the loop is what
    the pipeline run that was started on that request has sent. *)
Theorem end_to_end ls n m g s i :
  run ls (create n m g) = Some s ->
  S.of_conn i (delivered s) = S.of_conn i (S.request ∘ fst <$> answered s) ++ S.of_conn i (S.flight (abs s)) /\
  (length (S.of_conn i (S.flight (abs s))) <= 1)%nat /\
  forall r, r ∈ replies s -> computed s r.
Proof.
  intros Hr. destruct (system_run_inv m ls _ s (system_create_inv n m g) Hr) as [_ [l Hl]]. rewrite create_abs in Hl.
  destruct (S.server_run_inv m rounds fuel l n (abs s) Hl i) as [H1 H2 _]. split; [exact H1|]. split; [by eapply S.waits_short|].
  apply (run_computed m ls _ s (system_create_inv n m g) Hr). intros r Hin. unfold replies in Hin. cbn in Hin. by apply not_elem_of_nil in Hin.
Qed.

(** ** Progress *)

(** A step the workers and a blocked loop take by themselves. *)
Definition internal (l : label) : bool :=
  match l with
  | Pool (TP.Client _ _) | Pool (TP.Worker _ _) | Start _ _ _ | Work _ | Send _ => true
  | _ => false
  end.

(** The calls a worker's pipeline run has left, and the send. *)
Definition slot_weight (n : nat) (ts : list (G.env * @Workers.pc W)) (sl : option nat) : nat :=
  match sl with
  | Some i => match ts !! i with Some (_, p) => S (A.weight n p) | None => 0 end
  | None => 0
  end.

(** What is left to do, for a chain of [n] filters. *)
Definition measure (n : nat) (s : t) : nat :=
  (20 + 2 * n) * TP.measure (pool s) + sum_list_with (slot_weight n (Workers.threads (work s))) (slots s).

Lemma sum_lt {B} (f g : B -> nat) (l : list B) i a :
  (forall x, x ∈ l -> f x <= g x)%nat -> l !! i = Some a -> (f a < g a)%nat -> (sum_list_with f l < sum_list_with g l)%nat.
Proof.
  assert (Hle : forall l, (forall x, x ∈ l -> f x <= g x)%nat -> (sum_list_with f l <= sum_list_with g l)%nat).
  { clear. induction l as [|x l IH]; intros Hf; cbn; [done|]. pose proof (Hf x ltac:(set_solver)).
    specialize (IH ltac:(set_solver)). lia. }
  revert i; induction l as [|x l IH]; intros [|i] Hf; cbn; [done|done|..].
  - intros [= ->] Ha. specialize (Hle l ltac:(set_solver)). lia.
  - intros Hi Ha. specialize (IH i ltac:(set_solver) Hi Ha). pose proof (Hf x ltac:(set_solver)). lia.
Qed.

Lemma sum_ext {B} (f g : B -> nat) (l : list B) : (forall x, x ∈ l -> f x = g x) -> sum_list_with f l = sum_list_with g l.
Proof. induction l as [|x l IH]; intros Hf; cbn; [done|]. rewrite (Hf x), IH; set_solver. Qed.

Lemma slot_thread m s w i : inv m s -> slots s !! w = Some (Some i) -> exists e p, Workers.threads (work s) !! i = Some (e, p).
Proof.
  intros Hi Hw. destruct (inv_runs _ _ Hi w i Hw) as (j & _ & Hj). apply lookup_lt_Some in Hj. rewrite (inv_jobs _ _ Hi) in Hj.
  apply lookup_lt_is_Some_2 in Hj as [[e p] Hp]. by exists e, p.
Qed.

Lemma step_filters i (x y : @Workers.t W) :
  Workers.exec (Workers.Step i) x = Some y -> G.filters (Workers.shared y) = G.filters (Workers.shared x).
Proof.
  cbn [Workers.exec]. intros ([e p] & _ & ([p' g] & Hs & [= <-])%bind_Some)%bind_Some. cbn. by apply A.step_static in Hs as (? & _).
Qed.

Lemma run_filters ls (x y : @Workers.t W) :
  Workers.run ls x = Some y -> G.filters (Workers.shared y) = G.filters (Workers.shared x).
Proof.
  revert x; induction ls as [|l ls IH]; intros x; cbn [Workers.run]; [by intros [= <-]|].
  intros (z & Hz & Hy)%bind_Some. rewrite (IH z Hy). destruct l as [e raw|k|now]; [|by apply step_filters in Hz|]; by injection Hz as <-.
Qed.

Lemma internal_filters l s s' :
  exec l s = Some s' -> internal l = true -> G.filters (Workers.shared (work s')) = G.filters (Workers.shared (work s)).
Proof.
  intros He Hl. destruct l as [| |l|w k e|w|w| |]; try done; cbn [exec] in He.
  - destruct (pool_label l s); [|done]. by apply bind_Some in He as (p & Hp & [= <-]).
  - destruct (TP.workers (pool s) !! w) as [[]|]; try done. by apply bind_Some in He as (p & Hp & [= <-]).
  - destruct (slots s !! w) as [[i|]|]; try done. apply bind_Some in He as (x & Hx & [= <-]). cbn. by apply step_filters in Hx.
  - destruct (TP.workers (pool s) !! w) as [[| | |j|]|]; try done. destruct (slots s !! w) as [[i|]|]; try done.
    destruct (Workers.threads (work s) !! i) as [[e []]|]; try done. by injection He as <-.
Qed.

Lemma work_decreases n m w i s x :
  inv m s -> slots s !! w = Some (Some i) -> length (G.filters (Workers.shared (work s))) = n ->
  Workers.exec (Workers.Step i) (work s) = Some x ->
  (sum_list_with (slot_weight n (Workers.threads x)) (slots s) < sum_list_with (slot_weight n (Workers.threads (work s))) (slots s))%nat.
Proof.
  intros Hi Hw Hn Hx. cbn [Workers.exec] in Hx.
  apply bind_Some in Hx as ([e p] & Ht & Hx). apply bind_Some in Hx as ([p' g] & Hs & Hx). injection Hx as <-. cbn.
  apply A.step_weight in Hs. rewrite Hn in Hs. apply (sum_lt _ _ _ w (Some i)); [|done|].
  - intros [k|] _; [|done]. cbn. destruct (decide (i = k)) as [<-|Hne].
    + rewrite list_lookup_insert_eq by by eapply lookup_lt_Some. rewrite Ht. lia.
    + by rewrite list_lookup_insert_ne.
  - cbn. rewrite list_lookup_insert_eq by by eapply lookup_lt_Some. rewrite Ht. lia.
Qed.

Lemma start_weights n m w s e (j : S.job) :
  inv m s -> slots s !! w = Some None ->
  sum_list_with (slot_weight n (Workers.threads (work s) ++ [(e, Workers.Start j.2)]))
    (<[w := Some (length (Workers.threads (work s)))]> (slots s))
  = (sum_list_with (slot_weight n (Workers.threads (work s))) (slots s) + (19 + 2 * n))%nat.
Proof.
  intros Hi Hw. set (f := slot_weight n (Workers.threads (work s) ++ [(e, Workers.Start j.2)])).
  pose proof (sum_insert f _ w _ (Some (length (Workers.threads (work s)))) Hw) as E.
  assert (E0 : sum_list_with f (slots s) = sum_list_with (slot_weight n (Workers.threads (work s))) (slots s)).
  { apply sum_ext. intros [k|] Hk; [|done]. apply list_elem_of_lookup_1 in Hk as [v Hv].
    destruct (slot_thread m s v k Hi Hv) as (e' & p & Hp). cbn. rewrite Hp. by rewrite (lookup_app_l_Some _ _ _ _ Hp). }
  rewrite E0 in E. unfold f in E at 2 3. cbn in E. rewrite lookup_app_r, Nat.sub_diag in E by lia. cbn in E. lia.
Qed.

Lemma internal_decreases n m l s s' :
  inv m s -> length (G.filters (Workers.shared (work s))) = n -> exec l s = Some s' -> internal l = true ->
  (measure n s' < measure n s)%nat.
Proof.
  intros Hi Hn He Hl. unfold measure. destruct l as [| |l|w k e|w|w| |]; try done; cbn [exec] in He.
  - destruct (pool_label l s); [|done]. apply bind_Some in He as (p & Hp & [= <-]).
    apply TP.exec_step, TP.step_decreases in Hp; [|by destruct l]. cbn [set_pool pool work slots]. nia.
  - destruct (TP.workers (pool s) !! w) as [[| |j| |]|] eqn:Ew; try done. apply bind_Some in He as (p & Hp & [= <-]).
    apply TP.exec_step, TP.step_decreases in Hp; [|done]. cbn [pool work slots Workers.threads].
    destruct (slot_of m s w _ Hi Ew) as [sl Hs]. pose proof (no_run m s w _ sl Hi Ew Hs) as ->.
    rewrite (start_weights n m w s e j Hi Hs). nia.
  - destruct (slots s !! w) as [[i|]|] eqn:Es; try done. apply bind_Some in He as (x & Hx & [= <-]).
    pose proof (work_decreases n m w i s x Hi Es Hn Hx). cbn [set_work pool work slots]. lia.
  - destruct (TP.workers (pool s) !! w) as [[| | |j|]|]; try done. destruct (slots s !! w) as [[i|]|] eqn:Es; try done.
    destruct (Workers.threads (work s) !! i) as [[e []]|] eqn:Et; try done. injection He as <-. cbn [pool work slots].
    pose proof (sum_insert (slot_weight n (Workers.threads (work s))) _ w _ None Es) as E. cbn in E. rewrite Et in E. cbn in E. lia.
Qed.

Lemma system_run_app ls1 ls2 s : run (ls1 ++ ls2) s = s' ← run ls1 s; run ls2 s'.
Proof.
  revert s; induction ls1 as [|l ls1 IH]; intros s; cbn; [done|]. destruct (exec l s); cbn; [apply IH|done].
Qed.

Lemma internal_bounded n m ls s s' :
  inv m s -> length (G.filters (Workers.shared (work s))) = n -> Forall (fun l => internal l = true) ls ->
  run ls s = Some s' -> (length ls + measure n s' <= measure n s)%nat.
Proof.
  revert s; induction ls as [|l ls IH]; intros s Hi Hn Hls; cbn [run]; [intros [= <-]; cbn; lia|].
  apply Forall_cons in Hls as [Hl Hls]. intros (s1 & He & Hr)%bind_Some.
  pose proof (internal_decreases n m l s s1 Hi Hn He Hl). destruct (exec_sim m l s s1 Hi He) as [Hi1 _].
  specialize (IH s1 Hi1 ltac:(by rewrite (internal_filters l s s1 He Hl)) Hls Hr). cbn [length]. lia.
Qed.

(** When nothing moves, no worker has a job and no pipeline run is unfinished. *)
Lemma system_stuck_worker m s w x :
  inv m s -> (forall l, internal l = true -> exec l s = None) ->
  (forall i e p, Workers.threads (work s) !! i = Some (e, p) ->
     Workers.is_sent p = true \/ is_Some (Workers.exec (Workers.Step i) (work s))) ->
  TP.workers (pool s) !! w = Some x -> x = TP.WSleep \/ x = TP.WExit.
Proof.
  intros Hi Hstuck Hprog Hw. destruct (slot_of m s w x Hi Hw) as [sl Hs].
  destruct x as [| |j|j|]; auto; exfalso.
  - specialize (Hstuck (Pool (TP.Worker w 0)) eq_refl). cbn in Hstuck. rewrite Hw in Hstuck.
    unfold TP.worker_step in Hstuck. by rewrite Hw in Hstuck.
  - destruct (TP.notify_one_enabled TP.c_asleep TP.c_wake (TP.clients (pool s))) as (k & cs & Hk).
    specialize (Hstuck (Start w k (G.mkEnv 0 0 0 0 0 G.down)) eq_refl). cbn in Hstuck. rewrite Hw in Hstuck.
    unfold TP.worker_step in Hstuck. rewrite Hw in Hstuck. cbn in Hstuck. by rewrite Hk in Hstuck.
  - destruct sl as [i|].
    + destruct (slot_thread m s w i Hi Hs) as (e & p & Hp). destruct (Hprog i e p Hp) as [Hsent|[x Hx]].
      * specialize (Hstuck (Send w) eq_refl). cbn in Hstuck. rewrite Hw, Hs, Hp in Hstuck. by destruct p.
      * specialize (Hstuck (Work w) eq_refl). cbn [exec] in Hstuck. by rewrite Hs, Hx in Hstuck.
    + specialize (Hstuck (Pool (TP.Worker w 0)) eq_refl). cbn in Hstuck. rewrite Hw, Hs in Hstuck.
      unfold TP.worker_step in Hstuck. by rewrite Hw in Hstuck.
Qed.

Lemma stuck_pool m s :
  inv m s -> (forall l, internal l = true -> exec l s = None) ->
  (forall w x, TP.workers (pool s) !! w = Some x -> x = TP.WSleep \/ x = TP.WExit) ->
  TP.stuck TP.thread_step (pool s).
Proof.
  intros Hi Hstuck Hw [c|i k|w k|w|i|] Hl; try done.
  - specialize (Hstuck (Pool (TP.Client i k)) eq_refl). cbn [exec pool_label] in Hstuck.
    by destruct (TP.exec (TP.Client i k) (pool s)).
  - cbn. unfold TP.worker_step. destruct (TP.workers (pool s) !! w) as [x|] eqn:E; [|done]. by destruct (Hw w x E) as [-> | ->].
Qed.

Lemma idle_workers (ws : list (TP.worker S.job)) sls :
  (forall w x, ws !! w = Some x -> x = TP.WSleep \/ x = TP.WExit) -> omap id (zip_with busy ws sls) = [].
Proof.
  revert sls; induction ws as [|x ws IH]; intros [|sl sls] Hw; try done. cbn.
  specialize (IH sls (fun w y Hy => Hw (S w) y Hy)). destruct (Hw 0%nat x eq_refl) as [-> | ->]; exact IH.
Qed.

(** C11. No request is forgotten and nothing deadlocks, from the bytes of a client to the
    response in the loop's hands: with at least one worker, filters that keep their
    contract and a kernel that lets every call return, the workers and a loop blocked in
    [submit] can take at most [measure] steps by themselves from every reachable state,
    and when none is left the loop is out of [submit], the queue is empty and every
    request in flight has its response waiting in the loop's own list.  No lost wake-up of
    the pool, no lock and no pipeline keeps a request. *)
Theorem service_progress (c : GatewayConfig) (w : W) (fs : list (Filter W)) n m ls s ls' s' :
  (0 < n)%nat -> Forall FilterOk fs -> run ls (create n m (A.start c w fs)) = Some s ->
  Forall (fun l => internal l = true) ls' -> run ls' s = Some s' ->
  (zlen (Workers.threads (work s')) + 1 < two64)%Z -> (forall i e j, thread_of s' i e j -> A.kernel_returns e j.2) ->
  (length ls' <= measure (length fs) s)%nat /\
  ((forall l, internal l = true -> exec l s' = None) ->
   loop_free s' = true /\ TP.tasks (pool s') = [] /\ S.flight (abs s') = (S.request <$> deferred s')).
Proof.
  intros Hn Hok Hr Hint Hr' Hlen Hk. set (s0 := create n m (A.start c w fs)) in *.
  pose proof (system_create_inv n m (A.start c w fs)) as Hi0. fold s0 in Hi0.
  destruct (system_run_inv m ls s0 s Hi0 Hr) as [Hi _]. destruct (system_run_inv m ls' s s' Hi Hr') as [Hi' _].
  assert (Hall : run (ls ++ ls') s0 = Some s') by by rewrite system_run_app, Hr.
  destruct (run_work m (ls ++ ls') s0 s' Hi0 Hall) as (lw & Hlw & Fw).
  assert (Hret : Forall A.spawn_returns lw).
  { eapply Forall_impl; [exact Fw|]. intros [e raw|k|now]; cbn; try done. intros (i & j & Ht & ->). by eapply Hk. }
  split.
  - destruct (run_work m ls s0 s Hi0 Hr) as (lw1 & Hlw1 & _). enough (length ls' + measure (length fs) s' <= measure (length fs) s)%nat by lia.
    apply (internal_bounded _ m); try done. f_equal. rewrite (run_filters _ _ _ Hlw1). unfold s0. cbn. by rewrite A.start_eq.
  - intros Hstuck.
    assert (Hidle : forall v x, TP.workers (pool s') !! v = Some x -> x = TP.WSleep \/ x = TP.WExit).
    { intros v x. apply (system_stuck_worker m s' v x Hi' Hstuck). intros i e p. by apply (A.worker_progress c w fs lw). }
    destruct (run_pool (ls ++ ls') s0 s' Hall) as (lp & Hlp & _).
    destruct (TP.at_rest lp n m (pool s') Hn Hlp (inv_alive _ _ Hi') (stuck_pool m s' Hi' Hstuck Hidle)) as (Ht & _ & Hc).
    assert (Hfree : loop_free s' = true).
    { apply forallb_forall. intros d Hd. apply list_elem_of_In in Hd. by destruct (Hc d Hd) as [[ok ->]| ->]. }
    split; [done|]. split; [done|]. apply loop_free_abs in Hfree. unfold S.loop_free in Hfree. apply bool_decide_eq_true in Hfree.
    unfold S.flight. rewrite Hfree. cbn. rewrite Ht, (idle_workers _ _ Hidle). done.
Qed.

End System.

(** ** Evaluated runs *)

(** One client, one worker, a backend that answers. *)
Definition arrival : list label :=
  [Accept 0 7 65536; Handle 0 (S.reads G.sample_raw)].

Definition service : list label :=
  [Pool (TP.Client 0 0); Pool (TP.Client 0 0); Pool (TP.Worker 0 0); Start 0 0 (A.up_at 1)]
    ++ replicate 21 (Work 0) ++ [Send 0; Pool (TP.Worker 0 0); Pool (TP.Worker 0 0)].

Definition initial : t := create 1 1 A.sample_start.

Definition runs (ls : list label) : bool := match run 100 4 ls initial with Some _ => true | None => false end.
Definition state_after (ls : list label) : t := match run 100 4 ls initial with Some s => s | None => initial end.

Lemma system_runs_to ls : runs ls = true -> run 100 4 ls initial = Some (state_after ls).
Proof. unfold runs, state_after. by destruct (run 100 4 ls initial). Qed.

Lemma runs_from ls ls' :
  runs ls = true -> runs (ls ++ ls') = true -> run 100 4 ls' (state_after ls) = Some (state_after (ls ++ ls')).
Proof.
  intros H1%system_runs_to H2%system_runs_to. rewrite system_run_app, H1 in H2. exact H2.
Qed.

(** Applied to a served request. *)
Lemma system_refines_witness : exists l, S.run 1 100 4 l (S.create 1) = Some (abs (state_after (arrival ++ service))).
Proof.
  destruct (system_refines 100 4 (arrival ++ service) 1 1 A.sample_start (state_after (arrival ++ service))) as (H & _ & _).
  - exact (system_runs_to (arrival ++ service) ltac:(vm_compute; reflexivity)).
  - exact H.
Defined.

(** C8 applied to a served request whose response the loop has written. *)
Lemma end_to_end_witness :
  S.of_conn 0 (delivered (state_after (arrival ++ service ++ [RunDeferred 2 [(200%Z, 0%Z)]]))) = [G.sample_raw] /\
  (length (S.of_conn 0 (S.flight (abs (state_after (arrival ++ service ++ [RunDeferred 2 [(200%Z, 0%Z)]]))))) <= 1)%nat.
Proof.
  destruct (end_to_end 100 4 (arrival ++ service ++ [RunDeferred 2 [(200%Z, 0%Z)]]) 1 1 A.sample_start
    (state_after (arrival ++ service ++ [RunDeferred 2 [(200%Z, 0%Z)]])) 0) as (_ & H & _).
  - exact (system_runs_to (arrival ++ service ++ [RunDeferred 2 [(200%Z, 0%Z)]]) ltac:(vm_compute; reflexivity)).
  - split; [vm_compute; reflexivity|exact H].
Defined.


(** C11 applied to the service of one request: 28 steps set the loop and the worker free. *)
Lemma service_progress_witness :
  loop_free (state_after arrival) = false /\ (length service <= measure 2 (state_after arrival))%nat.
Proof.
  split; [vm_compute; reflexivity|].
  apply (service_progress 100 4 load_default_config (mkWorld 5 [] 3) [RequestIdFilter; LoggingFilter] 1 1 arrival (state_after arrival)
    service (state_after (arrival ++ service))).
  - lia.
  - repeat (apply Forall_cons; split; [apply _|]). apply Forall_nil_2.
  - exact (system_runs_to arrival ltac:(vm_compute; reflexivity)).
  - repeat (apply Forall_cons; split; [reflexivity|]). apply Forall_nil_2.
  - exact (runs_from arrival service ltac:(vm_compute; reflexivity) ltac:(vm_compute; reflexivity)).
  - vm_compute. reflexivity.
  - intros i e j [Hj [p Hp]].
    assert (Hjs : jobs (state_after (arrival ++ service)) = [(0%nat, G.sample_raw)]) by (vm_compute; reflexivity).
    rewrite Hjs in Hj. apply list_lookup_singleton_Some in Hj as [-> <-].
    assert (He : (fst <$> Workers.threads (work (state_after (arrival ++ service)))) = [A.up_at 1]) by (vm_compute; reflexivity).
    assert (Hf : (fst <$> Workers.threads (work (state_after (arrival ++ service)))) !! 0%nat = Some e)
      by (rewrite list_lookup_fmap, Hp; reflexivity).
    rewrite He in Hf. injection Hf as <-. exact (A.up_returns 1).
Defined.

End System.
