(* ===== verification/Guarantees.v ===== *)
(** * Guarantees: what the whole gateway promises

    The properties of the interleaved pipelines ([Provenance], [Accounting]) carried over to
    the machine of [System], where the pipelines run inside the jobs of a thread pool of a
    fixed size: every response in the hands of the event loop is explained by its request,
    and the number of workers bounds what the gateway asks of its backends. *)

From S2P Require Import Prelude StdSort StdMap Utils Config Router Http HttpParser LoadBalancer CircuitBreaker BackendConnection BackendPool Proxy Stats Filters Gateway Workers Accounting Provenance Leases Buffer Connection ThreadPool Server System.

Module Guarantees.
Import Config Filters System.
Module P := Provenance.
Module L := Leases.

Section Guarantees.
Context {W : Type} `{StdSort} `{HashOrder} (rounds fuel : nat).

Notation t := (@System.t W).
Notation run := (System.run rounds fuel).
Notation exec := (System.exec rounds fuel).
Notation is_sent := Workers.is_sent.

(** ** Responses *)

(** In the run [ls] a worker that had taken job [j] began it, and [e] is what the kernel, the
    clock and the random generator answer that worker. *)
Definition begun (ls : list label) (s0 : t) (e : G.env) (j : S.job) : Prop :=
  exists l1 w k l2 s1, ls = l1 ++ Start w k e :: l2 /\ run l1 s0 = Some s1 /\ TP.workers (pool s1) !! w = Some (TP.WNotify j).

(** At some moment of the run the breaker of [b] refuses a request that asks at time [now]. *)
Definition refused_in (ls : list label) (s0 : t) (b : Backend) (now : Z) : Prop :=
  exists l1 l2 s1, ls = l1 ++ l2 /\ run l1 s0 = Some s1 /\
    (CircuitBreaker.allow_request now (G.breaker b (Workers.shared (work s1)))).1 = false.

Lemma begun_app ls ls' s0 e j : begun ls s0 e j -> begun (ls ++ ls') s0 e j.
Proof.
  intros (l1 & w & k & l2 & s1 & -> & H1 & H2). exists l1, w, k, (l2 ++ ls'), s1. by rewrite <- app_assoc.
Qed.

Lemma step_envs i (x y : @Workers.t W) :
  Workers.exec (Workers.Step i) x = Some y -> (Workers.threads y).*1 = (Workers.threads x).*1.
Proof.
  cbn [Workers.exec]. intros ([e p] & Ht & ([p' g] & _ & [= <-])%bind_Some)%bind_Some. cbn [Workers.threads].
  rewrite list_fmap_insert. apply list_insert_id. by rewrite list_lookup_fmap, Ht.
Qed.

Lemma exec_envs l (s s' : t) :
  exec l s = Some s' ->
  (jobs s' = jobs s /\ (Workers.threads (work s')).*1 = (Workers.threads (work s)).*1) \/
  exists w k e j, l = Start w k e /\ TP.workers (pool s) !! w = Some (TP.WNotify j) /\ jobs s' = jobs s ++ [j] /\
    (Workers.threads (work s')).*1 = (Workers.threads (work s)).*1 ++ [e].
Proof.
  intros He. destruct l as [now fd size|i o|l|w k e|w|w|now|now writes]; cbn [System.exec] in He.
  - destruct (loop_free s); [|done]. injection He as <-. by left.
  - destruct (_ && _); [|done]. apply bind_Some in He as (c & _ & He). apply bind_Some in He as ([c' evs] & _ & [= <-]). by left.
  - destruct (pool_label l s); [|done]. apply bind_Some in He as (p & _ & [= <-]). by left.
  - destruct (TP.workers (pool s) !! w) as [[| |j| |]|] eqn:Ew; try done. apply bind_Some in He as (p & _ & [= <-]).
    right. exists w, k, e, j. split_and!; try done. cbn. by rewrite fmap_app.
  - destruct (slots s !! w) as [[i|]|]; try done. apply bind_Some in He as (x & Hx & [= <-]). left. split; [done|]. by apply step_envs in Hx.
  - destruct (TP.workers (pool s) !! w) as [[| | |j|]|]; try done. destruct (slots s !! w) as [[i|]|]; try done.
    destruct (Workers.threads (work s) !! i) as [[e []]|]; try done. injection He as <-. by left.
  - destruct (loop_free s); [|done]. injection He as <-. by left.
  - destruct (deferred s) as [|r rs]; [done|]. destruct (loop_free s); [|done].
    apply bind_Some in He as (c & _ & He). apply bind_Some in He as ([c' evs] & _ & [= <-]). by left.
Qed.

(** Every pipeline was begun in the run. *)
Lemma run_begun m ls (s0 s : t) i e j :
  inv m s0 -> jobs s0 = [] -> Workers.threads (work s0) = [] -> run ls s0 = Some s ->
  (Workers.threads (work s)).*1 !! i = Some e -> jobs s !! i = Some j -> begun ls s0 e j.
Proof.
  intros Hi Hj0 Ht0. revert s i e j. induction ls as [|l ls IH] using rev_ind; intros s i e j; cbn [System.run].
  { intros [= <-]. by rewrite Hj0. }
  rewrite system_run_app. intros (s1 & Hr & (s2 & He & [= <-])%bind_Some)%bind_Some Hei Hji.
  destruct (system_run_inv rounds fuel m ls s0 s1 Hi Hr) as [Hi1 _]. pose proof (inv_jobs _ _ Hi1) as Hlen.
  destruct (exec_envs l s1 s2 He) as [[Ej Et]|(w & k & e' & j' & -> & Hw & Ej & Et)]; rewrite Ej in Hji; rewrite Et in Hei.
  - apply begun_app. by eapply IH.
  - apply lookup_snoc_Some in Hei as [[Hi1' Hei]|[-> <-]]; apply lookup_snoc_Some in Hji as [[Hi2 Hji]|[Hi2 <-]].
    + apply begun_app. by eapply IH.
    + rewrite length_fmap in Hi1'. lia.
    + rewrite length_fmap in Hi2. lia.
    + by exists ls, w, k, [], s1.
Qed.

(** What the threads know ([Provenance]) at every moment of the run. *)
Lemma run_knows fs rt m ls l1 l2 (s0 s1 : t) :
  ls = l1 ++ l2 -> run l1 s0 = Some s1 -> inv m s0 -> jobs s0 = [] ->
  P.known fs rt (refused_in ls s0) (work s0) [] -> P.known fs rt (refused_in ls s0) (work s1) (jobs s1).*2.
Proof.
  intros E Hr Hi Hj Hk. revert l2 s1 E Hr. induction l1 as [|l l1 IH] using rev_ind; intros l2 s1 E; cbn [System.run].
  { intros [= <-]. by rewrite Hj. }
  rewrite system_run_app. intros (s2 & Hr & (s3 & He & [= <-])%bind_Some)%bind_Some. rewrite <- app_assoc in E.
  specialize (IH _ s2 E Hr). destruct (system_run_inv rounds fuel m l1 s0 s2 Hi Hr) as [Hi2 _].
  assert (Hsh : P.refusals (refused_in ls s0) (Workers.shared (work s2))) by (intros b now Hb; by exists l1, ([l] ++ l2), s2).
  destruct (exec_work rounds fuel m l s2 s3 Hi2 He) as [[-> ->]|(l' & Hl & Hm)]; [done|].
  pose proof (P.exec_known _ _ _ _ _ _ _ Hl Hsh IH) as Hk'. destruct l' as [e raw|k|now]; cbn [P.spawned omap list_omap] in Hk'.
  - destruct Hm as (j & -> & ->). by rewrite fmap_app.
  - by rewrite Hm, app_nil_r in *.
  - by rewrite Hm, app_nil_r in *.
Qed.

(** C10. Every response is explained by its own request: in every interleaving of loop, thread
    pool, pipelines and pool cleanup, a response handed to the loop for a request is one that
    [process_request] may send for the bytes of that request, given the configured routes,
    the filters and what the kernel answered the worker that began this request.  It is 400
    for a request that does not parse or that a filter refuses, the gateway's own page for an
    internal path, 404 when no route matches, 503 only when the breaker of the selected
    backend refuses at the time the worker asks it, and otherwise the bytes received over a
    connection to a backend of the matching route, or 502, with the headers the gateway and
    its filters add, the filters running in the order of registration.  What other clients
    send at the same time is not in it. *)
Theorem every_response_explained (c : GatewayConfig) (w : W) (fs : list (Filter W)) ls n m s r :
  let s0 := create n m (A.start c w fs) in
  run ls s0 = Some s -> r ∈ replies s ->
  exists e, begun ls s0 e (S.request r) /\
    P.answers fs (Router.create (routes c)) e (S.request r).2 (refused_in ls s0) (S.out r) (S.ka r).
Proof.
  intros s0 Hr Hin. pose proof (system_create_inv n m (A.start c w fs)) as Hi. fold s0 in Hi.
  destruct (run_computed rounds fuel m ls _ s Hi Hr) with (r := r) as (i & e & Hj & Ht); [by intros ? ?%not_elem_of_nil|done|].
  exists e. split.
  - apply (run_begun m ls s0 s i e); try done. by rewrite list_lookup_fmap, Ht.
  - destruct (run_knows fs (Router.create (routes c)) m ls ls [] s0 s) as [_ _ _ _ Hk]; try done.
    { by rewrite app_nil_r. }
    { apply P.start_known. }
    destruct (Hk i e _ Ht) as (raw & Hraw & Ha). apply list_lookup_fmap_Some in Hraw as (j & -> & Hj').
    by injection (eq_trans (eq_sym Hj) Hj') as <-.
Qed.

(** ** Load *)

Definition unsent (x : G.env * @Workers.pc W) : Prop := is_sent x.2 = false.

#[export] Instance unsent_dec x : Decision (unsent x) := decide (is_sent x.2 = false).

(** An unfinished pipeline belongs to a worker. *)
Definition owned (s : t) : Prop :=
  forall i x, Workers.threads (work s) !! i = Some x -> unsent x -> exists w, slots s !! w = Some (Some i).

Lemma exec_owned m l s s' : inv m s -> exec l s = Some s' -> owned s -> owned s'.
Proof.
  intros Hi He Ho. destruct l as [now fd size|i o|l|w k e|w|w|now|now writes]; cbn [System.exec] in He.
  - destruct (loop_free s); [|done]. by injection He as <-.
  - destruct (_ && _); [|done]. apply bind_Some in He as (c & _ & He). apply bind_Some in He as ([c' evs] & _ & He). by injection He as <-.
  - destruct (pool_label l s); [|done]. apply bind_Some in He as (p & Hp & He). by injection He as <-.
  - destruct (TP.workers (pool s) !! w) as [[| |j| |]|] eqn:Ew; try done. apply bind_Some in He as (p & Hp & [= <-]).
    destruct (slot_of m s w _ Hi Ew) as [sl Hs]. pose proof (no_run m s w _ sl Hi Ew Hs) as ->.
    intros i x Hx Hu. cbn [work slots Workers.threads] in *. apply lookup_snoc_Some in Hx as [[Hlt Hx]|[-> _]].
    + destruct (Ho i x Hx Hu) as [v Hv]. exists v. rewrite list_lookup_insert_ne; [done|congruence].
    + exists w. by rewrite list_lookup_insert_eq by by eapply lookup_lt_Some.
  - destruct (slots s !! w) as [[i|]|] eqn:Es; try done. apply bind_Some in He as (x & Hx & [= <-]).
    cbn [Workers.exec] in Hx. apply bind_Some in Hx as ([e p] & Ht & Hx). apply bind_Some in Hx as ([p' g] & Hs & [= <-]).
    intros k y Hy Hu. cbn [set_work work slots Workers.threads] in *. destruct (decide (i = k)) as [<-|Hne]; [by exists w|].
    rewrite list_lookup_insert_ne in Hy by done. by apply (Ho k y).
  - destruct (TP.workers (pool s) !! w) as [[| | |j|]|]; try done. destruct (slots s !! w) as [[i|]|] eqn:Es; try done.
    destruct (Workers.threads (work s) !! i) as [[e []]|] eqn:Et; try done. injection He as <-.
    intros k y Hy Hu. cbn [work slots] in *. destruct (Ho k y Hy Hu) as [v Hv]. exists v.
    rewrite list_lookup_insert_ne; [done|]. intros ->. assert (k = i) as -> by congruence. rewrite Hy in Et. injection Et as ->. done.
  - destruct (loop_free s); [|done]. by injection He as <-.
  - destruct (deferred s) as [|r rs]; [done|]. destruct (loop_free s); [|done].
    apply bind_Some in He as (c & _ & He). apply bind_Some in He as ([c' evs] & _ & He). by injection He as <-.
Qed.

Lemma run_owned m ls s s' : inv m s -> run ls s = Some s' -> owned s -> owned s'.
Proof.
  revert s; induction ls as [|l ls IH]; intros s Hi; cbn [System.run]; [by intros [= <-]|].
  intros (s1 & He & Hr)%bind_Some Ho. destruct (exec_sim rounds fuel m l s s1 Hi He) as [Hi1 _].
  apply (IH s1 Hi1 Hr). by apply (exec_owned m l s s1).
Qed.

Lemma count_indices {B} (Q : B -> Prop) `{forall x, Decision (Q x)} (l : list B) (k : list nat) :
  (forall i x, l !! i = Some x -> Q x -> i ∈ k) -> (length (filter Q l) <= length k)%nat.
Proof.
  revert k; induction l as [|x l IH] using rev_ind; intros k Hk; [cbn; lia|]. rewrite filter_app, length_app.
  assert (Hl : forall i y, l !! i = Some y -> Q y -> i ∈ filter (fun a => a <> length l) k).
  { intros i y Hi Hy. apply list_elem_of_filter. split; [apply lookup_lt_Some in Hi; lia|]. apply (Hk i y); [by apply lookup_app_l_Some|done]. }
  specialize (IH _ Hl). rewrite filter_cons. destruct (decide (Q x)) as [Hx|]; cbn [filter list_filter length].
  - assert (Hn : length l ∈ k) by (apply (Hk (length l) x); [by rewrite lookup_app_r, Nat.sub_diag|done]).
    pose proof (length_filter_lt (fun a => a <> length l) k (length l) Hn ltac:(by intros Hne; apply Hne)). lia.
  - pose proof (length_filter (fun a => a <> length l) k). lia.
Qed.

Lemma length_somes {B} (l : list (option B)) : (length (omap id l) <= length l)%nat.
Proof. induction l as [|[x|] l IH]; cbn; lia. Qed.

Lemma owned_count s : owned s -> (length (filter unsent (Workers.threads (work s))) <= length (slots s))%nat.
Proof.
  intros Ho. etransitivity; [|apply length_somes]. apply count_indices. intros i x Hi Hx.
  destruct (Ho i x Hi Hx) as [w Hw]. apply list_elem_of_omap. exists (Some i). split; [by eapply list_elem_of_lookup_2|done].
Qed.

(** Whatever only an unfinished pipeline has at most one of. *)
Lemma total_unsent (f : @Workers.pc W -> nat) ts :
  (forall p, f p <= 1)%nat -> (forall out ka, f (Workers.Sent out ka) = 0%nat) ->
  (A.total f ts <= Z.of_nat (length (filter unsent ts)))%Z.
Proof.
  intros Hf Hs. unfold A.total. apply inj_le. induction ts as [|[e p] ts IH]; [done|]. rewrite filter_cons. cbn [sum_list_with snd].
  specialize (Hf p). destruct (decide (unsent (e, p))) as [Hu|Hu]; cbn [length]; [lia|].
  destruct p; try (exfalso; by apply Hu). rewrite Hs. lia.
Qed.

Lemma held_unsent (ts : list (G.env * @Workers.pc W)) :
  (length (ts ≫= fun x => L.held x.2) <= length (filter unsent ts))%nat.
Proof.
  induction ts as [|[e p] ts IH]; [done|]. rewrite filter_cons. cbn [mbind list_bind snd]. rewrite length_app.
  destruct (decide (unsent (e, p))) as [Hu|Hu]; cbn [length]; [destruct p; cbn; lia|].
  destruct p; try (exfalso; by apply Hu). cbn. lia.
Qed.

(** C12. The number of worker threads bounds the load of the backends: in every reachable state
    at most [n] requests have been begun by a worker and have no response yet, for no backend does the
    balancer count more than [n] connections or the connection pool more than [n] handed
    out, at most [n] connections are in the hands of workers, no more idle ones are kept for
    a backend than configured (the setting converted to [size_t]), and with a positive limit
    [m] at most [m] requests wait in the queue. *)
Theorem load_bounded (c : GatewayConfig) (w : W) (fs : list (Filter W)) ls n m s :
  run ls (create n m (A.start c w fs)) = Some s -> (zlen (Workers.threads (work s)) + 1 < two64)%Z ->
  let g := Workers.shared (work s) in
  (length (filter unsent (Workers.threads (work s))) <= n)%nat /\
  (forall b, LoadBalancer.conns b (G.load_balancer g) <= Z.of_nat n)%Z /\
  (forall p b, Proxy.pool (G.proxy g) = Some p ->
     BackendPool.active_of (BackendPool.make_key b) p <= Z.of_nat n /\
     zlen (BackendPool.idle_of (BackendPool.make_key b) p) <= u64 (pool_max_idle_per_host (G.config g)))%Z /\
  (length (Workers.threads (work s) ≫= fun x => L.held x.2) <= n)%nat /\
  ((0 < m)%nat -> (length (TP.tasks (pool s)) <= m)%nat).
Proof.
  intros Hr Hlen g. pose proof (system_create_inv n m (A.start c w fs)) as Hi0.
  destruct (system_run_inv rounds fuel m ls _ s Hi0 Hr) as [Hi _].
  destruct (run_pool rounds fuel ls _ s Hr) as (lp & Hlp & Hq). destruct (run_work rounds fuel m ls _ s Hi0 Hr) as (lw & Hlw & _).
  assert (Hslots : length (slots s) = n).
  { rewrite (inv_slots _ _ Hi), (TP.run_workers _ _ _ Hlp). cbn. apply length_replicate. }
  assert (Hn : (length (filter unsent (Workers.threads (work s))) <= n)%nat).
  { rewrite <- Hslots. apply owned_count, (run_owned m ls _ s Hi0 Hr). intros i x Hx. cbn in Hx. by rewrite lookup_nil in Hx. }
  destruct (A.run_accounts lw _ _ Hlw (A.start_accounts c w fs)) as [A1 A2 A3 _ _ _ _ _]; [by cbn; rewrite A.start_eq|done|].
  split; [done|]. split; [|split; [|split]].
  - intros b. unfold g. rewrite A1. pose proof (total_unsent (A.connected b) (Workers.threads (work s)) (A.connected_le b) (fun _ _ => eq_refl)). lia.
  - intros p b Hp. rewrite (A2 b p Hp). pose proof (total_unsent (A.holding b) (Workers.threads (work s)) (A.holding_le b) (fun _ _ => eq_refl)).
    split; [lia|]. destruct (A3 p Hp) as [Hinv Hmax]. unfold g. rewrite <- Hmax. apply Hinv.
  - etransitivity; [apply held_unsent|exact Hn].
  - intros Hm. by apply (TP.queue_bounded lp n m).
Qed.

End Guarantees.

(** ** Evaluated runs *)

(** The worker is forwarding the request. *)
Definition forwarding : list label := arrival ++ take 15 service.

(** C12 applied to a request that is being forwarded: the one worker holds the one connection. *)
Lemma load_bounded_witness :
  length (Workers.threads (work (state_after forwarding)) ≫= fun x => L.held x.2) = 1%nat /\
  (length (Workers.threads (work (state_after forwarding)) ≫= fun x => L.held x.2) <= 1)%nat.
Proof.
  split; [vm_compute; reflexivity|].
  apply (load_bounded 100 4 load_default_config (mkWorld 5 [] 3) [RequestIdFilter; LoggingFilter] forwarding 1 1 (state_after forwarding)).
  - exact (system_runs_to forwarding ltac:(vm_compute; reflexivity)).
  - vm_compute. reflexivity.
Defined.

(** C10 applied to the response of a served request. *)
Lemma every_response_explained_witness :
  exists r e, head (replies (state_after (arrival ++ service))) = Some r /\
    begun 100 4 (arrival ++ service) initial e (0%nat, G.sample_raw) /\
    P.answers [RequestIdFilter; LoggingFilter] (Router.create (routes load_default_config)) e G.sample_raw
      (refused_in 100 4 (arrival ++ service) initial) (S.out r) (S.ka r).
Proof.
  destruct (head (replies (state_after (arrival ++ service)))) as [r|] eqn:E; [|vm_compute in E; discriminate E].
  assert (Hreq : S.request r = (0%nat, G.sample_raw)) by (vm_compute in E; injection E as <-; reflexivity).
  destruct (every_response_explained 100 4 load_default_config (mkWorld 5 [] 3) [RequestIdFilter; LoggingFilter] (arrival ++ service) 1 1
    (state_after (arrival ++ service)) r) as [e [Hb Ha]].
  - exact (system_runs_to (arrival ++ service) ltac:(vm_compute; reflexivity)).
  - apply head_Some_elem_of. exact E.
  - rewrite Hreq in Hb, Ha. exists r, e. split; [reflexivity|]. split; [exact Hb|exact Ha].
Defined.
End Guarantees.
