(* ===== verification/Stream.v ===== *)
(** * Stream: a client's requests are the messages of its byte stream

    The reference: a parser that is given the whole byte stream of a client at once, and
    after each message starts again on what is left.  The gateway reads the same bytes in
    pieces, stops reading while a request is answered, keeps what was pipelined behind it
    in the parser and resumes when the response has been written.  In every interleaving of
    [System] the requests it hands to the workers are the first ones of the reference. *)

From S2P Require Import Prelude StdSort StdMap Utils Config Router Http HttpParser HttpParserSpec HttpParserProps LoadBalancer CircuitBreaker BackendConnection BackendPool Proxy Stats Filters Gateway Workers Accounting Buffer Connection ThreadPool Server System.

Module Stream.
Module Parser := HttpParser.
Import HttpParserSpec.
Open Scope Z_scope.

(** ** The reference *)

Section Reference.
Context (mx : Z).

(** A parser as it is created for a connection. *)
Definition fresh : Parser.t := Parser.set_max_size mx Parser.create.

(** The first message of a stream, and what follows it. *)
Definition next (s : bytes) : option (bytes * bytes) :=
  p ← feed (length s + 2) 4 s fresh;
  if Parser.complete p then Some (Parser.raw p, Parser.partial p) else None.

Fixpoint requests (n : nat) (s : bytes) : list bytes * bytes :=
  match n with
  | O => ([], s)
  | S n' =>
      match next s with
      | Some (m, s') => let '(ms, r) := requests n' s' in (m :: ms, r)
      | None => ([], s)
      end
  end.

(** [ms] are the first messages of [s] and [r] follows them. *)
Definition cut (ms : list bytes) (s r : bytes) : Prop := requests (length ms) s = (ms, r).

Lemma fresh_ready d : ready (with_data d fresh).
Proof.
  split; [by split|]. split; [done|]. split; [|done]. apply (u64_range mx).
Qed.

Lemma new_ready : ready fresh.
Proof. exact (fresh_ready []). Qed.

(** Enough rounds are enough. *)
Lemma feed_enough d p rounds fuel n :
  ready p -> (4 <= fuel)%nat -> (HttpParserProps.rounds_for d p <= rounds)%nat -> (HttpParserProps.rounds_for d p <= n)%nat ->
  feed rounds fuel d p = feed n 4 d p.
Proof.
  intros Hp Hf Hr Hn. destruct (feed_spec d p Hp) as (q & _ & [[_ H]|[_ H]]); [by rewrite !H|].
  unfold HttpParserProps.rounds_for in *. by rewrite !H by lia.
Qed.

(** Bytes that are already buffered in the parser count like bytes that are read. *)
Lemma feed_buffered d p n m :
  ready p -> ready (with_data d p) -> (HttpParserProps.rounds_for d p <= n)%nat -> (HttpParserProps.rounds_for d p <= m)%nat ->
  feed n 4 [] (with_data d p) = feed m 4 d p.
Proof.
  intros Hp Hd Hn Hm. unfold HttpParserProps.rounds_for in *.
  destruct (feed_spec d p Hp) as (q & Hq & Hf). destruct (feed_spec [] (with_data d p) Hd) as (q' & Hq' & Hf').
  rewrite with_data_nil in Hq'. assert (q' = q) as -> by by eapply nf_unique.
  destruct Hf as [[H1 Hf]|[H1 Hf]], Hf' as [[H2 Hf']|[H2 Hf']]; try done; [by rewrite Hf, Hf'|].
  rewrite Hf by lia. rewrite Hf'; [done| |lia]. cbn. rewrite length_app. cbn. lia.
Qed.

Lemma complete_ok p : Parser.complete p = true -> Parser.state p <> Parser.Error.
Proof. unfold Parser.complete. intros ?%bool_decide_eq_true. congruence. Qed.

(** What a message and the rest are made of. *)
Lemma feed_parts d p n q :
  ready p -> (HttpParserProps.rounds_for d p <= n)%nat -> feed n 4 d p = Some q -> Parser.state q <> Parser.Error ->
  Parser.raw q ++ Parser.partial q = Parser.raw p ++ Parser.partial p ++ d /\ Parser.max_size q = Parser.max_size p /\
  (Parser.complete q = false -> ready q).
Proof.
  intros Hp Hn He Hs. destruct (HttpParserProps.feed_result d p n 4 q Hp ltac:(lia) Hn He) as (q' & [Hq Hm] & _ & _ & Hi & Hok).
  destruct (Hok Hs) as [<- Hz]. destruct (R_moves _ _ Hq (inv_with_data d p (proj1 Hp))) as (Hst & Hmx & _).
  split; [exact Hst|]. split; [exact Hmx|]. intros Hc. unfold Parser.complete in Hc. apply bool_decide_eq_false in Hc.
  destruct (checked_ready q Hi Hm) as [_ ?]; [by rewrite check_ok|done].
Qed.

Lemma next_feed s q n :
  (length s + 2 <= n)%nat -> feed n 4 s fresh = Some q -> Parser.complete q = true -> next s = Some (Parser.raw q, Parser.partial q).
Proof.
  intros Hn He Hc. unfold next. rewrite (feed_enough s fresh (length s + 2) 4 n); rewrite ?He.
  - cbn. by rewrite Hc.
  - apply new_ready.
  - lia.
  - unfold HttpParserProps.rounds_for. cbn. lia.
  - unfold HttpParserProps.rounds_for. cbn. lia.
Qed.

Lemma next_parts s m r : next s = Some (m, r) -> s = m ++ r.
Proof.
  unfold next. intros (q & Hq & Hc)%bind_Some. destruct (Parser.complete q) eqn:E; [|done]. injection Hc as <- <-.
  apply feed_parts in Hq as (-> & _); [done|apply new_ready|done|by apply complete_ok].
Qed.

(** More bytes do not change a message. *)
Lemma next_app s m r d : next s = Some (m, r) -> next (s ++ d) = Some (m, r ++ d).
Proof.
  unfold next at 1. intros (q & Hq & Hc)%bind_Some. destruct (Parser.complete q) eqn:E; [|done]. injection Hc as <- <-.
  assert (Hs : feed (length (s ++ d) + 2) 4 s fresh = Some q).
  { rewrite (feed_enough s fresh _ 4 (length s + 2)); [done|apply new_ready|lia|..];
      unfold HttpParserProps.rounds_for; rewrite ?length_app; cbn; lia. }
  pose proof (HttpParserProps.feed_two_reads s d fresh q (length (s ++ d) + 2) 4 new_ready ltac:(lia)) as H2.
  rewrite E in H2. unfold next. rewrite H2; [cbn|unfold HttpParserProps.rounds_for; cbn; lia|done|by apply complete_ok].
  change (Parser.complete (with_data d q)) with (Parser.complete q). by rewrite E.
Qed.

Lemma cut_nil s : cut [] s s.
Proof. done. Qed.

Lemma cut_snoc ms s r m r' : cut ms s r -> next r = Some (m, r') -> cut (ms ++ [m]) s r'.
Proof.
  unfold cut. revert s. induction ms as [|x ms IH]; intros s; cbn.
  - intros [= ->] ->. done.
  - destruct (next s) as [[y s']|]; [|done]. destruct (requests (length ms) s') as [l rr] eqn:E. intros [= -> -> ->] Hn.
    by rewrite (IH s' E Hn).
Qed.

Lemma cut_app ms s r d : cut ms s r -> cut ms (s ++ d) (r ++ d).
Proof.
  unfold cut. revert s. induction ms as [|x ms IH]; intros s; cbn; [by intros [= ->]|].
  destruct (next s) as [[y s']|] eqn:En; [|done]. destruct (requests (length ms) s') as [l rr] eqn:E. intros [= -> -> ->].
  rewrite (next_app _ _ _ d En). by rewrite (IH s' E).
Qed.

Lemma cut_concat ms s r : cut ms s r -> s = concat ms ++ r.
Proof.
  unfold cut. revert s. induction ms as [|x ms IH]; intros s; cbn; [by intros [= ->]|].
  destruct (next s) as [[y s']|] eqn:En; [|done]. destruct (requests (length ms) s') as [l rr] eqn:E. intros [= -> -> ->].
  rewrite (next_parts _ _ _ En), (IH s' E). by rewrite app_assoc.
Qed.

End Reference.

(** ** One connection *)

Import Connection.

(** The bytes the read loop takes, with [n] bytes already in the buffer. *)
Fixpoint read_bytes (limit n : Z) (reads : list Buffer.io) : bytes :=
  match reads with
  | Buffer.IoOk [] :: _ => []
  | Buffer.IoOk d :: reads' => d ++ (if u64 limit <? n + zlen d then [] else read_bytes limit (n + zlen d) reads')
  | _ => []
  end.

(** The bytes a handler takes from the socket. *)
Definition taken (o : op) (c : t) : bytes :=
  match o with
  | OnRead _ reads =>
      if bool_decide (state c = Reading) then read_bytes (max_request_size c) (Buffer.readable_size (read_buf c)) reads else []
  | _ => []
  end.

Definition limit (c : t) : Z := max_request_size c.

(** [acc] has been read from the socket and [ms] has been delivered. *)
Definition follows (acc : bytes) (ms : list bytes) (c : t) : Prop :=
  match state c with
  | Closed => exists r, cut (limit c) ms acc r
  | Reading =>
      Buffer.rep (read_buf c) [] /\ exists cur, cut (limit c) ms acc cur /\
        feed (length cur + 2) 4 cur (fresh (limit c)) = Some (parser c) /\ active (parser c)
  | _ => Buffer.rep (read_buf c) [] /\ exists r, cut (limit c) ms acc r /\ parser c = with_data r (fresh (limit c))
  end.

(** The vector under the read buffer grows with what is read only. *)
Definition roomy (acc : bytes) (c : t) : Prop := zlen (Buffer.buf (read_buf c)) <= 4224 + zlen acc.

Lemma close_follows acc ms r c : cut (limit c) ms acc r -> follows acc ms (close_internal c).1.
Proof.
  intros Hc. unfold close_internal. destruct (bool_decide_reflect (state c = Closed)) as [E|E]; cbn.
  - unfold follows. rewrite E. by exists r.
  - by exists r.
Qed.

Lemma active_flags p : active p -> Parser.has_error p = false /\ Parser.complete p = false.
Proof.
  intros [H1 H2]. unfold Parser.has_error, Parser.complete. by rewrite !bool_decide_eq_false_2.
Qed.

Lemma close_same c :
  max_request_size (close_internal c).1 = max_request_size c /\ read_buf (close_internal c).1 = read_buf c /\
  Handlers.messages (close_internal c).2 = [].
Proof. unfold close_internal. by destruct (bool_decide _). Qed.

(** What every handler owes: the new bytes and messages are accounted for. *)
Definition keeps (acc : bytes) (ms : list bytes) (c c' : t) (evs : list event) (d : bytes) : Prop :=
  follows (acc ++ d) (ms ++ Handlers.messages evs) c' /\ max_request_size c' = max_request_size c /\
  zlen (Buffer.buf (read_buf c')) <= zlen (Buffer.buf (read_buf c)) + zlen d.

Lemma keeps_close acc ms c0 c d r :
  cut (limit c) ms (acc ++ d) r -> max_request_size c = max_request_size c0 ->
  zlen (Buffer.buf (read_buf c)) <= zlen (Buffer.buf (read_buf c0)) + zlen d ->
  keeps acc ms c0 (close_internal c).1 (close_internal c).2 d.
Proof.
  intros Hc Hm Hb. destruct (close_same c) as (E1 & E2 & E3). unfold keeps. rewrite E1, E2, E3, app_nil_r.
  split; [|done]. by eapply close_follows.
Qed.

(** Parsing what has been read. *)
Lemma parse_follows rounds c acc ms cur d c' evs :
  Buffer.rep (read_buf c) d -> ready (parser c) -> cut (limit c) ms acc cur -> state c = Reading ->
  feed rounds 4 d (parser c) = feed (length cur + 2) 4 cur (fresh (limit c)) ->
  try_parse_message rounds 4 c = Some (c', evs) -> keeps acc ms c c' evs [].
Proof.
  intros Hrep Hready Hcut Hs Hfeed Ht.
  pose proof (try_parse_feed rounds 4 c d Hrep (proj1 (proj2 Hready))) as H. rewrite Hfeed in H.
  destruct (feed (length cur + 2) 4 cur (fresh (limit c))) as [q|] eqn:Eq; [|congruence].
  destruct H as (b & Hb & H). cbv zeta in H. destruct (Parser.has_error q) eqn:Ee.
  { rewrite Ht in H. apply (inj Some) in H.
    assert (E : c' = (c', evs).1 /\ evs = (c', evs).2) by done. rewrite H in E. destruct E as [-> ->].
    apply (keeps_close _ _ _ _ _ cur); cbn; rewrite ?app_nil_r, ?Hb; try done. zlen_facts. lia. }
  destruct H as [Hrb H]. assert (Hq : Parser.state q <> Parser.Error) by (unfold Parser.has_error in Ee; by apply bool_decide_eq_false in Ee).
  destruct (feed_parts cur (fresh (limit c)) (length cur + 2) q (new_ready (limit c)) ltac:(unfold HttpParserProps.rounds_for; cbn; lia) Eq Hq) as (_ & Hmx & _).
  rewrite Ht in H. destruct (Parser.complete q) eqn:Ec; injection H as -> ->.
  - split; [|split; [done|cbn; rewrite Hb; zlen_facts; lia]]. split; [done|]. exists (Parser.partial q). rewrite app_nil_r. split.
    + apply (cut_snoc _ _ _ cur); [done|]. by eapply next_feed.
    + cbn. unfold Parser.reset. by rewrite Hmx.
  - split; [|split; [done|cbn; rewrite Hb; zlen_facts; lia]]. unfold follows. cbn. rewrite Hs, !app_nil_r. split; [done|]. exists cur.
    split; [done|]. split; [done|]. unfold Parser.complete in Ec. by apply bool_decide_eq_false in Ec.
Qed.

Lemma read_loop_follows reads c d0 r :
  state c = Reading -> Buffer.rep (read_buf c) d0 -> read_loop reads c = Some r ->
  let d := read_bytes (max_request_size c) (zlen d0) reads in
  zlen (Buffer.buf (read_buf c)) + zlen d < Buffer.max_size ->
  match r with
  | inl c' => state c' = Reading /\ Buffer.rep (read_buf c') (d0 ++ d) /\ parser c' = parser c /\
      max_request_size c' = max_request_size c /\ zlen (Buffer.buf (read_buf c')) <= zlen (Buffer.buf (read_buf c)) + zlen d
  | inr res => exists c1, res = close_internal c1 /\ max_request_size c1 = max_request_size c /\
      zlen (Buffer.buf (read_buf c1)) <= zlen (Buffer.buf (read_buf c)) + zlen d
  end.
Proof.
  revert c d0. induction reads as [|x reads IH]; intros c d0 Hs Hrep; cbn [read_loop read_bytes]; [done|].
  destruct x as [errno|x].
  { cbn [Buffer.read_from_fd mbind option_bind]. intros Hr Hz. cbn in Hr. destruct (errno =? 11); injection Hr as <-.
    - rewrite app_nil_r. repeat split; try done; cbn; zlen_facts; lia.
    - exists (set_read_buf (read_buf c) c). repeat split; try done; cbn; zlen_facts; lia. }
  destruct (decide (x = [])) as [->|Hx].
  { intros Hr Hz. destruct (Buffer.read_from_fd_rep _ _ [] Hrep ltac:(cbn in Hz |- *; lia)) as (b & Hb & _ & Hlb). rewrite Hb in Hr. cbn in Hr.
    injection Hr as <-. exists (set_read_buf b c). by repeat split. }
  destruct x as [|a x0]; [done|]. cbv iota. set (x := a :: x0) in *. cbv zeta.
  intros Hr Hz. rewrite zlen_app in *. pose proof (zlen_pos x Hx).
  set (rest := if u64 (max_request_size c) <? zlen d0 + zlen x then [] else read_bytes (max_request_size c) (zlen d0 + zlen x) reads) in *. pose proof (zlen_nonneg rest).
  destruct (Buffer.read_from_fd_rep _ _ x Hrep ltac:(lia)) as (b & Hb & Hrb & Hlb). rewrite Hb in Hr. cbn [mbind option_bind] in Hr.
  destruct (Z.eqb_spec (zlen x) 0); [lia|]. destruct (Z.ltb_spec (zlen x) 0); [lia|].
  destruct (Buffer.rep_sizes _ _ Hrb) as (Hrs & _). rewrite Hrs, zlen_app in Hr. subst rest.
  change (max_request_size (set_read_buf b c)) with (max_request_size c) in Hr.
  destruct (u64 (max_request_size c) <? zlen d0 + zlen x) eqn:Elim.
  - injection Hr as <-. exists (set_read_buf b c). repeat split; try done; cbn; zlen_facts; lia.
  - specialize (IH (set_read_buf b c) (d0 ++ x) Hs Hrb Hr). cbn [read_buf set_read_buf max_request_size parser] in IH. rewrite zlen_app in IH.
    cbv zeta in IH. specialize (IH ltac:(lia)). destruct r as [c'|res].
    + destruct IH as (I1 & I2 & I3 & I4 & I5). rewrite <- app_assoc in I2. repeat split; try done. rewrite ?zlen_app. lia.
    + destruct IH as (c1 & I1 & I2 & I3). exists c1. repeat split; try done. rewrite ?zlen_app. lia.
Qed.

(** What is pending in the parser has been read since the last message. *)
Lemma pending_le cur c :
  feed (length cur + 2) 4 cur (fresh (limit c)) = Some (parser c) -> active (parser c) ->
  (length (Parser.partial (parser c)) <= length cur)%nat.
Proof.
  intros Hf Ha. apply feed_parts in Hf as (E & _); [|apply new_ready|unfold HttpParserProps.rounds_for; cbn; lia|apply Ha].
  apply (f_equal length) in E. rewrite !length_app in E. cbn in E. lia.
Qed.

Lemma read_follows rounds now reads c acc ms c' evs :
  follows acc ms c -> (length (acc ++ taken (OnRead now reads) c) + 2 <= rounds)%nat ->
  zlen (Buffer.buf (read_buf c)) + zlen (taken (OnRead now reads) c) < Buffer.max_size ->
  on_read rounds 4 now reads c = Some (c', evs) -> keeps acc ms c c' evs (taken (OnRead now reads) c).
Proof.
  intros Hf Hr Hz. unfold on_read. cbn [taken] in *. destruct (bool_decide_reflect (state c = Closing)) as [E|E].
  { rewrite bool_decide_eq_false_2 in * by congruence. intros [= H]. unfold follows in Hf. rewrite E in Hf. destruct Hf as (Hb & r & Hc & _).
    assert (Ep : c' = (c', evs).1 /\ evs = (c', evs).2) by done. rewrite <- H in Ep. destruct Ep as [-> ->].
    apply (keeps_close _ _ _ _ _ r); rewrite ?app_nil_r; try done. zlen_facts. lia. }
  destruct (bool_decide_reflect (state c = Reading)) as [Er|Er]; cbn [negb] in *.
  2: { intros [= <- <-]. split; [|split; [done|zlen_facts; lia]]. cbn. by rewrite !app_nil_r. }
  unfold follows in Hf. rewrite Er in Hf. destruct Hf as (Hrep & cur & Hcut & Hfeed & Hact).
  assert (H0 : Buffer.readable_size (read_buf c) = 0) by (destruct (Buffer.rep_sizes _ _ Hrep) as (-> & _); done). rewrite H0 in *.
  destruct (read_loop reads (set_time now c)) as [r|] eqn:Erl; cbn [mbind option_bind]; [|done].
  pose proof (read_loop_follows reads (set_time now c) [] r Er Hrep Erl Hz) as Hl. cbv zeta in Hl. cbn [max_request_size set_time] in Hl.
  change (zlen []) with 0 in Hl. set (d := read_bytes _ _ _) in *. destruct r as [c1|res].
  - destruct Hl as (H1 & H2 & H3 & H4 & H5). cbn [app] in H2. change (parser (set_time now c)) with (parser c) in H3. intros Ht.
    pose proof (f_equal length (cut_concat _ _ _ _ Hcut)) as Hla. rewrite length_app in Hla.
    assert (Hrp : ready (parser c1)).
    { rewrite H3. destruct (active_flags _ Hact) as [Hne Hnc].
      apply (feed_parts cur (fresh (limit c)) (length cur + 2)); [apply new_ready|unfold HttpParserProps.rounds_for; cbn; lia|done|apply Hact|done]. }
    assert (Hfd : feed rounds 4 d (parser c1) = feed (length (cur ++ d) + 2) 4 (cur ++ d) (fresh (limit c))).
    { rewrite H3. destruct (active_flags _ Hact) as [Hne Hnc].
      pose proof (HttpParserProps.feed_two_reads cur d (fresh (limit c)) (parser c) (length (cur ++ d) + 2) 4 (new_ready _) ltac:(lia)) as H6.
      rewrite Hnc in H6. rewrite H6; [|unfold HttpParserProps.rounds_for; cbn; lia| |apply Hact].
      - pose proof (pending_le cur c Hfeed Hact) as Hpl. rewrite length_app in Hr. unfold HttpParserProps.rounds_for.
        apply feed_enough; [by rewrite <- H3|lia|unfold HttpParserProps.rounds_for; rewrite ?length_app; lia..].
      - rewrite <- Hfeed. apply feed_enough; [apply new_ready|lia|..]; unfold HttpParserProps.rounds_for; rewrite ?length_app; cbn; lia. }
    destruct (parse_follows rounds c1 (acc ++ d) ms (cur ++ d) d c' evs) as (K1 & K2 & K3); try done.
    + unfold limit. rewrite H4. by apply cut_app.
    + unfold limit in *. by rewrite H4.
    + split; [by rewrite app_nil_r in K1|]. split; [congruence|]. cbn in H5. rewrite zlen_nil in K3. lia.
  - destruct Hl as (c1 & -> & H2 & H3). intros [= H]. assert (Ep : c' = (c', evs).1 /\ evs = (c', evs).2) by done. rewrite <- H in Ep.
    destruct Ep as [-> ->]. apply (keeps_close _ _ _ _ _ (cur ++ d)); [|done|done]. unfold limit. rewrite H2. by apply cut_app.
Qed.

(** Changes of the write side and events that deliver nothing. *)
Lemma keeps_from acc ms c c1 c' es evs :
  keeps acc ms c1 c' evs [] -> max_request_size c1 = max_request_size c -> read_buf c1 = read_buf c ->
  Handlers.messages es = [] -> keeps acc ms c c' (es ++ evs) [].
Proof.
  unfold keeps, Handlers.messages. intros (H1 & H2 & H3) Hm Hb He. rewrite omap_app, He, <- Hm, <- Hb. done.
Qed.

Lemma keeps_id acc ms c c' evs :
  follows acc ms c' -> max_request_size c' = max_request_size c -> read_buf c' = read_buf c ->
  Handlers.messages evs = [] -> keeps acc ms c c' evs [].
Proof. intros Hf Hm Hb He. unfold keeps. rewrite He, !app_nil_r, Hb. split; [done|]. split; [done|]. zlen_facts. lia. Qed.

(** After a response the parser starts on what was pipelined. *)
Lemma finish_follows rounds c acc ms c' evs :
  state c = Writing -> follows acc ms c -> (length acc + 2 <= rounds)%nat ->
  finish_response rounds 4 c = Some (c', evs) -> keeps acc ms c c' evs [].
Proof.
  intros Hs Hf Hr. unfold follows in Hf. rewrite Hs in Hf. destruct Hf as (Hrep & r & Hcut & Hp).
  pose proof (f_equal length (cut_concat _ _ _ _ Hcut)) as Hla. rewrite length_app in Hla.
  unfold finish_response. destruct (keep_alive c).
  2: { intros [= <- <-]. apply keeps_id; try done. split; [done|]. by exists r. }
  rewrite Hp. change (Parser.reset (with_data r (fresh (limit c)))) with (with_data r (fresh (limit c))).
  set (c1 := set_parser _ _). destruct (0 <? Parser.pending_size (parser c1)) eqn:Epd.
  - intros ([c2 e2] & Ht & [= <- <-])%bind_Some. apply (keeps_from acc ms c c1 c2 [ModFd (fd c) false] e2); try done.
    apply (parse_follows rounds c1 acc ms r []); try done; [apply fresh_ready|].
    apply feed_buffered; [apply new_ready|apply fresh_ready|unfold HttpParserProps.rounds_for; cbn; lia..].
  - intros [= <- <-]. apply keeps_id; try done. unfold follows. cbn [state set_parser set_state c1]. split; [done|]. exists r. split; [done|].
    assert (r = []) as ->.
    { destruct r as [|b r]; [done|]. unfold c1 in Epd. cbn [parser set_parser] in Epd.
      rewrite pending_pos in Epd; done. }
    split; [done|]. split; cbn; done.
Qed.

Lemma write_follows rounds now writes c acc ms c' evs :
  follows acc ms c -> (length acc + 2 <= rounds)%nat ->
  on_write rounds 4 now writes c = Some (c', evs) -> keeps acc ms c c' evs [].
Proof.
  intros Hf Hr. unfold on_write. destruct (bool_decide_reflect (state c = Writing)) as [E|E]; cbn [negb].
  2: { intros [= <- <-]. by apply keeps_id. }
  intros Hw. apply (keeps_from acc ms c (set_time now c) c' [] evs); try done. revert Hw.
  assert (E' : state (set_time now c) = Writing) by done. assert (Hf' : follows acc ms (set_time now c)) by done.
  revert E' Hf'. generalize (set_time now c). clear c E Hf. intros c E Hf.
  revert c E Hf; induction writes as [|[ret errno] writes IH]; intros c E Hf; cbn [on_write_loop];
    (destruct (Buffer.empty (write_buf c)); [by apply finish_follows|]); [done|].
  destruct (Buffer.write_to_fd ret (write_buf c)) as [n b]. set (c1 := set_write_buf b c).
  assert (Hf1 : follows acc ms c1) by done.
  destruct (n <? 0); [destruct (errno =? 11); [by intros [= <- <-]; apply keeps_id|]|].
  - intros [= H]. assert (Ep : c' = (c', evs).1 /\ evs = (c', evs).2) by done. rewrite <- H in Ep. destruct Ep as [-> ->].
    unfold follows in Hf. rewrite E in Hf. destruct Hf as (_ & r & Hcut & _).
    apply (keeps_close _ _ _ _ _ r); rewrite ?app_nil_r; try done. change (read_buf c1) with (read_buf c). zlen_facts. lia.
  - destruct (n =? 0); [by intros [= <- <-]; apply keeps_id|]. intros Ht. apply (keeps_from acc ms c c1 c' [] evs); try done. by apply IH.
Qed.

Lemma send_follows rounds now writes out ka c acc ms c' evs :
  follows acc ms c -> state c <> Reading -> (length acc + 2 <= rounds)%nat ->
  send_internal rounds 4 now writes out ka c = Some (c', evs) -> keeps acc ms c c' evs [].
Proof.
  intros Hf Hn Hr. unfold send_internal. rewrite (bool_decide_eq_false_2 _ Hn). rewrite andb_true_r.
  destruct (bool_decide_reflect (state c = Processing)) as [E|E]; cbn [negb].
  2: { intros [= <- <-]. by apply keeps_id. }
  intros (b & Hb & ([c1 e1] & Hw & [= <- <-])%bind_Some)%bind_Some.
  set (c0 := set_state Writing (set_write_buf b (set_keep_alive ka c))) in *.
  apply (keeps_from acc ms c c0 c1 [ModFd (fd c) true] e1); try done.
  apply (write_follows rounds now writes); [|done|done]. unfold follows in *. rewrite E in Hf. exact Hf.
Qed.

(** Every operation of the connection.  A response is only sent to a connection that does
    not read. *)
Lemma exec_follows rounds o c acc ms c' evs :
  follows acc ms c -> (Handlers.is_handler o = false -> state c <> Reading) ->
  (length (acc ++ taken o c) + 2 <= rounds)%nat -> zlen (Buffer.buf (read_buf c)) + zlen (taken o c) < Buffer.max_size ->
  exec rounds 4 o c = Some (c', evs) -> keeps acc ms c c' evs (taken o c).
Proof.
  intros Hf Hn Hr Hz. destruct o as [now reads|now writes|now writes out ka|]; cbn [exec].
  - by apply read_follows.
  - cbn in Hr. rewrite app_nil_r in Hr. by apply write_follows.
  - cbn in Hr. rewrite app_nil_r in Hr. apply send_follows; [done|by apply Hn|done].
  - intros [= H]. assert (Ep : c' = (c', evs).1 /\ evs = (c', evs).2) by done. rewrite <- H in Ep. destruct Ep as [-> ->].
    assert (Hc : exists r, cut (limit c) ms acc r).
    { unfold follows in Hf. destruct (state c); [destruct Hf as (_ & r & Hc & _)..|destruct Hf as (r & Hc)]; by exists r. }
    destruct Hc as [r Hc]. apply (keeps_close _ _ _ _ _ r); cbn [taken]; rewrite ?app_nil_r; try done. zlen_facts. lia.
Qed.

(** ** The gateway *)

Lemma next_none mx s p : feed (length s + 2) 4 s (fresh mx) = Some p -> active p -> next mx s = None.
Proof. intros Hf Ha. unfold next. rewrite Hf. cbn. destruct (active_flags p Ha) as [_ ->]. done. Qed.

Section System.
Context {W : Type} `{StdSort} `{HashOrder} (rounds : nat).
Notation exec := (System.exec rounds 4).
Notation run := (System.run rounds 4).
Notation conns := (@System.conns W).
Notation delivered := (@System.delivered W).

(** The bytes a step takes from the socket of connection [i]. *)
Definition received_by (i : nat) (l : System.label) (s : System.t (W := W)) : bytes :=
  match l with
  | System.Handle k o => if decide (k = i) then match conns s !! k with Some c => taken o c | None => [] end else []
  | _ => []
  end.

Fixpoint received (i : nat) (ls : list System.label) (s : System.t (W := W)) : bytes :=
  match ls with
  | [] => []
  | l :: ls' => received_by i l s ++ (if exec l s is Some s' then received i ls' s' else [])
  end.

(** Connection [i] has taken [acc] so far. *)
Definition heard (i : nat) (acc : bytes) (s : System.t (W := W)) : Prop :=
  match conns s !! i with
  | Some c => follows acc (Server.of_conn i (delivered s)) c /\ roomy acc c
  | None => acc = [] /\ Server.of_conn i (delivered s) = []
  end.

Lemma create_follows now fd size : follows [] [] (create now fd size) /\ roomy [] (create now fd size).
Proof.
  split; [|by vm_compute]. split; [apply Buffer.create_rep|]. exists []. split; [done|]. by split.
Qed.

Lemma of_conn_app i (js js' : list Server.job) : Server.of_conn i (js ++ js') = Server.of_conn i js ++ Server.of_conn i js'.
Proof. apply omap_app. Qed.

(** A handler of connection [k]. *)
Lemma handler_heard i k o c c' evs acc s :
  conns s !! k = Some c -> Connection.exec rounds 4 o c = Some (c', evs) ->
  (Handlers.is_handler o = false -> state c <> Reading) ->
  let d := if decide (k = i) then taken o c else [] in
  (length (acc ++ d) + 2 <= rounds)%nat -> 4224 + zlen (acc ++ d) < Buffer.max_size ->
  heard i acc s -> heard i (acc ++ d) (System.after_handler k c' evs s).
Proof.
  intros Hk He Hn d Hr Hz Hh. unfold heard, System.after_handler in *. cbn [System.conns System.delivered].
  rewrite of_conn_app, Server.of_conn_pair. subst d. destruct (decide (k = i)) as [->|Hne].
  - rewrite list_lookup_insert_eq by by eapply lookup_lt_Some. rewrite Hk in Hh. destruct Hh as [Hf Hroom].
    unfold roomy in *. rewrite zlen_app in *.
    destruct (exec_follows rounds o c acc _ c' evs Hf Hn Hr ltac:(lia) He) as (K1 & _ & K3). split; [exact K1|lia].
  - rewrite list_lookup_insert_ne by done. by rewrite !app_nil_r.
Qed.

Lemma exec_heard i m l acc s s' :
  (forall k, Server.inv_at (System.abs s) k) -> exec l s = Some s' ->
  (length (acc ++ received_by i l s) + 2 <= rounds)%nat -> 4224 + zlen (acc ++ received_by i l s) < Buffer.max_size ->
  System.inv m s -> heard i acc s -> heard i (acc ++ received_by i l s) s'.
Proof.
  intros Hv He Hr Hz Hi Hh. destruct l as [now fd size|k o|l|w k e|w|w|now|now writes]; cbn [System.exec received_by] in *;
    rewrite ?app_nil_r in *.
  - destruct (System.loop_free s); [|done]. injection He as <-. unfold heard in *. cbn [System.conns System.delivered].
    destruct (conns s !! i) as [c|] eqn:Ec.
    + by rewrite (lookup_app_l_Some _ _ _ _ Ec).
    + destruct Hh as [-> ->]. apply lookup_ge_None in Ec. rewrite lookup_app_r by done.
      destruct (i - length (conns s))%nat as [|j]; [apply create_follows|done].
  - destruct (System.loop_free s && Handlers.is_handler o) eqn:Ef; [|done]. apply andb_true_iff in Ef as [_ Eo].
    apply bind_Some in He as (c & Hc & He). apply bind_Some in He as ([c' evs] & Hx & [= <-]). rewrite Hc in *.
    apply (handler_heard i k o c c' evs acc s Hc Hx); try done. by rewrite Eo.
  - destruct (System.pool_label l s); [|done]. by apply bind_Some in He as (p & _ & [= <-]).
  - destruct (System.TP.workers (System.pool s) !! w) as [[]|]; try done. by apply bind_Some in He as (p & _ & [= <-]).
  - destruct (System.slots s !! w) as [[j|]|]; try done. by apply bind_Some in He as (x & _ & [= <-]).
  - destruct (System.TP.workers (System.pool s) !! w) as [[| | |j|]|]; try done. destruct (System.slots s !! w) as [[j'|]|]; try done.
    destruct (Workers.threads (System.work s) !! j') as [[e []]|]; try done. by injection He as <-.
  - destruct (System.loop_free s); [|done]. by injection He as <-.
  - destruct (System.deferred s) as [|r rs] eqn:Ed; [done|]. destruct (System.loop_free s); [|done].
    apply bind_Some in He as (c & Hc & He). apply bind_Some in He as ([c' evs] & Hx & [= <-]).
    set (s1 := System.mk _ _ _ _ _ _ _ _).
    pose proof (handler_heard i (Server.request r).1 (SendInternal now writes (Server.out r) (Server.ka r)) c c' evs acc s1 Hc Hx) as Hd.
    cbv zeta in Hd. cbn [taken] in Hd.
    assert (E : (if decide ((Server.request r).1 = i) then [] else ([] : bytes)) = []) by by destruct (decide _).
    rewrite E, app_nil_r in Hd. apply Hd; try done. intros _.
    destruct (Server.deferred_state (System.abs s) r rs c Ed Hc (Hv _)) as [-> | ->]; done.
Qed.

Lemma run_heard i m ls acc s s' :
  System.inv m s -> (forall k, Server.inv_at (System.abs s) k) -> run ls s = Some s' ->
  (length (acc ++ received i ls s) + 2 <= rounds)%nat -> 4224 + zlen (acc ++ received i ls s) < Buffer.max_size ->
  heard i acc s -> heard i (acc ++ received i ls s) s'.
Proof.
  revert acc s; induction ls as [|l ls IH]; intros acc s Hi Hv; cbn [System.run received].
  { intros [= <-] _ _. by rewrite app_nil_r. }
  intros (s1 & He & Hrun)%bind_Some. rewrite He, app_assoc. intros Hr Hz Hh.
  destruct (System.exec_sim rounds 4 m l s s1 Hi He) as [Hi1 Hsim].
  assert (Hv1 : forall k, Server.inv_at (System.abs s1) k).
  { intros k. destruct Hsim as [->|[l' Hl]]; [done|]. by eapply Server.flow_exec_inv. }
  apply IH; try done. rewrite length_app, zlen_app in *. pose proof (zlen_nonneg (received i ls s1)).
  apply (exec_heard i m l acc s s1); try done; lia.
Qed.

(** C9. The requests of a client are the messages of its byte stream, whatever the cuts
    between the reads, the pipelining and the interleaving of loop, pool and workers: what
    has been delivered for a connection are the first messages that the reference parser
    finds in the bytes received from it, each exactly the bytes it consists of, in order;
    a connection that waits for input has no complete request left in what it holds back;
    one that is busy with a request keeps everything behind it. *)
Theorem client_stream_respected ls n m g s i c :
  run ls (System.create n m g) = Some s -> conns s !! i = Some c ->
  let acc := received i ls (System.create n m g) in
  (length acc + 2 <= rounds)%nat -> 4224 + zlen acc < Buffer.max_size ->
  exists rest, cut (max_request_size c) (Server.of_conn i (delivered s)) acc rest /\
    acc = concat (Server.of_conn i (delivered s)) ++ rest /\
    match state c with
    | Closed => True
    | Reading => next (max_request_size c) rest = None /\ Parser.raw (parser c) ++ Parser.partial (parser c) = rest
    | _ => Parser.partial (parser c) = rest
    end.
Proof.
  intros Hrun Hc acc Hr Hz. pose proof (System.system_create_inv n m g) as Hi.
  assert (Hv : forall k, Server.inv_at (System.abs (System.create n m g)) k).
  { rewrite System.create_abs. by apply (Server.server_run_inv m rounds 4 [] n). }
  pose proof (run_heard i m ls [] _ s Hi Hv Hrun Hr Hz) as Hh. cbn [app] in Hh. fold acc in Hh.
  unfold heard in Hh. rewrite Hc in Hh. destruct Hh as [Hf _]; [done|]. unfold follows, limit in Hf.
  assert (Hcat : forall r, cut (max_request_size c) (Server.of_conn i (delivered s)) acc r -> acc = concat (Server.of_conn i (delivered s)) ++ r)
    by (intros r; apply cut_concat).
  destruct (state c) eqn:Es.
  - destruct Hf as (_ & cur & Hcut & Hfeed & Ha). exists cur. split; [done|]. split; [by apply Hcat|]. split; [by eapply next_none|].
    apply feed_parts in Hfeed as (E & _); [|apply new_ready|unfold HttpParserProps.rounds_for; cbn; lia|apply Ha]. exact E.
  - destruct Hf as (_ & r & Hcut & Hp). exists r. split; [done|]. split; [by apply Hcat|]. by rewrite Hp.
  - destruct Hf as (_ & r & Hcut & Hp). exists r. split; [done|]. split; [by apply Hcat|]. by rewrite Hp.
  - destruct Hf as (_ & r & Hcut & Hp). exists r. split; [done|]. split; [by apply Hcat|]. by rewrite Hp.
  - destruct Hf as (r & Hcut). exists r. split; [done|]. split; [by apply Hcat|done].
Qed.

End System.

(** ** An evaluated run *)

(** A request that arrives in two reads with the start of the next one behind it; the answer
    is written out. *)
Definition two_reads : list System.label :=
  [System.Accept 0 7 65536; System.Handle 0 (OnRead 1 [Buffer.IoOk (take 9 Gateway.sample_raw); Buffer.IoErr 11]);
   System.Handle 0 (OnRead 2 [Buffer.IoOk (drop 9 Gateway.sample_raw); Buffer.IoOk (lit "GET /n"); Buffer.IoErr 11])]
  ++ System.service ++ [System.RunDeferred 3 [(200, 0)]].

(** C9 applied to it: the request has been delivered and the start of the next one is kept in
    the parser. *)
Lemma client_stream_respected_witness :
  received 100 0 two_reads System.initial = Gateway.sample_raw ++ lit "GET /n" /\
  exists c, System.conns (System.state_after two_reads) !! 0%nat = Some c /\
    cut 65536 [Gateway.sample_raw] (Gateway.sample_raw ++ lit "GET /n") (Parser.partial (parser c)) /\
    Gateway.sample_raw ++ lit "GET /n" = Gateway.sample_raw ++ Parser.partial (parser c).
Proof.
  assert (Er : received 100 0 two_reads System.initial = Gateway.sample_raw ++ lit "GET /n") by (vm_compute; reflexivity).
  split; [exact Er|].
  assert (Ed : Server.of_conn 0 (System.delivered (System.state_after two_reads)) = [Gateway.sample_raw]) by (vm_compute; reflexivity).
  destruct (System.conns (System.state_after two_reads) !! 0%nat) as [c|] eqn:Ec; [|vm_compute in Ec; discriminate Ec].
  assert (Ex : max_request_size c = 65536 /\ state c = Closing) by (vm_compute in Ec; injection Ec as <-; split; reflexivity).
  destruct (client_stream_respected 100 two_reads 1 1 Accounting.sample_start (System.state_after two_reads) 0 c) as (rest & H1 & H2 & H3).
  - exact (System.system_runs_to two_reads ltac:(vm_compute; reflexivity)).
  - exact Ec.
  - vm_compute. lia.
  - vm_compute. reflexivity.
  - change (System.create 1 1 Accounting.sample_start) with System.initial in H1, H2. rewrite Er, Ed in H1, H2. destruct Ex as [E1 E2].
    rewrite E2 in H3. cbn iota in H3. subst rest. rewrite E1 in H1. cbn [concat app] in H2. rewrite app_nil_r in H2.
    exists c. split; [reflexivity|]. split; [exact H1|exact H2].
Defined.

End Stream.
