(* ===== verification/Shutdown.v ===== *)
(** * Shutdown: the destruction of the gateway

    [Gateway] has no destructor of its own: when [run] returns, [main] ends and the members
    are destroyed in the reverse order of their declaration.  [pool_] is declared before
    the router, the proxy, the balancer, the breakers and the filters, so these are gone
    when the destructor of the pool starts to drain the queue; the event loop is declared
    before the pool and outlives it.  A step is the destruction of one member (for the
    pool, one stage of its destructor) or a step of a worker of [System]. *)

From S2P Require Import Prelude StdSort StdMap Config Filters Gateway Workers Accounting ThreadPool Server System.

Module Shutdown.
Module TP := ThreadPool.
Module Sys := System.
Open Scope nat_scope.

(** The members of [Gateway] in the order of their declaration. *)
Inductive member :=
  | Config | EventLoop | Timer | Pool | TcpServer | Connections | Router | Proxy | LoadBalancer
  | CircuitBreakers | HealthChecker | Filters.

#[global] Instance member_eq_dec : EqDecision member.
Proof. solve_decision. Defined.

Definition declared : list member :=
  [Config; EventLoop; Timer; Pool; TcpServer; Connections; Router; Proxy; LoadBalancer; CircuitBreakers; HealthChecker; Filters].

Definition destruction : list member := rev declared.

Section Shutdown.
Context {W : Type} `{StdSort} `{HashOrder} (rounds fuel : nat).

Record t := mk { sys : Sys.t (W := W); gone : list member }.

(** The next stage of the destruction. *)
Definition destroy (s : t) : option t :=
  match drop (length (gone s)) destruction with
  | [] => None
  | Pool :: _ =>
      match TP.dtor (Sys.pool (sys s)) with
      | TP.Joined => Some (mk (sys s) (gone s ++ [Pool]))
      | _ => p ← TP.exec TP.Destroy (Sys.pool (sys s)); Some (mk (Sys.set_pool p (sys s)) (gone s))
      end
  | m :: _ => Some (mk (sys s) (gone s ++ [m]))
  end.

Inductive label := DestroyNext | Thread (l : Sys.label).

(** What happens apart from the main thread: the workers, their wake-ups included. *)
Definition of_worker (l : Sys.label) : bool :=
  match l with Sys.Pool _ | Sys.Start _ _ _ | Sys.Work _ | Sys.Send _ => true | _ => false end.

(** The loop has ended; the workers have not. *)
Definition exec (l : label) (s : t) : option t :=
  match l with
  | DestroyNext => destroy s
  | Thread l => if of_worker l then x ← Sys.exec rounds fuel l (sys s); Some (mk x (gone s)) else None
  end.

Fixpoint run (ls : list label) (s : t) : option t :=
  match ls with [] => Some s | l :: ls' => s ← exec l s; run ls' s end.

(** ** Invariant *)

Record inv (s : t) : Prop := {
  inv_order : gone s = take (length (gone s)) destruction;
  inv_pool : TP.shutdown_inv (Sys.pool (sys s));
  inv_started : TP.dtor (Sys.pool (sys s)) <> TP.Alive -> 8 <= length (gone s);
  inv_joined : 9 <= length (gone s) -> TP.dtor (Sys.pool (sys s)) = TP.Joined
}.

Lemma thread_dtor (l : TP.label Server.job) p p' :
  TP.step p l p' -> match l with TP.Destroy => False | _ => True end -> TP.dtor p' = TP.dtor p.
Proof. intros Hs Hl. destruct Hs; try done. all: unfold TP.take_task; by destruct (TP.tasks p). Qed.

Lemma thread_pool l (s s' : Sys.t (W := W)) :
  of_worker l = true -> Sys.exec rounds fuel l s = Some s' ->
  Sys.pool s' = Sys.pool s \/
  exists l', TP.step (Sys.pool s) l' (Sys.pool s') /\ match l' with TP.Destroy => False | _ => True end.
Proof.
  intros Hl He. destruct l as [| |l|w k e|w|w| |]; try done; cbn [Sys.exec] in He.
  - destruct (Sys.pool_label l s) eqn:El; [|done]. apply bind_Some in He as (p & Hp & He). injection He as <-.
    right. exists l. split; [by apply TP.exec_step|]. by destruct l.
  - destruct (TP.workers (Sys.pool s) !! w) as [[]|]; try done. apply bind_Some in He as (p & Hp & He). injection He as <-.
    right. exists (TP.Worker w k). split; [by apply TP.exec_step|done].
  - destruct (Sys.slots s !! w) as [[i|]|]; try done. apply bind_Some in He as (x & _ & He). injection He as <-. by left.
  - destruct (TP.workers (Sys.pool s) !! w) as [[| | |j|]|]; try done. destruct (Sys.slots s !! w) as [[i|]|]; try done.
    destruct (Workers.threads (Sys.work s) !! i) as [[e []]|]; try done. injection He as <-. by left.
Qed.

Lemma shutdown_exec_inv l s s' : inv s -> exec l s = Some s' -> inv s'.
Proof.
  intros [I1 I2 I3 I4] He. destruct l as [|l]; cbn [exec] in He.
  - unfold destroy in He. destruct (drop (length (gone s)) destruction) as [|m rest] eqn:Ed; [done|].
    assert (Hm : destruction !! length (gone s) = Some m) by (rewrite <- (Nat.add_0_r (length (gone s))), <- lookup_drop, Ed; done).
    assert (Hlt : length (gone s) < 12) by (apply lookup_lt_Some in Hm; exact Hm).
    assert (Ho : gone s ++ [m] = take (length (gone s ++ [m])) destruction).
    { rewrite length_app. cbn [length]. rewrite Nat.add_1_r, (take_S_r _ _ m Hm). by f_equal. }
    destruct (decide (m = Pool)) as [->|Hne].
    + assert (Hl8 : length (gone s) = 8).
      { destruct (gone s) as [|? [|? [|? [|? [|? [|? [|? [|? [|? [|? [|? [|? ?]]]]]]]]]]]]; cbn in Hm |- *; try done; cbn in Hlt; lia. }
      destruct (TP.dtor (Sys.pool (sys s))) eqn:Edt.
      1-3: apply bind_Some in He as (p & Hp & He); injection He as <-; constructor; cbn; try done; try lia;
        apply TP.exec_step in Hp; by eapply TP.shutdown_inv_step.
      injection He as <-. constructor; cbn; try done. rewrite length_app. cbn. lia.
    + assert (He' : s' = mk (sys s) (gone s ++ [m])) by (destruct m; try done; by injection He as <-). subst s'. constructor; cbn; try done.
      * intros Hd. specialize (I3 Hd). rewrite length_app. cbn. lia.
      * rewrite length_app. cbn. intros H9. apply I4. destruct (decide (length (gone s) = 8)) as [E|]; [|lia].
        rewrite E in Hm. cbn in Hm. congruence.
  - destruct (of_worker l) eqn:El; [|done]. apply bind_Some in He as (x & Hx & He). injection He as <-.
    destruct (thread_pool l (sys s) x El Hx) as [E|(l' & Hs & Hl')].
    + constructor; cbn; rewrite ?E; done.
    + pose proof (thread_dtor l' _ _ Hs Hl') as Ed. constructor; cbn; rewrite ?Ed; try done. by eapply TP.shutdown_inv_step.
Qed.

Lemma shutdown_run_inv n m (g : Gateway.t W) ls s ls' st :
  Sys.run rounds fuel ls (Sys.create n m g) = Some s -> run ls' (mk s []) = Some st -> inv st.
Proof.
  intros Hr. assert (Hinit : inv (mk s [])).
  { destruct (Sys.system_run_inv rounds fuel m ls _ s (Sys.system_create_inv n m g) Hr) as [Hi _].
    apply Sys.run_pool in Hr as (lp & Hlp & _). apply TP.threads_run_inv in Hlp as (_ & _ & Hsh).
    assert (Hd : TP.dtor (Sys.pool s) = TP.Alive) by by apply (TP.inv_stop _ Hsh), (Sys.inv_alive _ _ Hi).
    constructor; cbn; try done. lia. }
  revert Hinit. generalize (mk s []). induction ls' as [|l ls' IH]; intros s0 Hinit; cbn [run]; [by intros [= <-]|].
  intros (s1 & He & Hr')%bind_Some. apply (IH s1); [by eapply shutdown_exec_inv|done].
Qed.

Lemma take_mono {A} n k (l : list A) : n <= k -> take n l ⊆ take k l.
Proof.
  intros Hn u Hu. apply list_elem_of_lookup_1 in Hu as [i Hi]. apply lookup_take_Some in Hi as [Hi Hlt].
  apply (list_elem_of_lookup_2 _ i), lookup_take_Some. split; [done|lia].
Qed.

Lemma gone_from n s : inv s -> n <= length (gone s) -> take n destruction ⊆ gone s.
Proof.
  intros Hi Hn u Hu. rewrite (inv_order _ Hi). by apply (take_mono n).
Qed.

(** ** The pipeline runs of the workers *)

(** A step of another thread leaves a worker that has a task in hand alone. *)
Lemma held_kept l (p p' : TP.t Server.job) w x :
  TP.step p l p' -> TP.workers p !! w = Some x -> TP.held x <> [] -> (forall k, l <> TP.Worker w k) ->
  TP.workers p' !! w = Some x.
Proof.
  intros Hs Hx Hh Hl.
  assert (Hne : forall v y, TP.workers p !! v = Some y -> TP.held y = [] -> v <> w) by (intros v y Hv Hy ->; congruence).
  destruct Hs as [| | | | | |i k Hi Hk|i k y rest Hi Ht|i k Hi Ht|i k y Hi|i k y z Hi Hk|i k y Hi|i Hi| | | |]; cbn; try done.
  - rewrite list_lookup_insert_ne; [done|by apply (Hne _ _ Hk)].
  - unfold TP.take_task. rewrite Ht. cbn. rewrite list_lookup_insert_ne; [done|by apply (Hne _ _ Hi)].
  - unfold TP.take_task. rewrite Ht. cbn. rewrite list_lookup_insert_ne; [done|by apply (Hne _ _ Hi)].
  - rewrite list_lookup_insert_ne; [done|intros ->; by apply (Hl k)].
  - rewrite list_lookup_insert_ne; [done|intros ->; by apply (Hl k)].
  - rewrite list_lookup_insert_ne; [done|intros ->; by apply (Hl k)].
  - rewrite list_lookup_insert_ne; [done|by apply (Hne _ _ Hi)].
  - rewrite list_lookup_fmap, Hx. by destruct x.
Qed.

(** A queued task stays in the queue or a worker takes it. *)
Lemma task_kept l (p p' : TP.t Server.job) j :
  TP.step p l p' -> j ∈ TP.tasks p -> j ∈ TP.tasks p' \/ exists w, TP.workers p' !! w = Some (TP.WNotify j).
Proof.
  intros Hs Hj. destruct Hs as [| | | | | | |i k y rest Hi Ht|i k Hi Ht| | | | | | | |]; cbn; try (by left).
  - left. apply elem_of_app. by left.
  - unfold TP.take_task. rewrite Ht in *. cbn. apply elem_of_cons in Hj as [->|Hj]; [|by left].
    right. exists i. apply list_lookup_insert_eq. by eapply lookup_lt_Some.
  - rewrite Ht in Hj. by apply elem_of_nil in Hj.
Qed.

Lemma step_workers l (p p' : TP.t Server.job) : TP.step p l p' -> length (TP.workers p') = length (TP.workers p).
Proof.
  intros Hs. destruct Hs; try unfold TP.take_task; repeat case_match; cbn; by rewrite ?length_insert, ?length_fmap.
Qed.

(** A run belongs to a worker that is running its job until it has sent. *)
Record tidy (s : Sys.t (W := W)) : Prop := {
  tidy_slots : length (Sys.slots s) = length (TP.workers (Sys.pool s));
  tidy_jobs : length (Sys.jobs s) = length (Workers.threads (Sys.work s));
  tidy_runs w i : Sys.slots s !! w = Some (Some i) -> exists j, TP.workers (Sys.pool s) !! w = Some (TP.WRun j);
  tidy_owned i e p : Workers.threads (Sys.work s) !! i = Some (e, p) -> Workers.is_sent p = false ->
    exists w, Sys.slots s !! w = Some (Some i)
}.

(** The pool moves; the workers that have a run are left alone. *)
Lemma tidy_pool l (s : Sys.t (W := W)) p :
  tidy s -> TP.step (Sys.pool s) l p ->
  (forall w k i, l = TP.Worker w k -> Sys.slots s !! w <> Some (Some i)) -> tidy (Sys.set_pool p s).
Proof.
  intros [T1 T2 T3 T4] Hs Hl. constructor; cbn; try done.
  - by rewrite (step_workers _ _ _ Hs).
  - intros w i Hw. destruct (T3 w i Hw) as [j Hj]. exists j. eapply held_kept; [done..|].
    intros k ->. by eapply (Hl w k i).
Qed.

Lemma thread_tidy l (s s' : Sys.t (W := W)) :
  tidy s -> of_worker l = true -> Sys.exec rounds fuel l s = Some s' -> tidy s'.
Proof.
  intros Ht Hl He. destruct l as [| |l|w k e|w|w| |]; try done; cbn [Sys.exec] in He.
  - destruct (Sys.pool_label l s) eqn:El; [|done]. apply bind_Some in He as (p & Hp & He). injection He as <-.
    apply (tidy_pool l); [done|by apply TP.exec_step|]. intros w k i -> Hw. destruct (tidy_runs _ Ht w i Hw) as [j Hj].
    cbn in El. by rewrite Hj, Hw in El.
  - destruct (TP.workers (Sys.pool s) !! w) as [[| |j| |]|] eqn:Ew; try done.
    apply bind_Some in He as (p & Hp & He). injection He as <-. destruct Ht as [T1 T2 T3 T4]. pose proof (TP.exec_step _ _ _ Hp) as Hs.
    assert (Hr : TP.workers p !! w = Some (TP.WRun j)).
    { change (TP.worker_step w k (Sys.pool s) = Some p) in Hp. unfold TP.worker_step in Hp.
      rewrite Ew in Hp. cbn [mbind option_bind] in Hp. apply bind_Some in Hp as (cs & _ & Hp). injection Hp as <-. cbn.
      apply list_lookup_insert_eq. by eapply lookup_lt_Some. }
    assert (Hlt : w < length (Sys.slots s)) by (rewrite T1; by eapply lookup_lt_Some).
    assert (Hfree : forall i, Sys.slots s !! w <> Some (Some i)) by (intros i Hw; destruct (T3 w i Hw); congruence).
    constructor; cbn; rewrite ?length_insert, ?length_app, ?(step_workers _ _ _ Hs); [done|cbn; lia|..].
    + intros v i Hv. destruct (decide (w = v)) as [<-|Hne]; [by exists j|].
      rewrite list_lookup_insert_ne in Hv by done. destruct (T3 v i Hv) as [j' Hj']. exists j'.
      eapply held_kept; [done..|]. intros k' [= -> _]. done.
    + intros i e' q [Hi|[Hge Hi]]%lookup_app_Some Hq.
      * destruct (T4 i e' q Hi Hq) as [v Hv]. exists v. rewrite list_lookup_insert_ne; [done|]. intros ->. by apply (Hfree i).
      * exists w. rewrite list_lookup_insert_eq by done. do 2 f_equal. apply lookup_lt_Some in Hi. cbn in Hi. lia.
  - destruct (Sys.slots s !! w) as [[i|]|] eqn:Es; try done. apply bind_Some in He as (x & Hx & He). injection He as <-.
    destruct Ht as [T1 T2 T3 T4]. constructor; cbn; try done; [by rewrite (Sys.step_length i _ _ Hx)|].
    intros k e p Hk Hp. destruct (Workers.threads (Sys.work s) !! k) as [[e0 p0]|] eqn:Hk0.
    + destruct (Sys.worker_keeps _ _ _ _ _ _ Hx Hk0) as (p' & Hp' & Hsent). rewrite Hp' in Hk. injection Hk as <- <-.
      apply (T4 k e0 p0 Hk0). destruct (Workers.is_sent p0) eqn:E; [|done]. rewrite (Hsent eq_refl) in Hp. congruence.
    + apply lookup_ge_None in Hk0. apply lookup_lt_Some in Hk. rewrite (Sys.step_length i _ _ Hx) in Hk. lia.
  - destruct (TP.workers (Sys.pool s) !! w) as [[| | |j|]|] eqn:Ew; try done. destruct (Sys.slots s !! w) as [[i|]|] eqn:Es; try done.
    destruct (Workers.threads (Sys.work s) !! i) as [[e p]|] eqn:Et; try done. destruct p; try done. injection He as <-.
    destruct Ht as [T1 T2 T3 T4]. constructor; cbn; rewrite ?length_insert; try done.
    + intros v k Hv. destruct (decide (w = v)) as [<-|Hne].
      * rewrite list_lookup_insert_eq in Hv by by eapply lookup_lt_Some. done.
      * rewrite list_lookup_insert_ne in Hv by done. by apply (T3 v k).
    + intros k e' q Hk Hq. destruct (T4 k e' q Hk Hq) as [v Hv]. exists v. rewrite list_lookup_insert_ne; [done|].
      intros ->. rewrite Es in Hv. injection Hv as ->. rewrite Et in Hk. injection Hk as <- <-. done.
Qed.

(** Every other step of the system keeps the runs where they are. *)
Lemma exec_tidy m l (s s' : Sys.t (W := W)) :
  Sys.inv m s -> tidy s -> Sys.exec rounds fuel l s = Some s' -> tidy s'.
Proof.
  intros Hi Ht He. destruct (of_worker l) eqn:El; [by eapply thread_tidy|].
  destruct (Sys.exec_sim rounds fuel m l s s' Hi He) as [[_ _ _ _ J5 J6 J7] _].
  constructor; [done|done|intros w i Hw; destruct (J7 w i Hw) as (j & Hj & _); by exists j|]. clear J5 J6 J7.
  destruct Ht as [T1 T2 T3 T4]. intros i e p Hp Hs. destruct l as [now fd size|i' o| | | | |now|now writes]; try done; cbn [Sys.exec] in He.
  - destruct (Sys.loop_free s); [|done]. injection He as <-. by apply (T4 i e p).
  - destruct (_ && _); [|done]. apply bind_Some in He as (c & _ & He). apply bind_Some in He as ([c' evs] & _ & He).
    injection He as <-. by apply (T4 i e p).
  - destruct (Sys.loop_free s); [|done]. injection He as <-. by apply (T4 i e p).
  - destruct (Sys.deferred s) as [|r rs]; [done|]. destruct (Sys.loop_free s); [|done].
    apply bind_Some in He as (c & _ & He). apply bind_Some in He as ([c' evs] & _ & He). injection He as <-. by apply (T4 i e p).
Qed.

Lemma run_tidy n m (g : Gateway.t W) ls s : Sys.run rounds fuel ls (Sys.create n m g) = Some s -> tidy s.
Proof.
  assert (Hc : tidy (Sys.create n m g)).
  { constructor; cbn; try done; [by rewrite !length_replicate|]. intros w i Hw. apply lookup_replicate in Hw as [Hw _]. done. }
  generalize (Sys.system_create_inv n m g), Hc. generalize (Sys.create n m g).
  induction ls as [|l ls IH]; intros s0 Hi Ht; cbn [Sys.run]; [by intros [= <-]|].
  intros (s1 & He & Hr)%bind_Some. apply (IH s1); [|by eapply exec_tidy|done]. by destruct (Sys.exec_sim rounds fuel m l s0 s1 Hi He).
Qed.

(** ** Requests that are still queued *)

(** The request is queued, in the hands of a worker, or among the runs from the [k]-th on. *)
Definition pending (k : nat) (j : Server.job) (s : Sys.t (W := W)) : Prop :=
  k <= length (Sys.jobs s) /\
  (j ∈ TP.tasks (Sys.pool s) \/ (exists w, TP.workers (Sys.pool s) !! w = Some (TP.WNotify j)) \/
   exists i, k <= i /\ Sys.jobs s !! i = Some j).

Lemma pending_pool k j l (s : Sys.t (W := W)) p :
  pending k j s -> TP.step (Sys.pool s) l p ->
  (forall w k', l = TP.Worker w k' -> TP.workers (Sys.pool s) !! w <> Some (TP.WNotify j)) -> pending k j (Sys.set_pool p s).
Proof.
  intros [Hk [Hj|[[w Hw]|Hj]]] Hs Hl; (split; [done|]); cbn.
  - destruct (task_kept l _ _ j Hs Hj); [by left|right; by left].
  - right; left. exists w. eapply held_kept; [done..|]. intros k' ->. by eapply Hl.
  - right; by right.
Qed.

Lemma thread_pending k j l (s s' : Sys.t (W := W)) :
  pending k j s -> of_worker l = true -> Sys.exec rounds fuel l s = Some s' -> pending k j s'.
Proof.
  intros Hp Hl He. destruct l as [| |l|w k' e|w|w| |]; try done; cbn [Sys.exec] in He.
  - destruct (Sys.pool_label l s) eqn:El; [|done]. apply bind_Some in He as (p & Hx & He). injection He as <-.
    apply (pending_pool k j l); [done|by apply TP.exec_step|]. intros w k' -> Hw. cbn in El. by rewrite Hw in El.
  - destruct (TP.workers (Sys.pool s) !! w) as [[| |x| |]|] eqn:Ew; try done.
    apply bind_Some in He as (p & Hx & He). injection He as <-. pose proof (TP.exec_step _ _ _ Hx) as Hs.
    destruct Hp as [Hk Hp]. split; cbn; [rewrite length_app; lia|]. destruct Hp as [Hj|[[v Hv]|(i & Hi & Hj)]].
    + destruct (task_kept _ _ _ j Hs Hj); [by left|right; by left].
    + destruct (decide (w = v)) as [<-|Hne].
      * rewrite Ew in Hv. injection Hv as ->. right; right. exists (length (Sys.jobs s)). split; [done|].
        by rewrite lookup_app_r, Nat.sub_diag.
      * right; left. exists v. eapply held_kept; [done..|]. by intros k'' [= -> _].
    + right; right. exists i. split; [done|by apply lookup_app_l_Some].
  - destruct (Sys.slots s !! w) as [[i|]|]; try done. apply bind_Some in He as (x & _ & He). by injection He as <-.
  - destruct (TP.workers (Sys.pool s) !! w) as [[| | |x|]|]; try done. destruct (Sys.slots s !! w) as [[i|]|]; try done.
    destruct (Workers.threads (Sys.work s) !! i) as [[e []]|]; try done. by injection He as <-.
Qed.

Lemma destroy_sys s s' :
  destroy s = Some s' -> sys s' = sys s \/ exists p, TP.step (Sys.pool (sys s)) TP.Destroy p /\ sys s' = Sys.set_pool p (sys s).
Proof.
  unfold destroy. destruct (drop _ _) as [|[] rest]; try done; try (intros [= <-]; by left).
  destruct (TP.dtor (Sys.pool (sys s))); try (intros [= <-]; by left);
    intros (p & Hp & [= <-])%bind_Some; right; exists p; (split; [by apply TP.exec_step|done]).
Qed.

Lemma run_pending k j ls s st :
  tidy (sys s) -> pending k j (sys s) -> run ls s = Some st -> tidy (sys st) /\ pending k j (sys st).
Proof.
  revert s; induction ls as [|l ls IH]; intros s Ht Hp; cbn [run]; [by intros [= <-]|].
  intros (s1 & He & Hr)%bind_Some. assert (Hs : tidy (sys s1) /\ pending k j (sys s1)); [|destruct Hs; by apply (IH s1)].
  destruct l as [|l]; cbn [exec] in He.
  - destruct (destroy_sys s s1 He) as [->|(p & Hd & ->)]; [done|].
    split; [by apply (tidy_pool TP.Destroy)|by apply (pending_pool k j TP.Destroy)].
  - destruct (of_worker l) eqn:El; [|done]. apply bind_Some in He as (x & Hx & He). injection He as <-. cbn.
    split; [by eapply thread_tidy|by eapply thread_pending].
Qed.

Lemma run_tidy_after ls s st : tidy (sys s) -> run ls s = Some st -> tidy (sys st).
Proof.
  revert s; induction ls as [|l ls IH]; intros s Ht; cbn [run]; [by intros [= <-]|].
  intros (s1 & He & Hr)%bind_Some. apply (IH s1); [|done]. destruct l as [|l]; cbn [exec] in He.
  - destruct (destroy_sys s s1 He) as [->|(p & Hd & ->)]; [done|]. by apply (tidy_pool TP.Destroy).
  - destruct (of_worker l) eqn:El; [|done]. apply bind_Some in He as (x & Hx & He). injection He as <-. by eapply thread_tidy.
Qed.

Lemma workers_count ls s st : run ls s = Some st -> length (TP.workers (Sys.pool (sys st))) = length (TP.workers (Sys.pool (sys s))).
Proof.
  revert s; induction ls as [|l ls IH]; intros s; cbn [run]; [by intros [= <-]|].
  intros (s1 & He & ->%IH)%bind_Some. destruct l as [|l]; cbn [exec] in He.
  - destruct (destroy_sys s s1 He) as [->|(p & Hd & ->)]; [done|]. by eapply step_workers.
  - destruct (of_worker l) eqn:El; [|done]. apply bind_Some in He as (x & Hx & He). injection He as <-. cbn.
    destruct (thread_pool l _ _ El Hx) as [->|(l' & Hs & _)]; [done|]. by eapply step_workers.
Qed.

Lemma destroy_run_inv ls s st : inv s -> run ls s = Some st -> inv st.
Proof.
  revert s; induction ls as [|l ls IH]; intros s Hi; cbn [run]; [by intros [= <-]|].
  intros (s1 & He & Hr)%bind_Some. apply (IH s1); [by eapply shutdown_exec_inv|done].
Qed.

Lemma destroy_run_app ls1 ls2 s : run (ls1 ++ ls2) s = s' ← run ls1 s; run ls2 s'.
Proof. revert s; induction ls1 as [|l ls1 IH]; intros s; cbn [run app]; [done|]. destruct (exec l s); [apply IH|done]. Qed.

(** When the pool is gone, all its workers have returned and what was queued has run. *)
Lemma pool_gone k j st :
  inv st -> tidy (sys st) -> pending k j (sys st) -> Pool ∈ gone st -> 0 < length (TP.workers (Sys.pool (sys st))) ->
  exists i e out ka, k <= i /\ Sys.jobs (sys st) !! i = Some j /\
    Workers.threads (Sys.work (sys st)) !! i = Some (e, Workers.Sent out ka).
Proof.
  intros Hi Ht [_ Hp] Hg Hn. assert (H9 : 9 <= length (gone st)).
  { destruct (decide (9 <= length (gone st))) as [|Hl]; [done|]. exfalso.
    rewrite (inv_order _ Hi) in Hg. assert (Hg' : Pool ∈ take 8 destruction) by (apply (take_mono (length (gone st))); [lia|done]).
    cbn in Hg'. set_solver. }
  pose proof (TP.inv_joined _ (inv_pool _ Hi) (inv_joined _ Hi H9)) as Hx.
  assert (Hex : forall w x, TP.workers (Sys.pool (sys st)) !! w = Some x -> x = TP.WExit) by (intros w x; by apply TP.all_exited).
  destruct (lookup_lt_is_Some_2 _ _ Hn) as [x0 Hx0]. pose proof (Hex _ _ Hx0) as ->.
  destruct (TP.inv_exit _ (inv_pool _ Hi)) as [_ Hq]; [by eapply TP.cnt_pos|].
  destruct Hp as [Hj|[[w Hw]|(i & Hk & Hj)]]; [rewrite Hq in Hj; by apply elem_of_nil in Hj|by specialize (Hex _ _ Hw)|].
  assert (Hlt : i < length (Workers.threads (Sys.work (sys st)))) by (rewrite <- (tidy_jobs _ Ht); by eapply lookup_lt_Some).
  destruct (lookup_lt_is_Some_2 _ _ Hlt) as [[e p] Hp]. destruct (Workers.is_sent p) eqn:Es.
  - destruct p; try done. by eexists i, e, _, _.
  - destruct (tidy_owned _ Ht i e p Hp Es) as [w Hw]. destruct (tidy_runs _ Ht w i Hw) as [j' Hj'].
    by specialize (Hex _ _ Hj').
Qed.

(** C20. What the workers find while the gateway is destroyed.  The event loop they hand their
    responses to is destroyed only after the last of them has returned.  But from the moment
    the destructor of the pool has begun (it waits for the running jobs and drains the
    queue) the filters, the health checker, the breakers, the balancer, the proxy, the router,
    the connections and the server are destroyed; and when the pool is gone, every
    request that was still queued at such a moment has been run from its first call to its
    response since then, by a pipeline that had none of these members left. *)
Theorem shutdown_order n m (g : Gateway.t W) ls s ls1 st1 ls2 st2 :
  Sys.run rounds fuel ls (Sys.create n m g) = Some s -> run ls1 (mk s []) = Some st1 -> run ls2 st1 = Some st2 ->
  (EventLoop ∈ gone st2 -> forall w x, TP.workers (Sys.pool (sys st2)) !! w = Some x -> x = TP.WExit) /\
  (TP.dtor (Sys.pool (sys st1)) <> TP.Alive ->
   [Filters; HealthChecker; CircuitBreakers; LoadBalancer; Proxy; Router; Connections; TcpServer] ⊆ gone st1 /\
   (0 < n -> Pool ∈ gone st2 -> forall j, j ∈ TP.tasks (Sys.pool (sys st1)) ->
    exists i e out ka, length (Sys.jobs (sys st1)) <= i /\ Sys.jobs (sys st2) !! i = Some j /\
      Workers.threads (Sys.work (sys st2)) !! i = Some (e, Workers.Sent out ka))).
Proof.
  intros Hr Hr1 Hr2. pose proof (shutdown_run_inv n m g ls s ls1 st1 Hr Hr1) as Hi1.
  pose proof (destroy_run_inv ls2 st1 st2 Hi1 Hr2) as Hi2. split.
  - intros He w x Hx. assert (H9 : 9 <= length (gone st2)).
    { destruct (decide (9 <= length (gone st2))) as [|Hn]; [done|]. exfalso.
      rewrite (inv_order _ Hi2) in He. assert (He' : EventLoop ∈ take 9 destruction).
      { apply (take_mono (length (gone st2))); [lia|done]. }
      cbn in He'. set_solver. }
    pose proof (inv_joined _ Hi2 H9) as Hj. eapply TP.all_exited; [|done]. by apply (TP.inv_joined _ (inv_pool _ Hi2)).
  - intros Hd. split; [exact (gone_from 8 st1 Hi1 (inv_started _ Hi1 Hd))|]. intros Hn Hg j Hj.
    pose proof (run_tidy_after ls1 (mk s []) st1 (run_tidy n m g ls s Hr) Hr1) as Ht1.
    destruct (run_pending (length (Sys.jobs (sys st1))) j ls2 st1 st2 Ht1) as [Ht2 Hp2]; [by split; [|left]|done|].
    apply pool_gone; [done..|]. rewrite (workers_count ls2 st1 st2 Hr2), (workers_count ls1 (mk s []) st1 Hr1). cbn.
    destruct (Sys.run_pool rounds fuel ls _ s Hr) as (lp & Hlp & _). rewrite (TP.run_workers _ _ _ Hlp). cbn. by rewrite length_replicate.
Qed.

End Shutdown.

(** ** Evaluated run *)

(** A request has just been queued when the loop ends. *)
Definition queued : list Sys.label := Sys.arrival ++ [Sys.Pool (TP.Client 0 0); Sys.Pool (TP.Client 0 0)].

(** Eight members and the flag of the pool. *)
Definition leaving : list label := replicate 9 DestroyNext.

(** The worker takes the job, runs it and sends; then it finds the queue empty and returns. *)
Definition draining : list label :=
  [Thread (Sys.Pool (TP.Worker 0 0)); Thread (Sys.Start 0 0 (Accounting.up_at 1))] ++ replicate 21 (Thread (Sys.Work 0)) ++
  [Thread (Sys.Send 0); Thread (Sys.Pool (TP.Worker 0 0)); Thread (Sys.Pool (TP.Worker 0 0))] ++ replicate 4 DestroyNext.

Definition after (ls : list label) : t := default (mk Sys.initial []) (run 100 4 ls (mk (Sys.state_after queued) [])).

Definition goes (ls : list label) : bool := match run 100 4 ls (mk (Sys.state_after queued) []) with Some _ => true | None => false end.

Lemma goes_to ls : goes ls = true -> run 100 4 ls (mk (Sys.state_after queued) []) = Some (after ls).
Proof. unfold goes, after. by destruct (run 100 4 ls (mk (Sys.state_after queued) [])). Qed.

Lemma goes_from ls ls' : goes ls = true -> goes (ls ++ ls') = true -> run 100 4 ls' (after ls) = Some (after (ls ++ ls')).
Proof. intros H1%goes_to H2%goes_to. rewrite destroy_run_app, H1 in H2. exact H2. Qed.

(** C20 applied to a request that is queued when the loop ends: its pipeline run starts and ends
    without the filters, the breakers, the balancer, the proxy and the router. *)
Lemma shutdown_order_witness :
  TP.tasks (Sys.pool (sys (after leaving))) = [(0, Gateway.sample_raw)] /\ Filters ∈ gone (after leaving) /\
  exists i e out ka, 0 <= i /\ Sys.jobs (sys (after (leaving ++ draining))) !! i = Some (0, Gateway.sample_raw) /\
    Workers.threads (Sys.work (sys (after (leaving ++ draining)))) !! i = Some (e, Workers.Sent out ka).
Proof.
  split; [vm_compute; reflexivity|].
  destruct (shutdown_order 100 4 1 1 Accounting.sample_start queued (Sys.state_after queued)
              leaving (after leaving) draining (after (leaving ++ draining))) as [_ H].
  - exact (Sys.system_runs_to queued ltac:(vm_compute; reflexivity)).
  - exact (goes_to leaving ltac:(vm_compute; reflexivity)).
  - exact (goes_from leaving draining ltac:(vm_compute; reflexivity) ltac:(vm_compute; reflexivity)).
  - destruct H as [Hg Hq]; [vm_compute; discriminate|]. split; [apply Hg; left|].
    assert (E : length (Sys.jobs (sys (after leaving))) = 0) by (vm_compute; reflexivity). rewrite E in Hq. apply Hq.
    + lia.
    + apply (bool_decide_unpack (Pool ∈ gone (after (leaving ++ draining)))). vm_compute. exact I.
    + assert (Et : TP.tasks (Sys.pool (sys (after leaving))) = [(0, Gateway.sample_raw)]) by (vm_compute; reflexivity).
      rewrite Et. left.
Defined.

End Shutdown.
